(* ===== verification/_CoqProject ===== *)
-Q . S2P
Prelude.v
SegmentedVector.v
SegmentedProof.v
SegmentedOps.v
SegmentedCopy.v
SegmentedWorld.v
VersionLock.v
LockTable.v
Store.v
Op.v
DenseTable.v
DenseHash.v
DenseRing.v
DenseProof.v
DenseErase.v
DenseSizes.v
DenseRange.v
Blocks.v
SkaSort.v
SkaFlag.v
SkaByte.v
RadixKeys.v
RadixCopy.v
RadixProof.v
SkaKeys.v
SkaList.v
SkaProof.v
LocSets.v
SkaSet.v
SkaListProof.v
DenseSet.v
Log.v
Pool.v
LogSpec.v
Tx.v
State.v
Nested.v
LockGuard.v
Machine.v
History.v
MachineInv.v
InvFacts.v
Preserve.v
Steps.v
StepsGuard.v
StepsCommit.v
Serializability.v
Order.v
Linearize.v
Programs.v
Stack.v
BQueue.v
QueueRuns.v
Clients.v
StmTests.v
PetersonTest.v
Links.v
OrderedList.v
OrderedObject.v
ListSet.v
CoarseList.v
FineList.v
LockFree.v
LockFreeHeap.v
LockFreeProof.v
LockFreeLin.v
LinkedList.v
ListObject.v
HashMap.v
HashObject.v
ObjectTests.v
Benchmarks.v
LinkedQueue.v
Bank.v
BankServer.v
Safety.v
Deadlock.v
Solo.v
Scenarios.v
ClientRuns.v
