(* ===== verification/Prelude.v ===== *)
(** * tl2-cpp: a verification library for the TL2 software transactional memory

    The program is a header-only library of transactions on shared memory: [src/tl2].
    User code reads and writes variables of type [TVar<T>] in the body of a call of
    [atomically]; the body works on a private log, and the commit locks what was
    accessed, takes a write version from a global clock, checks the reads against
    the version the transaction began with, and stores the writes.  Data structures
    ([src/zoo], [src/.graphs], [src/graphs]), an example ([src/examples/bank]) and small
    programs ([src/test], [src/perf]) are built on it.  This library models both layers
    and proves what makes them correct, for every number of threads, every program
    and every interleaving.  Every model is executable: the witnesses evaluate it.

    ** The parts and their files

    - [version_lock.h]: [VersionLock].  [Word] has the operations on the 64-bit word;
      [Spin] is the load and compare-and-swap loops as a step relation; the calls of any
      number of threads, with their arguments and results, are those of an abstract
      lock that holds a version ([spin_refines_lock]).  [hash_table.h]: [LockTable], the lock of an
      address.
    - [memory.h]: [Store] and [Log.PerThreadPolicy] (the staged objects), [Pool] (the other
      policy).  [op.h]: [Op] (a location, and the interface [LocationSet] with its laws),
      [LocSets] (the two sets that implement it), [DenseSet] (the first of them on the
      real hash table).  [log.h]: [Log], whose contract is [LogSpec]: a set of addresses read
      and a map of values written, the same for both sets.
    - [ankerl/unordered_dense.h], the hash table inside the first set: [DenseTable] (the
      operations), [DenseRing] (the ring of buckets: robin-hood insertion, backward-shift
      removal), [DenseProof], [DenseErase], [DenseSizes], [DenseRange] (every operation
      against the finite map of the pairs), [DenseHash] (the hashes).  Its segmented
      vector: [SegmentedVector] (the operations, in a memory of blocks and objects),
      [SegmentedProof], [SegmentedOps], [SegmentedCopy] (one operation at a time),
      [SegmentedWorld] (programs with any number of vectors).
    - [ska_sort.h], the sort of the commit: [Blocks], [SkaSort], [SkaFlag], [SkaByte]
      (the partition loops), [RadixKeys] (the types of keys and their order), [SkaKeys] and
      [SkaProof] (the sort in place), [SkaList] and [SkaListProof] (the same of keys that
      are lists), [RadixCopy] and [RadixProof] (the copying sorts), [SkaSet] (the instance
      that [LocSets] needs).
    - [state.h]: [State], the transaction manager of a thread.  [lock_guard.h]: [LockGuard].
      [stm.h] and [t_var.h]: [Tx] (the bodies as programs, and what they mean when run
      alone), [Machine] (the retry loop, accesses, validation and commit as the steps
      of interleaved threads), [Nested] (nested calls, exceptions, accesses outside a
      transaction, as one thread sees them).  In [Machine] an exception that is no
      [std::exception] ends the thread; [Nested] has what the caller can do after it.
    - The proof about the machine: [History] and [MachineInv] (the invariant), [InvFacts],
      [Preserve], [Steps], [StepsGuard], [StepsCommit] (its preservation),
      [Serializability], [Order], [Safety], [Deadlock], [Solo] (what follows from it).
    - The interface for clients: [Linearize].  A data structure gives a class instance
      [TxObject] with its sequential laws, [TxObjectLaws] or, for operations with
      preconditions, [TxGuardedLaws]; [Programs] gives it what threads that run programs
      of its operations see, in all interleavings.  Its instances are [Stack], [BQueue],
      [Clients], [LinkedQueue], and [OrderedObject], [ListObject] and [HashObject] on
      the bodies of [OrderedList], [LinkedList] and [HashMap].  [Bank] has
      theorems on its bodies; [Links] is what the lists share.  [BankServer] has the
      bank's transactions as an object for threads ([BankObject]), and the server, whose
      threads run them on the machine between accesses to shared plain objects ([Server]).
      [QueueRuns] is what threads do to the ring of [BQueue]: the producer and the
      consumer of [perf/profile_queue.cc] and the benchmarks of [batch_bench.cc].
    - The repository's tests: [StmTests] ([src/test]) and [ObjectTests]
      ([src/zoo/*_test.cc]), each a program with what it expects proved of every run
      to the end; [PetersonTest], the machine with a plain counter beside it.  The
      benchmarks and profilers: [Benchmarks] (counters, swaps, the stack, the lists),
      the programs of the threads with what holds at the end of every run; those
      of the queues are in [QueueRuns] and [LinkedQueue].
    - The lists that do not use transactions ([graphs/ordered_ll]): [ListSet] (sets
      of keys, chains of nodes), [CoarseList] (one lock), [FineList] (hand-over-hand
      locking), [LockFree], [LockFreeHeap], [LockFreeProof], [LockFreeLin] (lock-free).
    - Concrete runs and witnesses: [Scenarios], [ClientRuns], and at the end of several
      files.

    A transaction of a thread in [Machine]: [Idle], [Attempt] (the top of the retry loop),
    [Body] and the [Load]s (user code and its reads), [Guarding] (the constructor of the
    guard), [Incr], [Validate], [Commit], [Moving], [Release] (the destructor).  The state
    shared by the threads is the clock, the words of the lock table and the data of
    the variables.

    ** What the theorems show

    - Correctness of the transactions: the committed transactions are equivalent to
      their bodies run one at a time in the order of their write versions
      ([serializable]), with the results the callers got, in program order
      ([results_are_commits]) and in an order that respects real time ([real_time]).
      For programs over an object that order interleaves the threads' programs, and the
      answers are those of the abstract object ([programs_linearizable]).
    - Safety of the mechanism: locks exclude one another ([locks_exclude]); no step is
      undefined ([step_defined]); an access outside a transaction throws, and no
      memory changes ([no_access_outside]); a nested call is its body ([nested_is_flat]).
    - Progress: a transaction that runs while the others hold no lock ends
      ([obstruction_free], [alone_atomic]); there is no deadlock when the addresses lie in
      one window of the lock table ([window_no_deadlock]).
    - Contracts of the components: the lock, the log, the two sets, the hash table (a
      finite map, under every operation), the radix sorts (in place: a sorted
      permutation; copying: a stable sort, for every type of key), the segmented vector (a
      [std::vector], without a fault, and without a leak but for the exceptions of two
      operations, which it counts), the hash of a range of bytes (which it
      reads from end to end and not beyond), the pool.
    - Data structures: the clients refine a counter, a stack, bounded and unbounded
      queues, sets, lists, a map and a bank, the ordered list, the hash map and the linked
      list without [remove] under threads too ([ordered_list_linearizable]); the linked
      queue is first in, first out under threads ([linked_queue_fifo]), and a consumer on
      the ring gets what the producer produced, in order ([producer_consumer_fifo]); the
      lock-based lists and [add] and [remove] of the lock-free one are linearizable.
      Programs of the bank's transactions on threads leave the accounts of a serial
      order ([bank_linearizable]).  The Peterson lock made of transactions protects a plain counter ([peterson_counts]).
      Of the benchmarks: no increment is lost ([benchmark_total]), swaps restore the
      values ([swaps_restore]), stack and queues neither lose nor invent elements
      ([stack_conserves], [linked_conserves], [bench_read_heavy_ends]), balanced work
      leaves the rings and the list empty ([bench_batch_empty],
      [bench_low_contention_ends], [benchmark_batch_empty]),
      and the answers account for the length of the ordered list
      ([run_benchmark_ends]).
    - Behaviours that are not what the code intends, each shown by a run or a theorem:
      [deadlock_reachable], [inconsistent_attempt], [lost_after_exception],
      [try_deq_duplicates], [remove_unlinks_tail], [contains_wrong], [logger_check],
      [pair_lists_unsorted], [copy_constructor_leaks], [push_back_leaks],
      [reader_of_deleted], [spin_races].

    ** Bounds and fuel

    Words are integers with the wrap-around written out ([W64]).  Versions are the
    upper 63 bits of a lock word; the theorems about runs of the machine are for runs of
    fewer than [2^63] steps, in which no version wraps.  The hash table packs a distance in
    24 bits: its theorems are for fewer than [2^24 - 5] pairs ([small]).  The counters of
    the copying sorts have 32 bits up to [2^32] elements and 64 beyond, and ranges have
    fewer than [2^63].  An allocator never gives the segmented vectors more elements than
    [2^63].  The sort of lists recurses sixteen times, as the code does, before
    [std::sort].  Every loop with fuel is proved to end: the probes of the hash
    table within [fuel_of] (the buckets and three), the partition loops within one turn
    for each element, the searches of the lists within the number of nodes, [reserve]
    within the blocks that the elements take.

    ** Assumptions

    Shared accesses are sequentially consistent.  Only in [BankServer] is a data race on
    plain objects something the model sees; it is undefined there.  In [Machine] the racy read of a
    trivially copyable variable is one load, as on the hardware the library is for.
    The constructors of the nodes and elements of the data structures do not throw.
    [std::sort] and [std::partition] are parameters with the contract of the standard, and
    have instances to run.  Hash functions of user types are parameters, of 64-bit
    results.  User code is a program of the type [Tx.tx]: reads, writes, local
    computation, results and exceptions.

    ** Not modelled

    Padding, alignment and cache lines; the formatters of [DEBUG]; allocation failure,
    but for the blocks of the segmented vector and the storage of its vector of blocks.  In the hash table: other load factors,
    tables on segmented containers, allocators of tables that differ, transparent
    overloads.  In the radix sort: lists of lists and lists inside pairs, for which the
    code puts the modelled sorters together; the theorem on lists leaves out lists of
    [bool], which are undefined when a group is empty, and of lists of negative plain
    [char] it says only that they are permuted.  Destructors of the data structures.
    Of the tests: [check_rvo.cc], which counts the copies a compiler makes, the flag that
    makes threads start together, repetitions and printing; a memory that an earlier
    part of a test filled is the initial memory of a machine.  Of the benchmarks: timing,
    printing and the generators of random numbers, which are arguments; the
    benchmark of the linked list with more threads than one, which read nodes that
    [remove] has freed ([reader_of_deleted]).  Of the bank: the loop of [main.cc], whose runs
    race ([spin_races]) and whose check is [logger_check]. *)

From Stdlib Require Export ZArith Lia Bool.
From stdpp Require Export base tactics numbers list gmap sorting relations.

(** Notations of the development live in a scope of their own. *)
Declare Scope tl2_scope.
Delimit Scope tl2_scope with tl2.

#[global] Open Scope Z_scope.

(** [addr_t], [version_t] and thread identifiers. [types.h] makes the first two
    64-bit unsigned words; a word is an integer of [[0, 2^64)]. *)
Abbreviation addr_t := Z (only parsing).
Abbreviation version_t := Z (only parsing).
Abbreviation tid_t := nat (only parsing).

(** ** Automation *)

(** Rewriting base for the bit operations of the versioned lock. *)
Create HintDb tl2 discriminated.

(** Case analysis on the innermost [match] or [if] of the goal. *)
Ltac case_goal :=
  match goal with
  | |- context [match ?x with _ => _ end] =>
      lazymatch x with context [match _ with _ => _ end] => fail | _ => destruct x eqn:? end
  end.

(** The same in a hypothesis. *)
Ltac case_hyp H :=
  match type of H with
  | context [match ?x with _ => _ end] =>
      lazymatch x with context [match _ with _ => _ end] => fail | _ => destruct x eqn:? end
  end.

(** ** Sorted lists *)

(** In a sorted list an earlier element is below a later one. *)
Lemma sorted_lookup {A} (R : A -> A -> Prop) (ls : list A) (i j : nat) x y :
  StronglySorted R ls -> (i < j)%nat -> ls !! i = Some x -> ls !! j = Some y -> R x y.
Proof.
  intros Hs. revert i j. induction Hs as [|a ls Hs IH Ha]; intros i j Hij Hi Hj; [done|].
  destruct i as [|i], j as [|j]; simpl in *; try lia.
  - simplify_eq. rewrite Forall_forall in Ha. by eapply Ha, list_elem_of_lookup_2.
  - apply (IH i j); [lia|done..].
Qed.

Lemma lookup_sorted {A} (R : A -> A -> Prop) (ls : list A) :
  (forall (i j : nat) x y, (i < j)%nat -> ls !! i = Some x -> ls !! j = Some y -> R x y) ->
  StronglySorted R ls.
Proof.
  induction ls as [|a ls IH]; intros Hl; constructor.
  - apply IH. intros i j x y Hij Hi Hj. apply (Hl (S i) (S j)); [lia|done..].
  - apply Forall_lookup. intros i x Hi. apply (Hl 0%nat (S i) a x); [lia|done..].
Qed.

Lemma StronglySorted_filter {B} (R : relation B) (P : B -> Prop) `{forall x, Decision (P x)} l :
  StronglySorted R l -> StronglySorted R (filter P l).
Proof.
  induction 1 as [|x l Hs IH Hx]; [constructor|]. rewrite filter_cons. case_decide; [|done].
  constructor; [done|]. rewrite Forall_forall in Hx |- *. intros y [_ Hy]%list_elem_of_filter. by apply Hx.
Qed.

Lemma omap_submseteq_mono {B C} (f : B -> option C) l k : l ⊆+ k -> omap f l ⊆+ omap f k.
Proof.
  induction 1 as [|x l k _ IH|x y l|x l k _ IH|l k j _ IH1 _ IH2]; simpl; try done.
  - destruct (f x); [by apply submseteq_skip|done].
  - destruct (f x), (f y); try done. apply submseteq_swap.
  - destruct (f x); [by apply submseteq_cons|done].
  - by etrans.
Qed.

Lemma NoDup_submultiset {B} (l k : list B) : l ⊆+ k -> NoDup k -> NoDup l.
Proof. intros [r ->]%submseteq_Permutation [H _]%NoDup_app. done. Qed.

(** A sum in which one term is larger by one. *)
Lemma sum_list_with_S (f g : nat -> nat) (b : nat) (ls : list nat) :
  NoDup ls -> b ∈ ls -> f b = S (g b) -> (forall c, c <> b -> f c = g c) ->
  sum_list_with f ls = S (sum_list_with g ls).
Proof.
  intros Hn Hb Hf Hg. induction Hn as [|c ls Hc Hn IH]; [by apply elem_of_nil in Hb|]. simpl.
  apply elem_of_cons in Hb as [->|Hb].
  - rewrite Hf. assert (sum_list_with f ls = sum_list_with g ls) as ->; [|lia].
    clear IH Hn. induction ls as [|d ls IH]; [done|]. simpl. apply not_elem_of_cons in Hc as [Hd Hc].
    by rewrite Hg, IH.
  - rewrite (IH Hb), Hg by (intros ->; done). lia.
Qed.

(** ** 64-bit unsigned words *)
Module W64.

Definition modulus : Z := 2 ^ 64.

(** A result truncated to the width of [uint64_t]. *)
Definition wrap (z : Z) : Z := z mod modulus.

Definition in_range (z : Z) : Prop := 0 <= z < modulus.

Lemma wrap_range z : in_range (wrap z).
Proof. unfold in_range, wrap, modulus. apply Z.mod_pos_bound. lia. Qed.

Lemma wrap_small z : in_range z -> wrap z = z.
Proof. apply Z.mod_small. Qed.

Lemma land_1 s : Z.land s 1 = s mod 2.
Proof. change 1 with (Z.ones 1). rewrite Z.land_ones by lia. reflexivity. Qed.

(** Clearing the least significant bit of a word. *)
Lemma land_clear_lsb s : in_range s -> Z.land s (modulus - 2) = s - s mod 2.
Proof.
  intros [H0 H1]. unfold modulus in *.
  assert (E : Z.land s (2 ^ 64 - 2) = Z.ldiff s 1).
  { apply Z.bits_inj'. intros n Hn. rewrite Z.land_spec, Z.ldiff_spec.
    change (2 ^ 64 - 2) with (Z.shiftl (Z.ones 63) 1).
    rewrite Z.shiftl_spec by lia.
    destruct (Z.eq_dec n 0) as [->|Hn0]; [by rewrite andb_false_r, andb_false_r|].
    rewrite (Z.bits_above_log2 1) by (simpl; lia).
    destruct (Z.lt_ge_cases n 64).
    - rewrite Z.ones_spec_low by lia. reflexivity.
    - rewrite Z.ones_spec_high by lia. simpl.
      rewrite <- (Z.mod_small s (2 ^ 64)) by lia.
      rewrite Z.mod_pow2_bits_high by lia. reflexivity. }
  rewrite E. change 1 with (Z.ones 1). rewrite Z.ldiff_ones_r by lia.
  rewrite Z.shiftr_div_pow2, Z.shiftl_mul_pow2 by lia.
  change (2 ^ 1) with 2. pose proof (Z.div_mod s 2). lia.
Qed.

(** Setting the least significant bit of a word in which it is clear. *)
Lemma lor_double k b : Z.lor (2 * k) (Z.b2z b) = 2 * k + Z.b2z b.
Proof.
  apply Z.bits_inj'. intros n Hn. rewrite Z.lor_spec.
  destruct (Z.eq_dec n 0) as [->|Hn0].
  - rewrite Z.testbit_even_0, Z.add_comm, Z.add_b2z_double_bit0, Z.b2z_bit0. done.
  - replace n with (Z.succ (n - 1)) by lia.
    rewrite Z.testbit_even_succ by lia.
    destruct b; simpl Z.b2z.
    + rewrite (Z.bits_above_log2 1), orb_false_r, Z.testbit_odd_succ by (simpl; lia). done.
    + rewrite Z.bits_0, orb_false_r, Z.add_0_r, Z.testbit_even_succ by lia. done.
Qed.

End W64.
