(* ===== verification/SegmentedVector.v ===== *)
(** * The segmented vector of [tl2/ankerl/unordered_dense.h]

    A sequence kept in blocks of equal size: [m_blocks] has the address of each
    block, and the element [i] is in block [i >> num_bits] at [i & mask].  The
    vectors of a program share the memory: the blocks allocated, each with the
    allocator it came from, and the objects alive in them.  [m_blocks] is a
    [std::vector] that has its own storage, with room for so many pointers; it asks
    for more when it grows.  An operation ends normally, or with the exception of
    an allocator that has no block left or no storage for [m_blocks], and in both
    cases the memory and the vector are those at that point; an exception that
    leaves a [noexcept] function ends the program; reading what is
    not an object, constructing over an object whose destructor has work to do,
    freeing a block that is not allocated, that another allocator gave or that
    still holds such an object is a [Fault]. *)

From S2P Require Import Prelude.
#[local] Open Scope Z_scope.

(** ** Memory and vectors *)

(** A place: a block and an index in it. *)
Abbreviation place := (Z * Z)%type.

Record mem (A : Type) := Mem { allocated : gmap Z Z; objects : gmap place A }.
Arguments Mem {A} _ _.
Arguments allocated {A} _.
Arguments objects {A} _.

(** [m_alloc]: the allocator inside [m_blocks]; equal allocators have the same
    number.  [m_room]: [m_blocks.capacity()]. *)
Record vec := Vec { m_blocks : list Z; m_room : Z; m_alloc : Z; m_size : Z }.

#[export] Instance vec_inhabited : Inhabited vec := populate (Vec [] 0 0 0).

(** ** Effects: the memory and the vector [*this], exceptions and faults *)

Inductive outcome (A X : Type) := Done (x : X) (m : mem A) (v : vec) | BadAlloc (m : mem A) (v : vec) | Terminated | Fault.
Arguments Done {A X} _ _ _.
Arguments BadAlloc {A X} _ _.
Arguments Terminated {A X}.
Arguments Fault {A X}.

Definition eff (A X : Type) : Type := mem A -> vec -> outcome A X.

Definition ret {A X} (x : X) : eff A X := fun m v => Done x m v.

Definition bind {A X Y} (c : eff A X) (k : X -> eff A Y) : eff A Y := fun m v =>
  match c m v with
  | Done x m' v' => k x m' v'
  | BadAlloc m' v' => BadAlloc m' v'
  | Terminated => Terminated
  | Fault => Fault
  end.

(** The body of a [noexcept] function. *)
Definition noexcept {A X} (c : eff A X) : eff A X := fun m v =>
  match c m v with BadAlloc _ _ => Terminated | out => out end.

Declare Scope seg_scope.
Notation "x <~ c ; k" := (bind c (fun x => k)) (at level 100, c at next level, k at level 200, right associativity,
  format "x  <~  c ;  '//' k") : seg_scope.
Notation "c ;; k" := (bind c (fun _ => k)) (at level 100, k at level 200, right associativity,
  format "c ;;  '//' k") : seg_scope.
#[local] Open Scope seg_scope.

Definition self {A} : eff A vec := fun m v => Done v m v.
Definition set_blocks {A} (bs : list Z) : eff A unit := fun m v => Done tt m (Vec bs (m_room v) (m_alloc v) (m_size v)).
Definition set_room {A} (n : Z) : eff A unit := fun m v => Done tt m (Vec (m_blocks v) n (m_alloc v) (m_size v)).
Definition set_size {A} (n : Z) : eff A unit := fun m v => Done tt m (Vec (m_blocks v) (m_room v) (m_alloc v) n).
Definition set_alloc {A} (id : Z) : eff A unit := fun m v => Done tt m (Vec (m_blocks v) (m_room v) id (m_size v)).

Definition from_option {A X} (x : option X) : eff A X := fun m v =>
  match x with Some x => Done x m v | None => Fault end.

(** [c] as many times as a counting loop runs it. *)
Fixpoint times {A} (n : nat) (c : eff A unit) : eff A unit :=
  match n with O => ret tt | S n' => c ;; times n' c end.

(** ** The operations *)

(** Calculates the maximum number for x in  (s << x) <= max_val *)
Fixpoint num_bits_closest (fuel : nat) (max_val s f : Z) : Z :=
  if W64.wrap (Z.shiftl s (f + 1)) <=? max_val then
    match fuel with O => f | S fuel' => num_bits_closest fuel' max_val s (f + 1) end
  else f.

(** What the template and its arguments fix: the size limit of a block and the
    size of an element, whether [T] is trivially destructible, what a moved-from
    element holds, [T()], and the allocator: the block the allocator of that
    number gives when these are the blocks in use, or none; and the room
    [m_blocks] gets when it asks for that of so many pointers, or none
    ([std::bad_alloc] or [std::length_error]). *)
Record params (A : Type) := Params {
  max_segment_size_bytes : Z;
  sizeof : Z;
  is_trivially_destructible : bool;
  moved : A -> A;
  init : A;
  allocate : Z -> gmap Z Z -> option Z;
  vector_storage : Z -> gmap Z Z -> Z -> option Z;
  propagate_on_move : bool }.
Arguments Params {A} _ _ _ _ _ _ _ _.
Arguments max_segment_size_bytes {A} _.
Arguments sizeof {A} _.
Arguments is_trivially_destructible {A} _.
Arguments moved {A} _ _.
Arguments init {A} _.
Arguments allocate {A} _ _ _.
Arguments vector_storage {A} _ _ _ _.
Arguments propagate_on_move {A} _.

Section Operations.
Context {A : Type} (T : params A).
Implicit Types (m : mem A) (v other : vec) (a : A) (p : place).

Definition num_bits : Z := num_bits_closest 64 (max_segment_size_bytes T) (sizeof T) 0.
(** [1U << num_bits], and the mask: 32 bits. *)
Definition num_elements_in_block : Z := Z.shiftl 1 num_bits mod 2 ^ 32.
Definition mask : Z := (num_elements_in_block - 1) mod 2 ^ 32.

(** [m_data[i >> num_bits][i & mask]], of the vector and of its iterators. *)
Definition at_index (blocks : list Z) (i : Z) : option place :=
  b ← blocks !! Z.to_nat (Z.shiftr i num_bits); Some (b, Z.land i mask).

Definition load p : eff A A := fun m v => match objects m !! p with Some a => Done a m v | None => Fault end.

Definition store p a : eff A unit := fun m v =>
  match objects m !! p with Some _ => Done tt (Mem (allocated m) (<[p := a]> (objects m))) v | None => Fault end.

(** [new (p) T(a)]. *)
Definition construct p a : eff A unit := fun m v =>
  if decide (is_Some (allocated m !! p.1)) then
    if negb (is_trivially_destructible T) && bool_decide (is_Some (objects m !! p)) then Fault
    else Done tt (Mem (allocated m) (<[p := a]> (objects m))) v
  else Fault.

(** [~T()]: nothing happens to an element that is trivially destructible. *)
Definition destroy p : eff A unit := fun m v =>
  if is_trivially_destructible T then Done tt m v
  else match objects m !! p with
       | Some _ => Done tt (Mem (allocated m) (delete p (objects m))) v
       | None => Fault
       end.

(** The objects of a block, and the others. *)
Definition inside (b : Z) m : gmap place A := filter (fun po => po.1.1 = b) (objects m).
Definition outside (b : Z) m : gmap place A := filter (fun po => po.1.1 <> b) (objects m).

Definition allocate_block : eff A Z := fun m v =>
  match allocate T (m_alloc v) (allocated m) with
  | Some b => Done b (Mem (<[b := m_alloc v]> (allocated m)) (objects m)) v
  | None => BadAlloc m v
  end.

Definition deallocate_block (b : Z) : eff A unit := fun m v =>
  if decide (allocated m !! b = Some (m_alloc v)) then
    if negb (is_trivially_destructible T) && negb (Nat.eqb (size (inside b m)) 0) then Fault
    else Done tt (Mem (delete b (allocated m)) (outside b m)) v
  else Fault.

(** [std::size_t] arithmetic of the length of [m_blocks]. *)
Definition blocks_size v : Z := Z.of_nat (length (m_blocks v)).

Definition vec_size v : Z := m_size v.
Definition empty v : bool := 0 =? m_size v.
Definition capacity v : Z := W64.wrap (blocks_size v * num_elements_in_block).

(** [operator[](i)] as an lvalue. *)
Definition element_place (i : Z) : eff A place := v <~ self; from_option (at_index (m_blocks v) i).

(** [operator[](i)] as a value. *)
Definition operator_index (i : Z) : eff A A := p <~ element_place i; load p.

Definition back : eff A A := v <~ self; operator_index (W64.wrap (m_size v - 1)).

(** [m_blocks.reserve(n)]: nothing changes when it throws. *)
Definition blocks_reserve (n : Z) : eff A unit := fun m v =>
  if n <=? m_room v then Done tt m v
  else match vector_storage T (m_alloc v) (allocated m) n with
       | Some room => set_room room m v
       | None => BadAlloc m v
       end.

(** [m_blocks.push_back(block)]: it needs room for one more pointer. *)
Definition blocks_push_back (block : Z) : eff A unit :=
  v <~ self;
  blocks_reserve (blocks_size v + 1) ;;
  set_blocks (m_blocks v ++ [block]).

(** When [push_back] throws, the block is in no vector. *)
Definition increase_capacity : eff A unit :=
  block <~ allocate_block;
  blocks_push_back block.

Definition dealloc : eff A unit :=
  v <~ self;
  foldr (fun b k => deallocate_block b ;; k) (ret tt) (m_blocks v).

Definition calc_num_blocks_for_capacity (capacity : Z) : Z :=
  W64.wrap (capacity + num_elements_in_block - 1) / num_elements_in_block.

Definition emplace_back a : eff A unit :=
  v <~ self;
  (if m_size v =? capacity v then increase_capacity else ret tt) ;;
  p <~ element_place (m_size v);
  construct p a ;;
  set_size (W64.wrap (m_size v + 1)).

Definition pop_back : eff A unit :=
  v <~ self;
  p <~ element_place (W64.wrap (m_size v - 1));
  destroy p ;;
  set_size (W64.wrap (m_size v - 1)).

(** The loop of [reserve]. *)
Fixpoint reserve_loop (fuel : nat) (new_capacity : Z) : eff A unit :=
  v <~ self;
  if capacity v <? new_capacity then
    match fuel with
    | O => from_option None
    | S fuel' => increase_capacity ;; reserve_loop fuel' new_capacity
    end
  else ret tt.

(** Turns that are enough: the blocks that [new_capacity] elements take, and one. *)
Definition reserve_fuel (new_capacity : Z) : nat := S (Z.to_nat (new_capacity / num_elements_in_block)).

Definition reserve (new_capacity : Z) : eff A unit :=
  blocks_reserve (calc_num_blocks_for_capacity new_capacity) ;;
  reserve_loop (reserve_fuel new_capacity) new_capacity.

(** [operator[](ix).~T()] for [n] values of [ix] from [ix] on. *)
Fixpoint destroy_from (ix : Z) (n : nat) : eff A unit :=
  match n with
  | O => ret tt
  | S n' => p <~ element_place ix; destroy p ;; destroy_from (ix + 1) n'
  end.

Definition resize_shrink (new_size : Z) : eff A unit :=
  v <~ self;
  (if is_trivially_destructible T then ret tt else destroy_from new_size (Z.to_nat (m_size v - new_size))) ;;
  set_size new_size.

(** [resize(count, value)]. *)
Definition resize_value (count : Z) a : eff A unit :=
  v <~ self;
  if count <? m_size v then resize_shrink count
  else if m_size v <? count then
    reserve count ;;
    times (Z.to_nat (count - m_size v)) (emplace_back a)
  else ret tt.

(** [resize(count)]. *)
Definition resize (count : Z) : eff A unit :=
  v <~ self;
  if count <? m_size v then resize_shrink count
  else if m_size v <? count then
    reserve count ;;
    times (Z.to_nat (count - m_size v)) (emplace_back (init T))
  else ret tt.

Definition clear : eff A unit :=
  v <~ self;
  (if is_trivially_destructible T then ret tt else destroy_from 0 (Z.to_nat (m_size v))) ;;
  set_size 0.

Fixpoint shrink_loop (fuel : nat) (num_blocks_required : Z) : eff A unit :=
  v <~ self;
  if num_blocks_required <? blocks_size v then
    match fuel with
    | O => from_option None
    | S fuel' =>
        b <~ from_option (last (m_blocks v));
        deallocate_block b ;;
        set_blocks (removelast (m_blocks v)) ;;
        shrink_loop fuel' num_blocks_required
    end
  else ret tt.

(** [m_blocks.shrink_to_fit()]: a request, which does not throw. *)
Definition blocks_shrink_to_fit : eff A unit := fun m v =>
  set_room (default (m_room v) (vector_storage T (m_alloc v) (allocated m) (blocks_size v))) m v.

Definition shrink_to_fit : eff A unit :=
  v <~ self;
  shrink_loop (length (m_blocks v)) (calc_num_blocks_for_capacity (m_size v)) ;;
  blocks_shrink_to_fit.

(** *** Iterators *)

Record iter := Iter { m_data : list Z; m_idx : Z }.

Definition begin_it v : iter := Iter (m_blocks v) 0.
Definition end_it v : iter := Iter (m_blocks v) (m_size v).

(** The 64-bit signed value of a word: [difference_type]. *)
Definition to_diff (z : Z) : Z := if z <? 2 ^ 63 then z else z - 2 ^ 64.

Definition iter_add (it : iter) (diff : Z) : iter := Iter (m_data it) (W64.wrap (to_diff (m_idx it) + diff)).
Definition iter_sub (it : iter) (diff : Z) : iter := Iter (m_data it) (W64.wrap (to_diff (m_idx it) - diff)).
Definition iter_diff (it o : iter) : Z := to_diff (m_idx it) - to_diff (m_idx o).
Definition iter_next (it : iter) : iter := Iter (m_data it) (W64.wrap (m_idx it + 1)).
Definition iter_prev (it : iter) : iter := Iter (m_data it) (W64.wrap (m_idx it - 1)).
Definition iter_eq (it o : iter) : bool := m_idx it =? m_idx o.
Definition iter_lt (it o : iter) : bool := m_idx it <? m_idx o.

(** [&*it]. *)
Definition iter_place (it : iter) : option place := at_index (m_data it) (m_idx it).

(** *** Two vectors *)

(** [for (auto const &o : other) emplace_back(o)], and with [std::move(o)], which
    leaves a moved-from element behind. *)
Fixpoint append_loop (moving : bool) (fuel : nat) (it last : iter) : eff A unit :=
  if negb (iter_eq it last) then
    match fuel with
    | O => from_option None
    | S fuel' =>
        p <~ from_option (iter_place it);
        o <~ load p;
        emplace_back o ;;
        (if moving then store p (moved T o) else ret tt) ;;
        append_loop moving fuel' (iter_next it) last
    end
  else ret tt.

(** Both overloads of [append_everything_from]. *)
Definition append_everything_from (moving : bool) other : eff A unit :=
  v <~ self;
  reserve (W64.wrap (m_size v + m_size other)) ;;
  append_loop moving (Z.to_nat (m_size other)) (begin_it other) (end_it other).

(** [operator=] of a vector that is not [*this]. *)
Definition operator_copy other : eff A unit := clear ;; append_everything_from false other.

(** The same of an rvalue that is not [*this]; [m_blocks] moved from is empty and
    has no room, and assigned from an empty one of another allocator that stays
    behind it keeps its own.  The result is [other] afterwards. *)
Definition operator_move other : eff A vec :=
  noexcept (
    clear ;;
    dealloc ;;
    v <~ self;
    if m_alloc other =? m_alloc v then
      set_blocks (m_blocks other) ;;
      set_room (m_room other) ;;
      set_size (m_size other) ;;
      ret (Vec [] 0 (m_alloc other) 0)
    else
      set_blocks [] ;;
      (if propagate_on_move T then set_room 0 ;; set_alloc (m_alloc other) else ret tt) ;;
      append_everything_from true other ;;
      ret other).

Definition destructor : eff A unit := clear ;; dealloc.

(** The vector a constructor starts from. *)
Definition fresh (alloc : Z) : vec := Vec [] 0 alloc 0.

(** [segmented_vector(other, alloc)]: a constructor's exception reaches the caller,
    and no destructor runs on the vector. *)
Definition construct_copy other (alloc : Z) m : outcome A unit := append_everything_from false other m (fresh alloc).

(** [segmented_vector(std::move(other), alloc)]. *)
Definition construct_move other (alloc : Z) m : outcome A vec := operator_move other m (fresh alloc).

End Operations.
