(* ===== verification/SegmentedProof.v ===== *)
(** * What the operations of the segmented vector do

    The places of a vector's elements, the part of the memory a vector owns, and
    the effect of each operation on the elements and on the rest of the memory. *)

From S2P Require Import Prelude SegmentedVector.
#[local] Open Scope Z_scope.
#[local] Open Scope seg_scope.

(** What the code relies on: the sizes are those of a program that compiles, the
    allocator gives a block that is not in use, and never more elements than
    half the address space, and [std::vector] gets the room it asks for or throws. *)
Class Good {A} (T : params A) : Prop := {
  max_size_ok : 0 < max_segment_size_bytes T < 2 ^ 31;
  sizeof_ok : 0 < sizeof T < 2 ^ 63;
  allocate_fresh id al b : allocate T id al = Some b -> al !! b = None;
  allocate_space id al b : allocate T id al = Some b -> (Z.of_nat (size al) + 1) * num_elements_in_block T < 2 ^ 63;
  storage_room id al n c : vector_storage T id al n = Some c -> n <= c }.

(** ** The size of a block *)

Lemma num_bits_closest_spec max s fuel f : 0 < max < 2 ^ 31 -> 0 < s < 2 ^ 63 -> 0 <= f -> 31 <= Z.of_nat fuel + f ->
  (f = 0 \/ s * 2 ^ f <= max) ->
  let r := num_bits_closest fuel max s f in 0 <= r /\ (r = 0 \/ s * 2 ^ r <= max) /\ max < s * 2 ^ (r + 1).
Proof.
  intros Hmax Hs. revert f. induction fuel as [|fuel IH]; intros f Hf Hfuel Hle; simpl;
    (assert (Hw : 0 <= s * 2 ^ (f + 1) < 2 ^ 64)
       by (rewrite Z.pow_add_r by lia; destruct Hle as [-> | Hle]; lia));
    rewrite Z.shiftl_mul_pow2, W64.wrap_small by (done || lia);
    destruct (Z.leb_spec (s * 2 ^ (f + 1)) max); try (split; [|split]; auto; lia).
  - exfalso. assert (2 ^ 31 <= 2 ^ (f + 1)) by (apply Z.pow_le_mono_r; lia). nia.
  - apply IH; [lia|lia|by right].
Qed.

Section Proofs.
Context {A : Type} (T : params A) `{!Good T}.
Implicit Types (m : mem A) (v w : vec) (a : A) (p : place) (l : list A) (bs : list Z) (f g : Z -> option A).

Abbreviation N := (num_elements_in_block T).
Abbreviation trivial := (is_trivially_destructible T).

(** A block holds a power of two of elements: as many as fit in the limit, or one. *)
Lemma block_elements : exists k, 0 <= k < 31 /\ num_bits T = k /\ N = 2 ^ k /\
  (N = 1 \/ sizeof T * N <= max_segment_size_bytes T) /\ max_segment_size_bytes T < sizeof T * (2 * N).
Proof.
  pose proof max_size_ok as Hm. pose proof sizeof_ok as Hs.
  destruct (num_bits_closest_spec _ _ 64 0 Hm Hs) as (H0 & Hle & Hgt); [lia|lia|by left|].
  unfold num_elements_in_block, num_bits. set (r := num_bits_closest _ _ _ _) in *. exists r.
  assert (Hr : r < 31).
  { destruct Hle as [E|Hle]; [lia|]. apply Z.nle_gt. intros Hr.
    assert (2 ^ 31 <= 2 ^ r) by (apply Z.pow_le_mono_r; lia). nia. }
  assert (2 ^ r < 2 ^ 31) by (apply Z.pow_lt_mono_r; lia).
  rewrite Z.shiftl_mul_pow2, Z.mul_1_l, Z.mod_small by lia. rewrite Z.pow_add_r in Hgt by lia.
  repeat split; try lia. destruct Hle as [-> | Hle]; [by left|by right].
Qed.

Lemma N_range : 0 < N < 2 ^ 31.
Proof.
  destruct block_elements as (k & Hk & _ & -> & _). split; [by apply Z.pow_pos_nonneg; lia|apply Z.pow_lt_mono_r; lia].
Qed.

(** Blocks that do not fill half the address space leave one more room there. *)
Lemma blocks_below x : x * N < 2 ^ 63 -> x * N + N <= 2 ^ 63.
Proof.
  destruct block_elements as (k & Hk & _ & -> & _). intros Hx. assert (Hp : 0 < 2 ^ k) by (apply Z.pow_pos_nonneg; lia).
  assert (E : 2 ^ 63 = 2 ^ (63 - k) * 2 ^ k) by (rewrite <- Z.pow_add_r by lia; f_equal; lia).
  rewrite E in *. apply Z.mul_lt_mono_pos_r in Hx; [|done].
  replace (x * 2 ^ k + 2 ^ k) with ((x + 1) * 2 ^ k) by ring. apply Z.mul_le_mono_nonneg_r; lia.
Qed.

(** ** The places of the elements *)

Lemma at_index_eq bs i : 0 <= i -> at_index T bs i = (b ← bs !! Z.to_nat (i / N); Some (b, i mod N)).
Proof.
  intros Hi. destruct block_elements as (k & Hk & Ek & En & _). unfold at_index, mask.
  pose proof N_range. rewrite (Z.mod_small (N - 1)) by lia.
  rewrite En, Ek, Z.shiftr_div_pow2 by lia.
  replace (2 ^ k - 1) with (Z.ones k) by (rewrite Z.ones_equiv; lia). by rewrite Z.land_ones by lia.
Qed.

Lemma at_index_inv bs i p : 0 <= i -> at_index T bs i = Some p ->
  bs !! Z.to_nat (i / N) = Some p.1 /\ p.2 = i mod N /\ i < N * Z.of_nat (length bs).
Proof.
  intros Hi. rewrite at_index_eq by done. destruct (bs !! _) as [b|] eqn:Hb; [|done]. intros [= <-]. simpl.
  split; [done|]. split; [done|]. apply lookup_lt_Some in Hb. pose proof N_range.
  pose proof (Z.div_pos i N ltac:(lia) ltac:(lia)). pose proof (Z.div_mod i N ltac:(lia)).
  pose proof (Z.mod_pos_bound i N ltac:(lia)). nia.
Qed.

Lemma at_index_lt bs i : 0 <= i < N * Z.of_nat (length bs) -> exists p, at_index T bs i = Some p.
Proof.
  intros Hi. pose proof N_range. rewrite at_index_eq by lia.
  pose proof (Z.div_pos i N ltac:(lia) ltac:(lia)).
  pose proof (Z.div_lt_upper_bound i N (Z.of_nat (length bs)) ltac:(lia) ltac:(lia)).
  destruct (lookup_lt_is_Some_2 bs (Z.to_nat (i / N))) as [b ->]; [lia|]. simpl. eauto.
Qed.

Lemma at_index_in bs i p : 0 <= i -> at_index T bs i = Some p -> p.1 ∈ bs.
Proof. intros Hi Hp. apply at_index_inv in Hp as (Hb & _); [|done]. by eapply list_elem_of_lookup_2. Qed.

Lemma at_index_inj bs i j p : NoDup bs -> 0 <= i -> 0 <= j ->
  at_index T bs i = Some p -> at_index T bs j = Some p -> i = j.
Proof.
  intros Hn Hi Hj Ep Eq. apply at_index_inv in Ep as (Ha & Ea & _); [|done]. apply at_index_inv in Eq as (Hb & Eb & _); [|done].
  pose proof N_range. pose proof (NoDup_lookup _ _ _ _ Hn Ha Hb) as E.
  pose proof (Z.div_pos i N ltac:(lia) ltac:(lia)). pose proof (Z.div_pos j N ltac:(lia) ltac:(lia)).
  pose proof (Z.div_mod i N ltac:(lia)). pose proof (Z.div_mod j N ltac:(lia)).
  assert (i / N = j / N) by lia. congruence.
Qed.

Lemma at_index_app bs bs' i p : at_index T bs i = Some p -> at_index T (bs ++ bs') i = Some p.
Proof.
  unfold at_index. destruct (bs !! _) as [b|] eqn:Hb; [|done]. by rewrite (lookup_app_l_Some _ _ _ _ Hb).
Qed.

Lemma at_index_app_inv bs bs' i p : 0 <= i < N * Z.of_nat (length bs) ->
  at_index T (bs ++ bs') i = Some p -> at_index T bs i = Some p.
Proof. intros Hi Hp. destruct (at_index_lt bs i Hi) as [q Hq]. rewrite (at_index_app _ bs' _ _ Hq) in Hp. by simplify_eq. Qed.

(** ** What a vector owns *)

Record mem_ok m : Prop := {
  ok_objects p : is_Some (objects m !! p) -> is_Some (allocated m !! p.1);
  ok_space : Z.of_nat (size (allocated m)) * N < 2 ^ 63 }.

(** The blocks [bs] of the allocator [id] hold the object [f i] at the place of [i],
    and, if destructors matter, no other. *)
Record holds m bs (id : Z) f : Prop := {
  h_nodup : NoDup bs;
  h_alloc b : b ∈ bs -> allocated m !! b = Some id;
  h_some i a : f i = Some a -> 0 <= i /\ exists p, at_index T bs i = Some p /\ objects m !! p = Some a;
  h_only b k a : trivial = false -> b ∈ bs -> objects m !! (b, k) = Some a ->
    exists i, 0 <= i /\ at_index T bs i = Some (b, k) /\ f i = Some a }.

(** The elements of a list by their index. *)
Definition elems l : Z -> option A := fun i => if i <? 0 then None else l !! Z.to_nat i.

Record owns m v l : Prop := {
  o_holds : holds m (m_blocks v) (m_alloc v) (elems l);
  o_size : m_size v = Z.of_nat (length l) }.

(** From [m] to [m'] the only blocks that change are [bs], which become [bs']. *)
Record keeps m bs m' bs' : Prop := {
  k_same b : b ∉ bs -> b ∉ bs' ->
    allocated m' !! b = allocated m !! b /\ forall k, objects m' !! (b, k) = objects m !! (b, k);
  k_new b : b ∈ bs' -> b ∈ bs \/ allocated m !! b = None;
  k_gone b : b ∈ bs -> b ∉ bs' -> allocated m' !! b = None }.

Definition upd f (i : Z) (x : option A) : Z -> option A := fun j => if j =? i then x else f j.

(** *** Frames *)

Lemma keeps_refl m bs : keeps m bs m bs.
Proof. constructor; [done|by left|done]. Qed.

Lemma ok_no_object m b k : mem_ok m -> allocated m !! b = None -> objects m !! (b, k) = None.
Proof. intros Hm Hb. apply eq_None_not_Some. intros Ho. apply (ok_objects _ Hm) in Ho. simpl in Ho. rewrite Hb in Ho. by destruct Ho. Qed.

Lemma keeps_trans m bs m' bs' m'' bs'' : mem_ok m -> mem_ok m'' ->
  keeps m bs m' bs' -> keeps m' bs' m'' bs'' -> keeps m bs m'' bs''.
Proof.
  intros Hm Hm'' H1 H2. constructor.
  - intros b Hb Hb''. destruct (decide (b ∈ bs')) as [Hb'|Hb'].
    + destruct (k_new _ _ _ _ H1 b Hb') as [|Hn]; [done|]. pose proof (k_gone _ _ _ _ H2 b Hb' Hb'') as Hg.
      split; [congruence|]. intros k. by rewrite !ok_no_object.
    + destruct (k_same _ _ _ _ H1 b Hb Hb') as [Ea Eo]. destruct (k_same _ _ _ _ H2 b Hb' Hb'') as [Ea' Eo'].
      split; [congruence|]. intros k. by rewrite Eo', Eo.
  - intros b Hb. destruct (k_new _ _ _ _ H2 b Hb) as [Hb'|Hn]; [by apply (k_new _ _ _ _ H1)|].
    destruct (decide (b ∈ bs)) as [|Hb1]; [by left|right]. destruct (decide (b ∈ bs')) as [Hb'|Hb'].
    + by destruct (k_new _ _ _ _ H1 b Hb').
    + destruct (k_same _ _ _ _ H1 b Hb1 Hb') as [Ea _]. congruence.
  - intros b Hb Hb''. destruct (decide (b ∈ bs')) as [Hb'|Hb']; [by apply (k_gone _ _ _ _ H2)|].
    destruct (k_same _ _ _ _ H2 b Hb' Hb'') as [-> _]. by apply (k_gone _ _ _ _ H1).
Qed.

Lemma keeps_app m bs m' bs' ex : keeps m bs m' bs' -> keeps m (bs ++ ex) m' (bs' ++ ex).
Proof.
  intros Hk. constructor; intros b; rewrite ?not_elem_of_app, ?elem_of_app.
  - intros [Hb _] [Hb' _]. by apply (k_same _ _ _ _ Hk).
  - intros [Hb|Hb]; [|by left; right]. destruct (k_new _ _ _ _ Hk b Hb); [left; by left|by right].
  - intros [Hb|Hb] [Hb' Hex]; [by apply (k_gone _ _ _ _ Hk)|done].
Qed.

(** Only the objects of [bs] change. *)
Lemma keeps_objects m bs os : (forall p, p.1 ∉ bs -> os !! p = objects m !! p) -> keeps m bs (Mem (allocated m) os) bs.
Proof.
  intros Hos. constructor; simpl; [|by left|done]. intros b Hb _. split; [done|]. intros k. by apply Hos.
Qed.

Lemma holds_ext m bs id f g : (forall i, f i = g i) -> holds m bs id f -> holds m bs id g.
Proof.
  intros E [Hn Ha Hs Ho]. constructor; [done|done| |].
  - intros i a Hi. apply Hs. by rewrite E.
  - intros b k a Ht Hb Hk. destruct (Ho b k a Ht Hb Hk) as (i & Hi & Hp & Hf). exists i. by rewrite <- E.
Qed.

Lemma holds_frame m bs m' bs' bw id f : keeps m bs m' bs' -> holds m bw id f -> (forall b, b ∈ bw -> b ∉ bs) ->
  holds m' bw id f /\ forall b, b ∈ bw -> b ∉ bs'.
Proof.
  intros Hk [Hn Ha Hs Ho] Hd.
  assert (Hd' : forall b, b ∈ bw -> b ∉ bs').
  { intros b Hb Hb'. destruct (k_new _ _ _ _ Hk b Hb') as [|E]; [by eapply Hd|]. rewrite (Ha b Hb) in E. done. }
  split; [|done]. constructor; [done| | |].
  - intros b Hb. destruct (k_same _ _ _ _ Hk b) as [-> _]; auto.
  - intros i a Hi. destruct (Hs i a Hi) as (H0 & [b k] & Hp & Hb). split; [done|]. exists (b, k). split; [done|].
    pose proof (at_index_in _ _ _ H0 Hp). destruct (k_same _ _ _ _ Hk b) as [_ ->]; auto.
  - intros b k a Ht Hb. destruct (k_same _ _ _ _ Hk b) as [_ ->]; auto.
Qed.

Lemma owns_frame m bs m' bs' w l : keeps m bs m' bs' -> owns m w l -> (forall b, b ∈ m_blocks w -> b ∉ bs) ->
  owns m' w l /\ forall b, b ∈ m_blocks w -> b ∉ bs'.
Proof. intros Hk [Hh Hs] Hd. destruct (holds_frame _ _ _ _ _ _ _ Hk Hh Hd). done. Qed.
End Proofs.
