(* ===== verification/SegmentedOps.v ===== *)
(** * The operations of the segmented vector, one by one

    Each operation from a vector that holds the list [l]: the list it holds
    afterwards, with the rest of the memory as it was. *)

From S2P Require Import Prelude SegmentedVector SegmentedProof.
#[local] Open Scope Z_scope.
#[local] Open Scope seg_scope.

(** What an operation ends in: [Q] when it returns, [E] when it throws. *)
Definition runs {A X} (c : eff A X) (m : mem A) (v : vec) (Q : X -> mem A -> vec -> Prop) (E : mem A -> vec -> Prop) : Prop :=
  match c m v with
  | Done x m' v' => Q x m' v'
  | BadAlloc m' v' => E m' v'
  | Terminated | Fault => False
  end.

Section Runs.
Context {A X Y : Type}.
Implicit Types (m : mem A) (v : vec).

Lemma runs_bind (c : eff A X) (k : X -> eff A Y) m v Q' Q E :
  runs c m v Q' E -> (forall x m' v', Q' x m' v' -> runs (k x) m' v' Q E) -> runs (bind c k) m v Q E.
Proof. unfold runs at 1 3, bind. destruct (c m v); try done. intros Hc Hk. by apply Hk. Qed.

Lemma runs_mono (c : eff A X) m v (Q Q' : X -> mem A -> vec -> Prop) (E E' : mem A -> vec -> Prop) :
  runs c m v Q E -> (forall x m' v', Q x m' v' -> Q' x m' v') -> (forall m' v', E m' v' -> E' m' v') -> runs c m v Q' E'.
Proof. unfold runs. destruct (c m v); try done; auto. Qed.

Lemma runs_self (k : vec -> eff A Y) m v Q E : runs (k v) m v Q E -> runs (bind self k) m v Q E.
Proof. done. Qed.

Lemma runs_place (o : option X) (k : X -> eff A Y) m v Q E x :
  o = Some x -> runs (k x) m v Q E -> runs (bind (from_option o) k) m v Q E.
Proof. by intros ->. Qed.
End Runs.

Section Ops.
Context {A : Type} (T : params A) `{!Good T}.
Implicit Types (m : mem A) (v w : vec) (a : A) (p : place) (l : list A) (bs : list Z) (f g : Z -> option A).

Abbreviation N := (num_elements_in_block T).
Abbreviation trivial := (is_trivially_destructible T).
Abbreviation owns := (owns T).
Abbreviation holds := (holds T).
Abbreviation mem_ok := (mem_ok T).

(** The state an operation leaves: a vector with the list [l], from [m0] and the
    blocks [v0] had. *)
Record next m0 v0 m v l : Prop := {
  n_mem : mem_ok m;
  n_owns : owns m v l;
  n_keeps : keeps m0 (m_blocks v0) m (m_blocks v);
  n_alloc : m_alloc v = m_alloc v0 }.

Lemma next_refl m v l : mem_ok m -> owns m v l -> next m v m v l.
Proof. constructor; [done|done|apply keeps_refl|done]. Qed.

Lemma next_trans m0 v0 m v l m' v' l' : mem_ok m0 -> next m0 v0 m v l -> next m v m' v' l' -> next m0 v0 m' v' l'.
Proof.
  intros H0 [Hm Ho Hk Ha] [Hm' Ho' Hk' Ha']. constructor; [done|done| |congruence]. by eapply keeps_trans.
Qed.

(** The state of a call that throws with the list as it was, the block [b] being
    allocated and in no vector: [m_blocks] got no storage for it. *)
Record dropped m0 v0 m v l (b : Z) : Prop := {
  d_mem : mem_ok m;
  d_owns : owns m v l;
  d_keeps : keeps m0 (m_blocks v0) m (m_blocks v ++ [b]);
  d_alloc : m_alloc v = m_alloc v0;
  d_refused : vector_storage T (m_alloc v) (allocated m) (blocks_size v + 1) = None }.

(** What a call that throws leaves: [cheap] says when it cannot lose a block. *)
Definition threw (cheap : Prop) m0 v0 m v l : Prop :=
  next m0 v0 m v l \/ ~ cheap /\ exists b, dropped m0 v0 m v l b.

Lemma threw_cheap (cheap : Prop) m0 v0 m v l : cheap -> threw cheap m0 v0 m v l -> next m0 v0 m v l.
Proof. intros Hc [Hn|[H _]]; [done|by destruct H]. Qed.

Lemma threw_weaken (cheap cheap' : Prop) m0 v0 m v l : (cheap' -> cheap) -> threw cheap m0 v0 m v l -> threw cheap' m0 v0 m v l.
Proof. intros Hc [Hn|[H Hd]]; [by left|right]. split; [tauto|done]. Qed.

Lemma threw_trans cheap m0 v0 m v l m' v' l' : mem_ok m0 -> next m0 v0 m v l -> threw cheap m v m' v' l' -> threw cheap m0 v0 m' v' l'.
Proof.
  intros H0 Hn [Hn'|[Hc (b & [Hm' Ho' Hk' Ha' Hr'])]]; [left; by eapply next_trans|right]. split; [done|]. exists b.
  destruct Hn as [Hm Ho Hk Ha]. constructor; [done|done| |congruence|done]. by eapply keeps_trans.
Qed.

Lemma keeps_equiv m bs bs2 m' bs' bs2' : (forall b, b ∈ bs <-> b ∈ bs2) -> (forall b, b ∈ bs' <-> b ∈ bs2') ->
  keeps m bs m' bs' -> keeps m bs2 m' bs2'.
Proof.
  intros E E' [Hs Hn Hg]. constructor; intros b; rewrite <- ?E, <- ?E'; auto.
Qed.
(** ** Room *)

Lemma blocks_room m bs id f : mem_ok m -> holds m bs id f -> 0 <= Z.of_nat (length bs) * N < 2 ^ 63.
Proof.
  intros Hm [Hn Ha _ _]. pose proof (ok_space _ _ Hm). pose proof (N_range T).
  assert (length bs <= size (allocated m))%nat; [|nia].
  rewrite <- size_dom, <- (size_list_to_set (C := gset Z)) by done. apply subseteq_size.
  intros b Hb. apply elem_of_list_to_set in Hb. apply elem_of_dom. rewrite (Ha b Hb). eauto.
Qed.

Lemma capacity_eq m v l : mem_ok m -> owns m v l -> capacity T v = Z.of_nat (length (m_blocks v)) * N.
Proof.
  intros Hm Ho. pose proof (blocks_room _ _ _ _ Hm (o_holds _ _ _ _ Ho)).
  apply W64.wrap_small. unfold W64.in_range, W64.modulus, blocks_size. lia.
Qed.

Lemma elems_lookup l (i : nat) : elems l (Z.of_nat i) = l !! i.
Proof. unfold elems. destruct (Z.ltb_spec (Z.of_nat i) 0); [lia|]. by rewrite Nat2Z.id. Qed.

Lemma elems_some l i a : elems l i = Some a -> 0 <= i < Z.of_nat (length l).
Proof. unfold elems. destruct (Z.ltb_spec i 0); [done|]. intros Hl%lookup_lt_Some. lia. Qed.

Lemma elems_none l i : Z.of_nat (length l) <= i -> elems l i = None.
Proof. intros Hi. unfold elems. destruct (Z.ltb_spec i 0); [done|]. apply lookup_ge_None. lia. Qed.

Lemma elems_is_some l i : 0 <= i < Z.of_nat (length l) -> is_Some (elems l i).
Proof. intros Hi. unfold elems. destruct (Z.ltb_spec i 0); [lia|]. apply lookup_lt_is_Some. lia. Qed.

Lemma elems_snoc l a i : elems (l ++ [a]) i = upd (elems l) (Z.of_nat (length l)) (Some a) i.
Proof.
  unfold upd, elems. destruct (Z.eqb_spec i (Z.of_nat (length l))) as [-> | Hne].
  - destruct (Z.ltb_spec (Z.of_nat (length l)) 0); [lia|]. by rewrite Nat2Z.id, lookup_app_r, Nat.sub_diag.
  - destruct (Z.ltb_spec i 0); [done|]. destruct (Z.lt_ge_cases i (Z.of_nat (length l))).
    + by rewrite lookup_app_l by lia.
    + rewrite !lookup_ge_None_2; rewrite ?length_app; simpl; try done; lia.
Qed.

Lemma elems_take l (n : nat) i : elems (take n l) i = if (i <? Z.of_nat n) then elems l i else None.
Proof.
  unfold elems. destruct (Z.ltb_spec i 0); [by case_match|]. destruct (Z.ltb_spec i (Z.of_nat n)).
  - by rewrite lookup_take_lt by lia.
  - by rewrite lookup_take_ge by lia.
Qed.

(** An element is at its place. *)
Lemma owns_lookup m v l (i : nat) a : owns m v l -> l !! i = Some a ->
  exists p, at_index T (m_blocks v) (Z.of_nat i) = Some p /\ objects m !! p = Some a.
Proof. intros Ho Hi. destruct (h_some _ _ _ _ _ (o_holds _ _ _ _ Ho) (Z.of_nat i) a) as [_ ?]; [by rewrite elems_lookup|done]. Qed.

Lemma owns_room m v l : owns m v l -> Z.of_nat (length l) <= Z.of_nat (length (m_blocks v)) * N.
Proof.
  intros Ho. pose proof (N_range T). destruct (decide (length l = 0%nat)) as [E|Hne]; [rewrite E; lia|].
  destruct (lookup_lt_is_Some_2 l (length l - 1)) as [a Ha]; [lia|].
  destruct (owns_lookup _ _ _ _ _ Ho Ha) as (p & Hp & _).
  apply at_index_inv in Hp as (_ & _ & Hlt); [lia|done|lia].
Qed.

(** ** One object *)

(** What a step on the objects of [bs] leaves. *)
Record step m bs id f' m' : Prop := {
  s_mem : mem_ok m';
  s_holds : holds m' bs id f';
  s_keeps : keeps m bs m' bs }.

Lemma step_trans m bs id f m' g m'' : mem_ok m -> step m bs id f m' -> step m' bs id g m'' -> step m bs id g m''.
Proof. intros Hm [Hm' Hh Hk] [Hm'' Hh' Hk']. constructor; [done|done|]. by eapply keeps_trans. Qed.

Lemma set_object m bs id f i p a : mem_ok m -> holds m bs id f -> 0 <= i -> at_index T bs i = Some p ->
  step m bs id (upd f i (Some a)) (Mem (allocated m) (<[p := a]> (objects m))).
Proof.
  intros Hm [Hn Ha Hs Ho] Hi Hp. pose proof (at_index_in _ _ _ _ Hi Hp) as Hin. constructor.
  - constructor; [|apply Hm]. simpl. intros q. destruct (decide (q = p)) as [-> | Hq].
    + intros _. rewrite (Ha _ Hin). eauto.
    + rewrite lookup_insert_ne by done. apply Hm.
  - constructor; [done|done| |]; simpl; unfold upd.
    + intros j b. destruct (Z.eqb_spec j i) as [-> | Hj].
      * intros [= ->]. split; [done|]. exists p. by rewrite lookup_insert_eq.
      * intros Hf. destruct (Hs j b Hf) as (H0 & q & Hq & Hb). split; [done|]. exists q. split; [done|].
        rewrite lookup_insert_ne; [done|]. intros <-. by apply Hj, (at_index_inj T bs j i p).
    + intros b k c Ht Hb. destruct (decide ((b, k) = p)) as [<- | Hq].
      * rewrite lookup_insert_eq. intros [= ->]. exists i. by rewrite Z.eqb_refl.
      * rewrite lookup_insert_ne by done. intros Hk. destruct (Ho b k c Ht Hb Hk) as (j & H0 & Hj & Hf).
        exists j. split; [done|]. split; [done|]. destruct (Z.eqb_spec j i) as [-> | ]; [congruence|done].
  - apply keeps_objects. intros q Hq. rewrite lookup_insert_ne; [done|]. by intros ->.
Qed.

Lemma construct_spec m v id f i p a : mem_ok m -> holds m (m_blocks v) id f -> 0 <= i ->
  at_index T (m_blocks v) i = Some p -> f i = None ->
  runs (construct T p a) m v (fun _ m' v' => v' = v /\ step m (m_blocks v) id (upd f i (Some a)) m') (fun _ _ => False).
Proof.
  intros Hm Hh Hi Hp Hf. pose proof (at_index_in _ _ _ _ Hi Hp) as Hin. unfold runs, construct.
  rewrite decide_True by (rewrite (h_alloc _ _ _ _ _ Hh _ Hin); eauto).
  assert (E : negb trivial && bool_decide (is_Some (objects m !! p)) = false).
  { destruct trivial eqn:Ht; [done|]. apply bool_decide_eq_false. intros [b Hb]. destruct p as [c k].
    destruct (h_only _ _ _ _ _ Hh c k b Ht Hin Hb) as (j & Hj & Hq & Hfj).
    rewrite (at_index_inj T (m_blocks v) j i (c, k)) in Hfj by (done || apply Hh). congruence. }
  rewrite E. split; [done|]. by apply set_object.
Qed.

Lemma destroy_spec m v id f i p : mem_ok m -> holds m (m_blocks v) id f -> 0 <= i ->
  at_index T (m_blocks v) i = Some p -> is_Some (f i) ->
  runs (destroy T p) m v (fun _ m' v' => v' = v /\ step m (m_blocks v) id (upd f i None) m') (fun _ _ => False).
Proof.
  intros Hm Hh Hi Hp [a Hf]. pose proof Hh as [Hn Ha Hs Ho]. pose proof (at_index_in _ _ _ _ Hi Hp) as Hin.
  unfold runs, destroy. destruct trivial eqn:Ht.
  - split; [done|]. constructor; [done| |apply keeps_refl]. constructor; [done|done| |by rewrite Ht].
    unfold upd. intros j b. destruct (Z.eqb_spec j i); [done|apply Hs].
  - destruct (Hs i a Hf) as (_ & q & Hq & Hb). simplify_eq. rewrite Hb. split; [done|]. constructor.
    + constructor; [|apply Hm]. simpl. intros r [c Hr%lookup_delete_Some]. destruct Hr. apply Hm. eauto.
    + constructor; [done|done| |]; simpl; unfold upd.
      * intros j b. destruct (Z.eqb_spec j i) as [-> | Hj]; [done|]. intros Hfj.
        destruct (Hs j b Hfj) as (H0 & r & Hr & Hc). split; [done|]. exists r. split; [done|].
        rewrite lookup_delete_ne; [done|]. intros <-. by apply Hj, (at_index_inj T (m_blocks v) j i p).
      * intros b k c _ Hbb [Hne Hk]%lookup_delete_Some. destruct (Ho b k c eq_refl Hbb Hk) as (j & H0 & Hj & Hfj).
        exists j. split; [done|]. split; [done|]. destruct (Z.eqb_spec j i) as [-> | ]; [congruence|done].
    + apply keeps_objects. intros r Hr. rewrite lookup_delete_ne; [done|]. by intros ->.
Qed.

Lemma runs_element {X} (k : place -> eff A X) m v i p Q E :
  at_index T (m_blocks v) i = Some p -> runs (k p) m v Q E -> runs (bind (element_place T i) k) m v Q E.
Proof. intros Hp Hk. unfold runs, bind at 1, element_place, bind at 1, self. by rewrite Hp. Qed.

(** ** Growth *)

(** A block in no vector yet. *)
Lemma new_block m v l b : mem_ok m -> owns m v l -> allocate T (m_alloc v) (allocated m) = Some b ->
  let m' := Mem (<[b := m_alloc v]> (allocated m)) (objects m) in
  mem_ok m' /\ owns m' v l /\ keeps m (m_blocks v) m' (m_blocks v ++ [b]) /\ b ∉ m_blocks v.
Proof.
  intros Hm Ho Hb m'. pose proof (allocate_fresh _ _ _ Hb) as Hf. pose proof (allocate_space _ _ _ Hb) as Hspace.
  assert (Hk : keeps m [] m' [b]).
  { constructor; simpl.
    - intros c _ Hc%not_elem_of_cons. split; [|done]. apply lookup_insert_ne. intros ->. by destruct Hc.
    - intros c ->%list_elem_of_singleton. by right.
    - intros c Hc%elem_of_nil. done. }
  destruct (owns_frame T _ _ _ _ _ _ Hk Ho) as [Ho' Hnew]; [intros c _; apply not_elem_of_nil|].
  split; [|split; [done|split]].
  - constructor; simpl.
    + intros p Hp. destruct (decide (p.1 = b)) as [-> | Hne]; [by rewrite lookup_insert_eq|].
      rewrite lookup_insert_ne by done. by apply Hm.
    + rewrite map_size_insert_None by done. lia.
  - apply (keeps_equiv m ([] ++ m_blocks v) _ m' ([b] ++ m_blocks v) _); [done| |by apply keeps_app].
    intros c. rewrite !elem_of_app. tauto.
  - intros Hin. apply (Hnew b Hin). by left.
Qed.

(** The block appended to [m_blocks], whatever room it has. *)
Lemma append_block m m' v l b (room : Z) : mem_ok m -> owns m v l -> allocated m !! b = None ->
  mem_ok m' -> owns m' v l -> allocated m' !! b = Some (m_alloc v) ->
  keeps m (m_blocks v) m' (m_blocks v ++ [b]) -> b ∉ m_blocks v -> (forall k, objects m' !! (b, k) = None) ->
  next m v m' (Vec (m_blocks v ++ [b]) room (m_alloc v) (m_size v)) l.
Proof.
  intros Hm Ho Hf Hm' [[Hn Ha Hs Hon] Hsize] Hb Hk Hnew Hobj. constructor; [done| |done|done]. constructor; [|done].
  constructor; simpl.
  - apply NoDup_app. split; [done|]. split; [|apply NoDup_singleton]. intros c Hc Hin%list_elem_of_singleton. congruence.
  - intros c [Hc| ->%list_elem_of_singleton]%elem_of_app; auto.
  - intros i a Hi. destruct (Hs i a Hi) as (H0 & p & Hp & Ho'). split; [done|]. exists p. split; [by apply at_index_app|done].
  - intros c k a Ht [Hc| ->%list_elem_of_singleton]%elem_of_app Hck; [|by rewrite Hobj in Hck].
    destruct (Hon c k a Ht Hc Hck) as (i & H0 & Hp & Hi). exists i. split; [done|]. split; [by apply at_index_app|done].
Qed.

(** A block is lost only when [m_blocks] has no room for one more. *)
Lemma increase_capacity_spec m v l : mem_ok m -> owns m v l ->
  runs (increase_capacity T) m v
    (fun _ m' v' => next m v m' v' l /\ m_size v' = m_size v /\ length (m_blocks v') = S (length (m_blocks v)) /\
      (blocks_size v + 1 <= m_room v -> m_room v' = m_room v))
    (fun m' v' => threw (blocks_size v + 1 <= m_room v) m v m' v' l).
Proof.
  intros Hm Ho. unfold runs, increase_capacity, bind, allocate_block.
  destruct (allocate T (m_alloc v) (allocated m)) as [b|] eqn:Hb; [|left; by apply next_refl].
  pose proof (allocate_fresh _ _ _ Hb) as Hf. destruct (new_block m v l b Hm Ho Hb) as (Hm' & Ho' & Hk & Hnew).
  set (m' := Mem _ _) in *. unfold blocks_push_back, bind, self, blocks_reserve.
  assert (Happ : forall room, next m v m' (Vec (m_blocks v ++ [b]) room (m_alloc v) (m_size v)) l).
  { intros room. apply append_block; try done; [apply lookup_insert_eq|]. intros k. by apply (ok_no_object T m b k Hm Hf). }
  destruct (Z.leb_spec (blocks_size v + 1) (m_room v)) as [Hr|Hr];
    [|destruct (vector_storage T _ _ _) as [room|] eqn:Hroom]; simpl.
  - split; [apply Happ|]. split; [done|]. split; [rewrite length_app; simpl; lia|done].
  - split; [apply Happ|]. split; [done|]. split; [rewrite length_app; simpl; lia|lia].
  - right. split; [lia|]. by exists b.
Qed.

(** [emplace_back] once there is room. *)
Definition place_back a (n : Z) : eff A unit :=
  p <~ element_place T n; construct T p a ;; set_size (W64.wrap (n + 1)).

Lemma seg_place_back_spec m v l a : mem_ok m -> owns m v l -> Z.of_nat (length l) < Z.of_nat (length (m_blocks v)) * N ->
  runs (place_back a (m_size v)) m v (fun _ m' v' => next m v m' v' (l ++ [a]) /\ m_blocks v' = m_blocks v) (fun _ _ => False).
Proof.
  intros Hm Ho Hlt. pose proof (blocks_room _ _ _ _ Hm (o_holds _ _ _ _ Ho)). pose proof (o_size _ _ _ _ Ho) as Hsize.
  destruct (at_index_lt T (m_blocks v) (m_size v)) as [p Hp]; [lia|].
  eapply runs_element; [done|]. eapply runs_bind.
  - eapply (construct_spec m v _ (elems l) (m_size v)); [done|apply Ho|lia|done|]. rewrite Hsize. by apply elems_none.
  - intros _ m' v' [-> [Hm' Hh Hk]]. unfold runs, set_size. split; [|done]. constructor; simpl; [done| |done|done].
    constructor; simpl.
    + eapply holds_ext; [|done]. intros i. by rewrite elems_snoc, Hsize.
    + rewrite length_app, W64.wrap_small by (unfold W64.in_range, W64.modulus; lia). simpl. lia.
Qed.

(** With room for one more element, [emplace_back] allocates nothing. *)
Lemma emplace_room m v l a : mem_ok m -> owns m v l -> Z.of_nat (length l) < Z.of_nat (length (m_blocks v)) * N ->
  runs (emplace_back T a) m v (fun _ m' v' => next m v m' v' (l ++ [a]) /\ m_blocks v' = m_blocks v) (fun _ _ => False).
Proof.
  intros Hm Ho Hlt. apply runs_self. rewrite (capacity_eq m v l Hm Ho), (o_size _ _ _ _ Ho).
  destruct (Z.eqb_spec (Z.of_nat (length l)) (Z.of_nat (length (m_blocks v)) * N)); [lia|].
  rewrite <- (o_size _ _ _ _ Ho). by apply seg_place_back_spec.
Qed.

Lemma emplace_back_spec m v l a : mem_ok m -> owns m v l ->
  runs (emplace_back T a) m v (fun _ m' v' => next m v m' v' (l ++ [a])) (fun m' v' => threw False m v m' v' l).
Proof.
  intros Hm Ho. pose proof (owns_room _ _ _ Ho) as Hle. pose proof (N_range T).
  apply runs_self. rewrite (capacity_eq m v l Hm Ho), (o_size _ _ _ _ Ho).
  destruct (Z.eqb_spec (Z.of_nat (length l)) (Z.of_nat (length (m_blocks v)) * N)) as [E|Hne]; rewrite <- (o_size _ _ _ _ Ho).
  - eapply runs_bind.
    + eapply runs_mono; [by apply increase_capacity_spec|intros x m' v' Hx; exact Hx|]. intros m' v'. by apply threw_weaken.
    + intros _ m' v' (Hn & <- & Hlen & _). pose proof Hn as [Hm' Ho' _ _].
      eapply runs_mono; [by apply (seg_place_back_spec m' v' l a); [done|done|lia]| |done].
      intros _ m'' v'' [Hn' _]. by eapply next_trans.
  - eapply runs_mono; [by apply (seg_place_back_spec m v l a); [done|done|lia]| |done]. by intros _ m' v' [Hn _].
Qed.

(** [n] times the same element. *)
Lemma times_emplace n m v l a : mem_ok m -> owns m v l -> Z.of_nat (length l + n) <= Z.of_nat (length (m_blocks v)) * N ->
  runs (times n (emplace_back T a)) m v (fun _ m' v' => next m v m' v' (l ++ replicate n a)) (fun _ _ => False).
Proof.
  revert m v l. induction n as [|n IH]; intros m v l Hm Ho Hroom; simpl.
  - rewrite app_nil_r. by apply next_refl.
  - eapply runs_bind; [by apply emplace_room; [done|done|lia]|]. intros _ m' v' [Hn Hb].
    eapply runs_mono; [apply (IH m' v' (l ++ [a])); [apply Hn|apply Hn|rewrite length_app, Hb; simpl; lia]| |done].
    intros [] m'' v'' Hn'. rewrite <- app_assoc in Hn'. by eapply next_trans.
Qed.

(** [reserve] ends: every turn adds a block, until there is room or no block is
    left; [m_blocks] has the room for all of them when it asked for enough. *)
Lemma reserve_loop_spec fuel n m v l : mem_ok m -> owns m v l ->
  n <= (Z.of_nat (length (m_blocks v)) + Z.of_nat fuel) * N ->
  runs (reserve_loop T fuel n) m v
    (fun _ m' v' => next m v m' v' l /\ n <= Z.of_nat (length (m_blocks v')) * N)
    (fun m' v' => threw (n <= m_room v * N) m v m' v' l).
Proof.
  revert m v. induction fuel as [|fuel IH]; intros m v Hm Ho Hfuel; simpl; apply runs_self;
    rewrite (capacity_eq m v l Hm Ho); destruct (Z.ltb_spec (Z.of_nat (length (m_blocks v)) * N) n) as [Hlt|Hge];
    try (split; [by apply next_refl|lia]); [lia|]. pose proof (N_range T).
  assert (Hcheap : n <= m_room v * N -> blocks_size v + 1 <= m_room v) by (unfold blocks_size; nia).
  eapply runs_bind.
  - eapply runs_mono; [by apply increase_capacity_spec|intros x m' v' Hx; exact Hx|]. intros m' v'. by apply threw_weaken.
  - intros _ m' v' (Hn & _ & Hlen & Hroom). eapply runs_mono; [apply (IH m' v'); [apply Hn|apply Hn|lia]| |].
    + intros [] m'' v'' [Hn' Hcap]. split; [by eapply next_trans|done].
    + intros m'' v'' Ht. eapply threw_trans; [done|done|]. eapply threw_weaken; [|exact Ht].
      intros Hc. rewrite Hroom; auto.
Qed.

(** Room in [m_blocks] changes nothing else. *)
Lemma next_room m v l (room : Z) : mem_ok m -> owns m v l -> next m v m (Vec (m_blocks v) room (m_alloc v) (m_size v)) l.
Proof. intros Hm [Hh Hs]. constructor; [done|by constructor|apply keeps_refl|done]. Qed.

Lemma blocks_reserve_spec n m v l : mem_ok m -> owns m v l ->
  runs (blocks_reserve T n) m v
    (fun _ m' v' => next m v m' v' l /\ m_blocks v' = m_blocks v /\ n <= m_room v') (fun m' v' => next m v m' v' l).
Proof.
  intros Hm Ho. unfold runs, blocks_reserve, set_room. destruct (Z.leb_spec n (m_room v)); [split; [by apply next_refl|done]|].
  destruct (vector_storage T _ _ n) as [room|] eqn:Hr; [|by apply next_refl]. apply storage_room in Hr.
  split; [by apply next_room|done].
Qed.

(** The blocks asked for are enough, unless their computation wraps around. *)
Lemma blocks_enough n : 0 <= n -> n + N - 1 < 2 ^ 64 -> n <= calc_num_blocks_for_capacity T n * N.
Proof.
  intros Hn Hw. pose proof (N_range T). unfold calc_num_blocks_for_capacity.
  rewrite W64.wrap_small by (unfold W64.in_range, W64.modulus; lia).
  pose proof (Z.div_mod (n + N - 1) N ltac:(lia)). pose proof (Z.mod_pos_bound (n + N - 1) N ltac:(lia)). nia.
Qed.

(** A block can be lost only at the end of the range of [std::size_t]. *)
Lemma seg_reserve_threw n m v l : mem_ok m -> owns m v l -> 0 <= n ->
  runs (reserve T n) m v
    (fun _ m' v' => next m v m' v' l /\ n <= Z.of_nat (length (m_blocks v')) * N)
    (fun m' v' => threw (n + N - 1 < 2 ^ 64) m v m' v' l).
Proof.
  intros Hm Ho Hn. eapply runs_bind.
  - eapply runs_mono; [by apply blocks_reserve_spec|intros x m' v' Hx; exact Hx|]. intros m' v' Hx. by left.
  - intros _ m1 v1 (Hn1 & Hb1 & Hroom). pose proof (N_range T).
    assert (Hcheap : n + N - 1 < 2 ^ 64 -> n <= m_room v1 * N) by (intros Hw; pose proof (blocks_enough n Hn Hw); nia).
    eapply runs_mono; [apply (reserve_loop_spec _ n m1 v1 l); [apply Hn1|apply Hn1|]| |].
    + unfold reserve_fuel. pose proof (Z.div_pos n N ltac:(lia) ltac:(lia)). pose proof (Z.div_mod n N ltac:(lia)).
      pose proof (Z.mod_pos_bound n N ltac:(lia)). nia.
    + intros [] m2 v2 [Hn2 Hcap]. split; [by eapply next_trans|done].
    + intros m2 v2 Ht. eapply threw_trans; [done|done|]. by eapply threw_weaken.
Qed.

Lemma seg_reserve_spec n m v l : mem_ok m -> owns m v l -> 0 <= n -> n + N - 1 < 2 ^ 64 ->
  runs (reserve T n) m v
    (fun _ m' v' => next m v m' v' l /\ n <= Z.of_nat (length (m_blocks v')) * N) (fun m' v' => next m v m' v' l).
Proof.
  intros Hm Ho Hn Hw. eapply runs_mono; [by apply seg_reserve_threw|done|]. intros m' v'. by apply threw_cheap.
Qed.

(** ** Removal *)

(** The elements from [ix] to [ix + n] gone. *)
Definition without f (ix n : Z) : Z -> option A := fun j => if (ix <=? j) && (j <? ix + n) then None else f j.

Lemma destroy_from_spec n ix m v id f : mem_ok m -> holds m (m_blocks v) id f -> 0 <= ix ->
  (forall j, ix <= j < ix + Z.of_nat n -> is_Some (f j)) ->
  runs (destroy_from T ix n) m v (fun _ m' v' => v' = v /\ step m (m_blocks v) id (without f ix (Z.of_nat n)) m') (fun _ _ => False).
Proof.
  revert ix m f. induction n as [|n IH]; intros ix m f Hm Hh Hix Hf; cbn [destroy_from].
  - split; [done|]. constructor; [done| |apply keeps_refl]. eapply holds_ext; [|done].
    intros j. unfold without. destruct (Z.leb_spec ix j), (Z.ltb_spec j (ix + Z.of_nat 0)); try done; lia.
  - destruct (Hf ix ltac:(lia)) as [a Ha]. destruct (h_some _ _ _ _ _ Hh ix a Ha) as (_ & p & Hp & _).
    eapply runs_element; [done|]. eapply runs_bind; [by apply (destroy_spec m v id f ix)|].
    intros _ m' v' [-> Hs]. eapply runs_mono; [apply (IH (ix + 1) m' (upd f ix None)); [apply Hs|apply Hs|lia|]| |done].
    + intros j Hj. unfold upd. destruct (Z.eqb_spec j ix); [lia|]. apply Hf. lia.
    + intros [] m'' v'' [-> Hs']. split; [done|]. destruct (step_trans _ _ _ _ _ _ _ Hm Hs Hs') as [Hm'' Hh'' Hk''].
      constructor; [done| |done]. eapply holds_ext; [|done]. intros j. unfold without, upd.
      destruct (Z.leb_spec (ix + 1) j), (Z.ltb_spec j (ix + 1 + Z.of_nat n)), (Z.leb_spec ix j),
        (Z.ltb_spec j (ix + Z.of_nat (S n))), (Z.eqb_spec j ix); simpl; try done; lia.
Qed.

(** With destructors that do nothing, objects may stay where no element is. *)
Lemma holds_weaken m bs id f g : trivial = true -> holds m bs id f -> (forall i a, g i = Some a -> f i = Some a) -> holds m bs id g.
Proof. intros Ht [Hn Ha Hs Ho] Hg. constructor; [done|done|auto|by rewrite Ht]. Qed.

Lemma resize_shrink_spec (n : nat) m v l : mem_ok m -> owns m v l -> (n <= length l)%nat ->
  runs (resize_shrink T (Z.of_nat n)) m v
    (fun _ m' v' => next m v m' v' (take n l) /\ m_blocks v' = m_blocks v) (fun _ _ => False).
Proof.
  intros Hm [Hh Hsize] Hn. apply runs_self.
  apply (runs_bind _ _ _ _ (fun _ m' v' => v' = v /\ step m (m_blocks v) (m_alloc v) (elems (take n l)) m')).
  - destruct trivial eqn:Ht.
    + split; [done|]. constructor; [done| |apply keeps_refl]. eapply holds_weaken; [done|done|].
      intros i a. rewrite elems_take. by case_match.
    + eapply runs_mono; [apply (destroy_from_spec _ _ m v (m_alloc v) (elems l)); [done|done|lia|]| |done].
      * intros j Hj. apply elems_is_some. lia.
      * intros [] m' v' [-> [Hm' Hh' Hk']]. split; [done|]. constructor; [done| |done].
        eapply holds_ext; [|done]. intros j. unfold without. rewrite elems_take.
        destruct (Z.leb_spec (Z.of_nat n) j), (Z.ltb_spec j (Z.of_nat n)); simpl; try done; try lia.
        destruct (Z.ltb_spec j (Z.of_nat n + Z.of_nat (Z.to_nat (m_size v - Z.of_nat n)))); [done|]. apply elems_none. lia.
  - intros _ m' v' [-> [Hm' Hh' Hk']]. split; [|done]. constructor; [done| |done|done]. constructor; simpl; [done|].
    rewrite length_take. lia.
Qed.

Lemma seg_clear_spec m v l : mem_ok m -> owns m v l ->
  runs (clear T) m v (fun _ m' v' => next m v m' v' [] /\ m_blocks v' = m_blocks v) (fun _ _ => False).
Proof.
  intros Hm Ho. pose proof (resize_shrink_spec 0 m v l Hm Ho ltac:(lia)) as Hs. revert Hs.
  unfold runs, clear, resize_shrink, bind, self. by rewrite Z.sub_0_r.
Qed.

Lemma pop_back_spec m v l a : mem_ok m -> owns m v (l ++ [a]) ->
  runs (pop_back T) m v (fun _ m' v' => next m v m' v' l) (fun _ _ => False).
Proof.
  intros Hm Ho. pose proof (owns_room _ _ _ Ho) as Hroom. pose proof (blocks_room _ _ _ _ Hm (o_holds _ _ _ _ Ho)).
  pose proof Ho as [Hh Hsize]. rewrite length_app in Hsize, Hroom. simpl in Hsize, Hroom.
  destruct (owns_lookup m v _ (length l) a Ho) as (p & Hp & _); [by rewrite lookup_app_r, Nat.sub_diag|].
  assert (E : W64.wrap (m_size v - 1) = Z.of_nat (length l)) by (rewrite W64.wrap_small; unfold W64.in_range, W64.modulus; lia).
  apply runs_self. rewrite E. eapply runs_element; [done|]. eapply runs_bind.
  - apply (destroy_spec m v _ _ (Z.of_nat (length l)) p Hm Hh ltac:(lia) Hp). apply elems_is_some. rewrite length_app. simpl. lia.
  - intros _ m' v' [-> [Hm' Hh' Hk']]. constructor; [done| |done|done]. constructor; [|done].
    eapply holds_ext; [|done]. intros i. unfold upd. simpl. destruct (Z.eqb_spec i (Z.of_nat (length l))) as [-> | Hne].
    + symmetry. by apply elems_none.
    + rewrite elems_snoc. unfold upd. by destruct (Z.eqb_spec i (Z.of_nat (length l))).
Qed.

(** ** Blocks given back *)

Lemma outside_lookup m (b : Z) p : outside b m !! p = if decide (p.1 = b) then None else objects m !! p.
Proof.
  unfold outside. rewrite map_lookup_filter. case_decide as E; destruct (objects m !! p); simpl; try done.
  - by rewrite option_guard_False by tauto.
  - by rewrite option_guard_True.
Qed.

Lemma deallocate_spec m v b : mem_ok m -> allocated m !! b = Some (m_alloc v) ->
  (trivial = false -> forall k, objects m !! (b, k) = None) ->
  runs (deallocate_block T b) m v (fun _ m' v' => v' = v /\ mem_ok m' /\ keeps m [b] m' []) (fun _ _ => False).
Proof.
  intros Hm Hb Ho. unfold runs, deallocate_block. rewrite decide_True by done.
  assert (E : negb trivial && negb (size (inside b m) =? 0)%nat = false).
  { destruct trivial eqn:Ht; [done|]. simpl. apply negb_false_iff, Nat.eqb_eq, map_size_empty_iff, map_eq.
    intros [c k]. rewrite lookup_empty. apply map_lookup_filter_None. destruct (decide (c = b)) as [-> | Hc]; [left; by apply Ho|].
    right. intros a _ Hcb. by apply Hc. }
  rewrite E. split; [done|]. split; constructor; simpl.
  - intros p. rewrite outside_lookup. case_decide as Hp; [by intros []|]. intros Hs. rewrite lookup_delete_ne by done. by apply Hm.
  - pose proof (ok_space _ _ Hm). pose proof (N_range T).
    rewrite map_size_delete_Some by (by rewrite Hb). nia.
  - intros c Hc%not_elem_of_cons _. split; [apply lookup_delete_ne; by destruct Hc|]. intros k. rewrite outside_lookup. simpl.
    by rewrite decide_False by (by destruct Hc).
  - intros c Hc%elem_of_nil. done.
  - intros c ->%list_elem_of_singleton _. apply lookup_delete_eq.
Qed.
End Ops.
