(* ===== verification/SegmentedCopy.v ===== *)
(** * The operations of the segmented vector that loop: resizing, freeing, copying

    [resize], [shrink_to_fit] and the destructor; then what reads a second vector:
    [append_everything_from], the two assignments and the constructors. *)

From S2P Require Import Prelude SegmentedVector SegmentedProof SegmentedOps.
#[local] Open Scope Z_scope.
#[local] Open Scope seg_scope.

Section Copy.
Context {A : Type} (T : params A) `{!Good T}.
Implicit Types (moving : bool) (m : mem A) (v w other : vec) (a : A) (p : place) (l r : list A) (bs : list Z) (f g : Z -> option A).

Abbreviation N := (num_elements_in_block T).
Abbreviation trivial := (is_trivially_destructible T).
Abbreviation owns := (owns T).
Abbreviation holds := (holds T).
Abbreviation mem_ok := (mem_ok T).
Abbreviation next := (next T).

(** ** [resize] *)

(** The list [resize] leaves. *)
Definition resized (n : nat) a l : list A := take n l ++ replicate (n - length l) a.

Lemma resize_value_spec (n : nat) a m v l : mem_ok m -> owns m v l ->
  runs (resize_value T (Z.of_nat n) a) m v (fun _ m' v' => next m v m' v' (resized n a l))
    (fun m' v' => threw T (Z.of_nat n + N - 1 < 2 ^ 64) m v m' v' l).
Proof.
  intros Hm Ho. pose proof (o_size _ _ _ _ Ho) as Hsize. apply runs_self. rewrite Hsize. unfold resized.
  destruct (Z.ltb_spec (Z.of_nat n) (Z.of_nat (length l))).
  - replace (n - length l)%nat with 0%nat by lia. rewrite app_nil_r.
    eapply runs_mono; [by apply (resize_shrink_spec T n m v l); [done|done|lia]| |done]. by intros [] m' v' [Hn _].
  - rewrite take_ge by lia. destruct (Z.ltb_spec (Z.of_nat (length l)) (Z.of_nat n)).
    + replace (Z.to_nat (Z.of_nat n - Z.of_nat (length l))) with (n - length l)%nat by lia.
      eapply runs_bind; [by apply (seg_reserve_threw T (Z.of_nat n) m v l); [done|done|lia]|]. intros [] m' v' [Hn Hcap].
      eapply runs_mono; [apply (times_emplace T _ m' v' l a); [apply Hn|apply Hn|lia]| |done].
      intros [] m'' v'' Hn'. by eapply next_trans.
    + replace (n - length l)%nat with 0%nat by lia. rewrite app_nil_r. by apply next_refl.
Qed.

Lemma resize_eq (n : Z) m v : resize T n m v = resize_value T n (init T) m v.
Proof. reflexivity. Qed.

(** ** Freeing *)

Lemma dealloc_loop_spec bs m v : mem_ok m -> NoDup bs -> (forall b, b ∈ bs -> allocated m !! b = Some (m_alloc v)) ->
  (trivial = false -> forall b k, b ∈ bs -> objects m !! (b, k) = None) ->
  runs (foldr (fun b k => deallocate_block T b ;; k) (ret tt) bs) m v
    (fun _ m' v' => v' = v /\ mem_ok m' /\ keeps m bs m' []) (fun _ _ => False).
Proof.
  revert m. induction bs as [|b bs IH]; intros m Hm Hn Ha Ho; simpl.
  - split; [done|]. split; [done|apply keeps_refl].
  - apply NoDup_cons in Hn as [Hb Hn].
    eapply runs_bind; [apply (deallocate_spec T m v b Hm); [apply Ha; by left|intros Ht k; apply Ho; [done|by left]]|].
    intros _ m' v' (-> & Hm' & Hk).
    assert (Hsame : forall c, c ∈ bs -> allocated m' !! c = allocated m !! c /\ forall k, objects m' !! (c, k) = objects m !! (c, k)).
    { intros c Hc. apply (k_same _ _ _ _ Hk); [|apply not_elem_of_nil]. intros ->%list_elem_of_singleton. done. }
    eapply runs_mono; [apply (IH m' Hm' Hn)| |done].
    + intros c Hc. destruct (Hsame c Hc) as [-> _]. apply Ha. by right.
    + intros Ht c k Hc. destruct (Hsame c Hc) as [_ ->]. apply Ho; [done|by right].
    + intros [] m'' v'' (-> & Hm'' & Hk'). split; [done|]. split; [done|].
      apply (keeps_trans T m (b :: bs) m' bs m''); [done|done| |done].
      apply (keeps_equiv m ([b] ++ bs) _ m' ([] ++ bs) _); [done|done|]. by apply keeps_app.
Qed.

Lemma owns_nil_objects m v b k : owns m v [] -> trivial = false -> b ∈ m_blocks v -> objects m !! (b, k) = None.
Proof.
  intros [Hh _] Ht Hb. destruct (objects m !! (b, k)) as [a|] eqn:E; [|done].
  destruct (h_only _ _ _ _ _ Hh b k a Ht Hb E) as (i & _ & _ & Hi%elems_some). simpl in Hi. lia.
Qed.

(** After [clear] the blocks can go; the vector still lists them. *)
Lemma dealloc_spec m v : mem_ok m -> owns m v [] ->
  runs (dealloc T) m v (fun _ m' v' => v' = v /\ mem_ok m' /\ keeps m (m_blocks v) m' []) (fun _ _ => False).
Proof.
  intros Hm Ho. apply runs_self. pose proof (o_holds _ _ _ _ Ho) as Hh. apply dealloc_loop_spec; [done|apply Hh|apply Hh|].
  intros Ht b k Hb. by eapply owns_nil_objects.
Qed.

Lemma destructor_spec m v l : mem_ok m -> owns m v l ->
  runs (destructor T) m v (fun _ m' v' => m_blocks v' = m_blocks v /\ mem_ok m' /\ keeps m (m_blocks v) m' []) (fun _ _ => False).
Proof.
  intros Hm Ho. eapply runs_bind; [by eapply seg_clear_spec|]. intros _ m' v' [[Hm' Ho' Hk' Ha'] Hb].
  eapply runs_mono; [by apply dealloc_spec| |done]. intros _ m'' v'' (-> & Hm'' & Hk''). split; [done|].
  split; [done|by eapply keeps_trans].
Qed.

(** ** [shrink_to_fit] *)

Lemma drop_block m bs b id l m' : holds m (bs ++ [b]) id (elems l) -> Z.of_nat (length l) <= N * Z.of_nat (length bs) ->
  keeps m [b] m' [] -> holds m' bs id (elems l).
Proof.
  intros [Hn Ha Hs Ho] Hle Hk. apply NoDup_app in Hn as (Hn & Hd & _).
  assert (Hsame : forall c, c ∈ bs -> allocated m' !! c = allocated m !! c /\ forall k, objects m' !! (c, k) = objects m !! (c, k)).
  { intros c Hc. apply (k_same _ _ _ _ Hk); [|apply not_elem_of_nil]. by apply Hd. }
  constructor; [done| | |].
  - intros c Hc. destruct (Hsame c Hc) as [-> _]. apply Ha, elem_of_app. by left.
  - intros i a Hi. destruct (Hs i a Hi) as (H0 & [c k] & Hp & Hobj). apply elems_some in Hi. split; [done|]. exists (c, k).
    apply at_index_app_inv in Hp; [|done|lia]. split; [done|]. pose proof (at_index_in _ _ _ _ H0 Hp) as Hc.
    by destruct (Hsame c Hc) as [_ ->].
  - intros c k a Ht Hc. destruct (Hsame c Hc) as [_ ->]. intros Hobj.
    destruct (Ho c k a Ht) as (i & H0 & Hp & Hi); [apply elem_of_app; by left|done|]. exists i. split; [done|]. split; [|done].
    apply elems_some in Hi. by apply at_index_app_inv in Hp; [|done|lia].
Qed.

(** No element is in the last block when the others have room for all. *)
Lemma last_block_objects m bs b id l k : holds m (bs ++ [b]) id (elems l) -> Z.of_nat (length l) <= N * Z.of_nat (length bs) ->
  trivial = false -> objects m !! (b, k) = None.
Proof.
  intros [Hn Ha Hs Ho] Hle Ht. destruct (objects m !! (b, k)) as [a|] eqn:E; [|done].
  destruct (Ho b k a Ht) as (i & H0 & Hp & Hi); [apply elem_of_app; right; by left|done|]. apply elems_some in Hi.
  apply at_index_app_inv in Hp; [|done|lia]. apply at_index_in in Hp; [|done|done].
  apply NoDup_app in Hn as (_ & Hd & _). destruct (Hd b Hp). by left.
Qed.

Lemma shrink_loop_spec fuel n m v l : mem_ok m -> owns m v l -> 0 <= n -> Z.of_nat (length l) <= N * n ->
  (length (m_blocks v) <= fuel)%nat ->
  runs (shrink_loop T fuel n) m v
    (fun _ m' v' => next m v m' v' l /\ Z.of_nat (length (m_blocks v')) <= n) (fun _ _ => False).
Proof.
  revert m v. induction fuel as [|fuel IH]; intros m v Hm Ho Hn Hl Hfuel; cbn [shrink_loop]; apply runs_self; unfold blocks_size;
    destruct (Z.ltb_spec n (Z.of_nat (length (m_blocks v)))); try (split; [by apply next_refl|done]); [lia|].
  destruct v as [bs room id sz]. simpl in *. destruct bs as [|b bs _] using rev_ind; [simpl in *; lia|].
  rewrite length_app in *. simpl in *. pose proof (N_range T). pose proof Ho as [Hh Hsize]. simpl in Hh, Hsize.
  assert (Hle : Z.of_nat (length l) <= N * Z.of_nat (length bs)) by nia.
  eapply runs_place; [apply last_snoc|]. eapply runs_bind.
  - apply (deallocate_spec T m _ b Hm); [apply (h_alloc _ _ _ _ _ Hh), elem_of_app; right; by left|].
    intros Ht k. by eapply last_block_objects.
  - intros _ m' v' (-> & Hm' & Hk). rewrite removelast_last.
    apply (runs_bind _ _ _ _ (fun _ m'' v'' => m'' = m' /\ v'' = Vec bs room id sz)); [done|]. intros _ m'' v'' [-> ->].
    assert (Hnext : next m (Vec (bs ++ [b]) room id sz) m' (Vec bs room id sz) l).
    { constructor; [done| | |done].
      - constructor; [|done]. by eapply drop_block.
      - simpl. apply (keeps_equiv m ([b] ++ bs) _ m' ([] ++ bs) bs); [|done|by apply keeps_app].
        intros c. rewrite !elem_of_app. tauto. }
    eapply runs_mono; [apply (IH m' (Vec bs room id sz)); [done|apply Hnext|done|done|simpl; lia]| |done].
    intros [] m'' v'' [Hn' Hlen]. split; [|done]. by eapply next_trans.
Qed.

(** No block without an element is left. *)
Lemma shrink_to_fit_spec m v l : mem_ok m -> owns m v l ->
  runs (shrink_to_fit T) m v
    (fun _ m' v' => next m v m' v' l /\ Z.of_nat (length (m_blocks v')) * N < Z.of_nat (length l) + N) (fun _ _ => False).
Proof.
  intros Hm Ho. pose proof (N_range T). pose proof (owns_room _ _ _ _ Ho) as Hle. pose proof (blocks_room _ _ _ _ _ Hm (o_holds _ _ _ _ Ho)).
  apply runs_self. rewrite (o_size _ _ _ _ Ho). unfold calc_num_blocks_for_capacity.
  rewrite W64.wrap_small by (unfold W64.in_range, W64.modulus; lia). set (q := Z.of_nat (length l) + N - 1).
  pose proof (Z.div_mod q N ltac:(lia)). pose proof (Z.mod_pos_bound q N ltac:(lia)). pose proof (Z.div_pos q N ltac:(lia) ltac:(lia)).
  eapply runs_bind; [apply (shrink_loop_spec _ (q / N) m v l); [done|done|done|nia|done]|].
  intros [] m' v' [Hn Hlen]. split; [|simpl; nia]. eapply next_trans; [done|done|]. apply next_room; apply Hn.
Qed.

(** ** Two vectors *)

Definition apart bs bs' : Prop := forall b, b ∈ bs -> b ∉ bs'.

(** The state that an operation of [v] on [other] leaves. *)
Record both m0 v0 m v other l lo : Prop := {
  b_mem : mem_ok m;
  b_owns : owns m v l;
  b_other : owns m other lo;
  b_keeps : keeps m0 (m_blocks v0 ++ m_blocks other) m (m_blocks v ++ m_blocks other);
  b_alloc : m_alloc v = m_alloc v0;
  b_apart : apart (m_blocks other) (m_blocks v) }.

Lemma both_refl m v other l lo : mem_ok m -> owns m v l -> owns m other lo -> apart (m_blocks other) (m_blocks v) ->
  both m v m v other l lo.
Proof. constructor; try done. apply keeps_refl. Qed.

Lemma both_trans m0 v0 m v m' v' other l lo l' lo' : mem_ok m0 ->
  both m0 v0 m v other l lo -> both m v m' v' other l' lo' -> both m0 v0 m' v' other l' lo'.
Proof. intros H0 [Hm Ho Hx Hk Ha Hd] [Hm' Ho' Hx' Hk' Ha' Hd']. constructor; try done; [|congruence]. by eapply keeps_trans. Qed.

Lemma next_both m v m' v' other l lo : owns m other lo -> apart (m_blocks other) (m_blocks v) ->
  next m v m' v' l -> both m v m' v' other l lo.
Proof.
  intros Hx Hd [Hm' Ho' Hk' Ha']. destruct (owns_frame _ _ _ _ _ _ _ Hk' Hx Hd) as [Hx' Hd'].
  constructor; try done. by apply keeps_app.
Qed.

Lemma elems_insert l (i : nat) a j : (i < length l)%nat -> elems (<[i := a]> l) j = upd (elems l) (Z.of_nat i) (Some a) j.
Proof.
  intros Hi. unfold upd, elems. destruct (Z.eqb_spec j (Z.of_nat i)) as [-> | Hne].
  - destruct (Z.ltb_spec (Z.of_nat i) 0); [lia|]. by rewrite Nat2Z.id, list_lookup_insert_eq.
  - destruct (Z.ltb_spec j 0); [done|]. by rewrite list_lookup_insert_ne by lia.
Qed.

(** An element of [other] replaced. *)
Lemma store_spec m v other lo (i : nat) p a b : mem_ok m -> owns m other lo -> lo !! i = Some a ->
  at_index T (m_blocks other) (Z.of_nat i) = Some p -> objects m !! p = Some a ->
  runs (store p b) m v
    (fun _ m' v' => v' = v /\ mem_ok m' /\ owns m' other (<[i := b]> lo) /\ keeps m (m_blocks other) m' (m_blocks other)) (fun _ _ => False).
Proof.
  intros Hm [Hh Hs] Hi Hp Hobj. unfold runs, store. rewrite Hobj. split; [done|].
  destruct (set_object T m _ _ _ (Z.of_nat i) p b Hm Hh ltac:(lia) Hp) as [Hm' Hh' Hk']. split; [done|]. split; [|done].
  constructor; [|by rewrite length_insert]. eapply holds_ext; [|done]. intros j. rewrite elems_insert; [done|by eapply lookup_lt_Some].
Qed.

(** What is left of the elements copied or moved. *)
Definition left_over (moving : bool) l : list A := if moving then moved T <$> l else l.

Lemma move_one moving m v other l done a r p : mem_ok m -> owns m v l -> owns m other (done ++ a :: r) ->
  apart (m_blocks other) (m_blocks v) -> at_index T (m_blocks other) (Z.of_nat (length done)) = Some p -> objects m !! p = Some a ->
  runs (if moving then store p (moved T a) else ret tt) m v
    (fun _ m' v' => v' = v /\ both m v m' v other l ((done ++ left_over moving [a]) ++ r)) (fun _ _ => False).
Proof.
  intros Hm Ho Hx Hd Hp Hobj. rewrite <- app_assoc. unfold left_over. destruct moving; simpl.
  - eapply runs_mono; [by apply (store_spec m v other (done ++ a :: r) (length done) p a); [done|done|by rewrite lookup_app_r, Nat.sub_diag|done|done]| |done].
    intros [] m' v' (-> & Hm' & Hx' & Hk'). split; [done|].
    rewrite insert_app_r_alt, Nat.sub_diag in Hx' by lia. simpl in Hx'.
    destruct (owns_frame _ _ _ _ _ _ _ Hk' Ho) as [Ho' _]; [intros b Hb Hb'; by eapply Hd|].
    constructor; try done. apply (keeps_equiv m (m_blocks other ++ m_blocks v) _ m' (m_blocks other ++ m_blocks v) _);
      [intros b; rewrite !elem_of_app; tauto..|]. by apply keeps_app.
  - split; [done|]. by apply both_refl.
Qed.

Lemma append_loop_spec moving r done l m v other : mem_ok m -> owns m v l -> owns m other (done ++ r) ->
  apart (m_blocks other) (m_blocks v) -> Z.of_nat (length l + length r) <= Z.of_nat (length (m_blocks v)) * N ->
  runs (append_loop T moving (length r) (Iter (m_blocks other) (Z.of_nat (length done))) (end_it other)) m v
    (fun _ m' v' => both m v m' v' other (l ++ r) (done ++ left_over moving r)) (fun _ _ => False).
Proof.
  revert done l m v. induction r as [|a r IH]; intros done l m v Hm Ho Hx Hd Hroom; pose proof (o_size _ _ _ _ Hx) as Hsize;
    rewrite length_app in Hsize; simpl in Hsize, Hroom; cbn [append_loop length]; unfold iter_eq; cbn [m_idx end_it].
  - rewrite Hsize, Nat.add_0_r, Z.eqb_refl. unfold left_over. simpl. rewrite app_nil_r.
    replace (if moving then [] else []) with (@nil A) by by destruct moving. by apply both_refl.
  - pose proof (blocks_room _ _ _ _ _ Hm (o_holds _ _ _ _ Hx)). pose proof (owns_room _ _ _ _ Hx) as Hxr. rewrite length_app in Hxr. simpl in Hxr.
    destruct (Z.eqb_spec (Z.of_nat (length done)) (m_size other)); [lia|]. simpl.
    destruct (owns_lookup T m other _ (length done) a Hx) as (p & Hp & Hobj); [by rewrite lookup_app_r, Nat.sub_diag|].
    eapply runs_place; [done|]. apply (runs_bind _ _ _ _ (fun o m' v' => o = a /\ m' = m /\ v' = v)); [unfold runs, load; by rewrite Hobj|].
    intros o m' v' (-> & -> & ->). eapply runs_bind; [by apply (emplace_room T m v l a); [done|done|lia]|].
    intros _ m1 v1 [Hn1 Hb1]. pose proof (next_both _ _ _ _ _ _ _ Hx Hd Hn1) as Hboth1. pose proof Hboth1 as [Hm1 Ho1 Hx1 _ _ Hd1].
    assert (Hobj1 : objects m1 !! p = Some a).
    { destruct (owns_lookup T m1 other _ (length done) a Hx1) as (q & Hq & Hqo); [by rewrite lookup_app_r, Nat.sub_diag|]. congruence. }
    eapply runs_bind; [by apply (move_one moving m1 v1 other (l ++ [a]) done a r p)|]. intros _ m2 v2 [-> Hboth2].
    pose proof Hboth2 as [Hm2 Ho2 Hx2 _ _ Hd2]. unfold iter_next. simpl.
    replace (W64.wrap (Z.of_nat (length done) + 1)) with (Z.of_nat (length (done ++ left_over moving [a])))
      by (rewrite W64.wrap_small by (unfold W64.in_range, W64.modulus; lia); rewrite length_app; destruct moving; simpl; lia).
    eapply runs_mono; [apply (IH _ (l ++ [a]) m2 v1); [done|done|done|done|rewrite length_app, Hb1; simpl; lia]| |done].
    intros [] m3 v3 Hboth3. rewrite <- !app_assoc in Hboth3.
    replace (left_over moving (a :: r)) with (left_over moving [a] ++ left_over moving r) by by destruct moving.
    eapply both_trans; [done|exact Hboth1|]. by eapply both_trans.
Qed.

Lemma seg_append_spec moving m v other l lo : mem_ok m -> owns m v l -> owns m other lo -> apart (m_blocks other) (m_blocks v) ->
  runs (append_everything_from T moving other) m v
    (fun _ m' v' => both m v m' v' other (l ++ lo) (left_over moving lo)) (fun m' v' => both m v m' v' other l lo).
Proof.
  intros Hm Ho Hx Hd. pose proof (owns_room _ _ _ _ Ho). pose proof (blocks_room _ _ _ _ _ Hm (o_holds _ _ _ _ Ho)).
  pose proof (owns_room _ _ _ _ Hx). pose proof (blocks_room _ _ _ _ _ Hm (o_holds _ _ _ _ Hx)).
  apply runs_self. rewrite (o_size _ _ _ _ Ho), (o_size _ _ _ _ Hx), W64.wrap_small by (unfold W64.in_range, W64.modulus; lia).
  eapply runs_bind.
  - pose proof (blocks_below T (Z.of_nat (length (m_blocks v))) ltac:(lia)).
    pose proof (blocks_below T (Z.of_nat (length (m_blocks other))) ltac:(lia)). pose proof (N_range T).
    eapply runs_mono; [by apply (seg_reserve_spec T (Z.of_nat (length l) + Z.of_nat (length lo)) m v l); [done|done|lia|lia]|intros x m' v' Hx'; exact Hx'|].
    intros m' v' Hn. by apply next_both.
  - intros _ m' v' [Hn Hcap]. pose proof (next_both _ _ _ _ _ _ _ Hx Hd Hn) as Hb. pose proof Hb as [Hm' Ho' Hx' _ _ Hd']. rewrite Nat2Z.id.
    eapply runs_mono; [apply (append_loop_spec moving lo [] l m' v' other); [done|done|done|done|lia]| |done].
    intros [] m'' v'' Hb'. by eapply both_trans.
Qed.

(** ** Assignment *)

Lemma owns_empty m (room id : Z) : owns m (Vec [] room id 0) [].
Proof.
  constructor; [|done]. constructor; simpl; [apply NoDup_nil_2| |intros i a Hi%elems_some; simpl in Hi; lia|];
    intros b; intros; by apply not_elem_of_nil in H || by apply not_elem_of_nil in H0.
Qed.

Lemma operator_copy_spec m v other l lo : mem_ok m -> owns m v l -> owns m other lo -> apart (m_blocks other) (m_blocks v) ->
  runs (operator_copy T other) m v (fun _ m' v' => both m v m' v' other lo lo) (fun m' v' => both m v m' v' other [] lo).
Proof.
  intros Hm Ho Hx Hd. eapply runs_bind; [eapply runs_mono; [by eapply seg_clear_spec|intros x m' v' Hx'; exact Hx'|done]|].
  intros _ m1 v1 [Hn Hb1]. pose proof (next_both _ _ _ _ _ _ _ Hx Hd Hn) as Hb. pose proof Hb as [Hm1 Ho1 Hx1 _ _ Hd1].
  eapply runs_mono; [by apply (seg_append_spec false m1 v1 other [] lo)| |].
  - intros [] m' v' Hb'. by eapply both_trans.
  - intros m' v' Hb'. by eapply both_trans.
Qed.

(** What a move leaves: [x] is the other vector afterwards, [lx] its elements. *)
Record moved_to m v other m' v' x lo lx : Prop := {
  t_mem : mem_ok m';
  t_owns : owns m' v' lo;
  t_other : owns m' x lx;
  t_keeps : keeps m (m_blocks v ++ m_blocks other) m' (m_blocks v' ++ m_blocks x);
  t_apart : apart (m_blocks x) (m_blocks v');
  t_alloc_other : m_alloc x = m_alloc other }.

(** The allocator of a vector assigned from an rvalue. *)
Definition move_alloc (id id_other : Z) : Z :=
  if id_other =? id then id else if propagate_on_move T then id_other else id.

(** The elements left in the vector moved from: none when its blocks were taken. *)
Definition move_rest (id id_other : Z) l : list A := if id_other =? id then [] else moved T <$> l.

Lemma take_blocks m v other m1 lo : mem_ok m1 -> owns m1 other lo -> keeps m (m_blocks v) m1 [] -> m_alloc other = m_alloc v ->
  moved_to m v other m1 (Vec (m_blocks other) (m_room other) (m_alloc v) (m_size other)) (fresh (m_alloc other)) lo [].
Proof.
  intros Hm1 Hx Hk E. constructor; simpl; try done.
  - destruct Hx as [Hh Hs]. constructor; simpl; [by rewrite <- E|done].
  - apply owns_empty.
  - apply (keeps_equiv m (m_blocks v ++ m_blocks other) _ m1 ([] ++ m_blocks other) _); [done| |by apply keeps_app].
    intros b. by rewrite app_nil_r.
  - intros b Hb. by apply not_elem_of_nil in Hb.
Qed.

Lemma operator_move_spec m v other l lo : mem_ok m -> owns m v l -> owns m other lo -> apart (m_blocks other) (m_blocks v) ->
  match operator_move T other m v with
  | Done x m' v' => moved_to m v other m' v' x lo (move_rest (m_alloc v) (m_alloc other) lo) /\
                    m_alloc v' = move_alloc (m_alloc v) (m_alloc other)
  | BadAlloc _ _ => False
  | Terminated => m_alloc other <> m_alloc v
  | Fault => False
  end.
Proof.
  intros Hm Ho Hx Hd. unfold operator_move, noexcept.
  match goal with |- context [match ?c m v with _ => _ end] => set (body := c); assert (Hr : runs body m v (fun x m' v' =>
    moved_to m v other m' v' x lo (move_rest (m_alloc v) (m_alloc other) lo) /\ m_alloc v' = move_alloc (m_alloc v) (m_alloc other))
    (fun _ _ => m_alloc other <> m_alloc v)) end.
  2:{ revert Hr. unfold runs. by destruct (body m v). }
  unfold body. clear body.
  eapply runs_bind; [eapply runs_mono; [by eapply seg_clear_spec|intros x m' v' Hx'; exact Hx'|done]|]. intros _ m1 v1 [Hn Hb1].
  pose proof (n_mem _ _ _ _ _ _ Hn) as Hm1.
  eapply runs_bind; [eapply runs_mono; [apply (dealloc_spec m1 v1 Hm1); apply (n_owns _ _ _ _ _ _ Hn)|intros x m' v' Hx'; exact Hx'|done]|].
  intros _ m2 v2 (-> & Hm2 & Hk2). apply runs_self.
  assert (Hk : keeps m (m_blocks v) m2 []) by (eapply keeps_trans; [exact Hm|exact Hm2|apply (n_keeps _ _ _ _ _ _ Hn)|exact Hk2]).
  destruct (owns_frame _ _ _ _ _ _ _ Hk Hx Hd) as [Hx2 _]. unfold move_rest, move_alloc. rewrite (n_alloc _ _ _ _ _ _ Hn).
  destruct (Z.eqb_spec (m_alloc other) (m_alloc v)) as [E|Hne].
  - unfold runs, bind, set_blocks, set_room, set_size, ret. simpl. rewrite (n_alloc _ _ _ _ _ _ Hn). split; [by apply take_blocks|done].
  - apply (runs_bind _ _ _ _ (fun _ m' v' => m' = m2 /\ exists room, v' = Vec [] room (m_alloc v) 0)).
    { unfold runs, set_blocks. split; [done|]. exists (m_room v1).
      rewrite (n_alloc _ _ _ _ _ _ Hn), (o_size _ _ _ _ (n_owns _ _ _ _ _ _ Hn)). done. }
    intros _ m' v' [-> [room ->]]. set (id := if propagate_on_move T then m_alloc other else m_alloc v).
    apply (runs_bind _ _ _ _ (fun _ m' v' => m' = m2 /\ exists room, v' = Vec [] room id 0)).
    { unfold id. destruct (propagate_on_move T); (split; [done|by eexists]). }
    intros _ m' v' [-> [room' ->]]. eapply runs_bind.
    + eapply runs_mono; [apply (seg_append_spec true m2 (Vec [] room' id 0) other [] lo Hm2 (owns_empty _ _ _) Hx2)| |done].
      * intros b _. apply not_elem_of_nil.
      * intros x m3 v3 Hx3. exact Hx3.
    + intros _ m3 v3 [Hm3 Ho3 Hx3 Hk3 Ha3 Hd3]. split; [|done]. constructor; try done.
      eapply keeps_trans; [exact Hm|exact Hm3| |exact Hk3]. by apply keeps_app.
Qed.
End Copy.
