(* ===== verification/SegmentedWorld.v ===== *)
(** * Programs with segmented vectors

    Any number of vectors in one memory, each with its allocator: the calls a
    program can make, what they do to the lists that [std::vector] would hold, and
    the theorem that the blocks always hold those lists, that no call reads or
    frees what it must not, and that what is allocated is always in some vector -
    but for the blocks lost by two exceptions, that of a copy constructor and that
    of [m_blocks.push_back]. *)

From S2P Require Import Prelude SegmentedVector SegmentedProof SegmentedOps SegmentedCopy.
#[local] Open Scope Z_scope.
#[local] Open Scope seg_scope.

(** The calls; vectors are named by numbers, and the last argument of a
    constructor is the allocator. *)
Inductive cmd (A : Type) :=
  | Construct (x : nat) (alloc : Z)
  | EmplaceBack (x : nat) (a : A) | PopBack (x : nat)
  | Reserve (x : nat) (n : Z) | Resize (x : nat) (n : Z) | ResizeValue (x : nat) (n : Z) (a : A)
  | Clear (x : nat) | ShrinkToFit (x : nat)
  | CopyAssign (x y : nat) | MoveAssign (x y : nat)
  | CopyConstruct (x y : nat) (alloc : Z) | MoveConstruct (x y : nat) (alloc : Z)
  | Destroy (x : nat).
Arguments Construct {A} _ _.
Arguments EmplaceBack {A} _ _.
Arguments PopBack {A} _.
Arguments Reserve {A} _ _.
Arguments Resize {A} _ _.
Arguments ResizeValue {A} _ _ _.
Arguments Clear {A} _.
Arguments ShrinkToFit {A} _.
Arguments CopyAssign {A} _ _.
Arguments MoveAssign {A} _ _.
Arguments CopyConstruct {A} _ _ _.
Arguments MoveConstruct {A} _ _ _.
Arguments Destroy {A} _.

(** The memory and the vectors. *)
Record world (A : Type) := World { memory : mem A; vecs : gmap nat vec }.
Arguments World {A} _ _.
Arguments memory {A} _.
Arguments vecs {A} _.

Inductive ending (A : Type) := Returned (w : world A) | Threw (w : world A) | Ended | Wrong.
Arguments Returned {A} _.
Arguments Threw {A} _.
Arguments Ended {A}.
Arguments Wrong {A}.

Section World.
Context {A : Type} (T : params A).
Implicit Types (m : mem A) (v : vec) (l : list A) (w : world A) (c : cmd A) (x y : nat).

(** A call of [c] on [v], which is stored under [x] afterwards. *)
Definition call_on (x : nat) (out : outcome A unit) (vs : gmap nat vec) : ending A :=
  match out with
  | Done _ m' v' => Returned (World m' (<[x := v']> vs))
  | BadAlloc m' v' => Threw (World m' (<[x := v']> vs))
  | Terminated => Ended
  | Fault => Wrong
  end.

Definition on w x (k : vec -> ending A) : ending A := match vecs w !! x with Some v => k v | None => Wrong end.

Definition unused w x (k : ending A) : ending A := match vecs w !! x with Some _ => Wrong | None => k end.

Definition distinct x y (k : ending A) : ending A := if decide (x = y) then Wrong else k.

Definition exec c w : ending A :=
  let run x (e : eff A unit) := on w x (fun v => call_on x (e (memory w) v) (vecs w)) in
  match c with
  | Construct x alloc => unused w x (Returned (World (memory w) (<[x := fresh alloc]> (vecs w))))
  | EmplaceBack x a => run x (emplace_back T a)
  | PopBack x => run x (pop_back T)
  | Reserve x n => run x (reserve T n)
  | Resize x n => run x (resize T n)
  | ResizeValue x n a => run x (resize_value T n a)
  | Clear x => run x (clear T)
  | ShrinkToFit x => run x (shrink_to_fit T)
  | CopyAssign x y =>
      if decide (x = y) then on w x (fun _ => Returned w)
      else on w y (fun other => run x (operator_copy T other))
  | MoveAssign x y =>
      distinct x y (on w y (fun other => on w x (fun v =>
        match operator_move T other (memory w) v with
        | Done other' m' v' => Returned (World m' (<[x := v']> (<[y := other']> (vecs w))))
        | BadAlloc m' v' => Threw (World m' (<[x := v']> (vecs w)))
        | Terminated => Ended
        | Fault => Wrong
        end)))
  | CopyConstruct x y alloc =>
      unused w x (on w y (fun other =>
        match construct_copy T other alloc (memory w) with
        | Done _ m' v' => Returned (World m' (<[x := v']> (vecs w)))
        | BadAlloc m' v' => Threw (World m' (vecs w))
        | Terminated => Ended
        | Fault => Wrong
        end))
  | MoveConstruct x y alloc =>
      unused w x (on w y (fun other =>
        match construct_move T other alloc (memory w) with
        | Done other' m' v' => Returned (World m' (<[x := v']> (<[y := other']> (vecs w))))
        | BadAlloc m' v' => Threw (World m' (vecs w))
        | Terminated => Ended
        | Fault => Wrong
        end))
  | Destroy x =>
      on w x (fun v =>
        match destructor T (memory w) v with
        | Done _ m' _ => Returned (World m' (delete x (vecs w)))
        | BadAlloc m' v' => Threw (World m' (<[x := v']> (vecs w)))
        | Terminated => Ended
        | Fault => Wrong
        end)
  end.

(** ** What the vectors stand for *)

(** The allocator and the elements of each vector. *)
Abbreviation contents := (gmap nat (Z * list A)).
Implicit Types (s : contents).

(** The lists after a call that returns; none when the call is not allowed there. *)
Definition after c s : option contents :=
  let set x (f : list A -> list A) := '(id, l) ← s !! x; Some (<[x := (id, f l)]> s) in
  match c with
  | Construct x alloc => if decide (s !! x = None) then Some (<[x := (alloc, [])]> s) else None
  | EmplaceBack x a => set x (fun l => l ++ [a])
  | PopBack x => '(_, l) ← s !! x; if decide (l = []) then None else set x (@removelast A)
  | Reserve x n => if decide (W64.in_range n) then set x id else None
  | Resize x n => if decide (W64.in_range n) then set x (resized (Z.to_nat n) (init T)) else None
  | ResizeValue x n a => if decide (W64.in_range n) then set x (resized (Z.to_nat n) a) else None
  | Clear x => set x (fun _ => [])
  | ShrinkToFit x => set x id
  | CopyAssign x y => '(_, lo) ← s !! y; set x (fun _ => lo)
  | MoveAssign x y =>
      if decide (x = y) then None
      else '(ido, lo) ← s !! y; '(id, _) ← s !! x;
           Some (<[x := (move_alloc T id ido, lo)]> (<[y := (ido, move_rest T id ido lo)]> s))
  | CopyConstruct x y alloc =>
      if decide (s !! x = None) then '(_, lo) ← s !! y; Some (<[x := (alloc, lo)]> s) else None
  | MoveConstruct x y alloc =>
      if decide (s !! x = None) then
        '(ido, lo) ← s !! y;
        Some (<[x := (move_alloc T alloc ido, lo)]> (<[y := (ido, move_rest T alloc ido lo)]> s))
      else None
  | Destroy x => _ ← s !! x; Some (delete x s)
  end.

(** The lists after a call that throws: copy assignment has emptied its target. *)
Definition thrown c s : contents :=
  match c with
  | CopyAssign x _ => match s !! x with Some (id, _) => <[x := (id, [])]> s | None => s end
  | _ => s
  end.

(** The vector [v] with allocator and elements [il]. *)
Definition stands m v (il : Z * list A) : Prop := owns T m v il.2 /\ m_alloc v = il.1.

Record world_ok w s : Prop := {
  w_mem : mem_ok T (memory w);
  w_none x : s !! x = None -> vecs w !! x = None;
  w_some x il : s !! x = Some il -> exists v, vecs w !! x = Some v /\ stands (memory w) v il;
  w_apart x y v v' : x <> y -> vecs w !! x = Some v -> vecs w !! y = Some v' -> apart (m_blocks v) (m_blocks v') }.

(** Every block allocated is in a vector, or one of the [lost]. *)
Definition lost_in (lost : gset Z) w : Prop :=
  forall b, is_Some (allocated (memory w) !! b) -> b ∈ lost \/ exists x v, vecs w !! x = Some v /\ b ∈ m_blocks v.

(** From [w] to [w'] no block is lost. *)
Definition loses_none w w' : Prop := forall lost, lost_in lost w -> lost_in lost w'.

(** One is, at most, [m_blocks] of the vector [x] having got no storage for it. *)
Definition loses_one x w w' : Prop := exists b v, vecs w' !! x = Some v /\
  vector_storage T (m_alloc v) (allocated (memory w')) (blocks_size v + 1) = None /\
  forall lost, lost_in lost w -> lost_in ({[b]} ∪ lost) w'.

(** The calls that can push a block to [m_blocks] without having reserved the room:
    [emplace_back], and [reserve] when the number of blocks it computes wraps. *)
Definition may_lose c : option nat :=
  let wraps n := 2 ^ 64 <=? n + num_elements_in_block T - 1 in
  match c with
  | EmplaceBack x _ => Some x
  | Reserve x n | Resize x n | ResizeValue x n _ => if wraps n then Some x else None
  | _ => None
  end.

Definition is_copy_construct c : Prop := match c with CopyConstruct _ _ _ => True | _ => False end.

(** The calls that copy in a [noexcept] function: moves between different allocators. *)
Definition may_terminate c s : Prop :=
  match c with
  | MoveAssign x y => fst <$> s !! y <> fst <$> s !! x
  | MoveConstruct x y alloc => fst <$> s !! y <> Some alloc
  | _ => False
  end.

(** The program before any vector. *)
Definition start : world A := World (Mem ∅ ∅) ∅.

Fixpoint exec_all (cs : list (cmd A)) w : ending A :=
  match cs with
  | [] => Returned w
  | c :: cs' =>
      match exec c w with
      | Returned w' | Threw w' => exec_all cs' w'
      | out => out
      end
  end.
End World.

Section Update.
Context {A : Type} (T : params A) `{!Good T}.
Implicit Types (m : mem A) (v : vec) (l : list A) (w : world A) (c : cmd A) (x y : nat) (ps : list nat) (bs : list Z).
Implicit Types (s : gmap nat (Z * list A)) (il : Z * list A).

Abbreviation mem_ok := (mem_ok T).
Abbreviation stands := (stands T).
Abbreviation world_ok := (world_ok T).

Lemma stands_frame m bs m' bs' v il : keeps m bs m' bs' -> stands m v il -> apart (m_blocks v) bs ->
  stands m' v il /\ apart (m_blocks v) bs'.
Proof. intros Hk [Ho Ha] Hd. destruct (owns_frame T _ _ _ _ _ _ Hk Ho Hd). done. Qed.

Lemma apart_sym bs bs' : apart bs bs' -> apart bs' bs.
Proof. intros Hd b Hb Hb'. by eapply Hd. Qed.

(** The vectors [ps] change, with the blocks [bs] becoming [bs']. *)
Lemma world_update w s m' (vs' : gmap nat vec) s' ps bs bs' :
  world_ok w s -> mem_ok m' -> keeps (memory w) bs m' bs' ->
  (forall z, z ∉ ps -> vs' !! z = vecs w !! z /\ s' !! z = s !! z) ->
  (forall z v, z ∉ ps -> vecs w !! z = Some v -> apart (m_blocks v) bs) ->
  (forall z, z ∈ ps -> match s' !! z, vs' !! z with
    | Some il, Some v => stands m' v il /\ forall b, b ∈ m_blocks v -> b ∈ bs'
    | None, None => True
    | _, _ => False end) ->
  (forall z z' v v', z ∈ ps -> z' ∈ ps -> z <> z' -> vs' !! z = Some v -> vs' !! z' = Some v' -> apart (m_blocks v) (m_blocks v')) ->
  world_ok (World m' vs') s'.
Proof.
  intros Hw Hm' Hk Hsame Hd Hps Hpair.
  assert (Hrest : forall z v il, z ∉ ps -> vecs w !! z = Some v -> s !! z = Some il -> stands m' v il /\ apart (m_blocks v) bs').
  { intros z v il Hz Hv Hs. destruct (w_some _ _ _ Hw z il Hs) as (v0 & Hv0 & Hst). simplify_eq.
    eapply stands_frame; [done|done|by eapply Hd]. }
  assert (Hapart : forall z v, z ∉ ps -> vecs w !! z = Some v -> apart (m_blocks v) bs').
  { intros z v Hz Hv. destruct (s !! z) as [il|] eqn:Hs; [by eapply Hrest|]. by rewrite (w_none _ _ _ Hw z Hs) in Hv. }
  constructor; simpl; [done| | |].
  - intros z Hs. destruct (decide (z ∈ ps)) as [Hz|Hz].
    + specialize (Hps z Hz). rewrite Hs in Hps. by destruct (vs' !! z).
    + destruct (Hsame z Hz) as [-> E]. apply (w_none _ _ _ Hw). congruence.
  - intros z il Hs. destruct (decide (z ∈ ps)) as [Hz|Hz].
    + specialize (Hps z Hz). rewrite Hs in Hps. destruct (vs' !! z) as [v|]; [|done]. exists v. tauto.
    + destruct (Hsame z Hz) as [-> E]. rewrite E in Hs. destruct (w_some _ _ _ Hw z il Hs) as (v & Hv & _).
      exists v. split; [done|]. by eapply Hrest.
  - intros z z' v v' Hne. assert (Hin : forall z v, z ∈ ps -> vs' !! z = Some v -> forall b, b ∈ m_blocks v -> b ∈ bs').
    { intros y u Hy Hu. specialize (Hps y Hy). rewrite Hu in Hps. by destruct (s' !! y); [destruct Hps|]. }
    destruct (decide (z ∈ ps)) as [Hz|Hz], (decide (z' ∈ ps)) as [Hz'|Hz'].
    + by apply Hpair.
    + destruct (Hsame z' Hz') as [-> _]. intros Hv Hv'. apply apart_sym. intros b Hb Hb'. by eapply (Hapart z'), Hin.
    + destruct (Hsame z Hz) as [-> _]. intros Hv Hv' b Hb Hb'. by eapply (Hapart z), Hin.
    + destruct (Hsame z Hz) as [-> _], (Hsame z' Hz') as [-> _]. by apply (w_apart _ _ _ Hw).
Qed.

Lemma leak_update (lost lost' : gset Z) w m' (vs' : gmap nat vec) ps bs bs' : lost_in lost w -> lost ⊆ lost' ->
  keeps (memory w) bs m' bs' ->
  (forall z, z ∉ ps -> vs' !! z = vecs w !! z) ->
  (forall z v b, z ∈ ps -> vecs w !! z = Some v -> b ∈ m_blocks v -> b ∈ bs) ->
  (forall b, b ∈ bs' -> b ∈ lost' \/ exists z v, vs' !! z = Some v /\ b ∈ m_blocks v) ->
  lost_in lost' (World m' vs').
Proof.
  intros Hl Hsub Hk Hsame Hbs Hbs' b Hb. simpl in *. destruct (decide (b ∈ bs')) as [|Hb']; [by apply Hbs'|].
  destruct (decide (b ∈ bs)) as [Hin|Hin]; [rewrite (k_gone _ _ _ _ Hk b Hin Hb') in Hb; by destruct Hb|].
  destruct (k_same _ _ _ _ Hk b Hin Hb') as [E _]. rewrite E in Hb. destruct (Hl b Hb) as [|(z & v & Hv & Hbv)]; [left; by apply Hsub|].
  right. exists z, v. split; [|done]. rewrite Hsame; [done|]. intros Hz. by eapply Hin, Hbs.
Qed.

(** The blocks of the vector [x], when there is one. *)
Definition blocks_of w x : list Z := match vecs w !! x with Some v => m_blocks v | None => [] end.

Lemma blocks_of_apart w s x z v : world_ok w s -> z <> x -> vecs w !! z = Some v -> apart (m_blocks v) (blocks_of w x).
Proof.
  intros Hw Hne Hv. unfold blocks_of. destruct (vecs w !! x) as [u|] eqn:Hu; [by apply (w_apart _ _ _ Hw z x)|].
  intros b _. apply not_elem_of_nil.
Qed.

(** One vector changes, and the blocks [ex] are in none. *)
Lemma update_one_lost w s m' x v il (ex : list Z) : world_ok w s -> mem_ok m' ->
  keeps (memory w) (blocks_of w x) m' (m_blocks v ++ ex) -> stands m' v il ->
  let w' := World m' (<[x := v]> (vecs w)) in
  world_ok w' (<[x := il]> s) /\ forall lost, lost_in lost w -> lost_in (list_to_set ex ∪ lost) w'.
Proof.
  intros Hw Hm' Hk Hs. split.
  - apply (world_update w s m' _ _ [x] (blocks_of w x) (m_blocks v ++ ex)); try done.
    + intros z Hz%not_elem_of_cons. by rewrite !lookup_insert_ne by (intros ->; by destruct Hz).
    + intros z u Hz%not_elem_of_cons. eapply blocks_of_apart; [done|by destruct Hz].
    + intros z ->%list_elem_of_singleton. rewrite !lookup_insert_eq. split; [done|]. intros b Hb. apply elem_of_app. by left.
    + by intros z z' u u' ->%list_elem_of_singleton ->%list_elem_of_singleton.
  - intros lost Hl. apply (leak_update lost _ w m' _ [x] (blocks_of w x) (m_blocks v ++ ex)); try done.
    + set_solver.
    + intros z Hz%not_elem_of_cons. rewrite lookup_insert_ne; [done|]. intros ->. by destruct Hz.
    + intros z u b ->%list_elem_of_singleton Hu. unfold blocks_of. by rewrite Hu.
    + intros b [Hb|Hb]%elem_of_app; [right|set_solver]. exists x, v. by rewrite lookup_insert_eq.
Qed.

(** One vector changes. *)
Lemma update_one w s m' x v il : world_ok w s -> mem_ok m' -> keeps (memory w) (blocks_of w x) m' (m_blocks v) -> stands m' v il ->
  let w' := World m' (<[x := v]> (vecs w)) in world_ok w' (<[x := il]> s) /\ loses_none w w'.
Proof.
  intros Hw Hm' Hk Hs. destruct (update_one_lost w s m' x v il [] Hw Hm') as [Hw' Hl]; [by rewrite app_nil_r|done|].
  split; [done|]. intros lost Hlost. replace lost with (list_to_set [] ∪ lost) by set_solver. by apply Hl.
Qed.

(** Two vectors change. *)
Lemma update_two w s m' x y v u il ilu : world_ok w s -> x <> y -> mem_ok m' ->
  keeps (memory w) (blocks_of w x ++ blocks_of w y) m' (m_blocks v ++ m_blocks u) ->
  stands m' v il -> stands m' u ilu -> apart (m_blocks u) (m_blocks v) ->
  let vs' := <[x := v]> (<[y := u]> (vecs w)) in
  world_ok (World m' vs') (<[x := il]> (<[y := ilu]> s)) /\ loses_none w (World m' vs').
Proof.
  intros Hw Hne Hm' Hk Hs Hsu Hd vs'.
  assert (Hx : vs' !! x = Some v) by apply lookup_insert_eq.
  assert (Hy : vs' !! y = Some u) by (unfold vs'; by rewrite lookup_insert_ne, lookup_insert_eq).
  assert (Hz : forall z, z ∉ [x; y] -> z <> x /\ z <> y) by (intros z Hz%not_elem_of_cons; rewrite list_elem_of_singleton in Hz; done).
  split.
  - apply (world_update w s m' _ _ [x; y] (blocks_of w x ++ blocks_of w y) (m_blocks v ++ m_blocks u)); try done.
    + intros z [Hzx Hzy]%Hz. unfold vs'. by rewrite !lookup_insert_ne.
    + intros z t [Hzx Hzy]%Hz Ht b Hb [Hb'|Hb']%elem_of_app;
        [by apply (blocks_of_apart w s x z t Hw Hzx Ht b)|by apply (blocks_of_apart w s y z t Hw Hzy Ht b)].
    + intros z [-> | ->%list_elem_of_singleton]%elem_of_cons.
      * rewrite Hx, lookup_insert_eq. split; [done|]. intros b Hb. apply elem_of_app. by left.
      * rewrite Hy, lookup_insert_ne, lookup_insert_eq by done. split; [done|]. intros b Hb. apply elem_of_app. by right.
    + intros z z' t t' [-> | ->%list_elem_of_singleton]%elem_of_cons [-> | ->%list_elem_of_singleton]%elem_of_cons Hzz Ht Ht';
        try done; simplify_eq; [by apply apart_sym|done].
  - intros lost Hl. apply (leak_update lost lost w m' _ [x; y] (blocks_of w x ++ blocks_of w y) (m_blocks v ++ m_blocks u)); try done.
    + intros z [Hzx Hzy]%Hz. unfold vs'. by rewrite !lookup_insert_ne.
    + intros z t b [-> | ->%list_elem_of_singleton]%elem_of_cons Ht Hb; apply elem_of_app; [left|right]; unfold blocks_of; by rewrite Ht.
    + intros b [Hb|Hb]%elem_of_app; right; [by exists x, v|by exists y, u].
Qed.

(** ** One call *)

(** What a call allowed from [s] ends in: the lists [s'], or those of [thrown]. *)
Definition kept c w s s' (out : ending A) : Prop :=
  match out with
  | Returned w' => world_ok w' s' /\ loses_none w w'
  | Threw w' => world_ok w' (thrown c s) /\
      (is_copy_construct c \/ loses_none w w' \/ exists x, may_lose T c = Some x /\ loses_one T x w w')
  | Ended => may_terminate c s
  | Wrong => False
  end.

Lemma blocks_of_some w x v : vecs w !! x = Some v -> blocks_of w x = m_blocks v.
Proof. unfold blocks_of. by intros ->. Qed.

Lemma blocks_of_none w x : vecs w !! x = None -> blocks_of w x = [].
Proof. unfold blocks_of. by intros ->. Qed.

Lemma next_one w s x v id m' v' l' : world_ok w s -> vecs w !! x = Some v -> m_alloc v = id ->
  next T (memory w) v m' v' l' ->
  world_ok (World m' (<[x := v']> (vecs w))) (<[x := (id, l')]> s) /\ loses_none w (World m' (<[x := v']> (vecs w))).
Proof.
  intros Hw Hv <- [Hm' Ho' Hk' Ha']. apply update_one; [done|done|by rewrite (blocks_of_some w x v Hv)|done].
Qed.

(** A call on one vector that does not change when it throws. *)
Lemma call_kept c w s x v id l l' (e : eff A unit) : world_ok w s -> vecs w !! x = Some v -> s !! x = Some (id, l) ->
  m_alloc v = id -> thrown c s = s ->
  runs e (memory w) v (fun _ m' v' => next T (memory w) v m' v' l')
    (fun m' v' => threw T (may_lose T c <> Some x) (memory w) v m' v' l) ->
  kept c w s (<[x := (id, l')]> s) (call_on x (e (memory w) v) (vecs w)).
Proof.
  intros Hw Hv Hs Ha Et Hr. unfold runs in Hr. destruct (e (memory w) v) as [[] m' v'|m' v'| |]; simpl; try done.
  - by apply (next_one w s x v id).
  - rewrite Et. destruct Hr as [Hn|[Hc%dec_stable (b & [Hm' Ho' Hk' Ha' Hr'])]].
    + destruct (next_one w s x v id m' v' l Hw Hv Ha Hn) as [Hw' Hl]. rewrite (insert_id s) in Hw' by done. tauto.
    + destruct (update_one_lost w s m' x v' (id, l) [b] Hw Hm') as [Hw' Hl];
        [by rewrite (blocks_of_some w x v Hv)|split; simpl; [done|congruence]|].
      rewrite (insert_id s) in Hw' by done. split; [done|]. right. right. exists x. split; [done|]. exists b, v'.
      split; [apply lookup_insert_eq|]. split; [done|]. intros lost Hlost. specialize (Hl lost Hlost).
      simpl in Hl. by rewrite union_empty_r_L in Hl.
Qed.

(** Nothing throws. *)
Lemma runs_next (cheap : Prop) m v (e : eff A unit) l' l'' (P : mem A -> vec -> Prop) :
  runs e m v (fun _ m' v' => next T m v m' v' l' /\ P m' v') (fun _ _ => False) ->
  runs e m v (fun _ m' v' => next T m v m' v' l') (fun m' v' => threw T cheap m v m' v' l'').
Proof. intros Hr. eapply runs_mono; [done| |done]. by intros [] m' v' [Hn _]. Qed.

Lemma not_wraps (n z : Z) x : (if z <=? n then Some x else None) <> Some x -> n < z.
Proof. destruct (Z.leb_spec z n); [done|lia]. Qed.

Lemma in_range_nat (n : Z) : W64.in_range n -> n = Z.of_nat (Z.to_nat n).
Proof. unfold W64.in_range. lia. Qed.

(** [operator=] of another vector. *)
Lemma copy_kept w s x y v u id l idu lu : world_ok w s -> x <> y -> vecs w !! x = Some v -> vecs w !! y = Some u ->
  s !! x = Some (id, l) -> s !! y = Some (idu, lu) -> stands (memory w) v (id, l) -> stands (memory w) u (idu, lu) ->
  kept (CopyAssign x y) w s (<[x := (id, lu)]> s) (call_on x (operator_copy T u (memory w) v) (vecs w)).
Proof.
  intros Hw Hne Hv Hu Hs Hsu [Ho Ha] [Hou Hau]. simpl in *.
  assert (Hboth : forall m' v' l', both T (memory w) v m' v' u l' lu ->
    let w' := World m' (<[x := v']> (vecs w)) in world_ok w' (<[x := (id, l')]> s) /\ loses_none w w').
  { intros m' v' l' [Hm' Ho' Hou' Hk' Ha' Hd']. simpl.
    rewrite <- (insert_id (vecs w) y u Hu), <- (insert_id s y (idu, lu) Hsu). apply update_two; try done; [|by split; simpl; congruence].
    by rewrite (blocks_of_some w x v Hv), (blocks_of_some w y u Hu). }
  pose proof (operator_copy_spec T (memory w) v u l lu (w_mem _ _ _ Hw) Ho Hou) as Hr. unfold runs in Hr.
  destruct (operator_copy T u (memory w) v) as [[] m' v'|m' v'| |]; simpl; rewrite ?Hs.
  - apply Hboth, Hr. by apply (w_apart _ _ _ Hw y x).
  - destruct (Hboth m' v' []) as [Hw' Hl]; [apply Hr; by apply (w_apart _ _ _ Hw y x)|]. tauto.
  - apply Hr. by apply (w_apart _ _ _ Hw y x).
  - apply Hr. by apply (w_apart _ _ _ Hw y x).
Qed.

(** A move into [v], the vector [x] or the one a constructor starts with. *)
Lemma move_kept w s x y v u l idu lu : world_ok w s -> x <> y -> blocks_of w x = m_blocks v -> vecs w !! y = Some u ->
  owns T (memory w) v l -> stands (memory w) u (idu, lu) -> apart (m_blocks u) (m_blocks v) ->
  match operator_move T u (memory w) v with
  | Done u' m' v' =>
      let w' := World m' (<[x := v']> (<[y := u']> (vecs w))) in
      world_ok w' (<[x := (move_alloc T (m_alloc v) idu, lu)]> (<[y := (idu, move_rest T (m_alloc v) idu lu)]> s)) /\
      loses_none w w'
  | Terminated => idu <> m_alloc v
  | _ => False
  end.
Proof.
  intros Hw Hne Hx Hu Ho [Hou Hau] Hd. simpl in *. subst idu.
  pose proof (operator_move_spec T (memory w) v u l lu (w_mem _ _ _ Hw) Ho Hou Hd) as Hr.
  destruct (operator_move T u (memory w) v) as [u' m' v'| | |]; try done. destruct Hr as [[Hm' Ho' Hou' Hk' Hd' Ha'] Hav].
  apply update_two; try done. by rewrite Hx, (blocks_of_some w y u Hu).
Qed.

Lemma copy_construct_kept w s x y alloc u idu lu : world_ok w s -> vecs w !! x = None -> vecs w !! y = Some u ->
  s !! y = Some (idu, lu) -> stands (memory w) u (idu, lu) ->
  match construct_copy T u alloc (memory w) with
  | Done _ m' v' => let w' := World m' (<[x := v']> (vecs w)) in world_ok w' (<[x := (alloc, lu)]> s) /\ loses_none w w'
  | BadAlloc m' _ => world_ok (World m' (vecs w)) s
  | _ => False
  end.
Proof.
  intros Hw Hx Hu Hs [Hou Hau]. simpl in *. assert (Hne : x <> y) by congruence.
  pose proof (seg_append_spec T false (memory w) (fresh alloc) u [] lu (w_mem _ _ _ Hw) (owns_empty T _ _ _) Hou) as Hr.
  unfold runs in Hr. unfold construct_copy.
  destruct (append_everything_from T false u (memory w) (fresh alloc)) as [[] m' v'|m' v'| |];
    (lapply Hr; [clear Hr; intros Hr|intros b _; apply not_elem_of_nil]); try done; destruct Hr as [Hm' Ho' Hou' Hk' Ha' Hd'].
  - simpl. rewrite <- (insert_id (vecs w) y u Hu), <- (insert_id s y (idu, lu) Hs). apply update_two; try done.
    by rewrite (blocks_of_none w x Hx), (blocks_of_some w y u Hu).
  - apply (world_update w s m' _ _ [y] (m_blocks u) (m_blocks v' ++ m_blocks u)); try done.
    + intros z t Hz%not_elem_of_cons Ht. by apply (w_apart _ _ _ Hw z y); [destruct Hz|..].
    + intros z ->%list_elem_of_singleton. rewrite Hs, Hu. split; [done|]. intros b Hb. apply elem_of_app. by right.
    + by intros z z' t t' ->%list_elem_of_singleton ->%list_elem_of_singleton.
Qed.

Lemma destroy_kept w s x v il : world_ok w s -> vecs w !! x = Some v -> stands (memory w) v il ->
  match destructor T (memory w) v with
  | Done _ m' _ => let w' := World m' (delete x (vecs w)) in world_ok w' (delete x s) /\ loses_none w w'
  | _ => False
  end.
Proof.
  intros Hw Hv [Ho Ha]. pose proof (destructor_spec T (memory w) v il.2 (w_mem _ _ _ Hw) Ho) as Hr. unfold runs in Hr.
  destruct (destructor T (memory w) v) as [[] m' v'| | |]; try done. destruct Hr as (_ & Hm' & Hk). split.
  - apply (world_update w s m' _ _ [x] (m_blocks v) []); try done.
    + intros z Hz%not_elem_of_cons. by rewrite !lookup_delete_ne by (intros ->; by destruct Hz).
    + intros z t Hz%not_elem_of_cons Ht. by apply (w_apart _ _ _ Hw z x); [destruct Hz|..].
    + intros z ->%list_elem_of_singleton. by rewrite !lookup_delete_eq.
    + by intros z z' t t' ->%list_elem_of_singleton ->%list_elem_of_singleton.
  - intros lost Hl. apply (leak_update lost lost w m' _ [x] (m_blocks v) []); try done.
    + intros z Hz%not_elem_of_cons. rewrite lookup_delete_ne; [done|]. intros ->. by destruct Hz.
    + intros z u b ->%list_elem_of_singleton Hu. by simplify_eq.
    + intros b Hb. by apply not_elem_of_nil in Hb.
Qed.

(** Every call on one vector. *)
Lemma single_kept c w s s' : world_ok w s -> after T c s = Some s' ->
  match c with
  | EmplaceBack _ _ | PopBack _ | Reserve _ _ | Resize _ _ | ResizeValue _ _ _ | Clear _ | ShrinkToFit _ =>
      kept c w s s' (exec T c w)
  | _ => True
  end.
Proof.
  intros Hw Haft. pose proof (w_mem _ _ _ Hw) as Hm.
  assert (Htarget : forall x id l, s !! x = Some (id, l) -> exists v, vecs w !! x = Some v /\ owns T (memory w) v l /\ m_alloc v = id).
  { intros x id l Hs. destruct (w_some _ _ _ Hw x _ Hs) as (v & Hv & Ho & Ha). by exists v. }
  destruct c; try done; simpl in Haft; repeat case_decide; try done;
    apply bind_Some in Haft as ([id l] & Hs & Haft); repeat case_decide; try done; rewrite ?Hs in Haft; simpl in Haft; simplify_eq;
    destruct (Htarget _ _ _ Hs) as (v & Hv & Ho & Ha); unfold exec, on; rewrite Hv; (eapply call_kept; [done..|]).
  - eapply runs_mono; [by apply (emplace_back_spec T _ v l)|done|]. intros m' v'. by apply threw_weaken.
  - destruct l as [|b l _] using rev_ind; [done|]. rewrite removelast_last.
    eapply runs_mono; [by apply (pop_back_spec T _ v l b)|done|done].
  - eapply runs_mono; [apply (seg_reserve_threw T n _ v l Hm Ho)|by intros [] m' v' [Hn _]|intros m' v'; apply threw_weaken; exact (not_wraps _ _ _)].
    unfold W64.in_range in *. lia.
  - pose proof (resize_value_spec T (Z.to_nat n) (init T) _ v l Hm Ho) as Hr. rewrite <- in_range_nat in Hr by done.
    eapply runs_mono; [exact Hr|done|intros m' v'; apply threw_weaken; exact (not_wraps _ _ _)].
  - pose proof (resize_value_spec T (Z.to_nat n) a _ v l Hm Ho) as Hr. rewrite <- in_range_nat in Hr by done.
    eapply runs_mono; [exact Hr|done|intros m' v'; apply threw_weaken; exact (not_wraps _ _ _)].
  - by eapply runs_next, seg_clear_spec.
  - by eapply runs_next, shrink_to_fit_spec.
Qed.

(** The calls that name two vectors, and the first and the last call on one. *)
Lemma pair_kept c w s s' : world_ok w s -> after T c s = Some s' ->
  match c with
  | CopyAssign _ _ | MoveAssign _ _ | CopyConstruct _ _ _ | MoveConstruct _ _ _ | Construct _ _ | Destroy _ =>
      kept c w s s' (exec T c w)
  | _ => True
  end.
Proof.
  intros Hw Haft. pose proof (w_mem _ _ _ Hw) as Hm.
  destruct c; try done; simpl in Haft; unfold exec, unused, distinct, on; repeat case_decide; simplify_eq.
  - rewrite (w_none _ _ _ Hw x) by done. apply update_one; [done|done| |by split; [apply owns_empty|]].
    rewrite (blocks_of_none w x) by (by apply (w_none _ _ _ Hw)). apply keeps_refl.
  - apply bind_Some in Haft as ([idu lu] & Hs & Haft). rewrite Hs in Haft. simpl in Haft. simplify_eq.
    destruct (w_some _ _ _ Hw _ _ Hs) as (v & Hv & _). rewrite Hv. simpl. rewrite insert_id by done. split; [done|by intros lost].
  - apply bind_Some in Haft as ([idu lu] & Hsu & Haft). apply bind_Some in Haft as ([id l] & Hs & Haft). simplify_eq.
    destruct (w_some _ _ _ Hw _ _ Hs) as (v & Hv & Hst). destruct (w_some _ _ _ Hw _ _ Hsu) as (u & Hu & Hstu).
    rewrite Hu, Hv. by eapply (copy_kept w s x y v u).
  - apply bind_Some in Haft as ([idu lu] & Hsu & Haft). apply bind_Some in Haft as ([id l] & Hs & Haft). simplify_eq.
    destruct (w_some _ _ _ Hw _ _ Hs) as (v & Hv & [Ho Ha]). simpl in Ha, Ho. subst id. destruct (w_some _ _ _ Hw _ _ Hsu) as (u & Hu & Hstu).
    rewrite Hu, Hv. pose proof (move_kept w s x y v u l idu lu Hw ltac:(done) (blocks_of_some w x v Hv) Hu Ho Hstu) as Hr.
    destruct (operator_move T u (memory w) v) as [u' m' v'|m' v'| |]; simpl; (lapply Hr; [clear Hr; intros Hr|by apply (w_apart _ _ _ Hw y x)]);
      try done. rewrite Hs, Hsu. simpl. congruence.
  - apply bind_Some in Haft as ([idu lu] & Hsu & Haft). simplify_eq. destruct (w_some _ _ _ Hw _ _ Hsu) as (u & Hu & Hstu).
    pose proof (w_none _ _ _ Hw x ltac:(done)) as Hx. rewrite Hx, Hu. pose proof (copy_construct_kept w s x y alloc u idu lu Hw Hx Hu Hsu Hstu) as Hr.
    destruct (construct_copy T u alloc (memory w)); try done. split; [done|by left].
  - apply bind_Some in Haft as ([idu lu] & Hsu & Haft). simplify_eq. destruct (w_some _ _ _ Hw _ _ Hsu) as (u & Hu & Hstu).
    pose proof (w_none _ _ _ Hw x ltac:(done)) as Hx. rewrite Hx, Hu. assert (Hne : x <> y) by congruence.
    pose proof (move_kept w s x y (fresh alloc) u [] idu lu Hw Hne (blocks_of_none w x Hx) Hu (owns_empty T _ _ _) Hstu) as Hr. unfold construct_move.
    destruct (operator_move T u (memory w) (fresh alloc)) as [u' m' v'|m' v'| |]; simpl;
      (lapply Hr; [clear Hr; intros Hr|intros b _; apply not_elem_of_nil]); try done.
    rewrite Hsu. simpl. intros [= E]. by apply Hr.
  - apply bind_Some in Haft as (il & Hs & Haft). simplify_eq. destruct (w_some _ _ _ Hw _ _ Hs) as (v & Hv & Hst). rewrite Hv.
    pose proof (destroy_kept w s x v il Hw Hv Hst) as Hr. by destruct (destructor T (memory w) v).
Qed.

(** Reading: the elements in order, by index and by iterator. *)
Lemma reads w s x v id l : world_ok w s -> vecs w !! x = Some v -> s !! x = Some (id, l) ->
  vec_size v = Z.of_nat (length l) /\ empty v = bool_decide (l = []) /\ vec_size v <= capacity T v /\
  iter_diff (end_it v) (begin_it v) = Z.of_nat (length l) /\
  forall (i : nat) a, l !! i = Some a -> operator_index T (Z.of_nat i) (memory w) v = Done a (memory w) v /\
    exists p, iter_place T (iter_add (begin_it v) (Z.of_nat i)) = Some p /\ objects (memory w) !! p = Some a.
Proof.
  intros Hw Hv Hs. destruct (w_some _ _ _ Hw x _ Hs) as (v0 & Hv0 & Ho & _). simplify_eq. simpl in Ho.
  pose proof (w_mem _ _ _ Hw) as Hm. pose proof (o_size _ _ _ _ Ho) as Hsize. pose proof (owns_room T _ _ _ Ho).
  pose proof (blocks_room T _ _ _ _ Hm (o_holds _ _ _ _ Ho)). unfold vec_size. rewrite (capacity_eq T _ _ _ Hm Ho), Hsize.
  split; [done|]. split; [|split; [lia|split]].
  - unfold empty. rewrite Hsize. by destruct l.
  - unfold iter_diff, to_diff. simpl. rewrite Hsize. destruct (Z.ltb_spec (Z.of_nat (length l)) (2 ^ 63)); lia.
  - intros i a Hi. destruct (owns_lookup T _ v l i a Ho Hi) as (p & Hp & Hobj). apply lookup_lt_Some in Hi. split.
    + unfold operator_index, element_place, bind, self, from_option, load. by rewrite Hp, Hobj.
    + exists p. split; [|done]. unfold iter_place, iter_add, to_diff. simpl. by rewrite W64.wrap_small by (unfold W64.in_range, W64.modulus; lia).
Qed.

Lemma all_freed w : world_ok w ∅ ->
  (forall lost, lost_in lost w -> dom (allocated (memory w)) ⊆ lost) /\
  (lost_in ∅ w -> allocated (memory w) = ∅ /\ objects (memory w) = ∅).
Proof.
  intros Hw. assert (Hd : forall lost, lost_in lost w -> dom (allocated (memory w)) ⊆ lost).
  { intros lost Hl b Hb%elem_of_dom. destruct (Hl b Hb) as [|(x & v & Hv & _)]; [done|].
    by rewrite (w_none _ _ _ Hw x) in Hv. }
  split; [done|]. intros Hl. assert (Ha : allocated (memory w) = ∅).
  { apply dom_empty_iff_L. pose proof (Hd ∅ Hl). set_solver. }
  split; [done|]. apply map_eq. intros p. rewrite lookup_empty. apply eq_None_not_Some. intros Hp%(ok_objects _ _ (w_mem _ _ _ Hw)).
  rewrite Ha in Hp. by destruct Hp.
Qed.

Lemma start_ok : world_ok start ∅ /\ lost_in ∅ (start (A := A)).
Proof.
  split; [constructor|]; simpl.
  - constructor; simpl; [by intros p []|]. rewrite map_size_empty. lia.
  - done.
  - done.
  - done.
  - by intros b [].
Qed.

(** [C39] The segmented vector is a [std::vector].  Programs that make any calls on
    any number of vectors, with copies and moves between them and between
    allocators, never read a place that holds no object, construct over one that is
    alive, or free a block that is not allocated, is another allocator's or holds an
    object; reserving ends.  A call that returns leaves every vector with the
    elements [std::vector] would have, and one that throws, when the allocator has
    no block left or [m_blocks] gets no storage, with those it had (copy assignment:
    none).  Whatever is allocated belongs to a vector or was lost by one of two
    exceptions: that of the copy constructor, and that of [m_blocks.push_back] in a
    call that has not reserved the room for it ([may_lose]), which loses the one
    block just allocated.  No other call loses any, so that when all vectors are
    destroyed nothing is left but the blocks lost.  The program ends only in a move
    between different allocators. *)
Theorem segmented_vector_refines :
  world_ok start ∅ /\ lost_in ∅ (start (A := A)) /\
  (forall c w s s', world_ok w s -> after T c s = Some s' -> kept c w s s' (exec T c w)) /\
  (forall w s x v id l, world_ok w s -> vecs w !! x = Some v -> s !! x = Some (id, l) ->
    vec_size v = Z.of_nat (length l) /\ empty v = bool_decide (l = []) /\ vec_size v <= capacity T v /\
    iter_diff (end_it v) (begin_it v) = Z.of_nat (length l) /\
    forall (i : nat) a, l !! i = Some a -> operator_index T (Z.of_nat i) (memory w) v = Done a (memory w) v /\
      exists p, iter_place T (iter_add (begin_it v) (Z.of_nat i)) = Some p /\ objects (memory w) !! p = Some a) /\
  (forall w, world_ok w ∅ -> (forall lost, lost_in lost w -> dom (allocated (memory w)) ⊆ lost) /\
    (lost_in ∅ w -> allocated (memory w) = ∅ /\ objects (memory w) = ∅)).
Proof.
  destruct start_ok as [Hs Hl]. split; [done|]. split; [done|]. split; [|split; [exact reads|exact all_freed]].
  intros c w s s' Hw Haft. pose proof (single_kept c w s s' Hw Haft). pose proof (pair_kept c w s s' Hw Haft). by destruct c.
Qed.
End Update.

(** ** A concrete allocator *)

(** A number no block has. *)
Definition fresh_key (al : gmap Z Z) : Z := map_fold (fun b _ n => Z.max n (b + 1)) 0 al.

Lemma fresh_key_above al b : is_Some (al !! b) -> b < fresh_key al.
Proof.
  unfold fresh_key. revert b. apply (map_fold_weak_ind (fun n al => forall b, is_Some (al !! b) -> b < n)).
  - intros b [? Hb]. by rewrite lookup_empty in Hb.
  - intros c d al' n _ IH b. destruct (decide (b = c)) as [-> | Hne]; [lia|]. rewrite lookup_insert_ne by done. intros Hb%IH. lia.
Qed.

(** Vectors of words, two to a block; no more than [limit] blocks, and [m_blocks]
    has no room for more than [rooms] pointers. *)
Definition words_in (limit : nat) (rooms : Z) : params Z :=
  Params 16 8 false (fun _ => 0) 0 (fun _ al => if decide (size al < limit)%nat then Some (fresh_key al) else None)
    (fun _ _ n => if n <=? rooms then Some (Z.max n (Z.min rooms (2 * n))) else None) false.
Definition words (limit : nat) : params Z := words_in limit 1000.

#[export] Instance words_in_good limit rooms : (limit < 1000)%nat -> Good (words_in limit rooms).
Proof.
  intros Hlimit. constructor; simpl; [lia|lia| | |].
  - intros id al b. case_decide; [|done]. intros [= <-]. apply eq_None_not_Some. intros Hb%fresh_key_above. lia.
  - intros id al b. case_decide; [|done]. intros _. change (num_elements_in_block (words_in limit rooms)) with 2. lia.
  - intros id al n c. destruct (n <=? rooms); [|done]. intros [= <-]. lia.
Qed.

(** Growth over several blocks, a copy, a move to another allocator, shrinking. *)
Definition program : list (cmd Z) :=
  [Construct 0 7; EmplaceBack 0 10; EmplaceBack 0 20; EmplaceBack 0 30; CopyConstruct 1 0 7; PopBack 1;
   Construct 2 8; EmplaceBack 2 5; MoveAssign 2 1; ResizeValue 0 5 1; Reserve 0 9; ShrinkToFit 0; MoveConstruct 3 0 7;
   CopyAssign 2 3; Destroy 1; Destroy 0; Clear 3].

Example program_runs :
  match exec_all (words 100) program start with
  | Returned w => (size (allocated (memory w)), map_to_list ((fun v => (m_alloc v, m_size v, length (m_blocks v))) <$> vecs w))
  | _ => (0%nat, [])
  end = (6%nat, [(2%nat, (8, 5, 3%nat)); (3%nat, (7, 0, 3%nat))]).
Proof. vm_compute. reflexivity. Qed.

Lemma segmented_vector_refines_witness :
  Good (words 100) /\ kept (words 100) (Construct 0 7) start ∅ {[0%nat := (7, [])]} (exec (words 100) (Construct 0 7) start).
Proof.
  assert (Hg : Good (words 100)) by (apply words_in_good; lia). split; [exact Hg|].
  destruct (segmented_vector_refines (words 100)) as (Hs & _ & Hc & _). apply Hc; [exact Hs|reflexivity].
Defined.

(** [emplace_back] of the segmented vector loses a block.  With room for one pointer
    in [m_blocks] and two words to a block, the third word needs a second block,
    which is allocated before [m_blocks.push_back] throws: each attempt loses one
    more, the vector keeps its two words, and after it is destroyed the blocks are
    still allocated.  To reserve for three words first throws and loses nothing. *)
Theorem push_back_leaks :
  let fill := [Construct 0 7; EmplaceBack 0 10; EmplaceBack 0 20] in
  let left_allocated cs := match exec_all (words_in 100 1) (fill ++ cs) start with
    | Returned w => Some (size (allocated (memory w)), size (vecs w)) | _ => None end in
  match exec_all (words_in 100 1) fill start with
  | Returned w =>
      match exec (words_in 100 1) (EmplaceBack 0 30) w with
      | Threw w' => m_size <$> vecs w' !! 0%nat = Some 2 /\ loses_one (words_in 100 1) 0 w w'
      | _ => False
      end
  | _ => False
  end /\
  left_allocated [EmplaceBack 0 30; EmplaceBack 0 30; Destroy 0] = Some (2%nat, 0%nat) /\
  left_allocated [Reserve 0 3; Destroy 0] = Some (0%nat, 0%nat).
Proof.
  split; [|by vm_compute].
  set (out := exec_all _ _ _). vm_compute in out. subst out. cbv beta iota.
  set (out := exec _ _ _). vm_compute in out. subst out. cbv beta iota. split; [reflexivity|].
  eexists 1, _. split; [reflexivity|]. split; [vm_compute; reflexivity|]. intros lost Hl b Hb.
  destruct (decide (b = 1)) as [->|Hne]; [left; set_solver|].
  assert (H0 : b = 0).
  { apply elem_of_dom in Hb. revert Hb. rewrite elem_of_dom. intros [id Hid]. cbn [allocated memory] in Hid.
    apply (elem_of_map_to_list) in Hid. vm_compute in Hid. set_solver. }
  subst b. right. exists 0%nat. eexists. split; [reflexivity|]. by left.
Qed.

(** The copy constructor of the segmented vector loses blocks.  When its
    [reserve] has got one block and there is no second, the exception leaves a
    constructor, no destructor runs, and the block is never freed: with two words to
    a block and three blocks in all, copying a vector of three words throws, and
    after the only vector is destroyed one block is still allocated.  Copy
    assignment in the same place leaves nothing behind. *)
Theorem copy_constructor_leaks :
  let fill := [Construct 0 7; EmplaceBack 0 10; EmplaceBack 0 20; EmplaceBack 0 30] in
  let left_allocated cs := match exec_all (words 3) (fill ++ cs) start with
    | Returned w => Some (size (allocated (memory w)), size (vecs w)) | _ => None end in
  match exec_all (words 3) fill start with
  | Returned w => match exec (words 3) (CopyConstruct 1 0 7) w with Threw _ => True | _ => False end
  | _ => False
  end /\
  left_allocated [CopyConstruct 1 0 7; Destroy 0] = Some (1%nat, 0%nat) /\
  left_allocated [Construct 1 7; CopyAssign 1 0; Destroy 1; Destroy 0] = Some (0%nat, 0%nat).
Proof.
  vm_compute. done.
Qed.
