(* ===== verification/VersionLock.v ===== *)
(** * The versioned lock ([tl2/version_lock.h])

    A [VersionLock] is one 64-bit atomic word: the least significant bit says
    whether the lock is held, the other 63 bits are the version.  [Word] models
    the member functions as operations on that word: a function that spins while
    the lock is held returns [None] on a held word (the caller stays where it is
    and tries again).  [Spin] models the loops of [lock], [set_version] and
    [get_version] at the granularity of single atomic accesses (load, then weak
    compare-and-swap, which may fail spuriously) for any number of threads, and
    refines them to an abstract lock with an owner and a version: this is what
    justifies taking a lock acquisition as one step elsewhere. *)

From S2P Require Import Prelude.

Module Word.

Definition kLocked : Z := 1.
Definition kVersionInc : Z := 2.

Definition pack (v : version_t) (locked : bool) : Z :=
  Z.lor (W64.wrap (Z.shiftl v 1)) (if locked then 1 else 0).

Definition unpack_version (s : Z) : version_t := Z.shiftr s 1.

(** [(s & kLocked) != 0]. *)
Definition is_locked (s : Z) : bool := negb (Z.land s kLocked =? 0).

(** [get_version] leaves its loop only on an unlocked word. *)
Definition get_version (s : Z) : option version_t :=
  if Z.land s kLocked =? 0 then Some (unpack_version s) else None.

Definition unsafe_get_version (s : Z) : version_t := unpack_version s.

(** [fetch_add(kVersionInc)]: the new word and the version returned. *)
Definition incr_version (s : Z) : Z * version_t :=
  let new_state := W64.wrap (s + kVersionInc) in
  (new_state, unpack_version new_state).

Definition set_version (v : version_t) (s : Z) : option Z :=
  if is_locked s then None else Some (pack v false).

Definition unsafe_set_version (v : version_t) (s : Z) : Z :=
  let locked := is_locked s in pack v locked.

Definition lock (s : Z) : option Z :=
  if is_locked s then None else Some (Z.lor s kLocked).

(** [fetch_and(~kLocked)]: [~1] is [2^64 - 2] at the width of the word. *)
Definition unlock (s : Z) : Z := Z.land s (W64.modulus - 1 - kLocked).

(** ** The word as a pair of a version and a lock bit *)

Definition version_ok (v : version_t) : Prop := 0 <= v < 2 ^ 63.

Lemma pack_eq v b : version_ok v -> pack v b = 2 * v + Z.b2z b.
Proof.
  intros [H0 H1]. unfold pack.
  rewrite Z.shiftl_mul_pow2, W64.wrap_small by (unfold W64.in_range, W64.modulus; lia).
  replace (v * 2 ^ 1) with (2 * v) by lia.
  replace (if b then 1 else 0) with (Z.b2z b) by (by destruct b).
  apply W64.lor_double.
Qed.

Lemma unpack_eq s : unpack_version s = s / 2.
Proof. unfold unpack_version. by rewrite Z.shiftr_div_pow2 by lia. Qed.

Lemma is_locked_eq s : is_locked s = (s mod 2 =? 1).
Proof.
  unfold is_locked, kLocked. rewrite W64.land_1.
  pose proof (Z.mod_pos_bound s 2). destruct (Z.eqb_spec (s mod 2) 0), (Z.eqb_spec (s mod 2) 1); lia.
Qed.

(** Every word is the packing of a version and a bit. *)
Lemma word_cases s :
  W64.in_range s -> exists v b, version_ok v /\ s = pack v b.
Proof.
  intros [H0 H1]. unfold W64.modulus in H1.
  exists (s / 2), (s mod 2 =? 1). split.
  - split; [apply Z.div_pos; lia | apply Z.div_lt_upper_bound; lia].
  - rewrite pack_eq by (split; [apply Z.div_pos; lia | apply Z.div_lt_upper_bound; lia]).
    pose proof (Z.div_mod s 2). pose proof (Z.mod_pos_bound s 2).
    destruct (Z.eqb_spec (s mod 2) 1); simpl Z.b2z; lia.
Qed.

Lemma pack_range v b : version_ok v -> W64.in_range (pack v b).
Proof.
  intros H. rewrite pack_eq by done. destruct H.
  unfold W64.in_range, W64.modulus. destruct b; simpl Z.b2z; lia.
Qed.

Lemma unpack_pack v b : version_ok v -> unpack_version (pack v b) = v.
Proof.
  intros H. rewrite unpack_eq, pack_eq by done. rewrite Z.mul_comm, Z.div_add_l by lia.
  destruct b; simpl Z.b2z; [change (1 / 2) with 0 | change (0 / 2) with 0]; lia.
Qed.

Lemma is_locked_pack v b : version_ok v -> is_locked (pack v b) = b.
Proof.
  intros H. rewrite is_locked_eq, pack_eq by done.
  rewrite Z.add_comm, Z.mul_comm, Z.mod_add by lia. by destruct b.
Qed.

Lemma pack_inj v b v' b' :
  version_ok v -> version_ok v' -> pack v b = pack v' b' -> v = v' /\ b = b'.
Proof.
  intros H H' E. split.
  - by rewrite <- (unpack_pack v b), <- (unpack_pack v' b'), E.
  - by rewrite <- (is_locked_pack v b), <- (is_locked_pack v' b'), E.
Qed.

(** ** Each operation on a packed word *)

Lemma get_version_pack v b :
  version_ok v -> get_version (pack v b) = if b then None else Some v.
Proof.
  intros H. unfold get_version. pose proof (is_locked_pack v b H) as E.
  unfold is_locked in E. destruct (Z.land (pack v b) kLocked =? 0); simpl in E; subst b.
  - by rewrite unpack_pack.
  - done.
Qed.

(** The counter has 63 bits and wraps around; the lock bit is untouched. *)
Lemma incr_version_wraps v b :
  version_ok v ->
  incr_version (pack v b) = (pack ((v + 1) mod 2 ^ 63) b, (v + 1) mod 2 ^ 63).
Proof.
  intros H. assert (H1 : version_ok ((v + 1) mod 2 ^ 63)) by (apply Z.mod_pos_bound; lia).
  unfold incr_version, kVersionInc.
  replace (W64.wrap (pack v b + 2)) with (pack ((v + 1) mod 2 ^ 63) b).
  - by rewrite unpack_pack.
  - rewrite !pack_eq by done. destruct H as [Hl Hu]. unfold W64.wrap, W64.modulus.
    destruct (Z.eq_dec v (2 ^ 63 - 1)) as [->|Hne].
    + by destruct b.
    + rewrite (Z.mod_small (v + 1)), Z.mod_small by (destruct b; simpl Z.b2z; lia). lia.
Qed.

Lemma incr_version_pack v b :
  version_ok (v + 1) -> version_ok v -> incr_version (pack v b) = (pack (v + 1) b, v + 1).
Proof. intros H1 H. rewrite incr_version_wraps by done. by rewrite Z.mod_small. Qed.

Lemma set_version_pack w v b :
  version_ok v -> set_version w (pack v b) = if b then None else Some (pack w false).
Proof. intros H. unfold set_version. by rewrite is_locked_pack. Qed.

Lemma unsafe_set_version_pack w v b :
  version_ok v -> unsafe_set_version w (pack v b) = pack w b.
Proof. intros H. unfold unsafe_set_version. by rewrite is_locked_pack. Qed.

Lemma lock_pack v b :
  version_ok v -> lock (pack v b) = if b then None else Some (pack v true).
Proof.
  intros H. unfold lock. rewrite is_locked_pack by done. destruct b; [done|].
  rewrite !pack_eq by done. f_equal. simpl Z.b2z.
  rewrite Z.add_0_r. apply (W64.lor_double v true).
Qed.

Lemma unlock_pack v b : version_ok v -> unlock (pack v b) = pack v false.
Proof.
  intros H. unfold unlock, kLocked.
  replace (W64.modulus - 1 - 1) with (W64.modulus - 2) by lia.
  rewrite W64.land_clear_lsb by (by apply pack_range).
  rewrite !pack_eq by done.
  rewrite (Z.add_comm (2 * v) (Z.b2z b)), (Z.mul_comm 2 v), Z.mod_add by lia.
  destruct b; simpl Z.b2z; [change (1 mod 2) with 1 | change (0 mod 2) with 0]; lia.
Qed.

End Word.

#[global] Arguments Word.pack : simpl never.
#[global] Arguments Word.incr_version : simpl never.
#[global] Arguments Word.unlock : simpl never.

#[export] Hint Resolve Word.pack_range Word.unpack_pack Word.is_locked_pack : tl2.

(** ** The spinning loops, one atomic access at a time *)
Module Spin.

(** Where a thread is: outside the lock's functions, at the load or at the
    compare-and-swap of [lock] or [set_version] (with the word it loaded), at
    the load of [get_version], inside its critical section, or there between
    the load and the store of [unsafe_set_version] (with the bit it loaded). *)
Inductive pc :=
| Out
| LockLoad
| LockCas (s : Z)
| Held
| UnsafeStore (v : version_t) (locked : bool)
| SetLoad (v : version_t)
| SetCas (v : version_t) (s : Z)
| GetLoad.

Record st := St { word : Z; pcs : gmap tid_t pc }.

Definition goto (t : tid_t) (p : pc) (s : st) : st :=
  St (word s) (<[t := p]> (pcs s)).
Definition put (w : Z) (s : st) : st := St w (pcs s).

(** A call that returns, by the thread that made it, with its argument or its
    result. *)
Inductive event :=
| ELock (t : tid_t)
| EUnlock (t : tid_t)
| ESetVersion (t : tid_t) (v : version_t)
| EUnsafeSetVersion (t : tid_t) (v : version_t)
| EIncrVersion (t : tid_t) (r : version_t)
| EGetVersion (t : tid_t) (r : version_t)
| EUnsafeGetVersion (t : tid_t) (r : version_t).

(** The label lists the call that returns in the step, if one does. *)
Inductive step : st -> list event -> st -> Prop :=
| call_lock t s : pcs s !! t = Some Out -> step s [] (goto t LockLoad s)
| lock_load_held t s :
    pcs s !! t = Some LockLoad -> Word.is_locked (word s) = true ->
    step s [] (goto t LockLoad s)
| lock_load_free t s :
    pcs s !! t = Some LockLoad -> Word.is_locked (word s) = false ->
    step s [] (goto t (LockCas (word s)) s)
| lock_cas_ok t e s :
    pcs s !! t = Some (LockCas e) -> word s = e ->
    step s [ELock t] (goto t Held (put (Z.lor e Word.kLocked) s))
| lock_cas_fail t e s :                   (* a different word, or spuriously *)
    pcs s !! t = Some (LockCas e) -> step s [] (goto t LockLoad s)
| call_set t v s :
    pcs s !! t = Some Out -> Word.version_ok v -> step s [] (goto t (SetLoad v) s)
| set_load_held t v s :
    pcs s !! t = Some (SetLoad v) -> Word.is_locked (word s) = true ->
    step s [] (goto t (SetLoad v) s)
| set_load_free t v s :
    pcs s !! t = Some (SetLoad v) -> Word.is_locked (word s) = false ->
    step s [] (goto t (SetCas v (word s)) s)
| set_cas_ok t v e s :
    pcs s !! t = Some (SetCas v e) -> word s = e ->
    step s [ESetVersion t v] (goto t Out (put (Word.pack v false) s))
| set_cas_fail t v e s :
    pcs s !! t = Some (SetCas v e) -> step s [] (goto t (SetLoad v) s)
| call_get t s : pcs s !! t = Some Out -> step s [] (goto t GetLoad s)
| get_load_held t s :
    pcs s !! t = Some GetLoad -> Word.get_version (word s) = None ->
    step s [] (goto t GetLoad s)
| get_load_free t r s :
    pcs s !! t = Some GetLoad -> Word.get_version (word s) = Some r ->
    step s [EGetVersion t r] (goto t Out s)
| unsafe_set_load t v s :
    pcs s !! t = Some Held -> Word.version_ok v ->
    step s [] (goto t (UnsafeStore v (Word.is_locked (word s))) s)
| unsafe_set_store t v b s :
    pcs s !! t = Some (UnsafeStore v b) ->
    step s [EUnsafeSetVersion t v] (goto t Held (put (Word.pack v b) s))
| do_unlock t s :
    pcs s !! t = Some Held -> step s [EUnlock t] (goto t Out (put (Word.unlock (word s)) s))
| do_incr t p s :
    pcs s !! t = Some p -> p = Out \/ p = Held ->
    step s [EIncrVersion t (Word.incr_version (word s)).2]
      (goto t p (put (Word.incr_version (word s)).1 s))
| do_unsafe_get t p s :
    pcs s !! t = Some p -> p = Out \/ p = Held ->
    step s [EUnsafeGetVersion t (Word.unsafe_get_version (word s))] (goto t p s).

(** A run and the calls that returned in it, in order. *)
Inductive steps : st -> list event -> st -> Prop :=
| steps_refl s : steps s [] s
| steps_snoc s1 tr s2 l s3 : steps s1 tr s2 -> step s2 l s3 -> steps s1 (tr ++ l) s3.

(** *** The abstract lock: what each call answers and does, in one piece *)
Record alock := ALock { owner : option tid_t; version : version_t }.

(** [None]: this call cannot return now, or not with this result. *)
Definition acall (e : event) (a : alock) : option alock :=
  match e with
  | ELock t => if owner a is None then Some (ALock (Some t) (version a)) else None
  | EUnlock t => if decide (owner a = Some t) then Some (ALock None (version a)) else None
  | ESetVersion t v => if owner a is None then Some (ALock None v) else None
  | EUnsafeSetVersion t v => if decide (owner a = Some t) then Some (ALock (Some t) v) else None
  | EIncrVersion t r =>
      if r =? (version a + 1) mod 2 ^ 63 then Some (ALock (owner a) r) else None
  | EGetVersion t r => if owner a is None then if r =? version a then Some a else None else None
  | EUnsafeGetVersion t r => if r =? version a then Some a else None
  end.

Fixpoint acalls (tr : list event) (a : alock) : option alock :=
  match tr with
  | [] => Some a
  | e :: tr' => match acall e a with Some a' => acalls tr' a' | None => None end
  end.

Lemma acalls_app tr tr' a :
  acalls (tr ++ tr') a = match acalls tr a with Some a' => acalls tr' a' | None => None end.
Proof. revert a. induction tr as [|e tr IH]; intros a; simpl; [done|]. by destruct (acall e a). Qed.

Definition inside (p : pc) : bool :=
  match p with Held | UnsafeStore _ _ => true | _ => false end.

(** What a point carries is right: a word loaded for a compare-and-swap is an
    unlocked one, so a swap that succeeds (even after the word went away and
    came back) acts on a free lock; a version to be stored fits; the owner
    loaded a set bit. *)
Definition pc_ok (p : pc) : Prop :=
  match p with
  | LockCas e => Word.is_locked e = false
  | SetLoad v => Word.version_ok v
  | SetCas v e => Word.version_ok v /\ Word.is_locked e = false
  | UnsafeStore v b => Word.version_ok v /\ b = true
  | _ => True
  end.

(** The word packs the abstract version and whether there is an owner; the
    owner is the one thread in its critical section. *)
Record R (s : st) (a : alock) : Prop := {
  R_version : Word.version_ok (version a);
  R_word : word s = Word.pack (version a) (bool_decide (is_Some (owner a)));
  R_owner : forall t, (exists p, pcs s !! t = Some p /\ inside p = true) <-> owner a = Some t;
  R_pcs : forall t p, pcs s !! t = Some p -> pc_ok p }.

Lemma R_locked s a :
  R s a -> Word.is_locked (word s) = bool_decide (is_Some (owner a)).
Proof. intros H. rewrite (R_word _ _ H). apply Word.is_locked_pack, H. Qed.

Lemma R_inside s a t p : R s a -> pcs s !! t = Some p -> inside p = true -> owner a = Some t.
Proof. intros H Ht Hp. apply (R_owner _ _ H). by exists p. Qed.

Lemma R_free s a : R s a -> Word.is_locked (word s) = false -> owner a = None.
Proof.
  intros H Hl. rewrite (R_locked _ _ H) in Hl. apply bool_decide_eq_false_1 in Hl.
  destruct (owner a); [destruct Hl; eauto | done].
Qed.

(** A step of thread [t] to [p] that puts [w] in the word. *)
Lemma R_move s a a' t p0 p w :
  R s a -> pcs s !! t = Some p0 ->
  w = Word.pack (version a') (bool_decide (is_Some (owner a'))) ->
  Word.version_ok (version a') -> pc_ok p ->
  owner a' = (if inside p then Some t else if inside p0 then None else owner a) ->
  (inside p = true -> inside p0 = true \/ owner a = None) ->
  R (goto t p (put w s)) a'.
Proof.
  intros H Ht -> Hv' Hp Ho Hin. constructor; simpl; try done.
  - intros u. rewrite Ho. destruct (decide (t = u)) as [->|Hn]; simplify_map_eq.
    + destruct (inside p) eqn:Ep.
      * split; [done|]. intros _. by exists p.
      * split; [intros (q & Hq & Eq); simplify_eq; congruence|].
        destruct (inside p0) eqn:E0; [done|]. intros Hu.
        apply (R_owner _ _ H) in Hu as (q & Hq & Eq). congruence.
    + rewrite (R_owner _ _ H). destruct (inside p) eqn:Ep.
      * destruct (Hin eq_refl) as [E0|En]; [rewrite (R_inside _ _ _ _ H Ht E0)|rewrite En]; naive_solver.
      * destruct (inside p0) eqn:E0; [rewrite (R_inside _ _ _ _ H Ht E0)|]; naive_solver.
  - intros u q. destruct (decide (t = u)) as [->|Hn]; simplify_map_eq; [naive_solver|]. apply (R_pcs _ _ H).
Qed.

(** A step that changes neither the word nor who is inside. *)
Lemma R_goto s a t p0 p :
  R s a -> pcs s !! t = Some p0 -> inside p = inside p0 -> pc_ok p -> R (goto t p s) a.
Proof.
  intros H Ht Hi Hp. replace (goto t p s) with (goto t p (put (word s) s)) by done.
  apply (R_move s a a t p0); try done; try apply H; rewrite Hi; [|by left].
  destruct (inside p0) eqn:E0; [by eapply R_inside|done].
Qed.

Lemma word_lock s a :
  R s a -> owner a = None -> Z.lor (word s) Word.kLocked = Word.pack (version a) true.
Proof.
  intros H Hn. pose proof (Word.lock_pack (version a) false (R_version _ _ H)) as E.
  unfold Word.lock in E. rewrite Word.is_locked_pack in E by apply H.
  rewrite (R_word _ _ H), Hn. simpl. by simplify_eq.
Qed.

(** [R_move], with the conditions that hold by computation. *)
Ltac move_with H Ht := apply (R_move _ _ _ _ _ _ _ H Ht); simpl; try done; try apply H.

(** One micro-step is the abstract calls of its label. *)
Lemma step_refines s l s' a :
  R s a -> step s l s' -> exists a', acalls l a = Some a' /\ R s' a'.
Proof.
  intros H Hst. pose proof (R_pcs _ _ H) as Hok.
  destruct Hst as [t s Ht|t s Ht Hl|t s Ht Hl|t e s Ht He|t e s Ht|t v s Ht Hv|t v s Ht Hl
    |t v s Ht Hl|t v e s Ht He|t v e s Ht|t s Ht|t s Ht Hl|t r s Ht Hl|t v s Ht Hv|t v b s Ht|t s Ht
    |t p s Ht Hp|t p s Ht Hp]; specialize (Hok _ _ Ht); simpl in Hok.
  all: try by (exists a; split; [done|]; eapply R_goto; eauto; simpl; intuition).
  - (* lock: the swap succeeds *)
    subst e. pose proof (R_free _ _ H Hok) as Hn.
    exists (ALock (Some t) (version a)). simpl. rewrite Hn. split; [done|].
    move_with H Ht; [by apply word_lock|by right].
  - (* set_version: the swap succeeds *)
    destruct Hok as [Hv Hl]. subst e. pose proof (R_free _ _ H Hl) as Hn.
    exists (ALock None v). simpl. rewrite Hn. split; [done|]. by move_with H Ht.
  - (* get_version *)
    rewrite (R_word _ _ H), Word.get_version_pack in Hl by apply H.
    destruct (owner a) eqn:Ho; simpl in Hl; [done|]. injection Hl as <-.
    exists a. simpl. rewrite Ho, Z.eqb_refl. split; [done|]. by eapply R_goto.
  - (* unsafe_set_version: the load *)
    exists a. split; [done|]. eapply R_goto; eauto. split; [done|].
    rewrite (R_locked _ _ H), (R_inside _ _ _ _ H Ht eq_refl). done.
  - (* unsafe_set_version: the store *)
    destruct Hok as [Hv ->]. pose proof (R_inside _ _ _ _ H Ht eq_refl) as Ho.
    exists (ALock (Some t) v). simpl. rewrite decide_True by done. split; [done|].
    move_with H Ht; by left.
  - (* unlock *)
    pose proof (R_inside _ _ _ _ H Ht eq_refl) as Ho.
    exists (ALock None (version a)). simpl. rewrite decide_True by done. split; [done|].
    move_with H Ht. rewrite (R_word _ _ H). by apply Word.unlock_pack, H.
  - (* incr_version *)
    exists (ALock (owner a) ((version a + 1) mod 2 ^ 63)).
    rewrite (R_word _ _ H), Word.incr_version_wraps by apply H. simpl. rewrite Z.eqb_refl. split; [done|].
    move_with H Ht; [apply Z.mod_pos_bound; lia| |by left].
    destruct Hp as [->| ->]; [done|]. by apply (R_inside _ _ _ _ H Ht).
  - (* unsafe_get_version *)
    exists a. simpl. rewrite (R_word _ _ H). unfold Word.unsafe_get_version.
    rewrite Word.unpack_pack, Z.eqb_refl by apply H. split; [done|]. by eapply R_goto.
Qed.

Definition init (ts : gmap tid_t unit) : st := St (Word.pack 0 false) ((fun _ => Out) <$> ts).

Lemma init_out ts t p : pcs (init ts) !! t = Some p -> p = Out.
Proof. simpl. rewrite lookup_fmap. destruct (ts !! t); naive_solver. Qed.

Lemma R_init ts : R (init ts) (ALock None 0).
Proof.
  constructor; [done|done| |].
  - intros t. split; [|done]. intros (p & Ht & Hp). by rewrite (init_out _ _ _ Ht) in Hp.
  - intros t p Ht. by rewrite (init_out _ _ _ Ht).
Qed.

Lemma steps_R ts tr s :
  steps (init ts) tr s -> exists a, acalls tr (ALock None 0) = Some a /\ R s a.
Proof.
  intros Hr. remember (init ts) as s0. induction Hr as [s|s1 tr s2 l s3 Hr IH Hs]; subst.
  - eexists. split; [done|apply R_init].
  - destruct IH as (a & Ha & HR); [done|]. destruct (step_refines _ _ _ _ HR Hs) as (a' & Ha' & HR').
    exists a'. by rewrite acalls_app, Ha.
Qed.

(** The call a thread is in the loop of, and how it returns on a free lock. *)
Definition returns (t : tid_t) (p : pc) (v : version_t) : option event :=
  match p with
  | LockLoad => Some (ELock t)
  | SetLoad w => Some (ESetVersion t w)
  | GetLoad => Some (EGetVersion t v)
  | _ => None
  end.

(** On a free lock a thread left alone leaves its loop. *)
Lemma free_returns s a t p e :
  R s a -> owner a = None -> pcs s !! t = Some p -> returns t p (version a) = Some e ->
  exists s', steps s [e] s'.
Proof.
  intros H Hn Ht He. pose proof (R_locked _ _ H) as Hl. rewrite Hn in Hl. simpl in Hl.
  destruct p; simpl in He; simplify_eq.
  - eexists. apply (steps_snoc _ [] (goto t (LockCas (word s)) s) [ELock t]).
    + apply (steps_snoc _ [] s []); [apply steps_refl|]. by apply (lock_load_free t).
    + eapply lock_cas_ok; [apply lookup_insert_eq|done].
  - eexists. apply (steps_snoc _ [] (goto t (SetCas v (word s)) s) [ESetVersion t v]).
    + apply (steps_snoc _ [] s []); [apply steps_refl|]. by apply (set_load_free t v).
    + eapply set_cas_ok; [apply lookup_insert_eq|done].
  - eexists. apply (steps_snoc _ [] s [EGetVersion t (version a)]); [apply steps_refl|].
    apply get_load_free; [done|]. rewrite (R_word _ _ H), Word.get_version_pack, Hn by apply H. done.
Qed.

(** [C17] The functions of the versioned lock, interleaved at every atomic
    access with spurious failures of the weak compare-and-swap, are those of an
    abstract lock with an owner and a version.  The calls that returned, in the
    order of their last accesses, are a sequential run of the abstract lock,
    with their arguments and results: [lock] and [unlock] keep the version,
    [set_version] and the owner's [unsafe_set_version] make it the one given,
    [incr_version] adds one modulo 2^63 and returns the sum, [get_version]
    returns it and only while there is no owner.  The word packs the version
    and whether there is an owner, who is the only thread inside; and a thread
    in the loop of [lock], [set_version] or [get_version], left alone while the
    lock is free, returns. *)
Theorem spin_refines_lock ts tr s :
  steps (init ts) tr s ->
  exists a, acalls tr (ALock None 0) = Some a /\
    word s = Word.pack (version a) (bool_decide (is_Some (owner a))) /\
    Word.unpack_version (word s) = version a /\
    Word.is_locked (word s) = bool_decide (is_Some (owner a)) /\
    (forall t, (exists p, pcs s !! t = Some p /\ inside p = true) <-> owner a = Some t) /\
    (forall t p e, owner a = None -> pcs s !! t = Some p -> returns t p (version a) = Some e ->
      exists s', steps s [e] s').
Proof.
  intros Hr. destruct (steps_R _ _ _ Hr) as (a & Ha & HR). exists a.
  split_and!; [done|apply HR| |by apply R_locked|apply HR|intros t p e; by apply free_returns].
  rewrite (R_word _ _ HR). apply Word.unpack_pack, HR.
Qed.

(** Thread 0 sets the version to 3 and takes the lock; thread 1 is in the loop
    of [lock]. *)
Lemma spin_refines_lock_witness :
  exists s, pcs s !! 0%nat = Some Held /\ pcs s !! 1%nat = Some LockLoad /\
    exists a, acalls [ESetVersion 0 3; ELock 0] (ALock None 0) = Some a /\
    word s = Word.pack (version a) (bool_decide (is_Some (owner a))) /\
    Word.unpack_version (word s) = version a /\
    Word.is_locked (word s) = bool_decide (is_Some (owner a)) /\
    (forall t, (exists p, pcs s !! t = Some p /\ inside p = true) <-> owner a = Some t) /\
    (forall t p e, owner a = None -> pcs s !! t = Some p -> returns t p (version a) = Some e ->
      exists s', steps s [e] s').
Proof.
  set (s0 := init {[0%nat := tt; 1%nat := tt]}).
  set (s1 := goto 0 (SetLoad 3) s0). set (s2 := goto 0 (SetCas 3 0) s1).
  set (s3 := goto 0 Out (put 6 s2)). set (s4 := goto 0 LockLoad s3). set (s5 := goto 1 LockLoad s4).
  set (s6 := goto 0 (LockCas 6) s5). set (s7 := goto 0 Held (put 7 s6)).
  exists s7. split; [reflexivity|]. split; [reflexivity|].
  apply (spin_refines_lock {[0%nat := tt; 1%nat := tt]} [ESetVersion 0 3; ELock 0] s7).
  apply (steps_snoc _ [ESetVersion 0 3] s6 [ELock 0]); [|apply (lock_cas_ok 0 6 s6); reflexivity].
  apply (steps_snoc _ [ESetVersion 0 3] s5 []); [|apply (lock_load_free 0 s5); reflexivity].
  apply (steps_snoc _ [ESetVersion 0 3] s4 []); [|apply call_lock; reflexivity].
  apply (steps_snoc _ [ESetVersion 0 3] s3 []); [|apply call_lock; reflexivity].
  apply (steps_snoc _ [] s2 [ESetVersion 0 3]); [|apply (set_cas_ok 0 3 0 s2); reflexivity].
  apply (steps_snoc _ [] s1 []); [|apply (set_load_free 0 3 s1); reflexivity].
  apply (steps_snoc _ [] s0 []); [|apply call_set; [reflexivity|split; [discriminate|reflexivity]]].
  apply steps_refl.
Defined.

End Spin.
