(* ===== verification/LockTable.v ===== *)
(** * The table of versioned locks ([tl2/hash_table.h])

    Every address is hashed to one of [LOCKTABLE_SIZE] locks.  The table is the
    vector of their words; a word absent from the map is the initial 0 of
    [m_state{0}], so the empty map is the freshly constructed table. *)

From S2P Require Import Prelude VersionLock.

Definition LOCKTABLE_SIZE : Z := Z.shiftl 1 22.

Section Table.
Context (size_pow2 : Z).

(** [mask(size_pow2 - 1)] of the constructor. *)
Definition mask : Z := size_pow2 - 1.

(** The index computed by [operator[]]. *)
Definition bucket (addr : addr_t) : Z := Z.land (Z.shiftr addr 2) mask.

Lemma bucket_bounds addr :
  0 < size_pow2 -> 0 <= addr -> 0 <= bucket addr < size_pow2.
Proof.
  intros Hs Ha. unfold bucket, mask.
  assert (0 <= Z.shiftr addr 2) by (by apply Z.shiftr_nonneg).
  split; [apply Z.land_nonneg; lia|].
  pose proof (Z.land_nonneg (Z.shiftr addr 2) (size_pow2 - 1)).
  enough (Z.land (Z.shiftr addr 2) (size_pow2 - 1) <= size_pow2 - 1) by lia.
  assert (Z.ldiff (Z.land (Z.shiftr addr 2) (size_pow2 - 1)) (size_pow2 - 1) = 0) as E%Z.sub_nocarry_ldiff.
  { apply Z.bits_inj'. intros n Hn. rewrite Z.ldiff_spec, Z.land_spec, Z.bits_0.
    destruct (Z.testbit (size_pow2 - 1) n), (Z.testbit (Z.shiftr addr 2) n); done. }
  assert (0 <= Z.ldiff (size_pow2 - 1) (Z.land (Z.shiftr addr 2) (size_pow2 - 1))); [|lia].
  apply Z.ldiff_nonneg. lia.
Qed.
End Table.

(** The lock of an address in [hashtbl], the table every transaction uses. *)
Definition index (addr : addr_t) : Z := bucket LOCKTABLE_SIZE addr.

Definition table_word (tbl : gmap Z Z) (i : Z) : Z := default 0 (tbl !! i).

(** [hashtbl[addr]] as a word to read, and as a word to write. *)
Definition hashtbl_get (tbl : gmap Z Z) (addr : addr_t) : Z := table_word tbl (index addr).
Definition hashtbl_put (tbl : gmap Z Z) (addr : addr_t) (w : Z) : gmap Z Z :=
  <[index addr := w]> tbl.

Lemma index_eq addr : index addr = (addr / 4) mod 2 ^ 22.
Proof.
  unfold index, bucket, mask, LOCKTABLE_SIZE.
  change (Z.shiftl 1 22 - 1) with (Z.ones 22).
  rewrite Z.land_ones, Z.shiftr_div_pow2 by lia. reflexivity.
Qed.

Lemma table_word_insert_eq tbl i w : table_word (<[i := w]> tbl) i = w.
Proof. unfold table_word. by rewrite lookup_insert_eq. Qed.

Lemma table_word_insert_ne tbl i j w :
  i <> j -> table_word (<[i := w]> tbl) j = table_word tbl j.
Proof. intros H. unfold table_word. by rewrite lookup_insert_ne. Qed.

(** Addresses of one aligned window of [4 * LOCKTABLE_SIZE] bytes are hashed in
    the order of the addresses: the lock order of a transaction is then the
    order of the table. *)
Lemma index_mono base a b :
  base mod 2 ^ 24 = 0 -> base <= a -> a <= b -> b < base + 2 ^ 24 -> index a <= index b.
Proof.
  intros Hb Ha Hab Hw. rewrite !index_eq.
  assert (exists k, base = k * 2 ^ 24) as [k ->].
  { exists (base / 2 ^ 24). pose proof (Z.div_mod base (2 ^ 24)). lia. }
  clear Hb. change (2 ^ 24) with (16777216) in *. change (2 ^ 22) with 4194304.
  assert (E : forall x, k * 16777216 <= x < k * 16777216 + 16777216 ->
             (x / 4) mod 4194304 = x / 4 - k * 4194304).
  { intros x Hx. pose proof (Z.div_mod x 4). pose proof (Z.mod_pos_bound x 4).
    replace (x / 4) with ((x / 4 - k * 4194304) + k * 4194304) at 1 by lia.
    rewrite Z.mod_add, Z.mod_small by lia. lia. }
  rewrite !E by lia. pose proof (Z.div_le_mono a b 4). lia.
Qed.

(** The index wraps around at the end of a window: there addresses and lock
    indices are ordered in opposite ways. *)
Lemma index_wraps : 4 < 2 ^ 24 /\ index (2 ^ 24) < index 4.
Proof. by vm_compute. Qed.
