(* ===== verification/Store.v ===== *)
(** * The staging store ([tl2/memory.h])

    Values written by a transaction are staged as objects in memory handed out
    by a [std::pmr] resource until the transaction commits.  The store maps the
    address of a staged object to its state.  Addresses of one transaction are
    distinct (the resource is a monotonic buffer: an address is handed out once
    between two [release]s). *)

From S2P Require Import Prelude.

Module Store.
Section Store.
Context {V : Type}.

(** A staged object is alive with a value, or was moved from by a commit. *)
Inductive object := Live (v : V) | MovedFrom.

Record store := MkStore { next : Z; objs : gmap Z object }.

Definition empty : store := MkStore 1 ∅.

(** [store.allocate] followed by the placement [new] (or [memcpy]) of [v]. *)
Definition construct (v : V) (st : store) : Z * store :=
  (next st, MkStore (next st + 1) (<[next st := Live v]> (objs st))).

(** [value<T>() = v] on a staged object; assigning to an object that is not
    there is undefined. *)
Definition assign (a : Z) (v : V) (st : store) : option store :=
  match objs st !! a with
  | Some _ => Some (MkStore (next st) (<[a := Live v]> (objs st)))
  | None => None
  end.

Definition value (a : Z) (st : store) : option V :=
  match objs st !! a with
  | Some (Live v) => Some v
  | _ => None
  end.

(** [std::move] out of a staged object: its value, and the object left in its
    moved-from state. *)
Definition move_out (a : Z) (st : store) : option (V * store) :=
  match objs st !! a with
  | Some (Live v) => Some (v, MkStore (next st) (<[a := MovedFrom]> (objs st)))
  | _ => None
  end.

(** The destructor ([free_heap]); destroying an absent object is undefined. *)
Definition destroy (a : Z) (st : store) : option store :=
  match objs st !! a with
  | Some _ => Some (MkStore (next st) (delete a (objs st)))
  | None => None
  end.

(** [res.release()]: the memory goes back whatever is still in it. *)
Definition release (st : store) : store := empty.

Definition wf (st : store) : Prop := forall a, is_Some (objs st !! a) -> a < next st.

Lemma wf_fresh st : wf st -> objs st !! next st = None.
Proof. intros H. apply eq_None_not_Some. intros Hs. apply H in Hs. lia. Qed.
End Store.
Arguments object : clear implicits.
Arguments store : clear implicits.
End Store.
