(* ===== verification/Op.v ===== *)
(** * Locations and location sets ([tl2/op.h])

    A [Location] records what the running transaction did to one address: whether
    it was read, the value staged for it, and whether the calling thread owns its
    lock.  An [AbstractLocationSet] is modelled by the class [LocationSet] (the
    operations) with [LocationSetLaws] (what the log relies on); the two sets of
    the source implement it: [HashVectorSet] (a vector indexed by a hash map, the
    one [TMan] uses) and [OrderedSet] (a [std::set] ordered by address). *)

From S2P Require Import Prelude VersionLock LockTable Store.

(** [WriteVal()] has no object and a destructor that does nothing; [WriteVal(v)]
    holds the address of the staged object. *)
Inductive WriteVal := WriteVal_none | WriteVal_obj (m_val : Z).

Definition val_addr (wv : WriteVal) : Z :=
  match wv with WriteVal_none => 0 | WriteVal_obj a => a end.

Record Location := MkLocation {
  m_addr : addr_t;
  write_val : WriteVal;
  m_rv : version_t;
  m_read : bool;
  m_written : bool;
  m_owner : option tid_t }.

#[export] Instance WriteVal_eq_dec : EqDecision WriteVal.
Proof. solve_decision. Defined.
#[export] Instance Location_eq_dec : EqDecision Location.
Proof. solve_decision. Defined.

Module Loc.

(** [Location(addr)]. *)
Definition make (addr : addr_t) : Location :=
  MkLocation addr WriteVal_none 0 false false None.

Definition owned (t : tid_t) (l : Location) : bool := bool_decide (m_owner l = Some t).

(** [get_version()]: without waiting on a lock the caller owns. *)
Definition get_version (t : tid_t) (tbl : gmap Z Z) (l : Location) : option version_t :=
  if owned t l then Some (Word.unsafe_get_version (hashtbl_get tbl (m_addr l)))
  else Word.get_version (hashtbl_get tbl (m_addr l)).

(** [read()]: blocks while another thread holds the lock. *)
Definition read (t : tid_t) (tbl : gmap Z Z) (l : Location) : option Location :=
  match get_version t tbl l with
  | Some v => Some (MkLocation (m_addr l) (write_val l) v true (m_written l) (m_owner l))
  | None => None
  end.

(** [write(val, store)]: overwrite the staged object, or stage a new one. *)
Definition write {V} (v : V) (l : Location) (st : Store.store V)
  : option (Location * Store.store V) :=
  if m_written l then
    match Store.assign (val_addr (write_val l)) v st with
    | Some st' => Some (l, st')
    | None => None
    end
  else
    let '(obj, st') := Store.construct v st in
    Some (MkLocation (m_addr l) (WriteVal_obj obj) (m_rv l) (m_read l) true (m_owner l), st').

(** [move()]: the staged value goes to memory. *)
Definition move {V} (l : Location) (st : Store.store V) (mem : gmap addr_t V)
  : option (Store.store V * gmap addr_t V) :=
  match Store.move_out (val_addr (write_val l)) st with
  | Some (v, st') => Some (st', <[m_addr l := v]> mem)
  | None => None
  end.

Definition set_owner (o : option tid_t) (l : Location) : Location :=
  MkLocation (m_addr l) (write_val l) (m_rv l) (m_read l) (m_written l) o.

(** [lock()]: nothing if the caller owns it already, else acquire (or wait). *)
Definition lock (t : tid_t) (tbl : gmap Z Z) (l : Location)
  : option (bool * gmap Z Z * Location) :=
  if owned t l then Some (false, tbl, l)
  else match Word.lock (hashtbl_get tbl (m_addr l)) with
       | Some w => Some (true, hashtbl_put tbl (m_addr l) w, set_owner (Some t) l)
       | None => None
       end.

Definition lock_ptr (l : Location) : Z := index (m_addr l).

Definition mark_owner (t : tid_t) (l : Location) : Location := set_owner (Some t) l.

Definition set_version (t : tid_t) (v : version_t) (tbl : gmap Z Z) (l : Location)
  : option (gmap Z Z) :=
  if owned t l then
    Some (hashtbl_put tbl (m_addr l) (Word.unsafe_set_version v (hashtbl_get tbl (m_addr l))))
  else match Word.set_version v (hashtbl_get tbl (m_addr l)) with
       | Some w => Some (hashtbl_put tbl (m_addr l) w)
       | None => None
       end.

Definition unlock (tbl : gmap Z Z) (l : Location) : gmap Z Z * Location :=
  (hashtbl_put tbl (m_addr l) (Word.unlock (hashtbl_get tbl (m_addr l))), set_owner None l).

Lemma read_addr t tbl l l' : read t tbl l = Some l' -> m_addr l' = m_addr l.
Proof. unfold read. intros Hr. case_match; by simplify_eq. Qed.

Lemma write_addr {V} (v : V) l st l' st' :
  write v l st = Some (l', st') -> m_addr l' = m_addr l.
Proof. unfold write. intros Hw. repeat case_match; by simplify_eq. Qed.

End Loc.

(** ** The interface of a location set *)

Class LocationSet (LS : Type) := {
  ls_empty : LS;                                          (* clear() *)
  ls_register_read : tid_t -> gmap Z Z -> addr_t -> LS -> option LS;
  ls_register_write {V : Type} : addr_t -> V -> LS -> Store.store V ->
    option (LS * Store.store V);
  ls_find_write : addr_t -> LS -> option Z;
  ls_stable_sort : LS -> LS;
  ls_locations : LS -> list Location;                     (* begin() .. end() *)
  ls_modify : nat -> (Location -> Location) -> LS -> LS }.  (* the mutable fields *)

Definition ls_size {LS} `{LocationSet LS} (l : LS) : nat := length (ls_locations l).

(** What a set holds, without its order. *)
Definition loc_map (ls : list Location) : gmap addr_t Location :=
  list_to_map ((fun l => (m_addr l, l)) <$> ls).

(** The entry of an address, or the fresh one that registering it creates. *)
Definition entry (x : addr_t) (ls : list Location) : Location :=
  default (Loc.make x) (loc_map ls !! x).

Class LocationSetLaws (LS : Type) `{LocationSet LS} := {
  ls_wf : LS -> Prop;
  ls_empty_wf : ls_wf ls_empty;
  ls_empty_locations : ls_locations ls_empty = [];
  ls_wf_nodup l : ls_wf l -> NoDup (m_addr <$> ls_locations l);
  ls_register_read_spec t tbl x l : ls_wf l ->
    m_owner (entry x (ls_locations l)) = None ->
    match Loc.read t tbl (entry x (ls_locations l)) with
    | None => ls_register_read t tbl x l = None
    | Some e => exists l', ls_register_read t tbl x l = Some l' /\ ls_wf l' /\
        loc_map (ls_locations l') = <[x := e]> (loc_map (ls_locations l))
    end;
  ls_register_write_spec {V} x (v : V) l st : ls_wf l ->
    match Loc.write v (entry x (ls_locations l)) st with
    | None => ls_register_write x v l st = None
    | Some (e, st') => exists l', ls_register_write x v l st = Some (l', st') /\ ls_wf l' /\
        loc_map (ls_locations l') = <[x := e]> (loc_map (ls_locations l))
    end;
  ls_find_write_spec x l : ls_wf l ->
    ls_find_write x l =
      match loc_map (ls_locations l) !! x with
      | Some e => if m_written e then Some (val_addr (write_val e)) else None
      | None => None
      end;
  ls_stable_sort_perm l : ls_locations (ls_stable_sort l) ≡ₚ ls_locations l;
  ls_stable_sort_sorted l : ls_wf l -> Forall W64.in_range (m_addr <$> ls_locations l) ->
    StronglySorted Z.le (m_addr <$> ls_locations (ls_stable_sort l));
  ls_modify_locations i f l : ls_locations (ls_modify i f l) = alter f i (ls_locations l) }.

(** *** Facts about [loc_map] shared by the implementations and the clients *)

Lemma loc_map_lookup ls x l :
  NoDup (m_addr <$> ls) -> loc_map ls !! x = Some l <-> l ∈ ls /\ m_addr l = x.
Proof.
  intros Hnd. unfold loc_map. rewrite <- elem_of_list_to_map.
  - rewrite list_elem_of_fmap. split.
    + intros (k & Hk & Hin). by simplify_eq.
    + intros [Hin <-]. by exists l.
  - by rewrite <- list_fmap_compose.
Qed.

Lemma loc_map_None ls x : loc_map ls !! x = None <-> x ∉ m_addr <$> ls.
Proof.
  unfold loc_map. rewrite <- not_elem_of_list_to_map, <- list_fmap_compose. done.
Qed.

Lemma entry_addr ls x : NoDup (m_addr <$> ls) -> m_addr (entry x ls) = x.
Proof.
  intros Hnd. unfold entry. destruct (loc_map ls !! x) eqn:E; simpl; [|done].
  by apply loc_map_lookup in E as [_ <-].
Qed.

Lemma loc_map_perm ls ls' :
  NoDup (m_addr <$> ls) -> ls ≡ₚ ls' -> loc_map ls = loc_map ls'.
Proof.
  intros Hnd Hp. apply list_to_map_proper; [by rewrite <- list_fmap_compose|]. by rewrite Hp.
Qed.

Lemma loc_map_cons l ls : loc_map (l :: ls) = <[m_addr l := l]> (loc_map ls).
Proof. done. Qed.

Lemma loc_map_snoc l ls :
  m_addr l ∉ m_addr <$> ls -> NoDup (m_addr <$> ls) ->
  loc_map (ls ++ [l]) = <[m_addr l := l]> (loc_map ls).
Proof.
  intros Hx Hnd. rewrite <- loc_map_cons. apply loc_map_perm.
  - rewrite fmap_app. apply NoDup_app. split_and!; [done| |apply NoDup_singleton].
    intros y Hy. simpl. intros ->%list_elem_of_singleton. done.
  - by rewrite Permutation_app_comm.
Qed.

Lemma loc_map_insert (ls : list Location) (i : nat) l l' :
  NoDup (m_addr <$> ls) -> ls !! i = Some l -> m_addr l' = m_addr l ->
  loc_map (<[i := l']> ls) = <[m_addr l := l']> (loc_map ls).
Proof.
  intros Hnd Hi Ha. revert i Hi Hnd. induction ls as [|k ls IH]; intros i Hi Hnd; [done|].
  simpl in Hnd. apply NoDup_cons in Hnd as [Hk Hnd]. destruct i as [|i]; simpl in *.
  - simplify_eq. rewrite !loc_map_cons, Ha. by rewrite insert_insert_eq.
  - rewrite !loc_map_cons, IH by done. rewrite insert_insert_ne; [done|].
    intros E. apply Hk. rewrite E || rewrite <- E. apply list_elem_of_fmap. eauto using list_elem_of_lookup_2.
Qed.

Lemma fmap_addr_insert (ls : list Location) (i : nat) l l' :
  ls !! i = Some l -> m_addr l' = m_addr l -> m_addr <$> (<[i := l']> ls) = m_addr <$> ls.
Proof.
  intros Hi Ha. rewrite list_fmap_insert, Ha.
  apply list_insert_id. by rewrite list_lookup_fmap, Hi.
Qed.
