(* ===== verification/DenseTable.v ===== *)
(** * The hash table of [tl2/ankerl/unordered_dense.h]

    [map<addr_t, size_t>] is the hash map inside [LocationHashVectorSet].  The
    pairs are stored densely in [m_values]; [m_buckets] is a ring of buckets, each
    with the index of a value and a word that packs the distance to the value's
    original bucket, plus one, over a byte of its hash.  This file has the
    operations of [table] for the [standard] bucket and contiguous containers:
    words are kept at their width, an access out of range or a loop that does not
    stop is [Stuck], and the three exceptions the code throws are results of
    their own. *)

From S2P Require Import Prelude.

(** ** [wyhash] of a 64-bit integer *)
Module WyHash.

(** [mum]: the two halves of the 128-bit product. *)
Definition mum (a b : Z) : Z * Z := let r := a * b in (W64.wrap r, r / 2 ^ 64).

(** [mum] without 128-bit integers. *)
Definition mum_portable (a b : Z) : Z * Z :=
  let ha := Z.shiftr a 32 in
  let hb := Z.shiftr b 32 in
  let la := a mod 2 ^ 32 in
  let lb := b mod 2 ^ 32 in
  let rh := W64.wrap (ha * hb) in
  let rm0 := W64.wrap (ha * lb) in
  let rm1 := W64.wrap (hb * la) in
  let rl := W64.wrap (la * lb) in
  let t := W64.wrap (rl + W64.wrap (Z.shiftl rm0 32)) in
  let c := if t <? rl then 1 else 0 in
  let lo := W64.wrap (t + W64.wrap (Z.shiftl rm1 32)) in
  let c := W64.wrap (c + if lo <? t then 1 else 0) in
  let hi := W64.wrap (rh + Z.shiftr rm0 32 + Z.shiftr rm1 32 + c) in
  (lo, hi).

Definition mix (a b : Z) : Z := let '(lo, hi) := mum a b in Z.lxor lo hi.

Definition hash (x : Z) : Z := mix x 11400714819323198485.       (* 0x9E3779B97F4A7C15 *)

Lemma product_range x y : 0 <= x < 2 ^ 32 -> 0 <= y < 2 ^ 32 -> 0 <= x * y <= (2 ^ 32 - 1) * (2 ^ 32 - 1).
Proof. intros. split; [apply Z.mul_nonneg_nonneg; lia|apply Z.mul_le_mono_nonneg; lia]. Qed.

(** A sum modulo 2^64 and its carry. *)
Lemma add_carry x y : 0 <= x < 2 ^ 64 -> 0 <= y < 2 ^ 64 ->
  x + y = W64.wrap (x + y) + 2 ^ 64 * (if W64.wrap (x + y) <? x then 1 else 0).
Proof.
  intros Hx Hy. unfold W64.wrap, W64.modulus. destruct (Z.lt_ge_cases (x + y) (2 ^ 64)) as [Hlt|Hge].
  - rewrite Z.mod_small by lia. destruct (Z.ltb_spec (x + y) x); lia.
  - assert (E : (x + y) mod 2 ^ 64 = x + y - 2 ^ 64) by (symmetry; apply (Z.mod_unique_pos _ _ 1); lia).
    rewrite E. destruct (Z.ltb_spec (x + y - 2 ^ 64) x); lia.
Qed.

(** The low part of a product shifted by 32. *)
Lemma shift_split r : 0 <= r < 2 ^ 64 ->
  r * 2 ^ 32 = W64.wrap (Z.shiftl r 32) + 2 ^ 64 * Z.shiftr r 32.
Proof.
  intros Hr. rewrite Z.shiftl_mul_pow2, Z.shiftr_div_pow2 by lia. unfold W64.wrap, W64.modulus.
  change (2 ^ 64) with (2 ^ 32 * 2 ^ 32). rewrite Z.mul_mod_distr_r by lia.
  pose proof (Z.div_mod r (2 ^ 32) ltac:(lia)) as Hd. lia.
Qed.

(** The two implementations of the 128-bit product, the compiler's and the
    one by 32-bit halves with carries, agree on all 64-bit words. *)
Theorem mum_portable_correct a b : W64.in_range a -> W64.in_range b -> mum_portable a b = mum a b.
Proof.
  unfold W64.in_range, W64.modulus. intros Ha Hb. unfold mum_portable, mum. cbv zeta.
  rewrite !(Z.shiftr_div_pow2 a), !(Z.shiftr_div_pow2 b) by lia.
  pose proof (Z.div_mod a (2 ^ 32) ltac:(lia)) as Ea. pose proof (Z.div_mod b (2 ^ 32) ltac:(lia)) as Eb.
  set (ha := a / 2 ^ 32) in *. set (hb := b / 2 ^ 32) in *. set (la := a mod 2 ^ 32) in *. set (lb := b mod 2 ^ 32) in *.
  assert (Hha : 0 <= ha < 2 ^ 32) by (split; [apply Z.div_pos; lia|apply Z.div_lt_upper_bound; lia]).
  assert (Hhb : 0 <= hb < 2 ^ 32) by (split; [apply Z.div_pos; lia|apply Z.div_lt_upper_bound; lia]).
  assert (Hla : 0 <= la < 2 ^ 32) by (apply Z.mod_pos_bound; lia).
  assert (Hlb : 0 <= lb < 2 ^ 32) by (apply Z.mod_pos_bound; lia).
  pose proof (product_range ha hb Hha Hhb) as Hrh. pose proof (product_range ha lb Hha Hlb) as Hrm0.
  pose proof (product_range hb la Hhb Hla) as Hrm1. pose proof (product_range la lb Hla Hlb) as Hrl.
  assert (Eprod : a * b = ha * hb * 2 ^ 64 + (ha * lb) * 2 ^ 32 + (hb * la) * 2 ^ 32 + la * lb)
    by (rewrite Ea, Eb; change (2 ^ 64) with (2 ^ 32 * 2 ^ 32); ring).
  set (rh := ha * hb) in *. set (rm0 := ha * lb) in *. set (rm1 := hb * la) in *. set (rl := la * lb) in *.
  rewrite !(W64.wrap_small rh), !(W64.wrap_small rm0), !(W64.wrap_small rm1), !(W64.wrap_small rl)
    by (unfold W64.in_range, W64.modulus; lia).
  pose proof (shift_split rm0 ltac:(lia)) as E0. pose proof (shift_split rm1 ltac:(lia)) as E1.
  pose proof (W64.wrap_range (Z.shiftl rm0 32)) as H0. pose proof (W64.wrap_range (Z.shiftl rm1 32)) as H1.
  set (s0 := W64.wrap (Z.shiftl rm0 32)) in *. set (s1 := W64.wrap (Z.shiftl rm1 32)) in *.
  unfold W64.in_range, W64.modulus in H0, H1.
  pose proof (add_carry rl s0 ltac:(lia) H0) as Ec0. pose proof (W64.wrap_range (rl + s0)) as Ht.
  set (t := W64.wrap (rl + s0)) in *. unfold W64.in_range, W64.modulus in Ht.
  pose proof (add_carry t s1 Ht H1) as Ec1. pose proof (W64.wrap_range (t + s1)) as Hlo.
  set (lo := W64.wrap (t + s1)) in *. unfold W64.in_range, W64.modulus in Hlo.
  set (c0 := if t <? rl then 1 else 0) in *. set (c1 := if lo <? t then 1 else 0) in *.
  assert (Hc : 0 <= c0 <= 1 /\ 0 <= c1 <= 1) by (subst c0 c1; destruct (t <? rl), (lo <? t); lia).
  rewrite (W64.wrap_small (c0 + c1)) by (unfold W64.in_range, W64.modulus; lia).
  set (q0 := Z.shiftr rm0 32) in *. set (q1 := Z.shiftr rm1 32) in *.
  assert (Eall : a * b = 2 ^ 64 * (rh + q0 + q1 + (c0 + c1)) + lo) by lia.
  assert (Hpos : 0 <= a * b <= (2 ^ 64 - 1) * (2 ^ 64 - 1))
    by (split; [apply Z.mul_nonneg_nonneg; lia|apply Z.mul_le_mono_nonneg; lia]).
  rewrite (W64.wrap_small (rh + q0 + q1 + (c0 + c1))) by (unfold W64.in_range, W64.modulus; lia).
  rewrite Eall. f_equal.
  - unfold W64.wrap, W64.modulus. rewrite Z.add_comm, Z.mul_comm, Z_mod_plus_full. symmetry. by apply Z.mod_small.
  - rewrite (Z.mul_comm (2 ^ 64)), Z.div_add_l, Z.div_small by lia. lia.
Qed.

Lemma mum_portable_correct_witness : mum_portable (2 ^ 64 - 1) (2 ^ 63 + 12345) = mum (2 ^ 64 - 1) (2 ^ 63 + 12345).
Proof. apply mum_portable_correct; unfold W64.in_range, W64.modulus; lia. Defined.

Lemma lxor_range a b : W64.in_range a -> W64.in_range b -> W64.in_range (Z.lxor a b).
Proof.
  unfold W64.in_range, W64.modulus. intros Ha Hb. assert (H0 : 0 <= Z.lxor a b) by (rewrite Z.lxor_nonneg; lia).
  split; [done|]. destruct (Z.eq_dec (Z.lxor a b) 0) as [->|Hne]; [lia|].
  apply Z.log2_lt_pow2; [lia|]. pose proof (Z.log2_lxor a b ltac:(lia) ltac:(lia)) as Hl.
  assert (Z.log2 a < 64) by (destruct (Z.eq_dec a 0) as [->|]; [done|apply Z.log2_lt_pow2; lia]).
  assert (Z.log2 b < 64) by (destruct (Z.eq_dec b 0) as [->|]; [done|apply Z.log2_lt_pow2; lia]). lia.
Qed.

Lemma hash_range x : W64.in_range x -> W64.in_range (hash x).
Proof.
  unfold W64.in_range, W64.modulus. intros Hx. unfold hash, mix, mum. apply lxor_range; [apply W64.wrap_range|].
  unfold W64.in_range, W64.modulus. split; [apply Z.div_pos; lia|apply Z.div_lt_upper_bound; nia].
Qed.
End WyHash.

(** ** The buckets *)

Record bucket := Bucket { m_dist_and_fingerprint : Z; m_value_idx : Z }.

#[export] Instance bucket_inhabited : Inhabited bucket := populate (Bucket 0 0).
#[export] Instance bucket_eq_dec : EqDecision bucket.
Proof. solve_decision. Defined.

(** [Bucket::dist_inc] and [Bucket::fingerprint_mask]: the low byte is the fingerprint. *)
Definition Bucket_dist_inc : Z := 256.
Definition fingerprint_mask : Z := Bucket_dist_inc - 1.

Definition wrap32 (z : Z) : Z := z mod 2 ^ 32.

Definition dist_inc (x : Z) : Z := wrap32 (x + Bucket_dist_inc).
Definition dist_dec (x : Z) : Z := wrap32 (x - Bucket_dist_inc).

Definition dist_and_fingerprint_from_hash (hash : Z) : Z :=
  Z.lor Bucket_dist_inc (Z.land (wrap32 hash) fingerprint_mask).

Definition bucket_idx_from_hash (m_shifts hash : Z) : Z := wrap32 (Z.shiftr hash m_shifts).

(** What an operation ends in. *)
Inductive result (A : Type) := Ok (a : A) | BucketOverflow | TooManyElements | KeyNotFound | Stuck.
Arguments Ok {A} _.
Arguments BucketOverflow {A}.
Arguments TooManyElements {A}.
Arguments KeyNotFound {A}.
Arguments Stuck {A}.

Definition rbind {A B} (x : result A) (f : A -> result B) : result B :=
  match x with
  | Ok a => f a
  | BucketOverflow => BucketOverflow | TooManyElements => TooManyElements | KeyNotFound => KeyNotFound
  | Stuck => Stuck
  end.
Notation "x <~ e ; f" := (rbind e (fun x => f)) (at level 100, e at next level, f at level 200, right associativity,
  format "x  <~  e ;  '//' f") : tl2_scope.
#[local] Open Scope tl2_scope.

Definition get {A} (ls : list A) (i : Z) : result A :=
  if i <? 0 then Stuck else match ls !! Z.to_nat i with Some a => Ok a | None => Stuck end.
Definition set {A} (ls : list A) (i : Z) (a : A) : list A := <[Z.to_nat i := a]> ls.

(** The loops on the ring of buckets. *)
Section Ring.
Implicit Types (B : list bucket) (fuel : nat).

Definition bucket_count B : Z := Z.of_nat (length B).

Definition next B (bucket_idx : Z) : Z :=
  if wrap32 (bucket_idx + 1) =? bucket_count B then 0 else wrap32 (bucket_idx + 1).

(** The loop of [next_while_less]. *)
Fixpoint next_while_less fuel B (dist_and_fingerprint bucket_idx : Z) : result bucket :=
  b <~ get B bucket_idx;
  if dist_and_fingerprint <? m_dist_and_fingerprint b then
    match fuel with
    | O => Stuck
    | S fuel' => next_while_less fuel' B (dist_inc dist_and_fingerprint) (next B bucket_idx)
    end
  else Ok (Bucket dist_and_fingerprint bucket_idx).

Fixpoint place_and_shift_up fuel B (new_bucket : bucket) (place : Z) : result (list bucket) :=
  b <~ get B place;
  if negb (0 =? m_dist_and_fingerprint b) then
    match fuel with
    | O => Stuck
    | S fuel' => place_and_shift_up fuel' (set B place new_bucket)
        (Bucket (dist_inc (m_dist_and_fingerprint b)) (m_value_idx b)) (next B place)
    end
  else Ok (set B place new_bucket).

Fixpoint shift_down_from fuel B (bucket_idx next_bucket_idx : Z) : result (list bucket) :=
  next_bucket <~ get B next_bucket_idx;
  if Bucket_dist_inc * 2 <=? m_dist_and_fingerprint next_bucket then
    match fuel with
    | O => Stuck
    | S fuel' => shift_down_from fuel'
        (set B bucket_idx (Bucket (dist_dec (m_dist_and_fingerprint next_bucket)) (m_value_idx next_bucket)))
        next_bucket_idx (next B next_bucket_idx)
    end
  else Ok (set B bucket_idx (Bucket 0 0)).

Definition erase_and_shift_down fuel B (bucket_idx : Z) : result (list bucket) :=
  shift_down_from fuel B bucket_idx (next B bucket_idx).

(** The search of the bucket of a value. *)
Fixpoint seek_value fuel B (bucket_idx value_idx : Z) : result Z :=
  b <~ get B bucket_idx;
  if value_idx =? m_value_idx b then Ok bucket_idx
  else match fuel with O => Stuck | S fuel' => seek_value fuel' B (next B bucket_idx) value_idx end.
End Ring.

(** ** The table *)
Module Dense.
Section Table.
Context {K V : Type} `{EqDecision K} (mixed_hash : K -> Z).

Record table := Table {
  m_values : list (K * V);
  m_buckets : list bucket;
  m_max_bucket_capacity : Z;
  m_shifts : Z }.
Implicit Types (t : table).

Definition initial_shifts : Z := 62.
Definition max_bucket_count : Z := 2 ^ 32.

(** [static_cast<value_idx_type>(static_cast<float>(n) * 0.8F)]: [n] is a power
    of two, the [float] 0.8 is 13421773 / 2^24, and the product is exact. *)
Definition load_capacity (n : Z) : Z := n * 13421773 / 2 ^ 24.

Definition size t : Z := Z.of_nat (length (m_values t)).
Definition empty t : bool := size t =? 0.
Definition is_full t : bool := m_max_bucket_capacity t <? size t.
Definition fuel_of t : nat := S (S (S (length (m_buckets t)))).

Definition calc_num_buckets (shifts : Z) : Z := Z.min max_bucket_count (2 ^ (64 - shifts)).

Definition set_buckets t B : table := Table (m_values t) B (m_max_bucket_capacity t) (m_shifts t).
Definition set_values t vs : table := Table vs (m_buckets t) (m_max_bucket_capacity t) (m_shifts t).

Definition deallocate_buckets t : table := Table (m_values t) [] 0 (m_shifts t).

(** [std::vector::resize]: new elements are zero. *)
Definition resize (B : list bucket) (n : Z) : list bucket :=
  take (Z.to_nat n) B ++ replicate (Z.to_nat n - length B) (Bucket 0 0).

Definition allocate_buckets_from_shift t : table :=
  let num_buckets := calc_num_buckets (m_shifts t) in
  Table (m_values t) (resize (m_buckets t) num_buckets)
    (if num_buckets =? max_bucket_count then max_bucket_count else wrap32 (load_capacity num_buckets)) (m_shifts t).

Definition clear_buckets t : table := set_buckets t (replicate (length (m_buckets t)) (Bucket 0 0)).

Definition hash_next_while_less t (key : K) : result bucket :=
  let hash := mixed_hash key in
  next_while_less (fuel_of t) (m_buckets t) (dist_and_fingerprint_from_hash hash) (bucket_idx_from_hash (m_shifts t) hash).

(** The loop of [clear_and_fill_buckets_from_values]. *)
Fixpoint fill_from t (vs : list (K * V)) (value_idx : Z) : result table :=
  match vs with
  | [] => Ok t
  | (key, _) :: vs' =>
      b <~ hash_next_while_less t key;
      B <~ place_and_shift_up (fuel_of t) (m_buckets t) (Bucket (m_dist_and_fingerprint b) value_idx) (m_value_idx b);
      fill_from (set_buckets t B) vs' (value_idx + 1)
  end.

Definition clear_and_fill_buckets_from_values t : result table :=
  fill_from (clear_buckets t) (m_values t) 0.

(** [do_place_element] and [emplace] come here with the new pair stored; when there
    is no room for more buckets the code removes it again and throws.
    [BucketOverflow] stands for that exception, without the table. *)
Definition increase_size t : result table :=
  if m_max_bucket_capacity t =? max_bucket_count then BucketOverflow
  else
    let t := Table (m_values t) (m_buckets t) (m_max_bucket_capacity t) (m_shifts t - 1) in
    clear_and_fill_buckets_from_values (allocate_buckets_from_shift (deallocate_buckets t)).

(** The constructor with no argument. *)
Definition make : table := clear_buckets (allocate_buckets_from_shift (Table [] [] 0 initial_shifts)).

(** *** Lookup *)

Definition key_at t (value_idx : Z) : result K := kv <~ get (m_values t) value_idx; Ok kv.1.

(** The word is that of the bucket and the keys are equal. *)
Definition matches t (key : K) (dist_and_fingerprint : Z) (b : bucket) : result bool :=
  if dist_and_fingerprint =? m_dist_and_fingerprint b then
    k <~ key_at t (m_value_idx b); Ok (bool_decide (key = k))
  else Ok false.

(** The last loop of [do_find]; [None] is [end()]. *)
Fixpoint find_from (fuel : nat) t (key : K) (dist_and_fingerprint bucket_idx : Z) : result (option Z) :=
  b <~ get (m_buckets t) bucket_idx;
  found <~ matches t key dist_and_fingerprint b;
  if found : bool then Ok (Some (m_value_idx b))
  else if m_dist_and_fingerprint b <? dist_and_fingerprint then Ok None
  else match fuel with
       | O => Stuck
       | S fuel' => find_from fuel' t key (dist_inc dist_and_fingerprint) (next (m_buckets t) bucket_idx)
       end.

(** The two unrolled turns do not test whether the search is over. *)
Definition do_find t (key : K) : result (option Z) :=
  if empty t then Ok None
  else
    let mh := mixed_hash key in
    let d0 := dist_and_fingerprint_from_hash mh in
    let i0 := bucket_idx_from_hash (m_shifts t) mh in
    b0 <~ get (m_buckets t) i0;
    found0 <~ matches t key d0 b0;
    if found0 : bool then Ok (Some (m_value_idx b0))
    else
      let d1 := dist_inc d0 in
      let i1 := next (m_buckets t) i0 in
      b1 <~ get (m_buckets t) i1;
      found1 <~ matches t key d1 b1;
      if found1 : bool then Ok (Some (m_value_idx b1))
      else find_from (fuel_of t) t key (dist_inc d1) (next (m_buckets t) i1).

Definition find t (key : K) : result (option V) :=
  i <~ do_find t key;
  match i with
  | Some i => kv <~ get (m_values t) i; Ok (Some kv.2)
  | None => Ok None
  end.

Definition contains t (key : K) : result bool := i <~ do_find t key; Ok (bool_decide (i <> None)).
Definition count t (key : K) : result Z := i <~ do_find t key; Ok (if decide (i = None) then 0 else 1).

(** *** Insertion *)

(** The loop of [emplace] and of [do_try_emplace]: the value index of the key, or
    the word and the bucket where it belongs. *)
Fixpoint probe (fuel : nat) t (key : K) (dist_and_fingerprint bucket_idx : Z) : result (Z + bucket) :=
  b <~ get (m_buckets t) bucket_idx;
  if m_dist_and_fingerprint b <? dist_and_fingerprint then Ok (inr (Bucket dist_and_fingerprint bucket_idx))
  else
    found <~ matches t key dist_and_fingerprint b;
    if found : bool then Ok (inl (m_value_idx b))
    else match fuel with
         | O => Stuck
         | S fuel' => probe fuel' t key (dist_inc dist_and_fingerprint) (next (m_buckets t) bucket_idx)
         end.

(** What follows the loop: the value is at the back of [m_values] already. *)
Definition place_back t (b : bucket) : result (table * (Z * bool)) :=
  let value_idx := wrap32 (size t - 1) in
  t' <~ (if is_full t then increase_size t
         else B <~ place_and_shift_up (fuel_of t) (m_buckets t) (Bucket (m_dist_and_fingerprint b) value_idx) (m_value_idx b);
              Ok (set_buckets t B));
  Ok (t', (value_idx, true)).

(** [do_place_element]: emplace the value, then its bucket. *)
Definition do_place_element t (b : bucket) (key : K) (v : V) : result (table * (Z * bool)) :=
  place_back (set_values t (m_values t ++ [(key, v)])) b.

Definition hash_probe t (key : K) : result (Z + bucket) :=
  let hash := mixed_hash key in
  probe (fuel_of t) t key (dist_and_fingerprint_from_hash hash) (bucket_idx_from_hash (m_shifts t) hash).

Definition do_try_emplace t (key : K) (v : V) : result (table * (Z * bool)) :=
  r <~ hash_probe t key;
  match r with
  | inl i => Ok (t, (i, false))
  | inr b => do_place_element t b key v
  end.

(** [emplace] constructs the value first and takes it away when the key is there. *)
Definition emplace t (key : K) (v : V) : result (table * (Z * bool)) :=
  let t1 := set_values t (m_values t ++ [(key, v)]) in
  r <~ hash_probe t1 key;
  match r with
  | inl i => Ok (set_values t1 (removelast (m_values t1)), (i, false))
  | inr b => place_back t1 b
  end.

(** [it->second = v]. *)
Definition assign t (i : Z) (v : V) : result table :=
  kv <~ get (m_values t) i; Ok (set_values t (set (m_values t) i (kv.1, v))).

Definition do_insert_or_assign t (key : K) (v : V) : result (table * (Z * bool)) :=
  r <~ do_try_emplace t key v;
  let '(t', (i, isinserted)) := r in
  if isinserted : bool then Ok (t', (i, true)) else t'' <~ assign t' i v; Ok (t'', (i, false)).

Definition clear t : table := clear_buckets (set_values t []).
End Table.
Arguments table : clear implicits.
End Dense.
