(* ===== verification/DenseHash.v ===== *)
(** * The hashes of [tl2/ankerl/unordered_dense.h]

    [wyhash] of a range of bytes and the hashes made from it and from the one of an
    integer: strings, pointers, enumerations, pairs and tuples.  A read of a byte is
    recorded, and one outside the range has no result. *)

From S2P Require Import Prelude DenseTable.
#[local] Open Scope Z_scope.

(** ** Reading *)

(** From the bytes of the key: a value and the offsets read, or a read out of bounds. *)
Definition reading (X : Type) : Type := list Z -> option (X * list Z).

Definition give {X} (x : X) : reading X := fun _ => Some (x, []).

Definition and_then {X Y} (r : reading X) (k : X -> reading Y) : reading Y := fun bytes =>
  '(x, l) ← r bytes; '(y, l') ← k x bytes; Some (y, l ++ l').

Declare Scope hash_scope.
Notation "x <~ r ; k" := (and_then r (fun x => k)) (at level 100, r at next level, k at level 200, right associativity,
  format "x  <~  r ;  '//' k") : hash_scope.
#[local] Open Scope hash_scope.

(** [p[i]] of the key. *)
Definition byte_at (p : Z) : reading Z := fun bytes =>
  if p <? 0 then None else b ← bytes !! Z.to_nat p; Some (b, [p]).

(** [memcpy] of [n] bytes into an integer, the lowest byte first. *)
Fixpoint read_le (n : nat) (p : Z) : reading Z :=
  match n with
  | O => give 0
  | S n' => b <~ byte_at p; v <~ read_le n' (p + 1); give (b + 256 * v)
  end.

Definition r8 (p : Z) : reading Z := read_le 8 p.
Definition r4 (p : Z) : reading Z := read_le 4 p.

(** reads 1, 2, or 3 bytes *)
Definition r3 (p k : Z) : reading Z :=
  b0 <~ byte_at p;
  b1 <~ byte_at (p + Z.shiftr k 1);
  b2 <~ byte_at (p + (k - 1));
  give (Z.lor (Z.lor (Z.shiftl b0 16) (Z.shiftl b1 8)) b2).

(** ** [wyhash::hash(key, len)] *)

Definition secret0 : Z := 11562461410679940143.   (* 0xa0761d6478bd642f *)
Definition secret1 : Z := 16646288086500911323.   (* 0xe7037ed1a0b428db *)
Definition secret2 : Z := 10285213230658275043.   (* 0x8ebc6af09c88c6e3 *)
Definition secret3 : Z := 6384245875588680899.    (* 0x589965cc75374cc3 *)

(** [mix(r8(p) ^ s, r8(p + 8) ^ seed)]. *)
Definition mix_round (p s seed : Z) : reading Z :=
  x <~ r8 p; y <~ r8 (p + 8); give (WyHash.mix (Z.lxor x s) (Z.lxor y seed)).

(** The [do] loop: three seeds, 48 bytes a turn; and what is left of [i]. *)
Fixpoint loop48 (fuel : nat) (p i seed see1 see2 : Z) : reading (Z * Z * Z) :=
  match fuel with
  | O => fun _ => None
  | S fuel' =>
      seed' <~ mix_round p secret1 seed;
      see1' <~ mix_round (p + 16) secret2 see1;
      see2' <~ mix_round (p + 32) secret3 see2;
      if 48 <? i - 48 then loop48 fuel' (p + 48) (i - 48) seed' see1' see2'
      else give (p + 48, i - 48, Z.lxor seed' (Z.lxor see1' see2'))
  end.

(** The [while] loop: 16 bytes a turn. *)
Fixpoint loop16 (fuel : nat) (p i seed : Z) : reading (Z * Z * Z) :=
  if 16 <? i then
    match fuel with
    | O => fun _ => None
    | S fuel' => seed' <~ mix_round p secret1 seed; loop16 fuel' (p + 16) (i - 16) seed'
    end
  else give (p, i, seed).

(** [a], [b] and [seed] for a key of at most 16 bytes. *)
Definition hash_short (len : Z) : reading (Z * Z * Z) :=
  if 4 <=? len then
    let q := Z.shiftl (Z.shiftr len 3) 2 in
    x <~ r4 0; y <~ r4 q; z <~ r4 (len - 4); w <~ r4 (len - 4 - q);
    give (Z.lor (Z.shiftl x 32) y, Z.lor (Z.shiftl z 32) w, secret0)
  else if 0 <? len then a <~ r3 0 len; give (a, 0, secret0)
  else give (0, 0, secret0).

(** The same for a longer one. *)
Definition hash_long (len : Z) : reading (Z * Z * Z) :=
  s <~ (if 48 <? len then loop48 (Z.to_nat (len / 48)) 0 len secret0 secret0 secret0 else give (0, len, secret0));
  let '(p, i, seed) := s in
  t <~ loop16 3 p i seed;
  let '(p, i, seed) := t in
  a <~ r8 (p + i - 16); b <~ r8 (p + i - 8); give (a, b, seed).

Definition hash_bytes (len : Z) : reading Z :=
  s <~ (if len <=? 16 then hash_short len else hash_long len);
  let '(a, b, seed) := s in
  give (WyHash.mix (Z.lxor secret1 len) (WyHash.mix (Z.lxor a secret1) (Z.lxor b seed))).

(** ** The hashes of types *)

(** [hash<std::basic_string<CharT>>] and of a string view: the characters' bytes. *)
Definition hash_string (bytes : list Z) : option Z := fst <$> hash_bytes (Z.of_nat (length bytes)) bytes.

(** [hash<T *>] and of the smart pointers: the address. *)
Definition hash_pointer (ptr : Z) : Z := WyHash.hash ptr.

(** The integers and the enumerations: cast to 64 bits. *)
Definition hash_integer (x : Z) : Z := WyHash.hash (W64.wrap x).

(** [tuple_hash_helper]: [to64] of an integer or an enumeration, and of a value that
    is hashed. *)
Inductive component := Integral (x : Z) | Hashed (h : Z).
Definition to64 (c : component) : Z := match c with Integral x => W64.wrap x | Hashed h => h end.

Definition mix64 (state v : Z) : Z := WyHash.mix (W64.wrap (state + v)) 11376068507788127593. (* 0x9ddfea08eb382d69 *)

(** [calc_hash]: pairs and tuples. *)
Definition calc_hash (t : list component) : Z := foldl (fun h c => mix64 h (to64 c)) 0 t.
Definition hash_pair (a b : component) : Z := calc_hash [a; b].

(** ** What is read *)

Lemma mix_range a b : W64.in_range a -> W64.in_range b -> W64.in_range (WyHash.mix a b).
Proof.
  intros Ha Hb. unfold WyHash.mix, WyHash.mum. apply WyHash.lxor_range; [apply W64.wrap_range|].
  unfold W64.in_range, W64.modulus in *. split; [apply Z.div_pos; nia|apply Z.div_lt_upper_bound; nia].
Qed.

Lemma lor_range a b : W64.in_range a -> W64.in_range b -> W64.in_range (Z.lor a b).
Proof.
  unfold W64.in_range, W64.modulus. intros Ha Hb. assert (H0 : 0 <= Z.lor a b) by (apply Z.lor_nonneg; lia). split; [done|].
  destruct (Z.eq_dec (Z.lor a b) 0) as [-> | Hne]; [lia|]. apply Z.log2_lt_pow2; [lia|]. rewrite Z.log2_lor by lia.
  assert (Z.log2 a < 64) by (destruct (Z.eq_dec a 0) as [-> | ]; [done|apply Z.log2_lt_pow2; lia]).
  assert (Z.log2 b < 64) by (destruct (Z.eq_dec b 0) as [-> | ]; [done|apply Z.log2_lt_pow2; lia]). lia.
Qed.

(** Two 32-bit words in one. *)
Lemma join_range x y : 0 <= x < 2 ^ 32 -> 0 <= y < 2 ^ 32 -> W64.in_range (Z.lor (Z.shiftl x 32) y).
Proof.
  intros Hx Hy. apply lor_range; [rewrite Z.shiftl_mul_pow2 by lia|]; unfold W64.in_range, W64.modulus; lia.
Qed.

Section Reads.
Context (bytes : list Z) (Hbytes : Forall (fun b => 0 <= b < 256) bytes).
Abbreviation len := (Z.of_nat (length bytes)).

(** [r] reads inside the key; its result and the offsets read are as [Q] says. *)
Definition reads {X} (r : reading X) (Q : X -> list Z -> Prop) : Prop := exists x l, r bytes = Some (x, l) /\ Q x l.

Definition covers (l : list Z) (first last : Z) : Prop := forall i, i ∈ l <-> first <= i < last.

Lemma reads_give {X} (x : X) (Q : X -> list Z -> Prop) : Q x [] -> reads (give x) Q.
Proof. by exists x, []. Qed.

Lemma reads_bind {X Y} (r : reading X) (k : X -> reading Y) (Q' : X -> list Z -> Prop) (Q : Y -> list Z -> Prop) :
  reads r Q' -> (forall x l, Q' x l -> reads (k x) (fun y l' => Q y (l ++ l'))) -> reads (and_then r k) Q.
Proof.
  intros (x & l & Hr & HQ') Hk. destruct (Hk x l HQ') as (y & l' & Hy & HQ).
  exists y, (l ++ l'). unfold and_then. rewrite Hr. simpl. by rewrite Hy.
Qed.

Lemma reads_mono {X} (r : reading X) (Q Q' : X -> list Z -> Prop) : reads r Q -> (forall x l, Q x l -> Q' x l) -> reads r Q'.
Proof. intros (x & l & Hr & HQ) Himp. exists x, l. auto. Qed.

Lemma covers_nil a : covers [] a a.
Proof. intros i. rewrite elem_of_nil. lia. Qed.

Lemma covers_app l l' a b c : a <= b <= c -> covers l a b -> covers l' b c -> covers (l ++ l') a c.
Proof. intros Habc Hl Hl' i. rewrite elem_of_app, (Hl i), (Hl' i). lia. Qed.

Lemma covers_app_nil l a b : covers l a b -> covers (l ++ []) a b.
Proof. by rewrite app_nil_r. Qed.

Lemma reads_byte p : 0 <= p < len -> reads (byte_at p) (fun b l => 0 <= b < 256 /\ covers l p (p + 1)).
Proof.
  intros Hp. destruct (lookup_lt_is_Some_2 bytes (Z.to_nat p)) as [b Hb]; [lia|]. exists b, [p]. unfold byte_at.
  destruct (Z.ltb_spec p 0); [lia|]. rewrite Hb. split; [done|]. split; [by apply (Forall_lookup_1 _ _ _ _ Hbytes Hb)|].
  intros i. rewrite list_elem_of_singleton. lia.
Qed.

Lemma reads_le n p : 0 <= p -> p + Z.of_nat n <= len ->
  reads (read_le n p) (fun v l => 0 <= v < 256 ^ Z.of_nat n /\ covers l p (p + Z.of_nat n)).
Proof.
  revert p. induction n as [|n IH]; intros p Hp Hn.
  - apply reads_give. split; [done|]. rewrite Z.add_0_r. apply covers_nil.
  - cbn [read_le]. eapply reads_bind; [apply reads_byte; lia|]. intros b l [Hb Hl].
    eapply reads_bind; [apply IH; lia|]. intros v l' [Hv Hl']. apply reads_give. rewrite Nat2Z.inj_succ, Z.pow_succ_r by lia.
    split; [nia|]. apply (covers_app _ _ p (p + 1)); [lia|done|]. apply covers_app_nil.
    by replace (p + Z.succ (Z.of_nat n)) with (p + 1 + Z.of_nat n) by lia.
Qed.

Lemma reads_r8 p : 0 <= p -> p + 8 <= len -> reads (r8 p) (fun v l => W64.in_range v /\ covers l p (p + 8)).
Proof. intros Hp Hn. exact (reads_le 8 p Hp Hn). Qed.

Lemma reads_r4 p : 0 <= p -> p + 4 <= len -> reads (r4 p) (fun v l => 0 <= v < 2 ^ 32 /\ covers l p (p + 4)).
Proof. intros Hp Hn. exact (reads_le 4 p Hp Hn). Qed.

Lemma reads_mix p s seed : 0 <= p -> p + 16 <= len -> W64.in_range s -> W64.in_range seed ->
  reads (mix_round p s seed) (fun v l => W64.in_range v /\ covers l p (p + 16)).
Proof.
  intros Hp Hn Hs Hseed. eapply reads_bind; [apply reads_r8; lia|]. intros x l [Hx Hl].
  eapply reads_bind; [apply reads_r8; lia|]. intros y l' [Hy Hl']. apply reads_give.
  split; [by apply mix_range; apply WyHash.lxor_range|].
  apply (covers_app _ _ p (p + 8)); [lia|done|]. apply covers_app_nil. by replace (p + 16) with (p + 8 + 8) by lia.
Qed.

Lemma secrets : W64.in_range secret0 /\ W64.in_range secret1 /\ W64.in_range secret2 /\ W64.in_range secret3.
Proof. unfold W64.in_range, W64.modulus, secret0, secret1, secret2, secret3. lia. Qed.

Lemma reads_loop48 fuel p i seed see1 see2 : 0 <= p -> p + i = len -> 48 < i -> i - 48 <= 48 * Z.of_nat fuel ->
  W64.in_range seed -> W64.in_range see1 -> W64.in_range see2 ->
  reads (loop48 fuel p i seed see1 see2) (fun '(p', i', seed') l =>
    p < p' /\ p' + i' = len /\ 0 < i' <= 48 /\ W64.in_range seed' /\ covers l p p').
Proof.
  destruct secrets as (_ & H1 & H2 & H3).
  revert p i seed see1 see2. induction fuel as [|fuel IH]; intros p i seed see1 see2 Hp Hi Hlt Hfuel Hs Hs1 Hs2; [lia|]. cbn [loop48].
  eapply reads_bind; [apply (reads_mix p secret1); [lia|lia|done|done]|]. intros x l [Hx Hl].
  eapply reads_bind; [apply (reads_mix (p + 16) secret2); [lia|lia|done|done]|]. intros y l1 [Hy Hl1].
  eapply reads_bind; [apply (reads_mix (p + 32) secret3); [lia|lia|done|done]|]. intros z l2 [Hz Hl2].
  assert (Hturn : forall l' p', p + 48 <= p' -> covers l' (p + 48) p' -> covers (l ++ l1 ++ l2 ++ l') p p').
  { intros l' p' Hp' Hl'. apply (covers_app _ _ p (p + 16)); [lia|done|]. apply (covers_app _ _ _ (p + 32)); [lia| |].
    - by replace (p + 32) with (p + 16 + 16) by lia.
    - apply (covers_app _ _ _ (p + 48)); [lia| |done]. by replace (p + 48) with (p + 32 + 16) by lia. }
  destruct (Z.ltb_spec 48 (i - 48)).
  - eapply reads_mono; [apply (IH (p + 48)); [lia|lia|lia|lia|done|done|done]|]. intros [[p' i'] seed'] l' (Hp' & Hi' & Hr & Hs' & Hl').
    split; [lia|]. split; [done|]. split; [done|]. split; [done|]. apply Hturn; [lia|done].
  - apply reads_give. split; [lia|]. split; [lia|]. split; [lia|]. split; [by repeat apply WyHash.lxor_range|].
    apply Hturn; [lia|apply covers_nil].
Qed.

Lemma reads_loop16 fuel p i seed : 0 <= p -> p + i = len -> 0 < i -> i - 16 <= 16 * Z.of_nat fuel -> W64.in_range seed ->
  reads (loop16 fuel p i seed) (fun '(p', i', seed') l =>
    p <= p' /\ p' + i' = len /\ 0 < i' <= 16 /\ W64.in_range seed' /\ covers l p p').
Proof.
  destruct secrets as (_ & H1 & _ & _).
  revert p i seed. induction fuel as [|fuel IH]; intros p i seed Hp Hi H0 Hfuel Hs; cbn [loop16]; destruct (Z.ltb_spec 16 i); try lia.
  - apply reads_give. split; [lia|]. split; [done|]. split; [lia|]. split; [done|apply covers_nil].
  - eapply reads_bind; [apply (reads_mix p secret1); [lia|lia|done|done]|]. intros x l [Hx Hl].
    eapply reads_mono; [apply (IH (p + 16)); [lia|lia|lia|lia|done]|]. intros [[p' i'] seed'] l' (Hp' & Hi' & Hr & Hs' & Hl').
    split; [lia|]. split; [done|]. split; [done|]. split; [done|]. apply (covers_app _ _ p (p + 16)); [lia|done|done].
  - apply reads_give. split; [lia|]. split; [done|]. split; [lia|]. split; [done|apply covers_nil].
Qed.

(** The three words both branches end in. *)
Definition words_of (s : Z * Z * Z) (l : list Z) : Prop :=
  let '(a, b, seed) := s in W64.in_range a /\ W64.in_range b /\ W64.in_range seed /\ covers l 0 len.

Lemma reads_long : 16 < len -> reads (hash_long len) words_of.
Proof.
  intros Hlen. destruct secrets as (H0 & _ & _ & _). unfold hash_long.
  apply (reads_bind _ _ (fun '(p, i, seed) l => 0 <= p /\ p + i = len /\ 0 < i <= 48 /\ W64.in_range seed /\ covers l 0 p)).
  - destruct (Z.ltb_spec 48 len).
    + eapply reads_mono; [apply reads_loop48; [lia|lia|lia| |done|done|done]|].
      * pose proof (Z.div_mod len 48 ltac:(lia)). pose proof (Z.mod_pos_bound len 48 ltac:(lia)).
        pose proof (Z.div_pos len 48 ltac:(lia) ltac:(lia)). lia.
      * intros [[p i] seed] l (? & ? & ? & ? & ?). split; [lia|done].
    + apply reads_give. split; [lia|]. split; [lia|]. split; [lia|]. split; [done|apply covers_nil].
  - intros [[p i] seed] l (Hp & Hi & Hr & Hs & Hl). eapply reads_bind; [apply reads_loop16; [lia|lia|lia|lia|done]|].
    intros [[p' i'] seed'] l' (Hp' & Hi' & Hr' & Hs' & Hl').
    eapply reads_bind; [apply reads_r8; lia|]. intros a la [Ha Hla].
    eapply reads_bind; [apply reads_r8; lia|]. intros b lb [Hb Hlb]. apply reads_give.
    split; [done|]. split; [done|]. split; [done|]. intros j. rewrite !elem_of_app, (Hl j), (Hl' j), (Hla j), (Hlb j), elem_of_nil. lia.
Qed.

Lemma reads_short : len <= 16 -> reads (hash_short len) words_of.
Proof.
  intros Hlen. destruct secrets as (H0 & _ & _ & _). assert (Hz : W64.in_range 0) by done. unfold hash_short.
  destruct (Z.leb_spec 4 len) as [H4|H4]; [|destruct (Z.ltb_spec 0 len) as [Hpos|]].
  - rewrite Z.shiftl_mul_pow2, Z.shiftr_div_pow2 by lia. change (2 ^ 2) with 4. change (2 ^ 3) with 8.
    pose proof (Z.div_mod len 8 ltac:(lia)). pose proof (Z.mod_pos_bound len 8 ltac:(lia)). set (q := len / 8) in *.
    assert (0 <= q <= 2) by lia.
    eapply reads_bind; [apply reads_r4; lia|]. intros x lx [Hx Hlx]. eapply reads_bind; [apply reads_r4; lia|]. intros y ly [Hy Hly].
    eapply reads_bind; [apply reads_r4; lia|]. intros z lz [Hz' Hlz]. eapply reads_bind; [apply reads_r4; lia|]. intros w lw [Hw Hlw].
    apply reads_give. split; [by apply join_range|]. split; [by apply join_range|]. split; [done|].
    intros i. rewrite !elem_of_app, (Hlx i), (Hly i), (Hlz i), (Hlw i), elem_of_nil. lia.
  - assert (Hsr : Z.shiftr len 1 = len / 2) by by rewrite Z.shiftr_div_pow2.
    pose proof (Z.div_mod len 2 ltac:(lia)). pose proof (Z.mod_pos_bound len 2 ltac:(lia)).
    eapply reads_bind; [|intros a l Ha; apply reads_give; exact Ha].
    unfold r3. eapply reads_bind; [apply reads_byte; lia|]. intros b0 l0 [Hb0 Hl0].
    eapply reads_bind; [apply reads_byte; lia|]. intros b1 l1 [Hb1 Hl1]. eapply reads_bind; [apply reads_byte; lia|]. intros b2 l2 [Hb2 Hl2].
    apply reads_give. split; [|split; [done|split; [done|]]].
    + rewrite !Z.shiftl_mul_pow2 by lia. repeat apply lor_range; unfold W64.in_range, W64.modulus; lia.
    + intros i. rewrite !elem_of_app, (Hl0 i), (Hl1 i), (Hl2 i), elem_of_nil. lia.
  - apply reads_give. split; [done|]. split; [done|]. split; [done|]. intros i. rewrite elem_of_nil. lia.
Qed.

(** The hash of a range of bytes reads every byte of the range, and none
    outside it: whatever the length (0 included), the reads of 4 and 8 bytes, those
    of the last 16 bytes after the loops and the three of a short key stay inside,
    the loops end, and the result is a 64-bit word. *)
Theorem hash_reads_key : len < 2 ^ 64 ->
  exists h l, hash_bytes len bytes = Some (h, l) /\ W64.in_range h /\ (forall i, i ∈ l <-> 0 <= i < len) /\ hash_string bytes = Some h.
Proof.
  intros Hlen. destruct secrets as (_ & H1 & _ & _).
  assert (Hr : reads (hash_bytes len) (fun h l => W64.in_range h /\ covers l 0 len)).
  { unfold hash_bytes. apply (reads_bind _ _ words_of).
    - destruct (Z.leb_spec len 16); [by apply reads_short|by apply reads_long].
    - intros [[a b] seed] l (Ha & Hb & Hs & Hl). apply reads_give. split; [|by apply covers_app_nil].
      apply mix_range; [apply WyHash.lxor_range; [done|]|apply mix_range; by apply WyHash.lxor_range].
      unfold W64.in_range, W64.modulus. lia. }
  destruct Hr as (h & l & E & Hh & Hl). exists h, l. split; [done|]. split; [done|]. split; [done|]. unfold hash_string. by rewrite E.
Qed.
End Reads.

(** A key of 100 bytes: two turns of the first loop and none of the second. *)
Lemma hash_reads_key_witness : exists h, hash_string (replicate 100 7) = Some h /\ W64.in_range h.
Proof.
  assert (Hb : Forall (fun b => 0 <= b < 256) (replicate 100 7)) by (apply Forall_replicate; lia).
  assert (Hl : Z.of_nat (length (replicate 100 7)) < 2 ^ 64) by (rewrite length_replicate; lia).
  destruct (hash_reads_key (replicate 100 7) Hb Hl) as (h & l & _ & Hh & _ & E). exists h. split; [exact E|exact Hh].
Defined.

(** Tuples and integers hash to 64-bit words, too. *)
Lemma calc_hash_range t : Forall (fun c => match c with Integral _ => True | Hashed h => W64.in_range h end) t -> W64.in_range (calc_hash t).
Proof.
  intros Ht. unfold calc_hash. assert (H0 : W64.in_range 0) by done. revert H0. generalize 0. induction Ht as [|c t Hc Ht IH]; [done|].
  intros h Hh. simpl. apply IH. apply mix_range; [apply W64.wrap_range|done].
Qed.

Lemma hash_integer_range x : W64.in_range (hash_integer x).
Proof. apply WyHash.hash_range, W64.wrap_range. Qed.
