(* ===== verification/DenseRing.v ===== *)
(** * The ring of buckets

    The invariant of [m_buckets] ([tl2/ankerl/unordered_dense.h]) and what the
    loops on the ring do to it.  [ring sh B M]: the buckets [B] hold the value
    indices of the map [M] from an index to the hash of its key; every bucket is
    reached from the original bucket of its hash through buckets that are at least
    as far from theirs. *)

From S2P Require Import Prelude DenseTable.

Local Open Scope Z_scope.

(** ** Positions modulo the size *)

(** The least of the first [k] numbers with a property. *)
Lemma first_such (P : Z -> Prop) `{!forall i, Decision (P i)} (k : Z) :
  (exists i, 0 <= i < k /\ P i /\ forall j, 0 <= j < i -> ~ P j) \/ (forall i, 0 <= i < k -> ~ P i).
Proof.
  destruct (Z.lt_ge_cases k 0) as [Hk|Hk]; [right; lia|]. revert k Hk.
  apply (natlike_ind (fun k => (exists i, 0 <= i < k /\ P i /\ forall j, 0 <= j < i -> ~ P j) \/
    (forall i, 0 <= i < k -> ~ P i))); [right; lia|]. intros k Hk [(i & Hi & HP & Hj)|Hn].
  - left. exists i. split; [lia|done].
  - destruct (decide (P k)) as [HP|HP].
    + left. exists k. split; [lia|]. split; [done|]. intros j Hj. apply Hn. lia.
    + right. intros i Hi. destruct (Z.eq_dec i k) as [->|]; [done|]. apply Hn. lia.
Qed.

Lemma mod_offset n a x : 0 < n -> exists j, 0 <= j < n /\ x mod n = (a + j) mod n.
Proof.
  intros Hn. exists ((x - a) mod n). split; [by apply Z.mod_pos_bound|].
  rewrite Zplus_mod_idemp_r. f_equal. lia.
Qed.

Lemma mod_offset_inj n a i j : 0 < n -> 0 <= i < n -> 0 <= j < n -> (a + i) mod n = (a + j) mod n -> i = j.
Proof.
  intros Hn Hi Hj E. assert (Hd : (i - j) mod n = 0).
  { replace (i - j) with ((a + i) - (a + j)) by lia. rewrite Zminus_mod, E, Z.sub_diag. apply Zmod_0_l. }
  apply Z.mod_divide in Hd as [q Hq]; [|lia]. assert (q = 0) by nia. lia.
Qed.

(** The bucket at a position, in any number of turns around the ring. *)
Definition bk (B : list bucket) (p : Z) : bucket := B !!! Z.to_nat (p mod bucket_count B).

Abbreviation dist_of b := (m_dist_and_fingerprint b).
Abbreviation idx_of b := (m_value_idx b).

Definition inc_bucket (b : bucket) : bucket := Bucket (dist_inc (dist_of b)) (idx_of b).
Definition dec_bucket (b : bucket) : bucket := Bucket (dist_dec (dist_of b)) (idx_of b).

Lemma get_spec {A} (ls : list A) i a : 0 <= i -> ls !! Z.to_nat i = Some a -> get ls i = Ok a.
Proof. intros Hi Hl. unfold get. destruct (Z.ltb_spec i 0); [lia|]. by rewrite Hl. Qed.

Lemma get_middle {A} (l m : list A) a : get (l ++ a :: m) (Z.of_nat (length l)) = Ok a.
Proof. apply get_spec; [lia|]. by rewrite Nat2Z.id, list_lookup_middle. Qed.

Section Access.
Context (B : list bucket) (HB : 0 < bucket_count B < 2 ^ 32).
Abbreviation n := (bucket_count B).

Lemma pos_range p : 0 <= p mod n < n.
Proof. apply Z.mod_pos_bound. lia. Qed.

Lemma bk_mod p q : p mod n = q mod n -> bk B p = bk B q.
Proof. unfold bk. by intros ->. Qed.

Lemma get_bk p : get B (p mod n) = Ok (bk B p).
Proof.
  pose proof (pos_range p) as Hp. unfold get, bk. destruct (Z.ltb_spec (p mod n) 0) as [|_]; [lia|].
  rewrite list_lookup_lookup_total_lt; [done|]. unfold bucket_count in *. lia.
Qed.

Lemma next_pos p : next B (p mod n) = (p + 1) mod n.
Proof.
  pose proof (pos_range p) as Hp. unfold next, wrap32. rewrite (Z.mod_small (p mod n + 1)) by lia.
  destruct (Z.eqb_spec (p mod n + 1) n) as [E|E].
  - rewrite <- (Zplus_mod_idemp_l p 1), E. symmetry. apply Z_mod_same_full.
  - rewrite <- (Zplus_mod_idemp_l p 1). symmetry. apply Z.mod_small. lia.
Qed.

Lemma count_set p b : bucket_count (set B p b) = n.
Proof. unfold bucket_count, set. by rewrite length_insert. Qed.

Lemma bk_set p q b : bk (set B (p mod n) b) q = if decide (p mod n = q mod n) then b else bk B q.
Proof.
  pose proof (pos_range p) as Hp. pose proof (pos_range q) as Hq. unfold bk. rewrite count_set. unfold set.
  destruct (decide (p mod n = q mod n)) as [->|Hne].
  - apply list_lookup_total_insert_eq. unfold bucket_count in *. lia.
  - apply list_lookup_total_insert_ne. lia.
Qed.

Lemma bk_set_off a i j b : 0 <= i < n -> 0 <= j < n ->
  bk (set B ((a + i) mod n) b) (a + j) = if decide (i = j) then b else bk B (a + j).
Proof.
  intros Hi Hj. rewrite bk_set. destruct (decide (i = j)) as [->|Hne]; [by rewrite decide_True|].
  rewrite decide_False; [done|]. intros E. apply Hne. by apply (mod_offset_inj n a i j); try lia.
Qed.
End Access.

(** ** Placing a bucket *)

(** The chain from [i] to the first empty bucket [m] moves up by one. *)
Lemma place_moves fuel B b a i m : 0 < bucket_count B < 2 ^ 32 ->
  0 <= i <= m -> m < bucket_count B -> m - i <= Z.of_nat fuel ->
  (forall j, i <= j < m -> dist_of (bk B (a + j)) <> 0) -> dist_of (bk B (a + m)) = 0 ->
  exists B', place_and_shift_up fuel B b ((a + i) mod bucket_count B) = Ok B' /\ length B' = length B /\
    forall j, 0 <= j < bucket_count B -> bk B' (a + j) =
      if decide (j < i) then bk B (a + j) else if decide (j = i) then b
      else if decide (j <= m) then inc_bucket (bk B (a + (j - 1))) else bk B (a + j).
Proof.
  revert B b i. induction fuel as [|fuel IH]; intros B b i HB Hi Hm Hf Hne Hz.
  - assert (i = m) as -> by lia. cbn [place_and_shift_up]. rewrite get_bk by done. cbn [rbind].
    rewrite Hz. cbn. eexists. split; [reflexivity|]. split; [apply length_insert|]. intros j Hj.
    rewrite bk_set_off by lia. repeat case_decide; subst; try lia; done.
  - cbn [place_and_shift_up]. rewrite get_bk by done. cbn [rbind].
    destruct (Z.eqb_spec 0 (dist_of (bk B (a + i)))) as [E|E]; cbn [negb].
    + assert (i = m) as -> by (destruct (Z.eq_dec i m); [done|]; exfalso; apply (Hne i); [lia|done]).
      eexists. split; [reflexivity|]. split; [apply length_insert|]. intros j Hj.
      rewrite bk_set_off by lia. repeat case_decide; subst; try lia; done.
    + assert (Him : i < m) by (destruct (Z.eq_dec i m); [subst; lia|lia]).
      rewrite next_pos by done. rewrite <- Z.add_assoc.
      set (B1 := set B ((a + i) mod bucket_count B) b).
      assert (Hc : bucket_count B1 = bucket_count B) by apply count_set.
      assert (H1 : forall j, 0 <= j < bucket_count B -> bk B1 (a + j) = if decide (i = j) then b else bk B (a + j))
        by (intros j Hj; apply bk_set_off; lia).
      destruct (IH B1 (inc_bucket (bk B (a + i))) (i + 1)) as (B' & HB' & Hlen & Hbk); rewrite ?Hc; try lia.
      * intros j Hj. rewrite H1 by lia. case_decide; [lia|]. apply Hne. lia.
      * rewrite H1 by lia. case_decide; [lia|done].
      * rewrite Hc in HB', Hbk. exists B'. split; [exact HB'|].
        split; [rewrite Hlen; apply length_insert|]. intros j Hj. rewrite Hbk by done.
        destruct (decide (j < i + 1)) as [Hj1|Hj1].
        { rewrite H1 by lia. repeat case_decide; subst; try lia; done. }
        destruct (decide (j = i + 1)) as [->|Hj2].
        { repeat case_decide; try lia. do 3 f_equal. lia. }
        rewrite !H1 by lia. repeat case_decide; try lia; done.
Qed.

(** ** The invariant *)

(** The word of a hash at a distance from its original bucket. *)
Definition word (h j : Z) : Z := Bucket_dist_inc * (j + 1) + h mod 256.

Lemma word_mod h j : word h j = 256 * (j + 1) + h mod 256.
Proof. done. Qed.

Lemma word_bounds h j : 256 * (j + 1) <= word h j < 256 * (j + 2).
Proof. unfold word, Bucket_dist_inc. pose proof (Z.mod_pos_bound h 256 ltac:(lia)). lia. Qed.

Lemma lor_byte r : 0 <= r < 256 -> Z.lor 256 r = 256 + r.
Proof.
  intros Hr. assert (Hall : forallb (fun r => Z.lor 256 r =? 256 + r) (seqZ 0 256) = true) by by vm_compute.
  rewrite forallb_forall in Hall. apply Z.eqb_eq, Hall, list_elem_of_In, elem_of_seqZ. lia.
Qed.

Lemma first_word h : dist_and_fingerprint_from_hash h = word h 0.
Proof.
  unfold dist_and_fingerprint_from_hash, fingerprint_mask, Bucket_dist_inc, wrap32, word.
  change (256 - 1) with (Z.ones 8). rewrite Z.land_ones by lia. change (2 ^ 8) with 256.
  rewrite Z.mod_mod_divide by by exists (2 ^ 24).
  apply lor_byte, Z.mod_pos_bound. lia.
Qed.

(** A word with room for one more step. *)
Lemma inc_word h j : 0 <= j -> j < 2 ^ 24 - 2 -> dist_inc (word h j) = word h (j + 1).
Proof.
  intros H0 Hj. unfold dist_inc, wrap32. pose proof (word_bounds h j) as Hb. rewrite Z.mod_small by (unfold Bucket_dist_inc; lia).
  unfold word, Bucket_dist_inc. lia.
Qed.

Section Invariant.
Context (sh : Z).

Definition home (h : Z) : Z := bucket_idx_from_hash sh h.

(** [M]: the hash of the key of each value index in the ring. *)
Record ring (B : list bucket) (M : gmap Z Z) : Prop := {
  r_count : 0 < bucket_count B < 2 ^ 32;
  r_home v h : M !! v = Some h -> 0 <= home h < bucket_count B;
  r_place p : dist_of (bk B p) <> 0 -> exists h j, M !! idx_of (bk B p) = Some h /\ 0 <= j < bucket_count B /\
    p mod bucket_count B = (home h + j) mod bucket_count B /\ dist_of (bk B p) = word h j;
  r_all v : is_Some (M !! v) -> exists p, dist_of (bk B p) <> 0 /\ idx_of (bk B p) = v;
  r_inj p q : dist_of (bk B p) <> 0 -> dist_of (bk B q) <> 0 -> idx_of (bk B p) = idx_of (bk B q) ->
    p mod bucket_count B = q mod bucket_count B;
  r_robin p : dist_of (bk B p) < 512 \/ dist_of (bk B p) <= dist_of (bk B (p - 1)) + 256 }.

(** Fewer values than buckets, and few enough for the width of the distance. *)
Definition room (B : list bucket) (M : gmap Z Z) : Prop :=
  Z.of_nat (size M) < bucket_count B /\ Z.of_nat (size M) < 2 ^ 24 - 4.

Section Facts.
Context B M (Hr : ring B M).
Abbreviation n := (bucket_count B).

Lemma dist_nonneg p : 0 <= dist_of (bk B p).
Proof.
  destruct (Z.eq_dec (dist_of (bk B p)) 0) as [->|Hne]; [done|].
  destruct (r_place _ _ Hr p Hne) as (h & j & _ & Hj & _ & ->). pose proof (word_bounds h j). lia.
Qed.

(** A run of occupied buckets is no longer than the number of values. *)
Lemma run_bound p k : 0 <= k <= n -> (forall i, 0 <= i < k -> dist_of (bk B (p + i)) <> 0) -> k <= Z.of_nat (size M).
Proof.
  intros Hk Hocc. pose proof (r_count _ _ Hr) as Hn.
  set (ps := seqZ 0 k). assert (Hnd : NoDup ((fun i => idx_of (bk B (p + i))) <$> ps)).
  { apply NoDup_fmap_2_strong; [|apply NoDup_seqZ]. intros i j Hi%elem_of_seqZ Hj%elem_of_seqZ E.
    apply (mod_offset_inj n p i j); [lia|lia|lia|]. apply (r_inj _ _ Hr); [apply Hocc; lia|apply Hocc; lia|done]. }
  assert (Hsub : (fun i => idx_of (bk B (p + i))) <$> ps ⊆ (map_to_list M).*1).
  { intros v (i & -> & Hi%elem_of_seqZ)%list_elem_of_fmap.
    destruct (r_place _ _ Hr (p + i) (Hocc i ltac:(lia))) as (h & j & Hh & _).
    apply list_elem_of_fmap. exists (idx_of (bk B (p + i)), h). split; [done|]. by apply elem_of_map_to_list. }
  pose proof (submseteq_length _ _ (NoDup_submseteq _ _ Hnd Hsub)) as Hlen.
  rewrite !length_fmap in Hlen. unfold ps in Hlen. rewrite length_seqZ in Hlen.
  rewrite length_map_to_list in Hlen. lia.
Qed.

(** The first empty bucket from a position. *)
Lemma first_empty p : Z.of_nat (size M) < n ->
  exists m, 0 <= m <= Z.of_nat (size M) /\ dist_of (bk B (p + m)) = 0 /\
    forall i, 0 <= i < m -> dist_of (bk B (p + i)) <> 0.
Proof.
  intros Hlt. destruct (first_such (fun i => dist_of (bk B (p + i)) = 0) (Z.of_nat (size M) + 1)) as [(m & Hm & Hz & Hne)|Hn].
  - exists m. split; [lia|done].
  - assert (Z.of_nat (size M) + 1 <= Z.of_nat (size M)); [|lia]. apply (run_bound p); [lia|done].
Qed.

(** From the original bucket of a value to its bucket. *)
Lemma on_the_way h j p : p mod n = (home h + j) mod n -> dist_of (bk B p) = word h j ->
  forall i, 0 <= i <= j -> word h i <= dist_of (bk B (home h + i)).
Proof.
  intros Hp Hd i [Hi Hij].
  assert (Hgen : forall k : nat, Z.of_nat k <= j -> word h (j - Z.of_nat k) <= dist_of (bk B (home h + (j - Z.of_nat k)))).
  { induction k as [|k IH]; intros Hk.
    - rewrite Z.sub_0_r. rewrite <- (bk_mod B _ _ Hp). lia.
    - specialize (IH ltac:(lia)). destruct (r_robin _ _ Hr (home h + (j - Z.of_nat k))) as [Hlt|Hle].
      + pose proof (word_bounds h (j - Z.of_nat k)). lia.
      + replace (home h + (j - Z.of_nat k) - 1) with (home h + (j - Z.of_nat (S k))) in Hle by lia.
        unfold word, Bucket_dist_inc in *. lia. }
  specialize (Hgen (Z.to_nat (j - i)) ltac:(lia)). rewrite Z2Nat.id in Hgen by lia.
  by replace (j - (j - i)) with i in Hgen by lia.
Qed.

(** Where a value is, and what is before it. *)
Lemma located v h : M !! v = Some h -> exists j, 0 <= j < Z.of_nat (size M) /\ j < n /\
  bk B (home h + j) = Bucket (word h j) v /\ forall i, 0 <= i <= j -> word h i <= dist_of (bk B (home h + i)).
Proof.
  intros Hv. destruct (r_all _ _ Hr v ltac:(by eexists)) as (p & Hp & Hi).
  destruct (r_place _ _ Hr p Hp) as (h' & j & Hh & Hj & Hpos & Hd). rewrite Hi, Hv in Hh. injection Hh as <-.
  pose proof (on_the_way h j p Hpos Hd) as Hway. exists j.
  assert (j + 1 <= Z.of_nat (size M)).
  { apply (run_bound (home h)); [lia|]. intros i Hi'. specialize (Hway i ltac:(lia)). pose proof (word_bounds h i). lia. }
  split; [lia|]. split; [lia|]. split; [|done]. rewrite <- (bk_mod B _ _ Hpos).
  destruct (bk B p) as [d v']. simpl in *. by subst.
Qed.

(** Distances are bounded by the number of values. *)
Lemma dist_bound p : dist_of (bk B p) < 256 * (Z.of_nat (size M) + 1).
Proof.
  destruct (Z.eq_dec (dist_of (bk B p)) 0) as [->|Hne]; [lia|].
  destruct (r_place _ _ Hr p Hne) as (h & j & Hh & Hj & Hpos & Hd). pose proof (on_the_way h j p Hpos Hd) as Hway.
  assert (j + 1 <= Z.of_nat (size M)).
  { apply (run_bound (home h)); [lia|]. intros i Hi'. specialize (Hway i ltac:(lia)). pose proof (word_bounds h i). lia. }
  pose proof (word_bounds h j). lia.
Qed.

(** A search that did not stop for [s] turns passed [s] occupied buckets. *)
Lemma passed_bound p w s : 0 <= s <= n -> (forall i, 0 <= i < s -> word w i <= dist_of (bk B (p + i))) ->
  s <= Z.of_nat (size M).
Proof.
  intros Hs Hp. apply (run_bound p); [lia|]. intros i Hi. specialize (Hp i Hi). pose proof (word_bounds w i). lia.
Qed.
End Facts.

Lemma mod_shift n x y k : 0 < n -> x mod n = y mod n -> (x + k) mod n = (y + k) mod n.
Proof. intros Hn E. by rewrite <- (Zplus_mod_idemp_l x), E, Zplus_mod_idemp_l. Qed.

(** *** A new value *)

Section Insert.
Context (B B' : list bucket) (M : gmap Z Z) (v h s m : Z).
Abbreviation n := (bucket_count B).
Abbreviation a := (home h + s).
Context (Hr : ring B M) (Hv : M !! v = None) (Hh : 0 <= home h < n).
Context (Hroom : Z.of_nat (size M) < n /\ Z.of_nat (size M) < 2 ^ 24 - 4).
Context (Hs : 0 <= s < n) (Hpass : forall i, 0 <= i < s -> word h i <= dist_of (bk B (home h + i))).
Context (Hstop : dist_of (bk B a) <= word h s).
Context (Hm : 0 <= m <= Z.of_nat (size M)) (Hz : dist_of (bk B (a + m)) = 0).
Context (Hocc : forall i, 0 <= i < m -> dist_of (bk B (a + i)) <> 0).
Context (En : bucket_count B' = n).
Context (H0 : bk B' (a + 0) = Bucket (word h s) v).
Context (H1 : forall j, 1 <= j <= m -> bk B' (a + j) = inc_bucket (bk B (a + (j - 1)))).
Context (H2 : forall j, m < j < n -> bk B' (a + j) = bk B (a + j)).

Lemma inc_dist p : dist_of (inc_bucket (bk B p)) = dist_of (bk B p) + 256.
Proof.
  pose proof (dist_bound B M Hr p) as Hd. pose proof (dist_nonneg B M Hr p). simpl. unfold dist_inc, wrap32, Bucket_dist_inc.
  apply Z.mod_small. lia.
Qed.

(** Where a position of the new ring comes from. *)
Lemma new_cases p : p mod n = (a + 0) mod n /\ bk B' p = Bucket (word h s) v \/
  (exists j, 1 <= j <= m /\ p mod n = (a + j) mod n /\ bk B' p = inc_bucket (bk B (a + (j - 1)))) \/
  (exists j, m < j < n /\ 1 <= j /\ p mod n = (a + j) mod n /\ bk B' p = bk B (a + j)).
Proof.
  destruct (mod_offset n a p ltac:(lia)) as (j & Hj & Hp).
  assert (Hb : bk B' p = bk B' (a + j)) by (apply bk_mod; by rewrite En).
  destruct (Z.eq_dec j 0) as [->|]; [left; by rewrite Hb|]. right.
  destruct (Z.le_gt_cases j m); [left|right]; exists j; rewrite Hb.
  - split; [lia|]. split; [done|]. apply H1. lia.
  - split; [lia|]. split; [lia|]. split; [done|]. apply H2. lia.
Qed.

Lemma new_place p : dist_of (bk B' p) <> 0 -> exists h' j, <[v := h]> M !! idx_of (bk B' p) = Some h' /\
  0 <= j < n /\ p mod n = (home h' + j) mod n /\ dist_of (bk B' p) = word h' j.
Proof.
  intros Hne. destruct (new_cases p) as [(Hp & ->)|[(j & Hj & Hp & Hb)|(j & Hj & _ & Hp & Hb)]].
  - exists h, s. rewrite lookup_insert_eq. split; [done|]. split; [done|]. by rewrite Z.add_0_r in Hp.
  - destruct (r_place _ _ Hr (a + (j - 1)) (Hocc (j - 1) ltac:(lia))) as (h' & j' & Hh' & Hj' & Hp' & Hd).
    pose proof (dist_bound B M Hr (a + (j - 1))) as Hbound. rewrite Hd in Hbound. pose proof (word_bounds h' j').
    rewrite Hb. unfold inc_bucket. cbn [m_value_idx m_dist_and_fingerprint]. exists h', (j' + 1). rewrite lookup_insert_ne by congruence.
    split; [done|]. split; [lia|]. split; [|rewrite Hd; apply inc_word; lia].
    rewrite Hp. apply (mod_shift n _ _ 1) in Hp'; [|lia].
    replace (a + (j - 1) + 1) with (a + j) in Hp' by lia. rewrite Hp'. f_equal. lia.
  - rewrite Hb in *. destruct (r_place _ _ Hr _ Hne) as (h' & j' & Hh' & Hj' & Hp' & Hd).
    exists h', j'. rewrite lookup_insert_ne by congruence. split; [done|]. split; [done|]. split; [congruence|done].
Qed.

Lemma new_all u : is_Some (<[v := h]> M !! u) -> exists p, dist_of (bk B' p) <> 0 /\ idx_of (bk B' p) = u.
Proof.
  intros Hu. destruct (Z.eq_dec v u) as [->|Hne].
  { exists (a + 0). rewrite H0. simpl. split; [|done]. pose proof (word_bounds h s). lia. }
  rewrite lookup_insert_ne in Hu by done. destruct (r_all _ _ Hr u Hu) as (p & Hp & Hi).
  destruct (mod_offset n a p ltac:(lia)) as (j & Hj & Hpj).
  assert (Hb : bk B p = bk B (a + j)) by by apply bk_mod. rewrite Hb in *.
  destruct (Z.lt_trichotomy j m) as [Hlt|[->|Hgt]]; [|done|].
  - exists (a + (j + 1)). rewrite H1 by lia. replace (j + 1 - 1) with j by lia. split; [|done].
    rewrite inc_dist. pose proof (dist_nonneg B M Hr (a + j)). lia.
  - exists (a + j). by rewrite H2 by lia.
Qed.

Lemma new_inj p q : dist_of (bk B' p) <> 0 -> dist_of (bk B' q) <> 0 -> idx_of (bk B' p) = idx_of (bk B' q) ->
  p mod n = q mod n.
Proof.
  assert (Hold : forall x, dist_of (bk B x) <> 0 -> idx_of (bk B x) <> v).
  { intros x Hx E. destruct (r_place _ _ Hr x Hx) as (h' & j' & Hh' & _). congruence. }
  assert (Hinj : forall i j, 0 <= i < n -> 0 <= j < n -> dist_of (bk B (a + i)) <> 0 -> dist_of (bk B (a + j)) <> 0 ->
    idx_of (bk B (a + i)) = idx_of (bk B (a + j)) -> i = j).
  { intros i j Hi Hj Hdi Hdj E. apply (mod_offset_inj n a i j); [lia|done|done|]. by apply (r_inj _ _ Hr). }
  assert (Hocc' : forall j, 1 <= j <= m -> dist_of (bk B (a + (j - 1))) <> 0) by (intros j Hj; apply Hocc; lia).
  intros Hp Hq E.
  destruct (new_cases p) as [(Ep & Hbp)|[(i & Hi & Ep & Hbp)|(i & Hi & Hi1 & Ep & Hbp)]],
    (new_cases q) as [(Eq & Hbq)|[(j & Hj & Eq & Hbq)|(j & Hj & Hj1 & Eq & Hbq)]]; rewrite Hbp, Hbq in E;
    rewrite Hbp in Hp; rewrite Hbq in Hq; simpl in E, Hp, Hq; rewrite Ep, Eq.
  - done.
  - by destruct (Hold (a + (j - 1)) (Hocc' j Hj)).
  - by destruct (Hold _ Hq).
  - by destruct (Hold (a + (i - 1)) (Hocc' i Hi)).
  - assert (i - 1 = j - 1); [|by replace i with j by lia].
    apply Hinj; [lia|lia|by apply Hocc'|by apply Hocc'|done].
  - assert (i - 1 = j); [|lia]. apply Hinj; [lia|lia|by apply Hocc'|done|done].
  - by destruct (Hold _ Hp).
  - assert (i = j - 1); [|lia]. apply Hinj; [lia|lia|done|by apply Hocc'|done].
  - assert (i = j) as ->; [|done]. apply Hinj; [lia|lia|done|done|done].
Qed.

Lemma new_robin p : dist_of (bk B' p) < 512 \/ dist_of (bk B' p) <= dist_of (bk B' (p - 1)) + 256.
Proof.
  assert (Hprev : forall j, p mod n = (a + j) mod n -> bk B' (p - 1) = bk B' (a + (j - 1))).
  { intros j Hj. apply bk_mod. rewrite En. replace (a + (j - 1)) with (a + j + - (1)) by lia. by apply mod_shift; [lia|]. }
  destruct (new_cases p) as [(Ep & ->)|[(j & Hj & Ep & Hb)|(j & Hj & Hj1 & Ep & Hb)]].
  - rewrite (Hprev 0 Ep). simpl. destruct (Z.eq_dec s 0) as [E|Hs0]; [left; pose proof (word_bounds h s); lia|]. right.
    specialize (Hpass (s - 1) ltac:(lia)).
    assert (Eprev : bk B' (a + (0 - 1)) = bk B' (a + (n - 1))).
    { apply bk_mod. rewrite En. replace (a + (n - 1)) with (a + (0 - 1) + 1 * n) by lia. by rewrite Z_mod_plus_full. }
    assert (Eold : bk B (home h + (s - 1)) = bk B (a + (n - 1))).
    { apply bk_mod. replace (a + (n - 1)) with (home h + (s - 1) + 1 * n) by lia. by rewrite Z_mod_plus_full. }
    rewrite Eprev. rewrite Eold in Hpass. pose proof (word_bounds h (s - 1)). unfold word, Bucket_dist_inc in *.
    destruct (Z.lt_trichotomy (n - 1) m) as [Hlt|[E|Hgt]]; [lia|rewrite E, Hz in Hpass; lia|].
    rewrite H2 by lia. lia.
  - rewrite Hb, (Hprev j Ep), inc_dist. destruct (Z.eq_dec j 1) as [->|Hj1].
    + replace (1 - 1) with 0 by lia. rewrite H0. simpl. right. rewrite Z.add_0_r. lia.
    + rewrite (H1 (j - 1)), inc_dist by lia. right.
      pose proof (Hocc (j - 1 - 1) ltac:(lia)) as Hne. destruct (r_robin _ _ Hr (a + (j - 1))) as [Hlt|Hle].
      * destruct (r_place _ _ Hr _ Hne) as (h' & j' & _ & Hj' & _ & Hd). pose proof (word_bounds h' j'). lia.
      * replace (a + (j - 1) - 1) with (a + (j - 1 - 1)) in Hle by lia. lia.
  - rewrite Hb, (Hprev j Ep). destruct (r_robin _ _ Hr (a + j)) as [Hlt|Hle]; [by left|].
    replace (a + j - 1) with (a + (j - 1)) in Hle by lia. destruct (Z.eq_dec j (m + 1)) as [->|Hj2].
    + left. replace (m + 1 - 1) with m in Hle by lia. rewrite Hz in Hle. lia.
    + rewrite (H2 (j - 1)) by lia. by right.
Qed.

Lemma new_ring : ring B' (<[v := h]> M).
Proof.
  constructor; rewrite ?En.
  - apply Hr.
  - intros u g Hu. destruct (Z.eq_dec v u) as [->|Hne].
    + rewrite lookup_insert_eq in Hu. by injection Hu as <-.
    + rewrite lookup_insert_ne in Hu by done. by apply (r_home _ _ Hr u).
  - exact new_place.
  - exact new_all.
  - exact new_inj.
  - exact new_robin.
Qed.
End Insert.

(** [place_and_shift_up] at the first bucket that is not farther from its own. *)
Lemma ring_place fuel B M v h s : ring B M -> M !! v = None -> 0 <= home h < bucket_count B -> room B M ->
  0 <= s < bucket_count B -> (forall i, 0 <= i < s -> word h i <= dist_of (bk B (home h + i))) ->
  dist_of (bk B (home h + s)) <= word h s -> bucket_count B <= Z.of_nat fuel ->
  exists B', place_and_shift_up fuel B (Bucket (word h s) v) ((home h + s) mod bucket_count B) = Ok B' /\
    ring B' (<[v := h]> M) /\ length B' = length B.
Proof.
  intros Hr Hv Hh [Hroom1 Hroom2] Hs Hpass Hstop Hf.
  destruct (first_empty B M Hr (home h + s) Hroom1) as (m & Hm & Hz & Hocc).
  destruct (place_moves fuel B (Bucket (word h s) v) (home h + s) 0 m) as (B' & HB' & Hlen & Hbk);
    [apply Hr|lia|lia|lia|intros j Hj; apply Hocc; lia|done|].
  rewrite Z.add_0_r in HB'. exists B'. split; [exact HB'|]. split; [|exact Hlen].
  apply (new_ring B B' M v h s m); try done.
  - unfold bucket_count. by rewrite Hlen.
  - rewrite Hbk by lia. by rewrite decide_False, decide_True by lia.
  - intros j Hj. rewrite Hbk by lia. by rewrite decide_False, decide_False, decide_True by lia.
  - intros j Hj. rewrite Hbk by lia. by rewrite !decide_False by lia.
Qed.

(** *** Where a search stops *)

Section Search.
Context (B : list bucket) (M : gmap Z Z) (Hr : ring B M) (Hroom : room B M) (h : Z) (Hh : 0 <= home h < bucket_count B).

Lemma home_pos : home h = (home h + 0) mod bucket_count B.
Proof. rewrite Z.add_0_r. symmetry. by apply Z.mod_small. Qed.

(** The first bucket from the [k]-th on at which the test of a loop holds. *)
Lemma first_stop (stop : Z -> Prop) `{!forall i, Decision (stop i)} k : 0 <= k ->
  (forall i, k <= i -> ~ stop i -> dist_of (bk B (home h + i)) <> 0) ->
  exists s, k <= s <= k + Z.of_nat (size M) /\ stop s /\ forall i, k <= i < s -> ~ stop i.
Proof.
  intros Hk Hocc. pose proof (r_count _ _ Hr) as Hn. destruct Hroom as [Hroom1 _].
  destruct (first_such (fun i => stop (k + i)) (Z.of_nat (size M) + 1)) as [(i & Hi & Hst & Hbefore)|Hnone].
  - exists (k + i). split; [lia|]. split; [done|]. intros j Hj. specialize (Hbefore (j - k) ltac:(lia)).
    by replace (k + (j - k)) with j in Hbefore by lia.
  - assert (Z.of_nat (size M) + 1 <= Z.of_nat (size M)); [|lia]. apply (run_bound B M Hr (home h + k)); [lia|].
    intros i Hi. rewrite <- Z.add_assoc. apply Hocc; [lia|]. by apply Hnone.
Qed.

(** The loop of [next_while_less] from its [j]-th turn to the one it stops at. *)
Lemma next_while_less_run fuel j s : 0 <= j <= s -> s <= Z.of_nat (size M) -> s - j <= Z.of_nat fuel ->
  (forall i, j <= i < s -> word h i < dist_of (bk B (home h + i))) -> dist_of (bk B (home h + s)) <= word h s ->
  next_while_less fuel B (word h j) ((home h + j) mod bucket_count B) = Ok (Bucket (word h s) ((home h + s) mod bucket_count B)).
Proof.
  destruct Hroom as [Hroom1 Hroom2]. pose proof (r_count _ _ Hr) as Hn. revert j.
  induction fuel as [|fuel IH]; intros j Hj Hs Hf Hpass Hstop; cbn [next_while_less]; rewrite get_bk by done; cbn [rbind].
  - assert (j = s) as -> by lia. by destruct (Z.ltb_spec (word h s) (dist_of (bk B (home h + s)))); [lia|].
  - destruct (Z.ltb_spec (word h j) (dist_of (bk B (home h + j)))) as [Hlt|Hge].
    + assert (j <> s) by (intros ->; lia). rewrite inc_word, next_pos by (done || lia). rewrite <- Z.add_assoc.
      apply IH; [lia|lia|lia|intros i Hi; apply Hpass; lia|done].
    + assert (j = s) as ->; [|done]. destruct (Z.eq_dec j s); [done|]. specialize (Hpass j ltac:(lia)). lia.
Qed.

Lemma next_while_less_stops fuel : Z.of_nat (size M) <= Z.of_nat fuel ->
  exists s, 0 <= s <= Z.of_nat (size M) /\ (forall i, 0 <= i < s -> word h i < dist_of (bk B (home h + i))) /\
    dist_of (bk B (home h + s)) <= word h s /\
    next_while_less fuel B (word h 0) (home h) = Ok (Bucket (word h s) ((home h + s) mod bucket_count B)).
Proof.
  intros Hf. destruct (first_stop (fun i => dist_of (bk B (home h + i)) <= word h i) 0) as (s & Hs & Hstop & Hpass); [lia| |].
  - intros i Hi Hn. pose proof (word_bounds h i). lia.
  - exists s. split; [lia|]. split; [intros i Hi; specialize (Hpass i ltac:(lia)); lia|]. split; [done|].
    rewrite home_pos at 1. apply next_while_less_run; [lia|lia|lia| |done].
    intros i Hi. specialize (Hpass i ltac:(lia)). lia.
Qed.
End Search.
End Invariant.
