(* ===== verification/DenseProof.v ===== *)
(** * The hash table is a finite map

    The operations of [table] ([tl2/ankerl/unordered_dense.h]) against the finite
    map of its pairs, for tables of fewer than 2^24 - 5 pairs: beyond, the
    distance of a bucket could exceed the 24 bits it is packed in. *)

From S2P Require Import Prelude DenseTable DenseRing.
Import Dense.
#[local] Open Scope tl2_scope.

Section Proof.
Context {K V : Type} `{EqDecision K} (mixed_hash : K -> Z).
Implicit Types (t : table K V) (vs : list (K * V)) (M : gmap Z Z).

(** The hash of the key of each value index. *)
Definition hashes vs : gmap Z Z := map_seqZ 0 ((fun kv => mixed_hash kv.1) <$> vs).

Lemma lookup_hashes vs v h : hashes vs !! v = Some h <->
  exists kv, 0 <= v /\ vs !! Z.to_nat v = Some kv /\ mixed_hash kv.1 = h.
Proof.
  unfold hashes. rewrite lookup_map_seqZ_Some, Z.sub_0_r, list_lookup_fmap, fmap_Some. naive_solver.
Qed.

Lemma hashes_snoc vs kv : hashes (vs ++ [kv]) = <[Z.of_nat (length vs) := mixed_hash kv.1]> (hashes vs).
Proof.
  unfold hashes. rewrite fmap_app. simpl. rewrite map_seqZ_snoc. by rewrite length_fmap, Z.add_0_l.
Qed.

Lemma hashes_fresh vs : hashes vs !! Z.of_nat (length vs) = None.
Proof.
  apply eq_None_not_Some. intros [h (kv & _ & Hv & _)%lookup_hashes]. apply lookup_lt_Some in Hv. lia.
Qed.

Lemma size_hashes vs : base.size (hashes vs) = length vs.
Proof.
  induction vs as [|kv vs IH] using rev_ind; [done|].
  rewrite hashes_snoc, map_size_insert_None, IH, length_app by apply hashes_fresh. simpl. lia.
Qed.

(** ** Searches *)

(** The values of a ring are values of the table. *)
Definition keyed t M : Prop := forall v h, M !! v = Some h ->
  exists kv, 0 <= v /\ m_values t !! Z.to_nat v = Some kv /\ mixed_hash kv.1 = h.

Section Search.
Context (t : table K V) (M : gmap Z Z) (key : K).
Abbreviation B := (m_buckets t).
Abbreviation h := (mixed_hash key).
Abbreviation hm := (home (m_shifts t) h).
Context (Hr : ring (m_shifts t) B M) (Hroom : room B M) (Hk : keyed t M) (Hh : 0 <= hm < bucket_count B).

(** The [i]-th bucket of the search is that of the key. *)
Definition match_at (i : Z) : Prop :=
  dist_of (bk B (hm + i)) = word h i /\ fst <$> m_values t !! Z.to_nat (idx_of (bk B (hm + i))) = Some key.

#[export] Instance match_at_dec i : Decision (match_at i).
Proof. unfold match_at. apply _. Defined.

Lemma matches_at i : 0 <= i -> matches t key (word h i) (bk B (hm + i)) = Ok (bool_decide (match_at i)).
Proof.
  intros Hi. unfold matches. destruct (Z.eqb_spec (word h i) (dist_of (bk B (hm + i)))) as [E|E].
  - assert (Hne : dist_of (bk B (hm + i)) <> 0) by (pose proof (word_bounds h i); lia).
    destruct (r_place _ _ _ Hr _ Hne) as (h' & j & Hh' & _). destruct (Hk _ _ Hh') as (kv & Hv0 & Hv & _).
    assert (Hm : key = kv.1 <-> match_at i) by (unfold match_at; rewrite Hv; naive_solver).
    unfold key_at, get. destruct (Z.ltb_spec (idx_of (bk B (hm + i))) 0); [lia|]. rewrite Hv. cbn [rbind].
    f_equal. by apply bool_decide_ext.
  - rewrite bool_decide_false; [done|]. intros [? _]. congruence.
Qed.

(** The search passes the buckets up to that of a key in the ring. *)
Lemma present v : M !! v = Some h -> fst <$> m_values t !! Z.to_nat v = Some key ->
  exists j, 0 <= j < Z.of_nat (base.size M) /\ match_at j /\ idx_of (bk B (hm + j)) = v /\
    forall i, 0 <= i <= j -> word h i <= dist_of (bk B (hm + i)).
Proof.
  intros Hv Hkey. destruct (located _ _ _ Hr v h Hv) as (j & Hj & _ & Hb & Hway).
  exists j. unfold match_at. rewrite Hb. simpl. split; [lia|]. split; [done|]. split; [done|]. exact Hway.
Qed.

(** [probe] from its [j]-th turn: it stops at a match, or where the next bucket is nearer. *)
Lemma probe_found fuel j s : 0 <= j <= s -> s < 2 ^ 24 - 2 -> s - j <= Z.of_nat fuel ->
  (forall i, j <= i <= s -> word h i <= dist_of (bk B (hm + i))) ->
  (forall i, j <= i < s -> ~ match_at i) -> match_at s ->
  probe fuel t key (word h j) ((hm + j) mod bucket_count B) = Ok (inl (idx_of (bk B (hm + s)))).
Proof.
  pose proof (r_count _ _ _ Hr) as Hn. revert j. induction fuel as [|fuel IH]; intros j Hj Hs Hf Hpass Hno Hm;
    cbn [probe]; rewrite get_bk by done; cbn [rbind];
    (destruct (Z.ltb_spec (dist_of (bk B (hm + j))) (word h j)); [specialize (Hpass j ltac:(lia)); lia|]);
    rewrite matches_at by lia; cbn [rbind]; destruct (Z.eq_dec j s) as [->|Hne];
    try (by rewrite bool_decide_true); [lia|].
  rewrite bool_decide_false by (apply Hno; lia). rewrite inc_word, next_pos by (done || lia). rewrite <- Z.add_assoc.
  apply IH; [lia|lia|lia|intros i Hi; apply Hpass; lia|intros i Hi; apply Hno; lia|done].
Qed.

Lemma probe_absent fuel j s : 0 <= j <= s -> s < 2 ^ 24 - 2 -> s - j <= Z.of_nat fuel ->
  (forall i, j <= i < s -> word h i <= dist_of (bk B (hm + i))) -> (forall i, j <= i < s -> ~ match_at i) ->
  dist_of (bk B (hm + s)) < word h s ->
  probe fuel t key (word h j) ((hm + j) mod bucket_count B) = Ok (inr (Bucket (word h s) ((hm + s) mod bucket_count B))).
Proof.
  pose proof (r_count _ _ _ Hr) as Hn. revert j. induction fuel as [|fuel IH]; intros j Hj Hs Hf Hpass Hno Hstop;
    cbn [probe]; rewrite get_bk by done; cbn [rbind];
    (destruct (Z.ltb_spec (dist_of (bk B (hm + j))) (word h j)) as [Hlt|Hge];
     [assert (j = s) as -> by (destruct (Z.eq_dec j s); [done|]; specialize (Hpass j ltac:(lia)); lia); done|]);
    destruct (Z.eq_dec j s) as [->|Hne]; try lia.
  rewrite matches_at by lia. cbn [rbind]. rewrite bool_decide_false by (apply Hno; lia).
  rewrite inc_word, next_pos by (done || lia). rewrite <- Z.add_assoc.
  apply IH; [lia|lia|lia|intros i Hi; apply Hpass; lia|intros i Hi; apply Hno; lia|done].
Qed.

(** [find_from] tests for a match first. *)
Lemma find_from_found fuel j s : 0 <= j <= s -> s < 2 ^ 24 - 2 -> s - j <= Z.of_nat fuel ->
  (forall i, j <= i < s -> word h i <= dist_of (bk B (hm + i))) ->
  (forall i, j <= i < s -> ~ match_at i) -> match_at s ->
  find_from fuel t key (word h j) ((hm + j) mod bucket_count B) = Ok (Some (idx_of (bk B (hm + s)))).
Proof.
  pose proof (r_count _ _ _ Hr) as Hn. revert j. induction fuel as [|fuel IH]; intros j Hj Hs Hf Hpass Hno Hm;
    cbn [find_from]; rewrite get_bk by done; cbn [rbind]; rewrite matches_at by lia; cbn [rbind];
    destruct (Z.eq_dec j s) as [->|Hne]; try (by rewrite bool_decide_true); [lia|].
  rewrite bool_decide_false by (apply Hno; lia).
  destruct (Z.ltb_spec (dist_of (bk B (hm + j))) (word h j)); [specialize (Hpass j ltac:(lia)); lia|].
  rewrite inc_word, next_pos by (done || lia). rewrite <- Z.add_assoc.
  apply IH; [lia|lia|lia|intros i Hi; apply Hpass; lia|intros i Hi; apply Hno; lia|done].
Qed.

Lemma find_from_absent fuel j s : 0 <= j <= s -> s < 2 ^ 24 - 2 -> s - j <= Z.of_nat fuel ->
  (forall i, j <= i < s -> word h i <= dist_of (bk B (hm + i))) -> (forall i, j <= i < s -> ~ match_at i) ->
  dist_of (bk B (hm + s)) < word h s ->
  find_from fuel t key (word h j) ((hm + j) mod bucket_count B) = Ok None.
Proof.
  pose proof (r_count _ _ _ Hr) as Hn. revert j. induction fuel as [|fuel IH]; intros j Hj Hs Hf Hpass Hno Hstop;
    cbn [find_from]; rewrite get_bk by done; cbn [rbind]; rewrite matches_at by lia; cbn [rbind];
    (rewrite bool_decide_false by (destruct (Z.eq_dec j s) as [->|]; [intros [? _]; lia|apply Hno; lia]));
    (destruct (Z.ltb_spec (dist_of (bk B (hm + j))) (word h j)) as [Hlt|Hge]; [done|]);
    (destruct (Z.eq_dec j s) as [->|Hne]; [lia|]); [lia|].
  rewrite inc_word, next_pos by (done || lia). rewrite <- Z.add_assoc.
  apply IH; [lia|lia|lia|intros i Hi; apply Hpass; lia|intros i Hi; apply Hno; lia|done].
Qed.

(** The first bucket, from the [k]-th on, that is nearer than the key would be. *)
Lemma first_nearer k : 0 <= k -> exists s, k <= s <= k + Z.of_nat (base.size M) /\ dist_of (bk B (hm + s)) < word h s /\
  forall i, k <= i < s -> word h i <= dist_of (bk B (hm + i)).
Proof.
  intros Hk0.
  destruct (first_stop (m_shifts t) B M Hr Hroom h (fun i => dist_of (bk B (hm + i)) < word h i) k) as (s & Hs & Hst & Hb);
    [done| |].
  - intros i Hi Hn. pose proof (word_bounds h i). lia.
  - exists s. split; [lia|]. split; [done|]. intros i Hi. specialize (Hb i Hi). lia.
Qed.

(** The first match from the [k]-th turn before the [s]-th, if any. *)
Lemma first_match k s : (exists i, k <= i < s /\ match_at i /\ forall j, k <= j < i -> ~ match_at j) \/
  (forall i, k <= i < s -> ~ match_at i).
Proof.
  destruct (first_such (fun i => match_at (k + i)) (s - k)) as [(i & Hi & Hm & Hno)|Hno].
  - left. exists (k + i). split; [lia|]. split; [done|]. intros j Hj. specialize (Hno (j - k) ltac:(lia)).
    by replace (k + (j - k)) with j in Hno by lia.
  - right. intros i Hi. specialize (Hno (i - k) ltac:(lia)). by replace (k + (i - k)) with i in Hno by lia.
Qed.

Lemma match_value i : 0 <= i -> match_at i -> exists kv, 0 <= idx_of (bk B (hm + i)) /\
  m_values t !! Z.to_nat (idx_of (bk B (hm + i))) = Some kv /\ kv.1 = key /\ is_Some (M !! idx_of (bk B (hm + i))).
Proof.
  intros Hi [E Hkey]. assert (Hne : dist_of (bk B (hm + i)) <> 0) by (pose proof (word_bounds h i); lia).
  destruct (r_place _ _ _ Hr _ Hne) as (h' & j & Hh' & _). destruct (Hk _ _ Hh') as (kv & Hv0 & Hv & _).
  exists kv. rewrite Hv in Hkey. simpl in Hkey. split; [done|]. split; [done|]. split; [congruence|by eexists].
Qed.

(** A search that ended without a match proves the key absent. *)
Lemma absent s : 0 <= s -> (forall i, 0 <= i < s -> ~ match_at i) -> dist_of (bk B (hm + s)) < word h s ->
  forall v, M !! v = Some h -> fst <$> m_values t !! Z.to_nat v <> Some key.
Proof.
  intros Hs Hno Hstop v Hv Hkey. destruct (present v Hv Hkey) as (j & Hj & Hm & _ & Hway).
  destruct (Z.lt_ge_cases j s) as [Hlt|Hge]; [exfalso; apply (Hno j); [lia|done]|]. specialize (Hway s ltac:(lia)). lia.
Qed.
End Search.

(** ** The invariant of the table *)

Record table_ok t : Prop := {
  ok_ring : ring (m_shifts t) (m_buckets t) (hashes (m_values t));
  ok_keys : NoDup (fst <$> m_values t);
  ok_hash : Forall (fun kv => W64.in_range (mixed_hash kv.1)) (m_values t);
  ok_shift : 39 <= m_shifts t <= 62;
  ok_count : bucket_count (m_buckets t) = 2 ^ (64 - m_shifts t);
  ok_cap : m_max_bucket_capacity t = load_capacity (bucket_count (m_buckets t));
  ok_full : Z.of_nat (length (m_values t)) <= m_max_bucket_capacity t }.

(** Room for one more pair. *)
Definition small t : Prop := Z.of_nat (length (m_values t)) < 2 ^ 24 - 5.

Lemma load_capacity_lt n : 0 < n -> 0 <= load_capacity n < n.
Proof. intros Hn. unfold load_capacity. split; [apply Z.div_pos; lia|apply Z.div_lt_upper_bound; lia]. Qed.

Lemma load_capacity_double n : 4 <= n -> load_capacity n + 1 <= load_capacity (2 * n).
Proof.
  intros Hn. unfold load_capacity. pose proof (Z.mod_pos_bound (n * 13421773) (2 ^ 24) ltac:(lia)).
  pose proof (Z.div_mod (n * 13421773) (2 ^ 24) ltac:(lia)). apply Z.div_le_lower_bound; lia.
Qed.

Lemma home_range sh x : 39 <= sh <= 62 -> W64.in_range x -> 0 <= home sh x < 2 ^ (64 - sh).
Proof.
  intros Hsh [Hx0 Hx1]. unfold W64.modulus in Hx1. unfold home, bucket_idx_from_hash, wrap32.
  rewrite Z.shiftr_div_pow2 by lia. assert (Hp : 0 < 2 ^ sh) by (apply Z.pow_pos_nonneg; lia).
  assert (Hlt : x / 2 ^ sh < 2 ^ (64 - sh)).
  { apply Z.div_lt_upper_bound; [done|]. rewrite <- Z.pow_add_r by lia. by replace (sh + (64 - sh)) with 64 by lia. }
  assert (Hle : 2 ^ (64 - sh) <= 2 ^ 25) by (apply Z.pow_le_mono_r; lia).
  assert (0 <= x / 2 ^ sh) by (apply Z.div_pos; lia). rewrite Z.mod_small by lia. lia.
Qed.

Lemma pow_bounds sh : 39 <= sh <= 62 -> 4 <= 2 ^ (64 - sh) <= 2 ^ 25.
Proof.
  intros Hsh. split; [change 4 with (2 ^ 2)|]; apply Z.pow_le_mono_r; lia.
Qed.

Lemma ok_room t : table_ok t -> small t -> room (m_buckets t) (hashes (m_values t)).
Proof.
  intros Ht Hs. unfold small in Hs. unfold room. rewrite size_hashes. split; [|lia].
  pose proof (ok_full _ Ht) as Hf. rewrite (ok_cap _ Ht) in Hf.
  pose proof (load_capacity_lt (bucket_count (m_buckets t)) ltac:(apply (ok_ring _ Ht))). lia.
Qed.

Lemma keyed_values t vs : (forall i kv, vs !! i = Some kv -> m_values t !! i = Some kv) -> keyed t (hashes vs).
Proof.
  intros Hsub v x (kv & Hv0 & Hv & Hx)%lookup_hashes. exists kv. split; [done|]. split; [by apply Hsub|done].
Qed.

Lemma ok_home t key : table_ok t -> W64.in_range (mixed_hash key) ->
  0 <= home (m_shifts t) (mixed_hash key) < bucket_count (m_buckets t).
Proof. intros Ht Hx. rewrite (ok_count _ Ht). apply home_range; [apply Ht|done]. Qed.

(** A key that no indexed value has is not a key. *)
Lemma not_key t vs key : (forall i kv, vs !! i = Some kv -> m_values t !! i = Some kv) ->
  (forall v, hashes vs !! v = Some (mixed_hash key) -> fst <$> m_values t !! Z.to_nat v <> Some key) -> key ∉ fst <$> vs.
Proof.
  intros Hsub Hno (kv & -> & Hin)%list_elem_of_fmap. apply list_elem_of_lookup in Hin as [i Hi].
  apply (Hno (Z.of_nat i)).
  - apply lookup_hashes. exists kv. rewrite Nat2Z.id. split; [lia|done].
  - rewrite Nat2Z.id, (Hsub _ _ Hi). done.
Qed.

(** ** Lookup *)

Lemma do_find_spec t key : table_ok t -> small t -> W64.in_range (mixed_hash key) ->
  (exists v kv, do_find mixed_hash t key = Ok (Some v) /\ 0 <= v /\ m_values t !! Z.to_nat v = Some kv /\ kv.1 = key) \/
  (do_find mixed_hash t key = Ok None /\ key ∉ fst <$> m_values t).
Proof.
  intros Ht Hs Hx. pose proof (ok_ring _ Ht) as Hr. pose proof (ok_room _ Ht Hs) as Hroom.
  pose proof (keyed_values t (m_values t) (fun _ _ E => E)) as Hk. pose proof (ok_home _ _ Ht Hx) as Hh.
  pose proof (r_count _ _ _ Hr) as Hn. unfold do_find, empty, Dense.size.
  destruct (Z.eqb_spec (Z.of_nat (length (m_values t))) 0) as [E|E].
  { right. split; [done|]. destruct (m_values t); [apply not_elem_of_nil|done]. }
  rewrite first_word. set (x := mixed_hash key) in *. set (hm := home (m_shifts t) x) in *.
  assert (Ei : bucket_idx_from_hash (m_shifts t) x = (hm + 0) mod bucket_count (m_buckets t))
    by (by apply home_pos). rewrite Ei.
  assert (Hmat : forall i, 0 <= i -> matches t key (word x i) (bk (m_buckets t) (hm + i)) = Ok (bool_decide (match_at t key i)))
    by (intros i Hi; exact (matches_at t _ key Hr Hk Hh i Hi)).
  rewrite get_bk by done. cbn [rbind]. rewrite Hmat by lia. cbn [rbind].
  destruct (bool_decide_reflect (match_at t key 0)) as [H0|H0].
  { left. destruct (match_value t _ key Hr Hk 0 ltac:(lia) H0) as (kv & ? & ? & ? & _). eauto 10. }
  rewrite next_pos, inc_word by (done || lia). rewrite <- !Z.add_assoc. change (0 + 1) with 1.
  rewrite get_bk by done. cbn [rbind]. rewrite Hmat by lia. cbn [rbind].
  destruct (bool_decide_reflect (match_at t key 1)) as [H1|H1].
  { left. destruct (match_value t _ key Hr Hk 1 ltac:(lia) H1) as (kv & ? & ? & ? & _). eauto 10. }
  rewrite next_pos, inc_word by (done || lia). rewrite <- !Z.add_assoc. change (1 + 1) with 2.
  destruct (first_nearer t _ key Hr Hroom 2 ltac:(lia)) as (s & Hsr & Hstop & Hpass).
  rewrite size_hashes in Hsr. unfold small in Hs. pose proof (ok_room _ Ht Hs) as [Hlt _]. rewrite size_hashes in Hlt.
  assert (Hfuel : Z.of_nat (fuel_of t) = bucket_count (m_buckets t) + 3) by (unfold fuel_of, bucket_count; lia).
  destruct (first_match t key 2 s) as [(i & Hi & Hm & Hno)|Hno].
  - left. destruct (match_value t _ key Hr Hk i ltac:(lia) Hm) as (kv & Hv0 & Hv & Hkey & _).
    exists (idx_of (bk (m_buckets t) (hm + i))), kv. split; [|done].
    apply (find_from_found t _ key Hr Hk Hh (fuel_of t) 2 i); [lia|lia|lia|intros ? ?; apply Hpass; lia|exact Hno|exact Hm].
  - right. split; [apply (find_from_absent t _ key Hr Hk Hh (fuel_of t) 2 s); [lia|lia|lia|exact Hpass|exact Hno|exact Hstop]|].
    apply (not_key t (m_values t)); [done|]. apply (absent t _ key Hr s); [lia| |exact Hstop].
    intros i Hi. destruct (Z.eq_dec i 0) as [->|]; [done|]. destruct (Z.eq_dec i 1) as [->|]; [done|]. apply Hno. lia.
Qed.

(** ** Insertion *)

(** Where a new bucket of the key goes. *)
Definition spot t vs (key : K) (s : Z) : Prop :=
  let x := mixed_hash key in
  0 <= s <= Z.of_nat (length vs) /\
  (forall i, 0 <= i < s -> word x i <= dist_of (bk (m_buckets t) (home (m_shifts t) x + i))) /\
  dist_of (bk (m_buckets t) (home (m_shifts t) x + s)) <= word x s.

Definition spot_bucket t (key : K) (s : Z) : bucket :=
  let x := mixed_hash key in Bucket (word x s) ((home (m_shifts t) x + s) mod bucket_count (m_buckets t)).

(** What the loops need of a table whose ring has the values [vs]. *)
Record filled t vs : Prop := {
  f_ring : ring (m_shifts t) (m_buckets t) (hashes vs);
  f_room : room (m_buckets t) (hashes vs);
  f_prefix i kv : vs !! i = Some kv -> m_values t !! i = Some kv }.

Lemma fuel_count t : Z.of_nat (fuel_of t) = bucket_count (m_buckets t) + 3.
Proof. unfold fuel_of, bucket_count. lia. Qed.

Lemma hash_probe_spec t vs key : filled t vs ->
  0 <= home (m_shifts t) (mixed_hash key) < bucket_count (m_buckets t) ->
  (exists v kv, hash_probe mixed_hash t key = Ok (inl v) /\ 0 <= v < Z.of_nat (length vs) /\
     vs !! Z.to_nat v = Some kv /\ kv.1 = key) \/
  (exists s, hash_probe mixed_hash t key = Ok (inr (spot_bucket t key s)) /\ spot t vs key s /\ key ∉ fst <$> vs).
Proof.
  intros [Hr Hroom Hpre] Hh. pose proof (keyed_values t vs Hpre) as Hk. unfold hash_probe. rewrite first_word.
  destruct (first_nearer t _ key Hr Hroom 0 ltac:(lia)) as (s & Hsr & Hstop & Hpass).
  pose proof Hroom as [Hlt Hsmall]. rewrite size_hashes in Hsr, Hlt, Hsmall. pose proof (fuel_count t) as Hfuel.
  pose proof (home_pos (m_shifts t) (m_buckets t) (mixed_hash key) Hh) as Ei. unfold home in Ei at 1. rewrite Ei.
  destruct (first_match t key 0 s) as [(i & Hi & Hm & Hno)|Hno].
  - left. destruct (match_value t _ key Hr Hk i ltac:(lia) Hm) as (kv & Hv0 & Hv & Hkey & [x Hx]).
    apply lookup_hashes in Hx as (kv' & _ & Hv' & _). exists (idx_of (bk (m_buckets t) (home (m_shifts t) (mixed_hash key) + i))), kv'.
    split; [apply (probe_found t _ key Hr Hk Hh (fuel_of t) 0 i); [lia|lia|lia|intros ? ?; apply Hpass; lia|exact Hno|exact Hm]|].
    pose proof (lookup_lt_Some _ _ _ Hv'). apply Hpre in Hv' as Hv''. rewrite Hv in Hv''. injection Hv'' as <-.
    split; [lia|]. by split.
  - right. exists s. split; [apply (probe_absent t _ key Hr Hk Hh (fuel_of t) 0 s); [lia|lia|lia|exact Hpass|exact Hno|exact Hstop]|].
    split; [split; [lia|]; split; [exact Hpass|lia]|].
    apply (not_key t vs); [exact Hpre|]. by apply (absent t _ key Hr s); [lia| |].
Qed.

(** [next_while_less] finds such a spot too. *)
Lemma hash_next_while_less_spec t vs key : filled t vs ->
  0 <= home (m_shifts t) (mixed_hash key) < bucket_count (m_buckets t) ->
  exists s, hash_next_while_less mixed_hash t key = Ok (spot_bucket t key s) /\ spot t vs key s.
Proof.
  intros [Hr Hroom Hpre] Hh. unfold hash_next_while_less. rewrite first_word.
  destruct (next_while_less_stops (m_shifts t) (m_buckets t) _ Hr Hroom (mixed_hash key) Hh (fuel_of t))
    as (s & Hs & Hpass & Hstop & Hrun).
  { rewrite fuel_count. destruct Hroom. lia. }
  exists s. split; [exact Hrun|]. rewrite size_hashes in Hs. split; [lia|]. split; [|exact Hstop].
  intros i Hi. specialize (Hpass i Hi). lia.
Qed.

Lemma place_spot t vs key (v : V) s : filled t vs ->
  0 <= home (m_shifts t) (mixed_hash key) < bucket_count (m_buckets t) -> spot t vs key s ->
  exists B', place_and_shift_up (fuel_of t) (m_buckets t)
      (Bucket (m_dist_and_fingerprint (spot_bucket t key s)) (Z.of_nat (length vs))) (m_value_idx (spot_bucket t key s)) = Ok B' /\
    ring (m_shifts t) B' (hashes (vs ++ [(key, v)])) /\ length B' = length (m_buckets t).
Proof.
  intros [Hr Hroom Hpre] Hh (Hs & Hpass & Hstop). pose proof Hroom as [Hlt _]. rewrite size_hashes in Hlt.
  destruct (ring_place (m_shifts t) (fuel_of t) (m_buckets t) (hashes vs) (Z.of_nat (length vs)) (mixed_hash key) s)
    as (B' & HB' & Hr' & Hlen); try done; [apply hashes_fresh|lia|rewrite fuel_count; lia|].
  exists B'. rewrite hashes_snoc. by split.
Qed.

(** Filling the buckets from the values. *)
Lemma fill_from_spec t vs rest : m_values t = vs ++ rest -> ring (m_shifts t) (m_buckets t) (hashes vs) ->
  Z.of_nat (length (m_values t)) < bucket_count (m_buckets t) -> Z.of_nat (length (m_values t)) < 2 ^ 24 - 4 ->
  Forall (fun kv => 0 <= home (m_shifts t) (mixed_hash kv.1) < bucket_count (m_buckets t)) rest ->
  exists B, fill_from mixed_hash t rest (Z.of_nat (length vs)) = Ok (set_buckets t B) /\
    ring (m_shifts t) B (hashes (m_values t)) /\ length B = length (m_buckets t).
Proof.
  revert t vs. induction rest as [|[key v] rest IH]; intros t vs Ev Hr Hn Hsmall Hh.
  - exists (m_buckets t). rewrite app_nil_r in Ev. rewrite Ev. split; [by destruct t|done].
  - apply Forall_cons in Hh as [Hh Hhs].
    assert (Hfill : filled t vs).
    { constructor; [done| |intros i kv Hi; rewrite Ev; by apply lookup_app_l_Some].
      unfold room. rewrite size_hashes. rewrite Ev, length_app in Hn, Hsmall. simpl in *. lia. }
    cbn [fill_from]. destruct (hash_next_while_less_spec t vs key Hfill Hh) as (s & -> & Hs). cbn [rbind].
    destruct (place_spot t vs key v s Hfill Hh Hs) as (B' & -> & Hr' & Hlen). cbn [rbind].
    assert (Hc : bucket_count B' = bucket_count (m_buckets t)) by (unfold bucket_count; by rewrite Hlen).
    destruct (IH (set_buckets t B') (vs ++ [(key, v)])) as (B & HB & HrB & HlenB); simpl; rewrite ?Hc; try done.
    + by rewrite <- app_assoc.
    + rewrite length_app in HB. simpl in HB. replace (Z.of_nat (length vs) + 1) with (Z.of_nat (length vs + 1)) by lia.
      exists B. split; [exact HB|]. split; [exact HrB|]. by rewrite HlenB.
Qed.

Lemma bk_empty n p : bk (replicate n (Bucket 0 0)) p = Bucket 0 0.
Proof.
  unfold bk. destruct (decide (Z.to_nat (p mod bucket_count (replicate n (Bucket 0 0))) < n)%nat) as [Hlt|Hge].
  - by apply lookup_total_replicate_2.
  - rewrite list_lookup_total_alt, lookup_ge_None_2; [done|]. rewrite length_replicate. lia.
Qed.

Lemma ring_empty sh n : 0 < Z.of_nat n < 2 ^ 32 -> ring sh (replicate n (Bucket 0 0)) ∅.
Proof.
  intros Hn. constructor.
  - unfold bucket_count. by rewrite length_replicate.
  - intros v x Hv. by rewrite lookup_empty in Hv.
  - intros p. by rewrite bk_empty.
  - intros v [x Hv]. by rewrite lookup_empty in Hv.
  - intros p q. by rewrite bk_empty.
  - intros p. rewrite bk_empty. left. simpl. lia.
Qed.

(** Allocation from nothing. *)
Lemma allocate_fresh vs c sh : 39 <= sh <= 62 ->
  allocate_buckets_from_shift (Table vs [] c sh) =
    Table vs (replicate (Z.to_nat (2 ^ (64 - sh))) (Bucket 0 0)) (load_capacity (2 ^ (64 - sh))) sh.
Proof.
  intros Hsh. pose proof (pow_bounds _ Hsh) as Hn4. pose proof (load_capacity_lt (2 ^ (64 - sh)) ltac:(lia)) as Hcap.
  unfold allocate_buckets_from_shift, calc_num_buckets, resize, max_bucket_count.
  cbn [m_values m_buckets m_shifts]. rewrite Z.min_r by lia. destruct (Z.eqb_spec (2 ^ (64 - sh)) (2 ^ 32)); [lia|].
  rewrite take_nil. simpl app. rewrite Nat.sub_0_r. unfold wrap32. by rewrite Z.mod_small by lia.
Qed.

(** The bucket array made anew for [sh], and filled. *)
Lemma rebuild_spec t sh c : NoDup (fst <$> m_values t) -> Forall (fun kv => W64.in_range (mixed_hash kv.1)) (m_values t) ->
  39 <= sh <= 62 -> Z.of_nat (length (m_values t)) <= load_capacity (2 ^ (64 - sh)) -> Z.of_nat (length (m_values t)) < 2 ^ 24 - 4 ->
  exists t', clear_and_fill_buckets_from_values mixed_hash
      (allocate_buckets_from_shift (deallocate_buckets (Table (m_values t) (m_buckets t) c sh))) = Ok t' /\
    m_values t' = m_values t /\ table_ok t'.
Proof.
  intros Hnd Hhash Hsh Hfull Hsmall. pose proof (pow_bounds _ Hsh) as Hn4. set (n := 2 ^ (64 - sh)) in *.
  pose proof (load_capacity_lt n ltac:(lia)) as Hcap.
  unfold clear_and_fill_buckets_from_values, deallocate_buckets. cbn [m_values m_shifts].
  rewrite allocate_fresh by done. fold n. unfold clear_buckets, set_buckets.
  cbn [m_values m_buckets m_max_bucket_capacity m_shifts]. rewrite length_replicate.
  assert (Hlen : bucket_count (replicate (Z.to_nat n) (Bucket 0 0)) = n)
    by (unfold bucket_count; rewrite length_replicate; lia).
  edestruct (fill_from_spec (Table (m_values t) (replicate (Z.to_nat n) (Bucket 0 0)) (load_capacity n) sh)
    [] (m_values t)) as (B & HB & HrB & HlenB); cbn [m_values m_buckets m_max_bucket_capacity m_shifts].
  - done.
  - apply ring_empty. lia.
  - rewrite Hlen. lia.
  - lia.
  - rewrite Hlen. eapply Forall_impl; [exact Hhash|]. intros kv Hkv. by apply home_range.
  - eexists. split; [exact HB|]. split; [done|].
    assert (HcB : bucket_count B = n) by (rewrite <- Hlen; unfold bucket_count; by rewrite HlenB).
    constructor; cbn [m_values m_buckets m_max_bucket_capacity m_shifts set_buckets]; by rewrite ?HcB.
Qed.

(** A table with an emptied ring of the next size. *)
Lemma increase_size_spec t : NoDup (fst <$> m_values t) -> Forall (fun kv => W64.in_range (mixed_hash kv.1)) (m_values t) ->
  39 <= m_shifts t <= 62 -> bucket_count (m_buckets t) = 2 ^ (64 - m_shifts t) ->
  m_max_bucket_capacity t = load_capacity (bucket_count (m_buckets t)) ->
  Z.of_nat (length (m_values t)) = m_max_bucket_capacity t + 1 -> Z.of_nat (length (m_values t)) < 2 ^ 24 - 4 ->
  exists t', increase_size mixed_hash t = Ok t' /\ m_values t' = m_values t /\ table_ok t'.
Proof.
  intros Hnd Hhash Hsh Hcount Hcap Hfull Hsmall. set (n := 2 ^ (64 - m_shifts t)) in *.
  pose proof (pow_bounds _ Hsh : 4 <= n <= 2 ^ 25) as Hn4. rewrite Hcount in Hcap.
  (* at 2^25 buckets the capacity is above 2^24 *)
  assert (Hsh' : 40 <= m_shifts t).
  { destruct (Z.eq_dec (m_shifts t) 39) as [E|]; [|lia]. unfold n in Hcap. rewrite E in Hcap.
    change (load_capacity (2 ^ (64 - 39))) with 26843546 in Hcap. lia. }
  assert (En2 : 2 ^ (64 - (m_shifts t - 1)) = 2 * n)
    by (unfold n; replace (64 - (m_shifts t - 1)) with (Z.succ (64 - m_shifts t)) by lia; rewrite Z.pow_succ_r by lia; done).
  pose proof (load_capacity_double n ltac:(lia)) as Hdouble. pose proof (load_capacity_lt n ltac:(lia)) as Hcap1.
  unfold increase_size. rewrite Hcap. unfold max_bucket_count. destruct (Z.eqb_spec (load_capacity n) (2 ^ 32)); [lia|].
  apply rebuild_spec; [done|done|lia| |lia]. rewrite En2. lia.
Qed.

Lemma place_back_spec t key (v : V) s : table_ok t -> small t -> W64.in_range (mixed_hash key) ->
  key ∉ fst <$> m_values t -> spot t (m_values t) key s ->
  exists t', place_back mixed_hash (set_values t (m_values t ++ [(key, v)])) (spot_bucket t key s) =
      Ok (t', (Z.of_nat (length (m_values t)), true)) /\
    table_ok t' /\ m_values t' = m_values t ++ [(key, v)].
Proof.
  intros Ht Hs Hx Hkey Hspot. pose proof (ok_room t Ht Hs) as Hroom. pose proof Hs as Hs'. unfold small in Hs'.
  pose proof (ok_home t key Ht Hx) as Hh.
  assert (Hnd : NoDup (fst <$> m_values t ++ [(key, v)])).
  { rewrite fmap_app. apply NoDup_app. split; [apply Ht|]. split; [|apply NoDup_singleton].
    intros k Hk Hk'%list_elem_of_singleton. by subst. }
  assert (Hhash : Forall (fun kv => W64.in_range (mixed_hash kv.1)) (m_values t ++ [(key, v)])).
  { apply Forall_app. split; [apply Ht|]. by constructor. }
  assert (Hidx : wrap32 (Dense.size (set_values t (m_values t ++ [(key, v)])) - 1) = Z.of_nat (length (m_values t))).
  { unfold Dense.size, wrap32. simpl. rewrite length_app. simpl. rewrite Z.mod_small; lia. }
  unfold place_back. rewrite Hidx. unfold is_full, Dense.size. cbn [m_values m_max_bucket_capacity set_values].
  rewrite length_app. cbn [length]. pose proof (ok_full _ Ht) as Hfull.
  destruct (Z.ltb_spec (m_max_bucket_capacity t) (Z.of_nat (length (m_values t) + 1))) as [Hover|Hok].
  - destruct (increase_size_spec (set_values t (m_values t ++ [(key, v)]))) as (t' & Hrun & Hval & Ht');
      cbn [m_values m_buckets m_max_bucket_capacity m_shifts set_values]; try apply Ht; try done.
    + rewrite length_app. simpl. lia.
    + rewrite length_app. simpl. lia.
    + exists t'. rewrite Hrun. cbn [rbind]. by split.
  - destruct (place_spot t (m_values t) key v s) as (B' & HB' & HrB & HlenB); [by constructor; [apply Ht| |]|done|done|].
    change (fuel_of (set_values t (m_values t ++ [(key, v)]))) with (fuel_of t).
    cbn [m_buckets set_values]. rewrite HB'. cbn [rbind]. eexists. split; [reflexivity|]. split; [|done].
    assert (HcB : bucket_count B' = bucket_count (m_buckets t)) by (unfold bucket_count; by rewrite HlenB).
    constructor; cbn [m_values m_buckets m_max_bucket_capacity m_shifts set_values set_buckets]; rewrite ?HcB; try apply Ht; try done.
    rewrite length_app. simpl. lia.
Qed.

Lemma set_values_id t : set_values t (m_values t) = t.
Proof. by destruct t. Qed.

(** What [emplace] and [try_emplace] end in: the index of the pair with the key,
    or a new pair. *)
Definition emplaced t key (v : V) (r : result (table K V * (Z * bool))) : Prop :=
  (exists i kv, r = Ok (t, (i, false)) /\ 0 <= i < Z.of_nat (length (m_values t)) /\
     m_values t !! Z.to_nat i = Some kv /\ kv.1 = key) \/
  (key ∉ fst <$> m_values t /\ exists t', r = Ok (t', (Z.of_nat (length (m_values t)), true)) /\
     table_ok t' /\ m_values t' = m_values t ++ [(key, v)]).

Lemma emplace_spec t key (v : V) : table_ok t -> small t -> W64.in_range (mixed_hash key) ->
  emplaced t key v (emplace mixed_hash t key v).
Proof.
  intros Ht Hs Hx. pose proof (ok_room t Ht Hs) as Hroom. pose proof (ok_home t key Ht Hx) as Hh.
  set (t1 := set_values t (m_values t ++ [(key, v)])).
  assert (Hf1 : filled t1 (m_values t)).
  { constructor; [apply Ht|exact Hroom|]. intros i kv Hi. by apply lookup_app_l_Some. }
  unfold emplace, emplaced. fold t1.
  destruct (hash_probe_spec t1 (m_values t) key Hf1 Hh) as [(i & kv & -> & Hi & Hv & Hkey)|(s & -> & Hspot & Hno)]; cbn [rbind].
  - left. exists i, kv. split; [|done]. assert (E : set_values t1 (removelast (m_values t1)) = t); [|by rewrite E].
    unfold t1. cbn [m_values set_values]. rewrite removelast_last. by destruct t.
  - right. split; [exact Hno|]. exact (place_back_spec t key v s Ht Hs Hx Hno Hspot).
Qed.

Lemma try_emplace_spec t key (v : V) : table_ok t -> small t -> W64.in_range (mixed_hash key) ->
  emplaced t key v (do_try_emplace mixed_hash t key v).
Proof.
  intros Ht Hs Hx. pose proof (ok_room t Ht Hs) as Hroom. pose proof (ok_home t key Ht Hx) as Hh.
  assert (Hf : filled t (m_values t)) by (by constructor; [apply Ht| |]). unfold do_try_emplace, emplaced.
  destruct (hash_probe_spec t (m_values t) key Hf Hh) as [(i & kv & -> & Hi & Hv & Hkey)|(s & -> & Hspot & Hno)]; cbn [rbind].
  - left. by exists i, kv.
  - right. split; [exact Hno|]. exact (place_back_spec t key v s Ht Hs Hx Hno Hspot).
Qed.

(** ** The constructor and [clear] *)

Lemma make_ok : table_ok (make : table K V).
Proof.
  unfold make, allocate_buckets_from_shift, initial_shifts, calc_num_buckets, resize, clear_buckets, set_buckets, max_bucket_count.
  change (Z.min (2 ^ 32) (2 ^ (64 - 62))) with 4. simpl. constructor; simpl.
  - exact (ring_empty 62 4 ltac:(lia)).
  - constructor.
  - constructor.
  - lia.
  - done.
  - done.
  - done.
Qed.

Lemma clear_ok t : table_ok t -> table_ok (clear t).
Proof.
  intros Ht. pose proof (ok_ring _ Ht) as Hr. pose proof (r_count _ _ _ Hr) as Hn.
  pose proof (load_capacity_lt (bucket_count (m_buckets t)) ltac:(lia)) as Hcap.
  unfold clear, clear_buckets, set_buckets, set_values. cbn [m_values m_buckets m_max_bucket_capacity m_shifts].
  assert (Hc : bucket_count (replicate (length (m_buckets t)) (Bucket 0 0)) = bucket_count (m_buckets t))
    by (unfold bucket_count; by rewrite length_replicate).
  constructor; cbn [m_values m_buckets m_max_bucket_capacity m_shifts]; rewrite ?Hc; try apply Ht.
  - apply ring_empty. exact Hn.
  - constructor.
  - constructor.
  - simpl. rewrite (ok_cap _ Ht). lia.
Qed.
End Proof.

Arguments table_ok {K V} mixed_hash t.
Arguments small {K V} t.

(** ** The finite map of a table *)

Section Map.
Context {K V : Type} `{Countable K} (mixed_hash : K -> Z).
Implicit Types (t : table K V).

Definition as_map t : gmap K V := list_to_map (m_values t).

Lemma as_map_lookup t i kv : NoDup (fst <$> m_values t) -> m_values t !! i = Some kv -> as_map t !! kv.1 = Some kv.2.
Proof.
  intros Hn Hi. unfold as_map. apply elem_of_list_to_map_1; [done|]. destruct kv. by eapply list_elem_of_lookup_2.
Qed.

Lemma as_map_none t key : key ∉ fst <$> m_values t -> as_map t !! key = None.
Proof. apply not_elem_of_list_to_map_1. Qed.

Lemma as_map_snoc t t' key v : key ∉ fst <$> m_values t -> m_values t' = m_values t ++ [(key, v)] ->
  as_map t' = <[key := v]> (as_map t).
Proof.
  intros Hk E. unfold as_map. rewrite E. clear E. induction (m_values t) as [|[k w] l IH]; [done|]. simpl in *.
  apply not_elem_of_cons in Hk as [Hne Hk]. rewrite IH by done. by apply insert_insert_ne.
Qed.

Lemma table_find_spec t key : table_ok mixed_hash t -> small t -> W64.in_range (mixed_hash key) ->
  find mixed_hash t key = Ok (as_map t !! key).
Proof.
  intros Ht Hs Hx. pose proof (ok_keys _ _ Ht) as Hnd. unfold find.
  destruct (do_find_spec mixed_hash t key Ht Hs Hx) as [(i & kv & -> & Hi & Hv & <-)|[-> Hno]]; cbn [rbind].
  - rewrite (get_spec _ _ _ Hi Hv). cbn [rbind]. by rewrite (as_map_lookup t (Z.to_nat i) kv).
  - by rewrite as_map_none.
Qed.

(** [C30] The hash table of the location set is a finite map.  From the constructor
    on, for keys with 64-bit hashes and up to 2^24 - 5 pairs (growth included),
    every operation ends: [find] and [contains] answer for the map; [emplace] and
    [try_emplace] leave it alone when the key is there, and add the pair, at the
    back of the values, when it is not; [clear] empties it.  The invariant of the
    table holds after each. *)
Theorem dense_refines_map :
  table_ok mixed_hash (make : table K V) /\ as_map make = ∅ /\
  forall t key (v : V), table_ok mixed_hash t -> small t -> W64.in_range (mixed_hash key) ->
  find mixed_hash t key = Ok (as_map t !! key) /\
  contains mixed_hash t key = Ok (bool_decide (is_Some (as_map t !! key))) /\
  (forall r, r = emplace mixed_hash t key v \/ r = do_try_emplace mixed_hash t key v ->
   exists t' i, r = Ok (t', (i, bool_decide (as_map t !! key = None))) /\ table_ok mixed_hash t' /\
     as_map t' = (if decide (as_map t !! key = None) then <[key := v]> (as_map t) else as_map t) /\
     exists w, m_values t' !! Z.to_nat i = Some (key, w) /\ as_map t' !! key = Some w) /\
  table_ok mixed_hash (clear t) /\ as_map (clear t) = ∅.
Proof.
  split; [apply make_ok|]. split; [done|]. intros t key v Ht Hs Hx.
  pose proof (ok_keys _ _ Ht) as Hnd.
  split; [|split; [|split; [|split; [by apply clear_ok|done]]]].
  - by apply table_find_spec.
  - unfold contains. destruct (do_find_spec mixed_hash t key Ht Hs Hx) as [(i & kv & -> & Hi & Hv & <-)|[-> Hno]]; cbn [rbind].
    + by rewrite (as_map_lookup t (Z.to_nat i) kv).
    + by rewrite as_map_none.
  - intros r Hop. assert (He : emplaced mixed_hash t key v r)
      by (destruct Hop as [-> | ->]; [by apply emplace_spec|by apply try_emplace_spec]).
    destruct He as [(i & [k w] & -> & Hi & Hv & Hk)|(Hno & t' & -> & Ht' & Hval)].
    + simpl in Hk. subst k. pose proof (as_map_lookup t _ _ Hnd Hv) as Hm. simpl in Hm. rewrite Hm.
      exists t, i. split; [done|]. split; [done|]. split; [done|]. by exists w.
    + rewrite (as_map_none t key Hno). pose proof (as_map_snoc t t' key v Hno Hval) as Hm.
      exists t', (Z.of_nat (length (m_values t))). split; [done|]. split; [done|]. split; [done|]. exists v.
      rewrite Hval, Hm, Nat2Z.id, lookup_insert_eq. split; [|done]. by rewrite lookup_app_r, Nat.sub_diag.
Qed.
End Map.

(** An address in the empty table, hashed as the code hashes it. *)
Lemma dense_refines_map_witness :
  exists t' i, emplace WyHash.hash make 1000 7 = Ok (t', (i, true)) /\ table_ok WyHash.hash t' /\
    as_map t' = {[ 1000 := 7 ]}.
Proof.
  destruct (dense_refines_map (K := Z) (V := Z) WyHash.hash) as (Hmake & _ & Hops).
  assert (Hs : small (make : table Z Z)) by done.
  destruct (Hops make 1000 7 Hmake Hs) as (_ & _ & He & _).
  - apply WyHash.hash_range. unfold W64.in_range, W64.modulus. lia.
  - destruct (He _ (or_introl eq_refl)) as (t' & i & E & Ht' & Em & _). by exists t', i.
Defined.

(** Two rounds of growth. *)
Example grown :
  match foldl (fun t x => rbind t (fun t => rbind (emplace WyHash.hash t x x) (fun r => Ok r.1))) (Ok make)
    [1000; 1008; 1016; 1024; 1032; 1040; 1048; 1056] with
  | Ok t => (m_shifts t, bucket_count (m_buckets t), find WyHash.hash t 1040, find WyHash.hash t 5)
  | _ => (0, 0, Stuck, Stuck)
  end = (60, 16, Ok (Some 1040), Ok None).
Proof. vm_compute. reflexivity. Qed.
