(* ===== verification/DenseErase.v ===== *)
(** * Removal from the hash table

    [erase] and [extract] of [table] ([tl2/ankerl/unordered_dense.h]): the bucket
    is taken out by shifting the ones after it down, and the last pair takes the
    place of the removed one. *)

From S2P Require Import Prelude DenseTable DenseRing DenseProof.
Import Dense.
#[local] Open Scope tl2_scope.

(** ** The operations *)

Section Removal.
Context {K V : Type} `{EqDecision K} (mixed_hash : K -> Z).
Implicit Types (t : table K V).

(** The erased pair, and the table without it: the last pair takes its place. *)
Definition do_erase t (bucket_idx : Z) : result (table K V * (K * V)) :=
  b <~ get (m_buckets t) bucket_idx;
  let value_idx_to_remove := m_value_idx b in
  B <~ erase_and_shift_down (fuel_of t) (m_buckets t) bucket_idx;
  erased <~ get (m_values t) value_idx_to_remove;
  r <~
    (if negb (value_idx_to_remove =? size t - 1) then
       back <~ get (m_values t) (size t - 1);
       i <~ seek_value (fuel_of t) B (bucket_idx_from_hash (m_shifts t) (mixed_hash back.1)) (wrap32 (size t - 1));
       bi <~ get B i;
       Ok (set (m_values t) value_idx_to_remove back, set B i (Bucket (m_dist_and_fingerprint bi) value_idx_to_remove))
     else Ok (m_values t, B));
  let '(vs, B') := r in
  Ok (Table (removelast vs) B' (m_max_bucket_capacity t) (m_shifts t), erased).

(** The second loop of [do_erase_key]. *)
Fixpoint skip_equal (fuel : nat) t (key : K) (dist_and_fingerprint bucket_idx : Z) : result bucket :=
  b <~ get (m_buckets t) bucket_idx;
  if dist_and_fingerprint =? m_dist_and_fingerprint b then
    k <~ key_at t (m_value_idx b);
    if bool_decide (key = k) then Ok (Bucket dist_and_fingerprint bucket_idx)
    else match fuel with
         | O => Stuck
         | S fuel' => skip_equal fuel' t key (dist_inc dist_and_fingerprint) (next (m_buckets t) bucket_idx)
         end
  else Ok (Bucket dist_and_fingerprint bucket_idx).

Definition do_erase_key t (key : K) : result (table K V * option (K * V)) :=
  if empty t then Ok (t, None)
  else
    b <~ hash_next_while_less mixed_hash t key;
    b' <~ skip_equal (fuel_of t) t key (m_dist_and_fingerprint b) (m_value_idx b);
    bk <~ get (m_buckets t) (m_value_idx b');
    if negb (m_dist_and_fingerprint b' =? m_dist_and_fingerprint bk) then Ok (t, None)
    else r <~ do_erase t (m_value_idx b'); let '(t', kv) := r in Ok (t', Some kv).

(** [erase(key)] returns how many pairs it removed. *)
Definition erase t (key : K) : result (table K V * Z) :=
  r <~ do_erase_key t key; let '(t', kv) := r in Ok (t', match kv with Some _ => 1 | None => 0 end).
Definition extract t (key : K) : result (table K V * option (K * V)) := do_erase_key t key.
End Removal.

(** ** The ring *)

(** The buckets after [i] that are not at their original place move down by one. *)
Lemma shift_down_moves fuel B a i q : 0 < bucket_count B < 2 ^ 32 ->
  0 <= i -> i + 1 <= q -> q < bucket_count B -> q - (i + 1) <= Z.of_nat fuel ->
  (forall j, i + 1 <= j < q -> 512 <= dist_of (bk B (a + j))) -> dist_of (bk B (a + q)) < 512 ->
  exists B', shift_down_from fuel B ((a + i) mod bucket_count B) ((a + (i + 1)) mod bucket_count B) = Ok B' /\
    length B' = length B /\
    forall j, 0 <= j < bucket_count B -> bk B' (a + j) =
      if decide (j < i) then bk B (a + j) else if decide (j < q - 1) then dec_bucket (bk B (a + (j + 1)))
      else if decide (j = q - 1) then Bucket 0 0 else bk B (a + j).
Proof.
  revert B i. induction fuel as [|fuel IH]; intros B i HB Hi Hiq Hq Hf Hge Hlt.
  - assert (q = i + 1) as -> by lia. cbn [shift_down_from]. rewrite get_bk by done. cbn [rbind].
    unfold Bucket_dist_inc. destruct (Z.leb_spec (256 * 2) (dist_of (bk B (a + (i + 1))))); [lia|].
    eexists. split; [reflexivity|]. split; [apply length_insert|]. intros j Hj.
    rewrite bk_set_off by lia. repeat case_decide; subst; try lia; done.
  - cbn [shift_down_from]. rewrite get_bk by done. cbn [rbind].
    unfold Bucket_dist_inc at 1. destruct (Z.leb_spec (256 * 2) (dist_of (bk B (a + (i + 1))))) as [Hge1|Hlt1].
    + assert (Hne : i + 1 < q) by (destruct (Z.eq_dec (i + 1) q) as [E|]; [rewrite E in Hge1; lia|lia]).
      rewrite next_pos by done. rewrite <- Z.add_assoc.
      change (Bucket (dist_dec (dist_of (bk B (a + (i + 1))))) (idx_of (bk B (a + (i + 1))))) with (dec_bucket (bk B (a + (i + 1)))).
      set (B1 := set B ((a + i) mod bucket_count B) (dec_bucket (bk B (a + (i + 1))))).
      assert (Hc : bucket_count B1 = bucket_count B) by apply count_set.
      assert (H1 : forall j, 0 <= j < bucket_count B ->
        bk B1 (a + j) = if decide (i = j) then dec_bucket (bk B (a + (i + 1))) else bk B (a + j))
        by (intros j Hj; apply bk_set_off; lia).
      destruct (IH B1 (i + 1)) as (B' & HB' & Hlen & Hbk); rewrite ?Hc; try lia.
      * intros j Hj. rewrite H1 by lia. case_decide; [lia|]. apply Hge. lia.
      * rewrite H1 by lia. case_decide; [lia|done].
      * rewrite Hc in HB', Hbk. exists B'. split; [exact HB'|].
        split; [rewrite Hlen; apply length_insert|]. intros j Hj. rewrite Hbk by done.
        destruct (decide (j < i + 1)) as [Hj1|Hj1].
        { rewrite H1 by lia. repeat case_decide; subst; try lia; done. }
        destruct (decide (j < q - 1)) as [Hj2|Hj2].
        { rewrite !H1 by lia. repeat case_decide; try lia; done. }
        destruct (decide (j = q - 1)) as [Hj3|Hj3]; [repeat case_decide; try lia; done|].
        rewrite !H1 by lia. repeat case_decide; try lia; done.
    + assert (q = i + 1) as -> by (destruct (Z.eq_dec q (i + 1)); [done|]; specialize (Hge (i + 1) ltac:(lia)); lia).
      eexists. split; [reflexivity|]. split; [apply length_insert|]. intros j Hj.
      rewrite bk_set_off by lia. repeat case_decide; subst; try lia; done.
Qed.

Section Ring.
Context (sh : Z).
Abbreviation ring := (ring sh).
Abbreviation home := (home sh).

Section Erase.
Context (B B' : list bucket) (M : gmap Z Z) (a v m : Z).
Abbreviation n := (bucket_count B).
Context (Hr : ring B M) (Ha : dist_of (bk B a) <> 0) (Hv : idx_of (bk B a) = v).
Context (Hsmall : Z.of_nat (base.size M) < 2 ^ 24 - 4) (Hm : 0 <= m < n - 1).
Context (Hge : forall j, 1 <= j <= m -> 512 <= dist_of (bk B (a + j))).
Context (Hlt : dist_of (bk B (a + (m + 1))) < 512).
Context (En : bucket_count B' = n).
Context (H1 : forall j, 0 <= j < m -> bk B' (a + j) = dec_bucket (bk B (a + (j + 1)))).
Context (H0 : bk B' (a + m) = Bucket 0 0).
Context (H2 : forall j, m < j < n -> bk B' (a + j) = bk B (a + j)).

Lemma dec_dist p : 512 <= dist_of (bk B p) -> dist_of (dec_bucket (bk B p)) = dist_of (bk B p) - 256.
Proof.
  pose proof (dist_bound sh B M Hr p) as Hd. intros Hp. simpl. unfold dist_dec, wrap32, Bucket_dist_inc.
  apply Z.mod_small. lia.
Qed.

Lemma dec_word x j : 1 <= j -> dist_dec (word x j) = word x (j - 1) \/ 2 ^ 32 <= word x j.
Proof.
  intros Hj. pose proof (word_bounds x j). pose proof (word_bounds x (j - 1)).
  destruct (Z.lt_ge_cases (word x j) (2 ^ 32)); [left|by right]. unfold dist_dec, wrap32, Bucket_dist_inc.
  rewrite Z.mod_small by lia. unfold word, Bucket_dist_inc. lia.
Qed.

(** Only the bucket taken out has its value. *)
Lemma other_idx j : 0 < j < n -> dist_of (bk B (a + j)) <> 0 -> idx_of (bk B (a + j)) <> v.
Proof.
  intros Hj Hd E. pose proof (r_inj _ _ _ Hr (a + j) a Hd Ha ltac:(congruence)) as Ep.
  rewrite <- (Z.add_0_r a) in Ep at 2. apply mod_offset_inj in Ep; lia.
Qed.

Lemma erase_cases p : p mod n = (a + m) mod n /\ bk B' p = Bucket 0 0 \/
  (exists j, 0 <= j < m /\ p mod n = (a + j) mod n /\ bk B' p = dec_bucket (bk B (a + (j + 1)))) \/
  (exists j, m < j < n /\ p mod n = (a + j) mod n /\ bk B' p = bk B (a + j)).
Proof.
  destruct (mod_offset n a p ltac:(lia)) as (j & Hj & Hp).
  assert (Hb : bk B' p = bk B' (a + j)) by (apply bk_mod; by rewrite En).
  destruct (Z.lt_trichotomy j m) as [Hjm|[->|Hjm]]; [right; left| |right; right].
  - exists j. rewrite Hb. split; [lia|]. split; [done|]. apply H1. lia.
  - left. by rewrite Hb.
  - exists j. rewrite Hb. split; [lia|]. split; [done|]. apply H2. lia.
Qed.

Lemma erase_place p : dist_of (bk B' p) <> 0 -> exists x j, delete v M !! idx_of (bk B' p) = Some x /\
  0 <= j < n /\ p mod n = (home x + j) mod n /\ dist_of (bk B' p) = word x j.
Proof.
  intros Hne. destruct (erase_cases p) as [(_ & Hb)|[(j & Hj & Hp & Hb)|(j & Hj & Hp & Hb)]]; rewrite Hb in *; [done| |].
  - specialize (Hge (j + 1) ltac:(lia)). assert (Hd0 : dist_of (bk B (a + (j + 1))) <> 0) by lia.
    destruct (r_place _ _ _ Hr _ Hd0) as (x & j' & Hx & Hj' & Hp' & Hd).
    pose proof (word_bounds x j'). pose proof (dist_bound sh B M Hr (a + (j + 1))) as Hbound.
    exists x, (j' - 1). rewrite lookup_delete_ne by (intros E; by apply (other_idx (j + 1)); [lia| |]).
    split; [done|]. split; [lia|]. split.
    + rewrite Hp. apply (mod_shift n _ _ (-1)) in Hp'; [|lia]. replace (a + (j + 1) + -1) with (a + j) in Hp' by lia.
      rewrite Hp'. f_equal. lia.
    + simpl. rewrite Hd. destruct (dec_word x j' ltac:(lia)); [done|lia].
  - destruct (r_place _ _ _ Hr _ Hne) as (x & j' & Hx & Hj' & Hp' & Hd). exists x, j'.
    rewrite lookup_delete_ne by (intros E; by apply (other_idx j); [lia| |]).
    split; [done|]. split; [done|]. split; [congruence|done].
Qed.

Lemma erase_all u : is_Some (delete v M !! u) -> exists p, dist_of (bk B' p) <> 0 /\ idx_of (bk B' p) = u.
Proof.
  intros [Hu Hs]%lookup_delete_is_Some. destruct (r_all _ _ _ Hr u Hs) as (p & Hp & Hi).
  destruct (mod_offset n a p ltac:(lia)) as (j & Hj & Hpj). assert (Hb : bk B p = bk B (a + j)) by by apply bk_mod.
  rewrite Hb in *. assert (j <> 0) by (intros ->; rewrite Z.add_0_r in Hi; congruence).
  destruct (Z.le_gt_cases j m).
  - exists (a + (j - 1)). rewrite H1 by lia. replace (j - 1 + 1) with j by lia. split; [|done].
    specialize (Hge j ltac:(lia)). rewrite dec_dist by done. lia.
  - exists (a + j). by rewrite H2 by lia.
Qed.

Lemma erase_inj p q : dist_of (bk B' p) <> 0 -> dist_of (bk B' q) <> 0 -> idx_of (bk B' p) = idx_of (bk B' q) ->
  p mod n = q mod n.
Proof.
  assert (Hinj : forall i j, 0 <= i < n -> 0 <= j < n -> dist_of (bk B (a + i)) <> 0 -> dist_of (bk B (a + j)) <> 0 ->
    idx_of (bk B (a + i)) = idx_of (bk B (a + j)) -> i = j).
  { intros i j Hi Hj Hdi Hdj E. apply (mod_offset_inj n a i j); [lia|done|done|]. by apply (r_inj _ _ _ Hr). }
  assert (Hocc : forall j, 0 <= j < m -> dist_of (bk B (a + (j + 1))) <> 0) by (intros j Hj; specialize (Hge (j + 1)); lia).
  intros Hp Hq E.
  destruct (erase_cases p) as [(_ & Hbp)|[(i & Hi & Ep & Hbp)|(i & Hi & Ep & Hbp)]],
    (erase_cases q) as [(_ & Hbq)|[(j & Hj & Eq & Hbq)|(j & Hj & Eq & Hbq)]]; rewrite Hbp, Hbq in E;
    rewrite Hbp in Hp; rewrite Hbq in Hq; simpl in E, Hp, Hq; try done; rewrite Ep, Eq.
  - assert (i + 1 = j + 1); [|by replace i with j by lia].
    apply Hinj; [lia|lia|by apply Hocc|by apply Hocc|done].
  - assert (i + 1 = j); [|lia]. apply Hinj; [lia|lia|by apply Hocc|done|done].
  - assert (i = j + 1); [|lia]. apply Hinj; [lia|lia|done|by apply Hocc|done].
  - assert (i = j) as ->; [|done]. apply Hinj; [lia|lia|done|done|done].
Qed.

Lemma erase_robin p : dist_of (bk B' p) < 512 \/ dist_of (bk B' p) <= dist_of (bk B' (p - 1)) + 256.
Proof.
  assert (Hprev : forall j, p mod n = (a + j) mod n -> bk B' (p - 1) = bk B' (a + (j - 1))).
  { intros j Hj. apply bk_mod. rewrite En. replace (a + (j - 1)) with (a + j + - (1)) by lia. apply mod_shift; [lia|done]. }
  destruct (erase_cases p) as [(_ & ->)|[(j & Hj & Ep & Hb)|(j & Hj & Ep & Hb)]]; [by left| |].
  - pose proof (Hge (j + 1) ltac:(lia)) as Hge1. rewrite Hb, (Hprev j Ep), dec_dist by done.
    destruct (Z.eq_dec j 0) as [->|Hj0].
    + assert (Eprev : bk B' (a + (0 - 1)) = bk B (a - 1)).
      { rewrite (bk_mod B' (a + (0 - 1)) (a + (n - 1))).
        - rewrite H2 by lia. apply bk_mod. replace (a + (n - 1)) with (a - 1 + 1 * n) by lia. by rewrite Z_mod_plus_full.
        - rewrite En. replace (a + (n - 1)) with (a + (0 - 1) + 1 * n) by lia. by rewrite Z_mod_plus_full. }
      rewrite Eprev. destruct (r_robin _ _ _ Hr (a + (0 + 1))) as [|Hle]; [lia|].
      replace (a + (0 + 1) - 1) with a in Hle by lia. destruct (r_robin _ _ _ Hr a); [left; lia|right; lia].
    + rewrite (H1 (j - 1)) by lia. replace (j - 1 + 1) with j by lia. specialize (Hge j ltac:(lia)).
      rewrite (dec_dist (a + j)) by done. destruct (r_robin _ _ _ Hr (a + (j + 1))) as [|Hle]; [lia|].
      replace (a + (j + 1) - 1) with (a + j) in Hle by lia. right. lia.
  - rewrite Hb, (Hprev j Ep). destruct (Z.eq_dec j (m + 1)) as [->|Hj1]; [by left|].
    rewrite (H2 (j - 1)) by lia. destruct (r_robin _ _ _ Hr (a + j)) as [|Hle]; [by left|].
    replace (a + j - 1) with (a + (j - 1)) in Hle by lia. by right.
Qed.

Lemma erased_ring : ring B' (delete v M).
Proof.
  constructor; rewrite ?En.
  - apply Hr.
  - intros u x [_ Hu]%lookup_delete_Some. by apply (r_home _ _ _ Hr u).
  - exact erase_place.
  - exact erase_all.
  - exact erase_inj.
  - exact erase_robin.
Qed.
End Erase.

Lemma ring_erase fuel B M a v : ring B M -> room B M -> dist_of (bk B a) <> 0 -> idx_of (bk B a) = v ->
  bucket_count B <= Z.of_nat fuel ->
  exists B', erase_and_shift_down fuel B (a mod bucket_count B) = Ok B' /\ ring B' (delete v M) /\ length B' = length B.
Proof.
  intros Hr [Hroom1 Hroom2] Ha Hv Hf. pose proof (r_count _ _ _ Hr) as Hn.
  destruct (first_empty sh B M Hr a Hroom1) as (e & He & Hz & Hocc).
  assert (He0 : e <> 0) by (intros ->; by rewrite Z.add_0_r in Hz).
  destruct (first_such (fun i => dist_of (bk B (a + (1 + i))) < 512) e) as [(i & Hi & Hstop & Hbefore)|Hnone].
  2: { specialize (Hnone (e - 1) ltac:(lia)). replace (1 + (e - 1)) with e in Hnone by lia. rewrite Hz in Hnone. lia. }
  destruct (shift_down_moves fuel B a 0 (1 + i)) as (B' & HB' & Hlen & Hbk); [done|lia|lia|lia|lia| |done|].
  { intros j Hj. specialize (Hbefore (j - 1) ltac:(lia)). replace (1 + (j - 1)) with j in Hbefore by lia. lia. }
  unfold erase_and_shift_down. rewrite next_pos by done. rewrite Z.add_0_r in HB'. simpl in HB'. exists B'.
  split; [exact HB'|]. split; [|exact Hlen]. apply (erased_ring B B' M a v i); try done.
  - lia.
  - intros j Hj. specialize (Hbefore (j - 1) ltac:(lia)). replace (1 + (j - 1)) with j in Hbefore by lia. lia.
  - by replace (i + 1) with (1 + i) by lia.
  - unfold bucket_count. by rewrite Hlen.
  - intros j Hj. rewrite Hbk by lia. by rewrite decide_False, decide_True by lia.
  - rewrite Hbk by lia. by rewrite decide_False, decide_False, decide_True by lia.
  - intros j Hj. rewrite Hbk by lia. by rewrite !decide_False by lia.
Qed.

(** A value that changes its index. *)
Lemma ring_rename B M p u v x : ring B M -> dist_of (bk B p) <> 0 -> idx_of (bk B p) = u -> M !! u = Some x ->
  M !! v = None -> ring (set B (p mod bucket_count B) (Bucket (dist_of (bk B p)) v)) (<[v := x]> (delete u M)).
Proof.
  intros Hr Hp Hu Hx Hv. pose proof (r_count _ _ _ Hr) as Hn. set (B' := set B _ _).
  assert (En : bucket_count B' = bucket_count B) by apply count_set.
  assert (Hbk : forall q, bk B' q = if decide (p mod bucket_count B = q mod bucket_count B)
    then Bucket (dist_of (bk B p)) v else bk B q) by (intros q; by apply bk_set).
  assert (Hd : forall q, dist_of (bk B' q) = dist_of (bk B q)).
  { intros q. rewrite Hbk. case_decide as E; [|done]. simpl. by rewrite (bk_mod B p q E). }
  assert (Hne : forall q, dist_of (bk B q) <> 0 -> idx_of (bk B q) <> v).
  { intros q Hq E. destruct (r_place _ _ _ Hr q Hq) as (y & j & Hy & _). congruence. }
  assert (Hother : forall q, p mod bucket_count B <> q mod bucket_count B -> dist_of (bk B q) <> 0 -> idx_of (bk B q) <> u).
  { intros q Hq Hq0 E. apply Hq. apply (r_inj _ _ _ Hr); congruence. }
  constructor; rewrite ?En.
  - done.
  - intros w y [[_ <-]|[_ [_ Hy]%lookup_delete_Some]]%lookup_insert_Some; by eapply (r_home _ _ _ Hr).
  - intros q Hq. rewrite Hd in *. destruct (r_place _ _ _ Hr q Hq) as (y & j & Hy & Hj & Hpos & E). rewrite Hbk.
    case_decide as Epq; simpl.
    + exists x, j. rewrite lookup_insert_eq. split; [done|]. split; [done|].
      assert (y = x) as ->; [|done]. rewrite <- (bk_mod B p q Epq), Hu in Hy. congruence.
    + exists y, j. rewrite lookup_insert_ne by (intros E'; by apply (Hne q)).
      rewrite lookup_delete_ne by (intros E'; by apply (Hother q)). done.
  - intros w [<-|[Hwv [Hwu Hw]%lookup_delete_is_Some]]%lookup_insert_is_Some.
    + exists p. rewrite Hd. split; [done|]. rewrite Hbk. by rewrite decide_True.
    + destruct (r_all _ _ _ Hr w Hw) as (q & Hq & Hi). exists q. rewrite Hd. split; [done|]. rewrite Hbk.
      case_decide as E; [|done]. rewrite <- (bk_mod B p q E) in Hi. congruence.
  - intros q r Hq Hr'. rewrite Hd in Hq, Hr'. rewrite !Hbk. case_decide as E1; case_decide as E2; simpl; intros E.
    + congruence.
    + by destruct (Hne r).
    + by destruct (Hne q).
    + by apply (r_inj _ _ _ Hr).
  - intros q. rewrite !Hd. apply Hr.
Qed.

(** The search of the bucket of a value from its original bucket. *)
Lemma seek_value_run fuel B M u x j i : ring B M -> M !! u = Some x -> bk B (home x + j) = Bucket (word x j) u ->
  (forall k, 0 <= k <= j -> word x k <= dist_of (bk B (home x + k))) -> j < bucket_count B -> 0 <= i <= j -> j - i <= Z.of_nat fuel ->
  seek_value fuel B ((home x + i) mod bucket_count B) u = Ok ((home x + j) mod bucket_count B).
Proof.
  intros Hr Hx Hj Hway Hjn. pose proof (r_count _ _ _ Hr) as Hn. revert i.
  induction fuel as [|fuel IH]; intros i Hi Hf; cbn [seek_value]; rewrite get_bk by done; cbn [rbind].
  - assert (i = j) as -> by lia. rewrite Hj. simpl. by rewrite Z.eqb_refl.
  - destruct (Z.eq_dec i j) as [->|Hne]; [rewrite Hj; simpl; by rewrite Z.eqb_refl|].
    destruct (Z.eqb_spec u (idx_of (bk B (home x + i)))) as [E|E].
    + exfalso. apply Hne. apply (mod_offset_inj (bucket_count B) (home x)); [lia|lia|lia|].
      apply (r_inj _ _ _ Hr).
      * pose proof (Hway i ltac:(lia)). pose proof (word_bounds x i). lia.
      * rewrite Hj. simpl. pose proof (word_bounds x j). lia.
      * by rewrite Hj.
    + rewrite next_pos by done. rewrite <- Z.add_assoc. apply IH; lia.
Qed.

(** Past a bucket that is not farther, none is. *)
Lemma not_farther B M x s i : ring B M -> 0 <= s <= i -> dist_of (bk B (home x + s)) <= word x s ->
  dist_of (bk B (home x + i)) <= word x i.
Proof.
  intros Hr [Hs Hi] Hd. replace i with (s + (i - s)) by lia. generalize (i - s) (Z.le_0_sub s i). intros k [_ Hk].
  specialize (Hk Hi). revert k Hk. apply (natlike_ind (fun k => dist_of (bk B (home x + (s + k))) <= word x (s + k))).
  - by rewrite Z.add_0_r.
  - intros k Hk IH. pose proof (word_bounds x (s + Z.succ k)) as Hb.
    destruct (r_robin _ _ _ Hr (home x + (s + Z.succ k))) as [Hlt|Hle]; [lia|].
    replace (home x + (s + Z.succ k) - 1) with (home x + (s + k)) in Hle by lia. unfold word, Bucket_dist_inc in *. lia.
Qed.
End Ring.

(** ** The values *)

Section RemoveAt.
Context {A : Type}.
Implicit Types (vs : list A).

(** The elements without the one at [i]: the last takes its place. *)
Definition remove_at (i : nat) (vs : list A) : list A :=
  match last vs with Some back => removelast (<[i := back]> vs) | None => [] end.

Lemma remove_at_snoc i vs back : remove_at i (vs ++ [back]) = <[i := back]> vs.
Proof.
  unfold remove_at. rewrite last_snoc. destruct (decide (i < length vs)%nat).
  - rewrite insert_app_l by done. apply removelast_last.
  - rewrite (list_insert_ge vs) by lia. rewrite insert_app_r_alt by lia.
    destruct (i - length vs)%nat; simpl; apply removelast_last.
Qed.

Lemma remove_at_perm i vs x : vs !! i = Some x -> vs ≡ₚ x :: remove_at i vs.
Proof.
  destruct vs as [|back vs _] using rev_ind; [done|]. rewrite remove_at_snoc. intros Hi.
  destruct (decide (i < length vs)%nat) as [Hlt|Hge].
  - rewrite lookup_app_l in Hi by done. rewrite insert_take_drop by done.
    rewrite <- (take_drop_middle vs i x Hi) at 1. solve_Permutation.
  - rewrite list_insert_ge by lia. rewrite lookup_app_r in Hi by lia.
    apply list_lookup_singleton_Some in Hi as [_ <-]. solve_Permutation.
Qed.

End RemoveAt.

(** ** The table *)

Section Table.
Context {K V : Type} `{EqDecision K} (mixed_hash : K -> Z).
Implicit Types (t : table K V) (vs : list (K * V)).
Abbreviation hashes := (hashes mixed_hash).

Lemma hashes_insert vs i kv : (i < length vs)%nat ->
  hashes (<[i := kv]> vs) = <[Z.of_nat i := mixed_hash kv.1]> (hashes vs).
Proof.
  intros Hi. apply map_eq. intros u. apply option_eq. intros x.
  rewrite lookup_insert_Some, !lookup_hashes. setoid_rewrite list_lookup_insert_Some. split.
  - intros (kv' & Hu & [(Ei & -> & _)|[Hne Hkv]] & <-); [left; split; [lia|done]|right].
    split; [intros <-; by rewrite Nat2Z.id in Hne|]. by exists kv'.
  - intros [[<- <-]|[Hne (kv' & Hu & Hkv & <-)]].
    + exists kv. split; [lia|]. split; [|done]. left. rewrite Nat2Z.id. done.
    + exists kv'. split; [done|]. split; [|done]. right. split; [|done]. lia.
Qed.

(** The ring of the remaining pairs. *)
Lemma hashes_remove i vs back : (i < length vs)%nat ->
  hashes (<[i := back]> vs) =
    <[Z.of_nat i := mixed_hash back.1]> (delete (Z.of_nat (length vs)) (delete (Z.of_nat i) (hashes (vs ++ [back])))).
Proof.
  intros Hi. rewrite hashes_insert by done. rewrite (delete_delete _ (Z.of_nat (length vs))), insert_delete_eq. f_equal.
  rewrite hashes_snoc, delete_insert_id; [done|]. apply hashes_fresh.
Qed.

Lemma do_erase_spec t p kv : table_ok mixed_hash t -> small t -> dist_of (bk (m_buckets t) p) <> 0 ->
  m_values t !! Z.to_nat (idx_of (bk (m_buckets t) p)) = Some kv ->
  exists t', do_erase mixed_hash t (p mod bucket_count (m_buckets t)) = Ok (t', kv) /\ table_ok mixed_hash t' /\
    m_values t' = remove_at (Z.to_nat (idx_of (bk (m_buckets t) p))) (m_values t).
Proof.
  intros Ht Hs Hp Hkv. pose proof (ok_ring _ _ Ht) as Hr. pose proof (ok_room _ t Ht Hs) as Hroom.
  pose proof (r_count _ _ _ Hr) as Hn. set (v := idx_of (bk (m_buckets t) p)) in *.
  destruct (r_place _ _ _ Hr p Hp) as (x & j & Hx & _). fold v in Hx. apply lookup_hashes in Hx as (kv' & Hv0 & Hv & _).
  rewrite Hkv in Hv. injection Hv as <-. pose proof (lookup_lt_Some _ _ _ Hkv) as Hlt.
  destruct (ring_erase (m_shifts t) (fuel_of t) (m_buckets t) _ p v Hr Hroom Hp eq_refl) as (B1 & HB1 & Hr1 & Hlen1).
  { rewrite fuel_count. lia. }
  assert (Hc1 : bucket_count B1 = bucket_count (m_buckets t)) by (unfold bucket_count; by rewrite Hlen1).
  assert (Hrest : forall B', ring (m_shifts t) B' (hashes (remove_at (Z.to_nat v) (m_values t))) -> length B' = length (m_buckets t) ->
    table_ok mixed_hash (Table (remove_at (Z.to_nat v) (m_values t)) B' (m_max_bucket_capacity t) (m_shifts t))).
  { intros B' HrB HlenB. assert (HcB : bucket_count B' = bucket_count (m_buckets t)) by (unfold bucket_count; by rewrite HlenB).
    pose proof (remove_at_perm _ _ _ Hkv) as Hperm. pose proof (ok_keys _ _ Ht) as Hnd. pose proof (ok_hash _ _ Ht) as Hh.
    pose proof (ok_full _ _ Ht) as Hfull. rewrite Hperm in Hnd, Hh, Hfull.
    constructor; cbn [m_values m_buckets m_max_bucket_capacity m_shifts]; rewrite ?HcB; try apply Ht; try done.
    - by apply NoDup_cons in Hnd as [_ Hnd].
    - by apply Forall_cons in Hh as [_ Hh].
    - simpl in Hfull. lia. }
  unfold do_erase. rewrite get_bk by done. cbn [rbind]. fold v. rewrite HB1. cbn [rbind].
  rewrite (get_spec _ v kv) by done. cbn [rbind].
  destruct (m_values t) as [|back vs _] eqn:Evs using rev_ind; [done|]. unfold Dense.size. rewrite Evs.
  rewrite length_app in Hlt |- *. cbn [length] in Hlt |- *. rewrite remove_at_snoc in *.
  replace (Z.of_nat (length vs + 1) - 1) with (Z.of_nat (length vs)) by lia.
  destruct (Z.eqb_spec v (Z.of_nat (length vs))) as [Ev|Ev]; cbn [negb rbind].
  - eexists. split; [reflexivity|]. rewrite removelast_last, list_insert_ge in * by lia. split; [|done].
    apply Hrest; [|done]. rewrite Ev, hashes_snoc, delete_insert_id in Hr1 by apply hashes_fresh. exact Hr1.
  - assert (Hvl : (Z.to_nat v < length vs)%nat) by lia.
    rewrite (get_middle vs []). cbn [rbind].
    assert (Hw : wrap32 (Z.of_nat (length vs)) = Z.of_nat (length vs)).
    { unfold wrap32. apply Z.mod_small. unfold small in Hs. rewrite Evs, length_app in Hs. lia. }
    rewrite Hw. assert (Hb : delete v (hashes (vs ++ [back])) !! Z.of_nat (length vs) = Some (mixed_hash back.1)).
    { rewrite lookup_delete_ne by done. by rewrite hashes_snoc, lookup_insert_eq. }
    destruct (located _ _ _ Hr1 _ _ Hb) as (j1 & Hj1 & Hj1n & Hat & Hway).
    pose proof (r_home _ _ _ Hr1 _ _ Hb) as Hhome.
    pose proof (home_pos (m_shifts t) B1 (mixed_hash back.1) Hhome) as Ehome. unfold home in Ehome at 1. rewrite Ehome.
    rewrite (seek_value_run _ (fuel_of t) B1 _ _ _ j1 0 Hr1 Hb Hat Hway) by (lia || (rewrite fuel_count; lia)).
    cbn [rbind]. rewrite get_bk by lia. cbn [rbind]. eexists. split; [reflexivity|].
    cbn [m_values]. unfold set at 1 3. rewrite insert_app_l, removelast_last by done. split; [|done].
    apply Hrest; [|unfold set; by rewrite length_insert].
    rewrite hashes_remove by done. rewrite Z2Nat.id by lia.
    apply (ring_rename _ B1 _ _ (Z.of_nat (length vs)) v (mixed_hash back.1) Hr1); try done.
    + rewrite Hat. simpl. pose proof (word_bounds (mixed_hash back.1) j1). lia.
    + by rewrite Hat.
    + apply lookup_delete_eq.
Qed.

(** The loop of [do_erase_key] after [next_while_less]. *)
Lemma skip_equal_run fuel t M key j e : ring (m_shifts t) (m_buckets t) M -> keyed mixed_hash t M ->
  0 <= j <= e -> e < 2 ^ 24 - 2 -> e - j <= Z.of_nat fuel ->
  let x := mixed_hash key in
  let hm := home (m_shifts t) x in
  (forall i, j <= i < e -> dist_of (bk (m_buckets t) (hm + i)) = word x i /\ ~ match_at mixed_hash t key i) ->
  dist_of (bk (m_buckets t) (hm + e)) <> word x e \/ match_at mixed_hash t key e ->
  skip_equal fuel t key (word x j) ((hm + j) mod bucket_count (m_buckets t)) =
    Ok (Bucket (word x e) ((hm + e) mod bucket_count (m_buckets t))).
Proof.
  intros Hr Hk Hj He Hf x hm. pose proof (r_count _ _ _ Hr) as Hn.
  assert (Hkey : forall i, 0 <= i -> word x i = dist_of (bk (m_buckets t) (hm + i)) ->
    exists k, key_at t (idx_of (bk (m_buckets t) (hm + i))) = Ok k /\ (match_at mixed_hash t key i <-> key = k)).
  { intros i Hi Ew. assert (Hne : dist_of (bk (m_buckets t) (hm + i)) <> 0) by (pose proof (word_bounds x i); lia).
    destruct (r_place _ _ _ Hr _ Hne) as (y & j' & Hy & _). destruct (Hk _ _ Hy) as (kv & Hv0 & Hv & _).
    exists kv.1. unfold key_at, get, match_at. destruct (Z.ltb_spec (idx_of (bk (m_buckets t) (hm + i))) 0); [lia|].
    fold x hm. rewrite Hv. simpl. split; [done|]. naive_solver. }
  revert j Hj Hf. induction fuel as [|fuel IH]; intros j Hj Hf Hpass Hstop; cbn [skip_equal]; rewrite get_bk by done; cbn [rbind];
    (destruct (Z.eqb_spec (word x j) (dist_of (bk (m_buckets t) (hm + j)))) as [Ew|Ew];
     [|assert (j = e) as -> by (destruct (Z.eq_dec j e); [done|]; destruct (Hpass j ltac:(lia)); congruence); done]);
    destruct (Hkey j ltac:(lia) Ew) as (k & -> & Hm); cbn [rbind]; case_bool_decide as Ek;
    try (assert (j = e) as -> by (destruct (Z.eq_dec j e); [done|]; destruct (Hpass j ltac:(lia)); tauto); done);
    (assert (j <> e) by (intros ->; destruct Hstop; [congruence|tauto])); [lia|].
  rewrite inc_word, next_pos by (done || lia). rewrite <- Z.add_assoc. apply IH; [lia|lia| |done].
  intros i Hi. apply Hpass. lia.
Qed.

Lemma do_erase_key_spec t key : table_ok mixed_hash t -> small t -> W64.in_range (mixed_hash key) ->
  (exists i kv t', do_erase_key mixed_hash t key = Ok (t', Some kv) /\ m_values t !! i = Some kv /\ kv.1 = key /\
     table_ok mixed_hash t' /\ m_values t' = remove_at i (m_values t)) \/
  (do_erase_key mixed_hash t key = Ok (t, None) /\ key ∉ fst <$> m_values t).
Proof.
  intros Ht Hs Hx. pose proof (ok_ring _ _ Ht) as Hr. pose proof (ok_room _ t Ht Hs) as Hroom.
  pose proof (keyed_values mixed_hash t (m_values t) (fun _ _ E => E)) as Hk. pose proof (ok_home _ _ _ Ht Hx) as Hh.
  pose proof (r_count _ _ _ Hr) as Hn. unfold do_erase_key, empty, Dense.size.
  destruct (Z.eqb_spec (Z.of_nat (length (m_values t))) 0) as [E|E].
  { right. split; [done|]. destruct (m_values t); [apply not_elem_of_nil|done]. }
  unfold hash_next_while_less. rewrite first_word. set (x := mixed_hash key) in *. set (hm := home (m_shifts t) x) in *.
  destruct (next_while_less_stops (m_shifts t) (m_buckets t) _ Hr Hroom x Hh (fuel_of t)) as (s & Hsr & Hpass & Hstop & Hrun).
  { rewrite fuel_count. destruct Hroom. lia. }
  change (bucket_idx_from_hash (m_shifts t) x) with hm. fold hm in Hrun. rewrite Hrun. cbn [rbind m_dist_and_fingerprint m_value_idx].
  destruct (first_stop (m_shifts t) (m_buckets t) _ Hr Hroom x
    (fun i => s <= i /\ (dist_of (bk (m_buckets t) (hm + i)) <> word x i \/ match_at mixed_hash t key i)) 0)
    as (e & He & [Hse Hend] & Hbefore); [lia| |].
  { intros i Hi Hno. pose proof (word_bounds x i). fold hm.
    destruct (Z.lt_ge_cases i s) as [Hlt|Hge]; [specialize (Hpass i ltac:(lia)); fold hm in Hpass; lia|].
    destruct (decide (dist_of (bk (m_buckets t) (hm + i)) = word x i)) as [Ew|Ew]; [lia|]. exfalso. apply Hno. split; [lia|by left]. }
  destruct Hroom as [Hroom1 Hroom2]. pose proof (fuel_count t) as Hfuel.
  assert (Hskip : skip_equal (fuel_of t) t key (word x s) ((hm + s) mod bucket_count (m_buckets t)) =
    Ok (Bucket (word x e) ((hm + e) mod bucket_count (m_buckets t)))).
  { apply (skip_equal_run (fuel_of t) t _ key s e Hr Hk); [lia..| |exact Hend].
    intros i Hi. specialize (Hbefore i ltac:(lia)). fold x hm.
    destruct (decide (dist_of (bk (m_buckets t) (hm + i)) = word x i)); [split; [done|]|]; [intros Hm|exfalso];
      apply Hbefore; (split; [lia|auto]). }
  fold hm. rewrite Hskip. clear Hskip.
  cbn [rbind m_dist_and_fingerprint m_value_idx]. fold x hm. rewrite get_bk by done. cbn [rbind].
  destruct (Z.eqb_spec (word x e) (dist_of (bk (m_buckets t) (hm + e)))) as [Ew|Ew]; cbn [negb].
  - left. destruct Hend as [|Hm]; [congruence|].
    destruct (match_value mixed_hash t _ key Hr Hk e ltac:(lia) Hm) as (kv & Hv0 & Hv & Hkey & _).
    fold x hm in Hv. destruct (do_erase_spec t (hm + e) kv Ht Hs) as (t' & -> & Ht' & Hval); [|exact Hv|].
    { pose proof (word_bounds x e). lia. }
    cbn [rbind]. eexists _, kv, t'. split; [done|]. split; [exact Hv|]. by split.
  - right. split; [done|]. apply (not_key mixed_hash t (m_values t)); [done|]. intros v Hv Hkv.
    destruct (present mixed_hash t _ key Hr v Hv Hkv) as (j & Hj & Hm & _ & Hway).
    assert (Hsj : s <= j).
    { destruct (Z.le_gt_cases s j); [done|]. specialize (Hpass j ltac:(lia)). destruct Hm as [Hm _]. fold x hm in Hm, Hpass. lia. }
    assert (Hej : e <= j).
    { destruct (Z.le_gt_cases e j); [done|]. exfalso. apply (Hbefore j); [lia|]. split; [lia|by right]. }
    apply Ew. specialize (Hway e ltac:(lia)). pose proof (not_farther (m_shifts t) _ _ x s e Hr ltac:(lia) Hstop) as Hnf.
    fold x hm in Hway, Hnf. lia.
Qed.

Lemma assign_ok t i key w (v : V) : table_ok mixed_hash t -> 0 <= i -> m_values t !! Z.to_nat i = Some (key, w) ->
  exists t', assign t i v = Ok t' /\ table_ok mixed_hash t' /\ m_values t' = <[Z.to_nat i := (key, v)]> (m_values t).
Proof.
  intros Ht Hi Hv. unfold assign, get. destruct (Z.ltb_spec i 0); [lia|]. rewrite Hv. cbn [rbind fst].
  eexists. split; [reflexivity|]. split; [|done]. pose proof (lookup_lt_Some _ _ _ Hv) as Hlt.
  assert (Hkeys : fst <$> <[Z.to_nat i := (key, v)]> (m_values t) = fst <$> m_values t).
  { rewrite list_fmap_insert. simpl. apply list_insert_id. by rewrite list_lookup_fmap, Hv. }
  constructor; unfold set_values, set; cbn [m_values m_buckets m_max_bucket_capacity m_shifts];
    rewrite ?Hkeys, ?length_insert; try apply Ht.
  - rewrite hashes_insert by done. simpl. rewrite insert_id; [apply Ht|]. apply lookup_hashes. exists (key, w).
    rewrite Nat2Z.id. split; [lia|]. by split.
  - pose proof (ok_hash _ _ Ht) as Hh. apply Forall_insert; [exact Hh|].
    rewrite Forall_lookup in Hh. exact (Hh _ _ Hv).
Qed.
End Table.

(** ** The finite map *)
Section Map.
Context {K V : Type} `{Countable K} (mixed_hash : K -> Z).
Implicit Types (t : table K V).

Lemma as_map_remove t t' i kv : NoDup (fst <$> m_values t) -> m_values t !! i = Some kv ->
  m_values t' = remove_at i (m_values t) -> as_map t' = delete kv.1 (as_map t).
Proof.
  intros Hn Hi E. unfold as_map. rewrite E. pose proof (remove_at_perm _ _ _ Hi) as Hp.
  rewrite (list_to_map_proper _ _ Hn Hp). destruct kv as [k w]. simpl.
  rewrite delete_insert_id; [done|]. apply not_elem_of_list_to_map_1.
  rewrite Hp in Hn. by apply NoDup_cons in Hn as [Hn _].
Qed.

(** [C31] Removal and assignment in the hash table of the location set.  [extract] and
    [erase] of a key that is there take its pair out and return it, or 1; for a
    key that is not there they change nothing.  [insert_or_assign] binds the key
    to the value in every case.  Each ends, and keeps the invariant of the table. *)
Theorem dense_erase t key (v : V) : table_ok mixed_hash t -> small t -> W64.in_range (mixed_hash key) ->
  (exists t', extract mixed_hash t key = Ok (t', (fun w => (key, w)) <$> as_map t !! key) /\
     erase mixed_hash t key = Ok (t', if decide (as_map t !! key = None) then 0 else 1) /\
     table_ok mixed_hash t' /\ as_map t' = delete key (as_map t)) /\
  (exists t' r, do_insert_or_assign mixed_hash t key v = Ok (t', r) /\ r.2 = bool_decide (as_map t !! key = None) /\
     table_ok mixed_hash t' /\ as_map t' = <[key := v]> (as_map t)).
Proof.
  intros Ht Hs Hx. pose proof (ok_keys _ _ Ht) as Hnd. split.
  - unfold extract, erase. destruct (do_erase_key_spec mixed_hash t key Ht Hs Hx) as [(i & [k w] & t' & -> & Hi & <- & Ht' & Hval)|[-> Hno]].
    + pose proof (as_map_lookup t _ _ Hnd Hi) as Hm. simpl in Hm |- *. rewrite Hm. exists t'. split; [done|]. split; [done|].
      split; [done|]. exact (as_map_remove t t' i (k, w) Hnd Hi Hval).
    + rewrite (as_map_none t key Hno). exists t. split; [done|]. split; [done|]. split; [done|].
      symmetry. apply delete_id. by apply as_map_none.
  - unfold do_insert_or_assign.
    destruct (try_emplace_spec mixed_hash t key v Ht Hs Hx) as [(i & [k w] & -> & Hi & Hv & Hk)|(Hno & t' & -> & Ht' & Hval)]; cbn [rbind].
    + simpl in Hk. subst k. destruct (assign_ok mixed_hash t i key w v Ht ltac:(lia) Hv) as (t' & -> & Ht' & Hval). cbn [rbind].
      pose proof (as_map_lookup t _ _ Hnd Hv) as Hm. simpl in Hm. exists t', (i, false). split; [done|].
      split; [by rewrite Hm|]. split; [done|]. apply map_eq. intros k'. apply option_eq. intros y.
      assert (Hnd' : NoDup (fst <$> m_values t')) by apply Ht'.
      unfold as_map in *. rewrite <- elem_of_list_to_map by done. rewrite lookup_insert_Some, <- elem_of_list_to_map by done.
      rewrite Hval, !list_elem_of_lookup. setoid_rewrite list_lookup_insert_Some. split.
      * intros (n & [(<- & [= <- <-] & _)|[Hne Hn]]); [by left|]. right. split; [|by exists n]. intros <-. apply Hne.
        apply (NoDup_lookup _ _ _ key Hnd); rewrite list_lookup_fmap; [by rewrite Hv|by rewrite Hn].
      * intros [[<- <-]|[Hne (n & Hn)]].
        -- exists (Z.to_nat i). left. split; [done|]. split; [done|]. by eapply lookup_lt_Some.
        -- exists n. right. split; [|done]. intros <-. rewrite Hv in Hn. congruence.
    + rewrite (as_map_none t key Hno). eexists t', _. split; [done|]. split; [done|]. split; [done|].
      by apply as_map_snoc.
Qed.
End Map.

Lemma dense_erase_witness :
  exists t', extract WyHash.hash (make : table Z Z) 1000 = Ok (t', None) /\ table_ok WyHash.hash t'.
Proof.
  destruct (proj1 (dense_erase WyHash.hash make 1000 7 (make_ok _) ltac:(done)
    (WyHash.hash_range 1000 ltac:(unfold W64.in_range, W64.modulus; lia)))) as (t' & E & _ & Ht' & _).
  exists t'. split; [exact E|exact Ht'].
Defined.

(** Three pairs, the first removed: the last takes its place. *)
Example removed :
  match foldl (fun t x => rbind t (fun t => rbind (emplace WyHash.hash t x x) (fun r => Ok r.1))) (Ok make)
    [1000; 1008; 1016] with
  | Ok t => match extract WyHash.hash t 1000 with Ok (t', r) => (m_values t', r) | _ => ([], None) end
  | _ => ([], None)
  end = ([(1016, 1016); (1008, 1008)], Some (1000, 1000)).
Proof. vm_compute. reflexivity. Qed.
