(* ===== verification/DenseSizes.v ===== *)
(** * Sizes, copies and comparison of hash tables

    [rehash], [reserve], the constructor with a bucket count, the copy and move
    operations, [swap], [operator==], and the lookups and insertions defined by the
    basic ones ([tl2/ankerl/unordered_dense.h]).  An iterator is an index of
    [m_values]; a [table] argument that is moved from is part of the result. *)

From S2P Require Import Prelude DenseTable DenseRing DenseProof.
Import Dense.
#[local] Open Scope tl2_scope.

(** ** The operations *)

Section Ops.
Context {K V : Type} `{EqDecision K} (mixed_hash : K -> Z).
Implicit Types (t : table K V).

(** [max_size]: the value index has 32 bits. *)
Definition max_size : Z := 2 ^ 32.

(** [insert(value)] and its variants with a hint. *)
Definition insert t (value : K * V) : result (table K V * (Z * bool)) := emplace mixed_hash t value.1 value.2.

Fixpoint insert_range t (values : list (K * V)) : result (table K V) :=
  match values with
  | [] => Ok t
  | value :: values' => r <~ insert t value; insert_range r.1 values'
  end.

(** [at], by [do_at]. *)
Definition at_ t (key : K) : result V :=
  it <~ find mixed_hash t key;
  match it with Some v => Ok v | None => KeyNotFound end.

(** [operator[]]: the index of the pair whose second component the reference is. *)
Definition bracket (default : V) t (key : K) : result (table K V * Z) :=
  r <~ do_try_emplace mixed_hash t key default; Ok (r.1, r.2.1).

(** [equal_range]: the index range, [end()] being the size. *)
Definition equal_range t (key : K) : result (Z * Z) :=
  i <~ do_find mixed_hash t key;
  match i with Some i => Ok (i, i + 1) | None => Ok (size t, size t) end.

(** [operator==] of two different tables. *)
Fixpoint all_found `{EqDecision V} t (entries : list (K * V)) : result bool :=
  match entries with
  | [] => Ok true
  | b_entry :: entries' =>
      it <~ find mixed_hash t b_entry.1;
      if bool_decide (it = Some b_entry.2) then all_found t entries' else Ok false
  end.

Definition equal `{EqDecision V} (a b : table K V) : result bool :=
  if negb (size a =? size b) then Ok false else all_found a (m_values b).

(** ** Sizes *)

(** The loop of [calc_shifts_for_size] from [shifts]. *)
Fixpoint shifts_from (shifts : nat) (s : Z) : Z :=
  match shifts with
  | O => 0
  | S shifts' =>
      if load_capacity (calc_num_buckets (Z.of_nat shifts)) <? s then shifts_from shifts' s else Z.of_nat shifts
  end.

Definition calc_shifts_for_size (s : Z) : Z := shifts_from (Z.to_nat initial_shifts) s.

Definition set_shifts t (shifts : Z) : table K V := Table (m_values t) (m_buckets t) (m_max_bucket_capacity t) shifts.

Definition rehash t (count : Z) : result (table K V) :=
  let count := Z.min count max_size in
  let shifts := calc_shifts_for_size (Z.max count (size t)) in
  if negb (shifts =? m_shifts t) then
    clear_and_fill_buckets_from_values mixed_hash (allocate_buckets_from_shift (deallocate_buckets (set_shifts t shifts)))
  else Ok t.

Definition reserve t (capa : Z) : result (table K V) :=
  let capa := Z.min capa max_size in
  let shifts := calc_shifts_for_size (Z.max capa (size t)) in
  if (0 =? bucket_count (m_buckets t)) || (shifts <? m_shifts t) then
    clear_and_fill_buckets_from_values mixed_hash (allocate_buckets_from_shift (deallocate_buckets (set_shifts t shifts)))
  else Ok t.

(** The members as they are before the body of a constructor. *)
Definition fresh : table K V := Table [] [] 0 initial_shifts.

Definition make_sized (count : Z) : result (table K V) :=
  if negb (0 =? count) then reserve fresh count else Ok (clear_buckets (allocate_buckets_from_shift fresh)).

(** ** Copies and moves *)

(** [copy_buckets]: [memcpy] of as many buckets as were allocated, which has to
    be no more than there are. *)
Definition copy_buckets t (other : table K V) : result (table K V) :=
  if empty t then Ok (clear_buckets (allocate_buckets_from_shift t))
  else
    let t := allocate_buckets_from_shift (set_shifts t (m_shifts other)) in
    if bucket_count (m_buckets other) <? bucket_count (m_buckets t) then Stuck
    else Ok (set_buckets t (take (length (m_buckets t)) (m_buckets other))).

Definition copy (other : table K V) : result (table K V) := copy_buckets (set_values fresh (m_values other)) other.

Definition copy_assign t (other : table K V) : result (table K V) :=
  copy_buckets (set_shifts (set_values (deallocate_buckets t) (m_values other)) initial_shifts) other.

(** Allocators compare equal, being [std::allocator]. The moved-from table comes second. *)
Definition move_assign t (other : table K V) : table K V * table K V :=
  let t := deallocate_buckets t in
  (Table (m_values other) (m_buckets other) (m_max_bucket_capacity other) (m_shifts other),
   clear_buckets (allocate_buckets_from_shift (Table [] [] 0 initial_shifts))).

Definition move (other : table K V) : table K V * table K V := move_assign fresh other.

(** [std::swap]. *)
Definition swap (a b : table K V) : table K V * table K V :=
  let '(tmp, a) := move a in
  let '(a, b) := move_assign a b in
  let '(b, _) := move_assign b tmp in
  (a, b).

(** The constructors from a range and from a list, after those of the sizes, and
    [operator=] of a list. *)
Definition make_range (values : list (K * V)) (count : Z) : result (table K V) :=
  t <~ make_sized count; insert_range t values.
Definition assign_list t (ilist : list (K * V)) : result (table K V) := insert_range (clear t) ilist.

(** [extract() &&]: the container of the values, which is left empty; the buckets stay. *)
Definition extract_all t : list (K * V) * table K V := (m_values t, set_values t []).
End Ops.

(** The capacity of 2^25 buckets: the sizes asked for are at most that. *)
Definition max_reserve : Z := load_capacity (2 ^ 25).

Lemma max_reserve_value : max_reserve = 26843546.
Proof. reflexivity. Qed.

Lemma shifts_from_spec n s : (39 <= n <= 62)%nat -> s <= max_reserve ->
  39 <= shifts_from n s <= Z.of_nat n /\ s <= load_capacity (2 ^ (64 - shifts_from n s)).
Proof.
  intros Hn Hs. assert (Hnum : forall n, (39 <= n <= 62)%nat -> calc_num_buckets (Z.of_nat n) = 2 ^ (64 - Z.of_nat n)).
  { intros k Hk. unfold calc_num_buckets, max_bucket_count. apply Z.min_r.
    pose proof (pow_bounds (Z.of_nat k) ltac:(lia)). lia. }
  induction n as [|n IH]; [lia|]. cbn [shifts_from]. rewrite Hnum by lia.
  destruct (Z.ltb_spec (load_capacity (2 ^ (64 - Z.of_nat (S n)))) s) as [Hlt|Hge]; [|lia].
  destruct (decide (n = 38)%nat) as [->|]; [change (64 - Z.of_nat 39) with 25 in Hlt; unfold max_reserve in Hs; lia|].
  destruct IH as [IH1 IH2]; [lia|]. split; [lia|exact IH2].
Qed.

Lemma calc_shifts_spec s : s <= max_reserve ->
  39 <= calc_shifts_for_size s <= 62 /\ s <= load_capacity (2 ^ (64 - calc_shifts_for_size s)).
Proof. apply (shifts_from_spec 62). lia. Qed.

Section Table.
Context {K V : Type} `{EqDecision K} (mixed_hash : K -> Z).
Implicit Types (t : table K V).

Lemma count_pos t : table_ok mixed_hash t -> 4 <= bucket_count (m_buckets t) <= 2 ^ 25.
Proof. intros Ht. rewrite (ok_count _ _ Ht). apply pow_bounds, Ht. Qed.

(** The buckets made anew for at least [c] pairs. *)
Lemma resized t c : table_ok mixed_hash t -> small t -> c <= max_reserve ->
  exists t', clear_and_fill_buckets_from_values mixed_hash (allocate_buckets_from_shift (deallocate_buckets
      (set_shifts t (calc_shifts_for_size (Z.max c (size t)))))) = Ok t' /\
    table_ok mixed_hash t' /\ m_values t' = m_values t.
Proof.
  intros Ht Hs Hc. unfold small in Hs. unfold size.
  destruct (calc_shifts_spec (Z.max c (Z.of_nat (length (m_values t))))) as [Hsh Hcap].
  { rewrite max_reserve_value in *. lia. }
  destruct (rebuild_spec mixed_hash t (calc_shifts_for_size (Z.max c (Z.of_nat (length (m_values t)))))
    (m_max_bucket_capacity t)) as (t' & E & Hv & Ht'); [apply Ht|apply Ht|done|lia|lia|].
  by exists t'.
Qed.

Lemma rehash_spec t c : table_ok mixed_hash t -> small t -> c <= max_reserve ->
  exists t', rehash mixed_hash t c = Ok t' /\ table_ok mixed_hash t' /\ m_values t' = m_values t.
Proof.
  intros Ht Hs Hc. unfold rehash. case_match; [|by exists t]. apply resized; [done|done|lia].
Qed.

Lemma reserve_spec t c : table_ok mixed_hash t -> small t -> c <= max_reserve ->
  exists t', reserve mixed_hash t c = Ok t' /\ table_ok mixed_hash t' /\ m_values t' = m_values t.
Proof.
  intros Ht Hs Hc. unfold reserve. case_match; [|by exists t]. apply resized; [done|done|lia].
Qed.

Lemma make_sized_spec c : 0 <= c <= max_reserve ->
  exists t, make_sized mixed_hash c = Ok t /\ table_ok mixed_hash t /\ m_values t = ([] : list (K * V)).
Proof.
  intros Hc. unfold make_sized. destruct (Z.eqb_spec 0 c) as [E|E]; cbn [negb].
  - exists make. split; [done|]. split; [apply make_ok|done].
  - unfold reserve, fresh, size. cbn [m_values m_buckets length bucket_count]. cbn [Z.of_nat Z.eqb orb].
    destruct (calc_shifts_spec (Z.max (Z.min c max_size) 0)) as [Hsh Hcap]; [rewrite max_reserve_value in *; unfold max_size; lia|].
    destruct (rebuild_spec (V := V) mixed_hash (Table [] [] 0 initial_shifts) (calc_shifts_for_size (Z.max (Z.min c max_size) 0)) 0)
      as (t & Et & Hv & Ht); [constructor|constructor|done|cbn; lia|cbn; lia|].
    exists t. by split.
Qed.

(** ** Copies and moves *)

(** Allocation for the shift of a table gives its capacity back. *)
Lemma allocated t B c : table_ok mixed_hash t ->
  allocate_buckets_from_shift (Table (m_values t) B c (m_shifts t)) =
    Table (m_values t) (resize B (bucket_count (m_buckets t))) (m_max_bucket_capacity t) (m_shifts t).
Proof.
  intros Ht. pose proof (ok_shift _ _ Ht) as Hsh. pose proof (count_pos t Ht) as Hn.
  unfold allocate_buckets_from_shift. cbn [m_shifts m_values m_buckets].
  assert (E : calc_num_buckets (m_shifts t) = bucket_count (m_buckets t)).
  { rewrite (ok_count _ _ Ht) in *. unfold calc_num_buckets, max_bucket_count. lia. }
  rewrite E. unfold max_bucket_count. destruct (Z.eqb_spec (bucket_count (m_buckets t)) (2 ^ 32)); [lia|].
  f_equal. rewrite (ok_cap _ _ Ht). pose proof (load_capacity_lt (bucket_count (m_buckets t)) ltac:(lia)).
  apply Z.mod_small. lia.
Qed.

Lemma copied t B c s : table_ok mixed_hash t -> B = [] ->
  copy_buckets (Table (m_values t) B c s) t =
    Ok (if empty t then clear_buckets (allocate_buckets_from_shift (Table [] [] c s)) else t).
Proof.
  intros Ht ->. unfold copy_buckets. change (empty (Table (m_values t) [] c s)) with (empty t).
  destruct (empty t) eqn:E.
  - unfold empty, size in E. destruct (m_values t); [done|]. simpl in E. lia.
  - unfold set_shifts. cbn [m_values m_buckets m_max_bucket_capacity]. rewrite allocated by done.
    cbn [m_buckets]. unfold resize. rewrite take_nil. cbn [app length]. rewrite Nat.sub_0_r.
    unfold bucket_count at 2. rewrite length_replicate. unfold bucket_count. rewrite !Nat2Z.id.
    destruct (Z.ltb_spec (Z.of_nat (length (m_buckets t))) (Z.of_nat (length (m_buckets t)))); [lia|].
    unfold set_buckets. cbn [m_values m_max_bucket_capacity m_shifts]. rewrite take_ge by lia. by destruct t.
Qed.

(** A copy of an empty table has the initial buckets. *)
Definition copy_of t : table K V := if empty t then make else t.

Lemma copy_spec t : table_ok mixed_hash t -> copy t = Ok (copy_of t).
Proof. intros Ht. unfold copy, fresh, set_values. cbn [m_buckets m_max_bucket_capacity m_shifts]. by rewrite copied. Qed.

Lemma copy_assign_spec t t' : table_ok mixed_hash t' -> copy_assign t t' = Ok (copy_of t').
Proof.
  intros Ht. unfold copy_assign, deallocate_buckets, set_shifts, set_values.
  cbn [m_values m_buckets m_max_bucket_capacity m_shifts]. by rewrite copied.
Qed.

Lemma copy_of_ok t : table_ok mixed_hash t -> table_ok mixed_hash (copy_of t) /\ m_values (copy_of t) = m_values t.
Proof.
  intros Ht. unfold copy_of. destruct (empty t) eqn:E; [|done]. split; [apply make_ok|].
  unfold empty, size in E. destruct (m_values t); [done|]. simpl in E. lia.
Qed.

Lemma move_assign_spec t t' : move_assign t t' = (t', make).
Proof. unfold move_assign. by destruct t'. Qed.

Lemma swap_spec t t' : swap t t' = (t', t).
Proof. unfold swap, move. by rewrite !move_assign_spec. Qed.
End Table.

(** ** Comparison *)

Section Equal.
Context {K V : Type} `{Countable K} `{EqDecision V} (mixed_hash : K -> Z).
Implicit Types (t : table K V).

Lemma all_found_spec t entries : table_ok mixed_hash t -> small t ->
  Forall (fun kv => W64.in_range (mixed_hash kv.1)) entries ->
  all_found mixed_hash t entries = Ok (bool_decide (Forall (fun kv => as_map t !! kv.1 = Some kv.2) entries)).
Proof.
  intros Ht Hs Hall. induction Hall as [|kv entries Hx Hall IH]; [by rewrite bool_decide_true|].
  cbn [all_found]. rewrite table_find_spec by done. cbn [rbind]. rewrite IH.
  destruct (bool_decide_reflect (as_map t !! kv.1 = Some kv.2)) as [E|E];
    [f_equal; apply bool_decide_ext|rewrite bool_decide_false; [done|]]; rewrite Forall_cons; tauto.
Qed.

Lemma size_as_map t : table_ok mixed_hash t -> Z.of_nat (base.size (as_map t)) = size t.
Proof. intros Ht. unfold as_map, size. by rewrite map_size_list_to_map by apply Ht. Qed.

Lemma as_map_entries t (m : gmap K V) : table_ok mixed_hash t ->
  Forall (fun kv => m !! kv.1 = Some kv.2) (m_values t) <-> as_map t ⊆ m.
Proof.
  intros Ht. pose proof (ok_keys _ _ Ht) as Hnd. rewrite Forall_forall, map_subseteq_spec. unfold as_map. split.
  - intros Hf k v Hk. apply elem_of_list_to_map in Hk; [|done]. exact (Hf _ Hk).
  - intros Hsub [k v] Hin. apply Hsub. by apply elem_of_list_to_map.
Qed.

Lemma equal_spec (a b : table K V) : table_ok mixed_hash a -> small a -> table_ok mixed_hash b ->
  equal mixed_hash a b = Ok (bool_decide (as_map a = as_map b)).
Proof.
  intros Ha Hs Hb. unfold equal. pose proof (size_as_map a Ha) as Ea. pose proof (size_as_map b Hb) as Eb.
  destruct (Z.eqb_spec (size a) (size b)) as [E|E]; cbn [negb].
  - rewrite all_found_spec by (done || apply Hb). f_equal. apply bool_decide_ext. rewrite as_map_entries by done. split.
    + intros Hsub. symmetry. apply map_subseteq_size_eq; [done|lia].
    + by intros ->.
  - rewrite bool_decide_false; [done|]. intros Em. rewrite Em in Ea. lia.
Qed.

(** ** Lookups and insertions defined by the basic ones *)

Lemma at_spec t key : table_ok mixed_hash t -> small t -> W64.in_range (mixed_hash key) ->
  at_ mixed_hash t key = match as_map t !! key with Some v => Ok v | None => KeyNotFound end.
Proof. intros Ht Hs Hx. unfold at_. by rewrite table_find_spec. Qed.

(** What [emplace] and [try_emplace] do to the map. *)
Lemma emplaced_map t key v r : table_ok mixed_hash t -> emplaced mixed_hash t key v r ->
  exists t' i b, r = Ok (t', (i, b)) /\ table_ok mixed_hash t' /\ fst <$> m_values t' !! Z.to_nat i = Some key /\
    as_map t' = as_map t ∪ {[ key := v ]} /\ (length (m_values t') <= S (length (m_values t)))%nat.
Proof.
  intros Ht [(i & [k w] & -> & Hi & Hv & Hk)|(Hno & t' & -> & Ht' & Hval)].
  - simpl in Hk. subst k. exists t, i, false. rewrite Hv. split_and!; [done..| |lia].
    pose proof (as_map_lookup t _ _ (ok_keys _ _ Ht) Hv) as Hm. simpl in Hm. apply map_eq. intros k.
    destruct (as_map t !! k) eqn:E; [by rewrite (lookup_union_Some_l _ _ _ _ E)|].
    rewrite lookup_union_r, lookup_singleton_ne by (done || congruence). done.
  - eexists t', _, true. split; [done|]. split; [done|]. rewrite Hval, Nat2Z.id, lookup_app_r, Nat.sub_diag by lia.
    split; [done|]. split; [|rewrite length_app; simpl; lia]. rewrite (as_map_snoc t t' key v Hno Hval).
    rewrite insert_union_singleton_l. apply map_union_comm, map_disjoint_singleton_l. by apply as_map_none.
Qed.

(** [operator[]] adds the key with the default value unless it is there. *)
Lemma bracket_spec d t key : table_ok mixed_hash t -> small t -> W64.in_range (mixed_hash key) ->
  exists t' i, bracket mixed_hash d t key = Ok (t', i) /\ table_ok mixed_hash t' /\
    fst <$> m_values t' !! Z.to_nat i = Some key /\ as_map t' = as_map t ∪ {[ key := d ]}.
Proof.
  intros Ht Hs Hx. unfold bracket.
  destruct (emplaced_map t key d _ Ht (try_emplace_spec mixed_hash t key d Ht Hs Hx)) as (t' & i & b & -> & Ht' & Hi & Hm & _).
  by exists t', i.
Qed.

(** The pairs already there win, then the first of the range. *)
Lemma insert_range_spec t vs : table_ok mixed_hash t ->
  Z.of_nat (length (m_values t) + length vs) < 2 ^ 24 - 5 -> Forall (fun kv => W64.in_range (mixed_hash kv.1)) vs ->
  exists t', insert_range mixed_hash t vs = Ok t' /\ table_ok mixed_hash t' /\ as_map t' = as_map t ∪ list_to_map vs.
Proof.
  intros Ht Hlen Hall. revert t Ht Hlen. induction Hall as [|[k v] vs Hx Hall IH]; intros t Ht Hlen.
  - exists t. split; [done|]. split; [done|]. simpl. by rewrite (right_id ∅ (∪)).
  - simpl in Hlen. cbn [insert_range]. unfold insert. cbn [fst snd].
    destruct (emplaced_map t k v _ Ht (emplace_spec mixed_hash t k v Ht ltac:(unfold small; lia) Hx))
      as (t1 & i & b & -> & Ht1 & _ & Hm & Hl1). cbn [rbind fst].
    destruct (IH t1 Ht1) as (t' & E & Ht' & Hm'); [lia|]. exists t'. split; [exact E|]. split; [done|].
    rewrite Hm', Hm. simpl. by rewrite insert_union_singleton_l, (assoc (∪)).
Qed.

Lemma make_range_spec vs c : 0 <= c <= max_reserve -> Z.of_nat (length vs) < 2 ^ 24 - 5 ->
  Forall (fun kv => W64.in_range (mixed_hash kv.1)) vs ->
  exists t, make_range mixed_hash vs c = Ok t /\ table_ok mixed_hash t /\ as_map t = list_to_map vs.
Proof.
  intros Hc Hlen Hall. unfold make_range. destruct (make_sized_spec (V := V) mixed_hash c Hc) as (t & -> & Ht & Hv). cbn [rbind].
  destruct (insert_range_spec t vs Ht) as (t' & E & Ht' & Hm); [by rewrite Hv|done|]. exists t'. split; [exact E|].
  split; [done|]. rewrite Hm. unfold as_map at 1. rewrite Hv. apply (left_id ∅ (∪)).
Qed.

Lemma assign_list_spec t vs : table_ok mixed_hash t -> Z.of_nat (length vs) < 2 ^ 24 - 5 ->
  Forall (fun kv => W64.in_range (mixed_hash kv.1)) vs ->
  exists t', assign_list mixed_hash t vs = Ok t' /\ table_ok mixed_hash t' /\ as_map t' = list_to_map vs.
Proof.
  intros Ht Hlen Hall. destruct (insert_range_spec (clear t) vs (clear_ok mixed_hash t Ht)) as (t' & E & Ht' & Hm); [done..|].
  exists t'. split; [exact E|]. split; [done|]. rewrite Hm. apply (left_id ∅ (∪)).
Qed.

Lemma equal_range_spec t key : table_ok mixed_hash t -> small t -> W64.in_range (mixed_hash key) ->
  exists i j, equal_range mixed_hash t key = Ok (i, j) /\
    take (Z.to_nat (j - i)) (drop (Z.to_nat i) (m_values t)) =
      match as_map t !! key with Some v => [(key, v)] | None => [] end.
Proof.
  intros Ht Hs Hx. unfold equal_range.
  destruct (do_find_spec mixed_hash t key Ht Hs Hx) as [(i & [k v] & -> & Hi & Hv & <-)|[-> Hno]]; cbn [rbind].
  - exists i, (i + 1). split; [done|]. pose proof (as_map_lookup t _ _ (ok_keys _ _ Ht) Hv) as Hm. simpl in Hm |- *.
    rewrite Hm. replace (Z.to_nat (i + 1 - i)) with 1%nat by lia. by rewrite (drop_S _ _ _ Hv), firstn_cons, take_0.
  - exists (size t), (size t). split; [done|]. rewrite Z.sub_diag, take_0. by rewrite as_map_none.
Qed.

(** [C33] Sizes, copies and moves of the hash table of the location set.  [rehash],
    [reserve] and the constructor with a bucket count end with the same pairs in
    a table that keeps the invariant, for any request up to the capacity of 2^25
    buckets.  A copy, made or assigned, has the pairs of the original; a moved
    table is the original and leaves an empty one; [swap] exchanges the tables.
    [operator==] holds exactly for tables with the same finite map. *)
Theorem dense_sizes (a b : table K V) c : table_ok mixed_hash a -> small a -> table_ok mixed_hash b -> 0 <= c <= max_reserve ->
  (forall r, r = rehash mixed_hash a c \/ r = reserve mixed_hash a c \/ r = copy a \/ r = copy_assign b a ->
   exists t, r = Ok t /\ table_ok mixed_hash t /\ m_values t = m_values a) /\
  (exists t, make_sized mixed_hash c = Ok t /\ table_ok mixed_hash t /\ as_map t = (∅ : gmap K V)) /\
  move a = (a, make) /\ move_assign b a = (a, make) /\ swap a b = (b, a) /\
  equal mixed_hash a b = Ok (bool_decide (as_map a = as_map b)).
Proof.
  intros Ha Hs Hb Hc. split; [|split; [|split; [|split; [|split]]]].
  - intros r [-> | [-> | [-> | ->]]].
    + apply rehash_spec; [done|done|lia].
    + apply reserve_spec; [done|done|lia].
    + rewrite (copy_spec mixed_hash) by done. exists (copy_of a). split; [done|]. by apply copy_of_ok.
    + rewrite (copy_assign_spec mixed_hash) by done. exists (copy_of a). split; [done|]. by apply copy_of_ok.
  - destruct (make_sized_spec (V := V) mixed_hash c Hc) as (t & Et & Ht & Hv). exists t. split; [exact Et|]. split; [done|].
    unfold as_map. by rewrite Hv.
  - apply move_assign_spec.
  - apply move_assign_spec.
  - apply swap_spec.
  - by apply equal_spec.
Qed.
End Equal.

Lemma dense_sizes_witness : exists t, rehash WyHash.hash (make : table Z Z) 100 = Ok t /\ table_ok WyHash.hash t /\
  equal WyHash.hash (make : table Z Z) make = Ok true.
Proof.
  destruct (dense_sizes (V := Z) WyHash.hash make make 100 (make_ok _) ltac:(done) (make_ok _) ltac:(rewrite max_reserve_value; lia))
    as (Hr & _ & _ & _ & _ & He).
  destruct (Hr _ (or_introl eq_refl)) as (t & E & Ht & _). exists t. split; [exact E|]. split; [exact Ht|].
  rewrite He. by rewrite bool_decide_true.
Defined.

(** After [extract() &&] a table has no values but the buckets of those it had: to
    insert one of its keys again finds the new value behind the old bucket, takes
    it away, and answers that the key is there. *)
Example extract_all_stale :
  match insert_range WyHash.hash make [(8, 1); (16, 2)] with
  | Ok t => match insert WyHash.hash (extract_all t).2 (8, 3) with Ok (t', r) => Some ((extract_all t).1, m_values t', r) | _ => None end
  | _ => None
  end = Some ([(8, 1); (16, 2)], [], (0, false)).
Proof. vm_compute. reflexivity. Qed.
