(* ===== verification/DenseRange.v ===== *)
(** * Removal by iterator, [replace] and [replace_key]

    The operations of [table] ([tl2/ankerl/unordered_dense.h]) that work on
    positions of the values: each ends, keeps the invariant, and moves the pairs
    as stated. *)

From S2P Require Import Prelude DenseTable DenseRing DenseProof DenseErase DenseSizes.
Import Dense.
#[local] Open Scope tl2_scope.

(** ** The operations *)

Section Ops.
Context {K V : Type} `{EqDecision K} (mixed_hash : K -> Z).
Implicit Types (t : table K V).

(** ** Removal by iterator *)

(** The search of the bucket of the pair at [it] in [erase(it)] and [extract(it)]. *)
Definition bucket_of t (it : Z) : result Z :=
  kv <~ get (m_values t) it;
  seek_value (fuel_of t) (m_buckets t) (bucket_idx_from_hash (m_shifts t) (mixed_hash kv.1)) (wrap32 it).

Definition erase_at t (it : Z) : result (table K V * Z) :=
  bucket_idx <~ bucket_of t it; r <~ do_erase mixed_hash t bucket_idx; Ok (r.1, wrap32 it).

Definition extract_at t (it : Z) : result (table K V * (K * V)) :=
  bucket_idx <~ bucket_of t it; do_erase mixed_hash t bucket_idx.

(** The loops of [erase(first, last)]. *)
Fixpoint erase_up (fuel : nat) t (idx mid : Z) : result (table K V) :=
  if idx =? mid then Ok t
  else match fuel with O => Stuck | S fuel' => r <~ erase_at t idx; erase_up fuel' r.1 (idx + 1) mid end.

Fixpoint erase_down (fuel : nat) t (idx mid : Z) : result (table K V) :=
  if idx =? mid then Ok t
  else match fuel with O => Stuck | S fuel' => r <~ erase_at t (idx - 1); erase_down fuel' r.1 (idx - 1) mid end.

Definition erase_range t (first last : Z) : result (table K V * Z) :=
  let first_to_last := last - first in
  let last_to_end := size t - last in
  let mid := first + Z.min first_to_last last_to_end in
  t1 <~ erase_up (length (m_values t)) t first mid;
  t2 <~ erase_down (length (m_values t)) t1 last mid;
  Ok (t2, first).

(** [std::erase_if]: from the last position to the first, since [erase] moves the
    last pair; the answer is how many pairs were removed. *)
Fixpoint erase_if_from (idx : nat) (pred : K * V -> bool) t : result (table K V) :=
  match idx with
  | O => Ok t
  | S idx' =>
      kv <~ get (m_values t) (Z.of_nat idx');
      t' <~ (if pred kv then r <~ erase_at t (Z.of_nat idx'); Ok r.1 else Ok t);
      erase_if_from idx' pred t'
  end.

Definition erase_if (pred : K * V -> bool) t : result (table K V * Z) :=
  t' <~ erase_if_from (length (m_values t)) pred t; Ok (t', size t - size t').

(** ** [replace] *)

(** The loop of [replace]: the values before [value_idx] have their buckets. *)
Fixpoint replace_from (fuel : nat) t (value_idx : Z) : result (table K V) :=
  if value_idx =? wrap32 (size t) then Ok t
  else match fuel with
  | O => Stuck
  | S fuel' =>
      kv <~ get (m_values t) value_idx;
      r <~ hash_probe mixed_hash t kv.1;
      match r with
      | inl _ =>
          vs <~ (if negb (value_idx =? wrap32 (size t - 1)) then
                   back <~ get (m_values t) (size t - 1); Ok (set (m_values t) value_idx back)
                 else Ok (m_values t));
          replace_from fuel' (set_values t (removelast vs)) value_idx
      | inr b =>
          B <~ place_and_shift_up (fuel_of t) (m_buckets t) (Bucket (m_dist_and_fingerprint b) value_idx) (m_value_idx b);
          replace_from fuel' (set_buckets t B) (wrap32 (value_idx + 1))
      end
  end.

Definition replace t (container : list (K * V)) : result (table K V) :=
  if max_size <? Z.of_nat (length container) then TooManyElements
  else
    let shifts := calc_shifts_for_size (Z.of_nat (length container)) in
    let t := if (0 =? bucket_count (m_buckets t)) || (shifts <? m_shifts t)
             then allocate_buckets_from_shift (deallocate_buckets (set_shifts t shifts)) else t in
    replace_from (length container) (set_values (clear_buckets t) container) 0.

(** ** [replace_key] *)

Definition replace_key t (it : Z) (new_key : K) : result (table K V * (Z * bool)) :=
  r <~ hash_probe mixed_hash t new_key;
  match r with
  | inl i => Ok (t, (i, false))
  | inr _ =>
      bucket_idx <~ bucket_of t it;
      target <~ get (m_values t) it;
      let vs := set (m_values t) it (new_key, target.2) in
      B <~ erase_and_shift_down (fuel_of t) (m_buckets t) bucket_idx;
      let t := set_values (set_buckets t B) vs in
      b <~ hash_next_while_less mixed_hash t new_key;
      B <~ place_and_shift_up (fuel_of t) (m_buckets t) (Bucket (m_dist_and_fingerprint b) (wrap32 it)) (m_value_idx b);
      Ok (set_buckets t B, (it, true))
  end.
End Ops.

(** ** The values *)

Section Lists.
Context {A : Type}.
Implicit Types (l : list A).

(** [remove_at] at the successive positions from [i] on. *)
Fixpoint remove_up (n : nat) i l : list A :=
  match n with O => l | S n' => remove_up n' (S i) (remove_at i l) end.

(** [remove_at] at the [n] positions below [i], downwards. *)
Fixpoint remove_down (n : nat) i l : list A :=
  match n with O => l | S n' => remove_down n' (pred i) (remove_at (pred i) l) end.

Lemma remove_at_middle l x m b : remove_at (length l) (l ++ x :: m ++ [b]) = l ++ b :: m.
Proof. by rewrite app_comm_cons, app_assoc, remove_at_snoc, insert_app_r_alt, Nat.sub_diag by lia. Qed.

Lemma remove_at_end l x : remove_at (length l) (l ++ [x]) = l.
Proof. rewrite remove_at_snoc. by apply list_insert_ge. Qed.

Lemma remove_at_app l x m : exists m', remove_at (length l) (l ++ x :: m) = l ++ m' /\ m' ≡ₚ m.
Proof.
  destruct m as [|b m _] using rev_ind; [exists []; by rewrite remove_at_end, app_nil_r|].
  exists (b :: m). rewrite remove_at_middle. split; [done|]. solve_Permutation.
Qed.

(** The last elements take the places of the removed ones, in reverse. *)
Lemma remove_up_spec l s s' m m' : length s = length m' ->
  remove_up (length s) (length l) (l ++ (s ++ s') ++ (m ++ m')) = l ++ reverse m' ++ s' ++ m.
Proof.
  revert l m'. induction s as [|x s IH]; intros l m' Hlen; [by destruct m'; simpl; rewrite ?app_nil_r|].
  destruct m' as [|b m' _] using rev_ind; [done|]. rewrite length_app in Hlen. simpl in Hlen.
  cbn [remove_up length].
  assert (E : l ++ ((x :: s) ++ s') ++ m ++ m' ++ [b] = l ++ x :: ((s ++ s') ++ m ++ m') ++ [b])
    by (simpl; by rewrite <- !app_assoc).
  rewrite E, remove_at_middle. replace (S (length l)) with (length (l ++ [b])) by (rewrite length_app; simpl; lia).
  rewrite (cons_middle b l ((s ++ s') ++ m ++ m')), (app_assoc l [b]), IH by lia.
  rewrite reverse_app. simpl. by rewrite <- !app_assoc.
Qed.

Lemma remove_down_spec l m : remove_down (length m) (length (l ++ m)) (l ++ m) = l.
Proof.
  induction m as [|x m IH] using rev_ind; [by rewrite app_nil_r|].
  rewrite length_app. simpl. rewrite Nat.add_1_r. cbn [remove_down].
  replace (pred (length (l ++ m ++ [x]))) with (length (l ++ m)) by (rewrite !length_app; simpl; lia).
  by rewrite app_assoc, remove_at_end.
Qed.
End Lists.

(** ** Iterators *)

Section Table.
Context {K V : Type} `{EqDecision K} (mixed_hash : K -> Z).
Implicit Types (t : table K V) (vs : list (K * V)).

Lemma small_idx t i : small t -> 0 <= i < Z.of_nat (length (m_values t)) -> wrap32 i = i.
Proof. unfold small, wrap32. intros. apply Z.mod_small. lia. Qed.

(** The bucket of the pair at an iterator. *)
Lemma bucket_of_spec t i kv : table_ok mixed_hash t -> small t -> 0 <= i -> m_values t !! Z.to_nat i = Some kv ->
  exists p, bucket_of mixed_hash t i = Ok (p mod bucket_count (m_buckets t)) /\
    dist_of (bk (m_buckets t) p) <> 0 /\ idx_of (bk (m_buckets t) p) = i.
Proof.
  intros Ht Hs Hi Hv. pose proof (ok_ring _ _ Ht) as Hr. pose proof (lookup_lt_Some _ _ _ Hv) as Hlt.
  assert (Hx : hashes mixed_hash (m_values t) !! i = Some (mixed_hash kv.1)) by (apply lookup_hashes; eauto).
  destruct (located _ _ _ Hr _ _ Hx) as (j & Hj & Hjn & Hat & Hway). pose proof (r_home _ _ _ Hr _ _ Hx) as Hh.
  exists (home (m_shifts t) (mixed_hash kv.1) + j). rewrite Hat. simpl. pose proof (word_bounds (mixed_hash kv.1) j).
  split; [|split; [lia|done]]. unfold bucket_of, get. destruct (Z.ltb_spec i 0); [lia|]. rewrite Hv. cbn [rbind].
  rewrite (small_idx t) by (done || lia).
  pose proof (home_pos (m_shifts t) (m_buckets t) (mixed_hash kv.1) Hh) as Eh. unfold home in Eh at 1. rewrite Eh.
  apply (seek_value_run _ (fuel_of t) _ _ _ _ j 0 Hr Hx Hat Hway); [lia|lia|]. rewrite fuel_count. lia.
Qed.

Lemma extract_at_spec t i kv : table_ok mixed_hash t -> small t -> 0 <= i -> m_values t !! Z.to_nat i = Some kv ->
  exists t', extract_at mixed_hash t i = Ok (t', kv) /\ erase_at mixed_hash t i = Ok (t', i) /\
    table_ok mixed_hash t' /\ small t' /\ m_values t' = remove_at (Z.to_nat i) (m_values t).
Proof.
  intros Ht Hs Hi Hv. destruct (bucket_of_spec t i kv Ht Hs Hi Hv) as (p & Eb & Hp & <-).
  destruct (do_erase_spec mixed_hash t p kv Ht Hs Hp Hv) as (t' & Ee & Ht' & Hval).
  exists t'. unfold extract_at, erase_at. rewrite Eb. cbn [rbind]. rewrite Ee. split; [done|]. cbn [rbind fst].
  pose proof (lookup_lt_Some _ _ _ Hv) as Hlt. split; [by rewrite (small_idx t) by (done || lia)|]. split; [done|].
  split; [|done]. unfold small in *. pose proof (remove_at_perm _ _ _ Hv) as Hp'. rewrite <- Hval in Hp'.
  apply Permutation_length in Hp'. simpl in Hp'. lia.
Qed.

Lemma erase_at_spec t i : table_ok mixed_hash t -> small t -> 0 <= i < Z.of_nat (length (m_values t)) ->
  exists t', erase_at mixed_hash t i = Ok (t', i) /\ table_ok mixed_hash t' /\ small t' /\
    m_values t' = remove_at (Z.to_nat i) (m_values t) /\ length (m_values t) = S (length (m_values t')).
Proof.
  intros Ht Hs Hi. destruct (lookup_lt_is_Some_2 (m_values t) (Z.to_nat i)) as [kv Hv]; [lia|].
  destruct (extract_at_spec t i kv Ht Hs ltac:(lia) Hv) as (t' & _ & E & Ht' & Hs' & Hval). exists t'.
  repeat (split; [done|]). rewrite Hval. exact (Permutation_length (remove_at_perm _ _ _ Hv)).
Qed.

Lemma erase_up_spec fuel n t i : table_ok mixed_hash t -> small t -> 0 <= i -> (n <= fuel)%nat ->
  i + 2 * Z.of_nat n <= Z.of_nat (length (m_values t)) ->
  exists t', erase_up mixed_hash fuel t i (i + Z.of_nat n) = Ok t' /\ table_ok mixed_hash t' /\ small t' /\
    m_values t' = remove_up n (Z.to_nat i) (m_values t).
Proof.
  revert t i n. induction fuel as [|fuel IH]; intros t i n Ht Hs Hi Hn Hlen; cbn [erase_up];
    (destruct (Z.eqb_spec i (i + Z.of_nat n)) as [E|E]; [assert (n = 0%nat) as -> by lia; by exists t|]); [lia|].
  destruct n as [|n]; [lia|].
  destruct (erase_at_spec t i Ht Hs ltac:(lia)) as (t1 & -> & Ht1 & Hs1 & Hv1 & Hl1). cbn [rbind fst].
  destruct (IH t1 (i + 1) n Ht1 Hs1) as (t' & E' & Ht' & Hs' & Hv'); [lia..|].
  exists t'. replace (i + Z.of_nat (S n)) with (i + 1 + Z.of_nat n) by lia. split; [exact E'|].
  split; [done|]. split; [done|]. rewrite Hv', Hv1. cbn [remove_up]. f_equal. lia.
Qed.

Lemma erase_down_spec fuel n t i : table_ok mixed_hash t -> small t -> Z.of_nat n <= i -> (n <= fuel)%nat ->
  i = Z.of_nat (length (m_values t)) \/ n = 0%nat ->
  exists t', erase_down mixed_hash fuel t i (i - Z.of_nat n) = Ok t' /\ table_ok mixed_hash t' /\ small t' /\
    m_values t' = remove_down n (Z.to_nat i) (m_values t).
Proof.
  revert t i n. induction fuel as [|fuel IH]; intros t i n Ht Hs Hi Hn Hlen; cbn [erase_down];
    (destruct (Z.eqb_spec i (i - Z.of_nat n)) as [E|E]; [assert (n = 0%nat) as -> by lia; by exists t|]); [lia|].
  destruct n as [|n]; [lia|].
  destruct (erase_at_spec t (i - 1) Ht Hs ltac:(lia)) as (t1 & -> & Ht1 & Hs1 & Hv1 & Hl1). cbn [rbind fst].
  destruct (IH t1 (i - 1) n Ht1 Hs1) as (t' & E' & Ht' & Hs' & Hv'); [lia..|].
  exists t'. replace (i - Z.of_nat (S n)) with (i - 1 - Z.of_nat n) by lia. split; [exact E'|].
  split; [done|]. split; [done|]. rewrite Hv', Hv1. cbn [remove_down].
  by replace (Z.to_nat (i - 1)) with (pred (Z.to_nat i)) by lia.
Qed.

(** A range of [s] between [l] and [m]: what is left of [m] starts with its last
    pairs, reversed. *)
Lemma erase_range_spec t l s m : table_ok mixed_hash t -> small t -> m_values t = l ++ s ++ m ->
  let k := (length s `min` length m)%nat in
  exists t', erase_range mixed_hash t (Z.of_nat (length l)) (Z.of_nat (length l + length s)) =
      Ok (t', Z.of_nat (length l)) /\ table_ok mixed_hash t' /\
    m_values t' = l ++ reverse (drop (length m - k) m) ++ take (length m - k) m.
Proof.
  intros Ht Hs Hv k. assert (Hlen : length (m_values t) = (length l + length s + length m)%nat)
    by (rewrite Hv, !length_app; lia).
  unfold erase_range, size. rewrite Hlen.
  replace (Z.of_nat (length l) + Z.min _ _) with (Z.of_nat (length l) + Z.of_nat k) by lia.
  destruct (erase_up_spec (length l + length s + length m) k t (Z.of_nat (length l)) Ht Hs) as (t1 & -> & Ht1 & Hs1 & Hv1); [lia..|].
  cbn [rbind]. assert (Ek : remove_up k (length l) (m_values t) =
    l ++ reverse (drop (length m - k) m) ++ drop k s ++ take (length m - k) m).
  { rewrite Hv, <- (take_drop k s) at 1. rewrite <- (take_drop (length m - k) m) at 1.
    replace k with (length (take k s)) at 1 by (rewrite length_take; lia).
    apply remove_up_spec. rewrite length_take, length_drop. lia. }
  rewrite Nat2Z.id, Ek in Hv1. set (k2 := (length s - k)%nat).
  destruct (erase_down_spec (length l + length s + length m) k2 t1 (Z.of_nat (length l + length s)) Ht1 Hs1)
    as (t2 & E2 & Ht2 & _ & Hv2); [lia..| |].
  { rewrite Hv1, !length_app, length_reverse, !length_drop, length_take. lia. }
  replace (Z.of_nat (length l) + Z.of_nat k) with (Z.of_nat (length l + length s) - Z.of_nat k2) by lia.
  rewrite E2. cbn [rbind]. exists t2. split; [done|]. split; [done|]. rewrite Hv2, Nat2Z.id.
  destruct (decide (k2 = 0)%nat) as [E0|E0].
  - rewrite E0. cbn [remove_down]. rewrite Hv1. do 2 f_equal. by rewrite drop_ge by lia.
  - assert (E : (length m - k = 0)%nat) by lia. rewrite E in Hv1 |- *. rewrite take_0, app_nil_r in *.
    rewrite Hv1. rewrite app_assoc.
    replace k2 with (length (drop k s)) by (rewrite length_drop; lia).
    replace (length l + length s)%nat with (length ((l ++ reverse (drop 0 m)) ++ drop k s))
      by (rewrite !length_app, length_reverse, !length_drop; lia).
    apply remove_down_spec.
Qed.

(** [std::erase_if]: the pairs before [idx] are as they were, those after it are
    the ones that stay. *)
Lemma erase_if_from_spec (pred : K * V -> bool) idx t vs rest : table_ok mixed_hash t -> small t ->
  m_values t = vs ++ rest -> length vs = idx ->
  exists t', erase_if_from mixed_hash idx pred t = Ok t' /\ table_ok mixed_hash t' /\
    m_values t' ≡ₚ filter (fun kv => pred kv = false) vs ++ rest.
Proof.
  revert t vs rest. induction idx as [|idx IH]; intros t vs rest Ht Hs Hv Hlen.
  { exists t. apply length_zero_iff_nil in Hlen as ->. by rewrite Hv. }
  destruct vs as [|kv vs _] using rev_ind; [done|]. rewrite length_app in Hlen. simpl in Hlen. rewrite <- app_assoc in Hv. simpl in Hv.
  assert (Hidx : length vs = idx) by lia. cbn [erase_if_from].
  rewrite Hv, <- Hidx, get_middle, Hidx. cbn [rbind].
  rewrite filter_app, filter_cons, filter_nil. destruct (pred kv) eqn:Ep.
  - destruct (erase_at_spec t (Z.of_nat idx) Ht Hs) as (t1 & -> & Ht1 & Hs1 & Hv1 & _); [rewrite Hv, length_app; simpl; lia|].
    cbn [rbind fst]. rewrite Nat2Z.id, Hv, <- Hidx in Hv1. destruct (remove_at_app vs kv rest) as (m' & Em & Hm').
    rewrite Em in Hv1. destruct (IH t1 vs m' Ht1 Hs1 Hv1 Hidx) as (t' & -> & Ht' & Hp). exists t'. split; [done|]. split; [done|].
    rewrite decide_False by done. by rewrite app_nil_r, Hp, Hm'.
  - cbn [rbind]. destruct (IH t vs (kv :: rest) Ht Hs Hv Hidx) as (t' & -> & Ht' & Hp). exists t'. split; [done|]. split; [done|].
    rewrite decide_True by done. by rewrite Hp, <- app_assoc.
Qed.

Lemma erase_if_spec (pred : K * V -> bool) t : table_ok mixed_hash t -> small t ->
  exists t', erase_if mixed_hash pred t = Ok (t', Z.of_nat (length (filter (fun kv => pred kv = true) (m_values t)))) /\
    table_ok mixed_hash t' /\ m_values t' ≡ₚ filter (fun kv => pred kv = false) (m_values t).
Proof.
  intros Ht Hs. destruct (erase_if_from_spec pred (length (m_values t)) t (m_values t) [] Ht Hs) as (t' & E & Ht' & Hp);
    [by rewrite app_nil_r|done|]. rewrite app_nil_r in Hp. exists t'. split; [|done]. unfold erase_if. rewrite E. cbn [rbind].
  do 2 f_equal. unfold size. rewrite Hp. clear. induction (m_values t) as [|kv vs IH]; [done|].
  rewrite !filter_cons. destruct (pred kv); simpl; lia.
Qed.

(** ** [replace] *)

Lemma home_count t key : 39 <= m_shifts t <= 62 -> bucket_count (m_buckets t) = 2 ^ (64 - m_shifts t) ->
  W64.in_range (mixed_hash key) -> 0 <= home (m_shifts t) (mixed_hash key) < bucket_count (m_buckets t).
Proof. intros Hsh -> Hx. by apply home_range. Qed.

(** A pair whose key is there already is replaced by the last one. *)
Lemma replace_drop l i kv : l !! i = Some kv -> exists l',
  (if negb (Z.of_nat i =? Z.of_nat (length l) - 1)
   then back <~ get l (Z.of_nat (length l) - 1); Ok (set l (Z.of_nat i) back) else Ok l) = Ok l' /\
  removelast l' = remove_at i (l : list (K * V)).
Proof.
  destruct l as [|back l _] using rev_ind; [done|]. intros Hi%lookup_lt_Some. rewrite length_app in *. simpl in *.
  replace (Z.of_nat (length l + 1) - 1) with (Z.of_nat (length l)) by lia. rewrite remove_at_snoc.
  destruct (Z.eqb_spec (Z.of_nat i) (Z.of_nat (length l))) as [E|E]; cbn [negb].
  - exists (l ++ [back]). split; [done|]. rewrite removelast_last, list_insert_ge by lia. done.
  - rewrite (get_middle l []).
    eexists. split; [reflexivity|]. unfold set. rewrite Nat2Z.id, insert_app_l by lia. apply removelast_last.
Qed.

(** The pairs [pre] have their buckets; of [rest] those with new keys stay. *)
Lemma replace_from_spec fuel t pre rest : m_values t = pre ++ rest -> (length rest <= fuel)%nat ->
  ring (m_shifts t) (m_buckets t) (hashes mixed_hash pre) -> NoDup (fst <$> pre) ->
  Forall (fun kv => W64.in_range (mixed_hash kv.1)) (m_values t) ->
  39 <= m_shifts t <= 62 -> bucket_count (m_buckets t) = 2 ^ (64 - m_shifts t) ->
  Z.of_nat (length (m_values t)) < bucket_count (m_buckets t) -> Z.of_nat (length (m_values t)) < 2 ^ 24 - 4 ->
  exists B rest', replace_from mixed_hash fuel t (Z.of_nat (length pre)) =
      Ok (Table (pre ++ rest') B (m_max_bucket_capacity t) (m_shifts t)) /\
    length B = length (m_buckets t) /\ ring (m_shifts t) B (hashes mixed_hash (pre ++ rest')) /\
    NoDup (fst <$> pre ++ rest') /\ rest' ⊆+ rest /\ forall k, k ∈ fst <$> rest -> k ∈ fst <$> pre ++ rest'.
Proof.
  revert t pre rest. induction fuel as [|fuel IH]; intros t pre rest Ev Hf Hr Hnd Hall Hsh Hcount Hn Hsmall;
    cbn [replace_from]; unfold size; rewrite Ev; unfold wrap32; rewrite Z.mod_small by (rewrite <- Ev; lia);
    (destruct rest as [|kv rest];
     [rewrite app_nil_r, Z.eqb_refl; exists (m_buckets t), []; rewrite !app_nil_r in *;
      split; [destruct t; simpl in *; by subst|]; split_and!; set_solver|]); [simpl in Hf; lia|].
  simpl in Hf. pose proof Ev as El. apply (f_equal length) in El. rewrite length_app in El. simpl in El.
  rewrite length_app. cbn [length]. destruct (Z.eqb_spec (Z.of_nat (length pre)) (Z.of_nat (length pre + S (length rest)))); [lia|].
  rewrite get_middle. cbn [rbind].
  assert (Hx : W64.in_range (mixed_hash kv.1)).
  { rewrite Ev in Hall. apply Forall_app in Hall as [_ Hall]. by apply Forall_cons in Hall as [Hx _]. }
  assert (Hfill : filled mixed_hash t pre).
  { constructor; [done| |intros i kv' Hi; rewrite Ev; by apply lookup_app_l_Some]. unfold room. rewrite size_hashes. lia. }
  pose proof (home_count t kv.1 Hsh Hcount Hx) as Hh.
  destruct (hash_probe_spec mixed_hash t pre kv.1 Hfill Hh) as [(v & kv' & -> & Hv & Hkv' & Hk)|(s & -> & Hspot & Hno)]; cbn [rbind].
  - assert (Hin : kv.1 ∈ fst <$> pre) by (rewrite <- Hk; apply list_elem_of_fmap_2; by eapply list_elem_of_lookup_2).
    destruct (replace_drop (pre ++ kv :: rest) (length pre) kv) as (vs & Evs & Hvs); [by apply list_lookup_middle|].
    rewrite length_app in Evs. simpl in Evs. rewrite Z.mod_small, Evs by lia. cbn [rbind]. rewrite Hvs.
    destruct (remove_at_app pre kv rest) as (rest1 & -> & Hperm).
    assert (Hlen1 : length rest1 = length rest) by by apply Permutation_length.
    destruct (IH (set_values t (pre ++ rest1)) pre rest1) as (B & rest' & HB & HlenB & HrB & HndB & Hsub & Hkeys);
      cbn [m_values m_buckets m_shifts set_values]; rewrite ?length_app; try done; [lia| |lia|lia|].
    { rewrite Ev, Forall_app, Forall_cons in Hall. rewrite Hperm, Forall_app. tauto. }
    exists B, rest'. rewrite HB. split_and!; try done.
    + rewrite Hsub, Hperm. by apply submseteq_cons.
    + intros k. rewrite fmap_cons, elem_of_cons. intros [->|Hk']; [rewrite fmap_app; apply elem_of_app; by left|].
      apply Hkeys. by rewrite Hperm.
  - destruct kv as [key v]. cbn [fst] in *.
    destruct (place_spot mixed_hash t pre key v s Hfill Hh Hspot) as (B1 & -> & Hr1 & Hlen1). cbn [rbind].
    rewrite Z.mod_small by lia. replace (Z.of_nat (length pre) + 1) with (Z.of_nat (length (pre ++ [(key, v)])))
      by (rewrite length_app; simpl; lia).
    assert (Hc1 : bucket_count B1 = bucket_count (m_buckets t)) by (unfold bucket_count; by rewrite Hlen1).
    destruct (IH (set_buckets t B1) (pre ++ [(key, v)]) rest) as (B & rest' & HB & HlenB & HrB & HndB & Hsub & Hkeys);
      cbn [m_values m_buckets m_shifts set_buckets]; rewrite ?Hc1; try done; [by rewrite <- app_assoc|lia| |].
    { rewrite fmap_app. apply NoDup_app. split; [done|]. split; [|apply NoDup_singleton].
      intros k Hk Hk'%list_elem_of_singleton. by subst. }
    rewrite <- app_assoc in HB, HrB, HndB, Hkeys. exists B, ((key, v) :: rest'). split; [exact HB|].
    split; [by rewrite HlenB|]. split_and!; try done.
    + by constructor.
    + intros k. rewrite fmap_cons, elem_of_cons. intros [->|Hk]; [|by apply Hkeys].
      rewrite fmap_app, elem_of_app. right. rewrite fmap_cons. by left.
Qed.

Lemma load_capacity_mono m n : m <= n -> load_capacity m <= load_capacity n.
Proof. intros Hmn. unfold load_capacity. apply Z.div_le_mono; lia. Qed.

(** The empty buckets [replace] fills: those there are, or more. *)
Lemma replace_buckets t vs c : table_ok mixed_hash t -> 0 <= c <= max_reserve ->
  let shifts := calc_shifts_for_size c in
  let t0 := if (0 =? bucket_count (m_buckets t)) || (shifts <? m_shifts t)
            then allocate_buckets_from_shift (deallocate_buckets (set_shifts t shifts)) else t in
  exists sh, 39 <= sh <= 62 /\ c <= load_capacity (2 ^ (64 - sh)) /\
    set_values (clear_buckets t0) vs =
      Table vs (replicate (Z.to_nat (2 ^ (64 - sh))) (Bucket 0 0)) (load_capacity (2 ^ (64 - sh))) sh.
Proof.
  intros Ht Hc shifts t0. pose proof (count_pos mixed_hash t Ht) as Hn.
  destruct (calc_shifts_spec c ltac:(lia)) as [Hsh Hcap]. fold shifts in Hsh, Hcap.
  unfold t0. destruct (Z.eqb_spec 0 (bucket_count (m_buckets t))); [lia|]. cbn [orb].
  destruct (Z.ltb_spec shifts (m_shifts t)) as [Hlt|Hge].
  - exists shifts. split; [done|]. split; [done|]. unfold deallocate_buckets, set_shifts. cbn [m_values m_shifts].
    rewrite allocate_fresh by done. unfold clear_buckets, set_buckets, set_values.
    cbn [m_values m_buckets m_max_bucket_capacity m_shifts]. by rewrite length_replicate.
  - exists (m_shifts t). split; [apply Ht|]. split.
    + etrans; [exact Hcap|]. apply load_capacity_mono, Z.pow_le_mono_r; lia.
    + unfold clear_buckets, set_buckets, set_values. cbn [m_values m_buckets m_max_bucket_capacity m_shifts].
      rewrite <- (ok_count _ _ Ht), (ok_cap _ _ Ht). unfold bucket_count. by rewrite Nat2Z.id.
Qed.

Lemma replace_container t container : table_ok mixed_hash t -> Z.of_nat (length container) < 2 ^ 24 - 5 ->
  Forall (fun kv => W64.in_range (mixed_hash kv.1)) container ->
  exists t', replace mixed_hash t container = Ok t' /\ table_ok mixed_hash t' /\ m_values t' ⊆+ container /\
    forall k, k ∈ fst <$> container -> k ∈ fst <$> m_values t'.
Proof.
  intros Ht Hlen Hall. unfold replace, max_size. destruct (Z.ltb_spec (2 ^ 32) (Z.of_nat (length container))); [lia|].
  destruct (replace_buckets t container (Z.of_nat (length container)) Ht) as (sh & Hsh & Hcap & ->);
    [rewrite max_reserve_value; lia|].
  pose proof (pow_bounds _ Hsh) as Hn. pose proof (load_capacity_lt (2 ^ (64 - sh)) ltac:(lia)) as Hlt.
  assert (Hc : bucket_count (replicate (Z.to_nat (2 ^ (64 - sh))) (Bucket 0 0)) = 2 ^ (64 - sh))
    by (unfold bucket_count; rewrite length_replicate; lia).
  destruct (replace_from_spec (length container) (Table container (replicate (Z.to_nat (2 ^ (64 - sh))) (Bucket 0 0))
    (load_capacity (2 ^ (64 - sh))) sh) [] container) as (B & vs & HB & HlenB & HrB & Hnd & Hsub & Hkeys);
    cbn [m_values m_buckets m_max_bucket_capacity m_shifts]; rewrite ?Hc; try done; try lia.
  - apply ring_empty. lia.
  - constructor.
  - eexists. split; [exact HB|]. cbn [app] in *. split; [|by split].
    assert (HcB : bucket_count B = 2 ^ (64 - sh)) by (rewrite <- Hc; unfold bucket_count; by rewrite HlenB).
    constructor; cbn [m_values m_buckets m_max_bucket_capacity m_shifts]; rewrite ?HcB; try done.
    + apply Forall_forall. intros kv Hkv. rewrite Forall_forall in Hall. apply Hall. by eapply elem_of_submseteq.
    + apply submseteq_length in Hsub. lia.
Qed.

(** ** [replace_key] *)

Lemma renamed_ok t B i old v new : table_ok mixed_hash t -> m_values t !! i = Some (old, v) ->
  W64.in_range (mixed_hash new) -> new ∉ fst <$> m_values t -> length B = length (m_buckets t) ->
  ring (m_shifts t) B (hashes mixed_hash (<[i := (new, v)]> (m_values t))) ->
  table_ok mixed_hash (Table (<[i := (new, v)]> (m_values t)) B (m_max_bucket_capacity t) (m_shifts t)).
Proof.
  intros Ht Hv Hx Hno HB HrB. pose proof (ok_keys _ _ Ht) as Hnd. pose proof (lookup_lt_Some _ _ _ Hv) as Hlt.
  assert (HcB : bucket_count B = bucket_count (m_buckets t)) by (unfold bucket_count; by rewrite HB).
  constructor; cbn [m_values m_buckets m_max_bucket_capacity m_shifts]; rewrite ?HcB, ?length_insert; try apply Ht; [done| |].
  - rewrite list_fmap_insert. simpl. rewrite insert_take_drop by (by rewrite length_fmap).
    rewrite <- (take_drop_middle (fst <$> m_values t) i old) in Hnd, Hno by (by rewrite list_lookup_fmap, Hv).
    rewrite <- Permutation_middle in Hnd |- *. apply NoDup_cons in Hnd as [_ Hnd]. apply NoDup_cons.
    split; [|done]. rewrite elem_of_app, elem_of_cons in Hno. rewrite elem_of_app. tauto.
  - apply Forall_insert; [apply Ht|done].
Qed.

Lemma replace_key_spec t it old (v : V) new : table_ok mixed_hash t -> small t -> 0 <= it ->
  m_values t !! Z.to_nat it = Some (old, v) -> W64.in_range (mixed_hash new) ->
  (exists i kv, replace_key mixed_hash t it new = Ok (t, (i, false)) /\ m_values t !! Z.to_nat i = Some kv /\ kv.1 = new) \/
  (new ∉ fst <$> m_values t /\ exists t', replace_key mixed_hash t it new = Ok (t', (it, true)) /\
     table_ok mixed_hash t' /\ m_values t' = <[Z.to_nat it := (new, v)]> (m_values t)).
Proof.
  intros Ht Hs Hit Hv Hx. pose proof (ok_ring _ _ Ht) as Hr. pose proof (ok_room _ t Ht Hs) as Hroom.
  pose proof (ok_home _ _ _ Ht Hx) as Hh. pose proof (lookup_lt_Some _ _ _ Hv) as Hlt. unfold replace_key.
  assert (Hf : filled mixed_hash t (m_values t)) by by constructor.
  destruct (hash_probe_spec mixed_hash t (m_values t) new Hf Hh) as [(i & kv & -> & Hi & Hkv & Hk)|(s0 & -> & _ & Hno)];
    cbn [rbind]; [left; by exists i, kv|right; split; [done|]].
  destruct (bucket_of_spec t it _ Ht Hs Hit Hv) as (p & -> & Hp & Hpi). cbn [rbind].
  rewrite (get_spec _ _ _ Hit Hv). cbn [rbind snd].
  destruct (ring_erase (m_shifts t) (fuel_of t) (m_buckets t) _ p it Hr Hroom Hp Hpi) as (B1 & -> & Hr1 & Hlen1);
    [rewrite fuel_count; lia|]. cbn [rbind].
  assert (Hc1 : bucket_count B1 = bucket_count (m_buckets t)) by (unfold bucket_count; by rewrite Hlen1).
  assert (Hroom1 : room B1 (delete it (hashes mixed_hash (m_values t)))).
  { unfold room in *. rewrite Hc1. rewrite map_size_delete. case_match; unfold id; lia. }
  unfold hash_next_while_less. cbn [m_buckets m_shifts set_values set_buckets]. rewrite first_word.
  set (t1 := set_values (set_buckets t B1) _). assert (Hfuel : Z.of_nat (fuel_of t1) = bucket_count B1 + 3)
    by (unfold t1; rewrite fuel_count; done).
  rewrite <- Hc1 in Hh.
  destruct (next_while_less_stops (m_shifts t) B1 _ Hr1 Hroom1 (mixed_hash new) Hh (fuel_of t1)) as (s & Hsr & Hpass & Hstop & Hrun).
  { destruct Hroom1. lia. }
  unfold home in Hrun at 1. rewrite Hrun. cbn [rbind m_dist_and_fingerprint m_value_idx].
  rewrite (small_idx t) by (done || lia).
  destruct (ring_place (m_shifts t) (fuel_of t1) B1 (delete it (hashes mixed_hash (m_values t))) it (mixed_hash new) s)
    as (B2 & HB2 & Hr2 & Hlen2); try done.
  - apply lookup_delete_eq.
  - destruct Hroom1. lia.
  - intros i Hi. specialize (Hpass i Hi). lia.
  - lia.
  - change (m_buckets t1) with B1. rewrite HB2. cbn [rbind]. eexists. split; [reflexivity|]. split; [|unfold set; done].
    apply (renamed_ok t _ _ old v); try done; [by rewrite Hlen2|].
    rewrite insert_delete_eq in Hr2. rewrite hashes_insert by done. by rewrite Z2Nat.id.
Qed.
End Table.

(** ** The finite map *)

Section Map.
Context {K V : Type} `{Countable K} (mixed_hash : K -> Z).
Implicit Types (t : table K V).

Lemma as_map_perm t vs : NoDup (fst <$> m_values t) -> m_values t ≡ₚ vs -> as_map t = list_to_map vs.
Proof. intros Hnd Hp. unfold as_map. by apply list_to_map_proper. Qed.

(** [C32] Removal by iterator.  [extract(it)] and [erase(it)] take out the pair at a
    valid iterator, and [erase(it)] answers the same position, where the last pair
    is now.  [erase(first, last)], for a range inside the values, removes exactly
    its pairs: those before it stay where they are, those after it stay in the
    table in some order, and the answer is [first].  [std::erase_if] removes exactly
    the pairs that satisfy the predicate and answers how many.  Every loop ends. *)
Theorem dense_erase_range t l s m : table_ok mixed_hash t -> small t -> m_values t = l ++ s ++ m ->
  (forall i kv, m_values t !! i = Some kv -> exists t', extract_at mixed_hash t (Z.of_nat i) = Ok (t', kv) /\
     erase_at mixed_hash t (Z.of_nat i) = Ok (t', Z.of_nat i) /\ table_ok mixed_hash t' /\
     as_map t' = delete kv.1 (as_map t)) /\
  (exists t' m', erase_range mixed_hash t (Z.of_nat (length l)) (Z.of_nat (length l + length s)) =
      Ok (t', Z.of_nat (length l)) /\ table_ok mixed_hash t' /\
    m_values t' = l ++ m' /\ m' ≡ₚ m /\ as_map t' = list_to_map (l ++ m)) /\
  forall pred : K * V -> bool, exists t', erase_if mixed_hash pred t =
      Ok (t', Z.of_nat (length (filter (fun kv => pred kv = true) (m_values t)))) /\ table_ok mixed_hash t' /\
    forall k v, as_map t' !! k = Some v <-> as_map t !! k = Some v /\ pred (k, v) = false.
Proof.
  intros Ht Hs Hv. split; [|split].
  - intros i kv Hi. destruct (extract_at_spec mixed_hash t (Z.of_nat i) kv Ht Hs) as (t' & Ex & Ee & Ht' & _ & Hval);
      [lia|by rewrite Nat2Z.id|]. exists t'. repeat (split; [done|]). rewrite Nat2Z.id in Hval.
    apply (as_map_remove t t' i); [apply Ht|done|done].
  - destruct (erase_range_spec mixed_hash t l s m Ht Hs Hv) as (t' & E & Ht' & Hval). exists t'. eexists.
    split; [exact E|]. split; [done|]. split; [exact Hval|].
    assert (Hp : reverse (drop (length m - length s `min` length m) m) ++ take (length m - length s `min` length m) m ≡ₚ m).
    { rewrite reverse_Permutation, Permutation_app_comm. by rewrite take_drop. }
    split; [exact Hp|]. apply as_map_perm; [apply Ht'|]. by rewrite Hval, Hp.
  - intros pred. destruct (erase_if_spec mixed_hash pred t Ht Hs) as (t' & E & Ht' & Hp). exists t'. split; [exact E|]. split; [done|].
    intros k v. unfold as_map. rewrite <- !elem_of_list_to_map by (apply ok_keys with (mixed_hash := mixed_hash); done).
    rewrite Hp, list_elem_of_filter. tauto.
Qed.

(** [replace] and [replace_key].  [replace] discards the pairs and keeps, of the
    given container, one pair for each of its keys.  [replace_key] at a valid
    iterator changes the key of the pair there to one that is not in the table,
    and nothing else; if the new key is there it answers where, and changes
    nothing. *)
Theorem dense_replace t : table_ok mixed_hash t -> small t ->
  (forall container, Z.of_nat (length container) < 2 ^ 24 - 5 ->
     Forall (fun kv => W64.in_range (mixed_hash kv.1)) container ->
     exists t', replace mixed_hash t container = Ok t' /\ table_ok mixed_hash t' /\
       dom (as_map t') = list_to_set (fst <$> container) /\
       forall k w, as_map t' !! k = Some w -> (k, w) ∈ container) /\
  (forall i old v new, m_values t !! i = Some (old, v) -> W64.in_range (mixed_hash new) ->
     exists t' j, replace_key mixed_hash t (Z.of_nat i) new = Ok (t', (j, bool_decide (as_map t !! new = None))) /\
       table_ok mixed_hash t' /\ fst <$> m_values t' !! Z.to_nat j = Some new /\
       as_map t' = (if decide (as_map t !! new = None) then <[new := v]> (delete old (as_map t)) else as_map t)).
Proof.
  intros Ht Hs. split.
  - intros container Hlen Hall. destruct (replace_container mixed_hash t container Ht Hlen Hall) as (t' & E & Ht' & Hsub & Hkeys).
    exists t'. split; [done|]. split; [done|]. pose proof (ok_keys _ _ Ht') as Hnd. split.
    + unfold as_map. rewrite dom_list_to_map_L. apply set_eq. intros k. rewrite !elem_of_list_to_set. split; [|apply Hkeys].
      intros (kv & -> & Hin)%list_elem_of_fmap. apply list_elem_of_fmap_2. by eapply elem_of_submseteq.
    + intros k w Hk. apply elem_of_list_to_map in Hk; [|done]. by eapply elem_of_submseteq.
  - intros i old v new Hi Hx. pose proof (ok_keys _ _ Ht) as Hnd.
    destruct (replace_key_spec mixed_hash t (Z.of_nat i) old v new Ht Hs) as [(j & [k w] & -> & Hj & Hk)|(Hno & t' & -> & Ht' & Hval)];
      [lia|by rewrite Nat2Z.id|done| |].
    + simpl in Hk. subst k. pose proof (as_map_lookup t _ _ Hnd Hj) as Hm. simpl in Hm. rewrite Hm.
      exists t, j. rewrite Hj. by split.
    + rewrite (as_map_none t new Hno). exists t', (Z.of_nat i). rewrite Nat2Z.id in *. split; [done|]. split; [done|].
      pose proof (lookup_lt_Some _ _ _ Hi) as Hlt. split; [by rewrite Hval, list_lookup_insert_eq by done|].
      pose proof (take_drop_middle _ _ _ Hi) as Emid. rewrite insert_take_drop in Hval by done.
      rewrite (as_map_perm t' ((new, v) :: take i (m_values t) ++ drop (S i) (m_values t)));
        [|apply Ht'|rewrite Hval; solve_Permutation].
      rewrite (as_map_perm t ((old, v) :: take i (m_values t) ++ drop (S i) (m_values t)));
        [|done|rewrite <- Emid at 1; solve_Permutation].
      simpl. rewrite delete_insert_id; [done|]. apply not_elem_of_list_to_map_1.
      rewrite <- Emid in Hnd. rewrite <- Permutation_middle in Hnd. by apply NoDup_cons in Hnd as [? _].
Qed.
End Map.

Lemma dense_erase_range_witness : exists t', erase_range WyHash.hash (make : table Z Z) 0 0 = Ok (t', 0) /\ m_values t' = [].
Proof.
  destruct (dense_erase_range (V := Z) WyHash.hash make [] [] [] (make_ok _) ltac:(done) eq_refl) as [_ [(t' & m' & E & _ & Hv & Hm & _) _]].
  exists t'. split; [exact E|]. rewrite Hv. by apply Permutation_nil_r.
Defined.

Lemma hashed x : 0 <= x < 2 ^ 32 -> W64.in_range (WyHash.hash x).
Proof. intros Hx. apply WyHash.hash_range. unfold W64.in_range, W64.modulus. lia. Qed.

Lemma dense_replace_witness : exists t', replace WyHash.hash (make : table Z Z) [(1000, 1); (1008, 2); (1000, 3)] = Ok t' /\
  dom (as_map t') = {[ 1000; 1008 ]}.
Proof.
  destruct (dense_replace (V := Z) WyHash.hash make (make_ok _) ltac:(done)) as [Hr _].
  destruct (Hr [(1000, 1); (1008, 2); (1000, 3)]) as (t' & E & _ & Hd & _); [done| |].
  - by repeat (apply Forall_cons; split; [apply hashed; simpl; lia|]).
  - exists t'. split; [exact E|]. rewrite Hd. vm_compute. reflexivity.
Defined.

(** A range in the middle of six pairs, and a container with a key twice. *)
Example ranges :
  match replace WyHash.hash make [(8, 1); (16, 2); (24, 3); (8, 4); (32, 5); (40, 6); (48, 7)] with
  | Ok t => (m_values t, match erase_range WyHash.hash t 1 3 with Ok (t', i) => (m_values t', i) | _ => ([], 0) end,
             match replace_key WyHash.hash t 0 9 with Ok (t', r) => (m_values t', r) | _ => ([], (0, false)) end)
  | _ => ([], ([], 0), ([], (0, false)))
  end = ([(8, 1); (16, 2); (24, 3); (48, 7); (32, 5); (40, 6)],
         ([(8, 1); (40, 6); (32, 5); (48, 7)], 1),
         ([(9, 1); (16, 2); (24, 3); (48, 7); (32, 5); (40, 6)], (0, true))).
Proof. vm_compute. reflexivity. Qed.
