(* ===== verification/Blocks.v ===== *)
(** * Grouping an array by a byte, in place

    What the in-place partition loops of [tl2/ska_sort.h] maintain: every value
    of the byte has a block of positions, an offset inside it, and the positions
    before the offset hold elements of that value.  Swapping an element to the
    offset of its value keeps this and never leaves the block. *)

From S2P Require Import Prelude.

(** The elements of the array with the value [b], and where their block is. *)
Section Blocks.
Context {A : Type} (byte : A -> nat).
Implicit Types (arr : list A) (b p i : nat).

Definition cnt b arr : nat := length (filter (fun x => byte x = b) arr).

Fixpoint start b arr : nat :=
  match b with O => O | S b' => (start b' arr + cnt b' arr)%nat end.

Abbreviation stop b arr := (start (S b) arr).

Lemma cnt_app b l1 l2 : cnt b (l1 ++ l2) = (cnt b l1 + cnt b l2)%nat.
Proof. unfold cnt. by rewrite filter_app, length_app. Qed.

Lemma cnt_perm b l1 l2 : l1 ≡ₚ l2 -> cnt b l1 = cnt b l2.
Proof. intros Hp. unfold cnt. by rewrite Hp. Qed.

Lemma start_perm b l1 l2 : l1 ≡ₚ l2 -> start b l1 = start b l2.
Proof. intros Hp. induction b as [|b IH]; simpl; [done|]. by rewrite IH, (cnt_perm b l1 l2). Qed.

Lemma start_le b b' arr : (b <= b')%nat -> (start b arr <= start b' arr)%nat.
Proof. intros Hb. induction Hb; simpl; lia. Qed.

Lemma cnt_all b l : Forall (fun x => byte x = b) l -> cnt b l = length l.
Proof.
  intros Hl. unfold cnt. induction Hl as [|x l Hx Hl IH]; [done|].
  rewrite filter_cons_True by done. simpl. by rewrite IH.
Qed.

Lemma cnt_elem b x l : x ∈ l -> byte x = b -> (1 <= cnt b l)%nat.
Proof.
  intros Hx Hb. unfold cnt. destruct (filter _ l) as [|y r] eqn:E; [|simpl; lia].
  assert (Hin : x ∈ filter (fun x => byte x = b) l) by by apply list_elem_of_filter.
  rewrite E in Hin. by apply elem_of_nil in Hin.
Qed.

(** The blocks of the values below [n] cover as many positions as there are
    elements with such values. *)
Lemma start_count n arr : start n arr = length (filter (fun x => (byte x < n)%nat) arr).
Proof.
  induction n as [|n IH]; simpl.
  - induction arr as [|x arr IH]; [done|]. rewrite filter_cons_False by lia. done.
  - rewrite IH. unfold cnt. clear IH. induction arr as [|x arr IH]; [done|].
    rewrite !filter_cons. repeat case_decide; simpl; lia.
Qed.

Lemma start_all n arr : Forall (fun x => (byte x < n)%nat) arr -> start n arr = length arr.
Proof.
  intros Hall. rewrite start_count. induction Hall as [|x arr Hx Hall IH]; [done|].
  rewrite filter_cons_True by done. simpl. by rewrite IH.
Qed.

(** ** The state of a partition loop *)

(** [off b] is the next free position of the block of [b]. *)
Record settled (arr0 arr : list A) (off : nat -> nat) : Prop := {
  st_perm : arr ≡ₚ arr0;
  st_off : forall b, (start b arr0 <= off b <= stop b arr0)%nat;
  st_byte : forall b p, (start b arr0 <= p < off b)%nat -> byte <$> arr !! p = Some b }.

Lemma settled_start arr : settled arr arr (fun b => start b arr).
Proof. constructor; [done| |]; intros; simpl; lia. Qed.

Lemma settled_ext arr0 arr off off' :
  (forall b, off b = off' b) -> settled arr0 arr off -> settled arr0 arr off'.
Proof. intros E [Hp Ho Hb]. constructor; [done| |]; intros b *; rewrite <- E; auto. Qed.

Lemma block_unique b b' arr p :
  (start b arr <= p < stop b arr)%nat -> (start b' arr <= p < stop b' arr)%nat -> b = b'.
Proof.
  intros H1 H2. destruct (Nat.lt_trichotomy b b') as [Hlt|[|Hlt]]; [|done|].
  - pose proof (start_le (S b) b' arr). lia.
  - pose proof (start_le (S b') b arr). lia.
Qed.

(** An element outside the settled part of its own block has room there. *)
Lemma settled_room arr0 arr off i x :
  settled arr0 arr off -> arr !! i = Some x ->
  ~ (start (byte x) arr0 <= i < off (byte x))%nat -> (off (byte x) < stop (byte x) arr0)%nat.
Proof.
  intros [Hp Ho Hb] Hi Hout. set (b := byte x) in *. destruct (Ho b) as [H1 H2].
  destruct (decide (off b = stop b arr0)) as [Hfull|]; [|lia]. exfalso.
  set (s := start b arr0) in *. set (e := stop b arr0) in *.
  assert (Hlen : (e <= length arr)%nat).
  { destruct (decide (s = e)) as [|Hne].
    - assert (1 <= cnt b arr)%nat by (eapply cnt_elem; [by eapply list_elem_of_lookup_2|done]).
      rewrite (cnt_perm b arr arr0 Hp) in *. subst s e. simpl in *. lia.
    - assert (byte <$> arr !! (e - 1)%nat = Some b) as E by (apply Hb; lia).
      destruct (arr !! (e - 1)%nat) eqn:El; [|done]. apply lookup_lt_Some in El. lia. }
  assert (Hse : (s <= e)%nat) by (subst s e; simpl; lia).
  assert (Earr : arr = take s arr ++ take (e - s) (drop s arr) ++ drop e arr).
  { replace (drop e arr) with (drop (e - s) (drop s arr)) by (rewrite drop_drop; f_equal; lia).
    by rewrite take_drop, take_drop. }
  assert (Hmid : cnt b (take (e - s) (drop s arr)) = (e - s)%nat).
  { rewrite cnt_all; [rewrite length_take, length_drop; lia|]. apply Forall_lookup. intros p y Hy.
    apply lookup_take_Some in Hy as [Hy Hlt]. rewrite lookup_drop in Hy.
    specialize (Hb b (s + p)%nat). rewrite Hy in Hb. simpl in Hb.
    assert (Some (byte y) = Some b) as [= ?] by (apply Hb; lia). done. }
  assert (Hrest : (1 <= cnt b (take s arr) + cnt b (drop e arr))%nat).
  { destruct (decide (i < s)%nat).
    - assert (1 <= cnt b (take s arr))%nat; [|lia]. eapply cnt_elem; [|done].
      apply list_elem_of_lookup_2 with i. by rewrite lookup_take_lt.
    - assert (1 <= cnt b (drop e arr))%nat; [|lia]. eapply cnt_elem; [|done].
      apply list_elem_of_lookup_2 with (i - e)%nat. rewrite lookup_drop.
      by replace (e + (i - e))%nat with i by lia. }
  pose proof (cnt_perm b arr arr0 Hp) as Hc. rewrite Earr, !cnt_app, Hmid in Hc.
  subst s e. simpl in *. lia.
Qed.

(** [std::iter_swap] on two positions; undefined outside the array. *)
Definition iter_swap i j arr : option (list A) :=
  match arr !! i, arr !! j with
  | Some x, Some y => Some (<[i := y]> (<[j := x]> arr))
  | _, _ => None
  end.

Lemma iter_swap_perm i j arr arr' : iter_swap i j arr = Some arr' -> arr' ≡ₚ arr.
Proof.
  unfold iter_swap. destruct (arr !! i) as [x|] eqn:Hi; [|done].
  destruct (arr !! j) as [y|] eqn:Hj; [|done]. intros [= <-].
  destruct (decide (i = j)) as [->|Hne].
  - simplify_eq. by rewrite !list_insert_id by (rewrite ?list_insert_id by done; done).
  - by apply Permutation_insert_swap.
Qed.

Lemma iter_swap_lookup i j arr arr' p x :
  iter_swap i j arr = Some arr' -> arr !! i = Some x ->
  (p = j -> arr' !! p = Some x) /\ (p <> i -> p <> j -> arr' !! p = arr !! p).
Proof.
  unfold iter_swap. intros Hs Hi. rewrite Hi in Hs. destruct (arr !! j) as [y|] eqn:Hj; [|done].
  simplify_eq. split.
  - intros ->. destruct (decide (i = j)) as [->|Hne].
    + simplify_eq. rewrite list_lookup_insert_eq; [done|]. rewrite length_insert. by eapply lookup_lt_Some.
    + rewrite list_lookup_insert_ne by done. apply list_lookup_insert_eq. by eapply lookup_lt_Some.
  - intros. by rewrite !list_lookup_insert_ne.
Qed.

(** Offsets with that of one value advanced. *)
Definition bump (b : nat) (off : nat -> nat) : nat -> nat :=
  fun c => if decide (c = b) then S (off c) else off c.

(** Swapping an unsettled element to the offset of its value settles it. *)
Lemma settle arr0 arr off i x :
  settled arr0 arr off -> arr !! i = Some x ->
  (forall b, ~ (start b arr0 <= i < off b)%nat) ->
  exists arr', iter_swap i (off (byte x)) arr = Some arr' /\
    settled arr0 arr' (bump (byte x) off) /\ (off (byte x) < stop (byte x) arr0)%nat.
Proof.
  intros Hs Hi Hout. pose proof (settled_room _ _ _ _ _ Hs Hi (Hout _)) as Hroom.
  destruct Hs as [Hp Ho Hb]. set (b := byte x) in *.
  assert (Hlen : (off b < length arr)%nat).
  { rewrite (Permutation_length Hp). pose proof (start_count (S b) arr0) as E.
    pose proof (length_filter (fun x => (byte x < S b)%nat) arr0). simpl in *. lia. }
  apply lookup_lt_is_Some in Hlen as [y Hy].
  destruct (iter_swap i (off b) arr) as [arr'|] eqn:Es; [|unfold iter_swap in Es; by rewrite Hi, Hy in Es].
  exists arr'. split; [done|]. split; [|done]. constructor.
  - by rewrite (iter_swap_perm _ _ _ _ Es).
  - intros c. unfold bump. specialize (Ho c). case_decide; subst; simpl in *; lia.
  - intros c p Hcp. destruct (iter_swap_lookup _ _ _ _ p x Es Hi) as [E1 E2].
    destruct (decide (p = off b)) as [->|Hpb].
    + rewrite E1 by done. simpl. f_equal. unfold bump in Hcp. case_decide as Hc; [by subst|].
      symmetry. apply (block_unique c b arr0 (off b)); [specialize (Ho c); simpl in *; lia|].
      specialize (Ho b). simpl in *. lia.
    + assert (Hpc : (start c arr0 <= p < off c)%nat).
      { unfold bump in Hcp. case_decide; [subst; lia|done]. }
      rewrite E2; [by apply Hb| |done]. intros ->. by apply (Hout c).
Qed.

(** ** How much is left to settle *)

Definition unsettled arr0 (off : nat -> nat) : nat :=
  sum_list_with (fun b => stop b arr0 - off b)%nat (seq 0 256).

Lemma unsettled_bump arr0 off b :
  (b < 256)%nat -> (off b < stop b arr0)%nat -> unsettled arr0 off = S (unsettled arr0 (bump b off)).
Proof.
  intros Hb Hr. apply (sum_list_with_S _ _ b).
  - apply NoDup_seq.
  - apply elem_of_seq. lia.
  - unfold bump. rewrite decide_True by done. lia.
  - intros c Hc. unfold bump. by rewrite decide_False.
Qed.

Lemma unsettled_start arr0 :
  Forall (fun x => (byte x < 256)%nat) arr0 -> unsettled arr0 (fun b => start b arr0) = length arr0.
Proof.
  intros Hall. rewrite <- (start_all 256 arr0 Hall). unfold unsettled.
  assert (Hgen : forall n, sum_list_with (fun b => stop b arr0 - start b arr0)%nat (seq 0 n) = start n arr0).
  { induction n as [|n IH]; [done|]. rewrite seq_S, sum_list_with_app, IH. simpl. lia. }
  apply Hgen.
Qed.

(** Nothing can be unsettled while a block has room. *)
Lemma unsettled_pos arr0 off b :
  (b < 256)%nat -> (off b < stop b arr0)%nat -> (0 < unsettled arr0 off)%nat.
Proof. intros Hb Hr. rewrite (unsettled_bump _ _ b) by done. lia. Qed.

(** When all blocks but one are full, the last one is. *)
Lemma settled_finish arr0 arr off last :
  settled arr0 arr off -> (forall b, b <> last -> off b = stop b arr0) ->
  settled arr0 arr (fun b => stop b arr0).
Proof.
  intros Hs Hfull. pose proof Hs as [Hp Ho Hb]. constructor; [done|intros; simpl; lia|].
  intros b p Hbp. destruct (decide (b = last)) as [->|Hne]; [|apply Hb; by rewrite Hfull].
  assert (Hlen : (p < length arr)%nat).
  { rewrite (Permutation_length Hp). pose proof (start_count (S last) arr0) as E.
    pose proof (length_filter (fun x => (byte x < S last)%nat) arr0). simpl in *. lia. }
  apply lookup_lt_is_Some in Hlen as [x Hx]. rewrite Hx. simpl. f_equal.
  destruct (decide (byte x = last)) as [|Hxl]; [done|]. exfalso.
  assert (~ (start (byte x) arr0 <= p < off (byte x))%nat).
  { intros Hin. apply Hxl. apply (block_unique _ _ arr0 p); [|done]. specialize (Ho (byte x)). lia. }
  pose proof (settled_room _ _ _ _ _ Hs Hx ltac:(done)). rewrite (Hfull (byte x)) in * by done. lia.
Qed.

Lemma block_exists n arr p : (p < start n arr)%nat ->
  exists b, (b < n)%nat /\ (start b arr <= p < stop b arr)%nat.
Proof.
  induction n as [|n IH]; simpl; intros Hp; [lia|].
  destruct (decide (p < start n arr)%nat) as [Hlt|Hge].
  - destruct (IH Hlt) as (b & Hb & ?). exists b. split; [lia|done].
  - exists n. split; [lia|]. simpl. lia.
Qed.

(** Every position of a fully settled array is in the block of its element. *)
Lemma settled_block n arr0 arr p x :
  Forall (fun x => (byte x < n)%nat) arr0 -> settled arr0 arr (fun b => stop b arr0) ->
  arr !! p = Some x -> (start (byte x) arr0 <= p < stop (byte x) arr0)%nat.
Proof.
  intros Hn [Hp Ho Hb] Hx.
  destruct (block_exists n arr0 p) as (b & _ & Hbp).
  { rewrite (start_all n arr0 Hn), <- (Permutation_length Hp). by eapply lookup_lt_Some. }
  specialize (Hb b p Hbp). rewrite Hx in Hb. simpl in Hb. by simplify_eq.
Qed.

(** ** Sorting the blocks one by one *)

Definition splice (a b : nat) (seg arr : list A) : list A := take a arr ++ seg ++ drop b arr.
Definition segment (a b : nat) arr : list A := take (b - a) (drop a arr).

Lemma splice_segment a b arr : (a <= b <= length arr)%nat -> splice a b (segment a b arr) arr = arr.
Proof.
  intros Hab. unfold splice, segment.
  replace (drop b arr) with (drop (b - a) (drop a arr)) by (rewrite drop_drop; f_equal; lia).
  by rewrite take_drop, take_drop.
Qed.

Lemma splice_perm a b seg arr :
  (a <= b <= length arr)%nat -> seg ≡ₚ segment a b arr -> splice a b seg arr ≡ₚ arr.
Proof. intros Hab Hp. transitivity (splice a b (segment a b arr) arr);
  [unfold splice; by rewrite Hp|by rewrite splice_segment]. Qed.

Lemma segment_length a b arr : (a <= b <= length arr)%nat -> length (segment a b arr) = (b - a)%nat.
Proof. intros Hab. unfold segment. rewrite length_take, length_drop. lia. Qed.

Lemma segment_lookup a b arr (p : nat) : (p < b - a)%nat -> segment a b arr !! p = arr !! (a + p)%nat.
Proof. intros Hp. unfold segment. by rewrite lookup_take_lt, lookup_drop. Qed.

Lemma splice_lookup_out a b seg arr (p : nat) :
  (a <= b <= length arr)%nat -> length seg = (b - a)%nat -> ~ (a <= p < b)%nat ->
  splice a b seg arr !! p = arr !! p.
Proof.
  intros Hab Hl Hp. unfold splice. destruct (decide (p < a)%nat).
  - rewrite lookup_app_l by (rewrite length_take; lia). by rewrite lookup_take_lt.
  - rewrite lookup_app_r by (rewrite length_take; lia). rewrite length_take_le by lia.
    rewrite lookup_app_r by lia. rewrite lookup_drop. f_equal. lia.
Qed.

Lemma splice_lookup_in a b seg arr (p : nat) :
  (a <= b <= length arr)%nat -> length seg = (b - a)%nat -> (a <= p < b)%nat ->
  splice a b seg arr !! p = seg !! (p - a)%nat.
Proof.
  intros Hab Hl Hp. unfold splice. rewrite lookup_app_r by (rewrite length_take; lia).
  rewrite length_take_le by lia. by rewrite lookup_app_l by lia.
Qed.

Context (R : A -> A -> Prop).

(** The array is settled and the blocks of [dn] are sorted. *)
Definition blocks_sorted arr0 (dn : list nat) arr : Prop :=
  settled arr0 arr (fun b => stop b arr0) /\
  forall b, b ∈ dn -> StronglySorted R (segment (start b arr0) (stop b arr0) arr).

Lemma stop_length b arr0 arr : arr ≡ₚ arr0 -> (start b arr0 <= stop b arr0 <= length arr)%nat.
Proof.
  intros Hp. rewrite (Permutation_length Hp). pose proof (start_count (S b) arr0) as E.
  pose proof (length_filter (fun x => (byte x < S b)%nat) arr0). simpl in *. lia.
Qed.

Lemma blocks_sorted_step arr0 dn arr b seg :
  blocks_sorted arr0 dn arr ->
  seg ≡ₚ segment (start b arr0) (stop b arr0) arr -> StronglySorted R seg ->
  blocks_sorted arr0 (b :: dn) (splice (start b arr0) (stop b arr0) seg arr).
Proof.
  intros [[Hp Ho Hb] Hd] Hseg Hs. pose proof (stop_length b arr0 arr Hp) as Hl.
  assert (Hlen : length seg = (stop b arr0 - start b arr0)%nat)
    by (rewrite (Permutation_length Hseg); by apply segment_length).
  split; [constructor|].
  - by rewrite splice_perm.
  - intros c. simpl. lia.
  - intros c p Hcp. destruct (decide (start b arr0 <= p < stop b arr0)%nat) as [Hin|Hout].
    + assert (c = b) as -> by (by eapply block_unique). rewrite splice_lookup_in by done.
      assert (Hlt : (p - start b arr0 < length seg)%nat) by lia.
      apply lookup_lt_is_Some in Hlt as [x Hx]. rewrite Hx. simpl. f_equal.
      apply list_elem_of_lookup_2 in Hx. rewrite Hseg in Hx. apply list_elem_of_lookup in Hx as [q Hq].
      assert (Hql : (q < stop b arr0 - start b arr0)%nat)
        by (rewrite <- (segment_length _ _ arr Hl); by eapply lookup_lt_Some).
      rewrite segment_lookup in Hq by done.
      specialize (Hb b (start b arr0 + q)%nat). rewrite Hq in Hb. simpl in Hb.
      assert (Some (byte x) = Some b) as [= ?]; [|done]. apply Hb. simpl in *. lia.
    + rewrite splice_lookup_out by done. by apply Hb.
  - intros c Hc. assert (Hcl := stop_length c arr0 arr Hp).
    destruct (decide (c = b)) as [->|Hne].
    + assert (segment (start b arr0) (stop b arr0) (splice (start b arr0) (stop b arr0) seg arr) = seg) as ->;
        [|done].
      apply list_eq. intros q. destruct (decide (q < stop b arr0 - start b arr0)%nat).
      * rewrite segment_lookup by done. rewrite splice_lookup_in by (simpl in *; lia). f_equal. lia.
      * rewrite !lookup_ge_None_2; [done|lia|]. unfold segment. rewrite length_take. lia.
    + apply elem_of_cons in Hc as [|Hc]; [done|].
      assert (segment (start c arr0) (stop c arr0) (splice (start b arr0) (stop b arr0) seg arr) =
        segment (start c arr0) (stop c arr0) arr) as ->; [|by apply Hd].
      apply list_eq. intros q. destruct (decide (q < stop c arr0 - start c arr0)%nat).
      * rewrite !segment_lookup by done. apply splice_lookup_out; [done..|].
        intros Hin. apply Hne. apply (block_unique c b arr0 (start c arr0 + q)); [lia|done].
      * rewrite !lookup_ge_None_2; [done| |]; unfold segment; rewrite length_take; lia.
Qed.

(** All blocks sorted, and the order of the values respecting [R]: the array is
    sorted. *)
Lemma blocks_sorted_all n arr0 dn arr :
  Forall (fun x => (byte x < n)%nat) arr0 -> blocks_sorted arr0 dn arr ->
  (forall b, (0 < cnt b arr0)%nat -> b ∈ dn) ->
  (forall x y, x ∈ arr0 -> y ∈ arr0 -> (byte x < byte y)%nat -> R x y) ->
  StronglySorted R arr.
Proof.
  intros Hn [Hs Hd] Hall Hlt. pose proof (st_perm _ _ _ Hs) as Hp.
  apply lookup_sorted. intros i j x y Hij Hi Hj.
  pose proof (settled_block _ _ _ _ _ Hn Hs Hi) as Bx. pose proof (settled_block _ _ _ _ _ Hn Hs Hj) as By.
  assert (x ∈ arr0) by (rewrite <- Hp; by eapply list_elem_of_lookup_2).
  assert (y ∈ arr0) by (rewrite <- Hp; by eapply list_elem_of_lookup_2).
  destruct (Nat.lt_trichotomy (byte x) (byte y)) as [Hb|[Hb|Hb]]; [by apply Hlt| |].
  - rewrite <- Hb in By. assert (Hin : byte x ∈ dn) by (apply Hall; by eapply (cnt_elem _ x)).
    apply (sorted_lookup R _ (i - start (byte x) arr0) (j - start (byte x) arr0) x y (Hd _ Hin)); [lia| |];
      rewrite segment_lookup by (simpl in *; lia); rewrite <- ?Hi, <- ?Hj; f_equal; lia.
  - pose proof (start_le (S (byte y)) (byte x) arr0). lia.
Qed.
End Blocks.
Arguments start : simpl never.

Lemma start_S {A} (byte : A -> nat) b arr : start byte (S b) arr = (start byte b arr + cnt byte b arr)%nat.
Proof. done. Qed.
