(* ===== verification/SkaSort.v ===== *)
(** * The partition loops of the radix sort ([tl2/ska_sort.h])

    Grouping a range in place by a byte of its elements, with [american_flag_sort]
    or [ska_byte_sort], and the recursion into the groups: [std::sort] for those
    with fewer than 128 elements, else the next byte.  A range is the list of its
    elements; positions are relative to its beginning.  Reading or swapping outside
    the range is undefined: the definitions return [None] there, and when their
    fuel runs out. *)

From S2P Require Import Prelude Blocks.

(** ** Parameters of the sort *)

(** [std::sort] with a comparison.  The standard says: for a strict weak order on the
    elements, here that of a rank, some permutation, which is sorted. *)
Class StdSort (A : Type) := { std_sort : (A -> A -> bool) -> list A -> list A }.
Class StdSortLaws A `{StdSort A} := {
  std_sort_perm lt (rank : A -> Z) l :
    (forall x y, x ∈ l -> y ∈ l -> lt x y = (rank x <? rank y)) -> std_sort lt l ≡ₚ l;
  std_sort_sorted lt (rank : A -> Z) l :
    (forall x y, x ∈ l -> y ∈ l -> lt x y = (rank x <? rank y)) ->
    StronglySorted (fun x y => rank x <= rank y) (std_sort lt l) }.

Definition StdSortThreshold : nat := 128.
Definition AmericanFlagSortThreshold : nat := 1024.

(** [count] and [offset] share their memory. *)
Record PartitionInfo := MkPartition { offset : nat; next_offset : nat }.

Section Sort.
Context {A : Type} (StdSortFallback : list A -> list A).
Implicit Types (arr : list A) (ps : list PartitionInfo).

(** ** Counting *)

Definition count_one (byte : A -> nat) ps (x : A) : list PartitionInfo :=
  alter (fun p => MkPartition (S (offset p)) (next_offset p)) (byte x) ps.

Definition count_partitions (byte : A -> nat) arr : list PartitionInfo :=
  foldl (count_one byte) (replicate 256 (MkPartition 0 0)) arr.

(** The loop over the 256 partitions of [american_flag_sort]: offsets of those
    that are not empty, which are listed. *)
Fixpoint place_af (bs : list nat) (total : nat) ps (remaining : list nat)
  : list PartitionInfo * list nat :=
  match bs with
  | [] => (ps, remaining)
  | i :: bs' =>
      match ps !! i with
      | Some p =>
          let count := offset p in
          if (count =? 0)%nat then place_af bs' total ps remaining
          else place_af bs' (total + count) (<[i := MkPartition total (total + count)]> ps)
                 (remaining ++ [i])
      | None => (ps, remaining)
      end
  end.

(** That of [ska_byte_sort], which sets the end of every partition. *)
Fixpoint place_ska (bs : list nat) (total : nat) ps (remaining : list nat)
  : list PartitionInfo * list nat :=
  match bs with
  | [] => (ps, remaining)
  | i :: bs' =>
      match ps !! i with
      | Some p =>
          let count := offset p in
          if (count =? 0)%nat then place_ska bs' total (<[i := MkPartition (offset p) total]> ps) remaining
          else place_ska bs' (total + count) (<[i := MkPartition total (total + count)]> ps)
                 (remaining ++ [i])
      | None => (ps, remaining)
      end
  end.

(** ** [american_flag_sort]: the permutation loop *)

Record flag_state := FlagState {
  f_arr : list A;
  f_ps : list PartitionInfo;
  current_block_ptr : nat;         (* an index of remaining_partitions *)
  it : nat;
  block_end : nat }.

(** The inner loop that looks for the next block with room: [None] in the sum is
    [goto recurse]. *)
Fixpoint next_block (fuel : nat) (remaining : list nat) ps (ptr : nat) : option (option nat) :=
  match fuel with
  | O => None
  | S fuel' =>
      let ptr := S ptr in
      if (ptr =? length remaining - 1)%nat then Some None
      else match remaining !! ptr ≫= (fun b => ps !! b) with
           | Some p => if (offset p =? next_offset p)%nat then next_block fuel' remaining ps ptr
                       else Some (Some ptr)
           | None => None
           end
  end.

(** One turn of [for (;;)]: the next state, or the array when the loop ends. *)
Definition flag_step (byte : A -> nat) (remaining : list nat) (s : flag_state)
  : option (flag_state + list A) :=
  match f_arr s !! it s, remaining !! current_block_ptr s with
  | Some x, Some current =>
      let block := byte x in
      if (block =? current)%nat then
        let it' := S (it s) in
        if (it' =? length (f_arr s) - 1)%nat then Some (inr (f_arr s))
        else if (it' =? block_end s)%nat then
          match next_block (length remaining) remaining (f_ps s) (current_block_ptr s) with
          | Some None => Some (inr (f_arr s))
          | Some (Some ptr) =>
              match remaining !! ptr ≫= (fun b => f_ps s !! b) with
              | Some p => Some (inl (FlagState (f_arr s) (f_ps s) ptr (offset p) (next_offset p)))
              | None => None
              end
          | None => None
          end
        else Some (inl (FlagState (f_arr s) (f_ps s) (current_block_ptr s) it' (block_end s)))
      else
        match f_ps s !! block with
        | Some p =>
            match iter_swap (it s) (offset p) (f_arr s) with
            | Some arr' =>
                Some (inl (FlagState arr'
                  (<[block := MkPartition (S (offset p)) (next_offset p)]> (f_ps s))
                  (current_block_ptr s) (it s) (block_end s)))
            | None => None
            end
        | None => None
        end
  | _, _ => None
  end.

Fixpoint flag_loop (fuel : nat) (byte : A -> nat) (remaining : list nat) (s : flag_state)
  : option (list A) :=
  match fuel with
  | O => None
  | S fuel' =>
      match flag_step byte remaining s with
      | Some (inl s') => flag_loop fuel' byte remaining s'
      | Some (inr arr) => Some arr
      | None => None
      end
  end.

(** The array grouped by the byte, with the partitions and those not empty. *)
Definition flag_partition (byte : A -> nat) arr
  : option (list A * list PartitionInfo * list nat) :=
  let '(ps, remaining) := place_af (seq 0 256) 0 (count_partitions byte arr) [] in
  if (1 <? length remaining)%nat then
    match remaining !! 0%nat ≫= (fun b => ps !! b) with
    | Some p =>
        match flag_loop (length arr) byte remaining (FlagState arr ps 0 0 (next_offset p)) with
        | Some arr' => Some (arr', ps, remaining)
        | None => None
        end
    | None => None
    end
  else Some (arr, ps, remaining).

(** ** [ska_byte_sort] *)

(** [unroll_loop_four_times]: the calls four at a time, then the rest by a
    [switch] that falls through. *)
Section Unroll.
Context {S : Type} (to_call : nat -> S -> option S).

Fixpoint unroll_fours (loop_count begin : nat) (s : S) : option (nat * S) :=
  match loop_count with
  | O => Some (begin, s)
  | Datatypes.S n =>
      match to_call begin s with
      | Some s1 =>
          match to_call (begin + 1) s1 with
          | Some s2 =>
              match to_call (begin + 2) s2 with
              | Some s3 =>
                  match to_call (begin + 3) s3 with
                  | Some s4 => unroll_fours n (begin + 4) s4
                  | None => None
                  end
              | None => None
              end
          | None => None
          end
      | None => None
      end
  end.

Definition unroll_rest (remainder_count begin : nat) (s : S) : option S :=
  match remainder_count with
  | 3 => match to_call begin s with
         | Some s1 => match to_call (begin + 1) s1 with
                      | Some s2 => to_call (begin + 2) s2
                      | None => None
                      end
         | None => None
         end
  | 2 => match to_call begin s with
         | Some s1 => to_call (begin + 1) s1
         | None => None
         end
  | 1 => to_call begin s
  | _ => Some s
  end%nat.

Definition unroll_loop_four_times (begin iteration_count : nat) (s : S) : option S :=
  let loop_count := (iteration_count / 4)%nat in
  let remainder_count := (iteration_count - loop_count * 4)%nat in
  match unroll_fours loop_count begin s with
  | Some (begin', s') => unroll_rest remainder_count begin' s'
  | None => None
  end.
End Unroll.

(** [custom_std_partition] with a predicate that changes a state: the range
    rearranged, the end of the part that satisfies it, the state. *)
Section CustomPartition.
Context {B S : Type} (func : S -> B -> option (bool * S)).

Fixpoint partition_rest (n it begin : nat) (l : list B) (s : S) : option (list B * nat * S) :=
  match n with
  | O => Some (l, begin, s)
  | Datatypes.S n' =>
      match l !! it with
      | Some x =>
          match func s x with
          | Some (true, s') =>
              match iter_swap begin it l with
              | Some l' => partition_rest n' (it + 1) (begin + 1) l' s'
              | None => None
              end
          | Some (false, s') => partition_rest n' (it + 1) begin l s'
          | None => None
          end
      | None => None
      end
  end.

Fixpoint partition_first (n begin : nat) (l : list B) (s : S) : option (list B * nat * S) :=
  match n with
  | O => Some (l, begin, s)
  | Datatypes.S n' =>
      match l !! begin with
      | Some x =>
          match func s x with
          | Some (true, s') => partition_first n' (begin + 1) l s'
          | Some (false, s') => partition_rest n' (begin + 1) begin l s'
          | None => None
          end
      | None => None
      end
  end.

Definition custom_std_partition (l : list B) (s : S) : option (list B * nat * S) :=
  partition_first (length l) 0 l s.
End CustomPartition.

(** The array and the partitions. *)
Abbreviation ska_state := (list A * list PartitionInfo)%type.

(** The lambda of the inner loop: the element at [it] goes to the offset of its
    partition, which advances. *)
Definition ska_call (byte : A -> nat) (it : nat) (s : ska_state) : option ska_state :=
  let '(arr, ps) := s in
  match arr !! it with
  | Some x =>
      let this_partition := byte x in
      match ps !! this_partition with
      | Some p =>
          match iter_swap it (offset p) arr with
          | Some arr' => Some (arr', <[this_partition := MkPartition (offset p + 1) (next_offset p)]> ps)
          | None => None
          end
      | None => None
      end
  | None => None
  end.

(** The lambda of the outer loop: one pass over a partition; does it still have
    elements to place? *)
Definition ska_pass (byte : A -> nat) (s : ska_state) (partition : nat) : option (bool * ska_state) :=
  let '(arr, ps) := s in
  match ps !! partition with
  | Some p =>
      if (offset p =? next_offset p)%nat then Some (false, s)
      else
        match unroll_loop_four_times (ska_call byte) (offset p) (next_offset p - offset p) s with
        | Some (arr', ps') =>
            match ps' !! partition with
            | Some p' => Some (negb (offset p' =? next_offset p')%nat, (arr', ps'))
            | None => None
            end
        | None => None
        end
  | None => None
  end.

(** The outer loop, while more than one partition remains. *)
Fixpoint ska_rounds (fuel : nat) (byte : A -> nat) (last_remaining : nat) (remaining : list nat)
  (s : ska_state) : option (list nat * ska_state) :=
  if (1 <? last_remaining)%nat then
    match fuel with
    | O => None
    | Datatypes.S fuel' =>
        match custom_std_partition (ska_pass byte) (take last_remaining remaining) s with
        | Some (l, last', s') => ska_rounds fuel' byte last' (l ++ drop last_remaining remaining) s'
        | None => None
        end
    end
  else Some (remaining, s).

Definition ska_partition (byte : A -> nat) arr : option (list A * list PartitionInfo * list nat) :=
  let '(ps, remaining) := place_ska (seq 0 256) 0 (count_partitions byte arr) [] in
  match ska_rounds (length arr + 2) byte (length remaining) remaining (arr, ps) with
  | Some (remaining', (arr', ps')) => Some (arr', ps', remaining')
  | None => None
  end.

(** ** Recursion into the partitions *)

(** [StdSortIfLessThanThreshold]: the range when it is done with. *)
Definition StdSortIfLessThanThreshold arr : option (list A) :=
  if (length arr <=? 1)%nat then Some arr
  else if (StdSortThreshold <=? length arr)%nat then None
  else Some (StdSortFallback arr).

(** A range sorted by [std::sort] or by the next byte. *)
Definition sort_range (sort_next : list A -> option (list A)) arr : option (list A) :=
  match StdSortIfLessThanThreshold arr with
  | Some arr' => Some arr'
  | None => sort_next arr
  end.

(** In [american_flag_sort]: the partitions not empty, in order. *)
Fixpoint recurse_af (sort_next : list A -> option (list A)) ps (remaining : list nat)
  (start_offset : nat) arr : option (list A) :=
  match remaining with
  | [] => Some arr
  | b :: r =>
      match ps !! b with
      | Some p =>
          let end_offset := next_offset p in
          match sort_range sort_next (segment start_offset end_offset arr) with
          | Some seg => recurse_af sort_next ps r end_offset (splice start_offset end_offset seg arr)
          | None => None
          end
      | None => None
      end
  end.

(** In [ska_byte_sort]: from the last of the remaining partitions to the first. *)
Fixpoint recurse_ska (sort_next : list A -> option (list A)) ps (reversed : list nat) arr
  : option (list A) :=
  match reversed with
  | [] => Some arr
  | partition :: r =>
      match (if (partition =? 0)%nat then Some 0%nat
             else next_offset <$> ps !! (partition - 1)%nat), ps !! partition with
      | Some start_offset, Some p =>
          let end_offset := next_offset p in
          match sort_range sort_next (segment start_offset end_offset arr) with
          | Some seg => recurse_ska sort_next ps r (splice start_offset end_offset seg arr)
          | None => None
          end
      | _, _ => None
      end
  end.

Definition american_flag_sort (sort_next : option (list A -> option (list A))) (byte : A -> nat) arr
  : option (list A) :=
  match flag_partition byte arr with
  | Some (arr', ps, remaining) =>
      match sort_next with
      | Some next => recurse_af next ps remaining 0 arr'
      | None => Some arr'
      end
  | None => None
  end.

Definition ska_byte_sort (sort_next : option (list A -> option (list A))) (byte : A -> nat) arr
  : option (list A) :=
  match ska_partition byte arr with
  | Some (arr', ps, remaining) =>
      match sort_next with
      | Some next => recurse_ska next ps (rev remaining) arr'
      | None => Some arr'
      end
  | None => None
  end.

(** ** The partitions hold the blocks *)

Section Placed.
Context (byte : A -> nat) (Hbyte : forall x, (byte x < 256)%nat).

Lemma count_partitions_spec arr b : (b < 256)%nat ->
  count_partitions byte arr !! b = Some (MkPartition (cnt byte b arr) 0).
Proof.
  intros Hb. unfold count_partitions.
  assert (Hgen : forall (ps : list PartitionInfo) c, ps !! b = Some (MkPartition c 0) ->
    foldl (count_one byte) ps arr !! b = Some (MkPartition (c + cnt byte b arr) 0)).
  { induction arr as [|x arr IH]; intros ps c Hc; simpl; [rewrite Hc; change (cnt byte b []) with 0%nat; by rewrite Nat.add_0_r|].
    unfold count_one at 2, cnt. rewrite filter_cons. destruct (decide (byte x = b)) as [E|E].
    - rewrite (IH _ (S c)).
      + simpl. unfold cnt. do 2 f_equal. lia.
      + rewrite E, list_lookup_alter_eq, Hc. done.
    - rewrite (IH _ c); [done|]. by rewrite list_lookup_alter_ne. }
  rewrite (Hgen _ 0%nat); [done|]. by rewrite lookup_replicate_2.
Qed.

Abbreviation nonempty arr := (fun b => cnt byte b arr <> 0%nat).

Lemma place_af_spec arr (n i : nat) ps rem :
  (i + n <= 256)%nat -> (forall b, (i <= b < 256)%nat -> ps !! b = Some (MkPartition (cnt byte b arr) 0)) ->
  exists ps', place_af (seq i n) (start byte i arr) ps rem =
      (ps', rem ++ filter (nonempty arr) (seq i n)) /\
    (forall b, (b < i)%nat -> ps' !! b = ps !! b) /\
    (forall b, (i <= b < i + n)%nat -> cnt byte b arr <> 0%nat ->
       ps' !! b = Some (MkPartition (start byte b arr) (start byte (S b) arr))).
Proof.
  revert i ps rem. induction n as [|n IH]; intros i ps rem Hin Hps; simpl.
  - exists ps. rewrite app_nil_r. split_and!; [done..|]. intros; lia.
  - rewrite Hps by lia. simpl. destruct (Nat.eqb_spec (cnt byte i arr) 0) as [E|E].
    + rewrite filter_cons_False by auto.
      assert (Es : start byte (S i) arr = start byte i arr) by (rewrite start_S; lia).
      destruct (IH (S i) ps rem) as (ps' & Ep & Hlow & Hhigh); [lia|intros; apply Hps; lia|].
      rewrite Es in Ep. exists ps'. split_and!; [exact Ep| |].
      * intros b Hb. apply Hlow. lia.
      * intros b Hb Hc. destruct (decide (b = i)) as [->|]; [done|]. apply Hhigh; [lia|done].
    + rewrite filter_cons_True by auto.
      destruct (IH (S i) (<[i := MkPartition (start byte i arr) (start byte (S i) arr)]> ps) (rem ++ [i]))
        as (ps' & Ep & Hlow & Hhigh); [lia| |].
      { intros b Hb. rewrite list_lookup_insert_ne by lia. apply Hps. lia. }
      exists ps'. split_and!.
      * rewrite <- app_assoc in Ep. exact Ep.
      * intros b Hb. rewrite Hlow by lia. apply list_lookup_insert_ne. lia.
      * intros b Hb Hc. destruct (decide (b = i)) as [->|]; [|apply Hhigh; [lia|done]].
        rewrite Hlow by lia. apply list_lookup_insert_eq. eapply lookup_lt_Some, Hps. lia.
Qed.

Lemma place_ska_spec arr (n i : nat) ps rem :
  (i + n <= 256)%nat -> (forall b, (i <= b < 256)%nat -> ps !! b = Some (MkPartition (cnt byte b arr) 0)) ->
  exists ps', place_ska (seq i n) (start byte i arr) ps rem =
      (ps', rem ++ filter (nonempty arr) (seq i n)) /\
    (forall b, (b < i)%nat -> ps' !! b = ps !! b) /\
    (forall b, (i <= b < i + n)%nat -> exists o,
       ps' !! b = Some (MkPartition o (start byte (S b) arr)) /\
       (cnt byte b arr <> 0%nat -> o = start byte b arr)).
Proof.
  revert i ps rem. induction n as [|n IH]; intros i ps rem Hin Hps; simpl.
  - exists ps. rewrite app_nil_r. split_and!; [done..|]. intros; lia.
  - rewrite Hps by lia. simpl. destruct (Nat.eqb_spec (cnt byte i arr) 0) as [E|E].
    + rewrite filter_cons_False by auto.
      assert (Es : start byte (S i) arr = start byte i arr) by (rewrite start_S; lia).
      destruct (IH (S i) (<[i := MkPartition (cnt byte i arr) (start byte i arr)]> ps) rem)
        as (ps' & Ep & Hlow & Hhigh); [lia| |].
      { intros b Hb. rewrite list_lookup_insert_ne by lia. apply Hps. lia. }
      rewrite Es in Ep. exists ps'. split_and!; [exact Ep| |].
      * intros b Hb. rewrite Hlow by lia. apply list_lookup_insert_ne. lia.
      * intros b Hb. destruct (decide (b = i)) as [->|]; [|apply Hhigh; lia].
        exists (cnt byte i arr). split; [|lia]. rewrite Hlow by lia.
        rewrite list_lookup_insert_eq; [by rewrite Es|]. eapply lookup_lt_Some, Hps. lia.
    + rewrite filter_cons_True by auto.
      destruct (IH (S i) (<[i := MkPartition (start byte i arr) (start byte (S i) arr)]> ps) (rem ++ [i]))
        as (ps' & Ep & Hlow & Hhigh); [lia| |].
      { intros b Hb. rewrite list_lookup_insert_ne by lia. apply Hps. lia. }
      exists ps'. split_and!.
      * rewrite <- app_assoc in Ep. exact Ep.
      * intros b Hb. rewrite Hlow by lia. apply list_lookup_insert_ne. lia.
      * intros b Hb. destruct (decide (b = i)) as [->|]; [|apply Hhigh; lia].
        exists (start byte i arr). split; [|done]. rewrite Hlow by lia.
        apply list_lookup_insert_eq. eapply lookup_lt_Some, Hps. lia.
Qed.
End Placed.
End Sort.

(** ** [unroll_loop_four_times] is a loop *)
Section UnrollSpec.
Context {S : Type} (to_call : nat -> S -> option S).

Fixpoint calls (n begin : nat) (s : S) : option S :=
  match n with
  | O => Some s
  | Datatypes.S n' =>
      match to_call begin s with Some s' => calls n' (begin + 1) s' | None => None end
  end.

Lemma unroll_fours_calls k r begin s :
  calls (k * 4 + r) begin s =
    match unroll_fours to_call k begin s with
    | Some (begin', s') => calls r begin' s'
    | None => None
    end.
Proof.
  revert begin s. induction k as [|k IH]; intros begin s; [done|].
  cbn [Nat.mul Nat.add calls unroll_fours]. destruct (to_call begin s) as [s1|]; [|done].
  destruct (to_call (begin + 1) s1) as [s2|]; [|done].
  replace (begin + 1 + 1)%nat with (begin + 2)%nat by lia.
  destruct (to_call (begin + 2) s2) as [s3|]; [|done].
  replace (begin + 2 + 1)%nat with (begin + 3)%nat by lia.
  destruct (to_call (begin + 3) s3) as [s4|]; [|done].
  replace (begin + 3 + 1)%nat with (begin + 4)%nat by lia. apply IH.
Qed.

Lemma unroll_rest_calls r begin s : (r < 4)%nat -> unroll_rest to_call r begin s = calls r begin s.
Proof.
  intros Hr. unfold unroll_rest.
  destruct r as [|[|[|[|r]]]]; simpl; [done| | | |lia]; repeat (case_match; try done);
    replace (begin + 1 + 1)%nat with (begin + 2)%nat in * by lia; congruence.
Qed.

(** The unrolled loop makes the calls of the plain one, in the same order. *)
Lemma unroll_calls begin n s : unroll_loop_four_times to_call begin n s = calls n begin s.
Proof.
  unfold unroll_loop_four_times. pose proof (Nat.div_mod_eq n 4). pose proof (Nat.mod_upper_bound n 4).
  assert (E : calls n begin s = calls (n / 4 * 4 + (n - n / 4 * 4)) begin s) by (f_equal; lia).
  rewrite E, unroll_fours_calls.
  destruct (unroll_fours to_call (n / 4) begin s) as [[b s']|]; [|done]. apply unroll_rest_calls. lia.
Qed.

Lemma calls_fold n begin s :
  calls n begin s = foldl (fun o i => o ≫= to_call i) (Some s) (seq begin n).
Proof.
  revert begin s. induction n as [|n IH]; intros begin s; [done|]. cbn [calls seq foldl].
  cbn [mbind option_bind]. destruct (to_call begin s) as [s'|]; [by rewrite IH, Nat.add_1_r|].
  clear IH. generalize (Datatypes.S begin). induction n as [|n IH]; intros i; [done|]. cbn [seq foldl].
  apply IH.
Qed.

(** The unrolled loop of [ska_byte_sort] is a loop.  Calling a function four
    times a turn and the rest through a [switch] makes the calls at every
    position of the range, once each and in order, and stops at the first that
    is undefined. *)
Theorem unroll_loop_is_fold begin iteration_count s :
  unroll_loop_four_times to_call begin iteration_count s =
    foldl (fun o i => o ≫= to_call i) (Some s) (seq begin iteration_count).
Proof. by rewrite unroll_calls, calls_fold. Qed.
End UnrollSpec.
