(* ===== verification/SkaFlag.v ===== *)
(** * [american_flag_sort] groups the array

    The permutation loop stays inside the array, ends after at most one turn for
    each element, and leaves every element in the block of its byte. *)

From S2P Require Import Prelude Blocks SkaSort.

(** The partitions that are not empty, in increasing order. *)
Section Remaining.
Context {A : Type} (byte : A -> nat).
Implicit Types (arr : list A).

Definition remaining_of arr : list nat := filter (fun b => cnt byte b arr <> 0%nat) (seq 0 256).

Lemma elem_remaining arr b : b ∈ remaining_of arr <-> (b < 256)%nat /\ cnt byte b arr <> 0%nat.
Proof. unfold remaining_of. rewrite list_elem_of_filter, elem_of_seq. naive_solver lia. Qed.

Lemma remaining_sorted arr : StronglySorted lt (remaining_of arr).
Proof.
  unfold remaining_of. assert (Hgen : forall n i, StronglySorted lt (filter (fun b => cnt byte b arr <> 0%nat) (seq i n))).
  { induction n as [|n IH]; intros i; simpl; [constructor|]. rewrite filter_cons.
    case_decide; [|apply IH]. constructor; [apply IH|]. apply Forall_forall. intros b Hb.
    apply list_elem_of_filter in Hb as [_ Hb]. apply elem_of_seq in Hb. lia. }
  apply Hgen.
Qed.

Lemma remaining_lt arr (i j : nat) b c :
  (i < j)%nat -> remaining_of arr !! i = Some b -> remaining_of arr !! j = Some c -> (b < c)%nat.
Proof. intros. by eapply (sorted_lookup lt _ i j), H1; [apply remaining_sorted|..]. Qed.
End Remaining.
Arguments remaining_of : simpl never.

Section Flag.
Context {A : Type} (byte : A -> nat) (Hbyte : forall x, (byte x < 256)%nat).
Context (arr0 : list A).
Abbreviation rem := (remaining_of byte arr0).
Abbreviation start b := (start byte b arr0).
Abbreviation stop b := (Blocks.start byte (S b) arr0).
Implicit Types (s : flag_state (A := A)) (off : nat -> nat).

Lemma all_bytes : Forall (fun x => (byte x < 256)%nat) arr0.
Proof. by apply Forall_true. Qed.

(** A partition outside the list is empty: its block is full from the start. *)
Lemma empty_full arr off b : settled byte arr0 arr off -> b ∉ rem -> (b < 256)%nat -> off b = stop b.
Proof.
  intros Hs Hb Hlt. pose proof (st_off _ _ _ _ Hs b) as Ho. rewrite elem_remaining in Hb.
  assert (cnt byte b arr0 = 0%nat) by (destruct (decide (cnt byte b arr0 = 0%nat)); [done|tauto]).
  rewrite start_S in *. lia.
Qed.

Lemma high_full arr off b : settled byte arr0 arr off -> (256 <= b)%nat -> off b = stop b.
Proof.
  intros Hs Hb. pose proof (st_off _ _ _ _ Hs b) as Ho.
  assert (cnt byte b arr0 = 0%nat); [|rewrite start_S in *; lia].
  unfold cnt. apply length_zero_iff_nil, elem_of_nil_inv. intros x Hx.
  apply list_elem_of_filter in Hx as [Hx _]. specialize (Hbyte x). lia.
Qed.

(** The loop at block number [ptr], with the offsets [off]. *)
Record flag_inv s off : Prop := {
  fl_settled : settled byte arr0 (f_arr s) off;
  fl_ptr : (current_block_ptr s < length rem - 1)%nat;
  fl_cur : forall c, rem !! current_block_ptr s = Some c ->
    off c = it s /\ (it s < stop c)%nat /\ block_end s = stop c;
  fl_before : forall j b, rem !! j = Some b -> (j < current_block_ptr s)%nat -> off b = stop b;
  fl_after : forall j b, rem !! j = Some b -> (current_block_ptr s < j)%nat ->
    f_ps s !! b = Some (MkPartition (off b) (stop b)) }.

Definition grouped arr : Prop := settled byte arr0 arr (fun b => stop b).

(** Everything before the last partition is full. *)
Lemma flag_grouped arr off :
  settled byte arr0 arr off ->
  (forall j b, rem !! j = Some b -> (j < length rem - 1)%nat -> off b = stop b) -> grouped arr.
Proof.
  intros Hs Hfull. apply (settled_finish _ _ _ off (default 0%nat (last rem))); [done|].
  intros b Hb. destruct (decide (b ∈ rem)) as [Hin|Hn].
  - apply list_elem_of_lookup in Hin as [j Hj].
    pose proof (lookup_lt_Some _ _ _ Hj) as Hlt. apply (Hfull j); [done|]. destruct (decide (j = length rem - 1)%nat) as [->|]; [|clear -n Hlt; lia].
    exfalso. apply Hb. rewrite last_lookup. replace (pred (length rem)) with (length rem - 1)%nat by lia.
    by rewrite Hj.
  - destruct (decide (b < 256)%nat); [by eapply empty_full|]. eapply high_full; [done|lia].
Qed.

(** What [next_block] finds. *)
Lemma next_block_spec fuel ps ptr off :
  (ptr < length rem - 1)%nat -> (length rem - ptr <= fuel)%nat ->
  (forall j b, rem !! j = Some b -> (ptr < j)%nat -> ps !! b = Some (MkPartition (off b) (stop b))) ->
  match next_block fuel rem ps ptr with
  | Some None => forall j b, rem !! j = Some b -> (ptr < j < length rem - 1)%nat -> off b = stop b
  | Some (Some ptr') => (ptr < ptr' < length rem - 1)%nat /\
      (forall j b, rem !! j = Some b -> (ptr < j < ptr')%nat -> off b = stop b) /\
      (forall b, rem !! ptr' = Some b -> off b <> stop b)
  | None => False
  end.
Proof.
  revert ptr. induction fuel as [|fuel IH]; intros ptr Hptr Hf Hps; [lia|]. cbn [next_block].
  destruct (Nat.eqb_spec (S ptr) (length rem - 1)) as [E|E]; [intros j b _ Hj; lia|].
  assert (Hlt : (S ptr < length rem)%nat) by lia. apply lookup_lt_is_Some in Hlt as [b Hb].
  rewrite Hb. cbn [mbind option_bind]. rewrite (Hps _ _ Hb) by lia. cbn [offset next_offset].
  destruct (Nat.eqb_spec (off b) (stop b)) as [Ef|Ef].
  - assert (Hps' : forall j c, rem !! j = Some c -> (S ptr < j)%nat -> ps !! c = Some (MkPartition (off c) (stop c)))
      by (intros j c Hj Hlt; eapply Hps; [exact Hj|lia]).
    specialize (IH (S ptr) ltac:(lia) ltac:(lia) Hps').
    assert (Hstep : forall j c, rem !! j = Some c -> j = S ptr -> off c = stop c).
    { intros j c Hj ->. by simplify_eq. }
    revert IH. destruct (next_block fuel rem ps (S ptr)) as [[ptr'|]|]; intros IH; [| |done].
    + destruct IH as (Hp & Hbetween & Hne). split; [lia|]. split; [|done].
      intros j c Hj Hjp. destruct (decide (j = S ptr)) as [Ej|]; [by eapply Hstep|].
      apply (Hbetween j); [done|lia].
    + intros j c Hj Hjp. destruct (decide (j = S ptr)) as [Ej|]; [by eapply Hstep|].
      eapply IH; [exact Hj|lia].
  - split; [lia|]. split.
    + intros; lia.
    + intros c Hc. by simplify_eq.
Qed.

(** ** One turn of the loop *)

Lemma cur_not_settled s off c i :
  settled byte arr0 (f_arr s) off -> off c = i -> (i < stop c)%nat ->
  forall b, ~ (start b <= i < off b)%nat.
Proof.
  intros Hs Hc Hi b Hb. pose proof (st_off _ _ _ _ Hs) as Ho.
  assert (b = c); [|subst; lia]. pose proof (Ho b). pose proof (Ho c).
  apply (block_unique byte b c arr0 i); lia.
Qed.

(** The element at [it] is in place: [off] with the current block advanced. *)
Lemma stay_settled s off c x :
  settled byte arr0 (f_arr s) off -> off c = it s -> (it s < stop c)%nat ->
  f_arr s !! it s = Some x -> byte x = c -> settled byte arr0 (f_arr s) (bump c off).
Proof.
  intros Hs Hc Hi Hx Hb.
  destruct (settle byte arr0 (f_arr s) off (it s) x Hs Hx) as (arr' & Es & Hs' & _).
  { by eapply cur_not_settled. }
  rewrite Hb, Hc in *. unfold iter_swap in Es. rewrite Hx in Es. simplify_eq.
  by rewrite !list_insert_id in Hs' by (rewrite ?list_insert_id by done; done).
Qed.

Lemma bump_ne c off b : b <> c -> bump c off b = off b.
Proof. intros Hb. unfold bump. by rewrite decide_False. Qed.
Lemma bump_eq c off : bump c off c = S (off c).
Proof. unfold bump. by rewrite decide_True. Qed.

Lemma rem_inj (i j : nat) b : rem !! i = Some b -> rem !! j = Some b -> i = j.
Proof.
  intros Hi Hj. destruct (Nat.lt_trichotomy i j) as [Hl|[|Hl]]; [|done|].
  - pose proof (remaining_lt _ _ _ _ _ _ Hl Hi Hj). lia.
  - pose proof (remaining_lt _ _ _ _ _ _ Hl Hj Hi). lia.
Qed.

Lemma rem_byte (i : nat) b : rem !! i = Some b -> (b < 256)%nat /\ cnt byte b arr0 <> 0%nat.
Proof. intros Hi. apply elem_remaining. by eapply list_elem_of_lookup_2. Qed.

Lemma rem_disjoint (i j : nat) b c :
  (i < j)%nat -> rem !! i = Some b -> rem !! j = Some c -> (stop b <= start c)%nat.
Proof. intros Hij Hi Hj. apply start_le. pose proof (remaining_lt _ _ _ _ _ _ Hij Hi Hj). lia. Qed.

(** At the last element: the blocks after the current one hold it alone. *)
Lemma last_element_full s off c :
  flag_inv s off -> rem !! current_block_ptr s = Some c -> S (it s) = (length arr0 - 1)%nat ->
  settled byte arr0 (f_arr s) (bump c off) -> grouped (f_arr s).
Proof.
  intros Hf Hc Hlast Hs. eapply flag_grouped; [exact Hs|]. intros j b Hj Hlt.
  destruct (fl_cur _ _ Hf c Hc) as (Hoc & Hit & _).
  assert (Hl : exists l, rem !! (length rem - 1)%nat = Some l).
  { pose proof (fl_ptr _ _ Hf). assert (Hl : (length rem - 1 < length rem)%nat) by lia.
    by apply lookup_lt_is_Some in Hl. }
  destruct Hl as [l Hl]. pose proof (rem_byte _ _ Hl) as [Hl1 Hl2].
  assert (Hstop : (stop l <= length arr0)%nat).
  { rewrite <- (start_all byte 256 arr0 all_bytes). apply start_le. lia. }
  rewrite start_S in Hstop.
  assert (Hcl : (stop c <= start l)%nat) by (eapply rem_disjoint; [apply Hf|done|done]).
  destruct (Nat.lt_trichotomy j (current_block_ptr s)) as [Hjp|[->|Hjp]].
  - rewrite bump_ne; [by apply (fl_before _ _ Hf j)|]. intros ->.
    pose proof (rem_inj _ _ _ Hj Hc). lia.
  - simplify_eq. rewrite bump_eq. lia.
  - pose proof (rem_byte _ _ Hj) as [_ Hb2].
    pose proof (rem_disjoint _ _ _ _ Hjp Hc Hj). pose proof (rem_disjoint _ _ _ _ Hlt Hj Hl).
    rewrite start_S in *. lia.
Qed.

Definition flag_ok s off (r : option (flag_state + list A)) : Prop :=
  match r with
  | Some (inl s') => exists off', flag_inv s' off' /\
      unsettled byte arr0 off = S (unsettled byte arr0 off')
  | Some (inr arr) => grouped arr
  | None => False
  end.

(** The element belongs to the current block. *)
Lemma flag_stay_ok s off c x :
  flag_inv s off -> rem !! current_block_ptr s = Some c -> f_arr s !! it s = Some x ->
  byte x = c -> flag_ok s off (flag_step byte rem s).
Proof.
  intros Hf Hc Hx Hb. destruct (fl_cur _ _ Hf c Hc) as (Hoc & Hit & Hend).
  pose proof (fl_settled _ _ Hf) as Hs. pose proof (stay_settled _ _ _ _ Hs Hoc Hit Hx Hb) as Hs'.
  pose proof (rem_byte _ _ Hc) as [Hc1 _]. pose proof (fl_ptr _ _ Hf) as Hptr.
  assert (Hm : unsettled byte arr0 off = S (unsettled byte arr0 (bump c off)))
    by (apply unsettled_bump; [done|lia]).
  assert (Hafter : forall j b, rem !! j = Some b -> (current_block_ptr s < j)%nat ->
    f_ps s !! b = Some (MkPartition (bump c off b) (stop b))).
  { intros j b Hj Hlt. rewrite bump_ne; [by apply (fl_after _ _ Hf j)|]. intros ->.
    pose proof (rem_inj _ _ _ Hj Hc). lia. }
  assert (Hbefore : forall j b, rem !! j = Some b -> (j < current_block_ptr s)%nat -> bump c off b = stop b).
  { intros j b Hj Hlt. rewrite bump_ne; [by apply (fl_before _ _ Hf j)|]. intros ->.
    pose proof (rem_inj _ _ _ Hj Hc). lia. }
  unfold flag_step. rewrite Hx, Hc, Hb, Nat.eqb_refl.
  assert (Hlen : length (f_arr s) = length arr0) by (apply Permutation_length, Hs). rewrite Hlen.
  destruct (Nat.eqb_spec (S (it s)) (length arr0 - 1)) as [El|El].
  { by eapply last_element_full. }
  rewrite Hend. destruct (Nat.eqb_spec (S (it s)) (stop c)) as [Ee|Ee].
  - pose proof (next_block_spec (length rem) (f_ps s) (current_block_ptr s) (bump c off) Hptr ltac:(lia) Hafter) as Hn.
    destruct (next_block _ _ _ _) as [[ptr'|]|]; [| |done].
    + destruct Hn as (Hp' & Hbetween & Hne).
      assert (Hlt : (ptr' < length rem)%nat) by lia. apply lookup_lt_is_Some in Hlt as [c' Hc'].
      rewrite Hc'. cbn [mbind option_bind]. rewrite (Hafter ptr' c') by (done || lia).
      exists (bump c off). split; [|done]. constructor; cbn [f_arr f_ps current_block_ptr it block_end offset next_offset].
      * done.
      * lia.
      * intros d Hd. assert (d = c') as -> by congruence. split; [done|]. split; [|done].
        pose proof (st_off _ _ _ _ Hs' c'). specialize (Hne c' Hc'). lia.
      * intros j b Hj Hlt. destruct (Nat.lt_trichotomy j (current_block_ptr s)) as [Hjp|[->|Hjp]].
        -- by eapply Hbefore.
        -- simplify_eq. rewrite bump_eq. lia.
        -- by apply (Hbetween j).
      * intros j b Hj Hlt. apply (Hafter j); [done|lia].
    + eapply flag_grouped; [exact Hs'|]. intros j b Hj Hlt.
      destruct (Nat.lt_trichotomy j (current_block_ptr s)) as [Hjp|[->|Hjp]].
      * by eapply Hbefore.
      * simplify_eq. rewrite bump_eq. lia.
      * by apply (Hn j).
  - exists (bump c off). split; [|done]. constructor; cbn [f_arr f_ps current_block_ptr it block_end]; try done.
    intros d Hd. simplify_eq. rewrite bump_eq. split; [lia|]. split; [lia|done].
Qed.

(** The element belongs to a later block, where it goes. *)
Lemma flag_swap_ok s off c x :
  flag_inv s off -> rem !! current_block_ptr s = Some c -> f_arr s !! it s = Some x ->
  byte x <> c -> flag_ok s off (flag_step byte rem s).
Proof.
  intros Hf Hc Hx Hb. destruct (fl_cur _ _ Hf c Hc) as (Hoc & Hit & Hend).
  pose proof (fl_settled _ _ Hf) as Hs.
  destruct (settle byte arr0 (f_arr s) off (it s) x Hs Hx) as (arr' & Es & Hs' & Hroom).
  { by eapply cur_not_settled. }
  assert (Hin : byte x ∈ rem).
  { apply elem_remaining. split; [done|].
    assert (1 <= cnt byte (byte x) (f_arr s))%nat by (eapply cnt_elem; [by eapply list_elem_of_lookup_2|done]).
    rewrite <- (cnt_perm byte _ _ _ (st_perm _ _ _ _ Hs)). lia. }
  apply list_elem_of_lookup in Hin as [j Hj].
  assert (Hjp : (current_block_ptr s < j)%nat).
  { destruct (Nat.lt_trichotomy j (current_block_ptr s)) as [Hlt|[->|]]; [| |done].
    - pose proof (fl_before _ _ Hf j _ Hj Hlt). lia.
    - by simplify_eq. }
  pose proof (fl_after _ _ Hf j _ Hj Hjp) as Hps.
  unfold flag_step. rewrite Hx, Hc. rewrite (proj2 (Nat.eqb_neq _ _) Hb), Hps. cbn [offset next_offset].
  rewrite Es. exists (bump (byte x) off). split; [|by apply unsettled_bump].
  constructor; cbn [f_arr f_ps current_block_ptr it block_end].
  - done.
  - apply Hf.
  - intros d Hd. simplify_eq. rewrite bump_ne by done. done.
  - intros i b Hi' Hlt. rewrite bump_ne; [by apply (fl_before _ _ Hf i)|]. intros ->.
    pose proof (rem_inj _ _ _ Hi' Hj). lia.
  - intros i b Hi' Hlt. destruct (decide (b = byte x)) as [->|Hne].
    + rewrite bump_eq. apply list_lookup_insert_eq. by eapply lookup_lt_Some.
    + rewrite bump_ne by done. rewrite list_lookup_insert_ne by done. by apply (fl_after _ _ Hf i).
Qed.

Lemma flag_step_ok s off : flag_inv s off ->
  (0 < unsettled byte arr0 off)%nat /\ flag_ok s off (flag_step byte rem s).
Proof.
  intros Hf. pose proof (fl_ptr _ _ Hf) as Hptr.
  assert (Hlt : (current_block_ptr s < length rem)%nat) by lia. apply lookup_lt_is_Some in Hlt as [c Hc].
  destruct (fl_cur _ _ Hf c Hc) as (Hoc & Hit & _). pose proof (rem_byte _ _ Hc) as [Hc1 _].
  split; [apply (unsettled_pos byte arr0 off c); lia|].
  assert (Hlen : (it s < length (f_arr s))%nat).
  { rewrite (Permutation_length (st_perm _ _ _ _ (fl_settled _ _ Hf))).
    rewrite <- (start_all byte 256 arr0 all_bytes). pose proof (start_le byte (S c) 256 arr0). lia. }
  apply lookup_lt_is_Some in Hlen as [x Hx].
  destruct (decide (byte x = c)); [by eapply flag_stay_ok|by eapply flag_swap_ok].
Qed.

Lemma flag_loop_ok fuel s off : flag_inv s off -> (unsettled byte arr0 off <= fuel)%nat ->
  exists arr, flag_loop fuel byte rem s = Some arr /\ grouped arr.
Proof.
  revert s off. induction fuel as [|fuel IH]; intros s off Hf Hfuel.
  - destruct (flag_step_ok s off Hf) as [Hpos _]. lia.
  - destruct (flag_step_ok s off Hf) as [_ Hok]. cbn [flag_loop]. unfold flag_ok in Hok.
    destruct (flag_step byte rem s) as [[s'|arr]|]; [| |done].
    + destruct Hok as (off' & Hf' & Hm). apply (IH s' off' Hf'). lia.
    + by exists arr.
Qed.

Lemma few_grouped : (length rem <= 1)%nat -> grouped arr0.
Proof.
  intros Hl. eapply flag_grouped; [apply settled_start|]. intros j b Hj Hlt.
  apply lookup_lt_Some in Hj. lia.
Qed.

(** The result: grouped by the byte, with the blocks in the partitions. *)
Lemma flag_partition_ok :
  exists arr ps, flag_partition byte arr0 = Some (arr, ps, rem) /\ grouped arr /\
    forall b, b ∈ rem -> ps !! b = Some (MkPartition (start b) (stop b)).
Proof.
  unfold flag_partition.
  destruct (place_af_spec byte arr0 256 0 (count_partitions byte arr0) []) as (ps & Ep & _ & Hps); [lia| |].
  { intros b Hb. apply count_partitions_spec. lia. }
  assert (Hps' : forall b, b ∈ rem -> ps !! b = Some (MkPartition (start b) (stop b))).
  { intros b [Hb Hc]%elem_remaining. apply Hps; [lia|done]. }
  assert (Ep' : place_af (seq 0 256) 0 (count_partitions byte arr0) [] = (ps, rem)) by exact Ep.
  clear Ep. rewrite Ep'. destruct (Nat.ltb_spec 1 (length rem)) as [Hl|Hl].
  - assert (H0 : (0 < length rem)%nat) by lia. apply lookup_lt_is_Some in H0 as [c Hc].
    rewrite Hc. cbn [mbind option_bind]. rewrite Hps' by (by eapply list_elem_of_lookup_2).
    cbn [next_offset]. pose proof (rem_byte _ _ Hc) as [Hc1 Hc2].
    assert (Hzero : start c = 0%nat).
    { assert (Hgen : forall n, (n <= c)%nat -> start n = 0%nat); [|by apply Hgen].
      induction n as [|n IH]; intros Hn; [done|]. rewrite start_S, IH by lia.
      destruct (decide (cnt byte n arr0 = 0%nat)); [lia|]. exfalso.
      assert (Hin : n ∈ rem) by (apply elem_remaining; split; [lia|done]).
      apply list_elem_of_lookup in Hin as [j Hj]. destruct j as [|j]; [simplify_eq; lia|].
      pose proof (remaining_lt _ _ 0 (S j) _ _ ltac:(lia) Hc Hj). lia. }
    destruct (flag_loop_ok (length arr0) (FlagState arr0 ps 0 0 (stop c)) (fun b => start b)) as (arr & El & Hg).
    + constructor; cbn [f_arr f_ps current_block_ptr it block_end].
      * apply settled_start.
      * lia.
      * intros d Hd. assert (d = c) as -> by congruence. rewrite start_S. split_and!; [done|lia|done].
      * intros; lia.
      * intros j b Hj _. apply Hps'. by eapply list_elem_of_lookup_2.
    + rewrite unsettled_start; [lia|apply all_bytes].
    + rewrite El. by exists arr, ps.
  - exists arr0, ps. split_and!; [done|by apply few_grouped|done].
Qed.
End Flag.
