(* ===== verification/SkaByte.v ===== *)
(** * [ska_byte_sort] groups the array

    Every call of the inner loop settles the element it looks at; a partition
    leaves the list when its block is full; the rounds end when at most one is
    left. *)

From S2P Require Import Prelude Blocks SkaSort SkaFlag.

Section Ska.
Context {A : Type} (byte : A -> nat) (Hbyte : forall x, (byte x < 256)%nat).
Context (arr0 : list A).
Abbreviation rem := (remaining_of byte arr0).
Abbreviation start b := (start byte b arr0).
Abbreviation stop b := (Blocks.start byte (S b) arr0).
Abbreviation state := (list A * list PartitionInfo)%type.
Implicit Types (s : state) (off : nat -> nat).

Record ska_inv s off : Prop := {
  sk_settled : settled byte arr0 s.1 off;
  sk_ps : forall b, b ∈ rem -> s.2 !! b = Some (MkPartition (off b) (stop b));
  sk_next : forall b, (b < 256)%nat -> next_offset <$> s.2 !! b = Some (stop b) }.

Definition grows off off' : Prop := forall b, (off b <= off' b)%nat.
Definition full off (b : nat) : Prop := off b = stop b.

Lemma full_grows s off off' b : ska_inv s off' -> grows off off' -> full off b -> full off' b.
Proof. intros Hi Hg Hf. pose proof (st_off _ _ _ _ (sk_settled _ _ Hi) b). specialize (Hg b). unfold full in *. lia. Qed.

Lemma grows_refl off : grows off off.
Proof. intros b. lia. Qed.
Lemma grows_trans o1 o2 o3 : grows o1 o2 -> grows o2 o3 -> grows o1 o3.
Proof. intros H1 H2 b. specialize (H1 b). specialize (H2 b). lia. Qed.
Lemma grows_bump off b : grows off (bump b off).
Proof. intros c. unfold bump. case_decide; lia. Qed.

(** One call on an unsettled position. *)
Lemma ska_call_ok s off i P :
  ska_inv s off -> (start P <= i < stop P)%nat -> (off P <= i)%nat -> (P < 256)%nat ->
  exists s' B, ska_call byte i s = Some s' /\ ska_inv s' (bump B off) /\
    unsettled byte arr0 off = S (unsettled byte arr0 (bump B off)).
Proof.
  intros Hi Hp Ho HP. destruct s as [arr ps]. pose proof (sk_settled _ _ Hi) as Hs. simpl in Hs.
  assert (Hlen : (i < length arr)%nat).
  { rewrite (Permutation_length (st_perm _ _ _ _ Hs)), <- (start_all byte 256 arr0 (all_bytes byte Hbyte arr0)).
    pose proof (start_le byte (S P) 256 arr0). lia. }
  apply lookup_lt_is_Some in Hlen as [x Hx].
  destruct (settle byte arr0 arr off i x Hs Hx) as (arr' & Es & Hs' & Hroom).
  { intros b Hb. pose proof (st_off _ _ _ _ Hs b).
    assert (b = P); [apply (block_unique byte b P arr0 i); lia|subst; lia]. }
  assert (Hin : byte x ∈ rem).
  { apply elem_remaining. split; [done|].
    assert (1 <= cnt byte (byte x) arr)%nat by (eapply cnt_elem; [by eapply list_elem_of_lookup_2|done]).
    rewrite <- (cnt_perm byte _ _ _ (st_perm _ _ _ _ Hs)). lia. }
  pose proof (sk_ps _ _ Hi _ Hin) as Hps. simpl in Hps.
  unfold ska_call. rewrite Hx, Hps. cbn [offset next_offset]. rewrite Es.
  eexists _, (byte x). split; [done|]. split; [|by apply unsettled_bump]. constructor; simpl.
  - done.
  - intros b Hb. destruct (decide (b = byte x)) as [->|Hne].
    + rewrite bump_eq. rewrite list_lookup_insert_eq by (by eapply lookup_lt_Some). do 2 f_equal. lia.
    + rewrite bump_ne by done. rewrite list_lookup_insert_ne by done. by apply (sk_ps _ _ Hi).
  - intros b Hb. destruct (decide (b = byte x)) as [->|Hne].
    + by rewrite list_lookup_insert_eq by (by eapply lookup_lt_Some).
    + rewrite list_lookup_insert_ne by done. by apply (sk_next _ _ Hi).
Qed.

(** The calls of one pass over the block of [P]. *)
Lemma calls_ok n i P s off :
  ska_inv s off -> (start P <= i)%nat -> (i + n <= stop P)%nat -> (off P <= i)%nat -> (P < 256)%nat ->
  exists s' off', calls (ska_call byte) n i s = Some s' /\ ska_inv s' off' /\ grows off off' /\
    unsettled byte arr0 off = (n + unsettled byte arr0 off')%nat.
Proof.
  revert i s off. induction n as [|n IH]; intros i s off Hi H1 H2 Ho HP.
  - exists s, off. split_and!; [done|done|apply grows_refl|done].
  - destruct (ska_call_ok s off i P Hi ltac:(lia) Ho HP) as (s1 & B & Ec & Hi1 & Hm). cbn [calls]. rewrite Ec.
    destruct (IH (i + 1)%nat s1 (bump B off) Hi1) as (s2 & off2 & E2 & Hi2 & Hg & Hm2); try lia.
    { unfold bump. case_decide; lia. }
    exists s2, off2. split_and!; [done|done| |lia]. eapply grows_trans; [apply grows_bump|done].
Qed.

Lemma rem_lt b : b ∈ rem -> (b < 256)%nat.
Proof. intros Hb. by apply elem_remaining in Hb as [? _]. Qed.

Lemma ska_pass_ok s off P : ska_inv s off -> P ∈ rem ->
  exists r s' off', ska_pass byte s P = Some (r, s') /\ ska_inv s' off' /\ grows off off' /\
    (r = false -> full off' P) /\ (unsettled byte arr0 off' <= unsettled byte arr0 off)%nat /\
    (r = true -> (unsettled byte arr0 off' < unsettled byte arr0 off)%nat).
Proof.
  intros Hi HP. destruct s as [arr ps]. pose proof (sk_ps _ _ Hi P HP) as Hps. simpl in Hps.
  unfold ska_pass. rewrite Hps. cbn [offset next_offset]. destruct (Nat.eqb_spec (off P) (stop P)) as [E|E].
  - exists false, (arr, ps), off. split_and!; try done; apply grows_refl.
  - pose proof (st_off _ _ _ _ (sk_settled _ _ Hi) P) as Ho. rewrite unroll_calls.
    destruct (calls_ok (stop P - off P) (off P) P (arr, ps) off Hi) as ([arr' ps'] & off' & Ec & Hi' & Hg & Hm);
      [lia|lia|lia|by apply rem_lt|].
    rewrite Ec. rewrite (sk_ps _ _ Hi' P HP : ps' !! P = _). cbn [offset next_offset].
    eexists _, _, off'. split; [done|]. split; [done|]. split; [done|].
    split; [|split; [lia|intros; lia]]. unfold full. destruct (Nat.eqb_spec (off' P) (stop P)); done.
Qed.

(** ** A round *)

Definition full_from off (e : nat) (l : list nat) : Prop :=
  forall j p, (e <= j)%nat -> l !! j = Some p -> full off p.

Definition round_ok (begin : nat) (l : list nat) off (r : option (list nat * nat * state)) : Prop :=
  exists l' e s' off', r = Some (l', e, s') /\ ska_inv s' off' /\ grows off off' /\ l' ≡ₚ l /\
    (begin <= e <= length l)%nat /\ full_from off' e l' /\
    (unsettled byte arr0 off' <= unsettled byte arr0 off)%nat /\
    (e <> begin -> (unsettled byte arr0 off' < unsettled byte arr0 off)%nat).

Lemma partition_rest_ok n it begin l s off :
  ska_inv s off -> (begin < it)%nat -> (it + n = length l)%nat -> (forall p, p ∈ l -> p ∈ rem) ->
  (forall j p, (begin <= j < it)%nat -> l !! j = Some p -> full off p) ->
  round_ok begin l off (partition_rest (ska_pass byte) n it begin l s).
Proof.
  revert it begin l s off. induction n as [|n IH]; intros it begin l s off Hi Hb Hn Hl Hf.
  - cbn [partition_rest]. exists l, begin, s, off. split; [done|]. split; [done|].
  split; [apply grows_refl|]. split; [done|]. split; [lia|]. split; [|split; [lia|done]].
    intros j p Hj Hp. apply (Hf j); [|done]. apply lookup_lt_Some in Hp as Hlt. lia.
  - cbn [partition_rest]. assert (Hit : (it < length l)%nat) by lia. apply lookup_lt_is_Some in Hit as [x Hx].
    rewrite Hx. destruct (ska_pass_ok s off x Hi) as (r & s1 & off1 & E1 & Hi1 & Hg1 & Hr & Hm1 & Hm1');
      [by eapply Hl, list_elem_of_lookup_2|].
    rewrite E1. destruct r.
    + assert (Hbl : (begin < length l)%nat) by lia. apply lookup_lt_is_Some in Hbl as [y Hy].
      destruct (iter_swap begin it l) as [l1|] eqn:Es; [|unfold iter_swap in Es; by rewrite Hx, Hy in Es].
      pose proof (iter_swap_perm _ _ _ _ Es) as Hp1. specialize (Hm1' eq_refl).
      destruct (IH (it + 1)%nat (begin + 1)%nat l1 s1 off1 Hi1) as (l' & e & s' & off' & E & Hi' & Hg' & Hp' & He & Hfull & Hm & _).
      * lia.
      * rewrite (Permutation_length Hp1). lia.
      * intros p Hp. apply Hl. by rewrite <- Hp1.
      * intros j p Hj Hp. eapply full_grows; [done|exact Hg1|].
        destruct (iter_swap_lookup begin it l l1 j y Es Hy) as [Eit Eoth].
        destruct (decide (j = it)) as [Ej|Hne].
        -- rewrite Eit in Hp by done. assert (p = y) as -> by congruence. apply (Hf begin); [lia|done].
        -- rewrite Eoth in Hp by lia. apply (Hf j); [lia|done].
      * rewrite E. exists l', e, s', off'. rewrite (Permutation_length Hp1) in He.
        split; [done|]. split; [done|].
  split; [by eapply grows_trans|]. split; [by rewrite Hp'|].
        split; [lia|]. split; [done|]. split; [lia|]. lia.
    + destruct (IH (it + 1)%nat begin l s1 off1 Hi1) as (l' & e & s' & off' & E & Hi' & Hg' & Hp' & He & Hfull & Hm & Hm').
      * lia.
      * lia.
      * done.
      * intros j p Hj Hp. destruct (decide (j = it)) as [->|Hne]; [simplify_eq; by apply Hr|].
        eapply full_grows; [done|exact Hg1|]. apply (Hf j); [lia|done].
      * rewrite E. exists l', e, s', off'. split; [done|]. split; [done|].
  split; [by eapply grows_trans|]. split; [done|].
        split; [lia|]. split; [done|]. split; [lia|]. 
        intros He'. specialize (Hm' He'). lia.
Qed.

Lemma partition_first_ok n begin l s off :
  ska_inv s off -> (begin + n = length l)%nat -> (forall p, p ∈ l -> p ∈ rem) ->
  round_ok begin l off (partition_first (ska_pass byte) n begin l s).
Proof.
  revert begin s off. induction n as [|n IH]; intros begin s off Hi Hn Hl.
  - cbn [partition_first]. exists l, begin, s, off. split; [done|]. split; [done|].
  split; [apply grows_refl|]. split; [done|]. split; [lia|]. split; [|split; [lia|done]].
    intros j p Hj Hp. apply lookup_lt_Some in Hp. lia.
  - cbn [partition_first]. assert (Hit : (begin < length l)%nat) by lia. apply lookup_lt_is_Some in Hit as [x Hx].
    rewrite Hx. destruct (ska_pass_ok s off x Hi) as (r & s1 & off1 & E1 & Hi1 & Hg1 & Hr & Hm1 & Hm1');
      [by eapply Hl, list_elem_of_lookup_2|].
    rewrite E1. destruct r.
    + specialize (Hm1' eq_refl).
      destruct (IH (begin + 1)%nat s1 off1 Hi1) as (l' & e & s' & off' & E & Hi' & Hg' & Hp' & He & Hfull & Hm & _); [lia|done|].
      rewrite E. exists l', e, s', off'. split; [done|]. split; [done|].
  split; [by eapply grows_trans|]. split; [done|].
        split; [lia|]. split; [done|]. split; [lia|]. lia.
    + destruct (partition_rest_ok n (begin + 1) begin l s1 off1 Hi1) as (l' & e & s' & off' & E & Hi' & Hg' & Hp' & He & Hfull & Hm & Hm');
        [lia|lia|done| |].
      { intros j p Hj Hp. assert (j = begin) as -> by lia. simplify_eq. by apply Hr. }
      rewrite E. exists l', e, s', off'. split; [done|]. split; [done|].
  split; [by eapply grows_trans|]. split; [done|].
        split; [lia|]. split; [done|]. split; [lia|]. 
      intros He'. specialize (Hm' He'). lia.
Qed.

(** ** The rounds *)

Lemma ska_rounds_ok fuel last remaining s off :
  ska_inv s off -> remaining ≡ₚ rem -> (last <= length remaining)%nat ->
  full_from off last remaining -> (last <= 1 \/ unsettled byte arr0 off < fuel)%nat ->
  exists remaining' s' off', ska_rounds fuel byte last remaining s = Some (remaining', s') /\
    ska_inv s' off' /\ remaining' ≡ₚ rem /\ full_from off' 1 remaining'.
Proof.
  revert last remaining s off. induction fuel as [|fuel IH]; intros last remaining s off Hi Hp Hl Hf Hfuel;
    cbn [ska_rounds]; destruct (Nat.ltb_spec 1 last) as [Hlt|Hge].
  - lia.
  - exists remaining, s, off. split; [done|]. split; [done|]. split; [done|].
    intros j p Hj Hjp. apply (Hf j); [lia|done].
  - assert (Hlen : length (take last remaining) = last) by (rewrite length_take; lia).
    destruct (partition_first_ok (length (take last remaining)) 0 (take last remaining) s off Hi)
      as (l' & e & s' & off' & E & Hi' & Hg' & Hp' & He & Hfull & Hm & Hm'); [lia| |].
    { intros p Hpin. rewrite <- Hp. rewrite <- (take_drop last remaining). apply elem_of_app. by left. }
    unfold custom_std_partition. rewrite E. pose proof (Permutation_length Hp') as Hll.
    apply IH with off'; [done| | | |].
    + rewrite Hp'. by rewrite take_drop.
    + rewrite length_app, length_drop. lia.
    + intros j p Hj Hjp. destruct (decide (j < last)%nat).
      * rewrite lookup_app_l in Hjp by lia. by apply (Hfull j).
      * rewrite lookup_app_r in Hjp by lia. rewrite lookup_drop in Hjp.
        eapply full_grows; [done|exact Hg'|]. eapply Hf; [|exact Hjp]. lia.
    + destruct (decide (e = 0)%nat) as [->|Hne]; [left; lia|right]. specialize (Hm' Hne). lia.
  - exists remaining, s, off. split; [done|]. split; [done|]. split; [done|].
    intros j p Hj Hjp. apply (Hf j); [lia|done].
Qed.

(** The result: grouped by the byte, the ends of all blocks in the partitions. *)
Lemma ska_partition_ok :
  exists arr ps remaining, ska_partition byte arr0 = Some (arr, ps, remaining) /\
    grouped byte arr0 arr /\ remaining ≡ₚ rem /\
    forall b, (b < 256)%nat -> next_offset <$> ps !! b = Some (stop b).
Proof.
  unfold ska_partition.
  destruct (place_ska_spec byte arr0 256 0 (count_partitions byte arr0) []) as (ps & Ep & _ & Hps); [lia| |].
  { intros b Hb. apply count_partitions_spec. lia. }
  assert (Ep' : place_ska (seq 0 256) 0 (count_partitions byte arr0) [] = (ps, rem)) by exact Ep.
  clear Ep. rewrite Ep'.
  destruct (ska_rounds_ok (length arr0 + 2) (length rem) rem (arr0, ps) (fun b => start b))
    as (remaining & [arr ps'] & off & E & Hi & Hp & Hf).
  - constructor; simpl.
    + apply settled_start.
    + intros b [Hb Hc]%elem_remaining. destruct (Hps b ltac:(lia)) as (o & -> & Ho). by rewrite Ho.
    + intros b Hb. by destruct (Hps b ltac:(lia)) as (o & -> & _).
  - done.
  - done.
  - intros j p Hj Hjp. apply lookup_lt_Some in Hjp. lia.
  - right. rewrite unsettled_start; [lia|by apply all_bytes].
  - rewrite E. exists arr, ps', remaining. split; [done|]. split; [|split; [done|apply (sk_next _ _ Hi)]].
    pose proof (sk_settled _ _ Hi) as Hs. simpl in Hs.
    apply (settled_finish _ _ _ off (default 0%nat (head remaining))); [done|].
    intros b Hb. destruct (decide (b ∈ rem)) as [Hin|Hn].
    + rewrite <- Hp in Hin. apply list_elem_of_lookup in Hin as [[|j] Hj].
      * exfalso. apply Hb. clear -Hj. destruct remaining as [|c r]; [discriminate Hj|]. by injection Hj as ->.
      * apply (Hf (S j)); [lia|done].
    + destruct (decide (b < 256)%nat); [by eapply empty_full|]. eapply high_full; [done|done|lia].
Qed.
End Ska.
