(* ===== verification/RadixKeys.v ===== *)
(** * The keys of the radix sorts

    The types of key that [tl2/ska_sort.h] sorts by, their order, and the unsigned
    words [to_unsigned_or_bool] makes of them.  A radix sort orders by the word: the
    order of the words is that of the keys, except for plain [char] and [wchar_t]
    below zero, for NaN and for the zeros of the two signs. *)

From S2P Require Import Prelude.

(** [sizeof] of a key that is not [bool], on the platforms with 64-bit pointers. *)
Inductive size := S1 | S2 | S4 | S8.
Definition bytes (s : size) : nat := match s with S1 => 1 | S2 => 2 | S4 => 4 | S8 => 8 end.
Definition width (s : size) : Z := 8 * Z.of_nat (bytes s).

(** The scalar keys.  [Unsigned]: also [char16_t], [char32_t] and pointers;
    [Plain]: [char] and [wchar_t], which are signed but are not shifted. *)
Inductive scalar := Unsigned (s : size) | Signed (s : size) | Plain (s : size) | Float | Double.

Definition size_of (k : scalar) : size :=
  match k with Unsigned s | Signed s | Plain s => s | Float => S4 | Double => S8 end.

(** The conversions: an integer key is its value, a floating-point one the word of
    its bits.  The sum of a signed key wraps at the width. *)
Definition float_bits (w u : Z) : Z :=
  let sign_bit := (- Z.shiftr u (w - 1)) mod 2 ^ w in
  Z.lxor u (Z.lor sign_bit (2 ^ (w - 1))).

Definition to_unsigned_or_bool (k : scalar) (v : Z) : Z :=
  let w := width (size_of k) in
  match k with
  | Unsigned _ | Plain _ => v mod 2 ^ w
  | Signed _ => (v mod 2 ^ w + 2 ^ (w - 1)) mod 2 ^ w
  | Float | Double => float_bits w (v mod 2 ^ w)
  end.

(** ** The order of the floating-point keys

    IEEE 754 with [w] bits, [m] of them the fraction; the magnitude is in units of
    the smallest positive number. *)
Section Ieee.
Variables w m : Z.

Definition negative (u : Z) : bool := 2 ^ (w - 1) <=? u.
Definition low (u : Z) : Z := if negative u then u - 2 ^ (w - 1) else u.

Definition magnitude (l : Z) : Z :=
  let exponent := l / 2 ^ m in
  let fraction := l mod 2 ^ m in
  if exponent =? 0 then fraction else (2 ^ m + fraction) * 2 ^ (exponent - 1).

Definition value (u : Z) : Z := if negative u then - magnitude (low u) else magnitude (low u).

(** The exponent is all ones and the fraction is not zero. *)
Definition is_nan (u : Z) : bool := 2 ^ (w - 1) - 2 ^ m <? low u.

Definition ieee_lt (u1 u2 : Z) : bool := negb (is_nan u1) && negb (is_nan u2) && (value u1 <? value u2).

(** A number, and not the negative zero. *)
Definition ieee_ok (u : Z) : Prop := 0 <= u < 2 ^ w /\ is_nan u = false /\ u <> 2 ^ (w - 1).

Hypothesis Hm : 0 <= m < w - 1.

Lemma magnitude_lt l1 l2 : 0 <= l1 < l2 -> magnitude l1 < magnitude l2.
Proof using Hm.
  intros H. unfold magnitude. assert (Hp : 0 < 2 ^ m) by (apply Z.pow_pos_nonneg; lia).
  pose proof (Z.div_mod l1 (2 ^ m) ltac:(lia)) as E1. pose proof (Z.div_mod l2 (2 ^ m) ltac:(lia)) as E2.
  pose proof (Z.mod_pos_bound l1 (2 ^ m) Hp) as B1. pose proof (Z.mod_pos_bound l2 (2 ^ m) Hp) as B2.
  pose proof (Z.div_pos l1 (2 ^ m) ltac:(lia) Hp) as P1.
  assert (Hd : l1 / 2 ^ m <= l2 / 2 ^ m) by (apply Z.div_le_mono; lia).
  set (e1 := l1 / 2 ^ m) in *. set (e2 := l2 / 2 ^ m) in *. set (f1 := l1 mod 2 ^ m) in *. set (f2 := l2 mod 2 ^ m) in *.
  destruct (Z.eq_dec e1 e2) as [E|E].
  - rewrite <- E in *. assert (f1 < f2) by lia. destruct (Z.eqb_spec e1 0); [lia|].
    apply Zmult_lt_compat_r; [apply Z.pow_pos_nonneg; lia|lia].
  - assert (Hlow : (if e1 =? 0 then f1 else (2 ^ m + f1) * 2 ^ (e1 - 1)) < 2 ^ m * 2 ^ e1).
    { destruct (Z.eqb_spec e1 0) as [->|]; [rewrite Z.pow_0_r; lia|].
      replace (2 ^ e1) with (2 * 2 ^ (e1 - 1)) by (rewrite <- Z.pow_succ_r by lia; f_equal; lia).
      assert (0 < 2 ^ (e1 - 1)) by (apply Z.pow_pos_nonneg; lia). nia. }
    destruct (Z.eqb_spec e2 0) as [|_]; [lia|].
    assert (2 ^ e1 <= 2 ^ (e2 - 1)) by (apply Z.pow_le_mono_r; lia).
    assert (0 < 2 ^ e1) by (apply Z.pow_pos_nonneg; lia). nia.
Qed.
End Ieee.

Lemma bits_small w u n : 0 <= u < 2 ^ w -> w <= n -> Z.testbit u n = false.
Proof.
  intros Hu Hn. destruct (Z.eq_dec u 0) as [->|]; [apply Z.bits_0|]. apply Z.bits_above_log2; [lia|].
  apply Z.lt_le_trans with w; [|done]. apply Z.log2_lt_pow2; lia.
Qed.

Lemma lxor_ones w u : 0 <= w -> 0 <= u < 2 ^ w -> Z.lxor u (Z.ones w) = 2 ^ w - 1 - u.
Proof.
  intros Hw Hu. assert (E : u + Z.lxor u (Z.ones w) = Z.ones w).
  { rewrite Z.add_nocarry_lxor by (apply Z.bits_inj'; intros n Hn; rewrite Z.land_spec, Z.lxor_spec, Z.bits_0, Z.testbit_ones_nonneg by done;
      destruct (Z.ltb_spec n w) as [|Hwn]; [by destruct (Z.testbit u n)|by rewrite (bits_small w u n)]).
    by rewrite <- Z.lxor_assoc, Z.lxor_nilpotent, Z.lxor_0_l. }
  pose proof (Z.ones_equiv w). lia.
Qed.

(** The word of the bits: the numbers below zero upside down, the others above them. *)
Lemma float_bits_eq w u : 1 < w -> 0 <= u < 2 ^ w ->
  float_bits w u = if negative w u then 2 ^ w - 1 - u else 2 ^ (w - 1) + u.
Proof.
  intros Hw Hu. unfold float_bits, negative. assert (Hp : 0 < 2 ^ (w - 1)) by (apply Z.pow_pos_nonneg; lia).
  assert (E2 : 2 ^ w = 2 * 2 ^ (w - 1)) by (rewrite <- Z.pow_succ_r by lia; f_equal; lia).
  rewrite Z.shiftr_div_pow2 by lia. destruct (Z.leb_spec (2 ^ (w - 1)) u) as [Hs|Hs].
  - replace (u / 2 ^ (w - 1)) with 1 by (apply (Z.div_unique u _ 1 (u - 2 ^ (w - 1))); lia).
    replace ((- (1)) mod 2 ^ w) with (Z.ones w) by (rewrite Z.ones_equiv; apply (Z.mod_unique _ _ (-1)); lia).
    replace (Z.lor (Z.ones w) (2 ^ (w - 1))) with (Z.ones w); [by rewrite lxor_ones by lia|].
    apply Z.bits_inj'. intros n Hn. rewrite Z.lor_spec, Z.pow2_bits_eqb, Z.testbit_ones_nonneg by lia.
    destruct (Z.ltb_spec n w), (Z.eqb_spec (w - 1) n); (done || lia).
  - rewrite Z.div_small, Z.mod_small, Z.lor_0_l, (Z.add_comm _ u) by lia. symmetry. apply Z.add_nocarry_lxor.
    apply Z.bits_inj'. intros n Hn. rewrite Z.land_spec, Z.bits_0, Z.pow2_bits_eqb by lia.
    destruct (Z.eqb_spec (w - 1) n) as [<-|]; [|by rewrite andb_false_r]. by rewrite (bits_small (w - 1) u (w - 1)) by lia.
Qed.

Lemma float_bits_range w u : 1 < w -> 0 <= u < 2 ^ w -> 0 <= float_bits w u < 2 ^ w.
Proof.
  intros Hw Hu. rewrite float_bits_eq by done. unfold negative. assert (0 < 2 ^ (w - 1)) by (apply Z.pow_pos_nonneg; lia).
  assert (2 ^ w = 2 * 2 ^ (w - 1)) by (rewrite <- Z.pow_succ_r by lia; f_equal; lia). destruct (Z.leb_spec (2 ^ (w - 1)) u); lia.
Qed.

Lemma magnitude_pos m l : 0 <= m -> 0 < l -> 0 < magnitude m l.
Proof. intros Hm Hl. apply (magnitude_lt (m + 2) m ltac:(lia) 0 l). lia. Qed.

(** On numbers, the negative zero apart, the order of the words is that of the values. *)
Lemma float_bits_lt w m u1 u2 : 0 <= m < w - 1 -> ieee_ok w m u1 -> ieee_ok w m u2 ->
  ieee_lt w m u1 u2 = (float_bits w u1 <? float_bits w u2).
Proof.
  intros Hm (R1 & N1 & Z1) (R2 & N2 & Z2). unfold ieee_lt. rewrite N1, N2. simpl. rewrite !float_bits_eq by lia.
  unfold value, low. assert (Hp : 2 ^ w = 2 * 2 ^ (w - 1)) by (rewrite <- Z.pow_succ_r by lia; f_equal; lia).
  pose proof (magnitude_lt w m Hm) as Hlt. set (s := 2 ^ (w - 1)) in *.
  assert (H0 : magnitude m 0 = 0) by (unfold magnitude; rewrite Z.div_0_l, Z.mod_0_l by (apply Z.pow_nonzero; lia); done).
  assert (Hge : forall l, 0 <= l -> 0 <= magnitude m l).
  { intros l Hl. destruct (Z.eq_dec l 0) as [->|]; [lia|]. pose proof (magnitude_pos m l). lia. }
  unfold negative. fold s. apply Bool.eq_iff_eq_true. rewrite !Z.ltb_lt.
  destruct (Z.leb_spec s u1), (Z.leb_spec s u2).
  - destruct (Ztrichotomy (u1 - s) (u2 - s)) as [E|[E|E]]; [pose proof (Hlt (u1 - s) (u2 - s))|rewrite E|pose proof (Hlt (u2 - s) (u1 - s))]; lia.
  - pose proof (magnitude_pos m (u1 - s)). pose proof (Hge u2). lia.
  - pose proof (magnitude_pos m (u2 - s)). pose proof (Hge u1). lia.
  - destruct (Ztrichotomy u1 u2) as [E|[E|E]]; [pose proof (Hlt u1 u2)|rewrite E|pose proof (Hlt u2 u1)]; lia.
Qed.

(** ** Scalars *)

Definition fraction_bits (k : scalar) : Z := match k with Double => 52 | _ => 23 end.

(** [operator<] of the keys. *)
Definition scalar_lt (k : scalar) (v1 v2 : Z) : bool :=
  match k with
  | Unsigned _ | Signed _ | Plain _ => v1 <? v2
  | Float | Double => ieee_lt (width (size_of k)) (fraction_bits k) v1 v2
  end.

(** The keys of which the word has the order. *)
Definition scalar_ok (k : scalar) (v : Z) : Prop :=
  let w := width (size_of k) in
  match k with
  | Unsigned _ => 0 <= v < 2 ^ w
  | Signed _ => - 2 ^ (w - 1) <= v < 2 ^ (w - 1)
  | Plain _ => 0 <= v < 2 ^ (w - 1)
  | Float | Double => ieee_ok w (fraction_bits k) v
  end.

Lemma width_pos s : 8 <= width s.
Proof. by destruct s. Qed.

Lemma to_unsigned_range k v : 0 <= to_unsigned_or_bool k v < 2 ^ width (size_of k).
Proof.
  assert (Hm : forall z s, 0 <= z mod 2 ^ width s < 2 ^ width s) by (intros z s; apply Z.mod_pos_bound; by destruct s).
  destruct k; simpl; try apply Hm; apply (float_bits_range _ _); done || apply Hm.
Qed.

Lemma to_unsigned_lt k v1 v2 : scalar_ok k v1 -> scalar_ok k v2 ->
  scalar_lt k v1 v2 = (to_unsigned_or_bool k v1 <? to_unsigned_or_bool k v2).
Proof.
  assert (Hs : forall s, 2 ^ width s = 2 * 2 ^ (width s - 1) /\ 0 < 2 ^ (width s - 1)) by (by intros []).
  destruct k as [s|s|s| |]; simpl; intros H1 H2.
  - by rewrite !Z.mod_small.
  - destruct (Hs s) as [E P].
    assert (Hz : forall v, - 2 ^ (width s - 1) <= v < 2 ^ (width s - 1) -> (v mod 2 ^ width s + 2 ^ (width s - 1)) mod 2 ^ width s = v + 2 ^ (width s - 1)).
    { intros v Hv. rewrite Zplus_mod_idemp_l. apply Z.mod_small. lia. }
    rewrite !Hz by done. apply Bool.eq_iff_eq_true. rewrite !Z.ltb_lt. lia.
  - destruct (Hs s) as [E P]. by rewrite !Z.mod_small by lia.
  - rewrite !Z.mod_small by (apply H1 || apply H2). by apply float_bits_lt.
  - rewrite !Z.mod_small by (apply H1 || apply H2). by apply float_bits_lt.
Qed.

(** ** Compound keys *)

(** [KEnd] and [KTuple first more] are the types of a [std::tuple] from an index
    on; [KArray] is [std::array]. *)
Inductive key_type :=
| KBool
| KScalar (k : scalar)
| KPair (first second : key_type)
| KEnd
| KTuple (first more : key_type)
| KArray (t : key_type) (length : nat).

Fixpoint val (t : key_type) : Type :=
  match t with
  | KBool => bool
  | KScalar _ => Z
  | KPair a b | KTuple a b => val a * val b
  | KEnd => unit
  | KArray t _ => list (val t)
  end.

Fixpoint zero (t : key_type) : val t :=
  match t with
  | KBool => false
  | KScalar _ => 0
  | KPair a b | KTuple a b => (zero a, zero b)
  | KEnd => tt
  | KArray t n => replicate n (zero t)
  end.

(** [operator<]: lexicographic. *)
Fixpoint lex {B} (lt : B -> B -> bool) (l1 l2 : list B) : bool :=
  match l1, l2 with
  | [], _ :: _ => true
  | x :: l1', y :: l2' => lt x y || (negb (lt y x) && lex lt l1' l2')
  | _, [] => false
  end.

Fixpoint key_lt (t : key_type) : val t -> val t -> bool :=
  match t with
  | KBool => fun v1 v2 => negb v1 && v2
  | KScalar k => scalar_lt k
  | KPair a b | KTuple a b => fun v1 v2 =>
      key_lt a v1.1 v2.1 || (negb (key_lt a v2.1 v1.1) && key_lt b v1.2 v2.2)
  | KEnd => fun _ _ => false
  | KArray t _ => lex (key_lt t)
  end.

Fixpoint key_ok (t : key_type) : val t -> Prop :=
  match t with
  | KBool | KEnd => fun _ => True
  | KScalar k => scalar_ok k
  | KPair a b | KTuple a b => fun v => key_ok a v.1 /\ key_ok b v.2
  | KArray t n => fun v => length v = n /\ Forall (key_ok t) v
  end.

(** ** The number a key is sorted as

    The words of its parts one after the other, the most significant first. *)
Fixpoint key_bits (t : key_type) : Z :=
  match t with
  | KBool => 1
  | KScalar k => width (size_of k)
  | KPair a b | KTuple a b => key_bits a + key_bits b
  | KEnd => 0
  | KArray t n => Z.of_nat n * key_bits t
  end.

(** The elements of an array from [i] on, [n] of them. *)
Fixpoint array_code {B} (bits : Z) (code : B -> Z) (d : B) (n i : nat) (v : list B) : Z :=
  match n with
  | O => 0
  | S n' => code (nth i v d) * 2 ^ (Z.of_nat n' * bits) + array_code bits code d n' (S i) v
  end.

Fixpoint code (t : key_type) : val t -> Z :=
  match t with
  | KBool => fun v => Z.b2z v
  | KScalar k => to_unsigned_or_bool k
  | KPair a b | KTuple a b => fun v => code a v.1 * 2 ^ key_bits b + code b v.2
  | KEnd => fun _ => 0
  | KArray t n => array_code (key_bits t) (code t) (zero t) n 0
  end.

Lemma digits_lt M h1 l1 h2 l2 : 0 <= l1 < M -> 0 <= l2 < M ->
  (h1 * M + l1 <? h2 * M + l2) = (h1 <? h2) || (negb (h2 <? h1) && (l1 <? l2)).
Proof.
  intros H1 H2. apply Bool.eq_iff_eq_true. rewrite orb_true_iff, andb_true_iff, negb_true_iff, !Z.ltb_lt, Z.ltb_ge. nia.
Qed.

Lemma key_bits_pos t : 0 <= key_bits t.
Proof. induction t; simpl; try lia; try (pose proof (width_pos (size_of k)); lia). Qed.

Lemma digits_range b1 b2 h l : 0 <= b1 -> 0 <= b2 -> 0 <= h < 2 ^ b1 -> 0 <= l < 2 ^ b2 -> 0 <= h * 2 ^ b2 + l < 2 ^ (b1 + b2).
Proof. intros ? ? ? ?. rewrite Z.pow_add_r by done. nia. Qed.

Lemma array_code_range {B} bits (f : B -> Z) d n i v : 0 <= bits -> (forall x, 0 <= f x < 2 ^ bits) ->
  0 <= array_code bits f d n i v < 2 ^ (Z.of_nat n * bits).
Proof.
  intros Hb Hf. revert i. induction n as [|n IH]; intros i; [simpl; lia|]. cbn [array_code].
  replace (Z.of_nat (S n) * bits) with (bits + Z.of_nat n * bits) by lia. apply digits_range; [done|lia|apply Hf|apply IH].
Qed.

Lemma code_range t v : 0 <= code t v < 2 ^ key_bits t.
Proof.
  induction t as [|k|a IHa b IHb| |a IHa b IHb|t IH n]; simpl.
  - by destruct v.
  - apply to_unsigned_range.
  - apply digits_range; [apply key_bits_pos..|apply IHa|apply IHb].
  - lia.
  - apply digits_range; [apply key_bits_pos..|apply IHa|apply IHb].
  - apply array_code_range; [apply key_bits_pos|exact IH].
Qed.

Lemma nth_here {B} (v : list B) x d n : nth (length v) (v ++ x :: n) d = x.
Proof. induction v as [|y v IH]; [done|]. exact IH. Qed.

Lemma array_code_lt {B} bits (f : B -> Z) lt d P (p1 p2 v1 v2 : list B) : 0 <= bits -> (forall x, 0 <= f x < 2 ^ bits) ->
  (forall x y, P x -> P y -> lt x y = (f x <? f y)) -> length p1 = length p2 -> length v1 = length v2 -> Forall P v1 -> Forall P v2 ->
  lex lt v1 v2 = (array_code bits f d (length v1) (length p1) (p1 ++ v1) <? array_code bits f d (length v2) (length p2) (p2 ++ v2)).
Proof.
  intros Hb Hf Hlt. revert p1 p2 v2. induction v1 as [|x v1 IH]; intros p1 p2 [|y v2] Hp Hl H1 H2; try done.
  cbn [array_code lex length]. rewrite !nth_here. injection Hl as Hl. inversion_clear H1; inversion_clear H2.
  rewrite <- Hl. rewrite digits_lt by (by apply array_code_range). rewrite (Hlt x y), (Hlt y x) by done. do 2 f_equal.
  rewrite (cons_middle x p1 v1), (cons_middle y p2 v2), !app_assoc. rewrite (IH (p1 ++ [x]) (p2 ++ [y]) v2); [|by rewrite !length_app, Hp|done..].
  by rewrite !length_app, !Nat.add_1_r, Hl.
Qed.

Lemma code_lt t v1 v2 : key_ok t v1 -> key_ok t v2 -> key_lt t v1 v2 = (code t v1 <? code t v2).
Proof.
  revert v1 v2. induction t as [|k|a IHa b IHb| |a IHa b IHb|t IH n]; intros v1 v2; simpl.
  - by destruct v1, v2.
  - apply to_unsigned_lt.
  - intros [] []. by rewrite digits_lt, IHa, IHa, IHb by (done || apply code_range).
  - done.
  - intros [] []. by rewrite digits_lt, IHa, IHa, IHb by (done || apply code_range).
  - change (length (A := val t) v1 = n /\ Forall (key_ok t) v1 -> length (A := val t) v2 = n /\ Forall (key_ok t) v2 ->
      lex (key_lt t) v1 v2 = (array_code (key_bits t) (code t) (zero t) n 0 v1 <? array_code (key_bits t) (code t) (zero t) n 0 v2)).
    intros [E1 H1] [E2 H2].
    pose proof (array_code_lt (key_bits t) (code t) (key_lt t) (zero t) (key_ok t) [] [] v1 v2) as E.
    rewrite E1, E2 in E. apply E; try done; [apply key_bits_pos|apply code_range].
Qed.
