(* ===== verification/RadixCopy.v ===== *)
(** * The copying radix sorts

    [counting_sort_impl] and the [RadixSorter]s of [tl2/ska_sort.h]: the elements
    go back and forth between the range and a buffer of the same length, one byte
    of the key at a time, the least significant first.  A cell is [None] when it
    holds no element: the buffer before the first pass may, and an element that
    was moved leaves its cell so.  Reading such a cell, or a position out of range,
    is [None]. *)

From S2P Require Import Prelude RadixKeys.

Abbreviation cells A := (list (option A)).

Section Passes.
Context {A : Type}.
Implicit Types (key : A -> nat) (counts : list Z) (src out : cells A).

(** [++counts[key]] with counters of [count_bits] bits. *)
Definition increment (count_bits : Z) (key : nat) counts : list Z :=
  alter (fun c => (c + 1) mod 2 ^ count_bits) key counts.

(** The loop that counts; one table for each of the [keys]. *)
Fixpoint count_keys (count_bits : Z) (keys : list (A -> nat)) src (tables : list (list Z)) : option (list (list Z)) :=
  match src with
  | [] => Some tables
  | Some x :: src' => count_keys count_bits keys src' (zip_with (fun key t => increment count_bits (key x) t) keys tables)
  | None :: _ => None
  end.

Definition zeros : list Z := replicate 256 0.

(** The loop that replaces each count by the sum of those before it. *)
Fixpoint positions (count_bits total : Z) counts : list Z :=
  match counts with
  | [] => []
  | old_count :: counts' => total :: positions count_bits ((total + old_count) mod 2 ^ count_bits) counts'
  end.

(** [out_begin[i] = std::move(x)]. *)
Definition put (i : Z) (x : A) out : option (cells A) :=
  if decide (0 <= i < Z.of_nat (length out)) then Some (<[Z.to_nat i := Some x]> out) else None.

(** The loop that moves the elements: [out_begin[counts[key]++] = std::move( *it)]. *)
Fixpoint move_all (count_bits : Z) key (n it : nat) counts src out : option (cells A * cells A) :=
  match n with
  | O => Some (src, out)
  | S n' =>
      x ← src !! it ≫= id;
      let k := key x in
      c ← counts !! k;
      out' ← put c x out;
      move_all count_bits key n' (S it) (increment count_bits k counts) (<[it := None]> src) out'
  end.

(** [counting_sort_impl]; [count_type] is [std::uint64_t] where it is not given. *)
Definition counting_sort_impl (count_bits : Z) key src out : option (cells A * cells A) :=
  tables ← count_keys count_bits [key] src [zeros];
  counts ← tables !! 0%nat;
  move_all count_bits key (length src) 0 (positions count_bits 0 counts) src out.

(** The passes of [sort_inline]: from the range to the buffer, back, and so on.
    The result has first the cells the last pass wrote. *)
Fixpoint passes (count_bits : Z) (n : nat) (keys : list (A -> nat)) (tables : list (list Z)) src out : option (cells A * cells A) :=
  match keys, tables with
  | key :: keys', counts :: tables' =>
      '(src', out') ← move_all count_bits key n 0 counts src out;
      passes count_bits n keys' tables' out' src'
  | _, _ => Some (src, out)
  end.

(** The byte [i] of a word, as a [std::uint8_t]. *)
Definition byte_of (i : nat) (word : Z) : nat := Z.to_nat (Z.shiftr word (8 * Z.of_nat i) mod 256).

(** [SizedRadixSorter<N>::sort_inline], with [N] tables of counts and [N] passes. *)
Definition sort_inline (N : nat) (count_bits : Z) (word : A -> Z) src out : option (bool * cells A * cells A) :=
  let keys := (fun i x => byte_of i (word x)) <$> seq 0 N in
  tables ← count_keys count_bits keys src (replicate N zeros);
  '(src', out') ← passes count_bits (length src) keys (positions count_bits 0 <$> tables) src out;
  Some (false, src', out').

(** [SizedRadixSorter<N>::sort] for [N] of 2, 4 and 8: counters of 32 bits for
    ranges of up to [2^32] elements. *)
Definition sized_sort (N : nat) (word : A -> Z) src out : option (bool * cells A * cells A) :=
  if decide (Z.of_nat (length src) <= 2 ^ 32) then sort_inline N 32 word src out else sort_inline N 64 word src out.

(** [SizedRadixSorter<1>::sort]. *)
Definition byte_sort (word : A -> Z) src out : option (bool * cells A * cells A) :=
  '(src', out') ← counting_sort_impl 64 (fun x => byte_of 0 (word x)) src out; Some (true, src', out').

(** [SizedRadixSorter<2>::sort], [SizedRadixSorter<4>::sort] and [SizedRadixSorter<8>::sort]. *)
Definition sort2 := sized_sort 2.
Definition sort4 := sized_sort 4.
Definition sort8 := sized_sort 8.

(** [RadixSorter] of a scalar, by its size. *)
Definition SizedRadixSorter_sort (s : size) (word : A -> Z) : cells A -> cells A -> option (bool * cells A * cells A) :=
  match s with S1 => byte_sort word | S2 => sort2 word | S4 => sort4 word | S8 => sort8 word end.

(** [RadixSorter<bool>::sort]: the two loops. *)
Fixpoint count_false (key : A -> bool) src (false_count : Z) : option Z :=
  match src with
  | [] => Some false_count
  | Some x :: src' => count_false key src' (if key x then false_count else W64.wrap (false_count + 1))
  | None :: _ => None
  end.

Fixpoint move_bools (key : A -> bool) (n it : nat) (false_count true_position : Z) src out : option (cells A * cells A) :=
  match n with
  | O => Some (src, out)
  | S n' =>
      x ← src !! it ≫= id;
      if key x then
        out' ← put true_position x out;
        move_bools key n' (S it) false_count (W64.wrap (true_position + 1)) (<[it := None]> src) out'
      else
        out' ← put false_count x out;
        move_bools key n' (S it) (W64.wrap (false_count + 1)) true_position (<[it := None]> src) out'
  end.

Definition bool_sort (key : A -> bool) src out : option (bool * cells A * cells A) :=
  true_position ← count_false key src 0;
  '(src', out') ← move_bools key (length src) 0 0 true_position src out;
  Some (true, src', out').

(** The second sort of a compound key, by [next], after a first one that says which
    cells it left the elements in. *)
Definition then_sort (first : option (bool * cells A * cells A))
    (next : cells A -> cells A -> option (bool * cells A * cells A)) : option (bool * cells A * cells A) :=
  '(which, src, out) ← first;
  if which : bool then '(r, out', src') ← next out src; Some (negb r, src', out')
  else next src out.
End Passes.

(** The loop of [RadixSorter<std::array<T, S>>::sort], from the last element to the first. *)
Fixpoint array_sort {A B} (sort : (A -> B) -> cells A -> cells A -> option (bool * cells A * cells A)) (d : B)
    (extract_key : A -> list B) (i : nat) (s : bool * cells A * cells A) : option (bool * cells A * cells A) :=
  match i with
  | O => Some s
  | S i' =>
      s' ← then_sort (Some s) (sort (fun o => nth i' (extract_key o) d));
      array_sort sort d extract_key i' s'
  end.

(** [RadixSorter<T>::sort]: whether the elements are in the buffer, the cells of the
    range and those of the buffer. *)
Fixpoint RadixSorter_sort (t : key_type) {A} : (A -> val t) -> cells A -> cells A -> option (bool * cells A * cells A) :=
  match t with
  | KBool => fun extract_key => bool_sort extract_key
  | KScalar k => fun extract_key => SizedRadixSorter_sort (size_of k) (fun o => to_unsigned_or_bool k (extract_key o))
  | KPair a b => fun extract_key src out =>
      then_sort (RadixSorter_sort b (fun o => (extract_key o).2) src out) (RadixSorter_sort a (fun o => (extract_key o).1))
  | KEnd => fun _ src out => Some (false, src, out)
  | KTuple first more => fun extract_key src out =>
      then_sort (RadixSorter_sort more (fun o => (extract_key o).2) src out) (RadixSorter_sort first (fun o => (extract_key o).1))
  | KArray t n => fun extract_key src out =>
      array_sort (RadixSorter_sort t) (zero t) extract_key n (false, src, out)
  end.

(** [FallbackRadixSorter]: a key of a type of the caller's, converted by the caller's
    [to_radix_sort_key]. *)
Definition FallbackRadixSorter_sort {A B} (t : key_type) (to_radix_sort_key : B -> val t) (extract_key : A -> B) :=
  RadixSorter_sort t (fun a => to_radix_sort_key (extract_key a)).

(** [pass_count]. *)
Fixpoint pass_count (t : key_type) : nat :=
  match t with
  | KBool => 2
  | KScalar k => match size_of k with S1 => 2 | S2 => 3 | S4 => 5 | S8 => 9 end
  | KPair a b | KTuple a b => pass_count a + pass_count b
  | KEnd => 0
  | KArray t n => pass_count t * n
  end.

(** Keys of 16 bits with a value each; equal keys keep their order. *)
Example two_byte_keys : RadixSorter_sort (KScalar (Unsigned S2)) fst [Some (768, 0); Some (2, 1); Some (770, 2); Some (2, 3)] (replicate 4 None) =
  Some (false, [Some (2, 1); Some (2, 3); Some (768, 0); Some (770, 2)], replicate 4 None).
Proof. vm_compute. reflexivity. Qed.
