(* ===== verification/RadixProof.v ===== *)
(** * The copying radix sorts are stable

    One pass puts the elements, in order, in the block of their byte; a pass after
    another sorts by both bytes, the later one first.  A radix sort of any type of
    key then sorts by the number [code] of the key, stably. *)

From S2P Require Import Prelude Blocks RadixKeys RadixCopy.

(** ** Stable sorts by a number *)

Record stable_by {A} (f : A -> Z) (arr out : list A) : Prop := {
  sb_perm : out ≡ₚ arr;
  sb_sorted : StronglySorted (fun x y => f x <= f y) out;
  sb_stable c : filter (fun x => f x = c) out = filter (fun x => f x = c) arr }.

Section Stable.
Context {A : Type}.
Implicit Types (f g : A -> Z) (arr out l : list A).

Lemma sorted_within f g l : StronglySorted (fun x y => f x <= f y) l ->
  (forall c, StronglySorted (fun x y => g x <= g y) (filter (fun x => f x = c) l)) ->
  StronglySorted (fun x y => f x < f y \/ f x = f y /\ g x <= g y) l.
Proof.
  intros Hf Hg. induction Hf as [|x l Hl IH Hx]; [constructor|]. constructor.
  - apply IH. intros c. specialize (Hg c). rewrite filter_cons in Hg. case_decide; [by inversion Hg|done].
  - specialize (Hg (f x)). rewrite filter_cons_True in Hg by done. inversion_clear Hg as [|? ? _ Hg'].
    rewrite !Forall_forall in *. intros y Hy. specialize (Hx y Hy). destruct (Z.eq_dec (f x) (f y)) as [E|]; [|lia].
    right. split; [done|]. apply Hg', list_elem_of_filter. done.
Qed.

Lemma sorted_impl (R1 R2 : A -> A -> Prop) l : (forall x y, R1 x y -> R2 x y) -> StronglySorted R1 l -> StronglySorted R2 l.
Proof. intros HR Hs. induction Hs as [|x l Hs IH Hx]; constructor; [done|]. eapply Forall_impl; [exact Hx|]; auto. Qed.

Lemma StronglySorted_in (R1 R2 : A -> A -> Prop) l : (forall x y, x ∈ l -> y ∈ l -> R1 x y -> R2 x y) ->
  StronglySorted R1 l -> StronglySorted R2 l.
Proof.
  intros HR Hs. induction Hs as [|x l Hs IH Hx]; constructor; [apply IH; intros y z Hy Hz; apply HR; by right|].
  rewrite Forall_forall in Hx |- *. intros y Hy. apply HR; [by left|by right|auto].
Qed.

Lemma sorted_filter (R : A -> A -> Prop) (P : A -> Prop) `{forall x, Decision (P x)} l :
  StronglySorted R l -> StronglySorted R (filter P l).
Proof.
  intros Hs. induction Hs as [|x l Hs IH Hx]; [constructor|]. rewrite filter_cons. case_decide; [|done].
  constructor; [done|]. rewrite !Forall_forall in *. intros y [_ Hy]%list_elem_of_filter. auto.
Qed.

Lemma sorted_all f l : (forall x y, x ∈ l -> y ∈ l -> f x <= f y) -> StronglySorted (fun x y => f x <= f y) l.
Proof.
  induction l as [|x l IH]; intros Hf; constructor; [|apply Forall_forall; intros y Hy; apply Hf; [by left|by right]].
  apply IH. intros y z Hy Hz. apply Hf; by right.
Qed.

Lemma stable_refl f arr : (forall x y, f x = f y) -> stable_by f arr arr.
Proof.
  intros Hf. constructor; [done| |done]. apply sorted_all. intros x y _ _. rewrite (Hf x y). lia.
Qed.

Lemma stable_ext f g arr out : (forall x, f x = g x) -> stable_by f arr out -> stable_by g arr out.
Proof.
  intros E [Hp Hs Ht]. constructor; [done| |].
  - eapply sorted_impl; [|exact Hs]. intros x y. simpl. by rewrite !E.
  - intros c. specialize (Ht c). rewrite !(list_filter_iff (fun x => f x = c) (fun x => g x = c)) in Ht; [done|..]; intros x; by rewrite E.
Qed.

(** Sorting by [g], then by [f]. *)
Lemma stable_then f g M arr mid out : (forall x, 0 <= g x < M) -> stable_by g arr mid -> stable_by f mid out ->
  stable_by (fun x => f x * M + g x) arr out.
Proof.
  intros Hg [Hp1 Hs1 Ht1] [Hp2 Hs2 Ht2]. constructor.
  - by rewrite Hp2.
  - eapply sorted_impl; [|apply (sorted_within f g)]; [|done|].
    + intros x y. simpl. pose proof (Hg x). pose proof (Hg y). nia.
    + intros c. rewrite Ht2. by apply sorted_filter.
  - intros c. assert (HM : forall x, f x * M + g x = c <-> g x = c mod M /\ f x = c / M).
    { intros x. pose proof (Hg x). split; [intros <-|].
      - rewrite (Z.add_comm (f x * M)), Z_mod_plus_full, Z.div_add, Z.mod_small, Z.div_small by lia. done.
      - intros [-> ->]. pose proof (Z.div_mod c M). lia. }
    rewrite !(list_filter_iff _ _ _ HM), <- !(list_filter_filter (fun x => g x = c mod M)), Ht2, !list_filter_filter.
    assert (Hswap : forall l, filter (fun x => g x = c mod M /\ f x = c / M) l =
      filter (fun x => f x = c / M) (filter (fun x => g x = c mod M) l)).
    { intros l. rewrite list_filter_filter. apply list_filter_iff. tauto. }
    by rewrite !Hswap, Ht1.
Qed.
End Stable.

(** ** One pass *)

Section Pass.
Context {A : Type} (key : A -> nat).
Implicit Types (arr done rest : list A) (out : cells A).
Abbreviation cnt := (cnt key).
Abbreviation start := (start key).

Lemma filter_none (P : A -> Prop) `{forall x, Decision (P x)} l : (forall x, x ∈ l -> ~ P x) -> filter P l = [].
Proof.
  intros HP. induction l as [|x l IH]; [done|]. rewrite filter_cons_False by (apply HP; by left).
  apply IH. intros y Hy. apply HP. by right.
Qed.

(** The elements by key, in order in each of the [n] blocks. *)
Definition buckets (n : nat) arr : list A := seq 0 n ≫= (fun k => filter (fun x => key x = k) arr).

Lemma buckets_S n arr : buckets (S n) arr = buckets n arr ++ filter (fun x => key x = n) arr.
Proof. unfold buckets. rewrite seq_S, bind_app. simpl. by rewrite app_nil_r. Qed.

Lemma buckets_length n arr : length (buckets n arr) = start n arr.
Proof. induction n as [|n IH]; [done|]. by rewrite buckets_S, length_app, IH. Qed.

Lemma buckets_lookup n k i arr : (k < n)%nat -> (i < cnt k arr)%nat ->
  buckets n arr !! (start k arr + i)%nat = filter (fun x => key x = k) arr !! i.
Proof.
  induction n as [|n IH]; [lia|]. intros Hk Hi. rewrite buckets_S. destruct (Nat.eq_dec k n) as [->|].
  - rewrite lookup_app_r, buckets_length by (rewrite buckets_length; lia). f_equal. lia.
  - rewrite lookup_app_l; [apply IH; lia|]. rewrite buckets_length.
    pose proof (start_le key (S k) n arr ltac:(lia)) as Hs. rewrite start_S in Hs. lia.
Qed.

Lemma buckets_filter n k arr : (k < n)%nat -> filter (fun x => key x = k) (buckets n arr) = filter (fun x => key x = k) arr.
Proof.
  induction n as [|n IH]; [lia|]. intros Hk. rewrite buckets_S, filter_app.
  assert (Hoff : forall j, j <> k -> filter (fun x => key x = k) (filter (fun x => key x = j) arr) = []).
  { intros j Hj. rewrite list_filter_filter. apply filter_none. intros x _ []. congruence. }
  destruct (Nat.eq_dec k n) as [->|]; [|by rewrite IH, Hoff, app_nil_r by lia].
  rewrite list_filter_filter. rewrite (list_filter_iff (fun x => key x = n /\ key x = n) (fun x => key x = n)) by tauto.
  assert (E : filter (fun x => key x = n) (buckets n arr) = []).
  { clear IH Hk. unfold buckets. apply filter_none. intros x Hx. apply list_elem_of_bind in Hx as (j & Hx & Hj).
    apply elem_of_seq in Hj. apply list_elem_of_filter in Hx as [<- _]. lia. }
  by rewrite E.
Qed.

Lemma buckets_below n arr : buckets n arr ≡ₚ filter (fun x => (key x < n)%nat) arr.
Proof.
  induction n as [|n IH].
  - rewrite filter_none; [done|]. lia.
  - rewrite buckets_S, IH. clear IH. induction arr as [|x arr IH]; [done|]. rewrite !filter_cons.
    repeat case_decide; try lia; simpl; [by rewrite IH| |done]. rewrite <- IH. symmetry. apply Permutation_middle.
Qed.

Lemma buckets_perm n arr : (forall x, (key x < n)%nat) -> buckets n arr ≡ₚ arr.
Proof. intros Hk. rewrite buckets_below. induction arr as [|x arr IH]; [done|]. by rewrite filter_cons_True, IH by apply Hk. Qed.

Lemma buckets_stable n arr : (forall x, (key x < n)%nat) -> stable_by (fun x => Z.of_nat (key x)) arr (buckets n arr).
Proof.
  intros Hk. constructor; [by apply buckets_perm| |].
  - clear Hk. induction n as [|n IH]; [constructor|]. rewrite buckets_S.
    apply StronglySorted_app_2; [|done|].
    + intros x y Hx [-> _]%list_elem_of_filter. apply list_elem_of_bind in Hx as (k & [<- _]%list_elem_of_filter & Hj).
      apply elem_of_seq in Hj. lia.
    + apply (sorted_all (fun x => Z.of_nat (key x))). intros x y [-> _]%list_elem_of_filter [-> _]%list_elem_of_filter. lia.
  - intros c. destruct (decide (0 <= c < Z.of_nat n)) as [Hc|Hc].
    + rewrite !(list_filter_iff (fun x => Z.of_nat (key x) = c) (fun x => key x = Z.to_nat c)) by lia.
      apply buckets_filter. lia.
    + assert (Hno : forall l, filter (fun x => Z.of_nat (key x) = c) l = []).
      { intros l. apply filter_none. intros x _. specialize (Hk x). lia. }
      by rewrite !Hno.
Qed.

(** The elements of [done] are at their places. *)
Definition placed arr done out : Prop := length out = length arr /\
  forall k i, (i < cnt k done)%nat -> out !! (start k arr + i)%nat = Some (filter (fun x => key x = k) done !! i).

Lemma placed_nil arr out : length out = length arr -> placed arr [] out.
Proof. intros Hl. split; [done|]. intros k i Hi. unfold Blocks.cnt in Hi. simpl in Hi. lia. Qed.

Lemma put_in i x out : (i < length out)%nat -> put (Z.of_nat i) x out = Some (<[i := Some x]> out).
Proof. intros Hi. unfold put. rewrite decide_True by lia. by rewrite Nat2Z.id. Qed.

Lemma place_room n arr done x rest : (forall x, (key x < n)%nat) -> arr = done ++ x :: rest ->
  (cnt (key x) done < cnt (key x) arr)%nat /\ (start (key x) arr + cnt (key x) done < length arr)%nat.
Proof.
  intros Hk ->. assert (Hc : (cnt (key x) done < cnt (key x) (done ++ x :: rest))%nat).
  { rewrite cnt_app. unfold Blocks.cnt at 3. rewrite filter_cons_True by done. simpl. lia. }
  split; [done|]. rewrite <- (start_all key n (done ++ x :: rest)) by (by apply Forall_forall).
  pose proof (start_le key (S (key x)) n (done ++ x :: rest) (Hk x)) as Hs. rewrite start_S in Hs. lia.
Qed.

Lemma place n arr done x rest out : (forall x, (key x < n)%nat) -> arr = done ++ x :: rest -> placed arr done out ->
  placed arr (done ++ [x]) (<[(start (key x) arr + cnt (key x) done)%nat := Some x]> out).
Proof.
  intros Hk E [Hl Hp]. destruct (place_room n arr done x rest Hk E) as [Hc Hroom]. split; [by rewrite length_insert|].
  intros k i Hi. rewrite filter_app, filter_cons. rewrite cnt_app in Hi.
  assert (Hle : (cnt k done <= cnt k arr)%nat) by (rewrite E, cnt_app; lia).
  destruct (decide (key x = k)) as [<-|Hne].
  - replace (cnt (key x) [x]) with 1%nat in Hi by (unfold Blocks.cnt; by rewrite filter_cons_True). simpl.
    destruct (Nat.eq_dec i (cnt (key x) done)) as [->|].
    + rewrite list_lookup_insert_eq by lia. by rewrite lookup_app_r, Nat.sub_diag by done.
    + rewrite list_lookup_insert_ne by lia. rewrite Hp by lia. f_equal. symmetry. apply lookup_app_l. change (i < cnt (key x) done)%nat. lia.
  - replace (cnt k [x]) with 0%nat in Hi by (unfold Blocks.cnt; by rewrite filter_cons_False). simpl.
    rewrite app_nil_r, list_lookup_insert_ne; [apply Hp; lia|]. intros Ep. apply Hne.
    apply (block_unique key _ _ arr (start k arr + i)); rewrite start_S; lia.
Qed.

Lemma placed_all n arr out : (forall x, (key x < n)%nat) -> placed arr arr out -> out = Some <$> buckets n arr.
Proof.
  intros Hk [Hl Hp]. apply list_eq. intros p. rewrite list_lookup_fmap.
  pose proof (start_all key n arr ltac:(by apply Forall_forall)) as Ha.
  destruct (decide (p < length arr)%nat) as [Hlt|Hge].
  - destruct (block_exists key n arr p ltac:(lia)) as (k & Hkn & Hb). rewrite start_S in Hb.
    replace p with (start k arr + (p - start k arr))%nat by lia. rewrite Hp by lia. rewrite buckets_lookup by lia.
    destruct (filter _ arr !! _) as [y|] eqn:Ey; [done|]. apply lookup_ge_None in Ey. change (cnt k arr <= p - start k arr)%nat in Ey. lia.
  - rewrite lookup_ge_None_2 by lia. rewrite lookup_ge_None_2; [done|]. rewrite buckets_length. lia.
Qed.
End Pass.

(** ** The counters *)

Lemma replicate_middle {B} (x : B) n l : replicate n x ++ x :: l = x :: replicate n x ++ l.
Proof. induction n as [|n IH]; simpl; [done|]. by rewrite IH. Qed.

Section Counts.
Context {A : Type} (key : A -> nat) (w : Z).
Implicit Types (arr done rest : list A) (counts : list Z).

(** The counters at what is left of the blocks. *)
Definition at_places arr done counts : Prop :=
  forall k, (k < 256)%nat -> counts !! k = Some (Z.of_nat (start key k arr + cnt key k done) mod 2 ^ w).

Lemma cnt_one k x : cnt key k [x] = if decide (key x = k) then 1%nat else 0%nat.
Proof. unfold cnt. rewrite filter_cons. by case_decide. Qed.

Lemma increment_lookup k k' counts :
  increment w k counts !! k' = if decide (k = k') then (fun c => (c + 1) mod 2 ^ w) <$> counts !! k' else counts !! k'.
Proof. unfold increment. case_decide as E; [subst; by rewrite list_lookup_alter_eq|by rewrite list_lookup_alter_ne]. Qed.

Lemma at_places_step arr done x counts : at_places arr done counts -> at_places arr (done ++ [x]) (increment w (key x) counts).
Proof.
  intros Hc k Hk. rewrite increment_lookup, (Hc k Hk), cnt_app, cnt_one. case_decide as E; simpl; f_equal.
  - rewrite Zplus_mod_idemp_l. f_equal. lia.
  - f_equal. lia.
Qed.

Hypothesis Hw0 : 0 <= w.
Hypothesis Hkey : forall x, (key x < 256)%nat.

Lemma move_all_ok arr done rest counts out : Z.of_nat (length arr) <= 2 ^ w -> arr = done ++ rest ->
  at_places arr done counts -> placed key arr done out ->
  move_all w key (length rest) (length done) counts (replicate (length done) None ++ (Some <$> rest)) out =
    Some (replicate (length arr) None, Some <$> buckets key 256 arr).
Proof using Hkey Hw0.
  intros Hw. revert done counts out. induction rest as [|x rest IH]; intros done counts out E Hc Hp; simpl.
  - rewrite app_nil_r in *. subst done. by rewrite <- (placed_all key 256 arr out).
  - rewrite lookup_app_r, length_replicate, Nat.sub_diag by (by rewrite length_replicate). simpl.
    rewrite (Hc (key x)) by done. simpl. destruct (place_room key 256 arr done x rest Hkey E) as [_ Hroom].
    rewrite Z.mod_small by lia. rewrite put_in by (destruct Hp as [-> _]; done). simpl.
    specialize (IH (done ++ [x]) (increment w (key x) counts) (<[(start key (key x) arr + cnt key (key x) done)%nat := Some x]> out)).
    rewrite length_app, Nat.add_1_r in IH. rewrite <- IH; [|by rewrite <- app_assoc|by apply at_places_step|by eapply place].
    f_equal. rewrite insert_app_r_alt by (by rewrite length_replicate). rewrite length_replicate, Nat.sub_diag. simpl.
    apply (replicate_middle None (length done) (Some <$> rest)).
Qed.

Lemma positions_lookup total counts arr : total mod 2 ^ w = total -> forall k0, total = Z.of_nat (start key k0 arr) mod 2 ^ w ->
  (forall k c, counts !! k = Some c -> c = Z.of_nat (cnt key (k0 + k) arr) mod 2 ^ w) ->
  forall k, (k < length counts)%nat -> positions w total counts !! k = Some (Z.of_nat (start key (k0 + k) arr) mod 2 ^ w).
Proof using Hw0.
  revert total. induction counts as [|c counts IH]; intros total Ht k0 E Hc k Hk; simpl in *; [lia|].
  assert (Hpw : 2 ^ w <> 0) by (apply Z.pow_nonzero; lia). destruct k as [|k]; simpl; [by rewrite Nat.add_0_r, E|].
  rewrite Nat.add_succ_r. apply (IH _ ltac:(by apply Zmod_mod) (S k0)); [|intros j c' Hj; rewrite Nat.add_succ_comm; by apply (Hc (S j))|lia].
  rewrite start_S, (Hc 0%nat c eq_refl), Nat.add_0_r, E, <- Zplus_mod. f_equal. lia.
Qed.

Definition counted arr counts : list Z := foldl (fun t x => increment w (key x) t) counts arr.

Lemma counted_ok arr done counts : length counts = 256%nat ->
  (forall k, (k < 256)%nat -> counts !! k = Some (Z.of_nat (cnt key k done) mod 2 ^ w)) ->
  length (counted arr counts) = 256%nat /\
  forall k, (k < 256)%nat -> counted arr counts !! k = Some (Z.of_nat (cnt key k (done ++ arr)) mod 2 ^ w).
Proof.
  revert done counts. induction arr as [|x arr IH]; intros done counts Hl Hc; simpl; [by rewrite app_nil_r|].
  rewrite (cons_middle x done arr), app_assoc. apply IH; [by unfold increment; rewrite length_alter|].
  intros k Hk. rewrite increment_lookup, (Hc k Hk), cnt_app, cnt_one. case_decide; simpl; f_equal.
  - rewrite Zplus_mod_idemp_l. f_equal. lia.
  - f_equal. lia.
Qed.

Lemma counted_places arr0 arr : arr0 ≡ₚ arr -> at_places arr [] (positions w 0 (counted arr0 zeros)).
Proof using Hw0.
  intros Hperm. destruct (counted_ok arr0 [] zeros) as [Hl Hc]; [done| |].
  { intros k Hk. unfold zeros. rewrite lookup_replicate_2 by done. done. }
  intros k Hk. rewrite Nat.add_0_r. apply (positions_lookup 0 _ arr (Z.mod_0_l _ (Z.pow_nonzero 2 w ltac:(lia) Hw0)) 0).
  - symmetry. apply Z.mod_0_l, Z.pow_nonzero; lia.
  - intros j c Hj. rewrite (Hc j) in Hj by (rewrite <- Hl; by eapply lookup_lt_Some). injection Hj as <-. do 2 f_equal. by apply (cnt_perm key j arr0 arr).
  - by rewrite Hl.
Qed.
End Counts.

Lemma count_keys_ok {A} w (keys : list (A -> nat)) arr tables : length keys = length tables ->
  count_keys w keys (Some <$> arr) tables = Some (zip_with (fun key t => counted key w arr t) keys tables).
Proof.
  revert tables. induction arr as [|x arr IH]; intros tables Hl; simpl.
  - f_equal. revert tables Hl. induction keys as [|key keys IHk]; intros [|t tables] Hl; try done. simpl. f_equal. apply IHk. by injection Hl.
  - rewrite IH by (rewrite length_zip_with; lia). f_equal. clear IH. revert tables Hl.
    induction keys as [|key keys IHk]; intros [|t tables] Hl; try done. simpl. f_equal. apply IHk. by injection Hl.
Qed.

(** ** The sorters *)

(** A sort that ends with the elements in one of the two ranges, in stable order. *)
Definition sorted_result {A} (f : A -> Z) arr (r : option (bool * cells A * cells A)) : Prop :=
  exists which src out sorted, r = Some (which, src, out) /\ length src = length arr /\ length out = length arr /\
    (if which : bool then out else src) = Some <$> sorted /\ stable_by f arr sorted.

Definition sorter {A} (f : A -> Z) (sort : cells A -> cells A -> option (bool * cells A * cells A)) : Prop :=
  forall arr out, Z.of_nat (length arr) < 2 ^ 63 -> length out = length arr -> sorted_result f arr (sort (Some <$> arr) out).

Section Sorters.
Context {A : Type}.
Implicit Types (arr : list A) (out : cells A) (key : A -> nat) (word : A -> Z).

Lemma one_pass w key arr0 arr out : 0 <= w -> (forall x, (key x < 256)%nat) -> Z.of_nat (length arr) <= 2 ^ w -> arr0 ≡ₚ arr ->
  length out = length arr ->
  move_all w key (length arr) 0 (positions w 0 (counted key w arr0 zeros)) (Some <$> arr) out =
    Some (replicate (length arr) None, Some <$> buckets key 256 arr).
Proof.
  intros Hw Hk Hn Hp Hl. apply (move_all_ok key w Hw Hk arr [] arr); [done|done|by apply counted_places|by apply placed_nil].
Qed.

Lemma counting_sort_ok w key arr out : 0 <= w -> (forall x, (key x < 256)%nat) -> Z.of_nat (length arr) <= 2 ^ w ->
  length out = length arr ->
  counting_sort_impl w key (Some <$> arr) out = Some (replicate (length arr) None, Some <$> buckets key 256 arr).
Proof.
  intros Hw Hk Hn Hl. unfold counting_sort_impl. rewrite count_keys_ok by done. simpl. rewrite length_fmap. by apply one_pass.
Qed.

Lemma passes_ok w keys arr0 arr out : 0 <= w -> (forall key x, key ∈ keys -> (key x < 256)%nat) -> Z.of_nat (length arr) <= 2 ^ w ->
  arr0 ≡ₚ arr -> length out = length arr ->
  exists out', passes w (length arr) keys ((fun key => positions w 0 (counted key w arr0 zeros)) <$> keys) (Some <$> arr) out =
    Some (Some <$> foldl (fun l key => buckets key 256 l) arr keys, out') /\ length out' = length arr.
Proof.
  intros Hw. revert arr out. induction keys as [|key keys IH]; intros arr out Hk Hn Hp Hl; [by exists out|]. simpl.
  assert (Hkey : forall x, (key x < 256)%nat) by (intros x; apply Hk; by left).
  rewrite (one_pass w key arr0 arr out Hw Hkey Hn Hp Hl). simpl.
  pose proof (buckets_perm key 256 arr Hkey) as Hb. pose proof (Permutation_length Hb) as Hbl.
  destruct (IH (buckets key 256 arr) (replicate (length arr) None)) as (out' & E & Hl').
  - intros k x Hkx. apply Hk. by right.
  - by rewrite Hbl.
  - by rewrite Hp, Hb.
  - by rewrite length_replicate, Hbl.
  - rewrite Hbl in E, Hl'. by exists out'.
Qed.

Lemma byte_of_range i z : (byte_of i z < 256)%nat.
Proof. unfold byte_of. pose proof (Z.mod_pos_bound (Z.shiftr z (8 * Z.of_nat i)) 256). lia. Qed.

Lemma byte_of_next i z : Z.of_nat (byte_of i z) * 256 ^ Z.of_nat i + z mod 256 ^ Z.of_nat i = z mod 256 ^ Z.of_nat (S i).
Proof.
  unfold byte_of. pose proof (Z.mod_pos_bound (Z.shiftr z (8 * Z.of_nat i)) 256). rewrite Z2Nat.id by lia.
  rewrite Z.shiftr_div_pow2, Z.pow_mul_r by lia. change (2 ^ 8) with 256. rewrite Nat2Z.inj_succ, Z.pow_succ_r by lia.
  assert (0 < 256 ^ Z.of_nat i) by (apply Z.pow_pos_nonneg; lia). rewrite (Z.mul_comm 256), Z.rem_mul_r by lia. lia.
Qed.

Lemma passes_stable word N arr :
  stable_by (fun x => word x mod 256 ^ Z.of_nat N) arr
    (foldl (fun l key => buckets key 256 l) arr ((fun i x => byte_of i (word x)) <$> seq 0 N)).
Proof.
  induction N as [|N IH].
  - apply stable_refl. intros x y. by rewrite !Z.mod_1_r.
  - rewrite seq_S, fmap_app, foldl_app. simpl.
    eapply stable_ext; [intros x; apply byte_of_next|].
    eapply (stable_then (fun x => Z.of_nat (byte_of N (word x))) (fun x => word x mod 256 ^ Z.of_nat N)); [|exact IH|].
    + intros x. apply Z.mod_pos_bound, Z.pow_pos_nonneg; lia.
    + apply buckets_stable. intros x. apply byte_of_range.
Qed.

Lemma sort_inline_ok N w word arr out : 0 <= w -> Z.of_nat (length arr) <= 2 ^ w -> length out = length arr ->
  sorted_result (fun x => word x mod 256 ^ Z.of_nat N) arr (sort_inline N w word (Some <$> arr) out).
Proof.
  intros Hw Hn Hl. unfold sort_inline. rewrite count_keys_ok by (by rewrite length_fmap, length_seq, length_replicate). simpl.
  rewrite length_fmap. set (keys := (fun i x => byte_of i (word x)) <$> seq 0 N).
  assert (Et : positions w 0 <$> zip_with (fun key t => counted key w arr t) keys (replicate N zeros) =
    (fun key => positions w 0 (counted key w arr zeros)) <$> keys).
  { assert (Hlk : length keys = N) by (by unfold keys; rewrite length_fmap, length_seq). rewrite <- Hlk. clear.
    induction keys as [|key keys IH]; [done|]. simpl. f_equal. exact IH. }
  rewrite Et. destruct (passes_ok w keys arr arr out Hw) as (out' & E & Hl'); [|done..|].
  { intros key x (i & -> & _)%list_elem_of_fmap. apply byte_of_range. }
  rewrite E. simpl. pose proof (passes_stable word N arr) as Hs. fold keys in Hs. eexists _, _, _, _. split; [done|].
  split; [by rewrite length_fmap, (Permutation_length (sb_perm _ _ _ Hs))|]. by split.
Qed.

Lemma SizedRadixSorter_ok s word : (forall x, 0 <= word x < 2 ^ width s) -> sorter word (SizedRadixSorter_sort s word).
Proof.
  intros Hr arr out Hn Hl.
  assert (Hbig : forall N, 256 ^ Z.of_nat N = 2 ^ width s -> sorted_result word arr (sized_sort N word (Some <$> arr) out)).
  { intros N HN. unfold sized_sort. rewrite length_fmap.
    assert (Hc : forall w, 0 <= w -> Z.of_nat (length arr) <= 2 ^ w -> sorted_result word arr (sort_inline N w word (Some <$> arr) out)).
    { intros w Hw Hnw. destruct (sort_inline_ok N w word arr out Hw Hnw Hl) as (which & src & out' & sorted & E & H1 & H2 & H3 & Hs).
      exists which, src, out', sorted. repeat (split; [done|]). eapply stable_ext; [|exact Hs]. intros x. simpl. rewrite HN. by apply Z.mod_small. }
    case_decide; apply Hc; lia. }
  destruct s; simpl; [|by apply Hbig..]. unfold byte_sort.
  rewrite counting_sort_ok; [|lia|intros x; apply byte_of_range|lia|done]. simpl.
  pose proof (buckets_stable (fun x => byte_of 0 (word x)) 256 arr (fun x => byte_of_range 0 (word x))) as Hs.
  eexists _, _, _, _. split; [done|]. split; [by rewrite length_replicate|].
  split; [by rewrite length_fmap, (Permutation_length (sb_perm _ _ _ Hs))|]. split; [done|].
  eapply stable_ext; [|exact Hs]. intros x. simpl. unfold byte_of. rewrite Z.shiftr_0_r. specialize (Hr x). change (width S1) with 8 in Hr.
  rewrite Z.mod_small by lia. lia.
Qed.

(** *** [bool] keys *)

Abbreviation bit key := (fun x : A => if key x then 1%nat else 0%nat) (only parsing).

Lemma count_false_ok (key : A -> bool) done rest : Z.of_nat (length (done ++ rest)) < 2 ^ 63 ->
  count_false key (Some <$> rest) (Z.of_nat (cnt (bit key) 0 done)) = Some (Z.of_nat (cnt (bit key) 0 (done ++ rest))).
Proof.
  revert done. induction rest as [|x rest IH]; intros done Hn; [by rewrite app_nil_r|]. simpl.
  rewrite (cons_middle x done rest), app_assoc in Hn |- *. rewrite <- IH by done. f_equal.
  rewrite cnt_app, cnt_one. rewrite !length_app in Hn. simpl in Hn.
  assert (cnt (bit key) 0 done <= length done)%nat by apply length_filter.
  destruct (key x); simpl; [f_equal; lia|]. rewrite W64.wrap_small; [lia|]. unfold W64.in_range, W64.modulus. lia.
Qed.

Lemma move_bools_ok (key : A -> bool) arr done rest out : Z.of_nat (length arr) < 2 ^ 63 -> arr = done ++ rest ->
  placed (bit key) arr done out ->
  move_bools key (length rest) (length done) (Z.of_nat (cnt (bit key) 0 done))
    (Z.of_nat (start (bit key) 1 arr + cnt (bit key) 1 done)) (replicate (length done) None ++ (Some <$> rest)) out =
    Some (replicate (length arr) None, Some <$> buckets (bit key) 2 arr).
Proof.
  intros Hn. revert done out. assert (Hk : forall x, ((if key x then 1 else 0) < 2)%nat) by (intros x; destruct (key x); simpl; lia).
  induction rest as [|x rest IH]; intros done out E Hp; csimpl.
  - rewrite app_nil_r in *. subst done. by rewrite <- (placed_all (bit key) 2 arr out).
  - rewrite lookup_app_r, length_replicate, Nat.sub_diag by (by rewrite length_replicate). simpl.
    destruct (place_room (bit key) 2 arr done x rest Hk E) as [_ Hroom].
    pose proof (place (bit key) 2 arr done x rest out Hk E Hp) as Hp'. destruct Hp as [Hlen _].
    specialize (IH (done ++ [x]) _ ltac:(by rewrite <- app_assoc) Hp'). rewrite length_app, Nat.add_1_r in IH.
    rewrite insert_app_r_alt by (by rewrite length_replicate). rewrite length_replicate, Nat.sub_diag. csimpl.
    rewrite <- IH, !cnt_app, !cnt_one, (replicate_middle None (length done) (Some <$> rest)). csimpl.
    destruct (key x) eqn:Ek; simpl in Hroom |- *; rewrite put_in by (rewrite Hlen; done); simpl; repeat f_equal;
      try (rewrite W64.wrap_small by (unfold W64.in_range, W64.modulus; lia)); lia.
Qed.

Lemma bool_sort_ok (key : A -> bool) : sorter (fun x => Z.b2z (key x)) (bool_sort key).
Proof.
  intros arr out Hn Hl. unfold bool_sort. assert (Hk : forall x, ((if key x then 1 else 0) < 2)%nat) by (intros x; destruct (key x); simpl; lia).
  rewrite (count_false_ok key [] arr Hn : count_false key (Some <$> arr) 0 = _). simpl. rewrite length_fmap.
  pose proof (move_bools_ok key arr [] arr out Hn eq_refl (placed_nil _ arr out Hl)) as Hm. simpl in Hm.
  rewrite Nat.add_0_r in Hm. rewrite (Hm : move_bools key (length arr) 0 0 (Z.of_nat (cnt (bit key) 0 arr)) (Some <$> arr) out = _). simpl. pose proof (buckets_stable (bit key) 2 arr Hk) as Hs.
  eexists _, _, _, _. split; [done|]. split; [by rewrite length_replicate|].
  split; [by rewrite length_fmap, (Permutation_length (sb_perm _ _ _ Hs))|]. split; [done|].
  eapply stable_ext; [|exact Hs]. intros x. simpl. by destruct (key x).
Qed.

(** *** Compound keys *)

Lemma then_sort_ok (f g : A -> Z) M arr first next : Z.of_nat (length arr) < 2 ^ 63 -> (forall x, 0 <= g x < M) ->
  sorted_result g arr first -> sorter f next -> sorted_result (fun x => f x * M + g x) arr (then_sort first next).
Proof.
  intros Hn HM (which & src & out & mid & -> & H1 & H2 & H3 & Hs) Hnext. unfold then_sort. simpl.
  pose proof (Permutation_length (sb_perm _ _ _ Hs)) as Hml.
  destruct which; subst; [destruct (Hnext mid src) as (r & o & s & sorted & -> & G1 & G2 & G3 & Gs)|
    destruct (Hnext mid out) as (r & s & o & sorted & -> & G1 & G2 & G3 & Gs)]; try (rewrite Hml; done); simpl.
  - exists (negb r), s, o, sorted. rewrite <- Hml. repeat (split; [done|]). split; [by destruct r|by eapply stable_then].
  - exists r, s, o, sorted. rewrite <- Hml. repeat (split; [done|]). by eapply stable_then.
Qed.

Lemma array_sort_ok {B} (f : B -> Z) bits (sort : (A -> B) -> cells A -> cells A -> option (bool * cells A * cells A)) d extract_key arr n i s :
  0 <= bits -> (forall x, 0 <= f x < 2 ^ bits) -> (forall extract, sorter (fun o => f (extract o)) (sort extract)) ->
  Z.of_nat (length arr) < 2 ^ 63 -> sorted_result (fun o => array_code bits f d n i (extract_key o)) arr (Some s) ->
  sorted_result (fun o => array_code bits f d (i + n) 0 (extract_key o)) arr (array_sort sort d extract_key i s).
Proof.
  intros Hb Hf Hsort Hn. revert n s. induction i as [|i IH]; intros n s Hs; [done|]. cbn [array_sort].
  pose proof (then_sort_ok (fun o => f (nth i (extract_key o) d)) _ _ arr _ _ Hn
    (fun x => array_code_range bits f d n (S i) (extract_key x) Hb Hf) Hs (Hsort _)) as Hr.
  destruct Hr as (w & a & b & l & E & Hr). rewrite E. rewrite Nat.add_succ_comm. apply IH. exists w, a, b, l. by split.
Qed.

Lemma RadixSorter_ok t (extract_key : A -> val t) : sorter (fun x => code t (extract_key x)) (RadixSorter_sort t extract_key).
Proof.
  induction t as [|k|a IHa b IHb| |a IHa b IHb|t IH n].
  - apply bool_sort_ok.
  - apply SizedRadixSorter_ok. intros x. apply to_unsigned_range.
  - intros arr out Hn Hl. apply then_sort_ok; [done|intros x; apply code_range|by apply (IHb (fun o => (extract_key o).2))|].
    apply (IHa (fun o => (extract_key o).1)).
  - intros arr out Hn Hl. exists false, (Some <$> arr), out, arr. rewrite length_fmap. repeat (split; [done|]). by apply stable_refl.
  - intros arr out Hn Hl. apply then_sort_ok; [done|intros x; apply code_range|by apply (IHb (fun o => (extract_key o).2))|].
    apply (IHa (fun o => (extract_key o).1)).
  - intros arr out Hn Hl. cbn [RadixSorter_sort code]. pose proof (array_sort_ok (code t) (key_bits t) (RadixSorter_sort t) (zero t) extract_key arr 0 n
      (false, Some <$> arr, out) (key_bits_pos t) (code_range t) IH Hn) as Hr. rewrite Nat.add_0_r in Hr. apply Hr.
    exists false, (Some <$> arr), out, arr. rewrite length_fmap. repeat (split; [done|]). by apply stable_refl.
Qed.
End Sorters.

(** ** The order of the keys *)

Lemma filter_agree {A} (P Q : A -> Prop) `{forall x, Decision (P x)} `{forall x, Decision (Q x)} (l : list A) :
  (forall x, x ∈ l -> P x <-> Q x) -> filter P l = filter Q l.
Proof.
  induction l as [|x l IH]; intros HPQ; [done|]. rewrite !filter_cons. pose proof (HPQ x ltac:(by left)).
  rewrite IH by (intros y Hy; apply HPQ; by right). repeat case_decide; tauto.
Qed.

(** Neither key is before the other. *)
Definition same_key (t : key_type) (v1 v2 : val t) : Prop := key_lt t v1 v2 = false /\ key_lt t v2 v1 = false.

#[export] Instance same_key_dec t v1 v2 : Decision (same_key t v1 v2).
Proof. unfold same_key. apply _. Defined.

(** [C37] The copying radix sort, for every type of key it has: on keys without NaN,
    negative zero and negative plain characters, it ends without reading a cell
    that holds no element or leaving the ranges, whatever the buffer holds, says in
    which of the two ranges the elements are, and they are there in the order of
    [operator<], those with the same key in their first order. *)
Theorem radix_copy_sorts {A} t (extract_key : A -> val t) arr out : Z.of_nat (length arr) < 2 ^ 63 -> length out = length arr ->
  Forall (fun x => key_ok t (extract_key x)) arr ->
  exists which src' out' sorted, RadixSorter_sort t extract_key (Some <$> arr) out = Some (which, src', out') /\
    (if which : bool then out' else src') = Some <$> sorted /\ sorted ≡ₚ arr /\
    StronglySorted (fun x y => key_lt t (extract_key y) (extract_key x) = false) sorted /\
    forall x, x ∈ arr -> filter (fun y => same_key t (extract_key x) (extract_key y)) sorted =
      filter (fun y => same_key t (extract_key x) (extract_key y)) arr.
Proof.
  intros Hn Hl Hok. destruct (RadixSorter_ok t extract_key arr out Hn Hl) as (which & src & o & sorted & E & _ & _ & Hr & [Hp Hs Ht]).
  exists which, src, o, sorted. repeat (split; [done|]). rewrite Forall_forall in Hok.
  assert (Hlt : forall x y, x ∈ arr -> y ∈ arr -> key_lt t (extract_key x) (extract_key y) = (code t (extract_key x) <? code t (extract_key y)))
    by (intros x y Hx Hy; apply code_lt; auto).
  assert (Hin : forall x, x ∈ sorted <-> x ∈ arr) by (intros x; by rewrite Hp).
  split.
  - apply (StronglySorted_in (fun x y => code t (extract_key x) <= code t (extract_key y))); [|done].
    intros x y Hx Hy. rewrite Hlt by by apply Hin. intros. apply Z.ltb_ge. done.
  - intros x Hx. assert (Hsame : forall y, y ∈ arr -> same_key t (extract_key x) (extract_key y) <-> code t (extract_key y) = code t (extract_key x)).
    { intros y Hy. unfold same_key. rewrite !Hlt, !Z.ltb_ge by done. lia. }
    rewrite (filter_agree _ _ sorted (fun y Hy => Hsame y (proj1 (Hin y) Hy))), (filter_agree _ _ arr Hsame). apply Ht.
Qed.

Lemma radix_copy_sorts_witness : exists which src' out' sorted,
  RadixSorter_sort (KPair (KScalar (Signed S2)) KBool) fst
    (Some <$> [((3, true), 0); ((-2, true), 1); ((3, false), 2); ((-2, true), 3)]) (replicate 4 None) = Some (which, src', out') /\
  (if which : bool then out' else src') = Some <$> sorted /\
  sorted ≡ₚ [((3, true), 0); ((-2, true), 1); ((3, false), 2); ((-2, true), 3)].
Proof.
  destruct (radix_copy_sorts (A := Z * bool * Z) (KPair (KScalar (Signed S2)) KBool) fst
    [((3, true), 0); ((-2, true), 1); ((3, false), 2); ((-2, true), 3)] (replicate 4 None))
    as (which & src' & out' & sorted & H1 & H2 & H3 & _).
  - vm_compute. reflexivity.
  - reflexivity.
  - repeat constructor; simpl; vm_compute; (reflexivity || (intros E; discriminate E)).
  - exists which, src', out', sorted. repeat (split; [assumption|]). assumption.
Defined.

(** The keys that are left out: a negative [char] is sorted after the others, and
    [{-0.0f, 5}] before [{0.0f, 3}], which is the smaller pair. *)
Lemma unordered_keys :
  RadixSorter_sort (KScalar (Plain S1)) id [Some (-1); Some 1] [None; None] = Some (true, [None; None], [Some 1; Some (-1)]) /\
  key_lt (KScalar (Plain S1)) (-1) 1 = true /\
  (let t := KPair (KScalar Float) (KScalar (Unsigned S1)) in
   (exists src, RadixSorter_sort t id [Some (0, 3); Some (2 ^ 31, 5)] [None; None] = Some (true, src, [Some (2 ^ 31, 5); Some (0, 3)])) /\
   key_lt t (0, 3) (2 ^ 31, 5) = true).
Proof. split; [vm_compute; reflexivity|]. split; [reflexivity|]. split; [eexists; vm_compute; reflexivity|reflexivity]. Qed.
