(* ===== verification/SkaKeys.v ===== *)
(** * The radix sorts by key ([tl2/ska_sort.h])

    [ska_sort] in place, on every type of key but arrays ([SkaList]): the sub keys of the key, in
    order, each [bool] by [std::partition] or a word by its bytes, the most significant
    first.  [ska_sort_copy] chooses between it and the copying sort. *)

From S2P Require Import Prelude RadixKeys RadixCopy SkaSort.

(** [std::partition]: the range with the elements that satisfy the predicate first,
    and how many they are. *)
Class StdPartition (A : Type) := { std_partition : (A -> bool) -> list A -> list A * nat }.
Class StdPartitionLaws A `{StdPartition A} := {
  std_partition_ok p l : exists l1 l2, std_partition p l = (l1 ++ l2, length l1) /\ l1 ++ l2 ≡ₚ l /\
    Forall (fun x => p x = true) l1 /\ Forall (fun x => p x = false) l2 }.

(** [SubKey]: a [bool], or an unsigned word of [NumBytes] bytes. *)
Inductive SubKey (A : Type) :=
| BoolSubKey (sub_key : A -> bool)
| SizedSubKey (NumBytes : nat) (sub_key : A -> Z).
Arguments BoolSubKey {A} _.
Arguments SizedSubKey {A} _ _.

(** The sub key of a key and its [next]s: of pairs and tuples, those of the parts in
    order.  [None]: arrays, which are sorted as lists ([SkaList]). *)
Fixpoint sub_keys (t : key_type) {A} : (A -> val t) -> option (list (SubKey A)) :=
  match t with
  | KBool => fun extract_key => Some [BoolSubKey extract_key]
  | KScalar k => fun extract_key =>
      Some [SizedSubKey (bytes (size_of k)) (fun x => to_unsigned_or_bool k (extract_key x))]
  | KPair a b | KTuple a b => fun extract_key =>
      first ← sub_keys a (fun x => (extract_key x).1);
      second ← sub_keys b (fun x => (extract_key x).2);
      Some (first ++ second)
  | KEnd => fun _ => Some []
  | KArray _ _ => fun _ => None
  end.

Section Sort.
Context {A : Type} `{StdSort A} `{StdPartition A}.
Implicit Types (arr : list A).
Abbreviation next_sort_type := (option (list A -> option (list A))).

Definition ShiftAmount (NumBytes Offset : nat) : Z := (Z.of_nat NumBytes - 1 - Z.of_nat Offset) * 8.

(** The byte at an offset from the most significant one, as a [uint8_t]. *)
Definition current_byte (NumBytes Offset : nat) (sub_key : A -> Z) (x : A) : nat :=
  Z.to_nat (Z.shiftr (sub_key x) (ShiftAmount NumBytes Offset) mod 256).

(** [StdSortFallback]: by the whole key. *)
Definition StdSortFallback (lt : A -> A -> bool) arr : list A := std_sort lt arr.

Section Inplace.
Context (lt : A -> A -> bool).

(** [UnsignedInplaceSorter<..., NumBytes, NumBytes>::sort]: no byte is left. *)
Definition call_next (next_sort : next_sort_type) arr : option (list A) := next ← next_sort; next arr.

(** [UnsignedInplaceSorter<..., NumBytes, Offset>::sort]. *)
Fixpoint unsigned_sort (NumBytes : nat) (sub_key : A -> Z) (next_sort : next_sort_type) (bytes_left Offset : nat) arr : option (list A) :=
  match bytes_left with
  | O => call_next next_sort arr
  | Datatypes.S left' =>
      let sort_next := match left', next_sort with
                       | O, None => None
                       | _, _ => Some (unsigned_sort NumBytes sub_key next_sort left' (Offset + 1))
                       end in
      if (length arr <? AmericanFlagSortThreshold)%nat
      then american_flag_sort (StdSortFallback lt) sort_next (current_byte NumBytes Offset sub_key) arr
      else ska_byte_sort (StdSortFallback lt) sort_next (current_byte NumBytes Offset sub_key) arr
  end.

(** [InplaceSorter<..., bool>::sort]. *)
Definition bool_partition_sort (sub_key : A -> bool) (next_sort : next_sort_type) arr : option (list A) :=
  let '(arr', middle) := std_partition (fun a => negb (sub_key a)) arr in
  match next_sort with
  | None => Some arr'
  | Some next => first ← next (take middle arr'); second ← next (drop middle arr'); Some (first ++ second)
  end.

Definition InplaceSorter_sort (s : SubKey A) : next_sort_type -> list A -> option (list A) :=
  match s with
  | BoolSubKey sub_key => bool_partition_sort sub_key
  | SizedSubKey n sub_key => fun next_sort => unsigned_sort n sub_key next_sort n 0
  end.

(** [SortStarter::sort] for a sub key and those after it; there is no [next_sort] after
    the last. *)
Fixpoint SortStarter_sort (subs : list (SubKey A)) arr : option (list A) :=
  match subs with
  | [] => Some arr
  | s :: subs' =>
      let next_sort := match subs' with [] => None | _ => Some (SortStarter_sort subs') end in
      sort_range (StdSortFallback lt) (InplaceSorter_sort s next_sort) arr
  end.
End Inplace.

(** [ska_sort], through [inplace_radix_sort]. *)
Definition ska_sort (t : key_type) (extract_key : A -> val t) arr : option (list A) :=
  subs ← sub_keys t extract_key;
  SortStarter_sort (fun l r => key_lt t (extract_key l) (extract_key r)) subs arr.

(** [ska_sort_copy]: whether the result is in the buffer, and the two ranges. *)
Definition ska_sort_copy (t : key_type) (extract_key : A -> val t) arr (buffer : cells A) : option (bool * cells A * cells A) :=
  if (length arr <? 128)%nat || (8 <=? pass_count t)%nat then
    match ska_sort t extract_key arr with Some arr' => Some (false, Some <$> arr', buffer) | None => None end
  else RadixSorter_sort t extract_key (Some <$> arr) buffer.
End Sort.
