(* ===== verification/SkaList.v ===== *)
(** * [ska_sort] on lists ([tl2/ska_sort.h])

    Keys that are strings, vectors or arrays: [ListInplaceSorter] skips the common
    prefix of a range, parts the lists that end there from the longer ones, sorts
    those by their next element and recurses into the groups, [std::sort] taking over
    after sixteen elements.  Lists of words come out in lexicographic order.  Of an
    element only the first sub key is looked at: a pair is compared by its first
    component. *)

From S2P Require Import Prelude RadixKeys RadixCopy SkaSort SkaKeys.

Section ListSort.
Context {A W : Type} `{StdSort A} `{StdPartition A}.

(** [SubKey<W>::sub_key] of an element. *)
Inductive element_key := BoolElement (f : W -> bool) | SizedElement (NumBytes : nat) (f : W -> Z).

Definition element_word (e : element_key) (w : W) : Z :=
  match e with BoolElement f => Z.b2z (f w) | SizedElement _ f => f w end.

Section Prefix.
Context (e : element_key).
Implicit Types (first current : list W).

(** The inner loop of [CommonPrefix], from [i] for [n] turns: the first difference. *)
Fixpoint differs_from first current (n i : nat) : option nat :=
  match n with
  | O => Some i
  | S n' =>
      x ← first !! i; y ← current !! i;
      if element_word e x =? element_word e y then differs_from first current n' (S i) else Some i
  end.

(** The outer loop; [first] is [largest_match_list]. *)
Fixpoint prefix_loop first (start_index largest_match : nat) (rest : list (list W)) : option nat :=
  match rest with
  | [] => Some largest_match
  | current :: rest' =>
      let shrinks := (length current <? largest_match)%nat in
      let largest_match := if shrinks then length current else largest_match in
      if shrinks && (largest_match =? start_index)%nat then Some start_index
      else
        x ← first !! start_index; y ← current !! start_index;
        if element_word e x =? element_word e y then
          largest_match' ← differs_from first current (largest_match - S start_index) (S start_index);
          prefix_loop first start_index largest_match' rest'
        else Some start_index
  end.

(** [CommonPrefix]: it reads the first list of the range, whether there is one or not. *)
Definition CommonPrefix (lists : list (list W)) (start_index : nat) : option nat :=
  match lists with
  | [] => None
  | first :: rest =>
      if (length first =? start_index)%nat then Some start_index else prefix_loop first start_index (length first) rest
  end.
End Prefix.

Context (lt : A -> A -> bool) (e : element_key) (list_key : A -> list W).
Abbreviation next_sort_type := (option (list A -> option (list A))).

(** [ListElementSubKey]: the element at [current_index], of a list that has one. *)
Definition element_sub_key (current_index : nat) : SubKey A :=
  match e with
  | BoolElement f => BoolSubKey (fun x => default false (f <$> list_key x !! current_index))
  | SizedElement n f => SizedSubKey n (fun x => default 0 (f <$> list_key x !! current_index))
  end.

(** [ListInplaceSorter::sort] with [recursion_limit] and [current_index], and in it
    [sort_from_recursion], which has the next of both. *)
Fixpoint list_sort (recursion_limit : nat) (next_sort : next_sort_type) (current_index : nat) (arr : list A) : option (list A) :=
  current_index ← CommonPrefix e (list_key <$> arr) current_index;
  let '(arr', num_shorter_ones) := std_partition (fun x => (length (list_key x) <=? current_index)%nat) arr in
  shorter ← match next_sort with
            | None => Some (take num_shorter_ones arr')
            | Some next => sort_range (StdSortFallback lt) next (take num_shorter_ones arr')
            end;
  let sort_next_element range :=
    match recursion_limit with
    | O => None
    | 1%nat => Some (StdSortFallback lt range)
    | S limit' => list_sort limit' next_sort (S current_index) range
    end in
  longer ← sort_range (StdSortFallback lt) (InplaceSorter_sort lt (element_sub_key current_index) (Some sort_next_element))
    (drop num_shorter_ones arr');
  Some (shorter ++ longer).

(** [ListInplaceSorter::sort] from the start. *)
Definition list_sort_start (next_sort : next_sort_type) (arr : list A) : option (list A) := list_sort 16 next_sort 0 arr.

(** [ska_sort] by a key that is a list: there is no next sub key. *)
Definition ska_sort_list (arr : list A) : option (list A) := sort_range (StdSortFallback lt) (list_sort_start None) arr.
End ListSort.
Arguments element_key W : clear implicits.

(** A key that is a list of scalars, and its order. *)
Definition list_lt {A} (k : scalar) (list_key : A -> list Z) (x y : A) : bool := lex (scalar_lt k) (list_key x) (list_key y).

Definition ska_sort_scalars {A} `{StdSort A} `{StdPartition A} (k : scalar) (list_key : A -> list Z) (arr : list A) : option (list A) :=
  ska_sort_list (list_lt k list_key) (SizedElement (bytes (size_of k)) (to_unsigned_or_bool k)) list_key arr.
