(* ===== verification/SkaProof.v ===== *)
(** * [ska_sort] sorts

    Each partition loop groups the range by a byte ([SkaFlag], [SkaByte]); the
    recursion sorts the groups, in which the bytes before are equal, then by the
    next sub key the groups in which the whole sub key is.  On keys of every type but
    arrays the sort therefore returns a sorted permutation, always. *)

From S2P Require Import Prelude Blocks RadixKeys RadixCopy RadixProof SkaSort SkaFlag SkaByte SkaKeys.

(** ** The bytes of a sub key *)
Section Keys.
Context {A : Type} (N : nat) (word : A -> Z).

(** What is left of a word when the bytes from [Offset] on are dropped. *)
Definition prefix (Offset : nat) (x : A) : Z := word x / 2 ^ (8 * (Z.of_nat N - Z.of_nat Offset)).

Lemma prefix_word x : prefix N x = word x.
Proof. unfold prefix. rewrite Z.sub_diag, Z.mul_0_r. apply Z.div_1_r. Qed.

Lemma prefix_zero x : 0 <= word x < 2 ^ (8 * Z.of_nat N) -> prefix 0 x = 0.
Proof. intros Hx. unfold prefix. apply Z.div_small. by rewrite Z.sub_0_r. Qed.

Lemma prefix_next Offset x : (Offset < N)%nat -> prefix Offset x = prefix (Offset + 1) x / 256.
Proof.
  intros Ho. unfold prefix. rewrite Z.div_div by (lia || apply Z.pow_nonzero; lia). change 256 with (2 ^ 8).
  rewrite <- Z.pow_add_r by lia. do 2 f_equal. lia.
Qed.

Lemma current_byte_prefix Offset x :
  (Offset < N)%nat -> Z.of_nat (current_byte N Offset word x) = prefix (Offset + 1) x mod 256.
Proof.
  intros Ho. unfold current_byte, prefix, ShiftAmount.
  rewrite Z2Nat.id by (apply Z.mod_pos_bound; lia). rewrite Z.shiftr_div_pow2 by lia.
  do 3 f_equal. lia.
Qed.

Lemma current_byte_256 Offset x : (current_byte N Offset word x < 256)%nat.
Proof.
  unfold current_byte. pose proof (Z.mod_pos_bound (Z.shiftr (word x) (ShiftAmount N Offset)) 256). lia.
Qed.

(** Words with the same bytes before [Offset]. *)
Definition agree (Offset : nat) (x y : A) : Prop := prefix Offset x = prefix Offset y.

Lemma agree_next Offset x y : (Offset < N)%nat ->
  agree Offset x y -> current_byte N Offset word x = current_byte N Offset word y -> agree (Offset + 1) x y.
Proof.
  intros Ho Ha Hb. unfold agree in *. rewrite (prefix_next _ x), (prefix_next _ y) in Ha by done.
  assert (Hm : prefix (Offset + 1) x mod 256 = prefix (Offset + 1) y mod 256)
    by (rewrite <- !current_byte_prefix by done; by rewrite Hb).
  pose proof (Z.div_mod (prefix (Offset + 1) x) 256 ltac:(lia)). pose proof (Z.div_mod (prefix (Offset + 1) y) 256 ltac:(lia)).
  lia.
Qed.

Lemma agree_lt Offset x y : (Offset < N)%nat ->
  agree Offset x y -> (current_byte N Offset word x < current_byte N Offset word y)%nat -> word x < word y.
Proof.
  intros Ho Ha Hb. unfold agree in *. rewrite (prefix_next _ x), (prefix_next _ y) in Ha by done.
  pose proof (current_byte_prefix Offset x Ho). pose proof (current_byte_prefix Offset y Ho).
  pose proof (Z.div_mod (prefix (Offset + 1) x) 256 ltac:(lia)). pose proof (Z.div_mod (prefix (Offset + 1) y) 256 ltac:(lia)).
  assert (Hlt : prefix (Offset + 1) x < prefix (Offset + 1) y) by lia.
  destruct (Z.lt_ge_cases (word x) (word y)) as [|Hge]; [done|]. exfalso.
  assert (prefix (Offset + 1) y <= prefix (Offset + 1) x); [|lia].
  apply Z.div_le_mono; [|lia]. apply Z.pow_pos_nonneg; lia.
Qed.

Lemma agree_all x y : agree N x y -> word x = word y.
Proof. unfold agree. by rewrite !prefix_word. Qed.

Lemma agree_zero x y : (forall x, 0 <= word x < 2 ^ (8 * Z.of_nat N)) -> agree 0 x y.
Proof. intros Hw. unfold agree. by rewrite !prefix_zero. Qed.
End Keys.

(** ** The blocks after a partition loop *)
Section Grouped.
Context {A : Type} (byte : A -> nat) (arr0 : list A).

Lemma segment_block arr b x :
  grouped byte arr0 arr -> x ∈ segment (start byte b arr0) (start byte (S b) arr0) arr ->
  byte x = b /\ x ∈ arr0.
Proof.
  intros [Hp _ Hb] [p Hx]%list_elem_of_lookup. 
  assert (Hlt : (p < start byte (S b) arr0 - start byte b arr0)%nat).
  { apply lookup_lt_Some in Hx. unfold segment in Hx. rewrite length_take in Hx. lia. }
  rewrite segment_lookup in Hx by done. specialize (Hb b (start byte b arr0 + p)%nat).
  rewrite Hx in Hb. split.
  - assert (Some (byte x) = Some b) as [= ?]; [|done]. apply Hb. lia.
  - rewrite <- Hp. by eapply list_elem_of_lookup_2.
Qed.

(** The blocks listed follow one another. *)
Fixpoint chain (from : nat) (bs : list nat) : Prop :=
  match bs with
  | [] => True
  | b :: r => start byte b arr0 = from /\ chain (start byte (S b) arr0) r
  end.

Lemma remaining_chain : chain 0 (remaining_of byte arr0).
Proof.
  unfold remaining_of. assert (Hgen : forall n i,
    chain (start byte i arr0) (filter (fun b => cnt byte b arr0 <> 0%nat) (seq i n))); [|exact (Hgen 256%nat 0%nat)].
  induction n as [|n IH]; intros i; cbn [seq]; [done|]. rewrite filter_cons. case_decide as Hc.
  - split; [done|apply IH].
  - specialize (IH (S i)). assert (Hz : cnt byte i arr0 = 0%nat) by lia.
    by rewrite start_S, Hz, Nat.add_0_r in IH.
Qed.
End Grouped.

(** ** What [std::sort] does *)

(** It sorts the elements with a good key by this rank. *)
Definition std_sorts_by {A} `{StdSort A} (ok : A -> Prop) (lt : A -> A -> bool) (rank : A -> Z) : Prop :=
  forall arr, Forall ok arr ->
    StdSortFallback lt arr ≡ₚ arr /\ StronglySorted (fun x y => rank x <= rank y) (StdSortFallback lt arr).

Section StdSorts.
Context {A : Type} `{StdSortLaws A} (ok : A -> Prop) (lt : A -> A -> bool) (rank : A -> Z).
Context (Hlt : forall x y, ok x -> ok y -> lt x y = (rank x <? rank y)).

Lemma std_sorts : std_sorts_by ok lt rank.
Proof using Type*.
  intros arr Hok. rewrite Forall_forall in Hok.
  assert (Hr : forall x y, x ∈ arr -> y ∈ arr -> lt x y = (rank x <? rank y)) by (intros x y Hx Hy; apply Hlt; auto).
  split; [by apply (std_sort_perm _ rank)|by apply std_sort_sorted].
Qed.

(** By a rank that is the same for all it permutes them. *)
Lemma std_permutes : std_sorts_by ok lt (fun _ => 0).
Proof using Type*.
  intros arr Hok. destruct (std_sorts arr Hok) as [Hp _]. split; [done|]. apply (sorted_all (fun _ => 0)). lia.
Qed.
End StdSorts.

(** ** Recursion *)
Section Recursion.
Context {A : Type} `{StdSort A} `{StdPartitionLaws A}.
(** [std::sort] sorts the elements with a good key by [rank]. *)
Context (ok : A -> Prop) (lt : A -> A -> bool) (rank : A -> Z) (Hstd : std_sorts_by ok lt rank).
Abbreviation std := (StdSortFallback lt).
Abbreviation R := (fun x y => rank x <= rank y).

(** [f] sorts the ranges in which any two elements satisfy [P]. *)
Definition alike (P : A -> A -> Prop) (arr : list A) : Prop := forall x y, x ∈ arr -> y ∈ arr -> P x y.

Definition sorts (P : list A -> Prop) (f : list A -> option (list A)) : Prop :=
  forall arr, Forall ok arr -> P arr -> exists arr', f arr = Some arr' /\ arr' ≡ₚ arr /\ StronglySorted R arr'.

(** What is left to a next sort has elements: ranges with less than two are done. *)
Definition nonempty (P : list A -> Prop) (arr : list A) : Prop := arr <> [] /\ P arr.

Lemma sorts_nonempty P f : sorts P f -> sorts (nonempty P) f.
Proof using Type. intros Hf arr Hok [_ HP]. by apply Hf. Qed.

Lemma sort_range_sorts P f : sorts (nonempty P) f -> sorts P (sort_range std f).
Proof using Type*.
  intros Hf arr Hok HP. unfold sort_range, StdSortIfLessThanThreshold.
  destruct (Nat.leb_spec (length arr) 1) as [Hl|Hl].
  - exists arr. split; [done|]. split; [done|].
    destruct arr as [|x [|y arr]]; [constructor|by repeat constructor|simpl in Hl; lia].
  - destruct (Nat.leb_spec StdSortThreshold (length arr)); [apply Hf; [done|split; [intros ->; simpl in Hl; lia|done]]|].
    exists (std arr). split; [done|]. by apply Hstd.
Qed.

Lemma sorted_alike arr : alike (fun x y => rank x = rank y) arr -> StronglySorted R arr.
Proof using Type. intros Ha. apply (sorted_all rank). intros x y Hx Hy. rewrite (Ha x y); [lia|done..]. Qed.

Section Range.
Context (byte : A -> nat) (arr0 : list A) (next : list A -> option (list A)).
Abbreviation start b := (start byte b arr0).
Abbreviation stop b := (Blocks.start byte (S b) arr0).

(** [next] sorts the rearrangements of each block. *)
Context (Hok0 : Forall ok arr0) (Hnext : forall b : nat, sorts (nonempty (Forall (fun x => byte x = b /\ x ∈ arr0))) next).

Lemma sort_block arr dn b :
  blocks_sorted byte R arr0 dn arr ->
  exists seg, sort_range std next (segment (start b) (stop b) arr) = Some seg /\
    blocks_sorted byte R arr0 (b :: dn) (splice (start b) (stop b) seg arr).
Proof using Type*.
  intros Hs. assert (Hseg : Forall (fun x => byte x = b /\ x ∈ arr0) (segment (start b) (stop b) arr)).
  { apply Forall_forall. intros x Hx. eapply segment_block; [apply Hs|exact Hx]. }
  destruct (sort_range_sorts _ _ (Hnext b) (segment (start b) (stop b) arr)) as (seg & E & Hp & Hsort); [|done|].
  - rewrite Forall_forall in Hok0, Hseg |- *. intros x Hx. apply Hok0. by apply Hseg.
  - exists seg. split; [done|]. by apply blocks_sorted_step.
Qed.

Lemma recurse_af_ok ps bs so arr dn :
  (forall b, b ∈ bs -> next_offset <$> ps !! b = Some (stop b)) ->
  chain byte arr0 so bs -> blocks_sorted byte R arr0 dn arr ->
  exists arr', recurse_af std next ps bs so arr = Some arr' /\
    blocks_sorted byte R arr0 (rev bs ++ dn) arr'.
Proof using Type*.
  revert so arr dn. induction bs as [|b bs IH]; intros so arr dn Hps Hc Hs; cbn [recurse_af]; [eauto|].
  destruct Hc as [<- Hc]. pose proof (Hps b ltac:(by left)) as Hb.
  destruct (ps !! b) as [p|] eqn:E; [|done]. injection Hb as ->.
  destruct (sort_block arr dn b Hs) as (seg & -> & Hs').
  destruct (IH (stop b) _ (b :: dn) ltac:(intros; apply Hps; by right) Hc Hs') as (arr' & -> & Hs'').
  exists arr'. split; [done|]. cbn [rev]. by rewrite <- app_assoc.
Qed.

Lemma recurse_ska_ok ps bs arr dn :
  (forall b, (b < 256)%nat -> next_offset <$> ps !! b = Some (stop b)) ->
  Forall (fun b => (b < 256)%nat) bs -> blocks_sorted byte R arr0 dn arr ->
  exists arr', recurse_ska std next ps bs arr = Some arr' /\
    blocks_sorted byte R arr0 (rev bs ++ dn) arr'.
Proof using Type*.
  intros Hps Hbs. revert arr dn. induction Hbs as [|b bs Hb Hbs IH]; intros arr dn Hs; cbn [recurse_ska]; [eauto|].
  assert (Hstart : (if (b =? 0)%nat then Some 0%nat else next_offset <$> ps !! (b - 1)%nat) = Some (start b)).
  { destruct (Nat.eqb_spec b 0) as [->|Hn]; [done|]. rewrite Hps by lia. do 2 f_equal. lia. }
  rewrite Hstart. pose proof (Hps b Hb) as E. destruct (ps !! b) as [p|]; [|done]. injection E as ->.
  destruct (sort_block arr dn b Hs) as (seg & -> & Hs').
  destruct (IH _ (b :: dn) Hs') as (arr' & -> & Hs'').
  exists arr'. split; [done|]. cbn [rev]. by rewrite <- app_assoc.
Qed.
End Range.

(** ** One sub key *)

Section Word.
Context (N : nat) (word : A -> Z) (E : A -> A -> Prop).
(** In the ranges it sorts the sub keys before agree, and it decides the order. *)
Context (HR : forall x y, ok x -> ok y -> E x y -> word x < word y -> rank x <= rank y).

(** The range a byte is sorted on: the bytes before agree as well. *)
Definition same_prefix (Offset : nat) : list A -> Prop := alike (fun x y => E x y /\ agree N word Offset x y).

(** Recursing into every block listed sorts the array. *)
Lemma finish_blocks Offset arr0 arr bs :
  (Offset < N)%nat -> Forall ok arr0 -> same_prefix Offset arr0 ->
  bs ≡ₚ remaining_of (current_byte N Offset word) arr0 ->
  blocks_sorted (current_byte N Offset word) R arr0 bs arr -> arr ≡ₚ arr0 /\ StronglySorted R arr.
Proof using HR.
  intros Ho Hok Ha Hbs Hs. split; [apply Hs|].
  apply (blocks_sorted_all (current_byte N Offset word) R 256 arr0 bs arr); [|done| |].
  - apply Forall_true. intros x. apply current_byte_256.
  - intros b Hb. rewrite Hbs. apply elem_remaining. split; [|lia].
    destruct (decide (b < 256)%nat); [done|]. exfalso.
    unfold cnt in Hb. destruct (filter _ arr0) as [|x r] eqn:Er; [simpl in Hb; lia|].
    assert (Hx : x ∈ x :: r) by by left. rewrite <- Er in Hx. apply list_elem_of_filter in Hx as [Hx _].
    pose proof (current_byte_256 N word Offset x). lia.
  - rewrite Forall_forall in Hok. intros x y Hx Hy Hxy. destruct (Ha x y Hx Hy) as [HE Hag].
    apply HR; [auto..|]. eapply agree_lt; [exact Ho|exact Hag|exact Hxy].
Qed.

Lemma sorts_block Offset arr0 f b : (Offset < N)%nat -> same_prefix Offset arr0 ->
  sorts (nonempty (same_prefix (Offset + 1))) f ->
  sorts (nonempty (Forall (fun x => current_byte N Offset word x = b /\ x ∈ arr0))) f.
Proof using Type.
  intros Ho Ha Hf arr Hok [Hne Harr]. apply Hf; [done|]. split; [done|]. rewrite Forall_forall in Harr. intros x y Hx Hy.
  destruct (Harr x Hx) as [Bx Ix], (Harr y Hy) as [By Iy]. destruct (Ha x y Ix Iy) as [HE Hag].
  split; [done|]. apply agree_next; [done|done|congruence].
Qed.

(** What follows this byte: the next one, the next sub key, or nothing. *)
Definition follows (Offset : nat) (next : option (list A -> option (list A))) : Prop :=
  match next with
  | Some f => sorts (nonempty (same_prefix (Offset + 1))) f
  | None => (Offset + 1 = N)%nat /\ forall x y, ok x -> ok y -> E x y -> word x = word y -> rank x = rank y
  end.

(** What the last byte leaves: equal keys in each block. *)
Lemma last_blocks Offset arr0 arr : (Offset < N)%nat -> follows Offset None -> Forall ok arr0 -> same_prefix Offset arr0 ->
  grouped (current_byte N Offset word) arr0 arr ->
  blocks_sorted (current_byte N Offset word) R arr0 (remaining_of (current_byte N Offset word) arr0) arr.
Proof using Type.
  intros Ho [Hlast Heq] Hok Ha Hg. split; [exact Hg|]. intros b _. apply sorted_alike. rewrite Forall_forall in Hok. intros x y Hx Hy.
  destruct (segment_block _ _ _ _ _ Hg Hx) as [Bx Ix], (segment_block _ _ _ _ _ Hg Hy) as [By Iy].
  destruct (Ha x y Ix Iy) as [HE Hag]. apply Heq; [auto..|].
  pose proof (agree_next N word Offset x y Ho Hag ltac:(congruence)) as Hn. rewrite Hlast in Hn. by apply (agree_all N).
Qed.

Section Byte.
Context (Offset : nat) (arr0 : list A) (Ho : (Offset < N)%nat) (Hok0 : Forall ok arr0) (Ha : same_prefix Offset arr0).
Abbreviation byte := (current_byte N Offset word).
Context (next : option (list A -> option (list A))) (Hnext : follows Offset next).

Lemma grouped_blocks arr : grouped byte arr0 arr -> blocks_sorted byte R arr0 [] arr.
Proof using Type. intros Hg. split; [exact Hg|]. by intros b Hb%elem_of_nil. Qed.

Lemma american_flag_sort_ok : exists arr, american_flag_sort std next byte arr0 = Some arr /\
  arr ≡ₚ arr0 /\ StronglySorted R arr.
Proof using Type*.
  unfold american_flag_sort.
  destruct (flag_partition_ok byte (current_byte_256 N word Offset) arr0) as (arr & ps & -> & Hg & Hps).
  destruct next as [f|].
  - destruct (recurse_af_ok byte arr0 f Hok0 (fun b => sorts_block _ _ _ b Ho Ha Hnext) ps
      (remaining_of byte arr0) 0 arr []) as (arr' & -> & Hs).
    + intros b Hb. by rewrite Hps.
    + apply remaining_chain.
    + by apply grouped_blocks.
    + exists arr'. split; [done|]. eapply finish_blocks; [exact Ho|exact Hok0|exact Ha| |exact Hs].
      by rewrite app_nil_r, <- Permutation_rev.
  - exists arr. split; [done|]. eapply (finish_blocks Offset); [exact Ho|exact Hok0|exact Ha| |exact (last_blocks Offset arr0 arr Ho Hnext Hok0 Ha Hg)]. done.
Qed.

Lemma ska_byte_sort_ok : exists arr, ska_byte_sort std next byte arr0 = Some arr /\
  arr ≡ₚ arr0 /\ StronglySorted R arr.
Proof using Type*.
  unfold ska_byte_sort.
  destruct (ska_partition_ok byte (current_byte_256 N word Offset) arr0) as (arr & ps & bs & -> & Hg & Hp & Hps).
  destruct next as [f|].
  - destruct (recurse_ska_ok byte arr0 f Hok0 (fun b => sorts_block _ _ _ b Ho Ha Hnext) ps
      (rev bs) arr []) as (arr' & -> & Hs).
    + exact Hps.
    + apply Forall_forall. intros b Hb. rewrite <- Permutation_rev, Hp in Hb. by apply elem_remaining in Hb as [? _].
    + by apply grouped_blocks.
    + exists arr'. split; [done|]. eapply finish_blocks; [exact Ho|exact Hok0|exact Ha| |exact Hs].
      by rewrite app_nil_r, rev_involutive.
  - exists arr. split; [done|]. eapply (finish_blocks Offset); [exact Ho|exact Hok0|exact Ha| |exact (last_blocks Offset arr0 arr Ho Hnext Hok0 Ha Hg)]. done.
Qed.
End Byte.

(** The bytes one after the other, then [next_sort]. *)
Context (next_sort : option (list A -> option (list A))).
Context (Hnext_sort : match next_sort with
  | Some f => sorts (nonempty (alike (fun x y => E x y /\ word x = word y))) f
  | None => forall x y, ok x -> ok y -> E x y -> word x = word y -> rank x = rank y
  end).

Lemma unsigned_sort_sorts k Offset : (S k + Offset = N)%nat ->
  sorts (same_prefix Offset) (unsigned_sort lt N word next_sort (S k) Offset).
Proof using Type*.
  revert Offset. induction k as [|k IH]; intros Offset Hk arr Hok Ha; cbn [unsigned_sort].
  - assert (Hf : follows Offset match next_sort with None => None | Some _ => Some (unsigned_sort lt N word next_sort 0 (Offset + 1)) end).
    { destruct next_sort as [f|]; [|split; [lia|done]]. intros arr1 Hok1 [Hne1 Ha1]. simpl. apply Hnext_sort; [done|]. split; [done|].
      intros x y Hx Hy. destruct (Ha1 x y Hx Hy) as [HE Hag]. split; [done|]. replace (Offset + 1)%nat with N in Hag by lia.
      by apply (agree_all N). }
    destruct next_sort; (destruct (_ <? _)%nat; [apply american_flag_sort_ok|apply ska_byte_sort_ok]); (lia || done).
  - assert (Hn : sorts (nonempty (same_prefix (Offset + 1))) (unsigned_sort lt N word next_sort (S k) (Offset + 1)))
      by (apply sorts_nonempty, IH; lia).
    destruct (_ <? _)%nat; [apply american_flag_sort_ok|apply ska_byte_sort_ok]; (lia || done).
Qed.
End Word.

(** ** The sub keys one after the other *)

Definition digit (s : SubKey A) (x : A) : Z := match s with BoolSubKey f => Z.b2z (f x) | SizedSubKey _ f => f x end.

Definition sub_bits (s : SubKey A) : Z := match s with BoolSubKey _ => 1 | SizedSubKey n _ => 8 * Z.of_nat n end.

(** A [bool], or a word of at least one byte. *)
Definition sub_ok (s : SubKey A) : Prop :=
  (forall x, 0 <= digit s x < 2 ^ sub_bits s) /\ match s with SizedSubKey n _ => n <> 0%nat | _ => True end.

(** The sub keys of [pre] agree. *)
Definition same (pre : list (SubKey A)) (x y : A) : Prop := Forall (fun s => digit s x = digit s y) pre.

(** [subs] decides the order, its first difference first. *)
Definition decides (subs : list (SubKey A)) : Prop :=
  (forall pre s post x y, subs = pre ++ s :: post -> ok x -> ok y -> same pre x y -> digit s x < digit s y -> rank x <= rank y) /\
  forall x y, ok x -> ok y -> same subs x y -> rank x = rank y.

Lemma bool_partition_sorts f (E : A -> A -> Prop) next_sort :
  (forall x y, ok x -> ok y -> E x y -> Z.b2z (f x) < Z.b2z (f y) -> rank x <= rank y) ->
  match next_sort with
  | Some g => sorts (alike (fun x y => E x y /\ Z.b2z (f x) = Z.b2z (f y))) g
  | None => forall x y, ok x -> ok y -> E x y -> Z.b2z (f x) = Z.b2z (f y) -> rank x = rank y
  end -> sorts (alike E) (bool_partition_sort f next_sort).
Proof using Type*.
  intros HR Hnext arr Hok Ha. unfold bool_partition_sort.
  destruct (std_partition_ok (fun a => negb (f a)) arr) as (l1 & l2 & -> & Hp & T1 & T2).
  rewrite take_app_length, drop_app_length. rewrite <- Hp in Hok. apply Forall_app in Hok as [Ok1 Ok2].
  assert (Hin : forall x, x ∈ l1 \/ x ∈ l2 -> x ∈ arr) by (intros x; by rewrite <- Hp, elem_of_app).
  rewrite Forall_forall in T1, T2.
  assert (A1 : alike (fun x y => E x y /\ Z.b2z (f x) = Z.b2z (f y)) l1).
  { intros x y Hx Hy. split; [apply Ha; auto|]. pose proof (T1 x Hx). pose proof (T1 y Hy). by destruct (f x), (f y). }
  assert (A2 : alike (fun x y => E x y /\ Z.b2z (f x) = Z.b2z (f y)) l2).
  { intros x y Hx Hy. split; [apply Ha; auto|]. pose proof (T2 x Hx). pose proof (T2 y Hy). by destruct (f x), (f y). }
  rewrite Forall_forall in Ok1, Ok2.
  assert (Hcross : forall x y, x ∈ l1 -> y ∈ l2 -> rank x <= rank y).
  { intros x y Hx Hy. apply HR; [auto..|apply Ha; auto|]. pose proof (T1 x Hx). pose proof (T2 y Hy). by destruct (f x), (f y). }
  destruct next_sort as [g|].
  - destruct (Hnext l1) as (s1 & -> & P1 & S1); [by apply Forall_forall|done|].
    destruct (Hnext l2) as (s2 & -> & P2 & S2); [by apply Forall_forall|done|]. simpl. exists (s1 ++ s2).
    split; [done|]. split; [by rewrite P1, P2|]. apply StronglySorted_app_2; [|done..]. intros x y. rewrite P1, P2. apply Hcross.
  - exists (l1 ++ l2). split; [done|]. split; [done|].
    apply StronglySorted_app_2; [exact Hcross|apply sorted_alike; intros x y Hx Hy..].
    + destruct (A1 x y Hx Hy). apply Hnext; auto.
    + destruct (A2 x y Hx Hy). apply Hnext; auto.
Qed.

Lemma SortStarter_sorts subs : decides subs -> Forall sub_ok subs -> forall pre post, subs = pre ++ post ->
  sorts (alike (same pre)) (SortStarter_sort lt post).
Proof using Type*.
  intros [HR Heq] Hsub pre post. revert pre. induction post as [|s post IH]; intros pre Es arr Hok Ha.
  - exists arr. split; [done|]. split; [done|]. apply sorted_alike. rewrite app_nil_r in Es. subst.
    rewrite Forall_forall in Hok. intros x y Hx Hy. apply Heq; auto.
  - cbn [SortStarter_sort]. revert arr Hok Ha. apply sort_range_sorts, sorts_nonempty.
    assert (Hs : sub_ok s) by (rewrite Es in Hsub; apply Forall_app in Hsub as [_ Hsub]; by inversion Hsub).
    assert (Hnext : match (match post with [] => None | _ => Some (SortStarter_sort lt post) end) with
      | Some g => sorts (alike (fun x y => same pre x y /\ digit s x = digit s y)) g
      | None => forall x y, ok x -> ok y -> same pre x y -> digit s x = digit s y -> rank x = rank y
      end).
    { destruct post as [|s' post'].
      - intros x y Hx Hy Hp Hd. apply Heq; [done..|]. rewrite Es. apply Forall_app. split; [exact Hp|by constructor].
      - intros arr Hok Ha. apply (IH (pre ++ [s])); [by rewrite <- app_assoc|done|]. intros x y Hx Hy.
        destruct (Ha x y Hx Hy) as [Hp Hd]. apply Forall_app. split; [exact Hp|by constructor]. }
    generalize dependent (match post with [] => None | _ => Some (SortStarter_sort lt post) end). intros next_sort Hnext.
    destruct s as [f|n f]; simpl in Hnext |- *.
    + apply bool_partition_sorts; [|exact Hnext]. intros x y Hx Hy Hp Hd. by apply (HR pre (BoolSubKey f) post).
    + destruct Hs as [Hw Hn]. destruct n as [|k]; [done|].
      intros arr Hok Ha. apply (unsigned_sort_sorts (S k) f (same pre)); [| |lia|done|].
      * intros x y Hx Hy Hp Hd. by apply (HR pre (SizedSubKey (S k) f) post).
      * destruct next_sort; [by apply sorts_nonempty|exact Hnext].
      * intros x y Hx Hy. split; [by apply Ha|]. by apply agree_zero.
Qed.
End Recursion.

(** ** The sub keys of a key *)

Section SubKeys.
Context {A : Type}.
Implicit Types (subs : list (SubKey A)).

Definition subs_bits subs : Z := fold_right (fun s n => sub_bits s + n) 0 subs.
Fixpoint subs_code subs (x : A) : Z :=
  match subs with [] => 0 | s :: subs' => digit s x * 2 ^ subs_bits subs' + subs_code subs' x end.

Lemma sub_bits_pos (s : SubKey A) : 0 <= sub_bits s.
Proof. destruct s; simpl; lia. Qed.

Lemma subs_bits_pos subs : 0 <= subs_bits subs.
Proof. induction subs as [|s subs IH]; simpl; [lia|]. pose proof (sub_bits_pos s). lia. Qed.

Lemma subs_bits_app subs1 subs2 : subs_bits (subs1 ++ subs2) = subs_bits subs1 + subs_bits subs2.
Proof. induction subs1 as [|s subs1 IH]; simpl; [done|]. rewrite IH. lia. Qed.

Lemma subs_code_app subs1 subs2 x : subs_code (subs1 ++ subs2) x = subs_code subs1 x * 2 ^ subs_bits subs2 + subs_code subs2 x.
Proof.
  induction subs1 as [|s subs1 IH]; simpl; [done|]. rewrite IH, subs_bits_app, Z.pow_add_r by apply subs_bits_pos. lia.
Qed.

Lemma subs_code_range subs x : Forall sub_ok subs -> 0 <= subs_code subs x < 2 ^ subs_bits subs.
Proof.
  induction 1 as [|s subs [Hs _] Hsubs IH]; simpl; [lia|]. apply digits_range; [apply sub_bits_pos|apply subs_bits_pos|apply Hs|done].
Qed.

Lemma subs_code_same pre x y : same pre x y -> subs_code pre x = subs_code pre y.
Proof. induction 1 as [|s pre Hs Hp IH]; simpl; [done|]. by rewrite Hs, IH. Qed.

Lemma sub_keys_code t (extract_key : A -> val t) subs : sub_keys t extract_key = Some subs ->
  Forall sub_ok subs /\ subs_bits subs = key_bits t /\ forall x, subs_code subs x = code t (extract_key x).
Proof.
  revert extract_key subs. induction t as [|k|a IHa b IHb| |a IHa b IHb|t IH n]; intros extract_key subs; simpl.
  - intros [= <-]. split; [|split; [done|intros x; simpl; lia]]. repeat constructor; simpl; destruct (extract_key x); simpl; lia.
  - intros [= <-]. split; [|split; [simpl; unfold width; lia|intros x; simpl; lia]]. constructor; [|done].
    split; [intros x; simpl; apply to_unsigned_range|by destruct (size_of k)].
  - destruct (sub_keys a _) as [s1|] eqn:E1; simpl; [|done]. destruct (sub_keys b _) as [s2|] eqn:E2; simpl; [|done]. intros [= <-].
    destruct (IHa _ _ E1) as (O1 & B1 & C1), (IHb _ _ E2) as (O2 & B2 & C2). split; [by apply Forall_app|].
    split; [by rewrite subs_bits_app, B1, B2|]. intros x. by rewrite subs_code_app, C1, C2, B2.
  - intros [= <-]. by repeat split.
  - destruct (sub_keys a _) as [s1|] eqn:E1; simpl; [|done]. destruct (sub_keys b _) as [s2|] eqn:E2; simpl; [|done]. intros [= <-].
    destruct (IHa _ _ E1) as (O1 & B1 & C1), (IHb _ _ E2) as (O2 & B2 & C2). split; [by apply Forall_app|].
    split; [by rewrite subs_bits_app, B1, B2|]. intros x. by rewrite subs_code_app, C1, C2, B2.
  - done.
Qed.

Lemma sub_keys_decide t (extract_key : A -> val t) ok subs : sub_keys t extract_key = Some subs ->
  decides ok (fun x => code t (extract_key x)) subs.
Proof.
  intros Es. destruct (sub_keys_code t extract_key subs Es) as (Hok & _ & Hc). split.
  - intros pre s post x y -> _ _ Hp Hd. simpl. rewrite <- !Hc, !subs_code_app. rewrite (subs_code_same pre x y Hp). simpl.
    apply Forall_app in Hok as [_ Hok]. inversion_clear Hok as [|? ? _ Hpost].
    pose proof (subs_code_range post x Hpost). pose proof (subs_code_range post y Hpost). nia.
  - intros x y _ _ Hs. simpl. rewrite <- !Hc. by apply subs_code_same.
Qed.
End SubKeys.

(** The sort, by the number of the key. *)
Lemma ska_sort_code {A} `{StdSortLaws A} `{StdPartitionLaws A} t (extract_key : A -> val t) arr :
  is_Some (sub_keys t extract_key) -> Forall (fun x => key_ok t (extract_key x)) arr ->
  exists arr', ska_sort t extract_key arr = Some arr' /\ arr' ≡ₚ arr /\
    StronglySorted (fun x y => code t (extract_key x) <= code t (extract_key y)) arr'.
Proof.
  intros [subs Es] Hok. unfold ska_sort. rewrite Es. simpl.
  apply (SortStarter_sorts (fun x => key_ok t (extract_key x)) _ (fun x => code t (extract_key x)) (std_sorts _ _ _ (fun x y => code_lt t _ _))
    subs (sub_keys_decide t extract_key _ subs Es) (proj1 (sub_keys_code t extract_key subs Es)) [] subs eq_refl arr Hok).
  intros x y _ _. constructor.
Qed.

(** The range sorted by [operator<] of the keys. *)
Definition sorted_range {A} t (extract_key : A -> val t) (arr : list A) (r : option (list A)) : Prop :=
  exists arr', r = Some arr' /\ arr' ≡ₚ arr /\
    StronglySorted (fun x y => key_lt t (extract_key y) (extract_key x) = false) arr'.

(** [C15] [ska_sort] sorts.  On any range of elements with keys of any type but
    arrays, without NaN, negative zero and negative plain characters, and whatever
    its length, the sort terminates without touching anything outside the range and
    leaves a permutation of it in the order of [operator<]. *)
Theorem ska_sort_sorts {A} `{StdSortLaws A} `{StdPartitionLaws A} t (extract_key : A -> val t) arr :
  is_Some (sub_keys t extract_key) -> Forall (fun x => key_ok t (extract_key x)) arr ->
  sorted_range t extract_key arr (ska_sort t extract_key arr).
Proof.
  intros Hs Hok. destruct (ska_sort_code t extract_key arr Hs Hok) as (arr' & E & Hp & Hsort). exists arr'. split; [done|]. split; [done|].
  rewrite Forall_forall in Hok. eapply StronglySorted_in; [|exact Hsort]. intros x y Hx Hy Hle. simpl in Hle. rewrite Hp in Hx, Hy.
  rewrite code_lt by auto. by apply Z.ltb_ge.
Qed.

(** [ska_sort_copy] sorts, in the range or in the buffer. *)
Lemma ska_sort_copy_sorts {A} `{StdSortLaws A} `{StdPartitionLaws A} t (extract_key : A -> val t) arr buffer :
  is_Some (sub_keys t extract_key) -> Forall (fun x => key_ok t (extract_key x)) arr ->
  Z.of_nat (length arr) < 2 ^ 63 -> length buffer = length arr ->
  exists which src out sorted, ska_sort_copy t extract_key arr buffer = Some (which, src, out) /\
    (if which : bool then out else src) = Some <$> sorted /\ sorted ≡ₚ arr /\
    StronglySorted (fun x y => code t (extract_key x) <= code t (extract_key y)) sorted.
Proof.
  intros Hs Hok Hn Hl. unfold ska_sort_copy. destruct (_ || _).
  - destruct (ska_sort_code t extract_key arr Hs Hok) as (arr' & -> & Hp & Hsort). by exists false, (Some <$> arr'), buffer, arr'.
  - destruct (RadixSorter_ok t extract_key arr buffer Hn Hl) as (which & src & out & sorted & -> & _ & _ & Hr & [Hp Hsort _]).
    by exists which, src, out, sorted.
Qed.
