(* ===== verification/LocSets.v ===== *)
(** * The two location sets of [tl2/op.h]

    [HashVectorSet] is [LocationHashVectorSet], the set of [TMan::log]: the
    locations in insertion order in a vector, and a hash map from an address to
    its position in the vector ([ankerl::unordered_dense::map], as a finite map).
    [OrderedSet] is [LocationOrderedSet]: a [std::set] ordered by address, as its
    strictly increasing list of elements.  Both implement [LocationSet]. *)

From S2P Require Import Prelude VersionLock LockTable Store Op.

(** The sort that [stable_sort] runs on the vector, as an interface: a
    rearrangement by increasing key. *)
Class AddrSort := { addr_sort : list Location -> list Location }.
Class AddrSortLaws `{AddrSort} := {
  addr_sort_perm l : addr_sort l ≡ₚ l;
  addr_sort_sorted l : Forall W64.in_range (m_addr <$> l) ->
    StronglySorted Z.le (m_addr <$> addr_sort l) }.

Module HashVectorSet.
Section HV.
Context `{AddrSort}.

Record hvset := Mk { m_vec : list Location; m_map : gmap addr_t nat }.

Definition empty : hvset := Mk [] ∅.

Definition register_write {V} (x : addr_t) (v : V) (l : hvset) (st : Store.store V)
  : option (hvset * Store.store V) :=
  match m_map l !! x with
  | Some i =>
      match m_vec l !! i with
      | Some loc =>
          match Loc.write v loc st with
          | Some (loc', st') => Some (Mk (<[i := loc']> (m_vec l)) (m_map l), st')
          | None => None
          end
      | None => None                     (* out of range: undefined *)
      end
  | None =>
      match Loc.write v (Loc.make x) st with
      | Some (loc', st') =>
          Some (Mk (m_vec l ++ [loc']) (<[x := length (m_vec l)]> (m_map l)), st')
      | None => None
      end
  end.

Definition register_read (t : tid_t) (tbl : gmap Z Z) (x : addr_t) (l : hvset) : option hvset :=
  match m_map l !! x with
  | Some i =>
      match m_vec l !! i with
      | Some loc =>
          match Loc.read t tbl loc with
          | Some loc' => Some (Mk (<[i := loc']> (m_vec l)) (m_map l))
          | None => None
          end
      | None => None
      end
  | None =>
      match Loc.read t tbl (Loc.make x) with
      | Some loc' => Some (Mk (m_vec l ++ [loc']) (<[x := length (m_vec l)]> (m_map l)))
      | None => None
      end
  end.

(** Only the vector is reordered: the map keeps the old positions. *)
Definition stable_sort (l : hvset) : hvset := Mk (addr_sort (m_vec l)) (m_map l).

Definition find_write (x : addr_t) (l : hvset) : option Z :=
  match m_map l !! x with
  | Some i =>
      match m_vec l !! i with
      | Some loc => if m_written loc then Some (val_addr (write_val loc)) else None
      | None => None
      end
  | None => None
  end.

Definition modify (i : nat) (f : Location -> Location) (l : hvset) : hvset :=
  Mk (alter f i (m_vec l)) (m_map l).

#[export] Instance set : LocationSet hvset := {
  ls_empty := empty;
  ls_register_read := register_read;
  ls_register_write := @register_write;
  ls_find_write := find_write;
  ls_stable_sort := stable_sort;
  ls_locations := m_vec;
  ls_modify := modify }.

(** The map says where each address is, and nothing else. *)
Definition wf (l : hvset) : Prop :=
  forall x i, m_map l !! x = Some i <-> exists loc, m_vec l !! i = Some loc /\ m_addr loc = x.

Lemma wf_nodup l : wf l -> NoDup (m_addr <$> m_vec l).
Proof.
  intros Hwf. apply NoDup_alt. intros i j x Hi Hj.
  rewrite list_lookup_fmap in Hi, Hj.
  apply fmap_Some in Hi as (k & Hi & ->), Hj as (k' & Hj & Ek).
  assert (m_map l !! m_addr k = Some i) by (apply Hwf; eauto).
  assert (m_map l !! m_addr k = Some j) by (apply Hwf; eauto).
  congruence.
Qed.

Lemma wf_lookup l x i :
  wf l -> m_map l !! x = Some i ->
  exists loc, m_vec l !! i = Some loc /\ m_addr loc = x /\ loc_map (m_vec l) !! x = Some loc.
Proof.
  intros Hwf Hx. destruct (proj1 (Hwf x i) Hx) as (loc & Hi & Ha).
  exists loc. split_and!; [done..|]. apply loc_map_lookup; [by apply wf_nodup|].
  eauto using list_elem_of_lookup_2.
Qed.

Lemma wf_lookup_None l x :
  wf l -> m_map l !! x = None -> x ∉ m_addr <$> m_vec l.
Proof.
  intros Hwf Hx. rewrite list_elem_of_fmap. intros (loc & -> & Hin).
  apply list_elem_of_lookup in Hin as [i Hi].
  assert (m_map l !! m_addr loc = Some i) by (apply Hwf; eauto). congruence.
Qed.

(** Replacing the location at a position by one of the same address. *)
Lemma wf_replace l i loc loc' :
  wf l -> m_vec l !! i = Some loc -> m_addr loc' = m_addr loc ->
  wf (Mk (<[i := loc']> (m_vec l)) (m_map l)).
Proof.
  intros Hwf Hi Ha x j. simpl. rewrite (Hwf x j).
  destruct (decide (i = j)) as [->|Hij].
  - rewrite list_lookup_insert_eq by eauto using lookup_lt_Some. split.
    + intros (k & Hk & <-). exists loc'. simplify_eq. by rewrite Ha.
    + intros (k & Hk & <-). simplify_eq. exists loc. by rewrite Ha.
  - by rewrite list_lookup_insert_ne.
Qed.

(** Appending a location whose address is new. *)
Lemma wf_append l loc :
  wf l -> m_addr loc ∉ m_addr <$> m_vec l ->
  wf (Mk (m_vec l ++ [loc]) (<[m_addr loc := length (m_vec l)]> (m_map l))).
Proof.
  intros Hwf Hnew x i. simpl.
  destruct (decide (i < length (m_vec l))%nat) as [Hlt|Hge].
  - rewrite lookup_app_l by done. destruct (decide (m_addr loc = x)) as [<-|Hne].
    + rewrite lookup_insert_eq. split; [intros [=]; lia|].
      intros (k & Hk & Ha). destruct Hnew. rewrite <- Ha.
      apply list_elem_of_fmap. eauto using list_elem_of_lookup_2.
    + rewrite lookup_insert_ne by done. apply Hwf.
  - rewrite lookup_app_r by lia. destruct (decide (m_addr loc = x)) as [<-|Hne].
    + rewrite lookup_insert_eq. split.
      * intros [= <-]. rewrite Nat.sub_diag. by exists loc.
      * intros (k & Hk & _). apply list_lookup_singleton_Some in Hk as [Hk _]. f_equal. lia.
    + rewrite lookup_insert_ne by done. split.
      * intros Hx. destruct (proj1 (Hwf x i) Hx) as (k & Hk & _).
        apply lookup_lt_Some in Hk. lia.
      * intros (k & Hk & Ha). apply list_lookup_singleton_Some in Hk as [_ <-]. done.
Qed.

Lemma entry_found l x i loc :
  wf l -> m_map l !! x = Some i -> m_vec l !! i = Some loc -> entry x (m_vec l) = loc.
Proof.
  intros Hwf Hx Hi. destruct (wf_lookup l x i Hwf Hx) as (k & Hk & _ & Hm).
  unfold entry. rewrite Hm. simpl. congruence.
Qed.

Lemma entry_new l x : wf l -> m_map l !! x = None -> entry x (m_vec l) = Loc.make x.
Proof.
  intros Hwf Hx. unfold entry. by rewrite (proj2 (loc_map_None _ _) (wf_lookup_None l x Hwf Hx)).
Qed.

(** The two cases of the registering operations, for a location of [x]. *)
Lemma replace_spec l x i loc loc' :
  wf l -> m_map l !! x = Some i -> m_vec l !! i = Some loc -> m_addr loc' = m_addr loc ->
  wf (Mk (<[i := loc']> (m_vec l)) (m_map l)) /\
  loc_map (<[i := loc']> (m_vec l)) = <[x := loc']> (loc_map (m_vec l)).
Proof.
  intros Hwf Hx Hi Ha. destruct (wf_lookup l x i Hwf Hx) as (k & Hk & <- & _). simplify_eq.
  split; [by eapply wf_replace|]. apply loc_map_insert; auto using wf_nodup.
Qed.

Lemma append_spec l x loc :
  wf l -> m_map l !! x = None -> m_addr loc = x ->
  wf (Mk (m_vec l ++ [loc]) (<[x := length (m_vec l)]> (m_map l))) /\
  loc_map (m_vec l ++ [loc]) = <[x := loc]> (loc_map (m_vec l)).
Proof.
  intros Hwf Hx <-. pose proof (wf_lookup_None l _ Hwf Hx).
  split; [by apply wf_append|]. apply loc_map_snoc; auto using wf_nodup.
Qed.

Context `{!AddrSortLaws}.

#[export] Instance laws : LocationSetLaws hvset.
Proof.
  refine {| ls_wf := wf |}.
  - intros x i. simpl. rewrite lookup_empty. split; [done|]. by intros (? & ? & ?).
  - done.
  - apply wf_nodup.
  - intros t tbl x l Hwf _. simpl. unfold register_read.
    destruct (m_map l !! x) as [i|] eqn:Hx.
    + destruct (wf_lookup l x i Hwf Hx) as (loc & Hi & Ha & _).
      rewrite (entry_found l x i loc), Hi by done.
      destruct (Loc.read t tbl loc) as [loc'|] eqn:Hr; [|done]. eexists. split; [done|].
      eapply replace_spec; eauto using Loc.read_addr.
    + rewrite entry_new by done.
      destruct (Loc.read t tbl (Loc.make x)) as [loc'|] eqn:Hr; [|done]. eexists. split; [done|].
      apply append_spec; try done. by apply Loc.read_addr in Hr.
  - intros V x v l st Hwf. simpl. unfold register_write.
    destruct (m_map l !! x) as [i|] eqn:Hx.
    + destruct (wf_lookup l x i Hwf Hx) as (loc & Hi & Ha & _).
      rewrite (entry_found l x i loc), Hi by done.
      destruct (Loc.write v loc st) as [[loc' st']|] eqn:Hr; [|done]. eexists. split; [done|].
      eapply replace_spec; eauto using Loc.write_addr.
    + rewrite entry_new by done.
      destruct (Loc.write v (Loc.make x) st) as [[loc' st']|] eqn:Hr; [|done].
      eexists. split; [done|]. apply append_spec; try done. by apply Loc.write_addr in Hr.
  - intros x l Hwf. simpl. unfold find_write.
    destruct (m_map l !! x) as [i|] eqn:Hx.
    + destruct (wf_lookup l x i Hwf Hx) as (loc & -> & _ & ->). done.
    + by rewrite (proj2 (loc_map_None _ _) (wf_lookup_None l x Hwf Hx)).
  - intros l. apply addr_sort_perm.
  - intros l _ Hr. by apply addr_sort_sorted.
  - done.
Qed.
End HV.
End HashVectorSet.

Module OrderedSet.

(** The elements of the tree, in order. *)
Definition oset := list Location.

(** [Set::find]: the comparator only looks at addresses. *)
Definition find (x : addr_t) (l : oset) : option (nat * Location) :=
  list_find (fun k => m_addr k = x) l.

(** [Set::insert]: no effect when an equivalent element is there. *)
Fixpoint insert (loc : Location) (l : oset) : oset :=
  match l with
  | [] => [loc]
  | k :: r =>
      if m_addr loc <? m_addr k then loc :: k :: r
      else if m_addr k <? m_addr loc then k :: insert loc r
      else k :: r
  end.

Definition find_write (x : addr_t) (l : oset) : option Z :=
  match find x l with
  | Some (_, itr) => if m_written itr then Some (val_addr (write_val itr)) else None
  | None => None
  end.

Definition register_write {V} (x : addr_t) (v : V) (l : oset) (st : Store.store V)
  : option (oset * Store.store V) :=
  match find x l with
  | Some (i, itr) =>
      match Loc.write v itr st with
      | Some (itr', st') => Some (<[i := itr']> l, st')
      | None => None
      end
  | None =>
      match Loc.write v (Loc.make x) st with
      | Some (loc, st') => Some (insert loc l, st')
      | None => None
      end
  end.

(** The argument [Location(addr, true)] reads the version before the insertion
    is tried; when the address is there already the element reads it again. *)
Definition register_read (t : tid_t) (tbl : gmap Z Z) (x : addr_t) (l : oset) : option oset :=
  match Loc.read t tbl (Loc.make x) with
  | None => None
  | Some loc =>
      match find x l with
      | Some (i, itr) =>
          match Loc.read t tbl itr with
          | Some itr' => Some (<[i := itr']> l)
          | None => None
          end
      | None => Some (insert loc l)
      end
  end.

#[export] Instance set : LocationSet oset := {
  ls_empty := [];
  ls_register_read := register_read;
  ls_register_write := @register_write;
  ls_find_write := find_write;
  ls_stable_sort := fun l => l;                 (* stable_sort() { return; } *)
  ls_locations := fun l => l;
  ls_modify := fun i f l => alter f i l }.

Definition wf (l : oset) : Prop := StronglySorted Z.lt (m_addr <$> l).

Lemma oset_wf_nodup l : wf l -> NoDup (m_addr <$> l).
Proof.
  unfold wf. induction (m_addr <$> l) as [|a r IH]; intros Hs; [constructor|].
  apply StronglySorted_inv in Hs as [Hs Ha]. constructor; [|by apply IH].
  intros Hin. rewrite Forall_forall in Ha. specialize (Ha a Hin). lia.
Qed.

Lemma find_spec l x :
  wf l ->
  match find x l with
  | Some (i, loc) => l !! i = Some loc /\ m_addr loc = x /\ entry x l = loc
  | None => x ∉ m_addr <$> l /\ entry x l = Loc.make x
  end.
Proof.
  intros Hwf%oset_wf_nodup. unfold find. destruct (list_find _ l) as [[i loc]|] eqn:E.
  - apply list_find_Some in E as (Hi & Ha & _). split_and!; [done..|].
    unfold entry. rewrite (proj2 (loc_map_lookup l x loc Hwf)); [done|].
    eauto using list_elem_of_lookup_2.
  - assert (x ∉ m_addr <$> l) as Hx.
    { rewrite list_elem_of_fmap. intros (k & -> & Hk). apply list_find_None in E.
      rewrite Forall_forall in E. by apply (E k). }
    split; [done|]. unfold entry. by rewrite (proj2 (loc_map_None l x) Hx).
Qed.

Lemma oset_insert_perm loc l : m_addr loc ∉ m_addr <$> l -> insert loc l ≡ₚ loc :: l.
Proof.
  induction l as [|k l IH]; intros Hx; simpl; [done|].
  rewrite fmap_cons, not_elem_of_cons in Hx. destruct Hx as [Hk Hx].
  destruct (Z.ltb_spec (m_addr loc) (m_addr k)); [done|].
  destruct (Z.ltb_spec (m_addr k) (m_addr loc)); [|lia].
  rewrite IH by done. apply Permutation_swap.
Qed.

Lemma insert_wf loc l : wf l -> wf (insert loc l).
Proof.
  unfold wf. induction l as [|k l IH]; intros Hs; simpl; [repeat constructor|].
  destruct (Z.ltb_spec (m_addr loc) (m_addr k)) as [Hlt|Hge].
  - simpl in *. constructor; [done|]. apply StronglySorted_inv in Hs as [_ Hk].
    constructor; [done|]. eapply Forall_impl; [done|]. intros; simpl in *; lia.
  - destruct (Z.ltb_spec (m_addr k) (m_addr loc)) as [Hlt|Hge']; [|done].
    simpl in *. apply StronglySorted_inv in Hs as [Hs Hk]. constructor; [by apply IH|].
    apply Forall_fmap, Forall_forall. intros j Hj. simpl.
    assert (j = loc \/ j ∈ l) as [->|Hjl]; [|done|].
    { clear -Hj. induction l as [|k l IH]; simpl in *.
      - apply list_elem_of_singleton in Hj. by left.
      - destruct (_ <? _); [|destruct (_ <? _)]; set_solver. }
    rewrite Forall_fmap, Forall_forall in Hk. by apply (Hk j).
Qed.

Lemma oset_replace_spec (l : oset) (i : nat) loc loc' x :
  wf l -> l !! i = Some loc -> m_addr loc = x -> m_addr loc' = m_addr loc ->
  wf (<[i := loc']> l) /\ loc_map (<[i := loc']> l) = <[x := loc']> (loc_map l).
Proof.
  intros Hwf Hi <- Ha. split.
  - unfold wf. by erewrite fmap_addr_insert.
  - apply loc_map_insert; auto using oset_wf_nodup.
Qed.

Lemma insert_spec (l : oset) loc x :
  wf l -> m_addr loc = x -> x ∉ m_addr <$> l ->
  wf (insert loc l) /\ loc_map (insert loc l) = <[x := loc]> (loc_map l).
Proof.
  intros Hwf <- Hx. split; [by apply insert_wf|]. rewrite <- loc_map_cons.
  apply loc_map_perm; [by apply oset_wf_nodup, insert_wf|]. by apply oset_insert_perm.
Qed.

Lemma make_read t tbl x l :
  m_owner l = None -> m_addr l = x ->
  ((Loc.read t tbl (Loc.make x) = None) <-> (Loc.read t tbl l = None)).
Proof.
  intros Ho <-. unfold Loc.read, Loc.get_version, Loc.owned. rewrite Ho. simpl.
  destruct (Word.get_version _); naive_solver.
Qed.

Lemma sorted_le l : wf l -> StronglySorted Z.le (m_addr <$> l).
Proof.
  unfold wf. induction 1; constructor; [done|]. eapply Forall_impl; [done|]. intros; lia.
Qed.

#[export] Instance laws : LocationSetLaws oset.
Proof.
  refine {| ls_wf := wf |}.
  - constructor.
  - done.
  - apply oset_wf_nodup.
  - intros t tbl x l Hwf Ho. simpl in *. unfold register_read.
    pose proof (find_spec l x Hwf) as Hf. pose proof (entry_addr l x (oset_wf_nodup l Hwf)) as Ha.
    pose proof (make_read t tbl x _ Ho Ha) as Hm.
    destruct (Loc.read t tbl (Loc.make x)) as [loc|] eqn:Hr.
    + destruct (find x l) as [[i itr]|].
      * destruct Hf as (Hi & Hx & E). rewrite E in *.
        destruct (Loc.read t tbl itr) as [itr'|] eqn:Hr'; [|naive_solver].
        eexists. split; [done|]. eapply oset_replace_spec; eauto using Loc.read_addr.
      * destruct Hf as [Hx E]. rewrite E, Hr. eexists. split; [done|].
        apply insert_spec; try done. by apply Loc.read_addr in Hr.
    + by rewrite (proj1 Hm).
  - intros V x v l st Hwf. simpl in *. unfold register_write.
    pose proof (find_spec l x Hwf) as Hf. destruct (find x l) as [[i itr]|].
    + destruct Hf as (Hi & Hx & ->).
      destruct (Loc.write v itr st) as [[itr' st']|] eqn:Hr; [|done].
      eexists. split; [done|]. eapply oset_replace_spec; eauto using Loc.write_addr.
    + destruct Hf as [Hx ->].
      destruct (Loc.write v (Loc.make x) st) as [[loc st']|] eqn:Hr; [|done].
      eexists. split; [done|]. apply insert_spec; try done. by apply Loc.write_addr in Hr.
  - intros x l Hwf. simpl. unfold find_write. pose proof (find_spec l x Hwf) as Hf.
    destruct (find x l) as [[i itr]|].
    + destruct Hf as (Hi & Hx & _).
      rewrite (proj2 (loc_map_lookup l x itr (oset_wf_nodup l Hwf))); [done|].
      eauto using list_elem_of_lookup_2.
    + destruct Hf as [Hx _]. by rewrite (proj2 (loc_map_None l x) Hx).
  - done.
  - intros l Hwf _. by apply sorted_le.
  - done.
Qed.
End OrderedSet.
