(* ===== verification/SkaSet.v ===== *)
(** * The vector set sorts with [ska_sort]

    [Hash_VectorSet::stable_sort] ([tl2/op.h]) calls [ska_sort] with the address
    of a location as its key: the instance of the sort that [LocSets] assumes,
    and the same set with [std::sort] given as insertion sort, on which concrete
    runs are evaluated. *)

From S2P Require Import Prelude Store VersionLock LockTable Op LocSets RadixKeys RadixCopy RadixProof SkaSort SkaKeys SkaProof.

Section SkaAddrSort.
Context `{StdSortLaws Location} `{StdPartitionLaws Location}.

(** The lambda of the call; [addr_t] is a 64-bit word. *)
Definition addr_key (loc : Location) : val (KScalar (Unsigned S8)) := W64.wrap (m_addr loc).

(** [ska_sort_code]: the sort is never undefined on such keys. *)
Definition sort_locations (ls : list Location) : list Location := default ls (ska_sort (KScalar (Unsigned S8)) addr_key ls).

#[export] Instance ska_addr_sort : AddrSort := {| addr_sort := sort_locations |}.

Lemma sort_locations_spec ls : sort_locations ls ≡ₚ ls /\
  StronglySorted (fun x y => addr_key x <= addr_key y) (sort_locations ls).
Proof.
  unfold sort_locations.
  destruct (ska_sort_code (KScalar (Unsigned S8)) addr_key ls) as (arr & -> & Hp & Hs); [by eexists| |].
  - apply Forall_forall. intros l _. apply W64.wrap_range.
  - split; [done|]. eapply sorted_impl; [|exact Hs]. intros x y. simpl. unfold addr_key.
    change (2 ^ width S8) with W64.modulus. rewrite !Zmod_small by apply W64.wrap_range. done.
Qed.

#[export] Instance ska_addr_sort_laws : AddrSortLaws.
Proof.
  constructor; intros ls; [apply sort_locations_spec|]. intros Hr.
  destruct (sort_locations_spec ls) as [Hp Hs]. apply lookup_sorted. intros i j x y Hij Hx Hy.
  rewrite list_lookup_fmap in Hx, Hy. simpl in *.
  destruct (sort_locations ls !! i) as [l1|] eqn:E1; [|done].
  destruct (sort_locations ls !! j) as [l2|] eqn:E2; [|done]. injection Hx as <-. injection Hy as <-.
  pose proof (sorted_lookup _ _ i j l1 l2 Hs Hij E1 E2) as Hle. simpl in Hle.
  rewrite Forall_fmap, Forall_forall in Hr. unfold addr_key in Hle.
  rewrite !W64.wrap_small in Hle; [done| |]; apply Hr; rewrite <- Hp; by eapply list_elem_of_lookup_2.
Qed.
End SkaAddrSort.

(** ** [std::sort] as insertion sort, and [std::partition] *)
Module InsertionSort.
Section Insertion.
Context {A : Type}.
Implicit Types (lt : A -> A -> bool) (ls : list A).

Fixpoint insert_by lt (x : A) ls : list A :=
  match ls with
  | [] => [x]
  | y :: r => if lt y x then y :: insert_by lt x r else x :: y :: r
  end.

Definition insertion_sort lt ls : list A := foldr (insert_by lt) [] ls.

#[export] Instance insertion : StdSort A := {| std_sort := insertion_sort |}.

#[export] Instance partition_filter : StdPartition A :=
  {| std_partition p l := (filter (fun x => p x = true) l ++ filter (fun x => p x = false) l, length (filter (fun x => p x = true) l)) |}.

Lemma insert_by_perm lt x ls : insert_by lt x ls ≡ₚ x :: ls.
Proof.
  induction ls as [|y ls IH]; simpl; [done|]. destruct (lt y x); [|done].
  rewrite IH. apply Permutation_swap.
Qed.

Lemma insert_by_sorted lt (rank : A -> Z) x ls : (forall y, y ∈ ls -> lt y x = (rank y <? rank x)) ->
  StronglySorted (fun x y => rank x <= rank y) ls ->
  StronglySorted (fun x y => rank x <= rank y) (insert_by lt x ls).
Proof.
  induction ls as [|y ls IH]; intros Hr Hs; simpl; [by repeat constructor|].
  pose proof Hs as [Hs' Hy]%StronglySorted_inv. rewrite (Hr y) by by left. destruct (Z.ltb_spec (rank y) (rank x)).
  - constructor; [by apply IH; [intros z Hz; apply Hr; by right|]|]. rewrite insert_by_perm. constructor; [lia|done].
  - constructor; [done|]. constructor; [done|]. eapply Forall_impl; [exact Hy|]. intros z Hz. simpl in *. lia.
Qed.

Lemma insertion_sort_perm lt ls : insertion_sort lt ls ≡ₚ ls.
Proof. unfold insertion_sort. induction ls as [|x ls IH]; simpl; [done|]. by rewrite insert_by_perm, IH. Qed.

#[export] Instance insertion_laws : StdSortLaws A.
Proof.
  constructor; intros lt rank l Hr; simpl; [apply insertion_sort_perm|].
  induction l as [|x l IH]; [constructor|]. simpl. apply insert_by_sorted.
  - intros y Hy. apply Hr; [right|by left]. by rewrite <- (insertion_sort_perm lt l).
  - apply IH. intros y z Hy Hz. apply Hr; by right.
Qed.

#[export] Instance partition_laws : StdPartitionLaws A.
Proof.
  constructor. intros p l. eexists _, _. split; [done|]. split; [|split; apply Forall_forall; by intros x [Hx _]%list_elem_of_filter].
  induction l as [|x l IH]; [done|]. rewrite !filter_cons. destruct (p x); simpl; [by rewrite IH|].
  rewrite <- Permutation_middle. by rewrite IH.
Qed.
End Insertion.
End InsertionSort.

(** ** Runs of the sort *)
Section Runs.
#[local] Existing Instance InsertionSort.insertion.
#[local] Existing Instance InsertionSort.insertion_laws.
#[local] Existing Instance InsertionSort.partition_filter.
#[local] Existing Instance InsertionSort.partition_laws.

(** Keys scattered over the 64 bits. *)
Definition scattered (n : nat) : list Z := (fun i => W64.wrap (Z.of_nat i * 11400714819323198485)) <$> seq 1 n.

(** By [american_flag_sort], and by [ska_byte_sort] first. *)
Lemma flag_run : ska_sort (KScalar (Unsigned S8)) id (scattered 300) = Some (std_sort Z.ltb (scattered 300)).
Proof. by vm_compute. Qed.
Lemma byte_run : ska_sort (KScalar (Unsigned S8)) id (scattered 1100) = Some (std_sort Z.ltb (scattered 1100)).
Proof. by vm_compute. Qed.

(** By a [bool], then by one byte. *)
Definition mixed_keys : list (bool * Z) := (fun i => (Nat.even (i / 7), (Z.of_nat i * 37) mod 256)) <$> seq 0 400.

Lemma ska_sort_sorts_witness :
  (exists arr, ska_sort (KScalar (Unsigned S8)) id (scattered 1100) = Some arr /\ arr ≡ₚ scattered 1100 /\
    StronglySorted (fun x y => (y <? x) = false) arr) /\
  exists arr, ska_sort (KPair KBool (KScalar (Unsigned S1))) id mixed_keys = Some arr /\ arr ≡ₚ mixed_keys.
Proof.
  split.
  - destruct (ska_sort_sorts (KScalar (Unsigned S8)) id (scattered 1100)) as (arr & E & Hp & Hs).
    + by eexists.
    + apply Forall_fmap, Forall_true. intros i. apply W64.wrap_range.
    + exists arr. split; [exact E|]. split; [exact Hp|exact Hs].
  - destruct (ska_sort_sorts (A := bool * Z) (KPair KBool (KScalar (Unsigned S1))) id mixed_keys) as (arr & E & Hp & _).
    + by eexists.
    + apply Forall_fmap, Forall_true. intros i. split; [exact I|]. apply (Z.mod_pos_bound _ 256). reflexivity.
    + exists arr. split; [exact E|exact Hp].
Defined.
End Runs.
