(* ===== verification/SkaListProof.v ===== *)
(** * [ska_sort] on lists sorts in lexicographic order

    A list of words is ranked as a number: its words, each plus one, are the digits,
    and the places it does not have are zero. *)

From S2P Require Import Prelude Blocks RadixKeys RadixCopy RadixProof SkaSort SkaKeys SkaList SkaProof SkaSet.

(** ** The rank of a list *)
Section Rank.
Context (bits : Z) (Hbits : 0 <= bits).
Implicit Types (l : list Z).

Abbreviation base := (2 ^ bits + 1).
Abbreviation in_word := (fun w => 0 <= w < 2 ^ bits).

(** Of lists with at most [n] words. *)
Fixpoint list_rank (n : nat) l : Z :=
  match n, l with
  | S n', w :: r => (w + 1) * base ^ Z.of_nat n' + list_rank n' r
  | _, _ => 0
  end.

Lemma list_rank_range n l : Forall in_word l -> 0 <= list_rank n l < base ^ Z.of_nat n.
Proof using Hbits.
  assert (Hb : 0 < 2 ^ bits) by (apply Z.pow_pos_nonneg; lia).
  revert l. induction n as [|n IH]; intros l Hl; [simpl; lia|]. assert (0 < base ^ Z.of_nat n) by (apply Z.pow_pos_nonneg; lia).
  destruct Hl as [|w l Hw Hl]; [cbn [list_rank]; split; [lia|apply Z.pow_pos_nonneg; lia]|].
  cbn [list_rank]. pose proof (IH l Hl). rewrite Nat2Z.inj_succ, Z.pow_succ_r by lia. nia.
Qed.

Lemma list_rank_lex n l1 l2 : (length l1 <= n)%nat -> (length l2 <= n)%nat -> Forall in_word l1 -> Forall in_word l2 ->
  lex Z.ltb l1 l2 = (list_rank n l1 <? list_rank n l2).
Proof using Hbits.
  assert (Hb : 0 < 2 ^ bits) by (apply Z.pow_pos_nonneg; lia).
  revert l1 l2. induction n as [|n IH]; intros l1 l2 Hn1 Hn2 H1 H2.
  - destruct l1; [|simpl in *; lia]. by destruct l2; [|simpl in *; lia].
  - destruct H1 as [|x l1 Hx H1], H2 as [|y l2 Hy H2]; cbn [lex list_rank length] in *; try (symmetry; apply Z.ltb_irrefl).
    + pose proof (list_rank_range n l2 H2). assert (0 < base ^ Z.of_nat n) by (apply Z.pow_pos_nonneg; lia).
      symmetry. apply Z.ltb_lt. nia.
    + pose proof (list_rank_range n l1 H1). assert (0 < base ^ Z.of_nat n) by (apply Z.pow_pos_nonneg; lia).
      symmetry. apply Z.ltb_ge. nia.
    + rewrite digits_lt by (by apply list_rank_range). rewrite (IH l1 l2) by (done || lia).
      assert (Hs : forall a b, (a + 1 <? b + 1) = (a <? b)) by (intros a b; apply Bool.eq_iff_eq_true; rewrite !Z.ltb_lt; lia).
      by rewrite !Hs.
Qed.
End Rank.

(** After a common prefix, the next words decide. *)
Lemma lex_prefix (c : nat) (l1 l2 : list Z) : take c l1 = take c l2 -> (c <= length l1)%nat -> (c <= length l2)%nat ->
  lex Z.ltb l1 l2 = lex Z.ltb (drop c l1) (drop c l2).
Proof.
  revert l1 l2. induction c as [|c IH]; intros l1 l2 Ht H1 H2; [by rewrite !drop_0|].
  destruct l1 as [|x l1], l2 as [|y l2]; simpl in *; try lia. injection Ht as -> Ht.
  rewrite Z.ltb_irrefl. simpl. apply IH; [done|lia|lia].
Qed.

Lemma drop_lookup {B} (l : list B) (c : nat) x : l !! c = Some x -> drop c l = x :: drop (S c) l.
Proof. intros Hx. by apply drop_S. Qed.

(** A prefix is not above, and a smaller next word is below. *)
Lemma lex_next (c : nat) (l1 l2 : list Z) : take c l1 = take c l2 -> (c <= length l1)%nat -> (c <= length l2)%nat ->
  (length l1 = c \/ exists x y, l1 !! c = Some x /\ l2 !! c = Some y /\ x < y) -> lex Z.ltb l2 l1 = false.
Proof.
  intros Ht H1 H2 Hc. rewrite (lex_prefix c) by done. destruct Hc as [Hc|(x & y & Hx & Hy & Hlt)].
  - rewrite (drop_ge l1) by lia. by destruct (drop c l2).
  - rewrite (drop_lookup _ _ _ Hx), (drop_lookup _ _ _ Hy). simpl. destruct (Z.ltb_spec y x), (Z.ltb_spec x y); (done || lia).
Qed.

(** ** The common prefix *)
Section Prefix.
Context {W : Type} (e : element_key W).
Implicit Types (first l : list W).

Abbreviation words := (fmap (M := list) (element_word e)).

(** The words from [a] to [b] agree. *)
Definition agrees (first l : list W) (a b : nat) : Prop := forall i, (a <= i < b)%nat -> words first !! i = words l !! i.

Lemma differs_from_spec first l n i : (i + n <= length first)%nat -> (i + n <= length l)%nat ->
  exists c, differs_from e first l n i = Some c /\ (i <= c <= i + n)%nat /\ agrees first l i c.
Proof.
  revert i. induction n as [|n IH]; intros i H1 H2; cbn [differs_from]; [exists i; split; [done|split; [lia|intros j; lia]]|].
  destruct (lookup_lt_is_Some_2 first i) as [x Hx]; [lia|]. destruct (lookup_lt_is_Some_2 l i) as [y Hy]; [lia|].
  rewrite Hx, Hy. simpl. destruct (Z.eqb_spec (element_word e x) (element_word e y)) as [E|_]; [|exists i; split; [done|split; [lia|intros j; lia]]].
  destruct (IH (S i)) as (c & -> & Hc & Ha); [lia|lia|]. exists c. split; [done|]. split; [lia|].
  intros j Hj. destruct (decide (j = i)) as [-> | ]; [|apply Ha; lia]. rewrite !list_lookup_fmap, Hx, Hy. simpl. by rewrite E.
Qed.

Lemma prefix_loop_spec first start_index largest_match rest :
  (start_index < largest_match <= length first)%nat -> Forall (fun l => (start_index <= length l)%nat) rest ->
  exists c, prefix_loop e first start_index largest_match rest = Some c /\ (start_index <= c <= largest_match)%nat /\
    Forall (fun l => (c <= length l)%nat /\ agrees first l start_index c) rest.
Proof.
  revert largest_match. induction rest as [|l rest IH]; intros m Hm Hrest; cbn [prefix_loop]; [exists m; split; [done|split; [lia|constructor]]|].
  apply Forall_cons in Hrest as [Hl Hrest].
  assert (Hstop : exists c, Some start_index = Some c /\ (start_index <= c <= m)%nat /\
    Forall (fun l => (c <= length l)%nat /\ agrees first l start_index c) (l :: rest)).
  { exists start_index. split; [done|]. split; [lia|]. constructor; [split; [done|intros i; lia]|].
    eapply Forall_impl; [exact Hrest|]. intros l' Hl'. split; [done|intros i; lia]. }
  set (m' := if (length l <? m)%nat then length l else m). destruct ((length l <? m)%nat && (m' =? start_index)%nat) eqn:Hs; [exact Hstop|].
  assert (Hm' : (start_index < m')%nat /\ (m' <= m)%nat /\ (m' <= length l)%nat).
  { unfold m' in *. destruct (Nat.ltb_spec (length l) m); simpl in Hs; [apply Nat.eqb_neq in Hs|]; lia. }
  destruct (lookup_lt_is_Some_2 first start_index) as [x Hx]; [lia|]. destruct (lookup_lt_is_Some_2 l start_index) as [y Hy]; [lia|].
  rewrite Hx, Hy. simpl. destruct (Z.eqb_spec (element_word e x) (element_word e y)) as [E|_]; [|exact Hstop].
  destruct (differs_from_spec first l (m' - S start_index) (S start_index)) as (m'' & -> & Hm'' & Ha); [lia|lia|]. simpl.
  destruct (IH m'') as (c & -> & Hc & Hf); [lia|done|]. exists c. split; [done|]. split; [lia|]. constructor; [|done]. split; [lia|].
  intros i Hi. destruct (decide (i = start_index)) as [-> | ]; [|apply Ha; lia]. rewrite !list_lookup_fmap, Hx, Hy. simpl. by rewrite E.
Qed.

(** Every list has the prefix found. *)
Lemma CommonPrefix_spec lists start_index : lists <> [] -> Forall (fun l => (start_index <= length l)%nat) lists ->
  exists c, CommonPrefix e lists start_index = Some c /\ (start_index <= c)%nat /\
    Forall (fun l => (c <= length l)%nat) lists /\ forall l l', l ∈ lists -> l' ∈ lists -> agrees l l' start_index c.
Proof.
  intros Hne Hl. destruct lists as [|first rest]; [done|]. apply Forall_cons in Hl as [Hfirst Hrest]. cbn [CommonPrefix].
  destruct (Nat.eqb_spec (length first) start_index) as [E|E].
  - exists start_index. split; [done|]. split; [lia|]. split; [by constructor|]. intros l l' _ _ i. lia.
  - destruct (prefix_loop_spec first start_index (length first) rest) as (c & -> & Hc & Hf); [lia|done|].
    exists c. split; [done|]. split; [lia|].
    assert (Hall : Forall (fun l => (c <= length l)%nat /\ agrees first l start_index c) (first :: rest)) by (constructor; [split; [lia|done]|done]).
    split; [eapply Forall_impl; [exact Hall|by intros l []]|]. rewrite Forall_forall in Hall. intros l l' Hin Hin' i Hi.
    destruct (Hall l Hin) as [_ H1], (Hall l' Hin') as [_ H2]. by rewrite <- (H1 i Hi), (H2 i Hi).
Qed.

Lemma take_agrees first l (a b : nat) : (a <= b)%nat -> take a (words first) = take a (words l) -> agrees first l a b ->
  take b (words first) = take b (words l).
Proof.
  intros Hab Ht Ha. apply list_eq. intros i. destruct (decide (i < b)%nat).
  - rewrite !lookup_take_lt by done. destruct (decide (i < a)%nat); [|apply Ha; lia].
    rewrite <- (lookup_take_lt (words first) a i), Ht by done. by apply lookup_take_lt.
  - by rewrite !lookup_take_ge by lia.
Qed.
End Prefix.

(** ** The sort *)
Section ListSorts.
Context {A W : Type} `{StdSort A} `{StdPartitionLaws A}.
Context (ok : A -> Prop) (lt : A -> A -> bool) (rank : A -> Z) (Hstd : std_sorts_by ok lt rank).
Context (NumBytes : nat) (Hbytes : NumBytes <> 0%nat) (f : W -> Z) (Hf : forall w, 0 <= f w < 2 ^ (8 * Z.of_nat NumBytes)).
Context (list_key : A -> list W).

Abbreviation e := (SizedElement NumBytes f).
Abbreviation R := (fun x y => rank x <= rank y).

(** The words of a key. *)
Definition key_words (x : A) : list Z := f <$> list_key x.

Lemma key_words_length x : length (key_words x) = length (list_key x).
Proof using Type. apply length_fmap. Qed.

(** In the ranges sorted the keys before agree, and this one is next to decide. *)
Context (E : A -> A -> Prop).
Context (HR : forall x y, ok x -> ok y -> E x y -> lex Z.ltb (key_words y) (key_words x) = false -> rank x <= rank y).
Context (next_sort : option (list A -> option (list A))).
Context (Hnext_sort : match next_sort with
  | Some g => sorts ok rank (nonempty (alike (fun x y => E x y /\ key_words x = key_words y))) g
  | None => forall x y, ok x -> ok y -> E x y -> key_words x = key_words y -> rank x = rank y
  end).

(** Lists with the same first [c] words, and that many at least. *)
Definition same_first (c : nat) (x y : A) : Prop :=
  E x y /\ take c (key_words x) = take c (key_words y) /\ (c <= length (key_words x))%nat /\ (c <= length (key_words y))%nat.

Definition word_at (c : nat) (x : A) : Z := default 0 (f <$> list_key x !! c).

Lemma word_at_range c x : 0 <= word_at c x < 2 ^ (8 * Z.of_nat NumBytes).
Proof using Hf. clear Hbytes. unfold word_at. destruct (list_key x !! c); simpl; [apply Hf|]. pose proof (Z.pow_pos_nonneg 2 (8 * Z.of_nat NumBytes)). lia. Qed.

Lemma word_at_lookup c x : (c < length (key_words x))%nat -> key_words x !! c = Some (word_at c x).
Proof using Type.
  unfold key_words, word_at. rewrite length_fmap, list_lookup_fmap. intros Hc.
  by destruct (lookup_lt_is_Some_2 (list_key x) c Hc) as [w ->].
Qed.

(** The longer lists, by the word at [c]. *)
Definition longer_than (c : nat) (x y : A) : Prop :=
  same_first c x y /\ (c < length (key_words x))%nat /\ (c < length (key_words y))%nat.

Lemma sort_longer c g : sorts ok rank (nonempty (alike (same_first (S c)))) g ->
  sorts ok rank (alike (longer_than c)) (sort_range (StdSortFallback lt) (InplaceSorter_sort lt (element_sub_key e list_key c) (Some g))).
Proof using Type*.
  intros Hg. apply (sort_range_sorts ok lt rank Hstd), sorts_nonempty. cbn [InplaceSorter_sort element_sub_key].
  assert (Hk : exists k, NumBytes = S k) by (exists (NumBytes - 1)%nat; lia). destruct Hk as [k Hk].
  replace (unsigned_sort lt NumBytes (fun x : A => default 0 (f <$> list_key x !! c)) (Some g) NumBytes 0)
    with (unsigned_sort lt NumBytes (word_at c) (Some g) (S k) 0) by by rewrite <- Hk.
  intros arr Hok Ha. apply (unsigned_sort_sorts ok lt rank Hstd NumBytes (word_at c) (longer_than c)); [| |lia|done|].
  - intros x y Hx Hy ([HE [Ht _]] & Hlx & Hly) Hw. apply HR; [done..|]. apply (lex_next c); [done|lia|lia|]. right.
    exists (word_at c x), (word_at c y). by rewrite !word_at_lookup.
  - intros r Hokr [Hne Hr]. apply Hg; [done|]. split; [done|]. intros x y Hx Hy.
    destruct (Hr x y Hx Hy) as [([HE [Ht _]] & Hlx & Hly) Hw]. split; [done|]. split; [|lia].
    by rewrite (take_S_r _ _ _ (word_at_lookup c x Hlx)), (take_S_r _ _ _ (word_at_lookup c y Hly)), Ht, Hw.
  - intros x y Hx Hy. split; [by apply Ha|]. apply agree_zero. intros z. apply word_at_range.
Qed.

(** The lists that end after the common prefix are equal. *)
Lemma sort_shorter c arr : Forall ok arr -> alike (same_first c) arr -> (forall x, x ∈ arr -> length (key_words x) = c) ->
  exists arr', match next_sort with None => Some arr | Some next => sort_range (StdSortFallback lt) next arr end = Some arr' /\
    arr' ≡ₚ arr /\ StronglySorted R arr'.
Proof using Type*.
  intros Hok Ha Hc.
  assert (Heq : alike (fun x y => E x y /\ key_words x = key_words y) arr).
  { intros x y Hx Hy. destruct (Ha x y Hx Hy) as (HE & Ht & _). split; [done|].
    rewrite <- (take_ge (key_words x) c), <- (take_ge (key_words y) c); [done|by rewrite Hc..]. }
  destruct next_sort as [g|].
  - apply (sort_range_sorts ok lt rank Hstd _ g Hnext_sort); done.
  - exists arr. split; [done|]. split; [done|]. apply sorted_alike. rewrite Forall_forall in Hok.
    intros x y Hx Hy. destruct (Heq x y Hx Hy). apply Hnext_sort; auto.
Qed.

Lemma list_sort_sorts limit c : limit <> 0%nat -> sorts ok rank (nonempty (alike (same_first c))) (list_sort lt e list_key limit next_sort c).
Proof using Type*.
  revert c. induction limit as [|limit IH]; intros c Hl arr Hok [Hne Ha]; [done|]. cbn [list_sort].
  destruct (CommonPrefix_spec e (list_key <$> arr) c) as (d & -> & Hcd & Hlen & Hagree).
  { by destruct arr. }
  { apply Forall_fmap, Forall_forall. intros x Hx. destruct (Ha x x Hx Hx) as (_ & _ & Hc & _). by rewrite key_words_length in Hc. }
  assert (Hd : alike (same_first d) arr).
  { intros x y Hx Hy. destruct (Ha x y Hx Hy) as (HE & Ht & _). rewrite Forall_fmap, Forall_forall in Hlen.
    split; [done|]. split; [|rewrite !key_words_length; split; by apply Hlen].
    apply (take_agrees e _ _ c d Hcd Ht), Hagree; by apply list_elem_of_fmap_2. }
  cbn [mbind option_bind]. destruct (std_partition_ok (fun x => (length (list_key x) <=? d)%nat) arr) as (l1 & l2 & -> & Hp & T1 & T2).
  rewrite take_app_length, drop_app_length. rewrite <- Hp in Hok. apply Forall_app in Hok as [Ok1 Ok2]. rewrite Forall_forall in T1, T2.
  assert (Hin : forall x, x ∈ l1 \/ x ∈ l2 -> x ∈ arr) by (intros x; by rewrite <- Hp, elem_of_app).
  assert (Hshort : forall x, x ∈ l1 -> length (key_words x) = d).
  { intros x Hx. destruct (Hd x x) as (_ & _ & Hc & _); [auto..|]. pose proof (T1 x Hx) as Hle%Nat.leb_le. rewrite key_words_length in *. lia. }
  assert (Hlong : forall x, x ∈ l2 -> (d < length (key_words x))%nat).
  { intros x Hx. pose proof (T2 x Hx) as Hle%Nat.leb_gt. by rewrite key_words_length. }
  destruct (sort_shorter d l1 Ok1) as (s1 & -> & P1 & S1); [intros x y Hx Hy; apply Hd; auto|done|].
  assert (Hg : sorts ok rank (nonempty (alike (same_first (S d)))) (fun range => match limit with
    | O => Some (StdSortFallback lt range) | S _ => list_sort lt e list_key limit next_sort (S d) range end)).
  { intros r Hokr Hr. destruct limit as [|limit']; [|by apply IH]. exists (StdSortFallback lt r). split; [done|]. by apply Hstd. }
  destruct (sort_longer d _ Hg l2 Ok2) as (s2 & -> & P2 & S2).
  { intros x y Hx Hy. split; [apply Hd; auto|]. split; by apply Hlong. }
  exists (s1 ++ s2). split; [done|]. split; [by rewrite P1, P2|]. apply StronglySorted_app_2; [|done..].
  rewrite Forall_forall in Ok1, Ok2. intros x y. rewrite P1, P2. intros Hx Hy. destruct (Hd x y) as (HE & Ht & Hlx & Hly); [auto..|].
  apply HR; [auto..|]. apply (lex_next d); [done|done|done|]. left. by apply Hshort.
Qed.
End ListSorts.

(** ** The order of lists, by the ranks of their elements *)
Section ByRanks.
Context (lt : Z -> Z -> bool) (P : Z -> Prop) (f : Z -> Z) (Hlt : forall x y, P x -> P y -> lt x y = (f x <? f y)).

Lemma lex_fmap l1 l2 : Forall P l1 -> Forall P l2 -> lex lt l1 l2 = lex Z.ltb (f <$> l1) (f <$> l2).
Proof using Hlt.
  intros H1. revert l2. induction H1 as [|x l1 Hx H1 IH]; intros l2 H2; destruct H2 as [|y l2 Hy H2]; try done. simpl.
  by rewrite (Hlt x y), (Hlt y x), IH.
Qed.

(** Lists not longer than [n] of elements whose ranks have [bits] bits. *)
Lemma lex_list_rank bits n l1 l2 : 0 <= bits -> (forall x, P x -> 0 <= f x < 2 ^ bits) ->
  Forall P l1 -> Forall P l2 -> (length l1 <= n)%nat -> (length l2 <= n)%nat ->
  lex lt l1 l2 = (list_rank bits n (f <$> l1) <? list_rank bits n (f <$> l2)).
Proof using Hlt.
  intros Hb Hf H1 H2 Hn1 Hn2. rewrite lex_fmap by done.
  apply list_rank_lex; rewrite ?length_fmap; try done; apply Forall_fmap; (eapply Forall_impl; [eassumption|exact Hf]).
Qed.
End ByRanks.

Lemma bounded_list (l : list Z) : exists M, 0 <= M /\ Forall (fun v => Z.abs v <= M) l.
Proof.
  induction l as [|v l (M & HM & Hl)]; [by exists 0|]. exists (Z.max (Z.abs v) M). split; [lia|]. constructor; [lia|].
  eapply Forall_impl; [exact Hl|]. simpl. lia.
Qed.

(** ** Scalars that [operator<] compares *)

(** Any but NaN. *)
Definition comparable (k : scalar) (v : Z) : Prop :=
  match k with Float | Double => is_nan (width (size_of k)) (fraction_bits k) v = false | _ => True end.
Definition scalar_value (k : scalar) (v : Z) : Z :=
  match k with Float | Double => value (width (size_of k)) (fraction_bits k) v | _ => v end.

Lemma scalar_lt_value k v1 v2 : comparable k v1 -> comparable k v2 ->
  scalar_lt k v1 v2 = (scalar_value k v1 <? scalar_value k v2).
Proof. destruct k; try done; simpl; unfold ieee_lt; intros -> ->; done. Qed.

(** [std::sort] permutes lists of such scalars. *)
Lemma std_permutes_lists {A} `{StdSortLaws A} k (list_key : A -> list Z) arr :
  Forall (fun x => Forall (comparable k) (list_key x)) arr ->
  std_sorts_by (fun x => x ∈ arr) (list_lt k list_key) (fun _ => 0).
Proof.
  intros Hok. destruct (bounded_list (scalar_value k <$> (arr ≫= list_key))) as (M & HM & Hb).
  set (f v := scalar_value k v + M). set (P v := comparable k v /\ 0 <= f v < 2 ^ (2 * M)).
  set (n := max_list (length <$> (list_key <$> arr))).
  apply (std_permutes _ _ (fun x => list_rank (2 * M) n (f <$> list_key x))). intros x y Hx Hy.
  assert (HP : forall z, z ∈ arr -> Forall P (list_key z)).
  { intros z Hz. rewrite Forall_fmap, Forall_forall in Hb. rewrite Forall_forall in Hok. apply Forall_forall. intros v Hv.
    split; [pose proof (Hok z Hz) as Hk; rewrite Forall_forall in Hk; by apply Hk|].
    assert (Hv' : v ∈ arr ≫= list_key) by (apply list_elem_of_bind; by exists z). specialize (Hb v Hv'). simpl in Hb.
    unfold f. pose proof (Z.pow_gt_lin_r 2 (2 * M)). lia. }
  assert (Hn : forall z, z ∈ arr -> (length (list_key z) <= n)%nat)
    by (intros z Hz; apply max_list_elem_of_le, list_elem_of_fmap_2, list_elem_of_fmap_2, Hz).
  apply (lex_list_rank _ P); auto; [|lia|by intros v []]. intros v1 v2 [H1 _] [H2 _]. rewrite scalar_lt_value by done.
  unfold f. apply Bool.eq_iff_eq_true. rewrite !Z.ltb_lt. lia.
Qed.

(** ** The sort of lists of scalars, for a rank that the words decide *)
Section Scalars.
Context {A : Type} `{StdSort A} `{StdPartitionLaws A} (k : scalar) (list_key : A -> list Z).
Abbreviation words := (key_words (to_unsigned_or_bool k) list_key).
Context (ok : A -> Prop) (rank : A -> Z) (Hstd : std_sorts_by ok (list_lt k list_key) rank).
Context (Hle : forall x y, ok x -> ok y -> lex Z.ltb (words y) (words x) = false -> rank x <= rank y).
Context (Heq : forall x y, ok x -> ok y -> words x = words y -> rank x = rank y).

Lemma ska_sort_scalars_by arr : Forall ok arr -> exists arr',
  ska_sort_scalars k list_key arr = Some arr' /\ arr' ≡ₚ arr /\ StronglySorted (fun x y => rank x <= rank y) arr'.
Proof using Type*.
  intros Hok.
  assert (Hs : sorts ok rank (alike (same_first (to_unsigned_or_bool k) list_key (fun _ _ => True) 0)) (ska_sort_scalars k list_key)).
  { apply (sort_range_sorts ok _ rank Hstd). apply (list_sort_sorts ok _ rank Hstd); [by destruct k as [[]|[]|[]| |]|apply to_unsigned_range|auto..|done]. }
  apply Hs; [done|]. intros x y _ _. split; [done|]. split; [done|lia].
Qed.
End Scalars.

(** [C40] [ska_sort] of strings, vectors and arrays of scalars.  On ranges of lists
    of any lengths, of integers of any width, plain characters of either sign among
    them, or of floating-point numbers that are not NaN, it is never undefined (the
    common prefixes are real, [std::sort] takes over after sixteen elements, and
    every list has the elements that are read) and returns a permutation of the
    range.  When no element is a negative plain character or the negative zero, whose
    words are not in the order of their values, the permutation is sorted by the
    [operator<] of the lists, the lexicographic one.  Lists of [bool] are not
    lists of scalars here: on those it can be undefined ([bool_lists_undefined]). *)
Theorem ska_sort_list_sorts {A} `{StdSortLaws A} `{StdPartitionLaws A} k (list_key : A -> list Z) arr :
  Forall (fun x => Forall (comparable k) (list_key x)) arr ->
  exists arr', ska_sort_scalars k list_key arr = Some arr' /\ arr' ≡ₚ arr /\
    (Forall (fun x => Forall (scalar_ok k) (list_key x)) arr ->
     StronglySorted (fun x y => list_lt k list_key y x = false) arr').
Proof.
  intros Hcmp. pose proof (std_permutes_lists k list_key arr Hcmp) as Hstd0.
  destruct (ska_sort_scalars_by k list_key _ (fun _ => 0) Hstd0) with (arr := arr) as (arr' & E & Hp & _);
    [done|done|by apply Forall_forall|].
  exists arr'. split; [done|]. split; [done|]. intros Hok.
  set (f := to_unsigned_or_bool k). set (bits := width (size_of k)). set (n := max_list (length <$> (list_key <$> arr))).
  set (ok x := x ∈ arr). set (rank x := list_rank bits n (key_words f list_key x)). rewrite Forall_forall in Hok.
  assert (Hb : 0 <= bits) by (pose proof (width_pos (size_of k)); unfold bits; lia).
  assert (Hn : forall x, ok x -> (length (list_key x) <= n)%nat)
    by (intros x Hx; apply max_list_elem_of_le, list_elem_of_fmap_2, list_elem_of_fmap_2, Hx).
  assert (Hlex : forall x y, ok x -> ok y -> lex Z.ltb (key_words f list_key x) (key_words f list_key y) = (rank x <? rank y)).
  { intros x y Hx Hy. apply list_rank_lex; rewrite ?key_words_length; auto;
      (apply Forall_fmap, Forall_true; intros w; apply to_unsigned_range). }
  assert (Hlt : forall x y, ok x -> ok y -> list_lt k list_key x y = (rank x <? rank y)).
  { intros x y Hx Hy. rewrite <- Hlex by done. apply (lex_fmap _ (scalar_ok k)); auto using to_unsigned_lt. }
  destruct (ska_sort_scalars_by k list_key ok rank (std_sorts _ _ _ Hlt)) with (arr := arr) as (arr2 & E2 & _ & Hsort).
  - intros x y Hx Hy Hl. fold f in Hl. rewrite (Hlex y x Hy Hx) in Hl. by apply Z.ltb_ge in Hl.
  - intros x y _ _ Hxy. unfold rank. fold f in Hxy. by rewrite Hxy.
  - by apply Forall_forall.
  - rewrite E in E2. injection E2 as <-. eapply StronglySorted_in; [|exact Hsort]. intros x y Hx Hy Hle.
    rewrite Hp in Hx, Hy. rewrite Hlt by done. by apply Z.ltb_ge.
Qed.

(** ** Runs *)
Section Runs.
#[local] Existing Instance InsertionSort.insertion.
#[local] Existing Instance InsertionSort.insertion_laws.
#[local] Existing Instance InsertionSort.partition_filter.
#[local] Existing Instance InsertionSort.partition_laws.

(** Byte strings with a common prefix, some of them prefixes of others. *)
Definition strings : list (list Z) := (fun i => [7; 7] ++ take (i mod 4) [Z.of_nat i mod 3; (Z.of_nat i * 37) mod 256; Z.of_nat i mod 256]) <$> seq 0 400.

Example string_run : ska_sort_scalars (Unsigned S1) id strings = Some (std_sort (list_lt (Unsigned S1) id) strings).
Proof. by vm_compute. Qed.

(** Vectors of plain characters from -100 to 99. *)
Definition char_lists : list (list Z) := (fun i => [Z.of_nat i * 7 mod 200 - 100]) <$> seq 0 200.

(** They do not come out sorted, while 100 of them, left to [std::sort], do. *)
Example char_lists_unsorted :
  (r ← ska_sort_scalars (Plain S1) id char_lists; Some (head r, last r)) = Some (Some [0], Some [-1]) /\
  ska_sort_scalars (Plain S1) id (take 100 char_lists) = Some (std_sort (list_lt (Plain S1) id) (take 100 char_lists)).
Proof. split; by vm_compute. Qed.

Lemma ska_sort_list_sorts_witness :
  (exists arr, ska_sort_scalars (Unsigned S1) id strings = Some arr /\ arr ≡ₚ strings /\
    StronglySorted (fun x y => list_lt (Unsigned S1) id y x = false) arr) /\
  exists arr, ska_sort_scalars (Plain S1) id char_lists = Some arr /\ arr ≡ₚ char_lists.
Proof.
  assert (Hs : Forall (fun x : list Z => Forall (scalar_ok (Unsigned S1)) (id x)) strings).
  { apply Forall_fmap, Forall_true. intros i. simpl. repeat (constructor; [simpl; unfold width; simpl; lia|]).
    apply Forall_take. repeat (constructor; [simpl; unfold width; simpl; pose proof (Z.mod_pos_bound (Z.of_nat i) 3);
      pose proof (Z.mod_pos_bound (Z.of_nat i * 37) 256); pose proof (Z.mod_pos_bound (Z.of_nat i) 256); lia|]). constructor. }
  assert (Hc : forall k, k = Unsigned S1 \/ k = Plain S1 -> forall arr : list (list Z),
    Forall (fun x => Forall (comparable k) (id x)) arr)
    by (intros k Hk arr; do 2 (apply Forall_true; intros ?); by destruct Hk as [-> | ->]).
  split.
  - destruct (ska_sort_list_sorts (Unsigned S1) id strings (Hc _ (or_introl eq_refl) _)) as (arr & E & Hp & Hsort).
    exists arr. split; [exact E|]. split; [exact Hp|exact (Hsort Hs)].
  - destruct (ska_sort_list_sorts (Plain S1) id char_lists (Hc _ (or_intror eq_refl) _)) as (arr & E & Hp & _).
    exists arr. split; [exact E|exact Hp].
Defined.

(** Vectors of pairs of 32-bit words. *)
Definition pair_lt (x y : Z * Z) : bool := (x.1 <? y.1) || (negb (y.1 <? x.1) && (x.2 <? y.2)).
Definition sort_pair_lists (arr : list (list (Z * Z))) : option (list (list (Z * Z))) :=
  ska_sort_list (lex pair_lt) (SizedElement 4 fst) id arr.

(** [ska_sort] does not sort vectors of pairs.  Of an element [CommonPrefix] and
    the sort look at the first component only, so that 200 vectors of one pair each,
    alike in their first components and in descending order of the second, come out
    as they went in, while 100 of them, left to [std::sort], are sorted. *)
Theorem pair_lists_unsorted :
  let descending n := (fun i => [(1, Z.of_nat (n - i))]) <$> seq 0 n in
  sort_pair_lists (descending 200%nat) = Some (descending 200%nat) /\
  (forall x y, head (descending 200%nat) = Some x -> last (descending 200%nat) = Some y -> lex pair_lt y x = true) /\
  sort_pair_lists (descending 100%nat) = Some (rev (descending 100%nat)).
Proof. split; [by vm_compute|]. split; [|by vm_compute]. intros x y [= <-] [= <-]. done. Qed.

(** Deques of [bool]: when a group has only [false] at an index, the sort of the
    empty group of [true] reads the list at its beginning, the end of the range. *)
Example bool_lists_undefined :
  ska_sort_list (lex (fun a b => negb a && b)) (BoolElement id) id ([] :: replicate 130 [false]) = None.
Proof. by vm_compute. Qed.
End Runs.
