(* ===== verification/DenseSet.v ===== *)
(** * The location set on its hash table

    [LocationHashVectorSet] ([tl2/op.h]) with [m_map] the table of [unordered_dense.h]:
    [LocSets.HashVectorSet] takes the map as a finite map, here it is the table itself.
    The two do the same, as long as a transaction accesses fewer than 2^24 - 5
    addresses. *)

From S2P Require Import Prelude VersionLock LockTable Store Op LocSets DenseTable DenseRing DenseProof.
Import Dense.
#[local] Open Scope tl2_scope.

(** [ankerl::hash<addr_t>], which [mixed_hash] uses as it is. *)
Definition addr_hash (x : addr_t) : Z := WyHash.hash (W64.wrap x).

(** An exception of the table, or undefined behaviour, is [None]. *)
Definition defined {A} (r : result A) : option A := match r with Ok a => Some a | _ => None end.

Module DenseSet.
Section DS.
Context `{AddrSort}.

Record dset := Mk { m_vec : list Location; m_map : table addr_t nat }.

Definition empty : dset := Mk [] make.
Definition clear (d : dset) : dset := Mk [] (Dense.clear (m_map d)).

Definition register_write {V} (x : addr_t) (v : V) (d : dset) (st : Store.store V) : option (dset * Store.store V) :=
  itr ← defined (find addr_hash (m_map d) x);
  match itr with
  | Some i =>
      loc ← m_vec d !! i;
      '(loc', st') ← Loc.write v loc st;
      Some (Mk (<[i := loc']> (m_vec d)) (m_map d), st')
  | None =>
      '(map', _) ← defined (emplace addr_hash (m_map d) x (length (m_vec d)));
      '(loc', st') ← Loc.write v (Loc.make x) st;
      Some (Mk (m_vec d ++ [loc']) map', st')
  end.

Definition register_read (t : tid_t) (tbl : gmap Z Z) (x : addr_t) (d : dset) : option dset :=
  itr ← defined (find addr_hash (m_map d) x);
  match itr with
  | Some i =>
      loc ← m_vec d !! i;
      loc' ← Loc.read t tbl loc;
      Some (Mk (<[i := loc']> (m_vec d)) (m_map d))
  | None =>
      '(map', _) ← defined (emplace addr_hash (m_map d) x (length (m_vec d)));
      loc' ← Loc.read t tbl (Loc.make x);
      Some (Mk (m_vec d ++ [loc']) map')
  end.

Definition stable_sort (d : dset) : dset := Mk (addr_sort (m_vec d)) (m_map d).

(** [None]: undefined; [Some None]: no write. *)
Definition find_write (x : addr_t) (d : dset) : option (option Z) :=
  itr ← defined (find addr_hash (m_map d) x);
  match itr with
  | Some i => loc ← m_vec d !! i; Some (if m_written loc then Some (val_addr (write_val loc)) else None)
  | None => Some None
  end.

(** ** The same set *)

Record rep (d : dset) (l : HashVectorSet.hvset) : Prop := {
  r_table : table_ok addr_hash (m_map d);
  r_map : as_map (m_map d) = HashVectorSet.m_map l;
  r_vec : m_vec d = HashVectorSet.m_vec l;
  r_size : length (m_values (m_map d)) = length (m_vec d);
  r_wf : HashVectorSet.wf l }.

Definition room (l : HashVectorSet.hvset) : Prop := Z.of_nat (length (HashVectorSet.m_vec l)) < 2 ^ 24 - 5.

Lemma addr_hash_range x : W64.in_range (addr_hash x).
Proof. apply WyHash.hash_range, W64.wrap_range. Qed.

Lemma dset_rep_empty : rep empty HashVectorSet.empty.
Proof. constructor; try done; [apply make_ok|]. intros x i. simpl. rewrite lookup_empty. split; [done|]. by intros (? & ? & ?). Qed.

Section Ops.
Context (d : dset) (l : HashVectorSet.hvset) (Hr : rep d l) (Hroom : room l).

Lemma rep_small : small (m_map d).
Proof using Hr Hroom. unfold small. rewrite (r_size _ _ Hr), (r_vec _ _ Hr). exact Hroom. Qed.

Lemma find_eq x : find addr_hash (m_map d) x = Ok (HashVectorSet.m_map l !! x).
Proof using Hr Hroom.
  rewrite <- (r_map _ _ Hr). apply table_find_spec; [apply Hr|apply rep_small|apply addr_hash_range].
Qed.

Lemma emplace_eq x loc : HashVectorSet.m_map l !! x = None -> m_addr loc = x -> exists map' r,
  emplace addr_hash (m_map d) x (length (m_vec d)) = Ok (map', r) /\
  rep (Mk (m_vec d ++ [loc]) map') (HashVectorSet.Mk (HashVectorSet.m_vec l ++ [loc]) (<[x := length (HashVectorSet.m_vec l)]> (HashVectorSet.m_map l))).
Proof using Hr Hroom.
  intros Hx Ha. destruct (emplace_spec addr_hash (m_map d) x (length (m_vec d)) (r_table _ _ Hr) rep_small (addr_hash_range x))
    as [(i & kv & _ & _ & Hv & <-)|(Hno & map' & E & Hok & Hval)].
  - pose proof (as_map_lookup (m_map d) _ _ (ok_keys _ _ (r_table _ _ Hr)) Hv) as Hk. rewrite (r_map _ _ Hr) in Hk. congruence.
  - exists map', (Z.of_nat (length (m_values (m_map d))), true). split; [exact E|]. constructor; simpl.
    + exact Hok.
    + by rewrite (as_map_snoc _ _ _ _ Hno Hval), (r_map _ _ Hr), (r_vec _ _ Hr).
    + by rewrite (r_vec _ _ Hr).
    + rewrite Hval, !length_app, (r_size _ _ Hr). done.
    + by apply HashVectorSet.append_spec; [apply Hr| |].
Qed.

Lemma rep_replace x i loc loc' : HashVectorSet.m_map l !! x = Some i -> HashVectorSet.m_vec l !! i = Some loc -> m_addr loc' = m_addr loc ->
  rep (Mk (<[i := loc']> (HashVectorSet.m_vec l)) (m_map d)) (HashVectorSet.Mk (<[i := loc']> (HashVectorSet.m_vec l)) (HashVectorSet.m_map l)).
Proof using Hr.
  intros Hx Hi Ha. constructor; simpl; try apply Hr; [done|by rewrite length_insert, <- (r_vec _ _ Hr), (r_size _ _ Hr)|].
  by eapply HashVectorSet.wf_replace; [apply Hr|..].
Qed.
End Ops.

(** The results of the same operation on both: both undefined or waiting, or related. *)
Definition same_read (r : option dset) (r' : option HashVectorSet.hvset) : Prop :=
  match r, r' with Some d', Some l' => rep d' l' | None, None => True | _, _ => False end.
Definition same_write {V} (r : option (dset * Store.store V)) (r' : option (HashVectorSet.hvset * Store.store V)) : Prop :=
  match r, r' with Some (d', st), Some (l', st') => rep d' l' /\ st = st' | None, None => True | _, _ => False end.

(** [C38] The location set on its hash table is the location set on a finite map:
    from the constructor on, every operation of the one is defined when, waits when and
    does what that of the other does, for up to 2^24 - 5 addresses. *)
Theorem dense_set_refines :
  rep empty HashVectorSet.empty /\
  forall d l, rep d l ->
    rep (clear d) HashVectorSet.empty /\ rep (clear (stable_sort d)) HashVectorSet.empty /\
    (room l -> (forall t tbl x, same_read (register_read t tbl x d) (HashVectorSet.register_read t tbl x l)) /\
      (forall V x (v : V) st, same_write (register_write x v d st) (HashVectorSet.register_write x v l st)) /\
      forall x, find_write x d = Some (HashVectorSet.find_write x l)) /\
    m_vec (stable_sort d) = HashVectorSet.m_vec (HashVectorSet.stable_sort l).
Proof.
  split; [apply dset_rep_empty|]. intros d l Hr.
  assert (Hc : forall d', m_map d' = m_map d -> rep (clear d') HashVectorSet.empty).
  { intros d' E. constructor; simpl; rewrite ?E; try done; [apply clear_ok, Hr|apply dset_rep_empty]. }
  split; [by apply Hc|]. split; [by apply Hc|]. split; [|simpl; by rewrite (r_vec _ _ Hr)]. intros Hroom. pose proof (r_vec _ _ Hr) as Ev. split; [|split].
  - intros t tbl x. unfold register_read, HashVectorSet.register_read. rewrite (find_eq d l Hr Hroom). simpl.
    destruct (HashVectorSet.m_map l !! x) as [i|] eqn:Hx; simpl.
    + rewrite Ev. destruct (HashVectorSet.m_vec l !! i) as [loc|] eqn:Hi; simpl; [|done].
      destruct (Loc.read t tbl loc) as [loc'|] eqn:El; simpl; [|done].
      eapply rep_replace; [done..|]. by apply Loc.read_addr in El.
    + destruct (Loc.read t tbl (Loc.make x)) as [loc'|] eqn:El; simpl.
      * destruct (emplace_eq d l Hr Hroom x loc' Hx) as (map' & [i b] & -> & Hrep); [by apply Loc.read_addr in El|exact Hrep].
      * destruct (emplace_eq d l Hr Hroom x (Loc.make x) Hx) as (map' & [i b] & -> & _); done.
  - intros V x v st. unfold register_write, HashVectorSet.register_write. rewrite (find_eq d l Hr Hroom). simpl.
    destruct (HashVectorSet.m_map l !! x) as [i|] eqn:Hx; simpl.
    + rewrite Ev. destruct (HashVectorSet.m_vec l !! i) as [loc|] eqn:Hi; simpl; [|done].
      destruct (Loc.write v loc st) as [[loc' st']|] eqn:El; simpl; [|done].
      split; [|done]. eapply rep_replace; [done..|]. by apply Loc.write_addr in El.
    + destruct (Loc.write v (Loc.make x) st) as [[loc' st']|] eqn:El; simpl.
      * destruct (emplace_eq d l Hr Hroom x loc' Hx) as (map' & [i b] & -> & Hrep); [by apply Loc.write_addr in El|simpl in El |- *; injection El as <- <-; by split].
      * destruct (emplace_eq d l Hr Hroom x (Loc.make x) Hx) as (map' & [i b] & -> & _); done.
  - intros x. unfold find_write, HashVectorSet.find_write. rewrite (find_eq d l Hr Hroom). simpl.
    destruct (HashVectorSet.m_map l !! x) as [i|] eqn:Hx; [|done]. rewrite Ev.
    destruct (proj1 (r_wf _ _ Hr x i) Hx) as (loc & -> & _). done.
Qed.
End DS.
End DenseSet.

(** Two writes, a read of the first address, and the staged values. *)
Section Run.
#[local] Instance keep_order : AddrSort := {| addr_sort l := l |}.

Lemma dense_set_run :
  (d1 ← DenseSet.register_write 4096 7 DenseSet.empty Store.empty;
   d2 ← DenseSet.register_write 8192 8 d1.1 d1.2;
   d3 ← DenseSet.register_read 0 ∅ 4096 d2.1;
   '(v1, v2, v3) ← (x ← DenseSet.find_write 4096 d3; y ← DenseSet.find_write 8192 d3; z ← DenseSet.find_write 64 d3; Some (x, y, z));
   Some ((v1 ≫= fun a => Store.objs (d2.2) !! a), (v2 ≫= fun a => Store.objs (d2.2) !! a), bool_decide (v3 = None))) =
  Some (Some (Store.Live 7), Some (Store.Live 8), true).
Proof. vm_compute. reflexivity. Qed.

Lemma dense_set_refines_witness : exists d l, DenseSet.rep d l /\ length (HashVectorSet.m_vec l) = 1%nat /\
  DenseSet.find_write 4096 d = Some (Some 1) /\ DenseSet.rep (DenseSet.clear d) HashVectorSet.empty.
Proof.
  destruct DenseSet.dense_set_refines as [He Hops].
  destruct (Hops _ _ He) as (_ & _ & Hop & _). destruct (Hop eq_refl) as (_ & Hw & _). specialize (Hw Z 4096 7 Store.empty).
  destruct (DenseSet.register_write 4096 7 DenseSet.empty Store.empty) as [[d st]|]; [|destruct Hw].
  destruct (HashVectorSet.register_write 4096 7 HashVectorSet.empty Store.empty) as [[l st']|] eqn:E; [|destruct Hw].
  vm_compute in E. injection E as <- <-. destruct Hw as [Hr _]. destruct (Hops _ _ Hr) as (Hc & _ & Hop' & _).
  destruct (Hop' eq_refl) as (_ & _ & Hf). eexists d, _. split; [exact Hr|]. split; [reflexivity|].
  split; [rewrite Hf; vm_compute; reflexivity|exact Hc].
Defined.
End Run.
