(* ===== verification/Log.v ===== *)
(** * The transaction log ([tl2/log.h], with [PerThreadPolicy] of [tl2/memory.h])

    A [Log] pairs a location set with the staging store of its values.  Its
    contract is an abstract log: the set of addresses read and the map of the
    values written.  The operations are proved to implement it for every
    location set that satisfies [LocationSetLaws], and [clear] to destroy every
    staged object exactly once. *)

From S2P Require Import Prelude VersionLock LockTable Store Op.

(** ** [PerThreadPolicy::clear] *)
Module PerThreadPolicy.
Fixpoint destroy_all {V} (ls : list Location) (st : Store.store V) : option (Store.store V) :=
  match ls with
  | [] => Some st
  | loc :: r =>
      if m_written loc then
        match Store.destroy (val_addr (write_val loc)) st with
        | Some st' => destroy_all r st'
        | None => None
        end
      else destroy_all r st
  end.

Definition clear {V} (ls : list Location) (st : Store.store V) : option (Store.store V) :=
  match destroy_all ls st with
  | Some st' => Some (Store.release st')
  | None => None
  end.
End PerThreadPolicy.

(** ** The log *)

Record log (LS V : Type) := MkLog { l : LS; store : Store.store V }.
Arguments MkLog {LS V} _ _.
Arguments l {LS V} _.
Arguments store {LS V} _.

Module Log.
Section Ops.
Context {LS V : Type} `{LocationSet LS}.
Abbreviation log := (log LS V).

Definition empty : log := MkLog ls_empty Store.empty.

(** [value_at]: the staged value of an address, if it was written (the pointer
    found in the set, dereferenced as its callers do). *)
Definition value_at (x : addr_t) (lg : log) : option V :=
  match ls_find_write x (l lg) with
  | Some obj => Store.value obj (store lg)
  | None => None
  end.

Definition append_read (t : tid_t) (tbl : gmap Z Z) (x : addr_t) (lg : log) : option log :=
  match ls_register_read t tbl x (l lg) with
  | Some ls' => Some (MkLog ls' (store lg))
  | None => None
  end.

Definition append_write (x : addr_t) (v : V) (lg : log) : option log :=
  match ls_register_write x v (l lg) (store lg) with
  | Some (ls', st') => Some (MkLog ls' st')
  | None => None
  end.

Definition clear (lg : log) : option log :=
  match PerThreadPolicy.clear (ls_locations (l lg)) (store lg) with
  | Some st' => Some (MkLog ls_empty st')
  | None => None
  end.

Definition locations (lg : log) : list Location := ls_locations (l lg).
End Ops.
End Log.

(** ** The abstract log *)

Record alog (V : Type) := ALog { reads : gset addr_t; writes : gmap addr_t V }.
Arguments ALog {V} _ _.
Arguments reads {V} _.
Arguments writes {V} _.

(** The object a location owns in the store. *)
Definition obj_of (loc : Location) : option Z :=
  if m_written loc then Some (val_addr (write_val loc)) else None.

Definition objs_of (ls : list Location) : list Z := omap obj_of ls.

(** The staged value of a location. *)
Definition staged {V} (st : Store.store V) (loc : Location) : option V :=
  if m_written loc then Store.value (val_addr (write_val loc)) st else None.

Section Abstraction.
Context {V : Type}.

Definition abs_locs (ls : list Location) (st : Store.store V) : alog V :=
  ALog (dom (filter (fun p => m_read p.2 = true) (loc_map ls)))
       (omap (staged st) (loc_map ls)).

(** The locations have distinct addresses, own distinct objects, and own every
    object of the store. *)
Record locs_ok (ls : list Location) (st : Store.store V) : Prop := {
  ok_nodup : NoDup (m_addr <$> ls);
  ok_store : Store.wf st;
  ok_objs : NoDup (objs_of ls);
  ok_dom : forall a, is_Some (Store.objs st !! a) <-> a ∈ objs_of ls }.

Lemma objs_of_perm ls ls' : ls ≡ₚ ls' -> objs_of ls ≡ₚ objs_of ls'.
Proof. intros Hp. unfold objs_of. by rewrite Hp. Qed.

Lemma locs_ok_perm ls ls' st : ls ≡ₚ ls' -> locs_ok ls st -> locs_ok ls' st.
Proof.
  intros Hp [Hn Hs Ho Hd]. pose proof (objs_of_perm _ _ Hp) as Hop. constructor.
  - by rewrite <- Hp.
  - done.
  - by rewrite <- Hop.
  - intros a. by rewrite <- Hop.
Qed.

Lemma abs_locs_perm ls ls' st :
  NoDup (m_addr <$> ls) -> ls ≡ₚ ls' -> abs_locs ls st = abs_locs ls' st.
Proof. intros Hn Hp. unfold abs_locs. by rewrite (loc_map_perm ls ls'). Qed.

(** The list of a set, up to order, from its map. *)
Lemma loc_map_list ls : NoDup (m_addr <$> ls) -> ls ≡ₚ (map_to_list (loc_map ls)).*2.
Proof.
  intros Hn. unfold loc_map. rewrite map_to_list_to_map.
  - rewrite <- list_fmap_compose. symmetry. apply Permutation_refl', list_fmap_id.
  - by rewrite <- list_fmap_compose.
Qed.

(** Registering an address replaces its entry, if any, by a new one. *)
Lemma loc_map_step ls ls' x e :
  NoDup (m_addr <$> ls) -> NoDup (m_addr <$> ls') ->
  loc_map ls' = <[x := e]> (loc_map ls) ->
  exists r, ls' ≡ₚ e :: r /\
    ls ≡ₚ match loc_map ls !! x with Some e0 => e0 :: r | None => r end.
Proof.
  intros Hn Hn' Hm. exists (map_to_list (delete x (loc_map ls))).*2. split.
  - rewrite (loc_map_list ls' Hn'), Hm, <- insert_delete_eq.
    rewrite map_to_list_insert by apply lookup_delete_eq. done.
  - rewrite (loc_map_list ls Hn) at 1. destruct (loc_map ls !! x) as [e0|] eqn:E.
    + rewrite <- (map_to_list_delete (loc_map ls) x e0) by done. done.
    + by rewrite delete_id.
Qed.
Lemma objs_of_step ls ls' x e :
  NoDup (m_addr <$> ls) -> NoDup (m_addr <$> ls') ->
  loc_map ls' = <[x := e]> (loc_map ls) ->
  exists r, objs_of ls' ≡ₚ option_list (obj_of e) ++ r /\
    objs_of ls ≡ₚ option_list (obj_of (entry x ls)) ++ r.
Proof.
  intros Hn Hn' Hm. destruct (loc_map_step ls ls' x e Hn Hn' Hm) as (r & Hr' & Hr).
  exists (objs_of r). rewrite (objs_of_perm _ _ Hr'), (objs_of_perm _ _ Hr). unfold entry.
  split; [|destruct (loc_map ls !! x) as [e0|]; simpl; [|done]]; unfold objs_of; simpl.
  - by destruct (obj_of e).
  - by destruct (obj_of e0).
Qed.

(** An entry that keeps its object. *)
Lemma locs_ok_same ls ls' x e st st' :
  locs_ok ls st -> NoDup (m_addr <$> ls') ->
  loc_map ls' = <[x := e]> (loc_map ls) -> obj_of e = obj_of (entry x ls) ->
  Store.wf st' -> (forall a, is_Some (Store.objs st' !! a) <-> is_Some (Store.objs st !! a)) ->
  locs_ok ls' st'.
Proof.
  intros [Hn Hs Ho Hd] Hn' Hm He Hs' Hd'.
  destruct (objs_of_step ls ls' x e Hn Hn' Hm) as (r & Hr' & Hr). rewrite He in Hr'.
  constructor; try done.
  - by rewrite Hr', <- Hr.
  - intros a. by rewrite Hd', Hd, Hr, Hr'.
Qed.

(** An entry that gets a newly constructed object. *)
Lemma locs_ok_new ls ls' x e st v :
  locs_ok ls st -> NoDup (m_addr <$> ls') ->
  loc_map ls' = <[x := e]> (loc_map ls) -> obj_of (entry x ls) = None ->
  obj_of e = Some (Store.next st) ->
  locs_ok ls' (Store.construct v st).2.
Proof.
  intros [Hn Hs Ho Hd] Hn' Hm He0 He.
  destruct (objs_of_step ls ls' x e Hn Hn' Hm) as (r & Hr' & Hr).
  rewrite He in Hr'. rewrite He0 in Hr. simpl in Hr', Hr. constructor; simpl; try done.
  - intros a Ha. simpl in *. destruct (decide (Store.next st = a)) as [<-|Hne]; [lia|].
    rewrite lookup_insert_ne in Ha by done. apply Hs in Ha. lia.
  - rewrite Hr'. constructor; [|by rewrite <- Hr].
    rewrite <- Hr. intros Hin%Hd. rewrite (Store.wf_fresh st Hs) in Hin. by destruct Hin.
  - intros a. rewrite Hr', elem_of_cons, <- Hr.
    destruct (decide (Store.next st = a)) as [<-|Hne].
    + rewrite lookup_insert_eq. split; [by left|eauto].
    + rewrite lookup_insert_ne by done. rewrite Hd. naive_solver.
Qed.

(** *** The abstract log after an entry was replaced *)

Lemma abs_reads_insert (m : gmap addr_t Location) x e :
  m_read e = true ->
  dom (filter (fun p => m_read p.2 = true) (<[x := e]> m))
    =@{gset addr_t} {[x]} ∪ dom (filter (fun p => m_read p.2 = true) m).
Proof.
  intros He. apply set_eq. intros y.
  rewrite elem_of_union, elem_of_singleton, !elem_of_dom. unfold is_Some.
  setoid_rewrite map_lookup_filter_Some. simpl.
  destruct (decide (x = y)) as [->|Hne].
  - rewrite lookup_insert_eq. split; [by left|]. intros _. by exists e.
  - rewrite lookup_insert_ne by done. split; [by right|]. by intros [->|Hr].
Qed.

Lemma abs_reads_same (m : gmap addr_t Location) x e :
  m_read e = m_read (default (Loc.make x) (m !! x)) ->
  dom (filter (fun p => m_read p.2 = true) (<[x := e]> m))
    =@{gset addr_t} dom (filter (fun p => m_read p.2 = true) m).
Proof.
  intros He. apply set_eq. intros y. rewrite !elem_of_dom. unfold is_Some.
  setoid_rewrite map_lookup_filter_Some. simpl.
  destruct (decide (x = y)) as [->|Hne].
  - rewrite lookup_insert_eq. destruct (m !! y) as [e0|]; simpl in He.
    + split; intros (k & [= <-] & Hk); eexists; (split; [done|congruence]).
    + split; intros (k & Hk & Hk'); congruence.
  - rewrite lookup_insert_ne by done. done.
Qed.

Lemma abs_writes_same (m : gmap addr_t Location) x e (st : Store.store V) :
  staged st e = staged st (default (Loc.make x) (m !! x)) ->
  omap (staged st) (<[x := e]> m) = omap (staged st) m.
Proof.
  intros He. apply map_eq. intros y. rewrite !lookup_omap.
  destruct (decide (x = y)) as [->|Hne].
  - rewrite lookup_insert_eq. simpl. rewrite He. by destruct (m !! y).
  - by rewrite lookup_insert_ne.
Qed.
End Abstraction.

(** ** The log implements the abstract log *)
Section Refinement.
Context {LS V : Type} `{LocationSetLaws LS}.
Abbreviation log := (log LS V).
Implicit Types (lg : log) (x : addr_t) (v : V).

Definition abs (lg : log) : alog V := abs_locs (Log.locations lg) (store lg).

(** A log in use by the body of a transaction: no lock is owned and no staged
    value was moved out. *)
Record log_wf (lg : log) : Prop := {
  wf_set : ls_wf (l lg);
  wf_locs : locs_ok (Log.locations lg) (store lg);
  wf_owner : forall loc, loc ∈ Log.locations lg -> m_owner loc = None;
  wf_live : forall a, is_Some (Store.objs (store lg) !! a) ->
    is_Some (Store.value a (store lg)) }.

Lemma empty_wf : log_wf Log.empty.
Proof.
  constructor; unfold Log.locations, Log.empty; simpl.
  - apply ls_empty_wf.
  - rewrite ls_empty_locations. constructor; try constructor.
    + intros a [? E]. done.
    + intros [? E]. done.
    + intros E. by apply elem_of_nil in E.
  - rewrite ls_empty_locations. intros loc E. by apply elem_of_nil in E.
  - intros a [? E]. done.
Qed.

Lemma abs_empty : abs Log.empty = ALog ∅ ∅.
Proof.
  unfold abs, Log.locations, abs_locs, Log.empty. simpl. rewrite ls_empty_locations. simpl.
  done.
Qed.

Lemma wf_entry_owner lg x : log_wf lg -> m_owner (entry x (Log.locations lg)) = None.
Proof.
  intros Hwf. unfold entry. destruct (loc_map _ !! x) as [e|] eqn:E; simpl; [|done].
  apply loc_map_lookup in E as [Hin _]; [|apply Hwf]. by apply Hwf.
Qed.

(** The owners after an entry without owner was put in. *)
Lemma wf_owner_step lg (ls' : LS) x e :
  log_wf lg -> NoDup (m_addr <$> ls_locations ls') -> m_owner e = None ->
  loc_map (ls_locations ls') = <[x := e]> (loc_map (Log.locations lg)) ->
  forall loc, loc ∈ ls_locations ls' -> m_owner loc = None.
Proof.
  intros Hwf Hn' He Hm loc Hin.
  assert (Hl : loc_map (ls_locations ls') !! m_addr loc = Some loc) by by apply loc_map_lookup.
  rewrite Hm in Hl. destruct (decide (x = m_addr loc)) as [Hx|Hx].
  - rewrite <- Hx, lookup_insert_eq in Hl. by simplify_eq.
  - rewrite lookup_insert_ne in Hl by done. apply loc_map_lookup in Hl as [Hl _]; [|apply Hwf].
    by apply Hwf.
Qed.

Lemma append_read_spec t tbl x lg :
  log_wf lg ->
  match Word.get_version (hashtbl_get tbl x) with
  | None => Log.append_read t tbl x lg = None
  | Some _ => exists lg', Log.append_read t tbl x lg = Some lg' /\ log_wf lg' /\
      abs lg' = ALog ({[x]} ∪ reads (abs lg)) (writes (abs lg))
  end.
Proof.
  intros Hwf. pose proof (wf_entry_owner lg x Hwf) as Ho.
  pose proof (ls_register_read_spec t tbl x (l lg) (wf_set _ Hwf) Ho) as Hs.
  pose proof (entry_addr _ x (ok_nodup _ _ (wf_locs _ Hwf))) as Ha.
  unfold Log.append_read. fold (Log.locations lg) in Hs.
  destruct (Loc.read t tbl (entry x (Log.locations lg))) as [e|] eqn:Hr;
    unfold Loc.read, Loc.get_version, Loc.owned in Hr; rewrite Ho, Ha in Hr; simpl in Hr;
    destruct (Word.get_version _) as [ver|]; simplify_eq; [|by rewrite Hs].
  destruct Hs as (ls' & -> & Hls' & Hm). eexists. split; [done|].
  pose proof (ls_wf_nodup ls' Hls') as Hn'. split.
  - constructor; unfold Log.locations; simpl; [done| | |apply Hwf].
    + eapply locs_ok_same; [apply Hwf|done|apply Hm|done|apply Hwf|done].
    + eapply wf_owner_step; [done|done| |apply Hm]. done.
  - unfold abs, abs_locs, Log.locations; simpl. fold (Log.locations lg). rewrite Hm. f_equal.
    + by apply abs_reads_insert.
    + by apply abs_writes_same.
Qed.

Lemma value_at_spec x lg : log_wf lg -> Log.value_at x lg = writes (abs lg) !! x.
Proof.
  intros Hwf. unfold Log.value_at, abs, abs_locs. simpl.
  rewrite ls_find_write_spec, lookup_omap by apply Hwf. fold (Log.locations lg).
  destruct (loc_map (Log.locations lg) !! x) as [e|]; [|done]. simpl. unfold staged.
  by destruct (m_written e).
Qed.

(** Writing a live object, seen from the other entries. *)
Lemma staged_other (st st' : Store.store V) loc :
  (forall a, obj_of loc = Some a -> Store.objs st' !! a = Store.objs st !! a) ->
  staged st' loc = staged st loc.
Proof.
  intros Ho. unfold staged, obj_of in *. destruct (m_written loc); [|done].
  unfold Store.value. by rewrite Ho.
Qed.

Lemma abs_writes_insert (m : gmap addr_t Location) x e v (st st' : Store.store V) :
  staged st' e = Some v ->
  (forall y loc a, m !! y = Some loc -> y <> x -> obj_of loc = Some a ->
    Store.objs st' !! a = Store.objs st !! a) ->
  omap (staged st') (<[x := e]> m) = <[x := v]> (omap (staged st) m).
Proof.
  intros He Ho. apply map_eq. intros y. rewrite lookup_omap.
  destruct (decide (x = y)) as [->|Hne].
  - rewrite !lookup_insert_eq. done.
  - rewrite !lookup_insert_ne, lookup_omap by done.
    destruct (m !! y) as [loc|] eqn:Hy; [|done]. simpl. apply staged_other. eauto.
Qed.

(** Two entries never own the same object. *)
Lemma objs_of_inj ls (st : Store.store V) k1 k2 a :
  locs_ok ls st -> k1 ∈ ls -> k2 ∈ ls -> obj_of k1 = Some a -> obj_of k2 = Some a -> k1 = k2.
Proof.
  intros [_ _ Ho _]. unfold objs_of in Ho.
  induction ls as [|k ls IH]; intros H1 H2 E1 E2; [by apply elem_of_nil in H1|].
  assert (Hin : forall k', k' ∈ ls -> obj_of k' = Some a -> a ∈ omap obj_of ls).
  { intros k' Hk' Ek'. apply list_elem_of_omap. eauto. }
  simpl in Ho. apply elem_of_cons in H1 as [->|H1], H2 as [->|H2].
  - done.
  - rewrite E1 in Ho. apply NoDup_cons in Ho as [Ha _]. destruct Ha. eauto.
  - rewrite E2 in Ho. apply NoDup_cons in Ho as [Ha _]. destruct Ha. eauto.
  - apply IH; try done. destruct (obj_of k); [by apply NoDup_cons in Ho as [_ Ho]|done].
Qed.

Lemma elem_objs_of (ls : list Location) k a : k ∈ ls -> obj_of k = Some a -> a ∈ objs_of ls.
Proof. intros Hk Ha. apply list_elem_of_omap. eauto. Qed.

(** The store after assigning to the object of a written entry. *)
Lemma write_again lg x v e (ls' : LS) o :
  log_wf lg -> loc_map (Log.locations lg) !! x = Some e -> m_written e = true ->
  Store.objs (store lg) !! val_addr (write_val e) = Some o ->
  ls_wf ls' -> loc_map (ls_locations ls') = <[x := e]> (loc_map (Log.locations lg)) ->
  let lg' := MkLog ls' (Store.MkStore (Store.next (store lg))
               (<[val_addr (write_val e) := Store.Live v]> (Store.objs (store lg)))) in
  log_wf lg' /\ abs lg' = ALog (reads (abs lg)) (<[x := v]> (writes (abs lg))).
Proof.
  intros Hwf He Hw Hobj Hls' Hm lg'. pose proof (ls_wf_nodup ls' Hls') as Hn'.
  pose proof (wf_locs _ Hwf) as [Hn Hst _ _]. split.
  - constructor; unfold Log.locations; simpl; [done| | |].
    + eapply locs_ok_same; [apply Hwf|done|apply Hm| | |].
      * unfold entry. by rewrite He.
      * intros a Hsa. simpl in *. apply Hst.
        destruct (decide (val_addr (write_val e) = a)) as [<-|Hne]; [eauto|].
        by rewrite lookup_insert_ne in Hsa.
      * intros a. simpl. destruct (decide (val_addr (write_val e) = a)) as [<-|Hne].
        -- rewrite lookup_insert_eq. split; eauto.
        -- by rewrite lookup_insert_ne.
    + eapply wf_owner_step; [done|done| |apply Hm].
      apply loc_map_lookup in He as [Hin _]; [|done]. by apply Hwf.
    + intros a. unfold Store.value. simpl.
      destruct (decide (val_addr (write_val e) = a)) as [<-|Hne].
      * rewrite lookup_insert_eq. eauto.
      * rewrite lookup_insert_ne by done. apply Hwf.
  - unfold abs, abs_locs, Log.locations; simpl. fold (Log.locations lg). rewrite Hm. f_equal.
    + apply abs_reads_same. by rewrite He.
    + apply abs_writes_insert.
      * unfold staged, Store.value. rewrite Hw. simpl. by rewrite lookup_insert_eq.
      * intros y loc a Hy Hne Hobj'. simpl. rewrite lookup_insert_ne; [done|]. intros Eq.
        apply loc_map_lookup in Hy as [Hy <-], He as [He <-]; [|done..]. apply Hne. f_equal.
        eapply (objs_of_inj _ (store lg)); [apply Hwf|done..|].
        unfold obj_of. by rewrite Hw, Eq.
Qed.

(** The store after constructing the object of an entry not written before. *)
Lemma write_fresh lg x v e (ls' : LS) :
  log_wf lg -> m_written (entry x (Log.locations lg)) = false ->
  obj_of e = Some (Store.next (store lg)) ->
  m_read e = m_read (entry x (Log.locations lg)) -> m_owner e = None ->
  ls_wf ls' -> loc_map (ls_locations ls') = <[x := e]> (loc_map (Log.locations lg)) ->
  let lg' := MkLog ls' (Store.construct v (store lg)).2 in
  log_wf lg' /\ abs lg' = ALog (reads (abs lg)) (<[x := v]> (writes (abs lg))).
Proof.
  intros Hwf Hw He Hrd Ho Hls' Hm lg'. pose proof (ls_wf_nodup ls' Hls') as Hn'.
  pose proof (wf_locs _ Hwf) as [Hn Hst _ Hd].
  assert (Hfresh := Store.wf_fresh (store lg) Hst). split.
  - constructor; unfold Log.locations; [done| | |].
    + eapply (locs_ok_new _ _ _ _ (store lg) v); [apply Hwf|done|apply Hm| |done].
      unfold obj_of. by rewrite Hw.
    + eapply wf_owner_step; [done|done|apply Ho|apply Hm].
    + intros a. unfold Store.value. simpl.
      destruct (decide (Store.next (store lg) = a)) as [<-|Hne].
      * rewrite lookup_insert_eq. eauto.
      * rewrite lookup_insert_ne by done. apply Hwf.
  - unfold abs, abs_locs, Log.locations; simpl. fold (Log.locations lg). rewrite Hm. f_equal.
    + by apply abs_reads_same.
    + apply abs_writes_insert.
      * unfold obj_of in He. unfold staged, Store.value.
        destruct (m_written e); simplify_eq. rewrite He. simpl. by rewrite lookup_insert_eq.
      * intros y loc a Hy Hne Hobj. simpl. rewrite lookup_insert_ne; [done|]. intros <-.
        apply loc_map_lookup in Hy as [Hy _]; [|done].
        pose proof (elem_objs_of _ _ _ Hy Hobj) as Hin%Hd. rewrite Hfresh in Hin. by destruct Hin.
Qed.

Lemma append_write_spec x v lg :
  log_wf lg ->
  exists lg', Log.append_write x v lg = Some lg' /\ log_wf lg' /\
    abs lg' = ALog (reads (abs lg)) (<[x := v]> (writes (abs lg))).
Proof.
  intros Hwf. pose proof (wf_entry_owner lg x Hwf) as Ho.
  pose proof (ls_register_write_spec x v (l lg) (store lg) (wf_set _ Hwf)) as Hs.
  unfold Log.append_write. fold (Log.locations lg) in Hs. unfold Loc.write in Hs.
  destruct (m_written (entry x (Log.locations lg))) eqn:Hw.
  - unfold entry in Hw, Hs.
    destruct (loc_map (Log.locations lg) !! x) as [e|] eqn:He; simpl in Hw, Hs; [|done].
    assert (Hsome : is_Some (Store.objs (store lg) !! val_addr (write_val e))).
    { apply (ok_dom _ _ (wf_locs _ Hwf)). apply loc_map_lookup in He as [Hin _]; [|apply Hwf].
      eapply elem_objs_of; [done|]. unfold obj_of. by rewrite Hw. }
    unfold Store.assign in Hs. destruct Hsome as [o Hsome]. rewrite Hsome in Hs.
    destruct Hs as (ls' & -> & Hls' & Hm). eexists. split; [done|]. by eapply write_again.
  - destruct Hs as (ls' & -> & Hls' & Hm). eexists. split; [done|].
    eapply write_fresh; [done|done| | | |done|exact Hm]; done.
Qed.

(** *** The addresses of a log *)

Lemma addrs_insert ls ls' x e y :
  loc_map ls' = <[x := e]> (loc_map ls) -> y ∈ m_addr <$> ls' -> y = x \/ y ∈ m_addr <$> ls.
Proof.
  intros Hm Hy. destruct (decide (y = x)) as [|Hne]; [by left|right].
  destruct (decide (y ∈ m_addr <$> ls)) as [|Hn]; [done|]. exfalso.
  apply loc_map_None in Hn. rewrite <- (lookup_insert_ne _ x y e), <- Hm in Hn by done.
  by apply loc_map_None in Hn.
Qed.

Lemma append_read_addrs t tbl x lg lg' y :
  log_wf lg -> Log.append_read t tbl x lg = Some lg' -> y ∈ m_addr <$> Log.locations lg' ->
  y = x \/ y ∈ m_addr <$> Log.locations lg.
Proof.
  intros Hwf Hr. pose proof (wf_entry_owner lg x Hwf) as Ho.
  pose proof (ls_register_read_spec t tbl x (l lg) (wf_set _ Hwf) Ho) as Hs.
  unfold Log.append_read in Hr. destruct (Loc.read _ _ _) as [e|]; [|by rewrite Hs in Hr].
  destruct Hs as (ls' & E & _ & Hm). rewrite E in Hr. simplify_eq. by eapply addrs_insert.
Qed.

Lemma append_write_addrs x v lg lg' y :
  log_wf lg -> Log.append_write x v lg = Some lg' -> y ∈ m_addr <$> Log.locations lg' ->
  y = x \/ y ∈ m_addr <$> Log.locations lg.
Proof.
  intros Hwf Hr. pose proof (ls_register_write_spec x v (l lg) (store lg) (wf_set _ Hwf)) as Hs.
  unfold Log.append_write in Hr. destruct (Loc.write _ _ _) as [[e st']|]; [|by rewrite Hs in Hr].
  destruct Hs as (ls' & E & _ & Hm). rewrite E in Hr. simplify_eq. by eapply addrs_insert.
Qed.

(** *** [clear] *)

Lemma destroy_all_spec ls (st : Store.store V) :
  locs_ok ls st ->
  exists st', PerThreadPolicy.destroy_all ls st = Some st' /\ Store.objs st' = ∅.
Proof.
  revert st. induction ls as [|k ls IH]; intros st [Hn Hs Ho Hd]; simpl.
  - exists st. split; [done|]. apply map_empty. intros a. apply eq_None_not_Some.
    intros Ha%Hd. by apply elem_of_nil in Ha.
  - unfold objs_of in *. simpl in *. apply NoDup_cons in Hn as [_ Hn]. unfold obj_of at 1 in Ho.
    unfold obj_of at 1 in Hd. destruct (m_written k); simpl in Ho, Hd.
    + apply NoDup_cons in Ho as [Hk Ho]. unfold Store.destroy.
      destruct (proj2 (Hd (val_addr (write_val k)))) as [o ->]; [set_solver|].
      apply IH. constructor; simpl; try done.
      * intros a Ha. apply Hs. simpl in Ha. rewrite lookup_delete_is_Some in Ha. apply Ha.
      * intros a. rewrite lookup_delete_is_Some, Hd. set_solver.
    + apply IH. by constructor.
Qed.

(** Clearing destroys each staged object once, leaves none when the memory is
    released, and yields the empty log. *)
Lemma clear_spec lg : locs_ok (Log.locations lg) (store lg) -> Log.clear lg = Some Log.empty.
Proof.
  intros Hok. destruct (destroy_all_spec _ _ Hok) as (st' & E & _).
  unfold Log.clear, PerThreadPolicy.clear. fold (Log.locations lg). by rewrite E.
Qed.
End Refinement.
