(* ===== verification/Pool.v ===== *)
(** * The other store policy of [tl2/memory.h]

    [SynchronizedPoolPolicy] takes the memory of staged values from a pool that
    all threads share and gives it back block by block.  The pool is the set of
    the blocks handed out, with the size each was asked for; giving back a block
    that is not out, or with another size, is undefined. *)

From S2P Require Import Prelude VersionLock LockTable Store Op Log.

Module SynchronizedPoolPolicy.

Record pool := Pool { blocks : gmap Z Z }.

Definition allocate (a bytes : Z) (res : pool) : pool := Pool (<[a := bytes]> (blocks res)).

Definition deallocate (a bytes : Z) (res : pool) : option pool :=
  if decide (blocks res !! a = Some bytes) then Some (Pool (delete a (blocks res))) else None.

(** [bytes_size] of the staged object at an address: [sizeof] its type. *)
Fixpoint clear {V} (bytes_size : Z -> Z) (ls : list Location) (res : pool) (st : Store.store V) :
    option (pool * Store.store V) :=
  match ls with
  | [] => Some (res, st)
  | loc :: r =>
      if m_written loc then
        match Store.destroy (val_addr (write_val loc)) st,
              deallocate (val_addr (write_val loc)) (bytes_size (val_addr (write_val loc))) res with
        | Some st', Some res' => clear bytes_size r res' st'
        | _, _ => None
        end
      else clear bytes_size r res st
  end.

Lemma objs_of_cons k ls : objs_of (k :: ls) = if m_written k then val_addr (write_val k) :: objs_of ls else objs_of ls.
Proof. unfold objs_of, obj_of. simpl. by destruct (m_written k). Qed.

(** The shared pool gets back what a transaction took.  When the locations of
    a log own the staged objects of its store and each object's block is out with
    the object's size, [clear] is defined: it destroys every staged object, gives
    back exactly the blocks of these objects, and leaves the blocks of other
    threads alone. *)
Theorem pool_clear {V} (bytes_size : Z -> Z) ls res (st : Store.store V) :
  locs_ok ls st -> (forall a, a ∈ objs_of ls -> blocks res !! a = Some (bytes_size a)) ->
  exists res' st', clear bytes_size ls res st = Some (res', st') /\ Store.objs st' = ∅ /\
    forall a, blocks res' !! a = if decide (a ∈ objs_of ls) then None else blocks res !! a.
Proof.
  revert st res. induction ls as [|k ls IH]; intros st res [Hn Hs Ho Hd] Hres; cbn [clear].
  - exists res, st. split; [done|]. split; [|done]. apply map_empty. intros a. apply eq_None_not_Some.
    intros Ha%Hd. by apply elem_of_nil in Ha.
  - apply NoDup_cons in Hn as [_ Hn]. pose proof (objs_of_cons k ls) as E.
    destruct (m_written k); rewrite E in *; clear E.
    + set (v := val_addr (write_val k)) in *. apply NoDup_cons in Ho as [Hk Ho].
      unfold Store.destroy, deallocate. destruct (proj2 (Hd v)) as [o ->]; [left|].
      rewrite decide_True by (apply Hres; left).
      destruct (IH (Store.MkStore (Store.next st) (delete v (Store.objs st))) (Pool (delete v (blocks res))))
        as (res' & st' & E & Hst & Hb).
      * constructor; simpl; try done.
        -- intros a Ha. apply Hs. simpl in Ha. rewrite lookup_delete_is_Some in Ha. apply Ha.
        -- intros a. rewrite lookup_delete_is_Some, Hd. set_solver.
      * intros a Ha. simpl. rewrite lookup_delete_ne by (intros <-; done). apply Hres. by right.
      * exists res', st'. split; [exact E|]. split; [exact Hst|]. intros a. rewrite Hb. cbn [blocks].
        destruct (decide (a = v)) as [->|Hne].
        -- destruct (decide (v ∈ objs_of ls)); [done|]. rewrite lookup_delete_eq.
           case_decide as Hin; [done|]. by destruct Hin; left.
        -- rewrite lookup_delete_ne by done. destruct (decide (a ∈ objs_of ls)) as [Hin|Hin]; case_decide as Hin'; try done.
           ++ by destruct Hin'; right.
           ++ by apply elem_of_cons in Hin' as [?|?].
    + by apply IH.
Qed.

(** A written and a read location, and a block of another thread. *)
Definition two_locations : list Location :=
  [MkLocation 100 (WriteVal_obj 1) 0 false true None; MkLocation 200 WriteVal_none 0 true false None].

Lemma pool_clear_witness :
  exists res' st', clear (fun _ => 8) two_locations (Pool (<[1 := 8]> {[ 7 := 16 ]}))
      (snd (Store.construct 5 Store.empty)) = Some (res', st') /\ Store.objs st' = ∅ /\
    forall a, blocks res' !! a = if decide (a ∈ objs_of two_locations) then None
                                 else blocks (Pool (<[1 := 8]> {[ 7 := 16 ]})) !! a.
Proof.
  apply (pool_clear (fun _ => 8) two_locations).
  - constructor.
    + apply (bool_decide_unpack _). by vm_compute.
    + intros a. simpl. rewrite lookup_insert_is_Some. intros [<-|[_ [? E]]]; [lia|]. by rewrite lookup_empty in E.
    + apply (bool_decide_unpack _). by vm_compute.
    + intros a. simpl. rewrite lookup_insert_is_Some, lookup_empty, list_elem_of_singleton. split.
      * intros [<-|[_ [? E]]]; done.
      * intros ->. by left.
  - intros a. simpl. rewrite list_elem_of_singleton. by intros ->.
Defined.
End SynchronizedPoolPolicy.
