(* ===== verification/LogSpec.v ===== *)
(** * The contract of the log

    A client of the log sees a set of addresses read and a map of values
    written.  Any sequence of operations on a log answers as this abstract log
    does, whatever location set it is built on; clearing it afterwards destroys
    every staged object and gives the memory back. *)

From S2P Require Import Prelude VersionLock LockTable Store Op LocSets SkaSort SkaSet Log.

(** ** Sequences of operations *)

Inductive log_op (V : Type) :=
| op_read (x : addr_t)            (* append_read *)
| op_write (x : addr_t) (v : V)   (* append_write *)
| op_value (x : addr_t).          (* value_at *)
Arguments op_read {V} _.
Arguments op_write {V} _ _.
Arguments op_value {V} _.

Section Ops.
Context {LS V : Type} `{LocationSet LS}.

(** One operation: what it answers and the next log; [None] while it waits for
    a lock, or when it would be undefined. *)
Definition log_step (t : tid_t) (tbl : gmap Z Z) (o : log_op V) (lg : log LS V)
  : option (option V * log LS V) :=
  match o with
  | op_read x =>
      match Log.append_read t tbl x lg with Some lg' => Some (None, lg') | None => None end
  | op_write x v =>
      match Log.append_write x v lg with Some lg' => Some (None, lg') | None => None end
  | op_value x => Some (Log.value_at x lg, lg)
  end.

Fixpoint log_run (t : tid_t) (tbl : gmap Z Z) (os : list (log_op V)) (lg : log LS V)
  : option (list (option V) * log LS V) :=
  match os with
  | [] => Some ([], lg)
  | o :: os' =>
      match log_step t tbl o lg with
      | Some (r, lg') =>
          match log_run t tbl os' lg' with
          | Some (rs, lg'') => Some (r :: rs, lg'')
          | None => None
          end
      | None => None
      end
  end.
End Ops.

(** ** The abstract log *)
Section Spec.
Context {V : Type}.

Definition alog_step (o : log_op V) (al : alog V) : option V * alog V :=
  match o with
  | op_read x => (None, ALog ({[x]} ∪ reads al) (writes al))
  | op_write x v => (None, ALog (reads al) (<[x := v]> (writes al)))
  | op_value x => (writes al !! x, al)
  end.

Fixpoint alog_run (os : list (log_op V)) (al : alog V) : list (option V) * alog V :=
  match os with
  | [] => ([], al)
  | o :: os' =>
      let '(r, al') := alog_step o al in
      let '(rs, al'') := alog_run os' al' in (r :: rs, al'')
  end.

(** The locks of the addresses read are free. *)
Definition unlocked (tbl : gmap Z Z) (os : list (log_op V)) : Prop :=
  forall x, op_read x ∈ os -> is_Some (Word.get_version (hashtbl_get tbl x)).
End Spec.

Section Refines.
Context {LS V : Type} `{LocationSetLaws LS}.
Implicit Types (lg : log LS V).

Lemma log_step_refines t tbl (o : log_op V) lg :
  log_wf lg -> unlocked tbl [o] ->
  exists lg', log_step t tbl o lg = Some ((alog_step o (abs lg)).1, lg') /\
    log_wf lg' /\ abs lg' = (alog_step o (abs lg)).2.
Proof.
  intros Hwf Hu. destruct o as [x|x v|x]; simpl.
  - pose proof (append_read_spec t tbl x lg Hwf) as Hs.
    destruct (Hu x ltac:(by left)) as [w E]. rewrite E in Hs. destruct Hs as (lg' & -> & ? & ?). eauto.
  - destruct (append_write_spec x v lg Hwf) as (lg' & -> & ? & ?). eauto.
  - rewrite value_at_spec by done. eauto.
Qed.

Lemma log_run_refines t tbl (os : list (log_op V)) lg :
  log_wf lg -> unlocked tbl os ->
  exists lg', log_run t tbl os lg = Some ((alog_run os (abs lg)).1, lg') /\
    log_wf lg' /\ abs lg' = (alog_run os (abs lg)).2.
Proof.
  revert lg. induction os as [|o os IH]; intros lg Hwf Hu; simpl; [eauto|].
  destruct (log_step_refines t tbl o lg Hwf) as (lg1 & -> & Hwf1 & E1).
  { intros x Hx. apply Hu. apply list_elem_of_singleton in Hx as ->. by left. }
  destruct (IH lg1 Hwf1) as (lg2 & -> & Hwf2 & E2); [intros x Hx; apply Hu; by right|].
  rewrite E1 in *. destruct (alog_step o (abs lg)) as [r al]. simpl in *.
  destruct (alog_run os al) as [rs al']. simpl in *. eauto.
Qed.
End Refines.

Section Contract.
Context {LS1 LS2 V : Type} `{LocationSetLaws LS1} `{LocationSetLaws LS2}.

(** [C16] The log implements its contract.  On an empty log built on any location
    set, a sequence of reads, writes and look-ups whose locks are free never
    fails, answers each look-up with the last value written to the address, if
    any, and ends with exactly the addresses read and the last values written.
    Clearing the log then destroys each staged object, releases the memory and
    leaves the empty log. *)
Theorem log_contract (t : tid_t) (tbl : gmap Z Z) (os : list (log_op V)) :
  unlocked tbl os ->
  exists lg : log LS1 V,
    log_run t tbl os Log.empty = Some ((alog_run os (ALog ∅ ∅)).1, lg) /\
    abs lg = (alog_run os (ALog ∅ ∅)).2 /\
    (exists st, PerThreadPolicy.destroy_all (Log.locations lg) (store lg) = Some st /\ Store.objs st = ∅) /\
    Log.clear lg = Some Log.empty.
Proof.
  intros Hu. destruct (log_run_refines (LS := LS1) t tbl os Log.empty empty_wf Hu) as (lg & E & Hwf & Ea).
  rewrite abs_empty in *. exists lg. split; [done|]. split; [done|].
  pose proof (wf_locs _ Hwf) as Hok. split; [by apply destroy_all_spec|by apply clear_spec].
Qed.

(** The location sets are interchangeable.  A log over one set and a log over
    another one give the same answers to the same operations. *)
Theorem sets_agree (t : tid_t) (tbl : gmap Z Z) (os : list (log_op V)) :
  unlocked tbl os ->
  exists rs (lg1 : log LS1 V) (lg2 : log LS2 V),
    log_run t tbl os Log.empty = Some (rs, lg1) /\
    log_run t tbl os Log.empty = Some (rs, lg2) /\ abs lg1 = abs lg2.
Proof.
  intros Hu.
  destruct (log_run_refines (LS := LS1) t tbl os Log.empty empty_wf Hu) as (lg1 & E1 & _ & A1).
  destruct (log_run_refines (LS := LS2) t tbl os Log.empty empty_wf Hu) as (lg2 & E2 & _ & A2).
  rewrite abs_empty in E1, A1. rewrite abs_empty in E2, A2. eexists _, lg1, lg2. split; [done|]. split; [done|]. congruence.
Qed.
End Contract.

(** ** A run on both sets *)
Section Witnesses.
#[local] Existing Instance OrderedSet.set.
#[local] Existing Instance OrderedSet.laws.
#[local] Existing Instance InsertionSort.insertion.
#[local] Existing Instance InsertionSort.insertion_laws.
#[local] Existing Instance InsertionSort.partition_filter.
#[local] Existing Instance InsertionSort.partition_laws.
#[local] Existing Instance HashVectorSet.set.
#[local] Existing Instance HashVectorSet.laws.

(** Every lock free; two writes to one address, a read, the look-ups. *)
Definition demo_ops : list (log_op Z) :=
  [op_write 16 7; op_read 8; op_value 8; op_write 16 9; op_value 16].

Lemma demo_unlocked : unlocked ∅ demo_ops.
Proof. intros x _. unfold hashtbl_get, table_word. rewrite lookup_empty. by eexists. Qed.

Abbreviation hvset := HashVectorSet.hvset.
Abbreviation oset := OrderedSet.oset.

Lemma log_contract_witness : exists lg : log hvset Z,
  log_run 0 ∅ demo_ops Log.empty = Some ([None; None; None; None; Some 9], lg) /\
  abs lg = ALog {[8]} (<[16 := 9]> ∅) /\
  (exists st, PerThreadPolicy.destroy_all (Log.locations lg) (store lg) = Some st /\ Store.objs st = ∅) /\
  Log.clear lg = Some Log.empty.
Proof. exact (log_contract (LS1 := hvset) 0 ∅ demo_ops demo_unlocked). Defined.

Lemma sets_agree_witness : exists rs (lg1 : log hvset Z) (lg2 : log oset Z),
  log_run 0 ∅ demo_ops Log.empty = Some (rs, lg1) /\
  log_run 0 ∅ demo_ops Log.empty = Some (rs, lg2) /\ abs lg1 = abs lg2.
Proof. exact (sets_agree (LS1 := hvset) (LS2 := oset) 0 ∅ demo_ops demo_unlocked). Defined.
End Witnesses.
