(* ===== verification/Tx.v ===== *)
(** * Transactions as programs, and what they should mean

    The body handed to [atomically] ([tl2/stm.h]) accesses [TVar]s, reads and
    writes the variables it captured by reference, returns a value or throws.
    [tx] is the type of such bodies.  Its specification is [run]: the body
    executed alone on a memory, and [atomic]: all of its writes or, when it
    throws, none.  [exec] is the body executed through a log: reads of addresses
    not written yet are answered by observations, writes are buffered. *)

From S2P Require Import Prelude Log.

(** [std::exception]s ([invalid_access] among them) and everything else that C++
    can throw. *)
Inductive exn := invalid_access | std_exception (what : Z) | other_exception (what : Z).

#[export] Instance exn_eq_dec : EqDecision exn.
Proof. solve_decision. Defined.

(** [catch (const std::exception &)]. *)
Definition is_std (e : exn) : bool :=
  match e with other_exception _ => false | _ => true end.

Inductive tx (V L A : Type) :=
| Ret (a : A)
| Throw (e : exn)
| Read (x : addr_t) (k : V -> tx V L A)          (* static_cast<T>(tvar) *)
| Write (x : addr_t) (v : V) (k : tx V L A)      (* tvar = v *)
| GetL (k : L -> tx V L A)                       (* the captured variables *)
| SetL (lo : L) (k : tx V L A).
Arguments Ret {V L A} _.
Arguments Throw {V L A} _.
Arguments Read {V L A} _ _.
Arguments Write {V L A} _ _ _.
Arguments GetL {V L A} _.
Arguments SetL {V L A} _ _.

Inductive outcome (A : Type) := Val (a : A) | Exn (e : exn).
Arguments Val {A} _.
Arguments Exn {A} _.

Module Tx.
Section Tx.
Context {V L : Type}.

Fixpoint bind {A B} (p : tx V L A) (f : A -> tx V L B) : tx V L B :=
  match p with
  | Ret a => f a
  | Throw e => Throw e
  | Read x k => Read x (fun v => bind (k v) f)
  | Write x v k => Write x v (bind k f)
  | GetL k => GetL (fun lo => bind (k lo) f)
  | SetL lo k => SetL lo (bind k f)
  end.

Definition read (x : addr_t) : tx V L V := Read x Ret.
Definition write (x : addr_t) (v : V) : tx V L unit := Write x v (Ret tt).
Definition get_local : tx V L L := GetL Ret.
Definition set_local (lo : L) : tx V L unit := SetL lo (Ret tt).

(** The body alone on a memory; [None] when it reads an address that holds no
    object (undefined behaviour). *)
Fixpoint run {A} (p : tx V L A) (lo : L) (m : gmap addr_t V)
  : option (outcome A * L * gmap addr_t V) :=
  match p with
  | Ret a => Some (Val a, lo, m)
  | Throw e => Some (Exn e, lo, m)
  | Read x k => match m !! x with Some v => run (k v) lo m | None => None end
  | Write x v k => run k lo (<[x := v]> m)
  | GetL k => run (k lo) lo m
  | SetL lo' k => run k lo' m
  end.

Definition atomic {A} (p : tx V L A) (lo : L) (m : gmap addr_t V)
  : option (outcome A * L * gmap addr_t V) :=
  match run p lo m with
  | Some (Val a, lo', m') => Some (Val a, lo', m')
  | Some (Exn e, lo', _) => Some (Exn e, lo', m)
  | None => None
  end.

Lemma run_bind {A B} (p : tx V L A) (f : A -> tx V L B) lo m :
  run (bind p f) lo m =
    match run p lo m with
    | Some (Val a, lo', m') => run (f a) lo' m'
    | Some (Exn e, lo', m') => Some (Exn e, lo', m')
    | None => None
    end.
Proof.
  revert lo m. induction p as [a|e|x k IH|x v k IH|k IH|lo' k IH]; intros lo m; simpl; try done.
  destruct (m !! x); [apply IH|done].
Qed.

(** The body writes addresses of [P] only. *)
Fixpoint writes_in {A} (P : addr_t -> Prop) (p : tx V L A) : Prop :=
  match p with
  | Ret _ | Throw _ => True
  | Read x k => forall v, writes_in P (k v)
  | Write x v k => P x /\ writes_in P k
  | GetL k => forall lo, writes_in P (k lo)
  | SetL lo k => writes_in P k
  end.

Lemma run_writes_in {A} P (p : tx V L A) lo m r lo' m' : writes_in P p -> run p lo m = Some (r, lo', m') ->
  forall a, ~ P a -> m' !! a = m !! a.
Proof.
  revert lo m. induction p as [b|e|x k IH|x v k IH|k IH|lo1 k IH]; intros lo m Hw Hr a Ha; simpl in *; try by simplify_eq.
  - destruct (m !! x); [|done]. by eapply IH.
  - destruct Hw as [Hx Hw]. rewrite (IH _ _ Hw Hr a Ha), lookup_insert_ne; [done|]. by intros ->.
  - by eapply IH.
  - by eapply IH.
Qed.

Lemma bind_writes_in {A B} P (p : tx V L A) (f : A -> tx V L B) : writes_in P p -> (forall b, writes_in P (f b)) ->
  writes_in P (bind p f).
Proof. intros Hp Hf. induction p; simpl in *; naive_solver. Qed.

(** ** Execution through a log *)

Abbreviation obs := (list (addr_t * V)).

Inductive exec {A} (p : tx V L A) (lo : L) : obs -> tx V L A -> L -> alog V -> Prop :=
| exec_start : exec p lo [] p lo (ALog ∅ ∅)
| exec_read_own o x v k lo' al :
    exec p lo o (Read x k) lo' al -> writes al !! x = Some v ->
    exec p lo o (k v) lo' (ALog ({[x]} ∪ reads al) (writes al))
| exec_read_mem o x v k lo' al :
    exec p lo o (Read x k) lo' al -> writes al !! x = None ->
    exec p lo (o ++ [(x, v)]) (k v) lo' (ALog ({[x]} ∪ reads al) (writes al))
| exec_write o x v k lo' al :
    exec p lo o (Write x v k) lo' al ->
    exec p lo o k lo' (ALog (reads al) (<[x := v]> (writes al)))
| exec_get o k lo' al :
    exec p lo o (GetL k) lo' al -> exec p lo o (k lo') lo' al
| exec_set o lo'' k lo' al :
    exec p lo o (SetL lo'' k) lo' al -> exec p lo o k lo'' al.

(** What was observed was registered as read. *)
Lemma exec_obs_reads {A} (p k : tx V L A) lo o lo' al x v :
  exec p lo o k lo' al -> (x, v) ∈ o -> x ∈ reads al.
Proof.
  intros H. induction H; simpl; set_solver.
Qed.

(** Observations that agree with a memory make the logged execution the
    execution on that memory, with the buffered writes on top. *)
Lemma exec_run {A} (p k : tx V L A) lo o lo' al m :
  exec p lo o k lo' al -> (forall x v, (x, v) ∈ o -> m !! x = Some v) ->
  run p lo m = run k lo' (writes al ∪ m).
Proof.
  intros H. induction H as [|o x v k lo' al H IH Hx|o x v k lo' al H IH Hx|o x v k lo' al H IH
    |o k lo' al H IH|o lo'' k lo' al H IH]; intros Ho; simpl.
  - by rewrite (left_id_L ∅ (∪)).
  - rewrite IH by done. simpl. by rewrite (lookup_union_Some_l _ _ _ v).
  - rewrite IH by set_solver. simpl. rewrite lookup_union_r by done.
    by rewrite (Ho x v) by set_solver.
  - rewrite IH by done. simpl. by rewrite insert_union_l.
  - by rewrite IH.
  - by rewrite IH.
Qed.

Corollary exec_run_ret {A} (p : tx V L A) lo o a lo' al m :
  exec p lo o (Ret a) lo' al -> (forall x v, (x, v) ∈ o -> m !! x = Some v) ->
  run p lo m = Some (Val a, lo', writes al ∪ m).
Proof. intros H Ho. by rewrite (exec_run _ _ _ _ _ _ _ H Ho). Qed.
End Tx.
End Tx.
