(* ===== verification/State.v ===== *)
(** * The transaction manager ([tl2/state.h])

    One [TMan] per thread ([inline thread_local manager]): its log, the state of
    the transaction and the read version. *)

From S2P Require Import Prelude VersionLock LockTable Store Op Log Tx.

Inductive STATE := ABORT | RUNNING | ZOMBIE.

#[export] Instance STATE_eq_dec : EqDecision STATE.
Proof. solve_decision. Defined.

Record tman (LS V : Type) := TMan { mlog : log LS V; state : STATE; rv : version_t }.
Arguments TMan {LS V} _ _ _.
Arguments mlog {LS V} _.
Arguments state {LS V} _.
Arguments rv {LS V} _.

Module Manager.
Section Manager.
Context {LS V : Type} `{LocationSet LS}.
Abbreviation tman := (tman LS V).

(** A thread-local object without initialisers starts zeroed: [ABORT] is 0. *)
Definition init : tman := TMan Log.empty ABORT 0.

(** Waits while the clock word is locked (it never is). *)
Definition start_transaction (global_clock : Z) (m : tman) : option tman :=
  match Log.clear (mlog m), Word.get_version global_clock with
  | Some lg, Some v => Some (TMan lg RUNNING v)
  | _, _ => None
  end.

(** [context.clear()]: state [ZOMBIE], read version 0. *)
Definition end_transaction (m : tman) : option tman :=
  match Log.clear (mlog m) with
  | Some lg => Some (TMan lg ZOMBIE 0)
  | None => None
  end.

Definition in_transaction (m : tman) : bool := bool_decide (state m = RUNNING).

Definition read_version (m : tman) : version_t := rv m.

(** Either the manager unchanged, or [invalid_access] with the manager reset. *)
Definition assert_in_transaction (m : tman) : option (outcome unit * tman) :=
  if in_transaction m then Some (Val tt, m)
  else match end_transaction m with
       | Some m' => Some (Exn invalid_access, m')
       | None => None
       end.
End Manager.
End Manager.
