(* ===== verification/Nested.v ===== *)
(** * Nested calls, exceptions and accesses outside a transaction

    What one thread sees of [atomically] ([tl2/stm.h]) and of the [TVar]
    accesses ([tl2/t_var.h]): whether it is in a transaction decides whether
    [atomically] starts one or just calls its argument, and whether an access is
    allowed.  User code may nest calls, throw and catch.  The log is the abstract
    one ([LogSpec]); [try_commit] of a thread alone commits ([Solo]), so the
    retry loop is one turn here.  [flat] turns a nested body into the flat one
    that the concurrent machine runs. *)

From S2P Require Import Prelude Log Tx State.

Inductive prog (V L A : Type) :=
| PRet (a : A)
| PThrow (e : exn)
| PRead (x : addr_t) (k : V -> prog V L A)
| PWrite (x : addr_t) (v : V) (k : prog V L A)
| PGet (k : L -> prog V L A)
| PSet (lo : L) (k : prog V L A)
| PInTransaction (k : bool -> prog V L A)                  (* in_transaction() *)
| PAtomically (t : prog V L A) (k : A -> prog V L A)       (* atomically(t) *)
| PTry (p : prog V L A) (handler : exn -> prog V L A) (k : A -> prog V L A).
Arguments PRet {V L A} _.
Arguments PThrow {V L A} _.
Arguments PRead {V L A} _ _.
Arguments PWrite {V L A} _ _ _.
Arguments PGet {V L A} _.
Arguments PSet {V L A} _ _.
Arguments PInTransaction {V L A} _.
Arguments PAtomically {V L A} _ _.
Arguments PTry {V L A} _ _ _.

(** The thread: its manager's state and log, the memory, what it captured. *)
Record ctx (V L : Type) := Ctx {
  c_state : STATE;
  c_log : alog V;
  c_mem : gmap addr_t V;
  c_locals : L }.
Arguments Ctx {V L} _ _ _ _.
Arguments c_state {V L} _.
Arguments c_log {V L} _.
Arguments c_mem {V L} _.
Arguments c_locals {V L} _.

Module Nested.
Section Nested.
Context {V L A : Type}.
Abbreviation prog := (prog V L A).
Abbreviation ctx := (ctx V L).
Abbreviation result := (option (outcome A * ctx)).
Implicit Types (p : prog) (c : ctx).

Definition no_log : alog V := ALog ∅ ∅.

(** [start_transaction()] and [end_transaction()]. *)
Definition start_transaction c : ctx := Ctx RUNNING no_log (c_mem c) (c_locals c).
Definition end_transaction c : ctx := Ctx ZOMBIE no_log (c_mem c) (c_locals c).
Definition in_transaction c : bool := bool_decide (c_state c = RUNNING).
Definition with_log (al : alog V) c : ctx := Ctx (c_state c) al (c_mem c) (c_locals c).
Definition with_locals (lo : L) c : ctx := Ctx (c_state c) (c_log c) (c_mem c) lo.

(** [commit]: every write goes to memory. *)
Definition commit c : ctx := Ctx (c_state c) (c_log c) (writes (c_log c) ∪ c_mem c) (c_locals c).

(** [assert_in_transaction()], then the access. *)
Definition access (f : ctx -> result) c : result :=
  if in_transaction c then f c else Some (Exn invalid_access, end_transaction c).

(** [operator T()]: the value in the log, else the one in memory. *)
Definition read (x : addr_t) (k : V -> ctx -> result) c : result :=
  let c' := with_log (ALog ({[x]} ∪ reads (c_log c)) (writes (c_log c))) c in
  match writes (c_log c) !! x with
  | Some v => k v c'
  | None => match c_mem c !! x with Some v => k v c' | None => None end
  end.

Definition write (x : addr_t) (v : V) (k : ctx -> result) c : result :=
  k (with_log (ALog (reads (c_log c)) (<[x := v]> (writes (c_log c)))) c).

(** What follows a call: the exception of the call, or the continuation. *)
Definition continue (r : result) (k : A -> ctx -> result) : result :=
  match r with
  | Some (Val a, c) => k a c
  | Some (Exn e, c) => Some (Exn e, c)
  | None => None
  end.

(** [atomically(t)]: flattened in a transaction; else a transaction of its own,
    which [catch (const std::exception &)] closes. *)
Definition atomically (t : ctx -> result) c : result :=
  if in_transaction c then t c
  else
    match t (start_transaction c) with
    | Some (Val a, c') => Some (Val a, end_transaction (commit c'))
    | Some (Exn e, c') => if is_std e then Some (Exn e, end_transaction c') else Some (Exn e, c')
    | None => None
    end.

Fixpoint eval p c : result :=
  match p with
  | PRet a => Some (Val a, c)
  | PThrow e => Some (Exn e, c)
  | PRead x k => access (read x (fun v => eval (k v))) c
  | PWrite x v k => access (write x v (eval k)) c
  | PGet k => eval (k (c_locals c)) c
  | PSet lo k => eval k (with_locals lo c)
  | PInTransaction k => eval (k (in_transaction c)) c
  | PAtomically t k => continue (atomically (eval t) c) (fun a => eval (k a))
  | PTry q handler k =>
      match eval q c with
      | Some (Val a, c') => eval (k a) c'
      | Some (Exn e, c') => continue (eval (handler e) c') (fun a => eval (k a))
      | None => None
      end
  end.

(** [a = b] on [TVar]s: nothing on the same one, else a read and a write. *)
Definition copy_assign (dst src : addr_t) (k : prog) : prog :=
  if decide (src = dst) then k else PRead src (fun v => PWrite dst v k).

(** ** Flattening *)

(** [try { t } catch (e) { handler(e) }], then [k]. *)
Fixpoint catch (t : tx V L A) (handler : exn -> tx V L A) (k : A -> tx V L A) : tx V L A :=
  match t with
  | Ret a => k a
  | Throw e => Tx.bind (handler e) k
  | Read x r => Read x (fun v => catch (r v) handler k)
  | Write x v r => Write x v (catch r handler k)
  | GetL r => GetL (fun lo => catch (r lo) handler k)
  | SetL lo r => SetL lo (catch r handler k)
  end.

(** A body in a transaction as one without nested calls and handlers. *)
Fixpoint flat p : tx V L A :=
  match p with
  | PRet a => Ret a
  | PThrow e => Throw e
  | PRead x k => Read x (fun v => flat (k v))
  | PWrite x v k => Write x v (flat k)
  | PGet k => GetL (fun lo => flat (k lo))
  | PSet lo k => SetL lo (flat k)
  | PInTransaction k => flat (k true)
  | PAtomically t k => Tx.bind (flat t) (fun a => flat (k a))
  | PTry q handler k => catch (flat q) (fun e => flat (handler e)) (fun a => flat (k a))
  end.

Lemma run_catch t handler k lo (m : gmap addr_t V) :
  Tx.run (catch t handler k) lo m =
    match Tx.run t lo m with
    | Some (Val a, lo', m') => Tx.run (k a) lo' m'
    | Some (Exn e, lo', m') => Tx.run (Tx.bind (handler e) k) lo' m'
    | None => None
    end.
Proof.
  revert lo m. induction t as [a|e|x r IH|x v r IH|r IH|lo' r IH]; intros lo m; simpl; try done.
  destruct (m !! x); [apply IH|done].
Qed.

(** The memory as the transaction sees it. *)
Definition view c : gmap addr_t V := writes (c_log c) ∪ c_mem c.

(** [eval] did what [run] did: the writes are in the log only. *)
Definition tracks (r : option (outcome A * L * gmap addr_t V)) c (r' : result) : Prop :=
  match r with
  | Some (o, lo, m) => exists c', r' = Some (o, c') /\ c_state c' = RUNNING /\
      c_mem c' = c_mem c /\ view c' = m /\ c_locals c' = lo
  | None => r' = None
  end.

Lemma tracks_from r c1 c r' : c_mem c1 = c_mem c -> tracks r c1 r' -> tracks r c r'.
Proof. intros E. unfold tracks. destruct r as [[[o lo] m]|]; [|done]. by rewrite E. Qed.

Lemma flat_tracks p : forall c, c_state c = RUNNING ->
  tracks (Tx.run (flat p) (c_locals c) (view c)) c (eval p c).
Proof.
  induction p as [a|e|x k IH|x v p IH|k IH|lo p IH|k IH|t IHt k IHk|q IHq h IHh k IHk];
    intros c Hc; cbn [flat eval Tx.run].
  - by exists c.
  - by exists c.
  - unfold access, in_transaction. rewrite bool_decide_true by done. unfold read.
    unfold view at 1. destruct (writes (c_log c) !! x) as [v|] eqn:E.
    + rewrite (lookup_union_Some_l _ _ _ v) by done. set (c1 := with_log _ c).
      by eapply (tracks_from _ c1 c), (IH v c1).
    + rewrite lookup_union_r by done. destruct (c_mem c !! x) as [v|]; [|done]. set (c1 := with_log _ c).
      by eapply (tracks_from _ c1 c), (IH v c1).
  - unfold access, in_transaction. rewrite bool_decide_true by done. unfold write. set (c1 := with_log _ c).
    eapply (tracks_from _ c1 c); [done|]. specialize (IH c1 Hc). unfold view at 1 in IH. simpl in IH.
    by rewrite <- insert_union_l in IH.
  - by apply IH.
  - set (c1 := with_locals lo c). by eapply (tracks_from _ c1 c), (IH c1).
  - unfold in_transaction. rewrite bool_decide_true by done. by apply IH.
  - rewrite Tx.run_bind. unfold atomically, in_transaction. rewrite bool_decide_true by done.
    specialize (IHt c Hc). destruct (Tx.run (flat t) _ _) as [[[[a|e] lo] m]|]; simpl in IHt; [| |by rewrite IHt].
    + destruct IHt as (c1 & -> & Hc1 & Em & Ev & El). simpl. eapply (tracks_from _ c1 c); [done|].
      rewrite <- Ev, <- El. by apply IHk.
    + destruct IHt as (c1 & -> & Hc1 & Em & Ev & El). simpl. by exists c1.
  - rewrite run_catch. specialize (IHq c Hc).
    destruct (Tx.run (flat q) _ _) as [[[[a|e] lo] m]|]; simpl in IHq; [| |by rewrite IHq].
    + destruct IHq as (c1 & -> & Hc1 & Em & Ev & El). eapply (tracks_from _ c1 c); [done|].
      rewrite <- Ev, <- El. by apply IHk.
    + destruct IHq as (c1 & -> & Hc1 & Em & Ev & El). rewrite Tx.run_bind. specialize (IHh e c1 Hc1).
      rewrite Ev, El in IHh.
      destruct (Tx.run (flat (h e)) _ _) as [[[[a|e'] lo'] m']|]; simpl in IHh; [| |by rewrite IHh].
      * destruct IHh as (c2 & -> & Hc2 & Em2 & Ev2 & El2). simpl. eapply (tracks_from _ c2 c); [congruence|].
        rewrite <- Ev2, <- El2. by apply IHk.
      * destruct IHh as (c2 & -> & Hc2 & Em2 & Ev2 & El2). simpl. exists c2. split; [done|].
        split; [done|]. split; [congruence|done].
Qed.

(** In a running transaction nothing reaches the memory. *)
Lemma running_keeps p c o c' : c_state c = RUNNING -> eval p c = Some (o, c') ->
  c_state c' = RUNNING /\ c_mem c' = c_mem c.
Proof.
  intros Hc He. pose proof (flat_tracks p c Hc) as Ht. rewrite He in Ht.
  destruct (Tx.run _ _ _) as [[[o1 lo] m]|]; simpl in Ht; [|done].
  by destruct Ht as (c1 & [= <- <-] & ? & ? & _).
Qed.

(** What the outermost call of [atomically] must do. *)
Definition atomic_result (r : option (outcome A * L * gmap addr_t V)) (r' : result) : Prop :=
  match r with
  | Some (Val a, lo, m) => r' = Some (Val a, Ctx ZOMBIE no_log m lo)
  | Some (Exn e, lo, m) =>
      if is_std e then r' = Some (Exn e, Ctx ZOMBIE no_log m lo)
      else exists pending, r' = Some (Exn e, Ctx RUNNING pending m lo)
  | None => r' = None
  end.

(** The outermost call does what the flat body does. *)
Lemma outermost_is_flat (t : prog) c : c_state c <> RUNNING ->
  atomic_result (Tx.atomic (flat t) (c_locals c) (c_mem c)) (eval (PAtomically t PRet) c).
Proof.
  intros Hc. cbn [eval]. unfold atomically, in_transaction. rewrite bool_decide_false by done.
  pose proof (flat_tracks t (start_transaction c) eq_refl) as Ht.
  change (c_locals (start_transaction c)) with (c_locals c) in Ht.
  assert (Ev : view (start_transaction c) = c_mem c) by apply map_empty_union. rewrite Ev in Ht.
  unfold Tx.atomic, atomic_result. destruct (Tx.run _ _ _) as [[[[a|e] lo] m]|]; simpl in Ht; [| |by rewrite Ht].
  - destruct Ht as (c1 & -> & _ & Em & Ev1 & El). simpl. unfold end_transaction, commit. simpl.
    unfold view in Ev1. by rewrite Ev1, El.
  - destruct Ht as (c1 & -> & Hc1 & Em & _ & El). destruct (is_std e); simpl.
    + unfold end_transaction. by rewrite Em, El.
    + exists (c_log c1). destruct c1. simpl in *. by subst.
Qed.

(** [C12] Nested transactions are flattened into the outermost one.  Outside a
    transaction, [atomically] on a body with calls of [atomically] nested to any
    depth, handlers and tests of [in_transaction()] does what the flat body does
    in one piece: its writes reach the memory when the outermost body returns
    and not when it throws; the thread is out of the transaction again, unless
    the exception is not a [std::exception]. *)
Theorem nested_is_flat (t : prog) c : c_state c <> RUNNING ->
  atomic_result (Tx.atomic (flat t) (c_locals c) (c_mem c)) (eval (PAtomically t PRet) c).
Proof. apply outermost_is_flat. Qed.

(** [C13] An exception that is not a [std::exception] costs the thread its
    transactions.  When the body of a transaction throws one, then whatever the
    program does after it was caught (in [handler] and [k], calls of
    [atomically] that return among it), the thread stays in that transaction and
    the memory is never written again. *)
Theorem lost_after_exception (t : prog) handler k c lo (m : gmap addr_t V) what o c' :
  c_state c <> RUNNING ->
  Tx.atomic (flat t) (c_locals c) (c_mem c) = Some (Exn (other_exception what), lo, m) ->
  eval (PTry (PAtomically t PRet) handler k) c = Some (o, c') ->
  c_state c' = RUNNING /\ c_mem c' = c_mem c.
Proof.
  intros Hc Ha He. pose proof (outermost_is_flat t c Hc) as Hn. rewrite Ha in Hn.
  change (eval (PTry (PAtomically t PRet) handler k) c) with
    (match eval (PAtomically t PRet) c with
     | Some (Val a, c') => eval (k a) c'
     | Some (Exn e, c') => continue (eval (handler e) c') (fun a => eval (k a))
     | None => None
     end) in He.
  destruct Hn as (pending & Hn). rewrite Hn in He.
  assert (Em : m = c_mem c) by (unfold Tx.atomic in Ha; repeat case_match; congruence). subst m.
  set (c1 := Ctx RUNNING pending (c_mem c) lo) in *.
  destruct (eval (handler _) c1) as [[[a|e] c2]|] eqn:Eh; simpl in He; [| |done].
  - destruct (running_keeps _ c1 _ _ eq_refl Eh) as [Hc2 Em2].
    destruct (running_keeps _ _ _ _ Hc2 He) as [Hc3 Em3]. split; [done|]. by rewrite Em3, Em2.
  - injection He as _ <-. by apply (running_keeps _ c1 _ _ eq_refl Eh).
Qed.

(** Programs that never call [atomically]. *)
Fixpoint bare p : Prop :=
  match p with
  | PRet _ | PThrow _ => True
  | PRead _ k => forall v, bare (k v)
  | PWrite _ _ k | PSet _ k => bare k
  | PGet k => forall lo, bare (k lo)
  | PInTransaction k => forall b, bare (k b)
  | PAtomically _ _ => False
  | PTry q handler k => bare q /\ (forall e, bare (handler e)) /\ (forall a, bare (k a))
  end.

(** Bare programs: no access takes place, whatever is caught. *)
Lemma bare_keeps p c : bare p -> c_state c <> RUNNING ->
  exists o c', eval p c = Some (o, c') /\ c_state c' <> RUNNING /\ c_mem c' = c_mem c /\
    forall m, eval p (Ctx (c_state c) (c_log c) m (c_locals c)) =
      Some (o, Ctx (c_state c') (c_log c') m (c_locals c')).
Proof.
  revert c. induction p as [a|e|x k IH|x v p IH|k IH|lo p IH|k IH|t IHt k IHk|q IHq h IHh k IHk];
    intros c Hb Hc; cbn [eval].
  - exists (Val a), c. done.
  - exists (Exn e), c. done.
  - unfold access, in_transaction. simpl. rewrite bool_decide_false by done. by eexists _, _.
  - unfold access, in_transaction. simpl. rewrite bool_decide_false by done. by eexists _, _.
  - by apply IH.
  - destruct (IH (with_locals lo c) Hb Hc) as (o & c' & ? & ? & ? & ?). by exists o, c'.
  - destruct (IH (in_transaction c) c (Hb _) Hc) as (o & c' & ? & ? & ? & ?). by exists o, c'.
  - done.
  - destruct Hb as (Hq & Hh & Hk). destruct (IHq c Hq Hc) as ([a|e] & c1 & E1 & Hc1 & Em1 & Hm1).
    + destruct (IHk a c1 (Hk a) Hc1) as (o & c2 & E2 & Hc2 & Em2 & Hm2). exists o, c2.
      rewrite E1. split; [done|]. split; [done|]. split; [congruence|]. intros m. by rewrite Hm1.
    + destruct (IHh e c1 (Hh e) Hc1) as ([a|e'] & c2 & E2 & Hc2 & Em2 & Hm2).
      * destruct (IHk a c2 (Hk a) Hc2) as (o & c3 & E3 & Hc3 & Em3 & Hm3). exists o, c3.
        rewrite E1, E2. split; [done|]. split; [done|]. split; [congruence|]. intros m. rewrite Hm1, Hm2. apply Hm3.
      * exists (Exn e'), c2. rewrite E1, E2. split; [done|]. split; [done|]. split; [congruence|].
        intros m. by rewrite Hm1, Hm2.
Qed.

(** ** What a program does outside a transaction, without any log *)

(** An access throws [invalid_access] and the program goes on from there; a call
    of [atomically] is the flat body in one piece.  [None]: undefined, or an
    exception that is no [std::exception] left a transaction
    ([lost_after_exception] is about what follows). *)
Fixpoint outside p (lo : L) (m : gmap addr_t V) : option (outcome A * L * gmap addr_t V) :=
  match p with
  | PRet a => Some (Val a, lo, m)
  | PThrow e => Some (Exn e, lo, m)
  | PRead _ _ => Some (Exn invalid_access, lo, m)
  | PWrite _ _ _ => Some (Exn invalid_access, lo, m)
  | PGet k => outside (k lo) lo m
  | PSet lo' k => outside k lo' m
  | PInTransaction k => outside (k false) lo m
  | PAtomically t k =>
      match Tx.atomic (flat t) lo m with
      | Some (Val a, lo', m') => outside (k a) lo' m'
      | Some (Exn e, lo', m') => if is_std e then Some (Exn e, lo', m') else None
      | None => None
      end
  | PTry q handler k =>
      match outside q lo m with
      | Some (Val a, lo', m') => outside (k a) lo' m'
      | Some (Exn e, lo', m') =>
          match outside (handler e) lo' m' with
          | Some (Val a, lo'', m'') => outside (k a) lo'' m''
          | r => r
          end
      | None => None
      end
  end.

(** The thread ends out of a transaction, with this memory and these locals. *)
Definition ends (r : result) (o : outcome A) (lo : L) (m : gmap addr_t V) : Prop :=
  exists c', r = Some (o, c') /\ c_state c' <> RUNNING /\ c_locals c' = lo /\ c_mem c' = m.

Lemma atomically_ends t c o lo m : c_state c <> RUNNING ->
  Tx.atomic (flat t) (c_locals c) (c_mem c) = Some (o, lo, m) ->
  (forall e, o = Exn e -> is_std e = true) -> ends (atomically (eval t) c) o lo m.
Proof.
  intros Hc Ha Ho. pose proof (outermost_is_flat t c Hc) as H. rewrite Ha in H. cbn [eval] in H.
  assert (E : atomically (eval t) c = Some (o, Ctx ZOMBIE no_log m lo)).
  { destruct o as [a|e]; cbn [atomic_result] in H; [|rewrite (Ho e eq_refl) in H];
      by destruct (atomically (eval t) c) as [[[]]|]; simplify_eq/=. }
  rewrite E. by eexists.
Qed.

Lemma eval_outside p : forall c o lo m, c_state c <> RUNNING ->
  outside p (c_locals c) (c_mem c) = Some (o, lo, m) -> ends (eval p c) o lo m.
Proof.
  induction p as [a|e|x k IH|x v p IH|k IH|lo1 p IH|k IH|t IHt k IHk|q IHq h IHh k IHk];
    intros c o lo m Hc Hp; cbn [eval]; cbn [outside] in Hp.
  - simplify_eq. by exists c.
  - simplify_eq. by exists c.
  - simplify_eq. unfold access, in_transaction. rewrite bool_decide_false by done. by eexists.
  - simplify_eq. unfold access, in_transaction. rewrite bool_decide_false by done. by eexists.
  - by apply IH.
  - by apply (IH (with_locals lo1 c)).
  - unfold in_transaction. rewrite bool_decide_false by done. by apply IH.
  - destruct (Tx.atomic _ _ _) as [[[[a|e] lo1] m1]|] eqn:Ea; [| |done].
    + destruct (atomically_ends t c _ _ _ Hc Ea) as (c1 & -> & Hc1 & <- & <-); [done|]. by apply IHk.
    + destruct (is_std e) eqn:Es; [|done]. simplify_eq.
      destruct (atomically_ends t c _ _ _ Hc Ea) as (c1 & -> & H1); [naive_solver|]. by exists c1.
  - destruct (outside q _ _) as [[[[a|e] lo1] m1]|] eqn:Eq; [| |done];
      destruct (IHq c _ _ _ Hc Eq) as (c1 & -> & Hc1 & <- & <-).
    + by apply IHk.
    + destruct (outside (h e) _ _) as [[[[a|e'] lo2] m2]|] eqn:Eh; [| |done];
        destruct (IHh e c1 _ _ _ Hc1 Eh) as (c2 & -> & Hc2 & <- & <-); simpl.
      * by apply IHk.
      * simplify_eq. by exists c2.
Qed.

Lemma bare_outside p : forall lo, bare p ->
  exists o lo', forall m, outside p lo m = Some (o, lo', m).
Proof.
  induction p as [a|e|x k IH|x v p IH|k IH|lo1 p IH|k IH|t IHt k IHk|q IHq h IHh k IHk];
    intros lo Hb; cbn [outside]; simpl in Hb; try done; try (by eexists _, _); try (by auto).
  destruct Hb as (Hq & Hh & Hk). destruct (IHq lo Hq) as ([a|e] & lo1 & E1).
  - destruct (IHk a lo1 (Hk a)) as (o & lo2 & E2). exists o, lo2. intros m. by rewrite E1.
  - destruct (IHh e lo1 (Hh e)) as ([a|e'] & lo2 & E2).
    + destruct (IHk a lo2 (Hk a)) as (o & lo3 & E3). exists o, lo3. intros m. by rewrite E1, E2.
    + exists (Exn e'), lo2. intros m. by rewrite E1, E2.
Qed.

(** [C14] No access outside a transaction.  A program run outside a transaction
    does what [outside] says: each read and each write of a [TVar] throws
    [invalid_access], which the program may catch, and has no other effect; each
    call of [atomically] does what its flat body does in one piece; the thread
    ends outside a transaction, with the outcome, the captured variables and the
    memory that [outside] gives.  A program that never calls [atomically] always
    has such an end: the memory is not written, whatever it catches, and what
    it does, the manager's log included, does not depend on the memory. *)
Theorem no_access_outside p c : c_state c <> RUNNING ->
  (forall o lo m, outside p (c_locals c) (c_mem c) = Some (o, lo, m) -> ends (eval p c) o lo m) /\
  (bare p -> exists o lo, (forall m, outside p (c_locals c) m = Some (o, lo, m)) /\
    exists c', eval p c = Some (o, c') /\ c_state c' <> RUNNING /\ c_locals c' = lo /\ c_mem c' = c_mem c /\
    forall m, eval p (Ctx (c_state c) (c_log c) m (c_locals c)) =
      Some (o, Ctx (c_state c') (c_log c') m (c_locals c'))).
Proof.
  intros Hc. split; [intros o lo m; by apply eval_outside|]. intros Hb.
  destruct (bare_outside p (c_locals c) Hb) as (o & lo & Ho).
  destruct (eval_outside p c _ _ _ Hc (Ho (c_mem c))) as (c1 & E1 & _ & El & _).
  destruct (bare_keeps p c Hb Hc) as (o2 & c2 & E2 & Hc2 & Em2 & Hm2).
  rewrite E1 in E2. injection E2 as <- <-. exists o, lo. split; [done|]. by exists c1.
Qed.
End Nested.
End Nested.

(** ** Runs: the tests of nesting and of invalid accesses *)
Section Runs.
Import Nested.
Abbreviation demo := (prog Z unit Z).
Definition demo_ctx : ctx Z unit := Ctx ABORT no_log {[8 := 1]} tt.

(** A nested increment, the value read back by the outer body. *)
Definition read_modify_write : demo :=
  PRead 8 (fun v => PAtomically (PWrite 8 (v + 1) (PRet 0)) (fun _ => PRead 8 PRet)).

(** The inner body throws; the outer one does not catch. *)
Definition inner_abort (e : exn) : demo :=
  PWrite 8 5 (PAtomically (PThrow e) (fun _ => PWrite 8 6 (PRet 0))).

(** A transaction after an exception was caught. *)
Definition write_later : demo := PAtomically (PWrite 8 9 (PRet 0)) PRet.

Lemma nested_is_flat_witness :
  eval (PAtomically read_modify_write PRet) demo_ctx = Some (Val 2, Ctx ZOMBIE no_log {[8 := 2]} tt) /\
  eval (PAtomically (inner_abort (std_exception 0)) PRet) demo_ctx =
    Some (Exn (std_exception 0), Ctx ZOMBIE no_log {[8 := 1]} tt).
Proof.
  split.
  - exact (nested_is_flat read_modify_write demo_ctx ltac:(discriminate)).
  - exact (nested_is_flat (inner_abort (std_exception 0)) demo_ctx ltac:(discriminate)).
Defined.

Lemma lost_after_exception_witness : exists c',
  eval (PTry (PAtomically (inner_abort (other_exception 0)) PRet) (fun _ => write_later) PRet) demo_ctx =
    Some (Val 0, c') /\ c_state c' = RUNNING /\ c_mem c' = {[8 := 1]}.
Proof.
  eexists. split; [vm_compute; reflexivity|].
  eapply (lost_after_exception (inner_abort (other_exception 0)) (fun _ => write_later) PRet demo_ctx);
    [discriminate|vm_compute; reflexivity|vm_compute; reflexivity].
Defined.

(** A write and a read outside, the first exception caught; then a transaction,
    and an access after it. *)
Definition stray : demo :=
  PTry (PWrite 8 3 (PRet 0)) (fun _ => PRet 5)
    (fun a => PAtomically (PWrite 8 (a + 1) (PRet 0)) (fun _ => PRead 8 PRet)).
Definition bare_stray : demo := PTry (PWrite 8 3 (PRet 0)) (fun _ => PRead 8 PRet) PRet.

Lemma no_access_outside_witness :
  ends (eval stray demo_ctx) (Exn invalid_access) tt {[8 := 6]} /\
  exists o lo, (forall m, outside bare_stray tt m = Some (o, lo, m)) /\
    exists c', eval bare_stray demo_ctx = Some (o, c') /\ c_state c' <> RUNNING /\
    c_locals c' = lo /\ c_mem c' = {[8 := 1]} /\
    forall m, eval bare_stray (Ctx ABORT no_log m tt) =
      Some (o, Ctx (c_state c') (c_log c') m (c_locals c')).
Proof.
  split.
  - apply (no_access_outside stray demo_ctx); [discriminate|vm_compute; reflexivity].
  - apply (no_access_outside bare_stray demo_ctx); [discriminate|repeat split].
Defined.
End Runs.
