(* ===== verification/LockGuard.v ===== *)
(** * The lock guard ([tl2/lock_guard.h])

    The constructor takes the lock of every location of the set, in the order of
    the set, taking a lock shared by several locations once ([acquire_step] is
    one turn of its loop; it returns [None] while it waits for the lock).  The
    destructor releases the locks taken, last first ([release_step]). *)

From S2P Require Import Prelude VersionLock LockTable Store Op.

Record guard := Guard {
  locked : gset Z;              (* the local set of lock addresses *)
  m_locked : list nat }.        (* positions of the locations locked *)

Module LockGuard.
Section LockGuard.
Context {LS : Type} `{LocationSet LS}.

Definition start : guard := Guard ∅ [].

Definition acquire_step (t : tid_t) (tbl : gmap Z Z) (i : nat) (loc : Location) (ls : LS)
  (g : guard) : option (gmap Z Z * LS * guard) :=
  let lock := Loc.lock_ptr loc in
  if decide (lock ∈ locked g) then
    Some (tbl, ls_modify i (Loc.mark_owner t) ls, g)
  else
    match Loc.lock t tbl loc with
    | Some (took, tbl', loc') =>
        Some (tbl', ls_modify i (fun _ => loc') ls,
              Guard ({[lock]} ∪ locked g)
                    (if took then m_locked g ++ [i] else m_locked g))
    | None => None
    end.

(** Unlock the location at position [i]. *)
Definition release_step (tbl : gmap Z Z) (i : nat) (ls : LS) : gmap Z Z * LS :=
  match ls_locations ls !! i with
  | Some loc =>
      let '(tbl', loc') := Loc.unlock tbl loc in (tbl', ls_modify i (fun _ => loc') ls)
  | None => (tbl, ls)
  end.

(** The whole constructor, from position [i] with [n] locations to go: [None]
    when a lock is held by someone else. *)
Fixpoint acquire_from (n : nat) (t : tid_t) (tbl : gmap Z Z) (i : nat) (ls : LS) (g : guard)
  : option (gmap Z Z * LS * guard) :=
  match n with
  | O => Some (tbl, ls, g)
  | S n' =>
      match ls_locations ls !! i with
      | None => Some (tbl, ls, g)
      | Some loc =>
          match acquire_step t tbl i loc ls g with
          | Some (tbl', ls', g') => acquire_from n' t tbl' (S i) ls' g'
          | None => None
          end
      end
  end.

Definition acquire (t : tid_t) (tbl : gmap Z Z) (ls : LS) : option (gmap Z Z * LS * guard) :=
  let ls' := ls_stable_sort ls in acquire_from (ls_size ls') t tbl 0 ls' start.

(** The whole destructor. *)
Fixpoint release_all (todo : list nat) (tbl : gmap Z Z) (ls : LS) : gmap Z Z * LS :=
  match todo with
  | [] => (tbl, ls)
  | i :: todo' => let '(tbl', ls') := release_step tbl i ls in release_all todo' tbl' ls'
  end.

Definition release (g : guard) (tbl : gmap Z Z) (ls : LS) : gmap Z Z * LS :=
  release_all (rev (m_locked g)) tbl ls.
End LockGuard.
End LockGuard.
