(* ===== verification/Machine.v ===== *)
(** * The concurrent machine: [atomically] on many threads

    Every thread runs a list of transactions through the retry loop of
    [atomically] ([tl2/stm.h]) with the accesses of [TVar] ([tl2/t_var.h]), the
    log, the lock guard, validation and commit.  A step is one access to shared
    memory (the clock, a lock word, the data of a [TVar]) with the thread-local
    work around it; a thread that would spin has no step.  Steps of the threads
    interleave in any order.

    Accesses are sequentially consistent, which is what the acquire/release
    accesses of the lock words give to data they protect; the racy read of a
    trivially copyable [TVar] is one atomic load. *)

From S2P Require Import Prelude VersionLock LockTable Store Op Log Tx State LockGuard.

(** A call of [atomically(t, args...)]: what the caller does to the captured
    variables before it, the body, and what [restore_args(saved, args...)] makes
    of these variables ([restore saved now]). *)
Record txn (V L A : Type) := Txn { prepare : L -> L; body : tx V L A; restore : L -> L -> L }.
Arguments Txn {V L A} _ _ _.
Arguments prepare {V L A} _ _.
Arguments body {V L A} _.
Arguments restore {V L A} _ _ _.

Record shared (V : Type) := Shared {
  clock : Z;                    (* global_clock *)
  tbl : gmap Z Z;               (* hashtbl *)
  mem : gmap addr_t V }.        (* m_data of every TVar *)
Arguments Shared {V} _ _ _.
Arguments clock {V} _.
Arguments tbl {V} _.
Arguments mem {V} _.

(** Where a thread is. *)
Inductive pc (V L A : Type) :=
| Idle                                            (* outside [atomically] *)
| Attempt                                         (* top of the retry loop *)
| Body (p : tx V L A)                             (* in [t()] *)
| Load (x : addr_t) (k : V -> tx V L A)           (* read registered, value not in the log *)
| LoadHeld (x : addr_t) (k : V -> tx V L A)       (* [mutex.lock()] done *)
| LoadRel (x : addr_t) (v : V) (k : V -> tx V L A)  (* copied, [mutex.unlock()] to come *)
| Guarding (a : A) (i : nat) (g : guard)          (* constructor of the lock guard *)
| Incr (a : A) (g : guard)                        (* [global_clock.incr_version()] *)
| Validate (a : A) (wv : version_t) (i : nat) (g : guard)
| Commit (a : A) (wv : version_t) (i : nat) (g : guard)    (* [set_version] to come *)
| Moving (a : A) (wv : version_t) (i : nat) (g : guard)    (* [move] to come *)
| Release (a : A) (ok : bool) (todo : list nat)   (* destructor of the lock guard *)
| Crashed.                                        (* an exception [atomically] does not catch *)
Arguments Idle {V L A}.
Arguments Attempt {V L A}.
Arguments Body {V L A} _.
Arguments Load {V L A} _ _.
Arguments LoadHeld {V L A} _ _.
Arguments LoadRel {V L A} _ _ _.
Arguments Guarding {V L A} _ _ _.
Arguments Incr {V L A} _ _.
Arguments Validate {V L A} _ _ _ _.
Arguments Commit {V L A} _ _ _ _.
Arguments Moving {V L A} _ _ _ _.
Arguments Release {V L A} _ _ _.
Arguments Crashed {V L A}.

(** [todo] starts with the current transaction; [started] is a copy, for the
    theorems only, of the captured variables when the attempt started. *)
Record thread (LS V L A : Type) := Thread {
  at_pc : pc V L A;
  mgr : tman LS V;
  locals : L;
  saved : L;
  started : L;
  todo : list (txn V L A);
  results : list (outcome A) }.
Arguments Thread {LS V L A} _ _ _ _ _ _ _.
Arguments at_pc {LS V L A} _.
Arguments mgr {LS V L A} _.
Arguments locals {LS V L A} _.
Arguments saved {LS V L A} _.
Arguments started {LS V L A} _.
Arguments todo {LS V L A} _.
Arguments results {LS V L A} _.

(** A commit, as the theorems see it. *)
Record event (V L A : Type) := Event {
  e_wv : version_t;
  e_tid : tid_t;
  e_body : tx V L A;
  e_in : L;
  e_ret : A;
  e_out : L }.
Arguments Event {V L A} _ _ _ _ _ _.
Arguments e_wv {V L A} _.
Arguments e_tid {V L A} _.
Arguments e_body {V L A} _.
Arguments e_in {V L A} _.
Arguments e_ret {V L A} _.
Arguments e_out {V L A} _.

Module Machine.
Section Machine.
Context {LS V L A : Type} `{LocationSet LS}.
(** [std::is_trivial_v<T>] of the [TVar] at an address. *)
Context (is_trivial : addr_t -> bool).

Abbreviation thread := (thread LS V L A).
Abbreviation shared := (shared V).
Abbreviation event := (event V L A).

Definition goto (p : pc V L A) (th : thread) : thread :=
  Thread p (mgr th) (locals th) (saved th) (started th) (todo th) (results th).
Definition with_mgr (m : tman LS V) (th : thread) : thread :=
  Thread (at_pc th) m (locals th) (saved th) (started th) (todo th) (results th).
Definition with_locals (lo : L) (th : thread) : thread :=
  Thread (at_pc th) (mgr th) lo (saved th) (started th) (todo th) (results th).
Definition with_log (lg : log LS V) (th : thread) : thread :=
  with_mgr (TMan lg (state (mgr th)) (rv (mgr th))) th.
Definition with_ls (ls : LS) (th : thread) : thread :=
  with_log (MkLog ls (store (mlog (mgr th)))) th.

(** The current transaction returned or threw: the caller goes on. *)
Definition finish (o : outcome A) (m : tman LS V) (th : thread) : thread :=
  Thread Idle m (locals th) (saved th) (started th) (tail (todo th)) (results th ++ [o]).

Definition locs (th : thread) : list Location := Log.locations (mlog (mgr th)).
Definition lset (th : thread) : LS := l (mlog (mgr th)).

Definition silent (sh : shared) (th : thread) : option (shared * thread * option event) :=
  Some (sh, th, None).

(** [operator T()] up to the point where the value is in the log or the data
    must be loaded. *)
Definition step_read (t : tid_t) (sh : shared) (th : thread) (x : addr_t) (k : V -> tx V L A)
  : option (shared * thread * option event) :=
  match Manager.assert_in_transaction (mgr th) with
  | Some (Val tt, m) =>
      match Log.append_read t (tbl sh) x (mlog m) with
      | Some lg =>
          match Log.value_at x lg with
          | Some v => silent sh (goto (Body (k v)) (with_log lg th))
          | None => silent sh (goto (Load x k) (with_log lg th))
          end
      | None => None
      end
  | Some (Exn e, m) => silent sh (goto (Body (Throw e)) (with_mgr m th))
  | None => None
  end.

(** [operator=(T val)]. *)
Definition step_write (sh : shared) (th : thread) (x : addr_t) (v : V) (k : tx V L A)
  : option (shared * thread * option event) :=
  match Manager.assert_in_transaction (mgr th) with
  | Some (Val tt, m) =>
      match Log.append_write x v (mlog m) with
      | Some lg => silent sh (goto (Body k) (with_log lg th))
      | None => None
      end
  | Some (Exn e, m) => silent sh (goto (Body (Throw e)) (with_mgr m th))
  | None => None
  end.

(** The end of the body: its value, or an exception. *)
Definition step_throw (sh : shared) (th : thread) (e : exn)
  : option (shared * thread * option event) :=
  if is_std e then
    match Manager.end_transaction (mgr th) with
    | Some m => silent sh (finish (Exn e) m th)
    | None => None
    end
  else silent sh (goto Crashed th).

Definition step_body (t : tid_t) (sh : shared) (th : thread) (p : tx V L A)
  : option (shared * thread * option event) :=
  match p with
  | Ret a => silent sh (goto (Guarding a 0 LockGuard.start) (with_ls (ls_stable_sort (lset th)) th))
  | Throw e => step_throw sh th e
  | Read x k => step_read t sh th x k
  | Write x v k => step_write sh th x v k
  | GetL k => silent sh (goto (Body (k (locals th))) th)
  | SetL lo k => silent sh (goto (Body k) (with_locals lo th))
  end.

(** Reading [m_data]: directly when [T] is trivial, else under the lock. *)
Definition step_load (sh : shared) (th : thread) (x : addr_t) (k : V -> tx V L A)
  : option (shared * thread * option event) :=
  if is_trivial x then
    match mem sh !! x with
    | Some v => silent sh (goto (Body (k v)) th)
    | None => None
    end
  else
    match Word.lock (hashtbl_get (tbl sh) x) with
    | Some w => silent (Shared (clock sh) (hashtbl_put (tbl sh) x w) (mem sh))
                       (goto (LoadHeld x k) th)
    | None => None
    end.

Definition step_load_held (sh : shared) (th : thread) (x : addr_t) (k : V -> tx V L A)
  : option (shared * thread * option event) :=
  match mem sh !! x with
  | Some v => silent sh (goto (LoadRel x v k) th)
  | None => None
  end.

Definition step_load_rel (sh : shared) (th : thread) (x : addr_t) (v : V) (k : V -> tx V L A)
  : option (shared * thread * option event) :=
  silent (Shared (clock sh)
            (hashtbl_put (tbl sh) x (Word.unlock (hashtbl_get (tbl sh) x))) (mem sh))
         (goto (Body (k v)) th).

(** One turn of the guard's loop. *)
Definition step_guard (t : tid_t) (sh : shared) (th : thread) (a : A) (i : nat) (g : guard)
  : option (shared * thread * option event) :=
  match locs th !! i with
  | None => silent sh (goto (Incr a g) th)
  | Some loc =>
      match LockGuard.acquire_step t (tbl sh) i loc (lset th) g with
      | Some (tbl', ls', g') =>
          silent (Shared (clock sh) tbl' (mem sh)) (goto (Guarding a (S i) g') (with_ls ls' th))
      | None => None
      end
  end.

Definition the_event (t : tid_t) (th : thread) (a : A) (wv : version_t) : option event :=
  match todo th with
  | tr :: _ => Some (Event wv t (body tr) (started th) a (locals th))
  | [] => None
  end.

(** The commit is decided: the loop of [commit(write_version)] begins. *)
Definition decide_commit (t : tid_t) (sh : shared) (th : thread) (a : A) (wv : version_t)
  (g : guard) : option (shared * thread * option event) :=
  Some (sh, goto (Commit a wv 0 g) th, the_event t th a wv).

Definition step_incr (t : tid_t) (sh : shared) (th : thread) (a : A) (g : guard)
  : option (shared * thread * option event) :=
  let '(w, wv) := Word.incr_version (clock sh) in
  let sh' := Shared w (tbl sh) (mem sh) in
  if wv =? W64.wrap (Manager.read_version (mgr th) + 1) then decide_commit t sh' th a wv g
  else silent sh' (goto (Validate a wv 0 g) th).

Definition abort (sh : shared) (th : thread) (a : A) (g : guard)
  : option (shared * thread * option event) :=
  silent sh (goto (Release a false (rev (m_locked g))) th).

Definition step_validate (t : tid_t) (sh : shared) (th : thread) (a : A) (wv : version_t)
  (i : nat) (g : guard) : option (shared * thread * option event) :=
  match locs th !! i with
  | None => decide_commit t sh th a wv g
  | Some loc =>
      if m_read loc then
        match Loc.get_version t (tbl sh) loc with
        | Some v => if Manager.read_version (mgr th) <? v then abort sh th a g
                    else silent sh (goto (Validate a wv (S i) g) th)
        | None => None
        end
      else silent sh (goto (Validate a wv (S i) g) th)
  end.

Definition step_commit (t : tid_t) (sh : shared) (th : thread) (a : A) (wv : version_t)
  (i : nat) (g : guard) : option (shared * thread * option event) :=
  match locs th !! i with
  | None => silent sh (goto (Release a true (rev (m_locked g))) th)
  | Some loc =>
      if m_written loc then
        match Loc.set_version t wv (tbl sh) loc with
        | Some tbl' => silent (Shared (clock sh) tbl' (mem sh)) (goto (Moving a wv i g) th)
        | None => None
        end
      else silent sh (goto (Commit a wv (S i) g) th)
  end.

Definition step_move (sh : shared) (th : thread) (a : A) (wv : version_t) (i : nat) (g : guard)
  : option (shared * thread * option event) :=
  match locs th !! i with
  | None => None
  | Some loc =>
      match Loc.move loc (store (mlog (mgr th))) (mem sh) with
      | Some (st', mem') =>
          silent (Shared (clock sh) (tbl sh) mem')
                 (goto (Commit a wv (S i) g) (with_log (MkLog (lset th) st') th))
      | None => None
      end
  end.

(** The guard's destructor, then: return, or restore the arguments and retry. *)
Definition step_release (sh : shared) (th : thread) (a : A) (ok : bool) (rest : list nat)
  : option (shared * thread * option event) :=
  match rest with
  | i :: rest' =>
      let '(tbl', ls') := LockGuard.release_step (tbl sh) i (lset th) in
      silent (Shared (clock sh) tbl' (mem sh)) (goto (Release a ok rest') (with_ls ls' th))
  | [] =>
      if ok then
        match Manager.end_transaction (mgr th) with
        | Some m => silent sh (finish (Val a) m th)
        | None => None
        end
      else
        match todo th with
        | tr :: _ => silent sh (goto Attempt (with_locals (restore tr (saved th) (locals th)) th))
        | [] => None
        end
  end.

Definition step_idle (sh : shared) (th : thread) : option (shared * thread * option event) :=
  match todo th with
  | [] => None
  | tr :: _ =>                        (* const auto saved = std::make_tuple(args...) *)
      let lo := prepare tr (locals th) in
      silent sh (Thread Attempt (mgr th) lo lo (started th) (todo th) (results th))
  end.

Definition step_attempt (sh : shared) (th : thread) : option (shared * thread * option event) :=
  match todo th with
  | [] => None
  | tr :: _ =>
      match Manager.start_transaction (clock sh) (mgr th) with
      | Some m => silent sh (Thread (Body (body tr)) m (locals th) (saved th) (locals th)
                               (todo th) (results th))
      | None => None
      end
  end.

Definition tstep (t : tid_t) (sh : shared) (th : thread)
  : option (shared * thread * option event) :=
  match at_pc th with
  | Idle => step_idle sh th
  | Attempt => step_attempt sh th
  | Body p => step_body t sh th p
  | Load x k => step_load sh th x k
  | LoadHeld x k => step_load_held sh th x k
  | LoadRel x v k => step_load_rel sh th x v k
  | Guarding a i g => step_guard t sh th a i g
  | Incr a g => step_incr t sh th a g
  | Validate a wv i g => step_validate t sh th a wv i g
  | Commit a wv i g => step_commit t sh th a wv i g
  | Moving a wv i g => step_move sh th a wv i g
  | Release a ok rest => step_release sh th a ok rest
  | Crashed => None
  end.

(** ** The system *)

Record sys := Sys { sh : shared; ths : gmap tid_t thread }.

Inductive step : sys -> option event -> sys -> Prop :=
| step_thread s t th sh' th' ev :
    ths s !! t = Some th ->
    tstep t (sh s) th = Some (sh', th', ev) ->
    step s ev (Sys sh' (<[t := th']> (ths s))).

(** [n] steps, with the commits they decided in the order of the decisions. *)
Inductive steps : nat -> sys -> list event -> sys -> Prop :=
| steps_nil s : steps 0 s [] s
| steps_snoc n s evs s' ev s'' :
    steps n s evs s' -> step s' ev s'' -> steps (S n) s (evs ++ option_list ev) s''.

(** A new thread with its transactions; a new system. *)
Definition new_thread (p : list (txn V L A) * L) : thread :=
  Thread Idle Manager.init p.2 p.2 p.2 p.1 [].

Definition init (m : gmap addr_t V) (ps : gmap tid_t (list (txn V L A) * L)) : sys :=
  Sys (Shared 0 ∅ m) (new_thread <$> ps).

(** The system driven by a schedule, for concrete runs. *)
Fixpoint run_schedule (sched : list tid_t) (s : sys) : option (sys * list event) :=
  match sched with
  | [] => Some (s, [])
  | t :: rest =>
      match ths s !! t with
      | None => None
      | Some th =>
          match tstep t (sh s) th with
          | None => None
          | Some (sh', th', ev) =>
              match run_schedule rest (Sys sh' (<[t := th']> (ths s))) with
              | Some (s', evs) => Some (s', option_list ev ++ evs)
              | None => None
              end
          end
      end
  end.

Lemma steps_cons n s ev s' evs s'' :
  step s ev s' -> steps n s' evs s'' -> steps (S n) s (option_list ev ++ evs) s''.
Proof.
  intros Hst Hs. induction Hs as [s'|n s' evs s1 ev1 s2 Hs IH H1].
  - rewrite app_nil_r, <- (app_nil_l (option_list ev)). econstructor; [constructor|done].
  - rewrite app_assoc. econstructor; eauto.
Qed.

Lemma run_schedule_steps sched s s' evs :
  run_schedule sched s = Some (s', evs) -> steps (length sched) s evs s'.
Proof.
  revert s evs. induction sched as [|t rest IH]; intros s evs Hr; simpl in *.
  - simplify_eq. constructor.
  - destruct (ths s !! t) as [th|] eqn:Ht; [|done].
    destruct (tstep t (sh s) th) as [[[sh' th'] ev]|] eqn:Hst; [|done].
    destruct (run_schedule rest _) as [[s1 evs1]|] eqn:Hrest; [|done]. simplify_eq.
    eapply steps_cons; [|eauto]. by econstructor.
Qed.
End Machine.
End Machine.
