(* ===== verification/History.v ===== *)
(** * Histories of commits and the memory they describe

    A history lists the decided commits in the order of their write versions.
    [mem_upto v] is the memory of the commits up to version [v]: what a snapshot
    at read version [v] is.  The lemmas say how it depends on the commits that
    write one address, which is all that the invariant of the machine needs. *)

From S2P Require Import Prelude Log Tx Machine.

(** A commit with what its body observed and its abstract log. *)
Record hrec (V L A : Type) := HRec {
  h_ev : event V L A;
  h_obs : list (addr_t * V);
  h_log : alog V }.
Arguments HRec {V L A} _ _ _.
Arguments h_ev {V L A} _.
Arguments h_obs {V L A} _.
Arguments h_log {V L A} _.

Module History.
Section History.
Context {V L A : Type}.
Abbreviation hrec := (hrec V L A).
Implicit Types (h : hrec) (H : list hrec) (m : gmap addr_t V) (v : version_t) (x : addr_t).

Definition hwv h : version_t := e_wv (h_ev h).
Definition hwrites h : gmap addr_t V := writes (h_log h).

Definition apply_all H m : gmap addr_t V := foldl (fun m h => hwrites h ∪ m) m H.

Definition mem_upto v H m : gmap addr_t V :=
  apply_all (filter (fun h => hwv h <= v) H) m.

(** Insertion by write version. *)
Fixpoint insert h H : list hrec :=
  match H with
  | [] => [h]
  | k :: r => if hwv h <? hwv k then h :: k :: r else k :: insert h r
  end.

Definition sorted H : Prop := StronglySorted (fun h k => hwv h < hwv k) H.

Lemma insert_split h H :
  sorted H -> (forall k, k ∈ H -> hwv k <> hwv h) ->
  exists H1 H2, H = H1 ++ H2 /\ insert h H = H1 ++ h :: H2 /\
    (forall k, k ∈ H1 -> hwv k < hwv h) /\ (forall k, k ∈ H2 -> hwv h < hwv k).
Proof.
  intros Hs. induction Hs as [|k H Hs IH Hk]; intros Hne; simpl.
  - exists [], []. split_and!; try done; intros k Hk; by apply elem_of_nil in Hk.
  - rewrite Forall_forall in Hk. destruct (Z.ltb_spec (hwv h) (hwv k)) as [Hlt|Hge].
    + exists [], (k :: H). split_and!; try done.
      * intros j Hj. by apply elem_of_nil in Hj.
      * intros j [->|Hj]%elem_of_cons; [done|]. specialize (Hk j Hj). simpl in Hk. lia.
    + destruct IH as (H1 & H2 & -> & -> & Ha & Hb); [intros; apply Hne; by right|].
      exists (k :: H1), H2. split_and!; try done. intros j [->|Hj]%elem_of_cons; [|by apply Ha].
      assert (hwv k <> hwv h) by (apply Hne; by left). lia.
Qed.

Lemma insert_sorted h H :
  sorted H -> (forall k, k ∈ H -> hwv k <> hwv h) -> sorted (insert h H).
Proof.
  intros Hs. unfold sorted in *. induction Hs as [|k H Hs IH Hk]; intros Hne; simpl.
  - repeat constructor.
  - destruct (Z.ltb_spec (hwv h) (hwv k)) as [Hlt|Hge].
    + constructor; [by constructor|]. constructor; [done|].
      eapply Forall_impl; [done|]. intros; simpl in *; lia.
    + constructor; [apply IH; intros; apply Hne; by right|].
      assert (hwv k <> hwv h) by (apply Hne; by left). clear IH Hs.
      induction H as [|j H IH]; simpl; [repeat constructor; lia|].
      apply Forall_cons in Hk as [Hj Hk].
      destruct (hwv h <? hwv j); repeat constructor; try done; try lia.
      apply IH; [done|]. intros i Hi. apply Hne. set_solver.
Qed.

Lemma insert_perm h H : insert h H ≡ₚ h :: H.
Proof.
  induction H as [|k H IH]; simpl; [done|]. destruct (_ <? _); [done|].
  rewrite IH. apply Permutation_swap.
Qed.

Lemma elem_of_insert h k H : k ∈ insert h H <-> k = h \/ k ∈ H.
Proof. by rewrite insert_perm, elem_of_cons. Qed.

(** ** One address *)

Definition writes_to x h : Prop := is_Some (hwrites h !! x).
#[export] Instance writes_to_dec x h : Decision (writes_to x h).
Proof. unfold writes_to. apply _. Defined.

Definition writers v H x : list hrec := filter (fun h => hwv h <= v /\ writes_to x h) H.

Lemma apply_all_lookup H m x :
  apply_all H m !! x =
    match last (filter (writes_to x) H) with
    | Some h => hwrites h !! x
    | None => m !! x
    end.
Proof.
  induction H as [|h H IH] using rev_ind; [done|].
  unfold apply_all in *. rewrite foldl_app, filter_app. simpl.
  destruct (decide (writes_to x h)) as [Hx|Hx].
  - rewrite filter_cons_True, filter_nil, last_snoc by done.
    destruct Hx as [w Hw]. rewrite Hw. by apply lookup_union_Some_l.
  - rewrite filter_cons_False, filter_nil, app_nil_r, <- IH by done.
    apply lookup_union_r. unfold writes_to in Hx. by rewrite eq_None_not_Some.
Qed.

Lemma mem_upto_lookup v H m x :
  mem_upto v H m !! x =
    match last (writers v H x) with Some h => hwrites h !! x | None => m !! x end.
Proof.
  unfold mem_upto. rewrite apply_all_lookup, list_filter_filter.
  assert (filter (fun h => writes_to x h /\ hwv h <= v) H = writers v H x) as ->; [|done].
  apply list_filter_iff. naive_solver.
Qed.

(** Commits outside [(v, v']], or that do not write [x], do not matter. *)
Lemma mem_upto_agree v v' H m x :
  (forall h, h ∈ H -> writes_to x h -> hwv h <= v <-> hwv h <= v') ->
  mem_upto v H m !! x = mem_upto v' H m !! x.
Proof.
  intros Hag. rewrite !mem_upto_lookup.
  assert (writers v H x = writers v' H x) as ->; [|done]. unfold writers.
  induction H as [|h H IH]; [done|]. rewrite !filter_cons.
  rewrite IH by (intros; apply Hag; [by right|done]).
  specialize (Hag h ltac:(by left)).
  repeat case_decide; naive_solver.
Qed.

Lemma writers_insert_irrelevant v h H x :
  ~ (hwv h <= v /\ writes_to x h) -> writers v (insert h H) x = writers v H x.
Proof.
  intros Hn. unfold writers. induction H as [|k H IH]; simpl.
  - by rewrite filter_cons_False.
  - destruct (_ <? _).
    + by rewrite filter_cons_False.
    + rewrite !filter_cons, IH. done.
Qed.

(** A new commit does not change a snapshot older than it, nor an address it
    does not write. *)
Lemma mem_upto_insert_irrelevant v h H m x :
  (hwv h <= v -> ~ writes_to x h) -> mem_upto v (insert h H) m !! x = mem_upto v H m !! x.
Proof.
  intros Hn. rewrite !mem_upto_lookup, writers_insert_irrelevant; [done|]. naive_solver.
Qed.

(** The last writer of an address determines it. *)
Lemma mem_upto_last v h H m x :
  sorted H -> h ∈ H -> hwv h <= v -> writes_to x h ->
  (forall k, k ∈ H -> writes_to x k -> hwv k <= hwv h) ->
  mem_upto v H m !! x = hwrites h !! x.
Proof.
  intros Hs Hh Hv Hx Hmax. rewrite mem_upto_lookup.
  apply list_elem_of_split in Hh as (H1 & H2 & ->).
  unfold writers. rewrite filter_app, filter_cons_True by done.
  assert (filter (fun k => hwv k <= v /\ writes_to x k) H2 = []) as ->.
  { apply elem_of_nil_inv. intros k Hk. apply list_elem_of_filter in Hk as [[_ Hk] Hin].
    assert (hwv k <= hwv h) by (apply Hmax; [set_solver|done]).
    unfold sorted in Hs. apply StronglySorted_app_1_r in Hs.
    apply StronglySorted_inv in Hs as [_ Hs]. rewrite Forall_forall in Hs.
    specialize (Hs k Hin). simpl in Hs. lia. }
  by rewrite last_snoc.
Qed.

(** ** Serial executions *)

(** The events one after the other, each body running alone. *)
Inductive serial : gmap addr_t V -> list (event V L A) -> gmap addr_t V -> Prop :=
| serial_nil m : serial m [] m
| serial_snoc m evs m' e m'' :
    serial m evs m' ->
    Tx.run (e_body e) (e_in e) m' = Some (Val (e_ret e), e_out e, m'') ->
    serial m (evs ++ [e]) m''.

(** A commit is the execution of its body through the log, and what it observed
    is the memory of the commits before it. *)
Definition replays (H : list hrec) m h : Prop :=
  Tx.exec (e_body (h_ev h)) (e_in (h_ev h)) (h_obs h) (Ret (e_ret (h_ev h)))
    (e_out (h_ev h)) (h_log h) /\
  forall x (w : V), (x, w) ∈ h_obs h -> mem_upto (hwv h - 1) H m !! x = Some w.

Lemma mem_upto_all v H m : (forall h, h ∈ H -> hwv h <= v) -> mem_upto v H m = apply_all H m.
Proof.
  intros Hall. unfold mem_upto. f_equal. induction H as [|h H IH]; [done|].
  rewrite filter_cons_True by (apply Hall; by left). f_equal. apply IH. intros; apply Hall. by right.
Qed.

Lemma mem_upto_snoc v H h m :
  v < hwv h -> mem_upto v (H ++ [h]) m = mem_upto v H m.
Proof.
  intros Hv. unfold mem_upto. rewrite filter_app, filter_cons_False, filter_nil, app_nil_r by lia.
  done.
Qed.

(** A sorted history of commits that replay is a serial execution. *)
Lemma replays_serial H m :
  sorted H -> (forall h, h ∈ H -> replays H m h) -> serial m (h_ev <$> H) (apply_all H m).
Proof.
  induction H as [|h H IH] using rev_ind; intros Hs Hr; [constructor|].
  assert (Hlt : forall k, k ∈ H -> hwv k < hwv h).
  { intros k Hk. apply (StronglySorted_app_1_elem_of _ _ _ _ _ Hs); [done|].
    by apply list_elem_of_singleton. }
  rewrite fmap_app. simpl. apply (serial_snoc _ _ (apply_all H m)).
  - apply IH; [by apply StronglySorted_app_1_l in Hs|]. intros k Hk.
    destruct (Hr k) as [He Ho]; [set_solver|]. split; [done|]. intros x w Hin.
    specialize (Hlt k Hk). rewrite <- (mem_upto_snoc _ H h) by lia. by apply Ho.
  - destruct (Hr h) as [He Ho]; [set_solver|].
    rewrite (Tx.exec_run_ret _ _ _ _ _ _ (apply_all H m) He).
    + unfold apply_all. by rewrite foldl_app.
    + intros x w Hin. specialize (Ho x w Hin). rewrite mem_upto_snoc in Ho by lia.
      rewrite mem_upto_all in Ho; [done|]. intros k Hk. specialize (Hlt k Hk). lia.
Qed.
End History.
End History.
