(* ===== verification/MachineInv.v ===== *)
(** * The invariant of the concurrent machine

    What each thread knows at each point of [atomically] ([tinv]) and what holds
    across threads ([inv]): lock words agree with who holds what, versions bound
    the commits, memory is the memory of the decided commits minus the writes
    that a committing thread has not performed yet, and whatever an attempt
    observed is either its snapshot or makes it fail validation. *)

From S2P Require Import Prelude VersionLock LockTable Store Op Log Tx State LockGuard Machine History.
Import History.

Section Views.
Context {LS V L A : Type} `{LocationSetLaws LS}.
Abbreviation thread := (thread LS V L A).
Abbreviation hrec := (hrec V L A).
Implicit Types (th : thread).

Definition store_of th : Store.store V := store (mlog (mgr th)).
Definition rv_of th : version_t := rv (mgr th).

(** The lock of the location at a position. *)
Definition lock_at th (i : nat) : option Z :=
  (fun loc => Loc.lock_ptr loc) <$> (Machine.locs th !! i).

(** The positions locked by the guard, while it is alive. *)
Definition held_pos th : list nat :=
  match at_pc th with
  | Guarding _ _ g | Incr _ g | Validate _ _ _ g | Commit _ _ _ g | Moving _ _ _ g => m_locked g
  | Release _ _ rest => rest
  | _ => []
  end.

(** The locks a thread holds. *)
Definition held th : list Z :=
  match at_pc th with
  | LoadHeld x _ | LoadRel x _ _ => [index x]
  | _ => omap (lock_at th) (held_pos th)
  end.

(** The write version, from the increment of the clock to the end of the
    commit; [undecided] while the attempt may still abort. *)
Definition wv_of th : option version_t :=
  match at_pc th with
  | Validate _ wv _ _ | Commit _ wv _ _ | Moving _ wv _ _ => Some wv
  | _ => None
  end.

Definition undecided th : Prop :=
  match at_pc th with Validate _ _ _ _ => True | _ => False end.

(** Addresses whose data, or version, the commit has not written yet. *)
Definition pending_from (i : nat) th (x : addr_t) : Prop :=
  exists j loc, (i <= j)%nat /\ Machine.locs th !! j = Some loc /\
    m_written loc = true /\ m_addr loc = x.

Definition pend th (x : addr_t) : Prop :=
  match at_pc th with Commit _ _ i _ | Moving _ _ i _ => pending_from i th x | _ => False end.

Definition vpend th (x : addr_t) : Prop :=
  match at_pc th with
  | Commit _ _ i _ => pending_from i th x
  | Moving _ _ i _ => pending_from (S i) th x
  | _ => False
  end.

Definition alog_of th : alog V := abs_locs (Machine.locs th) (store_of th).

(** An attempt that is not decided: what it read matters. *)
Definition reader th : Prop :=
  match at_pc th with
  | Body _ | Load _ _ | LoadHeld _ _ | LoadRel _ _ _ | Guarding _ _ _ | Incr _ _
  | Validate _ _ _ _ => True
  | _ => False
  end.

Definition ver (tbl : gmap Z Z) (i : Z) : version_t := Word.unpack_version (table_word tbl i).
End Views.

Section Invariant.
Context {LS V L A : Type} `{LocationSetLaws LS}.
Abbreviation thread := (thread LS V L A).
Abbreviation hrec := (hrec V L A).
Implicit Types (th : thread).

(** The initial memory. *)
Context (m0 : gmap addr_t V).

Section Env.
(** The version of the clock, the lock words and the history so far. *)
Context (c : version_t) (T : gmap Z Z) (HS : list hrec).

(** Each observation is the snapshot's value, or its lock has moved past the
    read version. *)
Definition obs_ok (r : version_t) (o : list (addr_t * V)) : Prop :=
  forall x v, (x, v) ∈ o -> mem_upto r HS m0 !! x = Some v \/ r < ver T (index x).

(** The attempt reached [p] with the abstract log [al]. *)
Definition reached th (p : tx V L A) (al : alog V) : Prop :=
  exists tr rest o, todo th = tr :: rest /\
    Tx.exec (body tr) (started th) o p (locals th) al /\ obs_ok (rv_of th) o.

Definition rv_ok th : Prop := 0 <= rv_of th <= c.

Definition in_body th : Prop :=
  log_wf (mlog (mgr th)) /\ state (mgr th) = RUNNING /\ rv_ok th.

(** A read registered at [x], about to get its value from memory. *)
Definition loading th (x : addr_t) (k : V -> tx V L A) : Prop :=
  in_body th /\ exists al, reached th (Read x k) al /\ writes al !! x = None /\
    alog_of th = ALog ({[x]} ∪ reads al) (writes al).

(** The body returned [a]; the log is as the body left it. *)
Definition returned th (a : A) : Prop :=
  locs_ok (Machine.locs th) (store_of th) /\ rv_ok th /\
  (forall loc, loc ∈ Machine.locs th -> m_written loc = true ->
     is_Some (staged (store_of th) loc)) /\
  reached th (Ret a) (alog_of th).

(** The guard took care of the locations before position [i]. *)
Record guarded (t : tid_t) th (i : nat) (g : guard) : Prop := {
  gd_owner : forall j loc, Machine.locs th !! j = Some loc ->
    m_owner loc = if decide (j < i)%nat then Some t else None;
  gd_held : forall j loc, Machine.locs th !! j = Some loc -> (j < i)%nat ->
    Loc.lock_ptr loc ∈ held th;
  gd_set : forall k, k ∈ locked g <->
    exists j loc, (j < i)%nat /\ Machine.locs th !! j = Some loc /\ Loc.lock_ptr loc = k;
  gd_pos : forall j, j ∈ m_locked g -> (j < i)%nat /\ is_Some (Machine.locs th !! j) }.

(** All locations are guarded and the write version was taken. *)
Definition stamped (t : tid_t) th (wv : version_t) (g : guard) : Prop :=
  guarded t th (length (Machine.locs th)) g /\ 0 <= rv_of th < wv /\ wv <= c.

(** A decided commit, at position [i]: the history has it, and what remains to
    be moved is what the history says. *)
Definition committing (t : tid_t) th (wv : version_t) (i : nat) (g : guard) : Prop :=
  stamped t th wv g /\ locs_ok (Machine.locs th) (store_of th) /\
  (forall k, k ∈ held th -> ver T k <= wv) /\ todo th <> [] /\
  exists h, h ∈ HS /\ hwv h = wv /\
    (forall j loc, (i <= j)%nat -> Machine.locs th !! j = Some loc -> m_written loc = true ->
       is_Some (staged (store_of th) loc) /\
       staged (store_of th) loc = hwrites h !! m_addr loc) /\
    (forall j loc, Machine.locs th !! j = Some loc -> m_written loc = true ->
       writes_to (m_addr loc) h).

Definition tinv (t : tid_t) th : Prop :=
  match at_pc th with
  | Idle => locs_ok (Machine.locs th) (store_of th)
  | Attempt => locs_ok (Machine.locs th) (store_of th) /\ todo th <> []
  | Body p => in_body th /\ reached th p (alog_of th)
  | Load x k | LoadHeld x k => loading th x k
  | LoadRel x v k => loading th x k /\
      (mem_upto (rv_of th) HS m0 !! x = Some v \/ rv_of th < ver T (index x))
  | Guarding a i g => returned th a /\ guarded t th i g
  | Incr a g => returned th a /\ guarded t th (length (Machine.locs th)) g
  | Validate a wv i g => returned th a /\ stamped t th wv g /\
      (forall k, k ∈ held th -> ver T k < wv) /\
      (forall j loc, Machine.locs th !! j = Some loc -> (j < i)%nat -> m_read loc = true ->
         ver T (Loc.lock_ptr loc) <= rv_of th)
  | Commit a wv i g => committing t th wv i g
  | Moving a wv i g => committing t th wv i g /\
      exists loc, Machine.locs th !! i = Some loc /\ m_written loc = true
  | Release a ok rest => locs_ok (Machine.locs th) (store_of th) /\ todo th <> [] /\
      (forall j, j ∈ rest -> is_Some (Machine.locs th !! j))
  | Crashed => True
  end.
End Env.

Implicit Types (ths : gmap tid_t thread).

Record inv (n : nat) (HS : list hrec) (s : Machine.sys (LS := LS) (V := V) (L := L) (A := A)) : Prop := {
  i_clock : exists c, clock (Machine.sh s) = Word.pack c false /\ 0 <= c <= Z.of_nat n;
  i_words : forall i, W64.in_range (table_word (tbl (Machine.sh s)) i) /\
    ver (tbl (Machine.sh s)) i <= Word.unpack_version (clock (Machine.sh s));
  i_lock : forall i, Word.is_locked (table_word (tbl (Machine.sh s)) i) = true <->
    exists t th, Machine.ths s !! t = Some th /\ i ∈ held th;
  i_excl : forall t u th thu i, Machine.ths s !! t = Some th -> Machine.ths s !! u = Some thu ->
    i ∈ held th -> i ∈ held thu -> t = u;
  i_nodup : forall t th, Machine.ths s !! t = Some th -> NoDup (held th);
  i_thread : forall t th, Machine.ths s !! t = Some th ->
    tinv (Word.unpack_version (clock (Machine.sh s))) (tbl (Machine.sh s)) HS t th;
  (* no commit of a version inside the snapshot of a reader is still to come at
     an address it read *)
  i_settled : forall t u th thu x wv, Machine.ths s !! t = Some th ->
    Machine.ths s !! u = Some thu -> reader th -> x ∈ reads (alog_of th) ->
    wv_of thu = Some wv -> wv <= rv_of th -> index x ∉ held thu;
  i_wv : forall t u th thu wv, Machine.ths s !! t = Some th -> Machine.ths s !! u = Some thu ->
    wv_of th = Some wv -> wv_of thu = Some wv -> t = u;
  i_fresh : forall t th wv h, Machine.ths s !! t = Some th -> undecided th ->
    wv_of th = Some wv -> h ∈ HS -> hwv h <> wv;
  i_sorted : sorted HS;
  i_bound : forall h, h ∈ HS -> 1 <= hwv h <= Word.unpack_version (clock (Machine.sh s));
  i_replay : forall h, h ∈ HS -> replays HS m0 h;
  (* an undecided attempt cannot write what a later commit observed *)
  i_cross : forall h x v u thu wv, h ∈ HS -> (x, v) ∈ h_obs h -> Machine.ths s !! u = Some thu ->
    undecided thu -> wv_of thu = Some wv -> wv < hwv h -> index x ∉ held thu;
  (* the version of a lock is at least that of every commit under it *)
  i_ver : forall h x, h ∈ HS -> writes_to x h ->
    hwv h <= ver (tbl (Machine.sh s)) (index x) \/
    exists t th, Machine.ths s !! t = Some th /\ wv_of th = Some (hwv h) /\ vpend th x;
  i_mem : forall x, (forall t th, Machine.ths s !! t = Some th -> ~ pend th x) ->
    mem (Machine.sh s) !! x = apply_all HS m0 !! x;
  i_pend : forall t th x wv, Machine.ths s !! t = Some th -> pend th x -> wv_of th = Some wv ->
    mem (Machine.sh s) !! x = mem_upto (wv - 1) HS m0 !! x }.
End Invariant.
