(* ===== verification/InvFacts.v ===== *)
(** * Consequences of the machine's invariant

    Facts about lock words, about the memory and the versions seen by a thread
    that holds a lock, and the frame lemma: what a thread knows survives the
    steps of the others. *)

From S2P Require Import Prelude VersionLock LockTable Store Op Log Tx State LockGuard Machine History MachineInv.
Import History.

Section Facts.
Context {LS V L A : Type} `{LocationSetLaws LS}.
Abbreviation thread := (thread LS V L A).
Abbreviation hrec := (hrec V L A).
Abbreviation sys := (Machine.sys (LS := LS) (V := V) (L := L) (A := A)).
Implicit Types (th : thread) (s : sys) (HS : list hrec).
Context (m0 : gmap addr_t V).

(** ** Lock words *)

Lemma word_pack T i :
  W64.in_range (table_word T i) ->
  table_word T i = Word.pack (ver T i) (Word.is_locked (table_word T i)) /\
  Word.version_ok (ver T i).
Proof.
  intros Hr. destruct (Word.word_cases _ Hr) as (v & b & Hv & E). unfold ver.
  rewrite E, Word.unpack_pack, Word.is_locked_pack by done. done.
Qed.

(** The table after a packed word was stored. *)
Lemma ver_insert T i v b j :
  Word.version_ok v ->
  ver (<[i := Word.pack v b]> T) j = if decide (i = j) then v else ver T j.
Proof.
  intros Hv. unfold ver. case_decide as E; [subst; rewrite table_word_insert_eq|].
  - by apply Word.unpack_pack.
  - by rewrite table_word_insert_ne.
Qed.

Lemma locked_insert T i v b j :
  Word.version_ok v ->
  Word.is_locked (table_word (<[i := Word.pack v b]> T) j) =
    if decide (i = j) then b else Word.is_locked (table_word T j).
Proof.
  intros Hv. case_decide as E; [subst; rewrite table_word_insert_eq|].
  - by apply Word.is_locked_pack.
  - by rewrite table_word_insert_ne.
Qed.

Lemma range_insert T i v b j :
  Word.version_ok v -> W64.in_range (table_word T j) ->
  W64.in_range (table_word (<[i := Word.pack v b]> T) j).
Proof.
  intros Hv Hr. destruct (decide (i = j)) as [<-|E].
  - rewrite table_word_insert_eq. by apply Word.pack_range.
  - by rewrite table_word_insert_ne.
Qed.

(** ** What holding a lock gives *)

Lemma lock_at_held th i loc :
  Machine.locs th !! i = Some loc -> lock_at th i = Some (Loc.lock_ptr loc).
Proof. intros E. unfold lock_at. by rewrite E. Qed.

Lemma pending_held c T HS t th wv i g i' x :
  committing c T HS t th wv i g -> pending_from i' th x -> index x ∈ held th.
Proof.
  intros ((Hg & _ & _) & _) (j & loc & _ & Hj & _ & <-).
  apply (gd_held _ _ _ _ Hg j); [done|]. by eapply lookup_lt_Some.
Qed.

Lemma pend_held n HS s t th x :
  inv m0 n HS s -> Machine.ths s !! t = Some th -> pend th x -> index x ∈ held th.
Proof.
  intros Hi Ht Hp. pose proof (i_thread _ _ _ _ Hi t th Ht) as Hti. unfold tinv, pend in *.
  destruct (at_pc th); try done; [|destruct Hti as [Hti _]]; eapply pending_held; eauto.
Qed.

Lemma vpend_pend th x : vpend th x -> pend th x.
Proof.
  unfold vpend, pend. destruct (at_pc th); try done.
  intros (j & loc & Hj & ?). exists j, loc. split; [lia|done].
Qed.

(** Nobody is about to write an address whose lock nobody holds. *)
Lemma unlocked_no_pend n HS s t th x :
  inv m0 n HS s -> Machine.ths s !! t = Some th ->
  Word.is_locked (table_word (tbl (Machine.sh s)) (index x)) = false -> ~ pend th x.
Proof.
  intros Hi Ht Hl Hp. pose proof (pend_held _ _ _ _ _ _ Hi Ht Hp) as Hh.
  assert (Word.is_locked (table_word (tbl (Machine.sh s)) (index x)) = true); [|congruence].
  apply (i_lock _ _ _ _ Hi). eauto.
Qed.

Lemma held_pend_self n HS s t th u thu x :
  inv m0 n HS s -> Machine.ths s !! t = Some th -> Machine.ths s !! u = Some thu ->
  index x ∈ held th -> pend thu x -> u = t.
Proof.
  intros Hi Ht Hu Hh Hp. pose proof (pend_held _ _ _ _ _ _ Hi Hu Hp).
  by eapply (i_excl _ _ _ _ Hi).
Qed.

(** Commits at an address whose version nobody is about to write are bounded by
    the version of its lock. *)
Lemma writers_bounded n HS s h x :
  inv m0 n HS s -> h ∈ HS -> writes_to x h ->
  (forall t th, Machine.ths s !! t = Some th -> wv_of th = Some (hwv h) -> ~ vpend th x) ->
  hwv h <= ver (tbl (Machine.sh s)) (index x).
Proof.
  intros Hi Hh Hx Hn. destruct (i_ver _ _ _ _ Hi h x Hh Hx) as [|(t & th & Ht & Hw & Hp)]; [done|].
  exfalso. by eapply Hn.
Qed.

Lemma held_writers_bounded n HS s t th h x :
  inv m0 n HS s -> Machine.ths s !! t = Some th -> index x ∈ held th -> ~ vpend th x ->
  h ∈ HS -> writes_to x h -> hwv h <= ver (tbl (Machine.sh s)) (index x).
Proof.
  intros Hi Ht Hheld Hn Hh Hx. eapply writers_bounded; [done..|].
  intros u thu Hu _ Hp. assert (u = t) as -> by (eapply held_pend_self; eauto using vpend_pend).
  by simplify_eq.
Qed.

(** ** Reading memory *)

#[export] Instance pending_from_dec i th x : Decision (pending_from i th x).
Proof.
  refine (cast_if (decide (Exists (fun loc => m_written loc = true /\ m_addr loc = x)
                             (drop i (Machine.locs th))))).
  - abstract (match goal with E : Exists _ _ |- _ => apply Exists_exists in E as (loc & Hl & Hw & Hx);
      apply list_elem_of_lookup in Hl as [j Hj]; rewrite lookup_drop in Hj;
      exists (i + j)%nat, loc; split; [lia|done] end).
  - abstract (intros (j & loc & Hj & Hl & Hw & Hx);
      match goal with E : ~ Exists _ _ |- _ => apply E end;
      apply Exists_exists; exists loc; split; [|done];
      apply list_elem_of_lookup; exists (j - i)%nat;
      rewrite lookup_drop; by replace (i + (j - i))%nat with j by lia).
Defined.

#[export] Instance pend_dec th x : Decision (pend th x).
Proof. unfold pend. destruct (at_pc th); apply _. Defined.

(** At any time an address is being written by some commit, or by none. *)
Lemma pend_cases (s : sys) x :
  (forall t th, Machine.ths s !! t = Some th -> ~ pend th x) \/
  exists t th, Machine.ths s !! t = Some th /\ pend th x.
Proof.
  destruct (decide (map_Forall (fun (_ : tid_t) th => ~ pend th x) (Machine.ths s))) as [E|E].
  - left. done.
  - right. apply map_not_Forall in E as (t & th & Ht & Hp); [|apply _].
    exists t, th. split; [done|]. by apply dec_stable.
Qed.

Lemma pend_wv th x : pend th x -> exists wv, wv_of th = Some wv.
Proof. unfold pend, wv_of. destruct (at_pc th); naive_solver. Qed.

(** The value that a registered read finds in memory is the snapshot's, or the
    lock has moved past the read version. *)
Lemma load_ok n HS s t th x v :
  inv m0 n HS s -> Machine.ths s !! t = Some th -> reader th ->
  x ∈ reads (alog_of th) -> mem (Machine.sh s) !! x = Some v ->
  mem_upto (rv_of th) HS m0 !! x = Some v \/ rv_of th < ver (tbl (Machine.sh s)) (index x).
Proof.
  intros Hi Ht Hr Hx Hm. set (r := rv_of th) in *.
  destruct (decide (r < ver (tbl (Machine.sh s)) (index x))) as [|Hv]; [by right|]. left.
  (* a commit past the snapshot that writes x is in flight at x *)
  assert (Hfl : forall h, h ∈ HS -> writes_to x h -> r < hwv h ->
    exists u thu, Machine.ths s !! u = Some thu /\ wv_of thu = Some (hwv h) /\ pend thu x).
  { intros h Hh Hw Hlt. destruct (i_ver _ _ _ _ Hi h x Hh Hw) as [|(u & thu & ?)]; [lia|].
    exists u, thu. naive_solver eauto using vpend_pend. }
  destruct (pend_cases s x) as [Hnp|(u & thu & Hu & Hp)].
  - rewrite (i_mem _ _ _ _ Hi x Hnp) in Hm. rewrite <- Hm.
    rewrite <- (mem_upto_all (Word.unpack_version (clock (Machine.sh s))))
      by (intros h Hh; by apply (i_bound _ _ _ _ Hi)).
    apply mem_upto_agree. intros h Hh Hw. pose proof (i_bound _ _ _ _ Hi h Hh).
    destruct (decide (hwv h <= r)) as [|Hgt]; [lia|].
    destruct (Hfl h Hh Hw) as (u & thu & Hu & _ & Hp); [lia|]. by destruct (Hnp u thu Hu).
  - destruct (pend_wv _ _ Hp) as [wv Hwv].
    rewrite (i_pend _ _ _ _ Hi u thu x wv Hu Hp Hwv) in Hm. rewrite <- Hm.
    assert (r < wv).
    { destruct (decide (wv <= r)) as [Hle|]; [|lia].
      destruct (i_settled _ _ _ _ Hi t u th thu x wv Ht Hu Hr Hx Hwv Hle).
      by eapply pend_held. }
    apply mem_upto_agree. intros h Hh Hw.
    destruct (decide (hwv h <= r)) as [|Hgt]; [lia|].
    destruct (Hfl h Hh Hw) as (u' & thu' & Hu' & Hwv' & Hp'); [lia|].
    assert (u' = u) as ->.
    { eapply (i_excl _ _ _ _ Hi u' u thu' thu (index x)); eauto using pend_held. }
    simplify_eq. lia.
Qed.

(** ** The frame lemma *)

Lemma obs_ok_mono T T' HS HS' r o :
  obs_ok m0 T HS r o -> (forall i, ver T i <= ver T' i) ->
  (forall x v, (x, v) ∈ o -> mem_upto r HS' m0 !! x = mem_upto r HS m0 !! x) ->
  obs_ok m0 T' HS' r o.
Proof.
  intros Ho Hv Hm x v Hin. rewrite (Hm x v Hin). specialize (Hv (index x)).
  destruct (Ho x v Hin); [by left|right; lia].
Qed.

(** What changes around a thread: the clock and the versions grow, the
    versions of its own locks do not change, the history grows outside its
    snapshot of what it read. *)
Record frame (c : version_t) T HS (c' : version_t) T' HS' th : Prop := {
  fr_clock : c <= c';
  fr_ver : forall i, ver T i <= ver T' i;
  fr_held : forall i, i ∈ held th -> ver T' i = ver T i;
  fr_hist : forall h, h ∈ HS -> h ∈ HS';
  fr_snap : reader th -> forall x, x ∈ reads (alog_of th) ->
    mem_upto (rv_of th) HS' m0 !! x = mem_upto (rv_of th) HS m0 !! x }.

Lemma reached_frame c T HS c' T' HS' th p al :
  frame c T HS c' T' HS' th -> reader th -> reads al ⊆ reads (alog_of th) ->
  reached m0 T HS th p al -> reached m0 T' HS' th p al.
Proof.
  intros Hf Hr Hsub (tr & rest & o & Ht & He & Ho). exists tr, rest, o. split_and!; [done..|].
  eapply obs_ok_mono; [done|apply Hf|]. intros x v Hin. apply Hf; [done|].
  apply Hsub. by eapply Tx.exec_obs_reads.
Qed.

Lemma rv_ok_frame c c' th : c <= c' -> rv_ok c th -> rv_ok c' th.
Proof. unfold rv_ok. lia. Qed.

Lemma loading_frame c T HS c' T' HS' th x k :
  frame c T HS c' T' HS' th -> reader th ->
  loading m0 c T HS th x k -> loading m0 c' T' HS' th x k.
Proof.
  intros Hf Hr ((Hw & Hst & Hrv) & al & Hre & Hx & Hal).
  split; [split_and!; [done..|]; eapply rv_ok_frame; [apply Hf|done]|].
  exists al. split_and!; [|done..]. eapply reached_frame; [done..| |done]. rewrite Hal. simpl. set_solver.
Qed.

Lemma returned_frame c T HS c' T' HS' th a :
  frame c T HS c' T' HS' th -> reader th ->
  returned m0 c T HS th a -> returned m0 c' T' HS' th a.
Proof.
  intros Hf Hr (Hl & Hrv & Hst & Hre). split_and!; [done| |done|].
  - eapply rv_ok_frame; [apply Hf|done].
  - by eapply reached_frame.
Qed.

Lemma committing_frame c T HS c' T' HS' t th wv i g :
  frame c T HS c' T' HS' th ->
  committing c T HS t th wv i g -> committing c' T' HS' t th wv i g.
Proof.
  intros Hf ((Hg & Hrv & Hc) & Hl & Hv & Htd & h & Hh & Hrest). pose proof (fr_clock _ _ _ _ _ _ _ Hf).
  split_and!; [split_and!; [done|lia..|lia]|done| |done|exists h; split; [by apply Hf|done]].
  intros k Hk. rewrite (fr_held _ _ _ _ _ _ _ Hf k Hk). auto.
Qed.

Lemma tinv_frame c T HS c' T' HS' t th :
  frame c T HS c' T' HS' th -> tinv m0 c T HS t th -> tinv m0 c' T' HS' t th.
Proof.
  intros Hf Hti. unfold tinv in *.
  assert (Hr : forall P, at_pc th = P -> match P with Body _ | Load _ _ | LoadHeld _ _ | LoadRel _ _ _
    | Guarding _ _ _ | Incr _ _ | Validate _ _ _ _ => True | _ => False end -> reader th).
  { intros P <- HP. unfold reader. destruct (at_pc th); done. }
  destruct (at_pc th) eqn:Epc; try done; try specialize (Hr _ eq_refl I).
  - destruct Hti as [(Hw & Hst & Hrv) Hre]. split.
    + split_and!; [done..|]. eapply rv_ok_frame; [apply Hf|done].
    + by eapply reached_frame.
  - by eapply loading_frame.
  - by eapply loading_frame.
  - destruct Hti as [Hl Hv]. split; [by eapply loading_frame|].
    assert (x ∈ reads (alog_of th)).
    { destruct Hl as (_ & al & _ & _ & ->). simpl. set_solver. }
    rewrite (fr_snap _ _ _ _ _ _ _ Hf) by done. destruct Hv as [|Hv]; [by left|right].
    pose proof (fr_ver _ _ _ _ _ _ _ Hf (index x)). lia.
  - destruct Hti as [Hre Hg]. split; [by eapply returned_frame|done].
  - destruct Hti as [Hre Hg]. split; [by eapply returned_frame|done].
  - destruct Hti as (Hre & (Hg & Hrv & Hc) & Hv & Hrd). pose proof (fr_clock _ _ _ _ _ _ _ Hf).
    split_and!; [by eapply returned_frame|split_and!; [done|lia..|lia]| |].
    + intros k Hk. rewrite (fr_held _ _ _ _ _ _ _ Hf k Hk). auto.
    + intros j loc Hj Hlt Hread. rewrite (fr_held _ _ _ _ _ _ _ Hf); [eauto|].
      apply (gd_held _ _ _ _ Hg j); [done|]. by eapply lookup_lt_Some.
  - by eapply committing_frame.
  - destruct Hti as [Hc Hl]. split; [by eapply committing_frame|done].
Qed.
End Facts.
