(* ===== verification/Preserve.v ===== *)
(** * The invariant is preserved: steps that decide and write nothing

    [inv_quiet] is the common shape of the steps that leave the clock, the
    memory, the versions and the history alone: thread-local steps and the
    acquisition or release of a lock. *)

From S2P Require Import Prelude VersionLock LockTable Store Op Log Tx State LockGuard Machine History MachineInv InvFacts.
Import History.

Section Preserve.
Context {LS V L A : Type} `{LocationSetLaws LS}.
Abbreviation thread := (thread LS V L A).
Abbreviation hrec := (hrec V L A).
Abbreviation sys := (Machine.sys (LS := LS) (V := V) (L := L) (A := A)).
Implicit Types (th : thread) (s : sys) (HS : list hrec).
Context (m0 : gmap addr_t V).

(** Case analysis on whether a thread of the new state is the one that stepped. *)
Ltac split_thread t u :=
  destruct (decide (t = u)) as [<-|?];
  [rewrite ?lookup_insert_eq in *|rewrite ?lookup_insert_ne in * by done]; simplify_eq.

Definition settled s th : Prop :=
  reader th -> forall x u thu wv, x ∈ reads (alog_of th) -> Machine.ths s !! u = Some thu ->
    wv_of thu = Some wv -> wv <= rv_of th -> index x ∉ held thu.

(** The thread keeps its version and its locks, or has no version. *)
Definition wv_kept th th' : Prop :=
  wv_of th' = None \/
  (wv_of th' = wv_of th /\ held th' = held th /\ (undecided th' -> undecided th)).

Lemma wv_kept_some th th' wv :
  wv_kept th th' -> wv_of th' = Some wv ->
  wv_of th = Some wv /\ held th' = held th /\ (undecided th' -> undecided th).
Proof. intros [E|(E & ?)] Hwv; [congruence|]. by rewrite <- E. Qed.

(** The lock words agree with the new holders. *)
Record relocked T T' th th' : Prop := {
  rl_word : forall i, W64.in_range (table_word T' i) /\ ver T' i = ver T i;
  rl_lock : forall i, Word.is_locked (table_word T' i) = true <->
    i ∈ held th' \/ (Word.is_locked (table_word T i) = true /\ i ∉ held th);
  rl_held : forall i, i ∈ held th' -> i ∈ held th \/ Word.is_locked (table_word T i) = false;
  rl_nodup : NoDup (held th') }.

Lemma relocked_excl n HS s t th th' T' u thu i :
  inv m0 n HS s -> Machine.ths s !! t = Some th -> relocked (tbl (Machine.sh s)) T' th th' ->
  Machine.ths s !! u = Some thu -> t <> u -> i ∈ held th' -> i ∉ held thu.
Proof.
  intros Hi Ht Hrl Hu Hne Hi1 Hi2. destruct (rl_held _ _ _ _ Hrl i Hi1) as [Hold|Hfree].
  - apply Hne. by eapply (i_excl _ _ _ _ Hi).
  - assert (Word.is_locked (table_word (tbl (Machine.sh s)) i) = true); [|congruence].
    apply (i_lock _ _ _ _ Hi). eauto.
Qed.

Lemma relocked_lock n HS s t th th' T' i :
  inv m0 n HS s -> Machine.ths s !! t = Some th -> relocked (tbl (Machine.sh s)) T' th th' ->
  Word.is_locked (table_word T' i) = true <->
    exists u thu, <[t := th']> (Machine.ths s) !! u = Some thu /\ i ∈ held thu.
Proof.
  intros Hi Ht Hrl. rewrite (rl_lock _ _ _ _ Hrl), (i_lock _ _ _ _ Hi i). split.
  - intros [Hh|[(u & thu & Hu & Hh) Hn]].
    + exists t, th'. by rewrite lookup_insert_eq.
    + exists u, thu. split; [|done]. rewrite lookup_insert_ne; [done|]. intros ->. by simplify_eq.
  - intros (u & thu & Hu & Hh). split_thread t u; [by left|].
    destruct (decide (i ∈ held th)) as [Hth|]; [|right; eauto].
    assert (t = u); [|done]. by eapply (i_excl _ _ _ _ Hi).
Qed.

Lemma inv_quiet n HS s t th th' T' :
  inv m0 n HS s -> Machine.ths s !! t = Some th ->
  (forall x, ~ pend th x) -> (forall x, ~ pend th' x) ->
  wv_kept th th' -> relocked (tbl (Machine.sh s)) T' th th' -> settled s th' ->
  tinv m0 (Word.unpack_version (clock (Machine.sh s))) T' HS t th' ->
  inv m0 (S n) HS (Machine.Sys (Shared (clock (Machine.sh s)) T' (mem (Machine.sh s)))
                     (<[t := th']> (Machine.ths s))).
Proof.
  intros Hi Ht Hp Hp' Hwv Hrl Hset Hti.
  assert (Hvp : forall x, ~ vpend th x) by (intros x Hv; by eapply Hp, vpend_pend).
  constructor; simpl.
  - destruct (i_clock _ _ _ _ Hi) as (c & -> & Hc). exists c. split; [done|lia].
  - intros i. destruct (rl_word _ _ _ _ Hrl i) as [Hr ->]. split; [done|]. apply Hi.
  - intros i. by eapply relocked_lock.
  - intros u w thu thw i Hu Hw Hhu Hhw. split_thread t u; split_thread t w; try done.
    + destruct (relocked_excl _ _ _ _ _ _ _ w thw i Hi Ht Hrl Hw ltac:(done) Hhu Hhw).
    + destruct (relocked_excl _ _ _ _ _ _ _ u thu i Hi Ht Hrl Hu ltac:(done) Hhw Hhu).
    + by eapply (i_excl _ _ _ _ Hi).
  - intros u thu Hu. split_thread t u; [apply Hrl|]. by eapply (i_nodup _ _ _ _ Hi).
  - intros u thu Hu. split_thread t u; [done|].
    eapply tinv_frame; [|by eapply (i_thread _ _ _ _ Hi)].
    constructor; try done; intros i; destruct (rl_word _ _ _ _ Hrl i) as [_ ->]; done.
  - intros u w thu thw x wv Hu Hw Hr Hx Hwvw Hle. split_thread t w.
    + destruct (wv_kept_some _ _ _ Hwv Hwvw) as (Hwv0 & -> & _).
      split_thread t u; [by eapply Hset|]. by eapply (i_settled _ _ _ _ Hi u t).
    + split_thread t u; [by eapply Hset|]. by eapply (i_settled _ _ _ _ Hi u w).
  - intros u w thu thw wv Hu Hw Hwu Hww. split_thread t u; split_thread t w; try done.
    + destruct (wv_kept_some _ _ _ Hwv Hwu) as [? _]. by eapply (i_wv _ _ _ _ Hi).
    + destruct (wv_kept_some _ _ _ Hwv Hww) as [? _]. by eapply (i_wv _ _ _ _ Hi).
    + by eapply (i_wv _ _ _ _ Hi).
  - intros u thu wv h Hu Hun Hwu Hh. split_thread t u; [|by eapply (i_fresh _ _ _ _ Hi)].
    destruct (wv_kept_some _ _ _ Hwv Hwu) as (? & _ & ?). eapply (i_fresh _ _ _ _ Hi); eauto.
  - apply Hi.
  - apply Hi.
  - apply Hi.
  - intros h x v u thu wv Hh Ho Hu Hun Hwu Hlt. split_thread t u; [|by eapply (i_cross _ _ _ _ Hi)].
    destruct (wv_kept_some _ _ _ Hwv Hwu) as (? & -> & ?). eapply (i_cross _ _ _ _ Hi); eauto.
  - intros h x Hh Hx. destruct (rl_word _ _ _ _ Hrl (index x)) as [_ ->].
    destruct (i_ver _ _ _ _ Hi h x Hh Hx) as [|(u & thu & Hu & Hwu & Hv)]; [by left|right].
    exists u, thu. split; [|done]. rewrite lookup_insert_ne; [done|]. intros ->. simplify_eq.
    by destruct (Hvp x).
  - intros x Hn. apply (i_mem _ _ _ _ Hi). intros u thu Hu.
    destruct (decide (t = u)) as [<-|Hne]; [by simplify_eq|]. apply (Hn u). by rewrite lookup_insert_ne.
  - intros u thu x wv Hu Hpu Hwu. split_thread t u; [by destruct (Hp' x)|].
    by eapply (i_pend _ _ _ _ Hi).
Qed.

(** ** Thread-local steps *)

Lemma relocked_same n HS s t th th' :
  inv m0 n HS s -> Machine.ths s !! t = Some th -> held th' ≡ₚ held th ->
  relocked (tbl (Machine.sh s)) (tbl (Machine.sh s)) th th'.
Proof.
  intros Hi Ht Hh. constructor.
  - intros i. split; [apply Hi|done].
  - intros i. rewrite Hh. split; [|intros [Hin|[]]; [|done]].
    + intros Hl. destruct (decide (i ∈ held th)); auto.
    + apply (i_lock _ _ _ _ Hi). eauto.
  - intros i. rewrite Hh. by left.
  - rewrite Hh. by eapply (i_nodup _ _ _ _ Hi).
Qed.

(** Reading no more than before. *)
Lemma settled_sub n HS s t th th' :
  inv m0 n HS s -> Machine.ths s !! t = Some th ->
  (reader th' -> reader th /\ rv_of th' = rv_of th /\ reads (alog_of th') ⊆ reads (alog_of th)) ->
  settled s th'.
Proof.
  intros Hi Ht Hsub Hr x u thu wv Hx Hu Hwv Hle. destruct (Hsub Hr) as (Hr0 & E & Hs).
  rewrite E in Hle. eapply (i_settled _ _ _ _ Hi t u); eauto.
Qed.

Lemma inv_local n HS s t th th' :
  inv m0 n HS s -> Machine.ths s !! t = Some th ->
  (forall x, ~ pend th x) -> (forall x, ~ pend th' x) ->
  wv_kept th th' -> held th' ≡ₚ held th -> settled s th' ->
  tinv m0 (Word.unpack_version (clock (Machine.sh s))) (tbl (Machine.sh s)) HS t th' ->
  inv m0 (S n) HS (Machine.Sys (Machine.sh s) (<[t := th']> (Machine.ths s))).
Proof.
  intros Hi Ht Hp Hp' Hwv Hh Hset Hti.
  destruct (Machine.sh s) as [cl T m] eqn:Es.
  pose proof (inv_quiet n HS s t th th' T Hi Ht Hp Hp' Hwv) as Hq. rewrite Es in Hq. simpl in *.
  apply Hq; try done. rewrite <- Es in *.
  pose proof (relocked_same _ _ _ _ _ _ Hi Ht Hh) as Hrl. by rewrite Es in Hrl.
Qed.

(** ** Taking and releasing one lock *)

(** The word of a held or free lock with its bit set to [b]. *)
Definition with_bit T (i : Z) (b : bool) : gmap Z Z := <[i := Word.pack (ver T i) b]> T.

Lemma relocked_acquire n HS s t th th' i :
  inv m0 n HS s -> Machine.ths s !! t = Some th ->
  Word.is_locked (table_word (tbl (Machine.sh s)) i) = false -> held th' ≡ₚ i :: held th ->
  relocked (tbl (Machine.sh s)) (with_bit (tbl (Machine.sh s)) i true) th th'.
Proof.
  intros Hi Ht Hl Hh. set (T := tbl (Machine.sh s)) in *.
  assert (Hok : Word.version_ok (ver T i)) by (apply word_pack, Hi).
  assert (Hnot : i ∉ held th).
  { intros Hin. assert (Word.is_locked (table_word T i) = true); [|congruence].
    apply (i_lock _ _ _ _ Hi). eauto. }
  unfold with_bit. constructor.
  - intros j. split; [apply range_insert; [done|apply Hi]|]. rewrite ver_insert by done.
    by case_decide; subst.
  - intros j. rewrite locked_insert, Hh, elem_of_cons by done.
    case_decide as E; [subst; split; auto|]. split.
    + intros Hlj. destruct (decide (j ∈ held th)); auto.
    + intros [[->|Hin]|[]]; [done| |done]. apply (i_lock _ _ _ _ Hi). eauto.
  - intros j. rewrite Hh, elem_of_cons. intros [->|]; auto.
  - rewrite Hh. constructor; [done|]. by eapply (i_nodup _ _ _ _ Hi).
Qed.

Lemma relocked_release n HS s t th th' i :
  inv m0 n HS s -> Machine.ths s !! t = Some th -> held th ≡ₚ i :: held th' ->
  relocked (tbl (Machine.sh s)) (with_bit (tbl (Machine.sh s)) i false) th th'.
Proof.
  intros Hi Ht Hh. set (T := tbl (Machine.sh s)) in *.
  assert (Hok : Word.version_ok (ver T i)) by (apply word_pack, Hi).
  pose proof (i_nodup _ _ _ _ Hi t th Ht) as Hnd. rewrite Hh in Hnd.
  apply NoDup_cons in Hnd as [Hnot Hnd].
  unfold with_bit. constructor.
  - intros j. split; [apply range_insert; [done|apply Hi]|]. rewrite ver_insert by done.
    by case_decide; subst.
  - intros j. rewrite locked_insert, Hh, elem_of_cons by done.
    case_decide as E; [subst; split; [done|]; intros [|[]]; [done|tauto]|]. split.
    + intros Hlj. destruct (decide (j ∈ held th')); [auto|right]. split; [done|]. naive_solver.
    + intros [Hin|[]]; [|done]. apply (i_lock _ _ _ _ Hi). exists t, th. split; [done|].
      rewrite Hh. by right.
  - intros j Hj. left. rewrite Hh. by right.
  - done.
Qed.

(** The words that the operations on a lock store. *)
Lemma lock_word T x w :
  W64.in_range (table_word T (index x)) -> Word.lock (hashtbl_get T x) = Some w ->
  Word.is_locked (table_word T (index x)) = false /\
  hashtbl_put T x w = with_bit T (index x) true.
Proof.
  intros Hr Hl. unfold hashtbl_get in Hl. destruct (word_pack _ _ Hr) as [E Hok].
  rewrite E, Word.lock_pack in Hl by done.
  destruct (Word.is_locked (table_word T (index x))); [done|]. by simplify_eq.
Qed.

Lemma unlock_word T x :
  W64.in_range (table_word T (index x)) ->
  hashtbl_put T x (Word.unlock (hashtbl_get T x)) = with_bit T (index x) false.
Proof.
  intros Hr. unfold hashtbl_put, hashtbl_get, with_bit. destruct (word_pack _ _ Hr) as [E Hok].
  rewrite E at 1. by rewrite Word.unlock_pack.
Qed.
End Preserve.
