(* ===== verification/Steps.v ===== *)
(** * Every step of the machine preserves the invariant

    One lemma per step function of the machine; [step_inv] at the end puts them
    together. *)

From S2P Require Import Prelude VersionLock LockTable Store Op Log Tx State LockGuard Machine History MachineInv InvFacts Preserve.
Import History.

(** ** Changing owners only *)
Section Owners.
Context {V : Type}.

Definition strip (ls : list Location) : list Location := Loc.set_owner None <$> ls.

Lemma strip_alter (ls : list Location) (i : nat) f :
  (forall l, ls !! i = Some l -> Loc.set_owner None (f l) = Loc.set_owner None l) ->
  strip (alter f i ls) = strip ls.
Proof.
  revert i. induction ls as [|l ls IH]; intros [|i] Hf; simpl; try done.
  - unfold strip. simpl. by rewrite Hf.
  - unfold strip in *. simpl. f_equal. by apply IH.
Qed.

Lemma loc_map_strip ls : loc_map (strip ls) = Loc.set_owner None <$> loc_map ls.
Proof.
  induction ls as [|l ls IH]; [done|]. unfold strip in *. simpl.
  rewrite !loc_map_cons, fmap_insert, <- IH. done.
Qed.

Lemma abs_strip ls (st : Store.store V) : abs_locs (strip ls) st = abs_locs ls st.
Proof.
  unfold abs_locs. rewrite loc_map_strip. f_equal.
  - apply set_eq. intros x. rewrite !elem_of_dom. unfold is_Some.
    setoid_rewrite map_lookup_filter_Some. rewrite lookup_fmap.
    destruct (loc_map ls !! x) as [l|]; simpl; split; intros (k & E & Hk); simplify_eq; eauto.
  - apply map_eq. intros x. rewrite !lookup_omap, lookup_fmap. by destruct (loc_map ls !! x).
Qed.

Lemma abs_strip_eq ls ls' (st : Store.store V) :
  strip ls = strip ls' -> abs_locs ls st = abs_locs ls' st.
Proof. intros E. by rewrite <- abs_strip, E, abs_strip. Qed.

Lemma addrs_strip ls : m_addr <$> strip ls = m_addr <$> ls.
Proof. unfold strip. by rewrite <- list_fmap_compose. Qed.

Lemma objs_strip ls : objs_of (strip ls) = objs_of ls.
Proof.
  induction ls as [|l ls IH]; [done|].
  change (objs_of (strip (l :: ls))) with
    (match obj_of l with Some a => a :: objs_of (strip ls) | None => objs_of (strip ls) end).
  by rewrite IH.
Qed.

Lemma locs_ok_strip ls (st : Store.store V) : locs_ok ls st <-> locs_ok (strip ls) st.
Proof.
  split; intros [Hn Hs Ho Hd]; constructor; rewrite ?addrs_strip, ?objs_strip in *; try done;
    intros a; rewrite ?objs_strip, Hd, ?objs_strip; done.
Qed.

Lemma locs_ok_strip_eq ls ls' (st : Store.store V) :
  strip ls = strip ls' -> locs_ok ls st -> locs_ok ls' st.
Proof. intros E. by rewrite locs_ok_strip, E, <- locs_ok_strip. Qed.

Lemma strip_lookup ls ls' (i : nat) l :
  strip ls = strip ls' -> ls !! i = Some l ->
  exists l', ls' !! i = Some l' /\ Loc.set_owner None l' = Loc.set_owner None l.
Proof.
  intros E Hi. assert (Hs : strip ls !! i = Some (Loc.set_owner None l))
    by (unfold strip; by rewrite list_lookup_fmap, Hi).
  rewrite E in Hs. unfold strip in Hs. rewrite list_lookup_fmap in Hs.
  apply fmap_Some in Hs as (l' & Hl' & El). eauto.
Qed.

Lemma strip_length ls ls' : strip ls = strip ls' -> length ls = length ls'.
Proof. intros E. apply (f_equal length) in E. unfold strip in E. by rewrite !length_fmap in E. Qed.
End Owners.

Section Steps.
Context {LS V L A : Type} `{LocationSetLaws LS}.
Abbreviation thread := (thread LS V L A).
Abbreviation hrec := (hrec V L A).
Abbreviation sys := (Machine.sys (LS := LS) (V := V) (L := L) (A := A)).
Implicit Types (th : thread) (s : sys) (HS : list hrec).
Context (m0 : gmap addr_t V).

Definition cv s : version_t := Word.unpack_version (clock (Machine.sh s)).

Lemma no_pend P th x :
  at_pc th = P -> match P with Commit _ _ _ _ | Moving _ _ _ _ => False | _ => True end ->
  ~ pend th x.
Proof. intros E HP. unfold pend. rewrite E. by destruct P; intros ?. Qed.

Ltac no_pend := intros ?; eapply no_pend; [first [done|eassumption]|done].

Lemma lock_at_strip th th' i :
  strip (Machine.locs th) = strip (Machine.locs th') -> lock_at th i = lock_at th' i.
Proof.
  intros E. unfold lock_at. destruct (Machine.locs th !! i) as [l|] eqn:Hl.
  - destruct (strip_lookup _ _ _ _ E Hl) as (l' & -> & El). simpl. unfold Loc.lock_ptr.
    change (m_addr l) with (m_addr (Loc.set_owner None l)). by rewrite <- El.
  - apply lookup_ge_None in Hl. rewrite (strip_length _ _ E) in Hl.
    by rewrite (proj2 (lookup_ge_None _ _) Hl).
Qed.

Lemma omap_lock_at_strip th th' (js : list nat) :
  strip (Machine.locs th) = strip (Machine.locs th') ->
  omap (lock_at th) js = omap (lock_at th') js.
Proof. intros E. apply list_omap_ext. induction js; constructor; [by apply lock_at_strip|done]. Qed.

(** ** Outside the body *)

Definition next_sys s (t : tid_t) (sh' : shared V) th' : sys :=
  Machine.Sys sh' (<[t := th']> (Machine.ths s)).

Lemma not_reader s th : ~ reader th -> settled s th.
Proof. intros Hn Hr. done. Qed.

Ltac no_reader := apply not_reader; unfold reader; simpl; tauto.

Lemma wv_none th th' : wv_of th' = None -> wv_kept th th'.
Proof. by left. Qed.

Lemma held_nil th : match at_pc th with Idle | Attempt | Body _ | Load _ _ | Crashed => True | _ => False end ->
  held th = [].
Proof. unfold held, held_pos. by destruct (at_pc th). Qed.

Lemma empty_locs_ok : locs_ok (Log.locations (Log.empty (LS := LS) (V := V))) (store (Log.empty (LS := LS) (V := V))).
Proof. apply empty_wf. Qed.

Lemma idle_inv n HS s t th sh' th' ev :
  inv m0 n HS s -> Machine.ths s !! t = Some th -> at_pc th = Idle ->
  Machine.step_idle (Machine.sh s) th = Some (sh', th', ev) ->
  ev = None /\ inv m0 (S n) HS (next_sys s t sh' th').
Proof.
  intros Hi Ht Hpc Hst. unfold Machine.step_idle, Machine.silent in Hst.
  destruct (todo th) as [|tr rest] eqn:Etd; [done|]. simplify_eq. split; [done|].
  pose proof (i_thread _ _ _ _ Hi t th Ht) as Hti. unfold tinv in Hti. rewrite Hpc in Hti.
  eapply inv_local; [done|done|no_pend|no_pend|by apply wv_none| |no_reader|].
  - by rewrite !held_nil by (by rewrite ?Hpc).
  - done.
Qed.

Lemma clear_end m :
  locs_ok (Log.locations (mlog m)) (store (mlog m)) ->
  Manager.end_transaction (LS := LS) (V := V) m = Some (TMan Log.empty ZOMBIE 0).
Proof. intros Hok. unfold Manager.end_transaction. by rewrite clear_spec. Qed.

Lemma alog_empty th : mlog (mgr th) = Log.empty -> alog_of th = ALog ∅ ∅.
Proof. intros E. unfold alog_of, Machine.locs, store_of. rewrite E. apply abs_empty. Qed.

Lemma attempt_inv n HS s t th sh' th' ev :
  inv m0 n HS s -> Z.of_nat n < 2 ^ 63 -> Machine.ths s !! t = Some th -> at_pc th = Attempt ->
  Machine.step_attempt (Machine.sh s) th = Some (sh', th', ev) ->
  ev = None /\ inv m0 (S n) HS (next_sys s t sh' th').
Proof.
  intros Hi Hn Ht Hpc Hst. unfold Machine.step_attempt, Machine.silent in Hst.
  destruct (todo th) as [|tr rest] eqn:Etd; [done|].
  pose proof (i_thread _ _ _ _ Hi t th Ht) as Hti. unfold tinv in Hti. rewrite Hpc in Hti.
  destruct Hti as [Hok _]. unfold Manager.start_transaction in Hst. rewrite clear_spec in Hst by done.
  destruct (i_clock _ _ _ _ Hi) as (c & Ec & Hc).
  assert (Hvc : Word.version_ok c) by (unfold Word.version_ok; lia).
  rewrite Ec, Word.get_version_pack in Hst by done. simplify_eq. split; [done|].
  eapply inv_local; [done|done|no_pend|no_pend|by apply wv_none| | |].
  - by rewrite !held_nil by (by rewrite ?Hpc).
  - intros _ x u thu wv Hx. rewrite alog_empty in Hx by done. by apply elem_of_empty in Hx.
  - unfold tinv. simpl. rewrite alog_empty by done. split.
    + split_and!; [apply empty_wf|done|]. unfold rv_ok, rv_of. simpl.
      rewrite Ec, Word.unpack_pack by done. lia.
    + exists tr, rest, []. split_and!; [done|constructor|].
      intros x v Hin. by apply elem_of_nil in Hin.
Qed.

(** ** The body *)

(** What the body's steps share: the thread stays without locks and without a
    version, and reads at most [x] more than before, whose lock is free. *)
Lemma body_local n HS s t th th' :
  inv m0 n HS s -> Machine.ths s !! t = Some th ->
  held th = [] -> held th' = [] -> wv_of th' = None ->
  (forall x, ~ pend th x) -> (forall x, ~ pend th' x) ->
  (reader th' -> reader th /\ rv_of th' = rv_of th /\
    forall y, y ∈ reads (alog_of th') -> y ∈ reads (alog_of th) \/
      Word.is_locked (table_word (tbl (Machine.sh s)) (index y)) = false) ->
  tinv m0 (cv s) (tbl (Machine.sh s)) HS t th' ->
  inv m0 (S n) HS (next_sys s t (Machine.sh s) th').
Proof.
  intros Hi Ht Hh Hh' Hw Hp Hp' Hr Hti.
  eapply inv_local; [done|done|done|done|by left|by rewrite Hh, Hh'| |done].
  intros Hr' x u thu wv Hx Hu Hwv Hle Hin. destruct (Hr Hr') as (Hr0 & Erv & Hsub).
  rewrite Erv in Hle. destruct (Hsub x Hx) as [Hx0|Hl].
  - by eapply (i_settled _ _ _ _ Hi t u).
  - assert (Word.is_locked (table_word (tbl (Machine.sh s)) (index x)) = true); [|congruence].
    apply (i_lock _ _ _ _ Hi). eauto.
Qed.

Lemma at_body_inv n HS s t th p :
  inv m0 n HS s -> Machine.ths s !! t = Some th -> at_pc th = Body p ->
  in_body (cv s) th /\ reached m0 (tbl (Machine.sh s)) HS th p (alog_of th).
Proof.
  intros Hi Ht Hpc. pose proof (i_thread _ _ _ _ Hi t th Ht) as Hti. unfold tinv in Hti.
  by rewrite Hpc in Hti.
Qed.

Ltac body_step Hi Ht Hpc :=
  eapply body_local; [exact Hi|exact Ht|apply held_nil; by rewrite Hpc
    |first [by apply held_nil|done]|done|no_pend|no_pend| |].

Ltac same_reads Hpc := intros _; unfold reader; rewrite Hpc; split_and!; [done|done|by left].

Lemma throw_inv n HS s t th e sh' th' ev :
  inv m0 n HS s -> Machine.ths s !! t = Some th -> at_pc th = Body (Throw e) ->
  Machine.step_throw (Machine.sh s) th e = Some (sh', th', ev) ->
  ev = None /\ inv m0 (S n) HS (next_sys s t sh' th').
Proof.
  intros Hi Ht Hpc Hst. destruct (at_body_inv _ _ _ _ _ _ Hi Ht Hpc) as [(Hwf & Hrun & Hrv) Hre].
  unfold Machine.step_throw, Machine.silent in Hst. destruct (is_std e).
  - rewrite clear_end in Hst by apply Hwf. simplify_eq. split; [done|].
    body_step Hi Ht Hpc; [by intros []|]. apply empty_locs_ok.
  - simplify_eq. split; [done|]. body_step Hi Ht Hpc; [by intros []|done].
Qed.

Lemma getl_inv n HS s t th k :
  inv m0 n HS s -> Machine.ths s !! t = Some th -> at_pc th = Body (GetL k) ->
  inv m0 (S n) HS (next_sys s t (Machine.sh s) (Machine.goto (Body (k (locals th))) th)).
Proof.
  intros Hi Ht Hpc. destruct (at_body_inv _ _ _ _ _ _ Hi Ht Hpc) as [Hb (tr & rest & o & Etd & He & Ho)].
  body_step Hi Ht Hpc; [same_reads Hpc|]. split; [done|].
  exists tr, rest, o. split_and!; [done| |done]. by constructor.
Qed.

Lemma setl_inv n HS s t th lo k :
  inv m0 n HS s -> Machine.ths s !! t = Some th -> at_pc th = Body (SetL lo k) ->
  inv m0 (S n) HS (next_sys s t (Machine.sh s) (Machine.goto (Body k) (Machine.with_locals lo th))).
Proof.
  intros Hi Ht Hpc. destruct (at_body_inv _ _ _ _ _ _ Hi Ht Hpc) as [Hb (tr & rest & o & Etd & He & Ho)].
  body_step Hi Ht Hpc; [same_reads Hpc|]. split; [done|].
  exists tr, rest, o. split_and!; [done| |done]. simpl. by eapply Tx.exec_set.
Qed.

Lemma write_inv n HS s t th x v k sh' th' ev :
  inv m0 n HS s -> Machine.ths s !! t = Some th -> at_pc th = Body (Write x v k) ->
  Machine.step_write (Machine.sh s) th x v k = Some (sh', th', ev) ->
  ev = None /\ inv m0 (S n) HS (next_sys s t sh' th').
Proof.
  intros Hi Ht Hpc Hst. destruct (at_body_inv _ _ _ _ _ _ Hi Ht Hpc)
    as [(Hwf & Hrun & Hrv) (tr & rest & o & Etd & He & Ho)].
  unfold Machine.step_write, Manager.assert_in_transaction, Manager.in_transaction in Hst.
  rewrite bool_decide_true in Hst by done.
  destruct (append_write_spec x v _ Hwf) as (lg & E & Hwf' & Ea). rewrite E in Hst.
  unfold Machine.silent in Hst. simplify_eq. split; [done|].
  assert (Ea' : alog_of (Machine.goto (Body k) (Machine.with_log lg th)) =
    ALog (reads (alog_of th)) (<[x := v]> (writes (alog_of th)))) by exact Ea.
  body_step Hi Ht Hpc.
  - intros _. rewrite Ea'. unfold reader. rewrite Hpc. split_and!; [done|done|by left].
  - split; [split_and!; done|]. rewrite Ea'. exists tr, rest, o. split_and!; [done| |done].
    by eapply Tx.exec_write.
Qed.

Lemma read_inv n HS s t th x k sh' th' ev :
  inv m0 n HS s -> Machine.ths s !! t = Some th -> at_pc th = Body (Read x k) ->
  Machine.step_read t (Machine.sh s) th x k = Some (sh', th', ev) ->
  ev = None /\ inv m0 (S n) HS (next_sys s t sh' th').
Proof.
  intros Hi Ht Hpc Hst. destruct (at_body_inv _ _ _ _ _ _ Hi Ht Hpc)
    as [(Hwf & Hrun & Hrv) (tr & rest & o & Etd & He & Ho)].
  unfold Machine.step_read, Manager.assert_in_transaction, Manager.in_transaction in Hst.
  rewrite bool_decide_true in Hst by done.
  pose proof (append_read_spec t (tbl (Machine.sh s)) x _ Hwf) as Hsp.
  destruct (Word.get_version _) as [wv|] eqn:Hgv; [|by rewrite Hsp in Hst].
  assert (Hfree : Word.is_locked (table_word (tbl (Machine.sh s)) (index x)) = false).
  { destruct (i_words _ _ _ _ Hi (index x)) as [Hr _]. apply word_pack in Hr as [E Hok].
    unfold hashtbl_get in Hgv. rewrite E, Word.get_version_pack in Hgv by done.
    by destruct (Word.is_locked _). }
  destruct Hsp as (lg & E & Hwf' & Ea). rewrite E, (value_at_spec x lg Hwf') in Hst.
  assert (Ew : writes (abs lg) = writes (alog_of th)) by (by rewrite Ea).
  rewrite Ew in Hst.
  assert (Ea' : forall P, alog_of (Machine.goto P (Machine.with_log lg th)) =
    ALog ({[x]} ∪ reads (alog_of th)) (writes (alog_of th))) by (intros; exact Ea).
  assert (Hrd : forall (P : pc V L A) y, y ∈ reads (alog_of (Machine.goto P (Machine.with_log lg th))) ->
      y ∈ reads (alog_of th) \/
      Word.is_locked (table_word (tbl (Machine.sh s)) (index y)) = false).
  { intros P y. rewrite Ea'. simpl. rewrite elem_of_union, elem_of_singleton.
    intros [->|]; auto. }
  unfold Machine.silent in Hst.
  destruct (writes (alog_of th) !! x) as [v|] eqn:Hx; simplify_eq; (split; [done|]).
  - body_step Hi Ht Hpc.
    + intros _. split_and!; [unfold reader; by rewrite Hpc|done|apply Hrd].
    + split; [split_and!; done|]. rewrite Ea'. exists tr, rest, o. split_and!; [done| |done].
      by eapply Tx.exec_read_own.
  - body_step Hi Ht Hpc.
    + intros _. split_and!; [unfold reader; by rewrite Hpc|done|apply Hrd].
    + split; [split_and!; done|]. exists (alog_of th). split_and!; [|done|by rewrite Ea'].
      exists tr, rest, o. done.
Qed.

Lemma ret_inv n HS s t th a :
  inv m0 n HS s -> Machine.ths s !! t = Some th -> at_pc th = Body (Ret a) ->
  inv m0 (S n) HS (next_sys s t (Machine.sh s)
    (Machine.goto (Guarding a 0 LockGuard.start)
       (Machine.with_ls (ls_stable_sort (Machine.lset th)) th))).
Proof.
  intros Hi Ht Hpc. destruct (at_body_inv _ _ _ _ _ _ Hi Ht Hpc) as [(Hwf & Hrun & Hrv) Hre].
  set (th' := Machine.goto _ _).
  pose proof (ls_stable_sort_perm (Machine.lset th)) as Hp.
  assert (Hp' : Machine.locs th' ≡ₚ Machine.locs th) by exact Hp.
  assert (Hn : NoDup (m_addr <$> Machine.locs th')) by (rewrite Hp'; apply Hwf).
  assert (Ea : alog_of th' = alog_of th) by (by apply abs_locs_perm).
  body_step Hi Ht Hpc.
  - intros _. rewrite Ea. unfold reader. rewrite Hpc. split_and!; [done|done|by left].
  - unfold tinv. simpl. split.
    + split_and!; [eapply locs_ok_perm; [symmetry; exact Hp'|apply Hwf]|done| |by rewrite Ea].
      intros loc Hl Hw. rewrite Hp' in Hl. unfold staged. rewrite Hw.
      apply (wf_live _ Hwf), (ok_dom _ _ (wf_locs _ Hwf)). eapply elem_objs_of; [done|].
      unfold obj_of. by rewrite Hw.
    + constructor.
      * intros j loc Hj. apply (wf_owner _ Hwf). by rewrite <- Hp', list_elem_of_lookup; eauto.
      * intros; lia.
      * intros k. simpl. split; [by intros ?%elem_of_empty|]. intros (j & loc & Hj & _). lia.
      * intros j Hj. simpl in Hj. by apply elem_of_nil in Hj.
Qed.

(** ** Loading the data of a variable *)

Lemma ver_with_bit T i b j : W64.in_range (table_word T i) -> ver (with_bit T i b) j = ver T j.
Proof.
  intros Hr. apply word_pack in Hr as [_ Hok]. unfold with_bit. rewrite ver_insert by done.
  by case_decide; subst.
Qed.

Lemma tinv_same_ver c T T' HS t th :
  (forall i, ver T' i = ver T i) -> tinv m0 c T HS t th -> tinv m0 c T' HS t th.
Proof.
  intros Hv. apply tinv_frame. constructor; try done; intros i; by rewrite Hv.
Qed.

(** One lock taken or released, the thread being in another state. *)
Lemma bit_inv n HS s t th th' i b :
  inv m0 n HS s -> Machine.ths s !! t = Some th ->
  (forall x, ~ pend th x) -> (forall x, ~ pend th' x) -> wv_kept th th' -> settled s th' ->
  relocked (tbl (Machine.sh s)) (with_bit (tbl (Machine.sh s)) i b) th th' ->
  tinv m0 (cv s) (tbl (Machine.sh s)) HS t th' ->
  inv m0 (S n) HS (next_sys s t (Shared (clock (Machine.sh s))
    (with_bit (tbl (Machine.sh s)) i b) (mem (Machine.sh s))) th').
Proof.
  intros Hi Ht Hp Hp' Hwv Hs Hrl Hti. eapply inv_quiet; [done..|].
  eapply tinv_same_ver; [|done]. intros j. by apply ver_with_bit, Hi.
Qed.

Lemma loading_ok n HS s t th x k v :
  inv m0 n HS s -> Machine.ths s !! t = Some th -> reader th ->
  loading m0 (cv s) (tbl (Machine.sh s)) HS th x k -> mem (Machine.sh s) !! x = Some v ->
  mem_upto (rv_of th) HS m0 !! x = Some v \/ rv_of th < ver (tbl (Machine.sh s)) (index x).
Proof.
  intros Hi Ht Hr (_ & al & _ & _ & Ea) Hm. eapply load_ok; [done..| |done].
  rewrite Ea. simpl. set_solver.
Qed.

(** The value loaded becomes an observation of the body. *)
Lemma loaded_reached T HS th th' x v k :
  loading m0 (rv_of th) T HS th x k ->
  (mem_upto (rv_of th) HS m0 !! x = Some v \/ rv_of th < ver T (index x)) ->
  todo th' = todo th -> started th' = started th -> locals th' = locals th ->
  rv_of th' = rv_of th -> alog_of th' = alog_of th ->
  reached m0 T HS th' (k v) (alog_of th').
Proof.
  intros (_ & al & (tr & rest & o & Etd & He & Ho) & Hx & Ea) Hv Et Es El Er Eg.
  rewrite Eg, Ea. exists tr, rest, (o ++ [(x, v)]). rewrite Et, Es, El, Er.
  split_and!; [done|by apply Tx.exec_read_mem|].
  intros y w [Hin|E%list_elem_of_singleton]%elem_of_app; [by apply Ho|]. by simplify_eq.
Qed.

Lemma loading_rv c c' T HS th x k :
  rv_ok c' th -> loading m0 c T HS th x k -> loading m0 c' T HS th x k.
Proof. intros Hr ((? & ? & _) & Hrest). split; [split_and!; done|done]. Qed.

Lemma at_load n HS s t th x k :
  inv m0 n HS s -> Machine.ths s !! t = Some th ->
  (at_pc th = Load x k \/ at_pc th = LoadHeld x k \/ exists v, at_pc th = LoadRel x v k) ->
  loading m0 (cv s) (tbl (Machine.sh s)) HS th x k /\ reader th /\ (forall y, ~ pend th y).
Proof.
  intros Hi Ht Hpc. pose proof (i_thread _ _ _ _ Hi t th Ht) as Hti. unfold tinv in Hti.
  destruct Hpc as [Hpc|[Hpc|[v Hpc]]]; rewrite Hpc in Hti; unfold reader; rewrite Hpc;
    (split_and!; [|done|no_pend]); [done|done|apply Hti].
Qed.

Lemma same_settled n HS s t th th' :
  inv m0 n HS s -> Machine.ths s !! t = Some th -> reader th -> mgr th' = mgr th -> settled s th'.
Proof.
  intros Hi Ht Hr Em. eapply settled_sub; [done|done|]. intros _.
  unfold rv_of, alog_of, Machine.locs, store_of. by rewrite Em.
Qed.

Lemma load_inv (is_trivial : addr_t -> bool) n HS s t th x k sh' th' ev :
  inv m0 n HS s -> Machine.ths s !! t = Some th -> at_pc th = Load x k ->
  Machine.step_load is_trivial (Machine.sh s) th x k = Some (sh', th', ev) ->
  ev = None /\ inv m0 (S n) HS (next_sys s t sh' th').
Proof.
  intros Hi Ht Hpc Hst. destruct (at_load n HS s t th x k) as (Hl & Hr & Hnp); auto.
  unfold Machine.step_load, Machine.silent in Hst. destruct (is_trivial x).
  - destruct (mem _ !! x) as [v|] eqn:Hm; simplify_eq. split; [done|].
    eapply inv_local; [done|done|done|no_pend|by left| |by eapply same_settled|].
    + by rewrite !held_nil by (by rewrite ?Hpc).
    + split; [apply Hl|]. eapply loaded_reached; [|by eapply loading_ok|done..].
      eapply loading_rv; [|done]. destruct Hl as [(_ & _ & Hrv) _]. unfold rv_ok in *. lia.
  - destruct (Word.lock _) as [w|] eqn:Hw; simplify_eq. split; [done|].
    apply lock_word in Hw as [Hfree ->]; [|apply Hi].
    eapply bit_inv; [done|done|done|no_pend|by left|by eapply same_settled| |done].
    eapply relocked_acquire; [done|done|done|]. by rewrite (held_nil th) by (by rewrite Hpc).
Qed.

Lemma load_held_inv n HS s t th x k sh' th' ev :
  inv m0 n HS s -> Machine.ths s !! t = Some th -> at_pc th = LoadHeld x k ->
  Machine.step_load_held (Machine.sh s) th x k = Some (sh', th', ev) ->
  ev = None /\ inv m0 (S n) HS (next_sys s t sh' th').
Proof.
  intros Hi Ht Hpc Hst. destruct (at_load n HS s t th x k) as (Hl & Hr & Hnp); auto.
  unfold Machine.step_load_held, Machine.silent in Hst.
  destruct (mem _ !! x) as [v|] eqn:Hm; simplify_eq. split; [done|].
  eapply inv_local; [done|done|done|no_pend|by left| |by eapply same_settled|].
  - unfold held. by rewrite Hpc.
  - split; [done|]. by eapply (loading_ok _ _ _ _ th).
Qed.

Lemma load_rel_inv n HS s t th x v k sh' th' ev :
  inv m0 n HS s -> Machine.ths s !! t = Some th -> at_pc th = LoadRel x v k ->
  Machine.step_load_rel (Machine.sh s) th x v k = Some (sh', th', ev) ->
  ev = None /\ inv m0 (S n) HS (next_sys s t sh' th').
Proof.
  intros Hi Ht Hpc Hst. destruct (at_load n HS s t th x k) as (Hl & Hr & Hnp); eauto.
  pose proof (i_thread _ _ _ _ Hi t th Ht) as Hti. unfold tinv in Hti. rewrite Hpc in Hti.
  destruct Hti as [_ Hv]. unfold Machine.step_load_rel, Machine.silent in Hst. simplify_eq.
  split; [done|]. rewrite unlock_word by apply Hi.
  eapply bit_inv; [done|done|done|no_pend|by left|by eapply same_settled| |].
  - eapply relocked_release; [done|done|]. unfold held at 1. by rewrite Hpc.
  - split; [apply Hl|]. eapply loaded_reached; [|exact Hv|done..].
    eapply loading_rv; [|done]. destruct Hl as [(_ & _ & Hrv) _]. unfold rv_ok in *. lia.
Qed.
End Steps.

(** Nothing is pending at a program point outside the commit. *)
Ltac no_pend := intros ?; eapply no_pend; [first [done|eassumption]|done].
