(* ===== verification/StepsGuard.v ===== *)
(** * The lock guard, validation and the retry keep the invariant

    The steps of the guard's constructor and destructor, of the validation of
    the reads, and the end of an attempt. *)

From S2P Require Import Prelude VersionLock LockTable Store Op Log Tx State LockGuard Machine History MachineInv InvFacts Preserve Steps.
Import History.

Section Guard.
Context {LS V L A : Type} `{LocationSetLaws LS}.
Abbreviation thread := (thread LS V L A).
Abbreviation hrec := (hrec V L A).
Abbreviation sys := (Machine.sys (LS := LS) (V := V) (L := L) (A := A)).
Implicit Types (th : thread) (s : sys) (HS : list hrec) (t : tid_t).
Context (m0 : gmap addr_t V).

(** ** A thread seen up to the owners of its locations *)

(** Same attempt, same locations but for their owners. *)
Record same_attempt th th' : Prop := {
  sa_locs : strip (Machine.locs th') = strip (Machine.locs th);
  sa_store : store_of th' = store_of th;
  sa_rv : rv_of th' = rv_of th;
  sa_todo : todo th' = todo th;
  sa_started : started th' = started th;
  sa_locals : locals th' = locals th }.

Lemma same_attempt_alog th th' : same_attempt th th' -> alog_of th' = alog_of th.
Proof. intros [El Es _ _ _ _]. unfold alog_of. rewrite Es. by apply abs_strip_eq. Qed.

Lemma same_attempt_locs_ok th th' :
  same_attempt th th' -> locs_ok (Machine.locs th) (store_of th) ->
  locs_ok (Machine.locs th') (store_of th').
Proof. intros [El Es _ _ _ _]. rewrite Es. by apply locs_ok_strip_eq. Qed.

Lemma staged_owner (st : Store.store V) loc loc' :
  Loc.set_owner None loc' = Loc.set_owner None loc -> staged st loc' = staged st loc.
Proof. intros E. change (staged st (Loc.set_owner None loc') = staged st (Loc.set_owner None loc)). by rewrite E. Qed.

Lemma same_attempt_lookup th th' (j : nat) loc' :
  same_attempt th th' -> Machine.locs th' !! j = Some loc' ->
  exists loc, Machine.locs th !! j = Some loc /\ Loc.set_owner None loc' = Loc.set_owner None loc.
Proof.
  intros Hs Hj. destruct (strip_lookup _ _ _ _ (sa_locs _ _ Hs) Hj) as (loc & ? & E). eauto.
Qed.

Lemma returned_same c T HS th th' a :
  same_attempt th th' -> returned m0 c T HS th a -> returned m0 c T HS th' a.
Proof.
  intros Hs (Hok & Hrv & Hst & (tr & rest & o & Etd & He & Ho)).
  pose proof Hs as [El Es Er Et Est Elo]. split_and!.
  - by eapply same_attempt_locs_ok.
  - unfold rv_ok. by rewrite Er.
  - intros loc' Hin Hw. apply list_elem_of_lookup in Hin as [j Hj].
    destruct (same_attempt_lookup _ _ _ _ Hs Hj) as (loc & Hj0 & E).
    rewrite Es, (staged_owner _ loc) by done. apply Hst; [by eapply list_elem_of_lookup_2|].
    change (m_written (Loc.set_owner None loc) = true). by rewrite <- E.
  - exists tr, rest, o. rewrite Et, Est, Elo, Er, (same_attempt_alog _ _ Hs). done.
Qed.

Lemma settled_same n HS s t th th' :
  inv m0 n HS s -> Machine.ths s !! t = Some th -> reader th -> same_attempt th th' ->
  settled s th'.
Proof.
  intros Hi Ht Hr Hs. eapply settled_sub; [done|done|]. intros _.
  by rewrite (sa_rv _ _ Hs), (same_attempt_alog _ _ Hs).
Qed.

Lemma same_attempt_goto th P : same_attempt th (Machine.goto P th).
Proof. done. Qed.

(** The guard's positions and locks depend on the addresses only. *)
Lemma guarded_same t th th' i g :
  Machine.locs th' = Machine.locs th -> held th' = held th ->
  guarded t th i g -> guarded t th' i g.
Proof. intros El Eh [Ho Hh Hs Hp]. constructor; rewrite ?El, ?Eh; done. Qed.

Lemma eta_shared (x : shared V) : Shared (clock x) (tbl x) (mem x) = x.
Proof. by destruct x. Qed.

(** ** The constructor *)

Lemma guarded_end t th i g :
  Machine.locs th !! i = None -> guarded t th i g -> guarded t th (length (Machine.locs th)) g.
Proof.
  intros Hn [Ho Hh Hs Hp]. apply lookup_ge_None in Hn. constructor.
  - intros j loc Hj. rewrite (Ho j loc Hj). apply lookup_lt_Some in Hj.
    by rewrite !decide_True by lia.
  - intros j loc Hj Hlt. apply (Hh j loc Hj). lia.
  - intros k. rewrite Hs. split; intros (j & loc & Hlt & Hj & E); exists j, loc; split_and!;
      try done; apply lookup_lt_Some in Hj; lia.
  - intros j Hj. destruct (Hp j Hj) as [_ [loc Hl]]. split; [|eauto]. by eapply lookup_lt_Some.
Qed.

Lemma guarded_next t th th' i loc g g' :
  Machine.locs th !! i = Some loc -> Machine.locs th' = alter (Loc.mark_owner t) i (Machine.locs th) ->
  (forall k, k ∈ held th -> k ∈ held th') -> Loc.lock_ptr loc ∈ held th' ->
  (forall k, k ∈ locked g' <-> k = Loc.lock_ptr loc \/ k ∈ locked g) ->
  (forall j, j ∈ m_locked g' -> j ∈ m_locked g \/ j = i) ->
  guarded t th i g -> guarded t th' (S i) g'.
Proof.
  intros Hi El Hsub Hin Hset Hpos [Ho Hh Hs Hp].
  assert (Hlk : forall j l', Machine.locs th' !! j = Some l' ->
    exists l0, Machine.locs th !! j = Some l0 /\ Loc.lock_ptr l' = Loc.lock_ptr l0 /\
      m_owner l' = if decide (j < S i)%nat then Some t else None).
  { intros j l' Hj. rewrite El in Hj. destruct (decide (i = j)) as [<-|Hne].
    - rewrite list_lookup_alter_eq, Hi in Hj. simpl in Hj. simplify_eq. exists loc.
      rewrite decide_True by lia. done.
    - rewrite list_lookup_alter_ne in Hj by done. exists l'. rewrite (Ho j l' Hj). split_and!; [done..|].
      destruct (decide (j < i)%nat), (decide (j < S i)%nat); try done; lia. }
  assert (Hlk' : forall j l0, Machine.locs th !! j = Some l0 ->
    exists l', Machine.locs th' !! j = Some l' /\ Loc.lock_ptr l' = Loc.lock_ptr l0).
  { intros j l0 Hj. rewrite El. destruct (decide (i = j)) as [<-|Hne].
    - rewrite list_lookup_alter_eq, Hj. by eexists.
    - rewrite list_lookup_alter_ne by done. by eexists. }
  constructor.
  - intros j l' Hj. by destruct (Hlk j l' Hj) as (? & _ & _ & ->).
  - intros j l' Hj Hlt. destruct (Hlk j l' Hj) as (l0 & Hj0 & -> & _).
    destruct (decide (j = i)) as [->|]; [by simplify_eq|]. apply Hsub, (Hh j l0 Hj0). lia.
  - intros k. rewrite Hset, Hs. split.
    + intros [->|(j & l0 & Hlt & Hj & <-)].
      * destruct (Hlk' i loc Hi) as (l' & ? & ?). exists i, l'. split; [lia|done].
      * destruct (Hlk' j l0 Hj) as (l' & ? & ?). exists j, l'. split; [lia|done].
    + intros (j & l' & Hlt & Hj & <-). destruct (Hlk j l' Hj) as (l0 & Hj0 & -> & _).
      destruct (decide (j = i)) as [->|]; [left; by simplify_eq|right]. exists j, l0. split; [lia|done].
  - intros j Hj. destruct (Hpos j Hj) as [Hj0| ->].
    + destruct (Hp j Hj0) as [Hlt [l0 Hl]]. split; [lia|]. destruct (Hlk' j l0 Hl) as (? & ? & _). eauto.
    + split; [lia|]. destruct (Hlk' i loc Hi) as (? & ? & _). eauto.
Qed.

Lemma mark_owner_strip t (ls : list Location) (i : nat) :
  strip (alter (Loc.mark_owner t) i ls) = strip ls.
Proof. by apply strip_alter. Qed.

(** The thread after the location at [i] was marked, the guard being [g']. *)
Definition marked th (ls' : LS) a (i : nat) g' : thread :=
  Machine.goto (Guarding a (S i) g') (Machine.with_ls ls' th).

Lemma marked_same t th ls' a i g' :
  ls_locations ls' = alter (Loc.mark_owner t) i (Machine.locs th) ->
  same_attempt th (marked th ls' a i g').
Proof.
  intros El. constructor; try done.
  change (strip (ls_locations ls') = strip (Machine.locs th)). rewrite El. apply mark_owner_strip.
Qed.

Lemma marked_held t th ls' a b i g' :
  ls_locations ls' = alter (Loc.mark_owner t) i (Machine.locs th) ->
  held (marked th ls' a i g') = omap (lock_at th) (m_locked g') /\
  (at_pc th = Guarding b i (Guard (locked g') (m_locked g')) ->
   held (marked th ls' a i g') = held th).
Proof.
  intros El. assert (E : held (marked th ls' a i g') = omap (lock_at th) (m_locked g')).
  { unfold held. simpl. apply omap_lock_at_strip, (marked_same _ _ _ _ _ _ El). }
  split; [done|]. intros Hpc. rewrite E. unfold held, held_pos. rewrite Hpc. done.
Qed.

Lemma at_guard n HS s t th a i g :
  inv m0 n HS s -> Machine.ths s !! t = Some th -> at_pc th = Guarding a i g ->
  returned m0 (cv s) (tbl (Machine.sh s)) HS th a /\ guarded t th i g /\ reader th.
Proof.
  intros Hi Ht Hpc. pose proof (i_thread _ _ _ _ Hi t th Ht) as Hti. unfold tinv in Hti.
  rewrite Hpc in Hti. unfold reader. rewrite Hpc. destruct Hti. by split_and!.
Qed.

Lemma guard_end_inv n HS s t th a i g :
  inv m0 n HS s -> Machine.ths s !! t = Some th -> at_pc th = Guarding a i g ->
  Machine.locs th !! i = None ->
  inv m0 (S n) HS (next_sys s t (Machine.sh s) (Machine.goto (Incr a g) th)).
Proof.
  intros Hi Ht Hpc Hn. destruct (at_guard _ _ _ _ _ _ _ _ Hi Ht Hpc) as (Hre & Hg & Hr).
  assert (Hh : held (Machine.goto (Incr a g) th) = held th)
    by (unfold held, held_pos; by rewrite Hpc).
  eapply inv_local; [done|done|no_pend|no_pend|by left|by rewrite Hh| |].
  - by eapply settled_same.
  - split; [done|]. apply (guarded_same _ th); [done|done|].
    exact (guarded_end t th i g Hn Hg).
Qed.

(** The lock was taken by this guard already. *)
Lemma guard_mark_inv n HS s t th a i g loc :
  inv m0 n HS s -> Machine.ths s !! t = Some th -> at_pc th = Guarding a i g ->
  Machine.locs th !! i = Some loc -> Loc.lock_ptr loc ∈ locked g ->
  inv m0 (S n) HS (next_sys s t (Machine.sh s)
    (marked th (ls_modify i (Loc.mark_owner t) (Machine.lset th)) a i g)).
Proof.
  intros Hi Ht Hpc Hl Hin. destruct (at_guard _ _ _ _ _ _ _ _ Hi Ht Hpc) as (Hre & Hg & Hr).
  set (ls' := ls_modify i _ _).
  assert (El : ls_locations ls' = alter (Loc.mark_owner t) i (Machine.locs th))
    by apply ls_modify_locations.
  pose proof (marked_same t th ls' a i g El) as Hs.
  assert (Hh : held (marked th ls' a i g) = held th).
  { eapply (marked_held t th ls' a a i g El). rewrite Hpc. by destruct g. }
  eapply inv_local; [done|done|no_pend|no_pend|by left|by rewrite Hh| |].
  - by eapply settled_same.
  - split; [by eapply returned_same|].
    assert (Hin' : Loc.lock_ptr loc ∈ held th).
    { apply (gd_set _ _ _ _ Hg) in Hin as (j & l0 & Hlt & Hj & <-). by eapply (gd_held _ _ _ _ Hg). }
    eapply (guarded_next t th); [done|exact El|by rewrite Hh|by rewrite Hh| | |done].
    + intros k. split; [by right|]. by intros [->|].
    + by left.
Qed.

Lemma not_owned t th i g loc :
  guarded t th i g -> Machine.locs th !! i = Some loc -> Loc.owned t loc = false.
Proof.
  intros Hg Hl. unfold Loc.owned. rewrite (gd_owner _ _ _ _ Hg i loc Hl), decide_False by lia.
  by apply bool_decide_false.
Qed.

Lemma guard_lock_inv n HS s t th a i g loc w :
  inv m0 n HS s -> Machine.ths s !! t = Some th -> at_pc th = Guarding a i g ->
  Machine.locs th !! i = Some loc ->
  Word.lock (hashtbl_get (tbl (Machine.sh s)) (m_addr loc)) = Some w ->
  inv m0 (S n) HS (next_sys s t
    (Shared (clock (Machine.sh s)) (hashtbl_put (tbl (Machine.sh s)) (m_addr loc) w) (mem (Machine.sh s)))
    (marked th (ls_modify i (fun _ => Loc.set_owner (Some t) loc) (Machine.lset th)) a i
      (Guard ({[Loc.lock_ptr loc]} ∪ locked g) (m_locked g ++ [i])))).
Proof.
  intros Hi Ht Hpc Hl Hw. destruct (at_guard _ _ _ _ _ _ _ _ Hi Ht Hpc) as (Hre & Hg & Hr).
  set (ls' := ls_modify i _ _). set (g' := Guard _ _).
  assert (El : ls_locations ls' = alter (Loc.mark_owner t) i (Machine.locs th)).
  { unfold ls'. rewrite ls_modify_locations. apply list_alter_ext; [|done].
    intros l0 Hl0. change (Machine.locs th !! i = Some l0) in Hl0. by simplify_eq. }
  pose proof (marked_same t th ls' a i g' El) as Hs.
  assert (Hh : held (marked th ls' a i g') ≡ₚ Loc.lock_ptr loc :: held th).
  { rewrite (proj1 (marked_held t th ls' a a i g' El)). simpl.
    rewrite omap_app. simpl. rewrite (lock_at_held _ _ _ Hl).
    unfold held, held_pos. rewrite Hpc. by rewrite Permutation_app_comm. }
  apply lock_word in Hw as [Hfree ->]; [|apply Hi].
  eapply bit_inv; [done|done|no_pend|no_pend|by left| | |].
  - by eapply settled_same.
  - by eapply relocked_acquire.
  - split; [by eapply returned_same|]. eapply (guarded_next t th); [done|exact El| | | | |done].
    + intros k Hk. rewrite Hh. by right.
    + rewrite Hh. by left.
    + intros k. simpl. by rewrite elem_of_union, elem_of_singleton.
    + intros j. simpl. rewrite elem_of_app, list_elem_of_singleton. done.
Qed.

Lemma guard_inv n HS s t th a i g sh' th' ev :
  inv m0 n HS s -> Machine.ths s !! t = Some th -> at_pc th = Guarding a i g ->
  Machine.step_guard t (Machine.sh s) th a i g = Some (sh', th', ev) ->
  ev = None /\ inv m0 (S n) HS (next_sys s t sh' th').
Proof.
  intros Hi Ht Hpc Hst. unfold Machine.step_guard, Machine.silent in Hst.
  destruct (Machine.locs th !! i) as [loc|] eqn:Hl; [|simplify_eq; split; [done|]; by eapply guard_end_inv].
  unfold LockGuard.acquire_step in Hst. case_decide as Hin.
  - simplify_eq. split; [done|]. rewrite eta_shared. by eapply guard_mark_inv.
  - destruct (at_guard _ _ _ _ _ _ _ _ Hi Ht Hpc) as (_ & Hg & _).
    unfold Loc.lock in Hst. rewrite (not_owned _ _ _ _ _ Hg Hl) in Hst.
    destruct (Word.lock _) as [w|] eqn:Hw; simplify_eq. split; [done|].
    by eapply guard_lock_inv.
Qed.

(** ** Validation *)

Lemma at_validate n HS s t th a wv i g :
  inv m0 n HS s -> Machine.ths s !! t = Some th -> at_pc th = Validate a wv i g ->
  returned m0 (cv s) (tbl (Machine.sh s)) HS th a /\ stamped (cv s) t th wv g /\ reader th.
Proof.
  intros Hi Ht Hpc. pose proof (i_thread _ _ _ _ Hi t th Ht) as Hti. unfold tinv in Hti.
  rewrite Hpc in Hti. unfold reader. rewrite Hpc. destruct Hti as (? & ? & _). by split_and!.
Qed.

Lemma stamped_same c t th th' wv g :
  Machine.locs th' = Machine.locs th -> held th' = held th -> rv_of th' = rv_of th ->
  stamped c t th wv g -> stamped c t th' wv g.
Proof.
  intros El Eh Er (Hg & Hrv & Hc). unfold stamped. rewrite El, Er. split_and!; try done; try lia.
  by eapply (guarded_same _ th).
Qed.

(** The version read by the validation is that of the lock the thread holds. *)
Lemma own_version c t th wv g T (i : nat) loc :
  stamped c t th wv g -> Machine.locs th !! i = Some loc ->
  Loc.owned t loc = true /\ Loc.get_version t T loc = Some (ver T (Loc.lock_ptr loc)).
Proof.
  intros (Hg & _) Hl. assert (E : Loc.owned t loc = true).
  { unfold Loc.owned. rewrite (gd_owner _ _ _ _ Hg i loc Hl), decide_True by (by eapply lookup_lt_Some).
    by apply bool_decide_true. }
  unfold Loc.get_version. by rewrite E.
Qed.

Lemma validate_next_inv n HS s t th a wv i g loc :
  inv m0 n HS s -> Machine.ths s !! t = Some th -> at_pc th = Validate a wv i g ->
  Machine.locs th !! i = Some loc ->
  (m_read loc = true -> ver (tbl (Machine.sh s)) (Loc.lock_ptr loc) <= rv_of th) ->
  inv m0 (S n) HS (next_sys s t (Machine.sh s) (Machine.goto (Validate a wv (S i) g) th)).
Proof.
  intros Hi Ht Hpc Hl Hv. destruct (at_validate _ _ _ _ _ _ _ _ _ Hi Ht Hpc) as (Hre & Hst & Hr).
  pose proof (i_thread _ _ _ _ Hi t th Ht) as Hti. unfold tinv in Hti. rewrite Hpc in Hti.
  destruct Hti as (_ & _ & Hver & Hrd).
  set (th' := Machine.goto _ th).
  assert (Hh : held th' = held th) by (unfold held, held_pos; by rewrite Hpc).
  eapply inv_local; [done|done|no_pend|no_pend| |by rewrite Hh|by eapply settled_same|].
  - right. unfold wv_of, undecided. by rewrite Hpc.
  - split_and!; [done|by eapply (stamped_same _ _ th)|by rewrite Hh|].
    intros j l0 Hj Hlt. destruct (decide (j = i)) as [->|].
    + change (Machine.locs th !! i = Some l0) in Hj. by simplify_eq.
    + apply (Hrd j l0 Hj). lia.
Qed.

(** ** The end of an attempt *)

Lemma release_start_inv n HS s t th a wv ok g :
  inv m0 n HS s -> Machine.ths s !! t = Some th -> (forall x, ~ pend th x) ->
  held th = omap (lock_at th) (m_locked g) -> stamped (cv s) t th wv g ->
  locs_ok (Machine.locs th) (store_of th) -> todo th <> [] ->
  inv m0 (S n) HS (next_sys s t (Machine.sh s) (Machine.goto (Release a ok (rev (m_locked g))) th)).
Proof.
  intros Hi Ht Hnp Hh (Hg & _) Hok Htd. set (th' := Machine.goto _ th).
  assert (Hh' : held th' ≡ₚ held th).
  { rewrite Hh. unfold held. simpl. apply omap_Permutation. symmetry. apply Permutation_rev. }
  eapply inv_local; [done|done|done|no_pend|by left|done| |].
  - intros [].
  - split_and!; [done..|]. intros j Hj. rewrite <- Permutation_rev in Hj. by apply (gd_pos _ _ _ _ Hg).
Qed.

Lemma reached_todo T HS th p al : reached m0 T HS th p al -> todo th <> [].
Proof. intros (tr & rest & o & -> & _) E. done. Qed.

Lemma release_one_inv n HS s t th a ok i rest loc :
  inv m0 n HS s -> Machine.ths s !! t = Some th -> at_pc th = Release a ok (i :: rest) ->
  Machine.locs th !! i = Some loc ->
  inv m0 (S n) HS (next_sys s t
    (Shared (clock (Machine.sh s)) (hashtbl_put (tbl (Machine.sh s)) (m_addr loc)
       (Word.unlock (hashtbl_get (tbl (Machine.sh s)) (m_addr loc)))) (mem (Machine.sh s)))
    (Machine.goto (Release a ok rest)
      (Machine.with_ls (ls_modify i (fun _ => Loc.set_owner None loc) (Machine.lset th)) th))).
Proof.
  intros Hi Ht Hpc Hl. pose proof (i_thread _ _ _ _ Hi t th Ht) as Hti. unfold tinv in Hti.
  rewrite Hpc in Hti. destruct Hti as (Hok & Htd & Hpos). set (th' := Machine.goto _ _).
  assert (El : Machine.locs th' = alter (fun _ => Loc.set_owner None loc) i (Machine.locs th))
    by apply ls_modify_locations.
  assert (Hs : same_attempt th th').
  { constructor; try done. rewrite El. apply strip_alter. intros l0 Hl0. by simplify_eq. }
  assert (Hh : held th ≡ₚ Loc.lock_ptr loc :: held th').
  { unfold held, held_pos. rewrite Hpc. simpl. rewrite (lock_at_held _ _ _ Hl).
    by rewrite (omap_lock_at_strip th' th) by apply Hs. }
  rewrite unlock_word by apply Hi.
  eapply bit_inv; [done|done|no_pend|no_pend|by left|by intros []| |].
  - by eapply relocked_release.
  - split_and!; [by eapply same_attempt_locs_ok|done|].
    intros j Hj. destruct (Hpos j) as [l0 Hj0]; [by right|].
    destruct (strip_lookup _ _ _ _ (eq_sym (sa_locs _ _ Hs)) Hj0) as (l' & ? & _). eauto.
Qed.

Lemma release_inv n HS s t th a ok rest sh' th' ev :
  inv m0 n HS s -> Machine.ths s !! t = Some th -> at_pc th = Release a ok rest ->
  Machine.step_release (Machine.sh s) th a ok rest = Some (sh', th', ev) ->
  ev = None /\ inv m0 (S n) HS (next_sys s t sh' th').
Proof.
  intros Hi Ht Hpc Hst. pose proof (i_thread _ _ _ _ Hi t th Ht) as Hti. unfold tinv in Hti.
  rewrite Hpc in Hti. destruct Hti as (Hok & Htd & Hpos).
  unfold Machine.step_release, Machine.silent in Hst. destruct rest as [|i rest].
  - assert (Hh : held th = []) by (unfold held, held_pos; by rewrite Hpc).
    destruct ok; [rewrite clear_end in Hst by done|destruct (todo th) as [|tr td] eqn:Etd; [done|]];
      simplify_eq; (split; [done|]);
      (eapply body_local; [done|done|done|by apply held_nil|done|no_pend|no_pend|by intros []|]).
    + apply empty_locs_ok.
    + split; [done|]. simpl. by rewrite Etd.
  - destruct (Hpos i) as [loc Hl]; [by left|].
    unfold LockGuard.release_step in Hst.
    change (ls_locations (Machine.lset th)) with (Machine.locs th) in Hst. rewrite Hl in Hst.
    simpl in Hst. simplify_eq. split; [done|]. by eapply release_one_inv.
Qed.
End Guard.
