(* ===== verification/StepsCommit.v ===== *)
(** * The increment of the clock, the decision and the commit keep the invariant *)

From S2P Require Import Prelude VersionLock LockTable Store Op Log Tx State LockGuard Machine History MachineInv InvFacts Preserve Steps StepsGuard.
Import History.

Section Commit.
Context {LS V L A : Type} `{LocationSetLaws LS}.
Abbreviation thread := (thread LS V L A).
Abbreviation hrec := (hrec V L A).
Abbreviation sys := (Machine.sys (LS := LS) (V := V) (L := L) (A := A)).
Implicit Types (th : thread) (s : sys) (HS : list hrec) (t : tid_t).
Context (m0 : gmap addr_t V).

Ltac split_thread t u :=
  destruct (decide (t = u)) as [<-|?];
  [rewrite ?lookup_insert_eq in *|rewrite ?lookup_insert_ne in * by done]; simplify_eq.

(** ** Bounds on versions *)

Lemma inv_mono n n' HS s : (n <= n')%nat -> inv m0 n HS s -> inv m0 n' HS s.
Proof.
  intros Hn [Hc]. constructor; try done. destruct Hc as (c & Ec & Hc). exists c. split; [done|lia].
Qed.

Lemma reader_rv n HS s t th :
  inv m0 n HS s -> Machine.ths s !! t = Some th -> reader th -> rv_of th <= cv s.
Proof.
  intros Hi Ht Hr. pose proof (i_thread _ _ _ _ Hi t th Ht) as Hti.
  unfold tinv, reader, loading, in_body, returned, rv_ok in *. unfold cv.
  destruct (at_pc th); try done; intuition lia.
Qed.

Lemma wv_le n HS s t th wv :
  inv m0 n HS s -> Machine.ths s !! t = Some th -> wv_of th = Some wv ->
  stamped (cv s) t th wv
    match at_pc th with
    | Validate _ _ _ g | Commit _ _ _ g | Moving _ _ _ g => g | _ => LockGuard.start
    end.
Proof.
  intros Hi Ht Hw. pose proof (i_thread _ _ _ _ Hi t th Ht) as Hti.
  unfold tinv, wv_of, committing in *. unfold cv.
  destruct (at_pc th); simplify_eq; intuition.
Qed.

(** The locks held by some thread, after a step that changes those of none. *)
Lemma holder_same s t th th' (i : Z) : Machine.ths s !! t = Some th -> held th' = held th ->
  (exists u thu, Machine.ths s !! u = Some thu /\ i ∈ held thu) <->
  exists u thu, <[t := th']> (Machine.ths s) !! u = Some thu /\ i ∈ held thu.
Proof.
  intros Ht Hh. split.
  - intros (u & thu & Hu & Hin). destruct (decide (t = u)) as [<-|].
    + exists t, th'. rewrite lookup_insert_eq. simplify_eq. by rewrite Hh.
    + exists u, thu. by rewrite lookup_insert_ne.
  - intros (u & thu & Hu & Hin). split_thread t u; [rewrite Hh in Hin|]; eauto.
Qed.

(** No thread writes at an address: so it was before a step of a thread that did not. *)
Lemma no_writer_before s t th th' x : Machine.ths s !! t = Some th -> (pend th' x <-> pend th x) ->
  (forall u thu, <[t := th']> (Machine.ths s) !! u = Some thu -> ~ pend thu x) ->
  forall u thu, Machine.ths s !! u = Some thu -> ~ pend thu x.
Proof.
  intros Ht Hp Hn u thu Hu. destruct (decide (t = u)) as [<-|Hne].
  - simplify_eq. rewrite <- Hp. apply (Hn t). by rewrite lookup_insert_eq.
  - apply (Hn u). by rewrite lookup_insert_ne.
Qed.

(** ** The increment of the clock *)

(** What the thread knows after it. *)
Lemma incr_tinv n HS s t th a g :
  inv m0 n HS s -> Machine.ths s !! t = Some th -> at_pc th = Incr a g ->
  tinv m0 (cv s + 1) (tbl (Machine.sh s)) HS t (Machine.goto (Validate a (cv s + 1) 0 g) th).
Proof.
  intros Hi Ht Hpc. pose proof (i_thread _ _ _ _ Hi t th Ht) as Hti. unfold tinv in Hti. rewrite Hpc in Hti.
  destruct Hti as [Hre Hg]. assert (Hr : reader th) by (unfold reader; by rewrite Hpc).
  assert (Hfr : frame m0 (cv s) (tbl (Machine.sh s)) HS (cv s + 1) (tbl (Machine.sh s)) HS th) by (constructor; try done; lia).
  assert (Hh : held (Machine.goto (Validate a (cv s + 1) 0 g) th) = held th) by (unfold held, held_pos; by rewrite Hpc).
  split_and!.
  - eapply returned_same; [apply same_attempt_goto|]. eapply returned_frame; [exact Hfr|done|done].
  - split_and!; [by eapply (guarded_same t th)|apply Hre| |lia].
    pose proof (reader_rv _ _ _ _ _ Hi Ht Hr). change (rv_of th < cv s + 1). lia.
  - intros k _. destruct (i_words _ _ _ _ Hi k) as [_ Hle]. fold (cv s) in Hle. lia.
  - intros j loc _ Hlt. lia.
Qed.

(** The new version is above those of the transactions before. *)
Lemma incr_new n HS s w thw : inv m0 n HS s -> Machine.ths s !! w = Some thw -> wv_of thw <> Some (cv s + 1).
Proof. intros Hi Hw Hwv. destruct (wv_le _ _ _ _ _ _ Hi Hw Hwv) as (_ & _ & ?). lia. Qed.

Lemma incr_inv n HS s t th a g :
  inv m0 n HS s -> Z.of_nat (S n) < 2 ^ 63 -> Machine.ths s !! t = Some th ->
  at_pc th = Incr a g ->
  Word.incr_version (clock (Machine.sh s)) = (Word.pack (cv s + 1) false, cv s + 1) /\
  inv m0 (S n) HS (next_sys s t
    (Shared (Word.pack (cv s + 1) false) (tbl (Machine.sh s)) (mem (Machine.sh s)))
    (Machine.goto (Validate a (cv s + 1) 0 g) th)).
Proof.
  intros Hi Hn Ht Hpc. destruct (i_clock _ _ _ _ Hi) as (c & Ec & Hc).
  assert (Hcv : cv s = c) by (unfold cv; rewrite Ec; apply Word.unpack_pack; unfold Word.version_ok; lia).
  assert (Hok : Word.version_ok (cv s)) by (unfold Word.version_ok; lia).
  assert (Hok1 : Word.version_ok (cv s + 1)) by (unfold Word.version_ok; lia).
  split; [rewrite Ec, <- Hcv; by apply Word.incr_version_pack|].
  set (th' := Machine.goto _ th).
  assert (Hh : held th' = held th) by (unfold held, held_pos; by rewrite Hpc).
  assert (Hw0 : wv_of th = None) by (unfold wv_of; by rewrite Hpc).
  assert (Hnp : forall x, ~ pend th x) by no_pend.
  assert (Hr : reader th) by (unfold reader; by rewrite Hpc).
  assert (Hfr : forall u thu, Machine.ths s !! u = Some thu ->
    frame m0 (cv s) (tbl (Machine.sh s)) HS (cv s + 1) (tbl (Machine.sh s)) HS thu).
  { intros u thu Hu. constructor; try done. lia. }
  constructor; simpl; rewrite ?Word.unpack_pack by done.
  - exists (cv s + 1). split; [done|lia].
  - intros i. destruct (i_words _ _ _ _ Hi i) as [? Hle]. fold (cv s) in Hle. split; [done|lia].
  - intros i. rewrite (i_lock _ _ _ _ Hi i). by eapply holder_same.
  - intros u w thu thw i Hu Hw Hiu Hiw.
    split_thread t u; split_thread t w; rewrite ?Hh in *; try done; by eapply (i_excl _ _ _ _ Hi).
  - intros u thu Hu. split_thread t u; rewrite ?Hh; by eapply (i_nodup _ _ _ _ Hi).
  - intros u thu Hu. split_thread t u.
    + by eapply incr_tinv.
    + eapply tinv_frame; [by eapply Hfr|]. by eapply (i_thread _ _ _ _ Hi).
  - intros u w thu thw x wv Hu Hw Hru Hx Hwv Hle. split_thread t w.
    + simpl in Hwv. injection Hwv as <-. exfalso. assert (rv_of thu <= cv s); [|lia].
      split_thread t u; [exact (reader_rv _ _ _ _ _ Hi Ht Hr)|]. by eapply reader_rv.
    + split_thread t u; [|by eapply (i_settled _ _ _ _ Hi u w)]. by eapply (i_settled _ _ _ _ Hi t w).
  - intros u w thu thw wv Hu Hw Hwu Hww.
    split_thread t u; split_thread t w; try done.
    + simpl in Hwu. injection Hwu as <-. by destruct (incr_new _ _ _ _ _ Hi Hw).
    + simpl in Hww. injection Hww as <-. by destruct (incr_new _ _ _ _ _ Hi Hu).
    + by eapply (i_wv _ _ _ _ Hi).
  - intros u thu wv h Hu Hun Hwu Hh'. split_thread t u; [|by eapply (i_fresh _ _ _ _ Hi)].
    simpl in Hwu. injection Hwu as <-. pose proof (i_bound _ _ _ _ Hi h Hh') as Hb. fold (cv s) in Hb. lia.
  - apply Hi.
  - intros h Hh'. pose proof (i_bound _ _ _ _ Hi h Hh') as Hb. fold (cv s) in Hb. lia.
  - apply Hi.
  - intros h x v u thu wv Hh' Ho Hu Hun Hwu Hlt. split_thread t u; [|by eapply (i_cross _ _ _ _ Hi)].
    simpl in Hwu. injection Hwu as <-. exfalso. pose proof (i_bound _ _ _ _ Hi h Hh') as Hb. fold (cv s) in Hb. lia.
  - intros h x Hh' Hx. destruct (i_ver _ _ _ _ Hi h x Hh' Hx) as [|(u & thu & Hu & Hwu & Hv)]; [by left|right].
    exists u, thu. split; [|done]. rewrite lookup_insert_ne; [done|]. intros ->. simplify_eq.
  - intros x Hnone. apply (i_mem _ _ _ _ Hi). eapply no_writer_before; [done| |exact Hnone]. split; [done|by intros ?%Hnp].
  - intros u thu x wv Hu Hpu Hwu. split_thread t u; [done|]. by eapply (i_pend _ _ _ _ Hi).
Qed.

(** ** The decision *)

Section Decision.
Context (n : nat) (HS : list hrec) (s : sys) (t : tid_t) (th : thread).
Context (a : A) (wv : version_t) (i : nat) (g : guard).
Context (tr : txn V L A) (rest : list (txn V L A)) (o : list (addr_t * V)).
Hypothesis Hi : inv m0 n HS s.
Hypothesis Ht : Machine.ths s !! t = Some th.
Hypothesis Hpc : at_pc th = Validate a wv i g.
Hypothesis Etd : todo th = tr :: rest.
Hypothesis Hexec : Tx.exec (body tr) (started th) o (Ret a) (locals th) (alog_of th).
Hypothesis Hobs : obs_ok m0 (tbl (Machine.sh s)) HS (rv_of th) o.
(* every read was validated *)
Hypothesis Hval : forall j loc, Machine.locs th !! j = Some loc -> m_read loc = true ->
  ver (tbl (Machine.sh s)) (Loc.lock_ptr loc) <= rv_of th.

Definition the_rec : hrec :=
  HRec (Event wv t (body tr) (started th) a (locals th)) o (alog_of th).
Definition the_next : thread := Machine.goto (Commit a wv 0 g) th.

Lemma dec_returned : returned m0 (cv s) (tbl (Machine.sh s)) HS th a.
Proof. eapply at_validate; eauto. Qed.

Lemma dec_stamped : stamped (cv s) t th wv g.
Proof. by eapply at_validate. Qed.

Lemma dec_wv : wv_of th = Some wv.
Proof. unfold wv_of. by rewrite Hpc. Qed.

Lemma dec_undecided : undecided th.
Proof. unfold undecided. by rewrite Hpc. Qed.

Lemma dec_no_pend x : ~ pend th x.
Proof. revert x. no_pend. Qed.

Lemma dec_held_eq : held the_next = held th.
Proof. unfold held, held_pos. by rewrite Hpc. Qed.

Lemma dec_loc x l0 : loc_map (Machine.locs th) !! x = Some l0 ->
  exists j, Machine.locs th !! j = Some l0 /\ m_addr l0 = x /\ index x ∈ held th.
Proof.
  intros Hl. apply loc_map_lookup in Hl as [Hin <-]; [|apply dec_returned].
  apply list_elem_of_lookup in Hin as [j Hj]. exists j. split_and!; [done..|].
  destruct dec_stamped as (Hg & _). apply (gd_held _ _ _ _ Hg j l0 Hj). by eapply lookup_lt_Some.
Qed.

Lemma dec_read x : x ∈ reads (alog_of th) ->
  index x ∈ held th /\ ver (tbl (Machine.sh s)) (index x) <= rv_of th.
Proof.
  intros Hx. unfold alog_of in Hx. simpl in Hx. apply elem_of_dom in Hx as [l0 Hl].
  apply map_lookup_filter_Some in Hl as [Hl Hr]. destruct (dec_loc _ _ Hl) as (j & Hj & <- & Hin).
  split; [done|]. by apply (Hval j).
Qed.

Lemma dec_written x : writes_to x the_rec ->
  exists j l0, Machine.locs th !! j = Some l0 /\ m_written l0 = true /\ m_addr l0 = x /\
    index x ∈ held th.
Proof.
  unfold writes_to, hwrites. simpl. intros [v Hv]. rewrite lookup_omap in Hv.
  destruct (loc_map (Machine.locs th) !! x) as [l0|] eqn:Hl; [|done]. simpl in Hv.
  destruct (dec_loc _ _ Hl) as (j & Hj & Ha & Hin). exists j, l0. split_and!; try done.
  unfold staged in Hv. by destruct (m_written l0).
Qed.

Lemma dec_writes_held x : writes_to x the_rec -> index x ∈ held th.
Proof. intros Hx. by destruct (dec_written x Hx) as (_ & _ & _ & _ & _ & ?). Qed.

Lemma dec_staged (j : nat) l0 : Machine.locs th !! j = Some l0 -> m_written l0 = true ->
  is_Some (staged (store_of th) l0) /\
  staged (store_of th) l0 = hwrites the_rec !! m_addr l0 /\ writes_to (m_addr l0) the_rec.
Proof.
  intros Hj Hw. destruct dec_returned as (Hok & _ & Hst & _).
  assert (Hin : l0 ∈ Machine.locs th) by (by eapply list_elem_of_lookup_2).
  pose proof (Hst l0 Hin Hw) as Hs.
  assert (E : hwrites the_rec !! m_addr l0 = staged (store_of th) l0).
  { unfold hwrites. simpl. rewrite lookup_omap.
    by rewrite (proj2 (loc_map_lookup _ (m_addr l0) l0 (ok_nodup _ _ Hok)) (conj Hin eq_refl)). }
  unfold writes_to. by rewrite E.
Qed.

(** Commits at an address of a lock held are bounded by the lock's version,
    which is below the write version. *)
Lemma dec_writers x h : index x ∈ held th -> h ∈ HS -> writes_to x h ->
  hwv h <= ver (tbl (Machine.sh s)) (index x) /\ hwv h < wv.
Proof.
  intros Hin Hh Hx.
  assert (Hle : hwv h <= ver (tbl (Machine.sh s)) (index x)).
  { eapply held_writers_bounded; eauto. intros Hv%vpend_pend. by eapply dec_no_pend. }
  split; [done|]. pose proof (i_thread _ _ _ _ Hi t th Ht) as Hti. unfold tinv in Hti.
  rewrite Hpc in Hti. destruct Hti as (_ & _ & Hver & _). specialize (Hver _ Hin). lia.
Qed.

Lemma dec_other_pend u thu x :
  Machine.ths s !! u = Some thu -> t <> u -> pend thu x -> ~ writes_to x the_rec.
Proof.
  intros Hu Hne Hp Hx%dec_writes_held. apply Hne. symmetry. by eapply held_pend_self.
Qed.

Lemma dec_replays : replays (insert the_rec HS) m0 the_rec.
Proof.
  split; [exact Hexec|]. intros x w Hin. simpl in Hin.
  assert (Hx : x ∈ reads (alog_of th)) by (by eapply Tx.exec_obs_reads).
  destruct (dec_read x Hx) as [Hheld Hver]. destruct dec_stamped as (_ & Hrv & _).
  rewrite mem_upto_insert_irrelevant by (intros; lia).
  destruct (Hobs x w Hin) as [E|]; [|lia]. rewrite <- E. apply mem_upto_agree.
  intros h Hh Hw. destruct (dec_writers x h Hheld Hh Hw). change (hwv the_rec) with wv. lia.
Qed.

Lemma dec_replays_old h : h ∈ HS -> replays (insert the_rec HS) m0 h.
Proof.
  intros Hh. destruct (i_replay _ _ _ _ Hi h Hh) as [He Ho]. split; [done|]. intros x w Hin.
  rewrite <- (Ho x w Hin). apply mem_upto_insert_irrelevant. intros Hle Hx%dec_writes_held.
  eapply (i_cross _ _ _ _ Hi h x w t th wv); eauto using dec_undecided, dec_wv.
  change (hwv the_rec) with wv in Hle. lia.
Qed.

Lemma dec_frame u thu : Machine.ths s !! u = Some thu ->
  frame m0 (cv s) (tbl (Machine.sh s)) HS (cv s) (tbl (Machine.sh s)) (insert the_rec HS) thu.
Proof.
  intros Hu. constructor; try done.
  - intros h Hh. apply elem_of_insert. by right.
  - intros Hr x Hx. apply mem_upto_insert_irrelevant. intros Hle Hw%dec_writes_held.
    by eapply (i_settled _ _ _ _ Hi u t thu th x wv Hu Ht Hr Hx dec_wv).
Qed.

Lemma dec_tinv : tinv m0 (cv s) (tbl (Machine.sh s)) (insert the_rec HS) t the_next.
Proof.
  unfold tinv. simpl. pose proof (i_thread _ _ _ _ Hi t th Ht) as Hti. unfold tinv in Hti.
  rewrite Hpc in Hti. destruct Hti as (Hre & Hst & Hver & _). split_and!.
  - eapply (stamped_same _ _ th); [done|apply dec_held_eq|done|exact Hst].
  - apply Hre.
  - intros k Hk. rewrite dec_held_eq in Hk. specialize (Hver k Hk). lia.
  - simpl. by rewrite Etd.
  - exists the_rec. split_and!; [apply elem_of_insert; by left|done| |].
    + intros j l0 _ Hj Hw. destruct (dec_staged j l0 Hj Hw) as (? & ? & _). done.
    + intros j l0 Hj Hw. by destruct (dec_staged j l0 Hj Hw) as (_ & _ & ?).
Qed.

Lemma dec_mem x :
  (forall u thu, <[t := the_next]> (Machine.ths s) !! u = Some thu -> ~ pend thu x) ->
  mem (Machine.sh s) !! x = apply_all (insert the_rec HS) m0 !! x.
Proof.
  intros Hn.
  assert (Hnw : ~ writes_to x the_rec).
  { intros (j & l0 & Hj & Hw & Ha & _)%dec_written.
    apply (Hn t the_next (lookup_insert_eq _ _ _)). exists j, l0. split_and!; try done. lia. }
  rewrite (i_mem _ _ _ _ Hi).
  - rewrite <- (mem_upto_all (cv s) HS) by (intros; by apply (i_bound _ _ _ _ Hi)).
    rewrite <- (mem_upto_all (cv s) (insert the_rec HS)).
    + symmetry. by apply mem_upto_insert_irrelevant.
    + intros h [->|Hh]%elem_of_insert; [|by apply (i_bound _ _ _ _ Hi)].
      destruct dec_stamped as (_ & _ & ?). done.
  - intros u thu Hu. destruct (decide (t = u)) as [<-|Hne].
    + simplify_eq. apply dec_no_pend.
    + apply (Hn u). by rewrite lookup_insert_ne.
Qed.

Lemma dec_pend x : pend the_next x ->
  mem (Machine.sh s) !! x = mem_upto (wv - 1) (insert the_rec HS) m0 !! x.
Proof.
  intros (j & l0 & _ & Hj & Hw & <-). change (Machine.locs th !! j = Some l0) in Hj.
  destruct (dec_staged j l0 Hj Hw) as (_ & _ & Hx). pose proof (dec_writes_held _ Hx) as Hin.
  rewrite (i_mem _ _ _ _ Hi).
  - rewrite mem_upto_insert_irrelevant by (unfold hwv; simpl; lia).
    rewrite <- (mem_upto_all (cv s) HS) by (intros; by apply (i_bound _ _ _ _ Hi)).
    apply mem_upto_agree. intros h Hh Hwh. destruct (dec_writers _ h Hin Hh Hwh).
    pose proof (i_bound _ _ _ _ Hi h Hh) as Hb. fold (cv s) in Hb. lia.
  - intros u thu Hu Hp. assert (u = t) as -> by (by eapply held_pend_self).
    simplify_eq. by apply (dec_no_pend (m_addr l0)).
Qed.

Lemma dec_lock k : Word.is_locked (table_word (tbl (Machine.sh s)) k) = true <->
  exists u thu, <[t := the_next]> (Machine.ths s) !! u = Some thu /\ k ∈ held thu.
Proof.
  rewrite (i_lock _ _ _ _ Hi k). split.
  - intros (u & thu & Hu & Hin). destruct (decide (t = u)) as [<-|].
    + exists t, the_next. rewrite lookup_insert_eq. simplify_eq. by rewrite dec_held_eq.
    + exists u, thu. by rewrite lookup_insert_ne.
  - intros (u & thu & Hu & Hin). split_thread t u; [rewrite dec_held_eq in Hin|]; eauto.
Qed.

(** A thread of the next state is a thread of this one with the same version
    and the same locks. *)
Lemma dec_thread u thu : <[t := the_next]> (Machine.ths s) !! u = Some thu ->
  exists th0, Machine.ths s !! u = Some th0 /\ held thu = held th0 /\ wv_of thu = wv_of th0 /\
    (reader thu -> thu = th0) /\ (undecided thu -> u <> t /\ thu = th0).
Proof.
  intros Hu. split_thread t u.
  - exists th. split_and!; [done|apply dec_held_eq|by rewrite dec_wv|by intros []|by intros []].
  - exists thu. by split_and!.
Qed.

Lemma decide_inv : inv m0 n (insert the_rec HS) (next_sys s t (Machine.sh s) the_next).
Proof.
  destruct dec_stamped as (Hg & Hrv & Hc).
  constructor; simpl; [apply Hi|apply Hi|apply dec_lock| | | | | | | | | | | | |].
  - intros u w thu thw k Hu Hw Hku Hkw.
    destruct (dec_thread _ _ Hu) as (u0 & ? & Eu & _), (dec_thread _ _ Hw) as (w0 & ? & Ew & _).
    rewrite Eu in Hku. rewrite Ew in Hkw. by eapply (i_excl _ _ _ _ Hi).
  - intros u thu (u0 & ? & -> & _)%dec_thread. by eapply (i_nodup _ _ _ _ Hi).
  - intros u thu Hu. split_thread t u; [apply dec_tinv|].
    eapply tinv_frame; [by eapply dec_frame|]. by eapply (i_thread _ _ _ _ Hi).
  - intros u w thu thw x wv' Hu Hw Hr Hx Hwv'.
    destruct (dec_thread _ _ Hu) as (u0 & ? & _ & _ & Eu & _).
    destruct (dec_thread _ _ Hw) as (w0 & ? & Eh & Ew & _).
    rewrite Eh. rewrite Ew in Hwv'. assert (thu = u0) as -> by auto. by apply (i_settled _ _ _ _ Hi u w u0 w0 x wv').
  - intros u w thu thw wv' Hu Hw Hwu Hww.
    destruct (dec_thread _ _ Hu) as (u0 & ? & _ & Eu & _), (dec_thread _ _ Hw) as (w0 & ? & _ & Ew & _).
    rewrite Eu in Hwu. rewrite Ew in Hww. by eapply (i_wv _ _ _ _ Hi).
  - intros u thu wv' h Hu Hun Hwu Hh.
    destruct (dec_thread _ _ Hu) as (u0 & Hu0 & _ & _ & _ & Eu). destruct (Eu Hun) as [Hne ->].
    apply elem_of_insert in Hh as [->|Hh]; [|by eapply (i_fresh _ _ _ _ Hi)].
    change (wv <> wv'). intros <-. apply Hne. eapply (i_wv _ _ _ _ Hi); eauto using dec_wv.
  - apply insert_sorted; [apply Hi|]. intros k Hk. change (hwv k <> wv).
    eapply (i_fresh _ _ _ _ Hi); eauto using dec_wv, dec_undecided.
  - intros h [->|Hh]%elem_of_insert; [change (1 <= wv <= cv s); lia|by apply (i_bound _ _ _ _ Hi)].
  - intros h [->|Hh]%elem_of_insert; [apply dec_replays|by apply dec_replays_old].
  - intros h x v u thu wv' Hh Hox Hu Hun Hwu Hlt.
    destruct (dec_thread _ _ Hu) as (u0 & Hu0 & _ & _ & _ & Eu). destruct (Eu Hun) as [Hne ->].
    apply elem_of_insert in Hh as [->|Hh]; [|by eapply (i_cross _ _ _ _ Hi)].
    intros Hin. apply Hne. eapply (i_excl _ _ _ _ Hi); [done|exact Ht|done|].
    apply dec_read. by eapply Tx.exec_obs_reads.
  - intros h x Hh Hx. apply elem_of_insert in Hh as [->|Hh].
    + right. exists t, the_next. rewrite lookup_insert_eq. split_and!; [done..|].
      destruct (dec_written x Hx) as (j & l0 & ? & ? & ? & _). exists j, l0. split_and!; try done. lia.
    + destruct (i_ver _ _ _ _ Hi h x Hh Hx) as [|(u & thu & Hu & Hwu & Hv)]; [by left|right].
      exists u, thu. split; [|done]. rewrite lookup_insert_ne; [done|]. intros <-. simplify_eq.
      by eapply dec_no_pend, vpend_pend.
  - intros x Hn. by apply dec_mem.
  - intros u thu x wv' Hu Hp Hwu. split_thread t u.
    + simpl in Hwu. injection Hwu as <-. by apply dec_pend.
    + rewrite (i_pend _ _ _ _ Hi u thu x wv') by done. symmetry.
      apply mem_upto_insert_irrelevant. intros _. by eapply dec_other_pend.
Qed.
End Decision.

(** ** The loop of the commit *)

(** What a step of the loop may do: the thread keeps its version and its locks;
    versions grow under its locks only, and not beyond its version; an address
    that is no longer pending has its final value. *)
Record commit_step HS s th (wv : version_t) T' (mem' : gmap addr_t V) th' : Prop := {
  cs_wv : wv_of th = Some wv /\ wv_of th' = Some wv;
  cs_decided : ~ undecided th' /\ ~ reader th';
  cs_held : held th' = held th;
  cs_word : forall i, W64.in_range (table_word T' i) /\
    Word.is_locked (table_word T' i) = Word.is_locked (table_word (tbl (Machine.sh s)) i);
  cs_ver : forall i, ver (tbl (Machine.sh s)) i <= ver T' i <= cv s;
  cs_other : forall i, i ∉ held th -> ver T' i = ver (tbl (Machine.sh s)) i;
  cs_vpend : forall x, vpend th x -> wv <= ver T' (index x) \/ vpend th' x;
  cs_mem : forall x, (mem' !! x = mem (Machine.sh s) !! x /\ (pend th' x <-> pend th x)) \/
    (~ pend th' x /\ pend th x /\ mem' !! x = apply_all HS m0 !! x) }.

Lemma commit_step_inv n HS s t th wv T' mem' th' :
  inv m0 n HS s -> Machine.ths s !! t = Some th ->
  commit_step HS s th wv T' mem' th' -> tinv m0 (cv s) T' HS t th' ->
  inv m0 (S n) HS (next_sys s t (Shared (clock (Machine.sh s)) T' mem') th').
Proof.
  intros Hi Ht [[Hw Hw'] [Hun Hrd] Hh Hword Hver Hoth Hvp Hmem] Hti.
  assert (Hthr : forall u thu, <[t := th']> (Machine.ths s) !! u = Some thu ->
    exists th0, Machine.ths s !! u = Some th0 /\ held thu = held th0 /\ wv_of thu = wv_of th0 /\
      (reader thu \/ undecided thu -> thu = th0)).
  { intros u thu Hu. split_thread t u; [exists th|exists thu]; split_and!; try done; [congruence|tauto]. }
  assert (Hfr : forall u thu, Machine.ths s !! u = Some thu -> t <> u ->
    frame m0 (cv s) (tbl (Machine.sh s)) HS (cv s) T' HS thu).
  { intros u thu Hu Hne. constructor; try done; [intros k; apply Hver|].
    intros k Hk. apply Hoth. intros Hk'. apply Hne. by eapply (i_excl _ _ _ _ Hi). }
  constructor; simpl.
  - destruct (i_clock _ _ _ _ Hi) as (c & Ec & Hc). exists c. split; [done|lia].
  - intros k. split; [apply Hword|apply Hver].
  - intros k. destruct (Hword k) as [_ ->]. rewrite (i_lock _ _ _ _ Hi k). by eapply holder_same.
  - intros u w thu thw k Hu Hww Hku Hkw.
    destruct (Hthr _ _ Hu) as (u0 & ? & Eu & _), (Hthr _ _ Hww) as (w0 & ? & Ew & _).
    rewrite Eu in Hku. rewrite Ew in Hkw. by eapply (i_excl _ _ _ _ Hi).
  - intros u thu (u0 & ? & -> & _)%Hthr. by eapply (i_nodup _ _ _ _ Hi).
  - intros u thu Hu. split_thread t u; [done|].
    eapply tinv_frame; [by eapply Hfr|]. by eapply (i_thread _ _ _ _ Hi).
  - intros u w thu thw x wv' Hu Hww Hr Hx Hwv'.
    destruct (Hthr _ _ Hu) as (u0 & ? & _ & _ & Eu), (Hthr _ _ Hww) as (w0 & ? & Eh & Ew & _).
    rewrite Eh. rewrite Ew in Hwv'. assert (thu = u0) as -> by auto.
    by apply (i_settled _ _ _ _ Hi u w u0 w0 x wv').
  - intros u w thu thw wv' Hu Hww Hwu Hwww.
    destruct (Hthr _ _ Hu) as (u0 & ? & _ & Eu & _), (Hthr _ _ Hww) as (w0 & ? & _ & Ew & _).
    rewrite Eu in Hwu. rewrite Ew in Hwww. by eapply (i_wv _ _ _ _ Hi).
  - intros u thu wv' h Hu Hu' Hwu Hh'. destruct (Hthr _ _ Hu) as (u0 & ? & _ & _ & Eu).
    assert (thu = u0) as -> by auto. by eapply (i_fresh _ _ _ _ Hi).
  - apply Hi.
  - apply Hi.
  - apply Hi.
  - intros h x v u thu wv' Hh' Hox Hu Hu' Hwu Hlt. destruct (Hthr _ _ Hu) as (u0 & ? & _ & _ & Eu).
    assert (thu = u0) as -> by auto. by eapply (i_cross _ _ _ _ Hi).
  - intros h x Hh' Hx. destruct (i_ver _ _ _ _ Hi h x Hh' Hx) as [Hle|(u & thu & Hu & Hwu & Hv)].
    + left. specialize (Hver (index x)). lia.
    + destruct (decide (t = u)) as [<-|Hne].
      * simplify_eq. destruct (Hvp x Hv) as [|]; [by left|right]. exists t, th'.
        by rewrite lookup_insert_eq.
      * right. exists u, thu. by rewrite lookup_insert_ne.
  - intros x Hn. destruct (Hmem x) as [[-> Hp]|(_ & _ & ->)]; [|done].
    apply (i_mem _ _ _ _ Hi). by eapply no_writer_before.
  - intros u thu x wv' Hu Hp Hwu. split_thread t u.
    + destruct (Hmem x) as [[-> Hpp]|(Hnp & _)]; [|done]. apply Hpp in Hp.
      eapply (i_pend _ _ _ _ Hi); [done|done|congruence].
    + destruct (Hmem x) as [[-> _]|(_ & Hpt & _)]; [by eapply (i_pend _ _ _ _ Hi)|].
      exfalso. assert (u = t); [|congruence]. eapply held_pend_self; eauto using pend_held.
Qed.

Lemma clock_ok n HS s : inv m0 n HS s -> Z.of_nat n < 2 ^ 63 -> Word.version_ok (cv s).
Proof.
  intros Hi Hn. destruct (i_clock _ _ _ _ Hi) as (c & Ec & Hc). unfold cv. rewrite Ec.
  rewrite Word.unpack_pack; unfold Word.version_ok; lia.
Qed.

Lemma pending_next th (i : nat) loc x :
  Machine.locs th !! i = Some loc ->
  pending_from i th x <-> (m_written loc = true /\ m_addr loc = x) \/ pending_from (S i) th x.
Proof.
  intros Hl. split.
  - intros (j & l0 & Hle & Hj & Hw & Ha). destruct (decide (j = i)) as [->|].
    + left. by simplify_eq.
    + right. exists j, l0. split; [lia|done].
  - intros [[Hw Ha]|(j & l0 & Hle & Hj & ?)]; [by exists i, loc|]. exists j, l0. split; [lia|done].
Qed.

(** An address is pending once. *)
Lemma pending_once th (i : nat) loc :
  NoDup (m_addr <$> Machine.locs th) -> Machine.locs th !! i = Some loc ->
  ~ pending_from (S i) th (m_addr loc).
Proof.
  intros Hn Hl (j & l0 & Hle & Hj & _ & Ha).
  assert (j = i); [|lia]. eapply (NoDup_lookup _ _ _ (m_addr loc) Hn);
    rewrite list_lookup_fmap; [rewrite Hj|rewrite Hl]; simpl; by rewrite ?Ha.
Qed.

Lemma committing_next c T HS t th th' wv i i' g :
  Machine.locs th' = Machine.locs th -> mgr th' = mgr th -> held th' = held th ->
  todo th' = todo th -> (i <= i')%nat ->
  committing c T HS t th wv i g -> committing c T HS t th' wv i' g.
Proof.
  intros El Em Eh Et Hle (Hst & Hok & Hv & Htd & h & Hh & Hwv & Hs & Hw).
  assert (Es : store_of th' = store_of th) by (unfold store_of; by rewrite Em).
  unfold committing. rewrite El, Es, Eh, Et. split_and!; try done.
  - eapply stamped_same; [done|done| |done]. unfold rv_of. by rewrite Em.
  - exists h. split_and!; try done. intros j loc Hj. apply Hs. lia.
Qed.

Lemma at_commit n HS s t th a wv i g :
  inv m0 n HS s -> Machine.ths s !! t = Some th -> at_pc th = Commit a wv i g ->
  committing (cv s) (tbl (Machine.sh s)) HS t th wv i g.
Proof.
  intros Hi Ht Hpc. pose proof (i_thread _ _ _ _ Hi t th Ht) as Hti. unfold tinv in Hti.
  by rewrite Hpc in Hti.
Qed.

Lemma commit_end_inv n HS s t th a wv i g :
  inv m0 n HS s -> Machine.ths s !! t = Some th -> at_pc th = Commit a wv i g ->
  Machine.locs th !! i = None ->
  inv m0 (S n) HS (next_sys s t (Machine.sh s) (Machine.goto (Release a true (rev (m_locked g))) th)).
Proof.
  intros Hi Ht Hpc Hn. destruct (at_commit _ _ _ _ _ _ _ _ _ Hi Ht Hpc) as (Hst & Hok & _ & Htd & _).
  eapply release_start_inv; [done|done| | |done..].
  - intros x. unfold pend. rewrite Hpc. intros (j & l0 & Hle & Hj & _).
    apply lookup_ge_None in Hn. apply lookup_lt_Some in Hj. lia.
  - unfold held, held_pos. by rewrite Hpc.
Qed.

Lemma commit_skip_inv n HS s t th a wv i g loc :
  inv m0 n HS s -> Machine.ths s !! t = Some th -> at_pc th = Commit a wv i g ->
  Machine.locs th !! i = Some loc -> m_written loc = false ->
  inv m0 (S n) HS (next_sys s t (Machine.sh s) (Machine.goto (Commit a wv (S i) g) th)).
Proof.
  intros Hi Ht Hpc Hl Hw. pose proof (at_commit _ _ _ _ _ _ _ _ _ Hi Ht Hpc) as Hc.
  set (th' := Machine.goto _ th).
  assert (Hh : held th' = held th) by (unfold held, held_pos; by rewrite Hpc).
  assert (Hp : forall x, pend th' x <-> pend th x).
  { intros x. unfold pend. rewrite Hpc. simpl. rewrite (pending_next th i loc) by done.
    split; [by right|]. intros [[]|]; [congruence|done]. }
  rewrite <- (eta_shared (Machine.sh s)). eapply commit_step_inv; [done|done| |].
  - constructor; try done.
    + unfold wv_of. by rewrite Hpc.
    + unfold undecided, reader. simpl. tauto.
    + intros k. split; [apply Hi|done].
    + intros k. split; [lia|apply Hi].
    + intros x Hv. right. unfold vpend in *. rewrite Hpc in Hv. simpl.
      specialize (Hp x). unfold pend in Hp. rewrite Hpc in Hp. by apply Hp.
    + intros x. left. by split.
  - apply (committing_next _ _ _ _ th _ _ i); try done. lia.
Qed.

Lemma set_version_inv n HS s t th a wv i g loc :
  inv m0 n HS s -> Z.of_nat n < 2 ^ 63 ->
  Machine.ths s !! t = Some th -> at_pc th = Commit a wv i g ->
  Machine.locs th !! i = Some loc -> m_written loc = true ->
  exists T', Loc.set_version t wv (tbl (Machine.sh s)) loc = Some T' /\
  inv m0 (S n) HS (next_sys s t (Shared (clock (Machine.sh s)) T' (mem (Machine.sh s)))
    (Machine.goto (Moving a wv i g) th)).
Proof.
  intros Hi Hn Ht Hpc Hl Hw. pose proof (at_commit _ _ _ _ _ _ _ _ _ Hi Ht Hpc) as Hc.
  pose proof Hc as (Hst & Hok & Hv & _). pose proof (clock_ok _ _ _ Hi Hn) as Hcok.
  set (th' := Machine.goto _ th). set (T := tbl (Machine.sh s)) in *. set (k := Loc.lock_ptr loc).
  set (T' := <[k := Word.pack wv (Word.is_locked (table_word T k))]> T).
  exists T'. split.
  { unfold Loc.set_version. by rewrite (proj1 (own_version _ _ _ _ _ T _ _ Hst Hl)). }
  pose proof Hst as (Hg & Hrv & Hle).
  assert (Hwok : Word.version_ok wv) by (unfold Word.version_ok in *; lia).
  assert (Hin : k ∈ held th) by (apply (gd_held _ _ _ _ Hg i loc Hl); by eapply lookup_lt_Some).
  assert (Hver : forall j, ver T' j = if decide (k = j) then wv else ver T j)
    by (intros j; by apply ver_insert).
  assert (Hh : held th' = held th) by (unfold held, held_pos; by rewrite Hpc).
  eapply commit_step_inv; [done|done| |].
  - constructor; fold T; try done.
    + unfold wv_of. by rewrite Hpc.
    + unfold undecided, reader. simpl. tauto.
    + intros j. split; [apply range_insert; [done|apply Hi]|]. unfold T'. rewrite locked_insert by done.
      by case_decide; subst.
    + intros j. rewrite Hver. destruct (i_words _ _ _ _ Hi j) as [_ Hj]. fold T in Hj.
      unfold cv in *. case_decide; [|lia]. subst j. specialize (Hv _ Hin). lia.
    + intros j Hj. rewrite Hver. case_decide; [by subst|done].
    + intros x Hp. unfold vpend in *. rewrite Hpc in Hp. simpl.
      apply (pending_next th i loc) in Hp as [[_ <-]|]; [|by right|done].
      left. rewrite Hver, decide_True by done. done.
    + intros x. left. split; [done|]. unfold pend. by rewrite Hpc.
  - split; [|by exists loc].
    assert (Hc' : committing (cv s) T HS t th' wv i g) by (by apply (committing_next _ _ _ _ th _ _ i)).
    destruct Hc' as (? & ? & Hv' & ?). do 2 (split; [done|]). split; [|done]. intros j Hj. rewrite Hver.
    case_decide; [done|by apply Hv'].
Qed.

(** Moving the value out of one location leaves the others' values. *)
Lemma move_out_ok ls (st : Store.store V) (i : nat) loc v :
  locs_ok ls st -> ls !! i = Some loc -> m_written loc = true -> staged st loc = Some v ->
  exists st', Store.move_out (val_addr (write_val loc)) st = Some (v, st') /\ locs_ok ls st' /\
    forall j l0, j <> i -> ls !! j = Some l0 -> staged st' l0 = staged st l0.
Proof.
  intros Hok Hl Hw Hv. unfold staged in Hv. rewrite Hw in Hv. unfold Store.value, Store.move_out in *.
  set (b := val_addr (write_val loc)) in *.
  destruct (Store.objs st !! b) as [[v'|]|] eqn:Hb; simplify_eq.
  eexists. split; [done|]. split.
  - destruct Hok as [Hn Hs Ho Hd]. constructor; try done; simpl.
    + intros c Hc. apply Hs. simpl in Hc. rewrite lookup_insert_is_Some' in Hc.
      destruct Hc as [<-|]; [by eexists|done].
    + intros c. rewrite lookup_insert_is_Some', <- Hd. split; [|by right].
      intros [<-|]; [by eexists|done].
  - intros j l0 Hne Hj. apply staged_other. intros c Hc. simpl. apply lookup_insert_ne.
    intros E. apply Hne. assert (l0 = loc) as ->.
    { apply (objs_of_inj ls st l0 loc c); try done; [by eapply list_elem_of_lookup_2..|].
      unfold obj_of. rewrite Hw. by f_equal. }
    eapply (NoDup_lookup _ _ _ (m_addr loc) (ok_nodup _ _ Hok)); rewrite list_lookup_fmap;
      [by rewrite Hj|by rewrite Hl].
Qed.

Lemma move_inv n HS s t th a wv i g :
  inv m0 n HS s -> Machine.ths s !! t = Some th -> at_pc th = Moving a wv i g ->
  exists sh' th', Machine.step_move (Machine.sh s) th a wv i g = Some (sh', th', None) /\
    inv m0 (S n) HS (next_sys s t sh' th').
Proof.
  intros Hi Ht Hpc. pose proof (i_thread _ _ _ _ Hi t th Ht) as Hti. unfold tinv in Hti.
  rewrite Hpc in Hti. destruct Hti as [Hc (loc & Hl & Hw)].
  destruct Hc as (Hst & Hok & Hv & Htd & h & Hh & Hwv & Hs & Hwr).
  destruct (Hs i loc) as [[v Hsv] Eh]; [lia|done..|].
  destruct (move_out_ok _ _ _ _ _ Hok Hl Hw Hsv) as (st' & Em & Hok' & Hoth).
  unfold Machine.step_move. rewrite Hl. unfold Loc.move.
  change (store (mlog (mgr th))) with (store_of th). rewrite Em.
  eexists _, _. split; [done|]. set (th' := Machine.goto _ _).
  assert (Hheld : held th' = held th) by (unfold held, held_pos; by rewrite Hpc).
  assert (Hin : index (m_addr loc) ∈ held th).
  { destruct Hst as [Hg _]. apply (gd_held _ _ _ _ Hg i loc Hl). by eapply lookup_lt_Some. }
  pose proof (pending_once th i loc (ok_nodup _ _ Hok) Hl) as Honce.
  eapply commit_step_inv; [done|done| |].
  - constructor; try done.
    + unfold wv_of. by rewrite Hpc.
    + unfold undecided, reader. simpl. tauto.
    + intros k. split; [apply Hi|done].
    + intros k. split; [lia|apply Hi].
    + intros x Hp. right. unfold vpend in *. by rewrite Hpc in Hp.
    + intros x. destruct (decide (m_addr loc = x)) as [<-|Hne].
      * right. split; [exact Honce|]. split.
        { unfold pend. rewrite Hpc. apply (pending_next th i loc); [done|by left]. }
        rewrite lookup_insert_eq. rewrite <- Hsv, Eh.
        rewrite <- (mem_upto_all (cv s) HS) by (intros; by apply (i_bound _ _ _ _ Hi)).
        symmetry. apply mem_upto_last; [apply Hi|done|by apply (i_bound _ _ _ _ Hi)|by eapply Hwr|].
        intros k Hk Hkx. rewrite Hwv. specialize (Hv _ Hin).
        assert (hwv k <= ver (tbl (Machine.sh s)) (index (m_addr loc))); [|lia].
        eapply held_writers_bounded; eauto. unfold vpend. by rewrite Hpc.
      * left. rewrite lookup_insert_ne by done. split; [done|]. unfold pend. rewrite Hpc.
        simpl. rewrite (pending_next th i loc) by done.
        split; [by right|]. by intros [[_ E]|].
  - split; [by apply (stamped_same _ _ th)|]. split; [done|]. split; [by rewrite Hheld|].
    split; [done|]. exists h. split_and!; [done|done| |done].
    intros j l0 Hj Hl0 Hw0. change (store_of th') with st'.
    rewrite (Hoth j l0) by (lia || done). apply (Hs j); [lia|done..].
Qed.
End Commit.
