(* ===== verification/Serializability.v ===== *)
(** * Serializability of the concurrent machine

    Every run of the machine, of any threads running any transactions, is
    equivalent to running the bodies of the committed transactions one at a
    time, in the order of their write versions. *)

From S2P Require Import Prelude VersionLock LockTable Store Op Log Tx State LockGuard Machine History MachineInv InvFacts Preserve Steps StepsGuard StepsCommit.
Import History.

Section Run.
Context {LS V L A : Type} `{LocationSetLaws LS}.
Context (is_trivial : addr_t -> bool).
Abbreviation thread := (thread LS V L A).
Abbreviation hrec := (hrec V L A).
Abbreviation sys := (Machine.sys (LS := LS) (V := V) (L := L) (A := A)).
Implicit Types (th : thread) (s : sys) (HS : list hrec) (t : tid_t).
Context (m0 : gmap addr_t V).

(** The invariant after a step, and the history it leaves. *)
Definition step_ok n HS (ev : option (event V L A)) s' : Prop :=
  exists HS', inv m0 (S n) HS' s' /\ h_ev <$> HS' ≡ₚ (h_ev <$> HS) ++ option_list ev.

Lemma quiet_ok n HS ev s' : ev = None /\ inv m0 (S n) HS s' -> step_ok n HS ev s'.
Proof. intros [-> Hi]. exists HS. split; [done|]. by rewrite app_nil_r. Qed.

Lemma body_inv n HS s t th p sh' th' ev :
  inv m0 n HS s -> Machine.ths s !! t = Some th -> at_pc th = Body p ->
  Machine.step_body t (Machine.sh s) th p = Some (sh', th', ev) ->
  ev = None /\ inv m0 (S n) HS (next_sys s t sh' th').
Proof.
  intros Hi Ht Hpc Hst. destruct p; simpl in Hst; unfold Machine.silent in Hst.
  - simplify_eq. split; [done|]. by apply ret_inv.
  - by eapply throw_inv.
  - by eapply read_inv.
  - by eapply write_inv.
  - simplify_eq. split; [done|]. by apply getl_inv.
  - simplify_eq. split; [done|]. by apply setl_inv.
Qed.

Lemma decide_ok n HS s t th a wv i g sh' th' ev :
  inv m0 n HS s -> Machine.ths s !! t = Some th -> at_pc th = Validate a wv i g ->
  (forall j loc, Machine.locs th !! j = Some loc -> m_read loc = true ->
    ver (tbl (Machine.sh s)) (Loc.lock_ptr loc) <= rv_of th) ->
  Machine.decide_commit t (Machine.sh s) th a wv g = Some (sh', th', ev) ->
  exists HS', inv m0 n HS' (next_sys s t sh' th') /\
    h_ev <$> HS' ≡ₚ (h_ev <$> HS) ++ option_list ev.
Proof.
  intros Hi Ht Hpc Hval Hst. destruct (at_validate _ _ _ _ _ _ _ _ _ _ Hi Ht Hpc) as (Hre & _).
  destruct Hre as (_ & _ & _ & tr & rest & o & Etd & He & Ho).
  unfold Machine.decide_commit, Machine.the_event in Hst. rewrite Etd in Hst. simplify_eq.
  exists (insert (the_rec t th a wv tr o) HS). split; [by eapply decide_inv|].
  rewrite insert_perm. simpl. by rewrite Permutation_app_comm.
Qed.

Lemma incr_ok n HS s t th a g sh' th' ev :
  inv m0 n HS s -> Z.of_nat (S n) < 2 ^ 63 -> Machine.ths s !! t = Some th ->
  at_pc th = Incr a g -> Machine.step_incr t (Machine.sh s) th a g = Some (sh', th', ev) ->
  step_ok n HS ev (next_sys s t sh' th').
Proof.
  intros Hi Hn Ht Hpc Hst. destruct (incr_inv _ _ _ _ _ _ _ _ Hi Hn Ht Hpc) as [Ei Hi1].
  unfold Machine.step_incr in Hst. rewrite Ei in Hst.
  destruct (Z.eqb_spec (cv s + 1) (W64.wrap (Manager.read_version (mgr th) + 1))) as [E|_].
  - assert (Erv : rv_of th = cv s).
    { pose proof (i_thread _ _ _ _ Hi t th Ht) as Hti. unfold tinv in Hti. rewrite Hpc in Hti.
      destruct Hti as [(_ & Hrv & _) _]. unfold rv_ok in Hrv. fold (cv s) in Hrv.
      pose proof (clock_ok _ _ _ _ Hi ltac:(lia)) as Hc. unfold Word.version_ok in Hc.
      change (Manager.read_version (mgr th)) with (rv_of th) in E.
      rewrite W64.wrap_small in E; [lia|]. unfold W64.in_range, W64.modulus. lia. }
    destruct (decide_ok _ _ _ t (Machine.goto (Validate a (cv s + 1) 0 g) th) a (cv s + 1) 0%nat g
      sh' th' ev Hi1) as (HS' & Hi' & Hp).
    + apply lookup_insert_eq.
    + done.
    + intros j loc _ _. change (rv_of _) with (rv_of th). rewrite Erv. apply (i_words _ _ _ _ Hi).
    + exact Hst.
    + exists HS'. split; [|done]. unfold next_sys in *. simpl in Hi'. by rewrite insert_insert_eq in Hi'.
  - unfold Machine.silent in Hst. simplify_eq. by apply quiet_ok.
Qed.

Lemma validate_ok n HS s t th a wv i g sh' th' ev :
  inv m0 n HS s -> Machine.ths s !! t = Some th -> at_pc th = Validate a wv i g ->
  Machine.step_validate t (Machine.sh s) th a wv i g = Some (sh', th', ev) ->
  step_ok n HS ev (next_sys s t sh' th').
Proof.
  intros Hi Ht Hpc Hst. destruct (at_validate _ _ _ _ _ _ _ _ _ _ Hi Ht Hpc) as (Hre & Hstp & Hr).
  unfold Machine.step_validate, Machine.silent in Hst.
  destruct (Machine.locs th !! i) as [loc|] eqn:Hl.
  - destruct (own_version _ _ _ _ _ (tbl (Machine.sh s)) _ _ Hstp Hl) as [_ Hv].
    rewrite Hv in Hst. change (Manager.read_version (mgr th)) with (rv_of th) in Hst.
    destruct (m_read loc) eqn:Hrd; [destruct (Z.ltb_spec (rv_of th) (ver (tbl (Machine.sh s)) (Loc.lock_ptr loc)))|];
      try (simplify_eq; apply quiet_ok; split; [done|]; eapply validate_next_inv; eauto; congruence).
    unfold Machine.abort, Machine.silent in Hst. simplify_eq. apply quiet_ok. split; [done|].
    eapply release_start_inv; [done|done|no_pend| |done|apply Hre|].
    + unfold held, held_pos. by rewrite Hpc.
    + eapply reached_todo. apply Hre.
  - destruct (decide_ok n HS s t th a wv i g sh' th' ev) as (HS' & Hi' & Hp); try done.
    + pose proof (i_thread _ _ _ _ Hi t th Ht) as Hti. unfold tinv in Hti. rewrite Hpc in Hti.
      destruct Hti as (_ & _ & _ & Hrd). intros j loc Hj. apply (Hrd j loc Hj).
      apply lookup_lt_Some in Hj. apply lookup_ge_None in Hl. lia.
    + exists HS'. split; [|done]. eapply inv_mono; [|done]. lia.
Qed.

Lemma commit_inv n HS s t th a wv i g sh' th' ev :
  inv m0 n HS s -> Z.of_nat n < 2 ^ 63 -> Machine.ths s !! t = Some th ->
  at_pc th = Commit a wv i g ->
  Machine.step_commit t (Machine.sh s) th a wv i g = Some (sh', th', ev) ->
  ev = None /\ inv m0 (S n) HS (next_sys s t sh' th').
Proof.
  intros Hi Hn Ht Hpc Hst. unfold Machine.step_commit, Machine.silent in Hst.
  destruct (Machine.locs th !! i) as [loc|] eqn:Hl; [destruct (m_written loc) eqn:Hw|].
  - destruct (set_version_inv _ _ _ _ _ _ _ _ _ _ _ Hi Hn Ht Hpc Hl Hw) as (T' & E & Hi').
    rewrite E in Hst. by simplify_eq.
  - simplify_eq. split; [done|]. by eapply commit_skip_inv.
  - simplify_eq. split; [done|]. by eapply commit_end_inv.
Qed.

Lemma step_inv n HS s ev s' :
  inv m0 n HS s -> Z.of_nat (S n) < 2 ^ 63 -> Machine.step is_trivial s ev s' ->
  step_ok n HS ev s'.
Proof.
  intros Hi Hn Hstep. revert Hi. destruct Hstep as [s t th sh' th' ev Ht Hst]. intros Hi.
  change (step_ok n HS ev (next_sys s t sh' th')). assert (Hn' : Z.of_nat n < 2 ^ 63) by lia.
  unfold Machine.tstep in Hst. destruct (at_pc th) eqn:Hpc;
    [apply quiet_ok; by eapply idle_inv|apply quiet_ok; by eapply attempt_inv
    |apply quiet_ok; by eapply body_inv|apply quiet_ok; by eapply load_inv
    |apply quiet_ok; by eapply load_held_inv|apply quiet_ok; by eapply load_rel_inv
    |apply quiet_ok; by eapply guard_inv|by eapply incr_ok|by eapply validate_ok
    |apply quiet_ok; by eapply commit_inv| |apply quiet_ok; by eapply release_inv|done].
  destruct (move_inv _ _ _ _ _ _ _ _ _ _ Hi Ht Hpc) as (sh1 & th1 & E & Hi').
  rewrite E in Hst. simplify_eq. by apply quiet_ok.
Qed.

(** ** The initial state and all reachable ones *)

Context (ps : gmap tid_t (list (txn V L A) * L)).

Lemma init_thread t th : Machine.ths (Machine.init (LS := LS) m0 ps) !! t = Some th ->
  exists p, ps !! t = Some p /\ th = Machine.new_thread p.
Proof. simpl. rewrite lookup_fmap. intros (p & ? & ?)%fmap_Some. eauto. Qed.

Lemma table_empty i : table_word ∅ i = 0.
Proof. unfold table_word. by rewrite lookup_empty. Qed.

Lemma init_inv : inv m0 0 [] (Machine.init (LS := LS) m0 ps).
Proof.
  constructor; simpl.
  - exists 0. split; [done|lia].
  - intros i. rewrite table_empty. split; [done|]. unfold ver. rewrite table_empty. done.
  - intros i. rewrite table_empty. split; [done|].
    intros (t & th & (p & _ & ->)%init_thread & Hin). by apply elem_of_nil in Hin.
  - intros t u th thu i (p & _ & ->)%init_thread _ Hin. by apply elem_of_nil in Hin.
  - intros t th (p & _ & ->)%init_thread. constructor.
  - intros t th (p & _ & ->)%init_thread. apply empty_locs_ok.
  - by intros t u th thu x wv (p & _ & ->)%init_thread _ [].
  - by intros t u th thu wv (p & _ & ->)%init_thread.
  - by intros t th wv h (p & _ & ->)%init_thread [].
  - constructor.
  - intros h Hh. by apply elem_of_nil in Hh.
  - intros h Hh. by apply elem_of_nil in Hh.
  - intros h x v u thu wv Hh. by apply elem_of_nil in Hh.
  - intros h x Hh. by apply elem_of_nil in Hh.
  - done.
  - by intros t th x wv (p & _ & ->)%init_thread [].
Qed.

Lemma steps_inv n evs s :
  Machine.steps is_trivial n (Machine.init (LS := LS) m0 ps) evs s -> Z.of_nat n < 2 ^ 63 ->
  exists HS, inv m0 n HS s /\ h_ev <$> HS ≡ₚ evs.
Proof.
  remember (Machine.init m0 ps) as s0 eqn:E0. intros Hs. induction Hs as [|n s evs s1 ev s2 Hs IH Hst].
  - intros _. subst. exists []. split; [apply init_inv|done].
  - intros Hn. destruct (IH E0 ltac:(lia)) as (HS & Hi & Hp).
    destruct (step_inv n HS s1 ev s2 Hi Hn Hst) as (HS' & Hi' & Hp'). exists HS'.
    split; [done|]. by rewrite Hp', Hp.
Qed.
End Run.

Lemma sorted_events {V L A} (HS : list (hrec V L A)) :
  sorted HS -> StronglySorted (fun e1 e2 => e_wv e1 < e_wv e2) (h_ev <$> HS).
Proof.
  intros Hs. induction Hs as [|h HS Hs IH Hall]; simpl; constructor; [done|].
  apply Forall_fmap. eapply Forall_impl; [exact Hall|done].
Qed.

(** No commit is half done. *)
Definition quiescent {LS V L A} (s : Machine.sys (LS := LS) (V := V) (L := L) (A := A)) : Prop :=
  forall t th, Machine.ths s !! t = Some th ->
    match at_pc th with Commit _ _ _ _ | Moving _ _ _ _ => False | _ => True end.

Section Theorems.
Context {LS V L A : Type} `{LocationSetLaws LS}.

(** The commits in the order of their versions, for the theorems below. *)
Lemma serial_order (is_trivial : addr_t -> bool) (m0 : gmap addr_t V)
  (ps : gmap tid_t (list (txn V L A) * L)) n evs s :
  Machine.steps (LS := LS) is_trivial n (Machine.init m0 ps) evs s -> Z.of_nat n < 2 ^ 63 ->
  exists order m,
    order ≡ₚ evs /\ StronglySorted (fun e1 e2 => e_wv e1 < e_wv e2) order /\
    serial m0 order m /\ (quiescent s -> mem (Machine.sh s) = m).
Proof.
  intros Hs Hn. destruct (steps_inv is_trivial m0 ps n evs s Hs Hn) as (HS & Hi & Hp).
  exists (h_ev <$> HS), (apply_all HS m0). split_and!.
  - done.
  - apply sorted_events, Hi.
  - apply replays_serial; apply Hi.
  - intros Hq. apply map_eq. intros x. apply (i_mem _ _ _ _ Hi). intros t th Ht.
    specialize (Hq t th Ht). unfold pend. by destruct (at_pc th); intros ?.
Qed.

(** [C1] Serializability.  Take any threads running any lists of transactions
    over any initial memory, and any interleaving of their steps (of fewer
    steps than the version of the clock has values).  The commits decided so
    far, ordered by their write versions, which are distinct, are a serial
    execution: the body of each one, run alone on the memory left by those
    before it, returns the value that the transaction returned and leaves the
    captured variables it left.  When no commit is half done, the memory is
    the one the serial execution ends with: what aborted attempts wrote is
    nowhere. *)
Theorem serializable (is_trivial : addr_t -> bool) (m0 : gmap addr_t V)
  (ps : gmap tid_t (list (txn V L A) * L)) n evs s :
  Machine.steps (LS := LS) is_trivial n (Machine.init m0 ps) evs s -> Z.of_nat n < 2 ^ 63 ->
  exists order m,
    order ≡ₚ evs /\ StronglySorted (fun e1 e2 => e_wv e1 < e_wv e2) order /\
    serial m0 order m /\ (quiescent s -> mem (Machine.sh s) = m).
Proof. apply serial_order. Qed.
End Theorems.
