(* ===== verification/Order.v ===== *)
(** * Program order, results and real time

    The commits of a thread are its transactions that returned, in program
    order and with the values returned to the callers; and a commit decided
    before another transaction took its write version precedes it in the serial
    order. *)

From S2P Require Import Prelude VersionLock LockTable Store Op Log Tx State LockGuard Machine History MachineInv InvFacts Preserve Steps StepsGuard StepsCommit Serializability.
Import History.

Section Threads.
Context {LS V L A : Type} `{LocationSet LS}.
Context (is_trivial : addr_t -> bool).
Abbreviation thread := (thread LS V L A).
Abbreviation sys := (Machine.sys (LS := LS) (V := V) (L := L) (A := A)).
Implicit Types (th : thread) (s : sys) (t : tid_t).

(** What the captured variables can be when an attempt starts: what the caller
    made of them, or what was restored after an attempt that failed. *)
Inductive starts (tr : txn V L A) : L -> Prop :=
| starts_prepare lo : starts tr (prepare tr lo)
| starts_restore lo now : starts tr lo -> starts tr (restore tr lo now).

(** A commit is the one of a transaction, with the value it returned. *)
Record commit_of (p : txn V L A * A) (e : event V L A) : Prop := {
  co_body : e_body e = body p.1;
  co_ret : e_ret e = p.2;
  co_in : starts p.1 (e_in e) }.

(** The transactions that returned among those that are over. *)
Definition returned_of (done : list (txn V L A)) (rs : list (outcome A)) : list (txn V L A * A) :=
  omap (fun p => match p.2 with Val a => Some (p.1, a) | Exn _ => None end) (zip done rs).

(** The current one, when its commit is decided. *)
Definition in_flight th : list (txn V L A * A) :=
  match at_pc th, todo th with
  | Commit a _ _ _, tr :: _ | Moving a _ _ _, tr :: _ | Release a true _, tr :: _ => [(tr, a)]
  | _, _ => []
  end.

(** The captured variables of the current transaction. *)
Definition captured th : Prop :=
  match todo th with
  | [] => True
  | tr :: _ =>
      match at_pc th with
      | Idle | Crashed => True
      | Attempt => starts tr (saved th) /\ starts tr (locals th)
      | _ => starts tr (saved th) /\ starts tr (started th)
      end
  end.

(** Between the start of a transaction and its end. *)
Definition active th : Prop :=
  match at_pc th with Idle => False | _ => True end.

(** What a step does to the transactions of a thread. *)
Inductive progress t th th' : option (event V L A) -> Prop :=
| pr_quiet : todo th' = todo th -> results th' = results th -> in_flight th' = in_flight th ->
    (active th \/ todo th <> []) -> progress t th th' None
| pr_decide p e : todo th' = todo th -> results th' = results th -> in_flight th = [] ->
    in_flight th' = [p] -> (captured th -> commit_of p e) -> e_tid e = t -> active th ->
    progress t th th' (Some e)
| pr_return tr rest a : todo th = tr :: rest -> todo th' = rest -> at_pc th' = Idle ->
    results th' = results th ++ [Val a] -> in_flight th = [(tr, a)] -> progress t th th' None
| pr_throw e : active th -> todo th' = tail (todo th) -> at_pc th' = Idle ->
    results th' = results th ++ [Exn e] -> in_flight th = [] -> progress t th th' None.

Ltac open_step Hst :=
  repeat (case_hyp Hst; try discriminate Hst); simplify_eq.

Lemma tstep_progress t (sh sh' : shared V) th th' ev :
  (active th -> todo th <> []) ->
  Machine.tstep is_trivial t sh th = Some (sh', th', ev) -> progress t th th' ev.
Proof.
  intros Hact Hst. unfold Machine.tstep in Hst.
  assert (Hf : in_flight th = match at_pc th, todo th with
    | Commit a _ _ _, tr :: _ | Moving a _ _ _, tr :: _ | Release a true _, tr :: _ => [(tr, a)]
    | _, _ => [] end) by done.
  assert (Ha : active th <-> match at_pc th with Idle => False | _ => True end) by done.
  destruct (at_pc th) as [| |p|x k|x k|x v k|a i g|a g|a wv i g|a wv i g|a wv i g|a ok l|] eqn:Hpc;
    unfold Machine.step_idle, Machine.step_attempt, Machine.step_body, Machine.step_read,
      Machine.step_write, Machine.step_throw, Machine.step_load, Machine.step_load_held,
      Machine.step_load_rel, Machine.step_guard, Machine.step_incr, Machine.step_validate,
      Machine.step_commit, Machine.step_move, Machine.step_release, Machine.decide_commit,
      Machine.the_event, Machine.abort, Machine.silent in Hst;
    open_step Hst.
  all: try (apply pr_quiet; [done|done|done|first [by right|by left; apply Ha]]).
  all: try match goal with E : todo _ = _ :: _ |- _ => rename E into Etd end.
  - apply pr_quiet; [by simpl|done|done|right; congruence].
  - eapply pr_throw; [by apply Ha|done|done|done|done].
  - by destruct (Hact (proj2 Ha I)).
  - eapply pr_decide; [done|done|done|unfold in_flight; simpl; by rewrite Etd| |done|by apply Ha].
    intros Hc. constructor; [done|done|]. unfold captured in Hc. rewrite Etd, Hpc in Hc. apply Hc.
  - by destruct (Hact (proj2 Ha I)).
  - eapply pr_decide; [done|done|done|unfold in_flight; simpl; by rewrite Etd| |done|by apply Ha].
    intros Hc. constructor; [done|done|]. unfold captured in Hc. rewrite Etd, Hpc in Hc. apply Hc.
  - destruct (todo th) as [|tr rest] eqn:Etd; [by destruct (Hact (proj2 Ha I))|].
    eapply pr_return; try done. simpl. by rewrite Etd.
Qed.

(** A step keeps the captured variables within what the caller made of them. *)
Lemma tstep_captured t (sh sh' : shared V) th th' ev :
  captured th -> Machine.tstep is_trivial t sh th = Some (sh', th', ev) -> captured th'.
Proof.
  intros Hc Hst. unfold captured in Hc. unfold Machine.tstep in Hst.
  destruct (at_pc th) as [| |p|x k|x k|x v k|a i g|a g|a wv i g|a wv i g|a wv i g|a ok l|];
    unfold Machine.step_idle, Machine.step_attempt, Machine.step_body, Machine.step_read,
      Machine.step_write, Machine.step_throw, Machine.step_load, Machine.step_load_held,
      Machine.step_load_rel, Machine.step_guard, Machine.step_incr, Machine.step_validate,
      Machine.step_commit, Machine.step_move, Machine.step_release, Machine.decide_commit,
      Machine.the_event, Machine.abort, Machine.silent in Hst;
    open_step Hst; try exact Hc; unfold captured; simpl; try (by destruct (tail (todo th)));
    try (by destruct (todo th)).
  all: try match goal with E : todo _ = _ :: _ |- _ => rewrite E; try rewrite E in Hc end; try exact Hc.
  - split; apply starts_prepare.
  - split; [apply Hc|]. apply starts_restore, Hc.
Qed.

(** The transactions of [p] that are over, those to come, and the commits [es]
    of the thread. *)
Definition accounted (p : list (txn V L A)) (es : list (event V L A)) th : Prop :=
  (active th -> todo th <> []) /\ captured th /\
  exists done, p = done ++ todo th /\ length done = length (results th) /\
    Forall2 commit_of (returned_of done (results th) ++ in_flight th) es.

Lemma returned_of_snoc done rs tr o : length done = length rs ->
  returned_of (done ++ [tr]) (rs ++ [o]) =
    returned_of done rs ++ match o with Val a => [(tr, a)] | Exn _ => [] end.
Proof.
  intros E. unfold returned_of. rewrite zip_with_app by done. rewrite omap_app. simpl.
  by destruct o.
Qed.

Lemma accounted_step p es t (sh sh' : shared V) th th' ev :
  accounted p es th -> Machine.tstep is_trivial t sh th = Some (sh', th', ev) ->
  accounted p (es ++ option_list ev) th' /\ forall e, ev = Some e -> e_tid e = t.
Proof.
  intros (Hact & Hc & dn & -> & Hl & He) Hst. pose proof (tstep_captured _ _ _ _ _ _ Hc Hst) as Hc'.
  destruct (tstep_progress _ _ _ _ _ _ Hact Hst) as
    [Et Er Ef Hn|q e Et Er Ef Ef' Hq Ee Ha|tr rest a Et Et' Ep Er Ef|x Ha Et Ep Er Ef]; simpl.
  - split; [|done]. split; [rewrite Et; tauto|]. split; [done|]. exists dn. by rewrite Et, Er, Ef, app_nil_r.
  - split; [|by intros ? [= <-]]. split; [rewrite Et; tauto|]. split; [done|]. exists dn.
    rewrite Ef, app_nil_r in He. rewrite Et, Er, Ef'. split_and!; [done|done|].
    apply Forall2_app; [done|]. constructor; [by apply Hq|constructor].
  - split; [|done]. split; [unfold active; by rewrite Ep|]. split; [done|]. exists (dn ++ [tr]).
    rewrite Et, Et', Er, app_nil_r, returned_of_snoc by done. rewrite Ef in He.
    unfold in_flight. rewrite Ep, app_nil_r, !length_app, <- app_assoc. simpl. split_and!; [done|lia|done].
  - split; [|done]. split; [unfold active; by rewrite Ep|]. split; [done|]. specialize (Hact Ha).
    destruct (todo th) as [|tr rest] eqn:Etd; [done|]. exists (dn ++ [tr]). rewrite Ef, app_nil_r in He.
    rewrite Et, Er, returned_of_snoc by done.
    unfold in_flight. rewrite Ep, !app_nil_r, !length_app, <- app_assoc. simpl. split_and!; [done|lia|done].
Qed.

Definition of_thread t (evs : list (event V L A)) : list (event V L A) :=
  filter (fun e => e_tid e = t) evs.

Lemma steps_accounted m0 (ps : gmap tid_t (list (txn V L A) * L)) n evs s :
  Machine.steps (LS := LS) is_trivial n (Machine.init m0 ps) evs s ->
  forall t th, Machine.ths s !! t = Some th ->
    exists p, ps !! t = Some p /\ accounted p.1 (of_thread t evs) th.
Proof.
  remember (Machine.init m0 ps) as s0 eqn:E0. intros Hs.
  induction Hs as [|n s evs s1 ev s2 Hs IH Hst]; intros t th Ht.
  - subst. simpl in Ht. rewrite lookup_fmap in Ht. apply fmap_Some in Ht as (p & Hp & ->).
    exists p. split; [done|]. split; [by intros []|].
    split; [unfold captured; by destruct (todo _)|]. by exists [].
  - destruct Hst as [s1 u thu sh' th' ev Hu Hst]. destruct (IH E0 u thu Hu) as (pu & Hpu & Hacu).
    destruct (accounted_step _ _ _ _ _ _ _ _ Hacu Hst) as [Hacu' Htid]. simpl in Ht.
    unfold of_thread in *. rewrite filter_app. destruct (decide (u = t)) as [->|Hne].
    + rewrite lookup_insert_eq in Ht. simplify_eq. exists pu. split; [done|].
      destruct ev as [e|]; simpl in *; [|done]. by rewrite filter_cons_True by auto.
    + rewrite lookup_insert_ne in Ht by done. destruct (IH E0 t th Ht) as (p & Hp & Hac).
      exists p. split; [done|]. destruct ev as [e|]; simpl; [|by rewrite app_nil_r].
      rewrite filter_cons_False by (by rewrite (Htid e)). by rewrite filter_nil, app_nil_r.
Qed.
End Threads.

Section Results.
Context {LS V L A : Type} `{LocationSet LS}.

(** [C2] Exactly the transactions that return commit, once each, in program
    order.  In any run, a thread has gone through a prefix of its transactions,
    one result for each; its commits, in the order in which they were decided,
    are those that returned -- the body of the transaction, the value that its
    caller got, and an attempt that started with the variables as the caller
    prepared them or as they were restored; none for a transaction that threw --
    followed by the current one when its commit is decided and it has not
    returned yet. *)
Theorem results_are_commits (is_trivial : addr_t -> bool) (m0 : gmap addr_t V)
  (ps : gmap tid_t (list (txn V L A) * L)) n evs s t th :
  Machine.steps (LS := LS) is_trivial n (Machine.init m0 ps) evs s ->
  Machine.ths s !! t = Some th ->
  exists txns lo done, ps !! t = Some (txns, lo) /\ txns = done ++ todo th /\
    length done = length (results th) /\
    Forall2 commit_of (returned_of done (results th) ++ in_flight th) (of_thread t evs).
Proof.
  intros Hs Ht. destruct (steps_accounted is_trivial m0 ps n evs s Hs t th Ht)
    as ([txns lo] & Hp & _ & _ & dn & E & El & Ee). by exists txns, lo, dn.
Qed.
End Results.

(** ** Real time *)
Section RealTime.
Context {LS V L A : Type} `{LocationSetLaws LS}.
Context (is_trivial : addr_t -> bool).
Abbreviation thread := (thread LS V L A).
Abbreviation sys := (Machine.sys (LS := LS) (V := V) (L := L) (A := A)).
Implicit Types (th : thread) (s : sys) (t : tid_t).

Ltac open_step Hst :=
  repeat (case_hyp Hst; try discriminate Hst); simplify_eq.

(** A step keeps the write version of the thread, drops it, or takes the next
    one from the clock; the commit it decides has that version. *)
Definition stamp_step t (c c' : version_t) th th' (ev : option (event V L A)) : Prop :=
  (c' = c \/ c' = c + 1) /\
  (forall wv, wv_of th' = Some wv -> wv_of th = Some wv \/ wv = c + 1) /\
  (forall e, ev = Some e -> e_tid e = t /\ (wv_of th = Some (e_wv e) \/ e_wv e = c + 1)).

Lemma tstep_stamp t (x x' : shared V) th th' ev c :
  clock x = Word.pack c false -> Word.version_ok c -> Word.version_ok (c + 1) ->
  Machine.tstep is_trivial t x th = Some (x', th', ev) ->
  exists c', clock x' = Word.pack c' false /\ stamp_step t c c' th th' ev.
Proof.
  intros Hc Hok Hok1 Hst.
  assert (Hw : wv_of th = match at_pc th with
    | Validate _ wv _ _ | Commit _ wv _ _ | Moving _ wv _ _ => Some wv | _ => None end) by done.
  unfold Machine.tstep in Hst.
  destruct (at_pc th) as [| |p|y k|y k|y v k|a i g|a g|a wv i g|a wv i g|a wv i g|a ok l|] eqn:Hpc;
    unfold Machine.step_idle, Machine.step_attempt, Machine.step_body, Machine.step_read,
      Machine.step_write, Machine.step_throw, Machine.step_load, Machine.step_load_held,
      Machine.step_load_rel, Machine.step_guard, Machine.step_incr, Machine.step_validate,
      Machine.step_commit, Machine.step_move, Machine.step_release, Machine.decide_commit,
      Machine.the_event, Machine.abort, Machine.silent in Hst.
  all: try rewrite Hc, Word.incr_version_pack in Hst by done.
  all: open_step Hst.
  all: match goal with
    | _ : Word.version_ok (?k + 1) |- context [Word.pack (?k + 1) false] =>
        exists (k + 1); split; [done|]; split; [by right|]
    | Hk : clock _ = Word.pack ?k false |- _ => exists k; split; [done|]; split; [by left|]
    end.
  all: match goal with E : wv_of _ = _ |- _ => rewrite E end.
  all: split; intros ? E; try discriminate E; unfold wv_of in E; simpl in E; simplify_eq; auto.
Qed.

(** After a state whose clock is at [c0]: the clock is between [c0] and
    [c0 + k], and whoever had no write version there has one above [c0]. *)
Record later (c0 : version_t) s0 (k : nat) (evs : list (event V L A)) s : Prop := {
  lt_clock : exists c, clock (Machine.sh s) = Word.pack c false /\ c0 <= c <= c0 + Z.of_nat k;
  lt_dom : forall t, is_Some (Machine.ths s !! t) -> is_Some (Machine.ths s0 !! t);
  lt_wv : forall t th0 th wv, Machine.ths s0 !! t = Some th0 -> wv_of th0 = None ->
    Machine.ths s !! t = Some th -> wv_of th = Some wv -> c0 < wv;
  lt_ev : forall e th0, e ∈ evs -> Machine.ths s0 !! e_tid e = Some th0 -> wv_of th0 = None ->
    c0 < e_wv e }.

Lemma later_start c0 s0 : clock (Machine.sh s0) = Word.pack c0 false -> later c0 s0 0 [] s0.
Proof.
  intros Hc. constructor.
  - exists c0. split; [done|lia].
  - done.
  - intros t th0 th wv H1 Hn H2 Hw. exfalso. rewrite H1 in H2. injection H2 as <-. congruence.
  - intros e th0 He. by apply elem_of_nil in He.
Qed.

Lemma later_step c0 s0 k evs s ev s' :
  0 <= c0 -> c0 + Z.of_nat (S k) < 2 ^ 63 -> later c0 s0 k evs s ->
  Machine.step is_trivial s ev s' -> later c0 s0 (S k) (evs ++ option_list ev) s'.
Proof.
  intros H0' Hk [(c & Hc & Hck) Hd Hw He] Hst. destruct Hst as [s t th sh' th' ev Ht Hst].
  assert (Hok : Word.version_ok c /\ Word.version_ok (c + 1)) by (unfold Word.version_ok; lia).
  destruct Hok as [Hok Hok1].
  destruct (tstep_stamp _ _ _ _ _ _ _ Hc Hok Hok1 Hst) as (c' & Hc' & Hcc & Hwv & Hev).
  constructor; simpl.
  - exists c'. split; [done|lia].
  - intros u [thu Hu]. apply Hd. destruct (decide (t = u)) as [<-|Hne]; [by eexists|].
    rewrite lookup_insert_ne in Hu by done. by eexists.
  - intros u th0 thu wv H1 Hn Hu Hwu. destruct (decide (t = u)) as [<-|Hne].
    + rewrite lookup_insert_eq in Hu. simplify_eq. destruct (Hwv _ Hwu) as [Hold| ->]; [|lia]. by eapply Hw.
    + rewrite lookup_insert_ne in Hu by done. by eapply Hw.
  - intros e th0 [Hin|Hin]%elem_of_app H1 Hn; [by eapply He|]. destruct ev as [e'|]; simpl in Hin.
    + apply list_elem_of_singleton in Hin as ->. destruct (Hev e' eq_refl) as [<- [Hold| ->]]; [|lia].
      by eapply Hw.
    + by apply elem_of_nil in Hin.
Qed.

Lemma steps_later c0 s0 k evs s :
  0 <= c0 -> c0 + Z.of_nat k < 2 ^ 63 -> clock (Machine.sh s0) = Word.pack c0 false ->
  Machine.steps is_trivial k s0 evs s -> later c0 s0 k evs s.
Proof.
  intros H0' Hk Hc Hs. induction Hs as [s|k s evs s1 ev s2 Hs IH Hst]; [by apply later_start|].
  eapply later_step; [done|done| |done]. apply IH; [lia|done].
Qed.

End RealTime.

(** Whatever the thread does, it has not taken a write version. *)
Definition unstamped {LS V L A} (s : Machine.sys (LS := LS) (V := V) (L := L) (A := A)) (t : tid_t) : Prop :=
  exists th, Machine.ths s !! t = Some th /\ wv_of th = None.

Section Strict.
Context {LS V L A : Type} `{LocationSetLaws LS}.

(** [C3] Real time.  A transaction that has not taken its write version when
    another one's commit is already decided comes after it in the serial order:
    the order of [serializable] respects the order of transactions that do not
    overlap (strict serializability), and the program order of each thread. *)
Theorem real_time (is_trivial : addr_t -> bool) (m0 : gmap addr_t V)
  (ps : gmap tid_t (list (txn V L A) * L)) n evs s k evs' s' e e' :
  Machine.steps (LS := LS) is_trivial n (Machine.init m0 ps) evs s ->
  Machine.steps is_trivial k s evs' s' -> Z.of_nat (n + k) < 2 ^ 63 ->
  e ∈ evs -> e' ∈ evs' -> unstamped s (e_tid e') ->
  e_wv e < e_wv e'.
Proof.
  intros Hs Hs' Hn He He' (th & Ht & Hw).
  destruct (steps_inv is_trivial m0 ps n evs s Hs) as (HS & Hi & Hp); [lia|].
  destruct (i_clock _ _ _ _ Hi) as (c & Hc & Hcn).
  assert (Hle : e_wv e <= c).
  { rewrite <- Hp in He. apply list_elem_of_fmap in He as (h & -> & Hh).
    pose proof (i_bound _ _ _ _ Hi h Hh) as Hb. rewrite Hc, Word.unpack_pack in Hb; [apply Hb|].
    unfold Word.version_ok. lia. }
  assert (Hl : later c s k evs' s') by (eapply steps_later; [lia|lia|done|done]).
  pose proof (lt_ev _ _ _ _ _ Hl e' th He' Ht Hw). lia.
Qed.
End Strict.
