(* ===== verification/Linearize.v ===== *)
(** * Objects made of transactions are linearizable

    The interface between the machine and the data structures built on it.  An
    object has operations, each a call of [atomically], and an abstract state;
    its laws are sequential: each body, run alone on a memory that represents an
    abstract state, returns what the abstract operation returns and leaves a
    memory that represents the next state.  Any concurrent run of such
    operations is then linearizable. *)

From S2P Require Import Prelude VersionLock LockTable Store Op Log Tx State LockGuard Machine History MachineInv InvFacts Preserve Steps StepsGuard StepsCommit Serializability Order.
Import History.

(** [ob_init op] is what holds of the captured variables when an attempt at [op]
    starts. *)
Class TxObject (V L A Op S : Type) := {
  ob_call : Op -> txn V L A;
  ob_init : Op -> L -> Prop;
  ob_rep : gmap addr_t V -> S -> Prop;
  ob_apply : Op -> S -> A * S }.

Class TxObjectLaws V L A Op S `{TxObject V L A Op S} := {
  ob_prepare op lo : ob_init op (prepare (ob_call op) lo);
  ob_restore op saved now : ob_init op saved -> ob_init op (restore (ob_call op) saved now);
  ob_sim op lo m (s : S) : ob_init op lo -> ob_rep m s ->
    exists lo' m', Tx.run (body (ob_call op)) lo m = Some (Val (ob_apply op s).1, lo', m') /\
      ob_rep m' (ob_apply op s).2 }.

(** The abstract object: the values returned by operations in sequence, and the
    state they leave. *)
Section Abstract.
Context {V L A Op S : Type} `{TxObject V L A Op S}.

Fixpoint ob_run (ops : list Op) (s : S) : list A * S :=
  match ops with
  | [] => ([], s)
  | op :: ops' =>
      let '(a, s') := ob_apply op s in
      let '(r, s'') := ob_run ops' s' in (a :: r, s'')
  end.

Lemma ob_run_snoc ops op s :
  ob_run (ops ++ [op]) s =
    ((ob_run ops s).1 ++ [(ob_apply op (ob_run ops s).2).1], (ob_apply op (ob_run ops s).2).2).
Proof.
  revert s. induction ops as [|o ops IH]; intros s; simpl.
  - by destruct (ob_apply op s).
  - destruct (ob_apply o s) as [a s'] eqn:E. rewrite IH. by destruct (ob_run ops s') as [r s''].
Qed.

Lemma ob_run_length ops s : length (ob_run ops s).1 = length ops.
Proof.
  revert s. induction ops as [|o ops IH]; intros s; simpl; [done|]. destruct (ob_apply o s) as [a s'].
  specialize (IH s'). destruct (ob_run ops s'). simpl in *. by rewrite IH.
Qed.
End Abstract.

(** ** Commits, results and programs *)
Section Programs.
Context {LS V L A : Type} `{LocationSetLaws LS}.
Context (is_trivial : addr_t -> bool) (m0 : gmap addr_t V) (ps : gmap tid_t (list (txn V L A) * L)).
Abbreviation init := (Machine.init (LS := LS) m0 ps).

Lemma elem_returned_of (dn : list (txn V L A)) rs tr a : (tr, a) ∈ returned_of dn rs -> tr ∈ dn.
Proof.
  intros ([tr' o] & Hin & E)%list_elem_of_omap. simpl in E. destruct o; [|done]. injection E as <- <-.
  by apply elem_of_zip_l in Hin.
Qed.

Lemma elem_in_flight (th : thread LS V L A) tr a : (tr, a) ∈ in_flight th -> tr ∈ todo th.
Proof.
  unfold in_flight. destruct (at_pc th) as [| |q|y k|y k|y v k|b i g|b g|b wv i g|b wv i g|b wv i g|b [|] l|];
    destruct (todo th) as [|tr' rest]; intros Hin; try (by apply elem_of_nil in Hin);
    apply list_elem_of_singleton in Hin; injection Hin as -> ->; by left.
Qed.

Lemma event_thread n evs s e : Machine.steps is_trivial n init evs s -> e ∈ evs ->
  is_Some (Machine.ths s !! e_tid e).
Proof.
  remember init as s0 eqn:E0. intros Hs. induction Hs as [|n s evs s1 ev s2 Hs IH Hst].
  - by intros He%elem_of_nil.
  - intros Hin. destruct Hst as [s1 u thu sh' th' ev Hu Hst]. simpl. apply lookup_insert_is_Some'.
    apply elem_of_app in Hin as [Hin|Hin]; [right; by apply IH|left].
    destruct ev as [e'|]; [|by apply elem_of_nil in Hin]. apply list_elem_of_singleton in Hin as ->.
    subst s. destruct (steps_accounted is_trivial m0 ps n evs s1 Hs u thu Hu) as (p & _ & Hac).
    symmetry. by apply (proj2 (accounted_step is_trivial _ _ _ _ _ _ _ _ Hac Hst)).
Qed.

(** A commit is that of a transaction of its thread. *)
Lemma event_txn n evs s e : Machine.steps is_trivial n init evs s -> e ∈ evs ->
  exists p tr, ps !! e_tid e = Some p /\ tr ∈ p.1 /\ commit_of (tr, e_ret e) e.
Proof.
  intros Hs He. destruct (event_thread _ _ _ _ Hs He) as [th Ht].
  destruct (steps_accounted is_trivial m0 ps n evs s Hs _ _ Ht) as (p & Hp & _ & _ & dn & Epr & _ & Ee).
  assert (Hin : e ∈ of_thread (e_tid e) evs) by by apply list_elem_of_filter.
  apply list_elem_of_lookup in Hin as [i Hi].
  destruct (Forall2_lookup_r _ _ _ _ _ Ee Hi) as ([tr a] & Ha & Hc).
  exists p, tr. split; [done|]. split; [|destruct Hc; by constructor].
  apply list_elem_of_lookup_2 in Ha. rewrite Epr. apply elem_of_app.
  apply elem_of_app in Ha as [Ha|Ha]; [left; by eapply elem_returned_of|right; by eapply elem_in_flight].
Qed.

(** A value returned to a caller is that of a commit. *)
Lemma result_event n evs s t th a : Machine.steps is_trivial n init evs s ->
  Machine.ths s !! t = Some th -> Val a ∈ results th -> exists e, e ∈ evs /\ e_ret e = a.
Proof.
  intros Hs Ht Ha. destruct (steps_accounted is_trivial m0 ps n evs s Hs _ _ Ht) as (p & Hp & _ & _ & dn & _ & El & Ee).
  apply list_elem_of_lookup in Ha as [i Hi]. pose proof (lookup_lt_Some _ _ _ Hi) as Hlt. rewrite <- El in Hlt.
  apply lookup_lt_is_Some in Hlt as [tr Htr].
  assert (Hin : (tr, a) ∈ returned_of dn (results th) ++ in_flight th).
  { apply elem_of_app. left. apply list_elem_of_omap. exists (tr, Val a). split; [|done].
    apply (list_elem_of_lookup_2 _ i). rewrite lookup_zip_with, Htr. simpl. by rewrite Hi. }
  apply list_elem_of_lookup in Hin as [j Hj]. destruct (Forall2_lookup_l _ _ _ _ _ Ee Hj) as (e & He & Hc).
  apply list_elem_of_lookup_2, list_elem_of_filter in He as [_ He]. exists e. split; [done|apply Hc].
Qed.

Lemma serial_keeps (I : gmap addr_t V -> Prop) m order m' : serial (A := A) (L := L) m order m' -> I m ->
  (forall e m1 a lo m2, e ∈ order -> I m1 -> Tx.run (e_body e) (e_in e) m1 = Some (Val a, lo, m2) -> I m2) ->
  I m'.
Proof.
  intros Hs Hm. induction Hs as [m|m order m1 e m2 Hs IH Hrun]; intros Hk; [done|].
  eapply Hk; [apply elem_of_app; right; by left| |exact Hrun]. apply IH; [done|].
  intros e' m3 a lo m4 He'. apply Hk, elem_of_app. by left.
Qed.

(** What every transaction keeps when it runs alone is kept. *)
Lemma serial_invariant (I : gmap addr_t V -> Prop) n evs s :
  (forall t p, ps !! t = Some p -> Forall (fun tr => forall lo m a lo' m',
     I m -> Tx.run (body tr) lo m = Some (Val a, lo', m') -> I m') p.1) ->
  I m0 -> Machine.steps is_trivial n init evs s -> Z.of_nat n < 2 ^ 63 -> quiescent s ->
  I (mem (Machine.sh s)).
Proof.
  intros Hps H0' Hs Hn Hq. destruct (serial_order is_trivial m0 ps n evs s Hs Hn) as (order & m & Hp & _ & Hser & ->); [|done].
  apply (serial_keeps I m0 order m Hser H0').
  intros e m1 a lo m2 He HI Hrun. rewrite Hp in He. destruct (event_txn n evs s e Hs He) as (p & tr & Hpt & Hin & [Eb _ _]). simpl in Eb.
  specialize (Hps _ _ Hpt). rewrite Forall_forall in Hps. rewrite Eb in Hrun. by eapply (Hps tr Hin).
Qed.
End Programs.

(** ** Serial executions of operations *)

(** Laws that hold of an operation only where its precondition does: the
    caller's part of a contract, such as the freshness of a node. *)
Class TxGuardedLaws V L A Op S `{TxObject V L A Op S} (pre : Op -> S -> Prop) := {
  gd_prepare op lo : ob_init op (prepare (ob_call op) lo);
  gd_restore op saved now : ob_init op saved -> ob_init op (restore (ob_call op) saved now);
  gd_sim op lo m (s : S) : ob_init op lo -> ob_rep m s -> pre op s ->
    exists lo' m', Tx.run (body (ob_call op)) lo m = Some (Val (ob_apply op s).1, lo', m') /\
      ob_rep m' (ob_apply op s).2 }.

#[export] Instance laws_guarded V L A Op S `{TxObjectLaws V L A Op S} : TxGuardedLaws V L A Op S (fun _ _ => True).
Proof. constructor; [apply ob_prepare|apply ob_restore|]. intros op lo m s Hi Hr _. by apply ob_sim. Qed.

Section Admissible.
Context {V L A Op S : Type} `{TxObject V L A Op S} (pre : Op -> S -> Prop).

(** Each operation finds its precondition. *)
Fixpoint admissible (ops : list Op) (s : S) : Prop :=
  match ops with
  | [] => True
  | op :: ops' => pre op s /\ admissible ops' (ob_apply op s).2
  end.

Lemma admissible_snoc ops op s : admissible (ops ++ [op]) s <-> admissible ops s /\ pre op (ob_run ops s).2.
Proof.
  revert s. induction ops as [|o ops IH]; intros s; simpl; [tauto|].
  rewrite IH. destruct (ob_apply o s) as [a s']. simpl. destruct (ob_run ops s'). simpl. tauto.
Qed.

End Admissible.

Section Serial.
Context {V L A Op S : Type} `{TxGuardedLaws V L A Op S pre}.
Abbreviation event := (event V L A).

(** The calls of a thread are operations of the object. *)
Definition calls_ops (p : list (txn V L A)) : Prop := Forall (fun tr => exists op, tr = ob_call op) p.

(** A commit of an operation. *)
Definition event_op (op : Op) (e : event) : Prop :=
  e_body e = body (ob_call op) /\ ob_init op (e_in e).

Lemma starts_init op lo : starts (ob_call op) lo -> ob_init op lo.
Proof. induction 1; [apply gd_prepare|by apply gd_restore]. Qed.

Lemma commit_event_op op a e : commit_of (ob_call op, a) e -> event_op op e.
Proof. intros [Hb _ Hi]. split; [done|]. by apply starts_init. Qed.

Lemma event_ops_bodies ops es : Forall2 event_op ops es ->
  e_body <$> es = (fun op => body (ob_call op)) <$> ops.
Proof. induction 1 as [|op e ops es [Hb _] _ IH]; [done|]. by rewrite !fmap_cons, Hb, IH. Qed.

(** A serial execution of operations is a run of the abstract object. *)
Lemma serial_run (s0 : S) order ops m0 m : ob_rep m0 s0 -> serial m0 order m ->
  Forall2 event_op ops order -> admissible pre ops s0 ->
  e_ret <$> order = (ob_run ops s0).1 /\ ob_rep m (ob_run ops s0).2.
Proof.
  intros Hr0 Hs. revert ops Hr0. induction Hs as [m|m evs m' e m'' Hs IH Hrun]; intros ops Hr0 Hf Ha.
  - by apply Forall2_nil_inv_r in Hf as ->.
  - apply Forall2_app_inv_r in Hf as (ops' & ops1 & Hf & Hf1 & ->).
    apply Forall2_cons_inv_r in Hf1 as (op & ops2 & [Ebody Hin] & Hf2 & ->). apply Forall2_nil_inv_r in Hf2 as ->.
    apply admissible_snoc in Ha as [Ha Hp]. destruct (IH ops' Hr0 Hf Ha) as [Er Hr].
    destruct (gd_sim op (e_in e) m' _ Hin Hr Hp) as (lo' & m1 & Hrun1 & Hr1).
    rewrite Ebody, Hrun1 in Hrun. injection Hrun as Ea _ Em.
    rewrite ob_run_snoc, fmap_app. simpl. by rewrite Er, Ea, <- Em.
Qed.
End Serial.

Lemma admissible_true {V L A Op S} `{TxObject V L A Op S} (ops : list Op) (s : S) :
  admissible (fun _ _ => True) ops s.
Proof. revert s. induction ops as [|op ops IH]; intros s; simpl; auto. Qed.

Section Calls.
Context {LS V L A Op S : Type} `{LocationSetLaws LS} `{TxObjectLaws V L A Op S}.

(** The operations behind the commits of a run, in the order of the commits'
    versions: what the theorems about objects use. *)
Lemma serial_ops (is_trivial : addr_t -> bool) (m0 : gmap addr_t V)
  (ps : gmap tid_t (list (txn V L A) * L)) n evs s (s0 : S) :
  (forall u p, ps !! u = Some p -> calls_ops p.1) -> ob_rep m0 s0 ->
  Machine.steps (LS := LS) is_trivial n (Machine.init m0 ps) evs s -> Z.of_nat n < 2 ^ 63 ->
  exists order ops, order ≡ₚ evs /\ StronglySorted (fun e1 e2 => e_wv e1 < e_wv e2) order /\
    e_body <$> order = (fun op => body (ob_call op)) <$> ops /\
    e_ret <$> order = (ob_run ops s0).1 /\
    (quiescent s -> ob_rep (mem (Machine.sh s)) (ob_run ops s0).2).
Proof.
  intros Hps Hr0 Hs Hn. destruct (serial_order is_trivial m0 ps n evs s Hs Hn) as (order & m & Hp & Hsrt & Hser & Hm).
  assert (Hops : exists ops, Forall2 event_op ops order).
  { apply Forall_exists_Forall2_r, Forall_forall. intros e Hin. rewrite Hp in Hin.
    destruct (event_txn is_trivial m0 ps n evs s e Hs Hin) as (p & tr & Hpt & Htr & Hc).
    specialize (Hps _ _ Hpt). unfold calls_ops in Hps. rewrite Forall_forall in Hps.
    destruct (Hps tr Htr) as [op ->]. exists op. by eapply commit_event_op. }
  destruct Hops as [ops Hops].
  destruct (serial_run s0 order ops m0 m Hr0 Hser Hops (admissible_true _ _)) as [Er Hr].
  exists order, ops. split; [done|]. split; [done|]. split; [by apply event_ops_bodies|]. split; [done|].
  intros Hq. by rewrite (Hm Hq).
Qed.

(** Without the order. *)
Lemma serial_calls (is_trivial : addr_t -> bool) (m0 : gmap addr_t V)
  (ps : gmap tid_t (list (txn V L A) * L)) n evs s (s0 : S) :
  (forall u p, ps !! u = Some p -> calls_ops p.1) -> ob_rep m0 s0 ->
  Machine.steps (LS := LS) is_trivial n (Machine.init m0 ps) evs s -> Z.of_nat n < 2 ^ 63 ->
  exists ops, e_body <$> evs ≡ₚ (fun op => body (ob_call op)) <$> ops /\
    (quiescent s -> ob_rep (mem (Machine.sh s)) (ob_run ops s0).2).
Proof.
  intros Hps Hr0 Hs Hn.
  destruct (serial_ops is_trivial m0 ps n evs s s0 Hps Hr0 Hs Hn) as (order & ops & Hp & _ & Eb & _ & Hq).
  exists ops. split; [|done]. by rewrite <- Eb, Hp.
Qed.
End Calls.

Section Linearizable.
Context {LS V L A Op S : Type} `{LocationSetLaws LS} `{TxObjectLaws V L A Op S}.

(** Operations on an object made of transactions are linearizable.  Let any
    threads call operations of an object whose bodies, run alone, implement the
    abstract operations.  In any interleaving, the commits ordered by write
    version are operations of the abstract object in sequence: each call
    returned the value of its operation in that sequence, and, when no commit is
    half done, the memory represents the state that the sequence leaves. *)
Theorem linearizable (is_trivial : addr_t -> bool) (m0 : gmap addr_t V)
  (ps : gmap tid_t (list (txn V L A) * L)) n evs s (s0 : S) :
  (forall u p, ps !! u = Some p -> calls_ops p.1) -> ob_rep m0 s0 ->
  Machine.steps (LS := LS) is_trivial n (Machine.init m0 ps) evs s -> Z.of_nat n < 2 ^ 63 ->
  exists order ops, order ≡ₚ evs /\ StronglySorted (fun e1 e2 => e_wv e1 < e_wv e2) order /\
    e_body <$> order = (fun op => body (ob_call op)) <$> ops /\
    e_ret <$> order = (ob_run ops s0).1 /\
    (quiescent s -> ob_rep (mem (Machine.sh s)) (ob_run ops s0).2).
Proof. apply serial_ops. Qed.
End Linearizable.
