(* ===== verification/Programs.v ===== *)
(** * Programs over an object: what their threads see

    Each thread of a program runs a list of operations of an object, a call of
    [atomically] each.  The commits of a thread have increasing write versions,
    so the serial order of [Serializability] interleaves the programs of the
    threads, and the answers a thread got are those of its operations in that
    interleaving.  Operations may have preconditions, which are required of the
    interleavings only and not of what an attempt that fails sees. *)

From S2P Require Import Prelude VersionLock LockTable Store Op Log Tx State LockGuard Machine History MachineInv InvFacts Preserve Steps StepsGuard StepsCommit Serializability Order Linearize.
Import History.

(** ** The commits of a thread *)
Section Stamps.
Context {LS V L A : Type} `{LocationSetLaws LS}.
Context (is_trivial : addr_t -> bool) (m0 : gmap addr_t V) (ps : gmap tid_t (list (txn V L A) * L)).
Abbreviation thread := (thread LS V L A).
Abbreviation init := (Machine.init (LS := LS) m0 ps).
Implicit Types (th : thread) (t : tid_t) (evs : list (event V L A)).

Abbreviation by_stamp := (fun e1 e2 : event V L A => e_wv e1 < e_wv e2).

(** A thread about to decide a commit has a version above those of its commits. *)
Definition above evs t th : Prop :=
  in_flight th = [] -> forall wv, wv_of th = Some wv -> forall e, e ∈ of_thread t evs -> e_wv e < wv.

Lemma of_thread_app t evs evs' : of_thread t (evs ++ evs') = of_thread t evs ++ of_thread t evs'.
Proof. apply filter_app. Qed.

Lemma of_thread_one t (ev : option (event V L A)) :
  of_thread t (option_list ev) = match ev with Some e => if decide (e_tid e = t) then [e] else [] | None => [] end.
Proof. by destruct ev. Qed.

Lemma stamp_progress t c c' th th' ev evs :
  progress t th th' ev -> stamp_step t c c' th th' ev -> (forall e, e ∈ evs -> e_wv e <= c) ->
  above evs t th -> StronglySorted by_stamp (of_thread t evs) ->
  above (evs ++ option_list ev) t th' /\ StronglySorted by_stamp (of_thread t (evs ++ option_list ev)).
Proof.
  intros Hp (_ & Hw & Hev) Hle Ha Hs.
  assert (Hin : forall e, e ∈ of_thread t evs -> e_wv e <= c)
    by (intros e [_ He]%list_elem_of_filter; by apply Hle).
  assert (Hnew : in_flight th = [] -> forall wv, wv_of th = Some wv \/ wv = c + 1 ->
    forall e, e ∈ of_thread t evs -> e_wv e < wv).
  { intros Hf wv [E| ->] e He; [by eapply Ha|]. specialize (Hin e He). lia. }
  destruct Hp as [_ _ Ef _|p e _ _ Ef Ef' _ Et _|tr rest a _ _ Ep _ _|x _ _ Ep _ _]; simpl.
  - rewrite app_nil_r. split; [|done]. intros Hf wv E. apply Hnew; [congruence|by apply Hw].
  - split; [intros Hf; congruence|]. rewrite of_thread_app. unfold of_thread at 2. rewrite filter_cons_True by done.
    destruct (Hev e eq_refl) as [_ Hwv]. apply StronglySorted_app. split; [|by repeat constructor].
    intros e1 e2 H1 H2. rewrite filter_nil in H2. apply list_elem_of_singleton in H2 as ->. by eapply Hnew.
  - rewrite app_nil_r. split; [|done]. intros _ wv E. unfold wv_of in E. by rewrite Ep in E.
  - rewrite app_nil_r. split; [|done]. intros _ wv E. unfold wv_of in E. by rewrite Ep in E.
Qed.

(** The commits of a thread have increasing versions. *)
Lemma steps_stamps n evs s : Machine.steps is_trivial n init evs s -> Z.of_nat n < 2 ^ 63 ->
  (forall t th, Machine.ths s !! t = Some th -> above evs t th) /\
  (forall t, StronglySorted by_stamp (of_thread t evs)).
Proof.
  remember init as s0 eqn:E0. intros Hs. induction Hs as [|n s evs s1 ev s2 Hs IH Hst]; intros Hn.
  - split; [|constructor]. intros t th _ _ wv _ e He. by apply elem_of_nil in He.
  - subst s. destruct (IH eq_refl ltac:(lia)) as [Ha Hsrt]. destruct Hst as [s1 u thu sh' th' ev Hu Hst].
    destruct (steps_inv is_trivial m0 ps n evs s1 Hs) as (HS & Hi & Hp); [lia|].
    destruct (i_clock _ _ _ _ Hi) as (c & Hc & Hcn).
    assert (Hok : Word.version_ok c /\ Word.version_ok (c + 1)) by (unfold Word.version_ok; lia).
    destruct (tstep_stamp _ _ _ _ _ _ _ _ Hc (proj1 Hok) (proj2 Hok) Hst) as (c' & _ & Hss).
    destruct (steps_accounted is_trivial m0 ps n evs s1 Hs u thu Hu) as (p & _ & Hac & _).
    pose proof (tstep_progress _ _ _ _ _ _ _ Hac Hst) as Hpr.
    assert (Hle : forall e, e ∈ evs -> e_wv e <= c).
    { intros e He. rewrite <- Hp in He. apply list_elem_of_fmap in He as (h & -> & Hh).
      pose proof (i_bound _ _ _ _ Hi h Hh) as Hb. rewrite Hc, Word.unpack_pack in Hb by apply Hok. apply Hb. }
    destruct (stamp_progress _ _ _ _ _ _ _ Hpr Hss Hle (Ha u thu Hu) (Hsrt u)) as [Ha' Hs'].
    assert (Hother : forall t, u <> t -> of_thread t (evs ++ option_list ev) = of_thread t evs).
    { intros t Hne. rewrite of_thread_app, of_thread_one. destruct ev as [e|]; [|apply app_nil_r].
      destruct (proj2 (proj2 Hss) e eq_refl) as [<- _]. by rewrite decide_False, app_nil_r. }
    split; simpl.
    + intros t th Ht. destruct (decide (u = t)) as [<-|Hne].
      * rewrite lookup_insert_eq in Ht. by injection Ht as <-.
      * rewrite lookup_insert_ne in Ht by done. intros Hf wv E. rewrite Hother by done. by eapply Ha.
    + intros t. destruct (decide (u = t)) as [<-|Hne]; [done|]. by rewrite Hother.
Qed.

(** Sorting by version keeps the order of a thread's commits. *)
Lemma of_thread_order n evs s order t : Machine.steps is_trivial n init evs s -> Z.of_nat n < 2 ^ 63 ->
  order ≡ₚ evs -> StronglySorted by_stamp order -> of_thread t order = of_thread t evs.
Proof.
  intros Hs Hn Hp Ho. apply (StronglySorted_unique_strong by_stamp).
  - intros e1 e2 _ _ H1 H2. lia.
  - by apply StronglySorted_filter.
  - by apply (steps_stamps n evs s).
  - by apply filter_Permutation.
Qed.
End Stamps.

(** ** Bodies that [atomically] never answers with an exception *)
Section Body.
Context {V L : Type}.

(** No [std::exception] is thrown; another one leaves the thread in the
    transaction, without a result. *)
Fixpoint no_std {A} (p : tx V L A) : Prop :=
  match p with
  | Ret _ => True
  | Throw e => is_std e = false
  | Read _ k => forall v, no_std (k v)
  | Write _ _ k | SetL _ k => no_std k
  | GetL k => forall lo, no_std (k lo)
  end.

Lemma bind_no_std {A B} (p : tx V L A) (f : A -> tx V L B) :
  no_std p -> (forall a, no_std (f a)) -> no_std (Tx.bind p f).
Proof. intros Hp Hf. induction p; simpl in *; auto. Qed.
End Body.

Section NoStd.
Context {LS V L A : Type} `{LocationSetLaws LS}.
Abbreviation thread := (thread LS V L A).

Definition calm (th : thread) : Prop :=
  Forall (fun tr => no_std (body tr)) (todo th) /\
  Forall (fun o => exists a, o = Val a) (results th) /\
  match at_pc th with
  | Body p => no_std p
  | Load _ k | LoadHeld _ k | LoadRel _ _ k => forall v, no_std (k v)
  | _ => True
  end.

Lemma tstep_calm is_trivial t (sh sh' : shared V) (th th' : thread) ev :
  calm th -> (forall p, at_pc th = Body p -> state (mgr th) = RUNNING) ->
  Machine.tstep is_trivial t sh th = Some (sh', th', ev) -> calm th'.
Proof.
  intros (Htd & Hr & Hpc) Hst Hstep. unfold Machine.tstep in Hstep.
  assert (Hass : state (mgr th) = RUNNING -> Manager.assert_in_transaction (mgr th) = Some (Val tt, mgr th)).
  { intros E. unfold Manager.assert_in_transaction, Manager.in_transaction. by rewrite E. }
  destruct (at_pc th) as [| |p|x k|x k|x v k|a i g|a g|a wv i g|a wv i g|a wv i g|a ok l|] eqn:E;
    [| |destruct p; try specialize (Hass (Hst _ eq_refl))|..];
    unfold Machine.step_idle, Machine.step_attempt, Machine.step_body, Machine.step_read,
      Machine.step_write, Machine.step_throw, Machine.step_load, Machine.step_load_held,
      Machine.step_load_rel, Machine.step_guard, Machine.step_incr, Machine.step_validate,
      Machine.step_commit, Machine.step_move, Machine.step_release, Machine.decide_commit,
      Machine.the_event, Machine.abort, Machine.silent in Hstep; try rewrite Hass in Hstep;
    repeat (case_hyp Hstep; try discriminate Hstep); simplify_eq; unfold calm; simpl; try by split_and!.
  all: try match goal with Ex : todo _ = _ |- _ => rewrite Ex end; try by split_and!.
  all: try (simpl in Hpc; congruence).
  - split_and!; [done|done|]. by apply Forall_cons in Htd as [? _].
  - split_and!; [|apply Forall_app; split; [done|constructor; [by eexists|constructor]]|done].
    destruct Htd; [constructor|done].
Qed.

Lemma steps_calm is_trivial m0 (ps : gmap tid_t (list (txn V L A) * L)) n evs s :
  (forall t p, ps !! t = Some p -> Forall (fun tr => no_std (body tr)) p.1) ->
  Machine.steps (LS := LS) is_trivial n (Machine.init m0 ps) evs s -> Z.of_nat n < 2 ^ 63 ->
  forall t th, Machine.ths s !! t = Some th -> calm th.
Proof.
  intros Hps. remember (Machine.init m0 ps) as s0 eqn:E0. intros Hs.
  induction Hs as [|n s evs s1 ev s2 Hs IH Hst]; intros Hn.
  - subst s. intros t th (p & Hp & ->)%init_thread. split; [by eapply Hps|]. by split.
  - subst s. destruct Hst as [s1 u thu sh' th' ev Hu Hst]. intros t th Ht. simpl in Ht.
    destruct (decide (u = t)) as [->|Hne]; [|rewrite lookup_insert_ne in Ht by done; eapply IH; (done || lia)].
    rewrite lookup_insert_eq in Ht. injection Ht as <-.
    destruct (steps_inv is_trivial m0 ps n evs s1 Hs) as (HS & Hi & _); [lia|].
    eapply tstep_calm; [by eapply IH; [done|lia|]| |exact Hst]. intros p Hp.
    pose proof (i_thread _ _ _ _ Hi t thu Hu) as Ht. unfold tinv in Ht. rewrite Hp in Ht. by apply Ht.
Qed.
End NoStd.

(** ** Interleavings *)
Section Interleave.
Context {V L A Op : Type}.

(** The operations of one thread. *)
Definition ops_of (t : tid_t) (sched : list (tid_t * Op)) : list Op :=
  snd <$> filter (fun p => p.1 = t) sched.

(** The threads got through a part of their programs, in some order. *)
Definition interleaves (progs : gmap tid_t (list Op * L)) (sched : list (tid_t * Op)) : Prop :=
  forall t, ops_of t sched `prefix_of` default [] (fst <$> progs !! t).

(** A merge exists when each thread's part is known. *)
Lemma align (R : Op -> event V L A -> Prop) order (P : tid_t -> list Op) :
  (forall t, Forall2 R (P t) (of_thread t order)) ->
  exists sched, Forall2 (fun p e => p.1 = e_tid e /\ R p.2 e) sched order /\ forall t, ops_of t sched = P t.
Proof.
  revert P. induction order as [|e order IH]; intros P HP.
  - exists []. split; [constructor|]. intros t. specialize (HP t). by apply Forall2_nil_inv_r in HP as ->.
  - pose proof (HP (e_tid e)) as He. unfold of_thread in He. rewrite filter_cons_True in He by done.
    apply Forall2_cons_inv_r in He as (op & rest & HR & Hrest & EP).
    destruct (IH (fun t => if decide (t = e_tid e) then rest else P t)) as (sched & Hs & Ho).
    + intros t. case_decide as Ht; [by subst|]. specialize (HP t). unfold of_thread in HP.
      by rewrite filter_cons_False in HP by congruence.
    + exists ((e_tid e, op) :: sched). split; [by constructor|]. intros t. specialize (Ho t). unfold ops_of in *.
      destruct (decide (t = e_tid e)) as [->|Hne].
      * rewrite filter_cons_True by done. rewrite fmap_cons, Ho. done.
      * by rewrite filter_cons_False by (simpl; congruence).
Qed.

(** All the operations of the programs. *)
Definition all_ops (progs : gmap tid_t (list Op * L)) : list Op := map_to_list progs ≫= (fun p => p.2.1).

Lemma all_ops_insert (progs : gmap tid_t (list Op * L)) t p : progs !! t = Some p ->
  all_ops progs ≡ₚ p.1 ++ all_ops (delete t progs).
Proof.
  intros Hp. unfold all_ops. rewrite <- (insert_delete_id _ _ _ Hp) at 1.
  rewrite map_to_list_insert by apply lookup_delete_eq. done.
Qed.

Lemma all_ops_one t p : all_ops {[t := p]} = p.1.
Proof. unfold all_ops. rewrite map_to_list_singleton. simpl. by rewrite app_nil_r. Qed.

Lemma all_ops_new (progs : gmap tid_t (list Op * L)) t p : progs !! t = None ->
  all_ops (<[t := p]> progs) ≡ₚ p.1 ++ all_ops progs.
Proof. intros Hn. unfold all_ops. by rewrite map_to_list_insert. Qed.

(** Threads with the same program. *)
Lemma all_ops_same (ts : gset tid_t) (p : list Op * L) :
  length (all_ops (gset_to_gmap p ts)) = (size ts * length p.1)%nat /\
  forall op, op ∈ all_ops (gset_to_gmap p ts) -> op ∈ p.1.
Proof.
  split.
  - induction ts as [|t ts Ht IH] using set_ind_L; [by rewrite gset_to_gmap_empty, size_empty|].
    rewrite gset_to_gmap_union_singleton, all_ops_new, length_app, IH, size_union, size_singleton; [lia|set_solver|].
    by apply lookup_gset_to_gmap_None.
  - intros op Hop. apply list_elem_of_bind in Hop as ([t q] & Hop & Ht). apply elem_of_map_to_list in Ht.
    apply lookup_gset_to_gmap_Some in Ht as [_ <-]. exact Hop.
Qed.

(** What the interleaving runs and what is left of the programs. *)
Lemma interleaves_rest progs sched : interleaves progs sched ->
  exists left : gmap tid_t (list Op * L), all_ops progs ≡ₚ sched.*2 ++ all_ops left /\
    forall t, default [] (fst <$> progs !! t) = ops_of t sched ++ default [] (fst <$> left !! t).
Proof.
  revert progs. induction sched as [|[t op] sched IH]; intros progs Hil; [by exists progs|].
  pose proof (Hil t) as [rest Ht]. unfold ops_of in Ht. rewrite filter_cons_True in Ht by done.
  destruct (progs !! t) as [[ops lo]|] eqn:Ep; [|done]. simpl in Ht. subst ops.
  set (p' := ((filter (fun p => p.1 = t) sched).*2 ++ rest, lo)).
  assert (Hother : forall u, u <> t -> ops_of u ((t, op) :: sched) = ops_of u sched)
    by (intros u Hne; unfold ops_of; by rewrite filter_cons_False by (simpl; congruence)).
  destruct (IH (<[t := p']> progs)) as (left & Hp & Hl).
  - intros u. destruct (decide (u = t)) as [->|Hne]; [rewrite lookup_insert_eq; simpl; by exists rest|].
    rewrite lookup_insert_ne, <- (Hother u) by done. apply Hil.
  - exists left. split.
    + rewrite (all_ops_insert _ _ _ Ep). rewrite (all_ops_insert _ t p') in Hp by apply lookup_insert_eq.
      rewrite delete_insert_eq in Hp. simpl. by rewrite <- Hp.
    + intros u. specialize (Hl u). destruct (decide (u = t)) as [->|Hne].
      * rewrite lookup_insert_eq in Hl. unfold ops_of in *. rewrite filter_cons_True, Ep by done. simpl in *. by f_equal.
      * rewrite lookup_insert_ne in Hl by done. by rewrite Hother.
Qed.

(** It runs each operation of the programs at most once, *)
Lemma interleaves_all progs sched : interleaves progs sched -> sched.*2 ⊆+ all_ops progs.
Proof. intros (left & -> & _)%interleaves_rest. by apply submseteq_inserts_r. Qed.

(** and exactly once when it runs the programs to their ends. *)
Lemma interleaves_complete progs sched : interleaves progs sched ->
  (forall t, is_Some (progs !! t) -> ops_of t sched = default [] (fst <$> progs !! t)) -> sched.*2 ≡ₚ all_ops progs.
Proof.
  intros (left & Hp & Hl)%interleaves_rest Hc. rewrite Hp. assert (all_ops left = []) as ->; [|by rewrite app_nil_r].
  unfold all_ops. destruct (map_to_list left ≫= _) as [|op ops] eqn:E; [done|].
  assert (Hin : op ∈ map_to_list left ≫= (fun p => p.2.1)) by (rewrite E; by left).
  apply list_elem_of_bind in Hin as ([t [l lo]] & Hop & Ht). apply elem_of_map_to_list in Ht. specialize (Hl t).
  rewrite Ht in Hl. simpl in *. destruct (progs !! t) as [p|] eqn:Ep.
  - rewrite (Hc t) in Hl by (rewrite Ep; by eexists). rewrite Ep in Hl. simpl in Hl.
    assert (l = []) as -> by (apply (f_equal length) in Hl; rewrite length_app in Hl; destruct l; [done|simpl in Hl; lia]).
    by apply elem_of_nil in Hop.
  - symmetry in Hl. apply app_eq_nil in Hl as [_ ->]. by apply elem_of_nil in Hop.
Qed.

(** Only threads with a program run. *)
Lemma interleaves_thread progs sched : interleaves progs sched -> forall t op, (t, op) ∈ sched -> is_Some (progs !! t).
Proof.
  intros Hil t op Hin. specialize (Hil t). destruct (progs !! t); [done|]. simpl in Hil. apply prefix_nil_inv in Hil.
  assert (Ho : op ∈ ops_of t sched) by (apply list_elem_of_fmap; exists (t, op); split; [done|by apply list_elem_of_filter]).
  rewrite Hil in Ho. by apply elem_of_nil in Ho.
Qed.

(** They run operations of their programs. *)
Lemma interleaves_op progs sched t op : interleaves progs sched -> (t, op) ∈ sched ->
  exists p, progs !! t = Some p /\ op ∈ p.1.
Proof.
  intros Hil Hin. destruct (interleaves_thread progs sched Hil t op Hin) as [p Hp]. exists p. split; [done|].
  specialize (Hil t) as [r Hr]. rewrite Hp in Hr. simpl in Hr. rewrite Hr. apply elem_of_app. left.
  apply list_elem_of_fmap. exists (t, op). split; [done|]. by apply list_elem_of_filter.
Qed.

(** A list sorted by thread. *)
Lemma by_thread {X Y} (D : gmap tid_t Y) (l : list (tid_t * X)) : (forall p, p ∈ l -> is_Some (D !! p.1)) ->
  (map_to_list D ≫= (fun q => snd <$> filter (fun p => p.1 = q.1) l)) ≡ₚ snd <$> l.
Proof.
  induction l as [|[t x] l IH]; intros HD.
  - induction (map_to_list D) as [|q r IHr]; [done|exact IHr].
  - destruct (HD (t, x)) as [y Hy]; [by left|]. simpl in Hy. rewrite fmap_cons, <- IH by (intros p Hp; apply HD; by right).
    rewrite <- (insert_delete_id _ _ _ Hy), map_to_list_insert by apply lookup_delete_eq. rewrite !bind_cons.
    cbn [fst]. rewrite filter_cons_True by done. simpl. constructor. f_equiv; [done|].
    erewrite Forall_bind_ext; [done|]. apply Forall_forall. intros [u z] Hu%elem_of_map_to_list. simpl.
    rewrite filter_cons_False; [done|]. simpl. intros ->. by rewrite lookup_delete_eq in Hu.
Qed.

(** A single thread's program runs in its order. *)
Lemma interleaves_one t ops lo sched : interleaves {[t := (ops, lo)]} sched ->
  sched.*2 = ops_of t sched /\ Forall (fun p => p.1 = t) sched.
Proof.
  intros Hil. assert (Hall : Forall (fun p => p.1 = t) sched).
  { apply Forall_forall. intros [u o] Hin. simpl. destruct (decide (u = t)) as [|Hne]; [done|]. specialize (Hil u).
    rewrite lookup_singleton_ne in Hil by done. simpl in Hil. apply prefix_nil_inv in Hil.
    assert (Ho : o ∈ ops_of u sched) by (apply list_elem_of_fmap; exists (u, o); split; [done|by apply list_elem_of_filter]).
    rewrite Hil in Ho. by apply elem_of_nil in Ho. }
  split; [|done]. unfold ops_of. clear Hil. induction Hall as [|p sched Hp _ IH]; [done|].
  rewrite filter_cons_True by done. rewrite !fmap_cons. by f_equal.
Qed.
End Interleave.

(** ** Programs and their answers *)
Section Programs.
Context {LS V L A Op S : Type} `{LocationSetLaws LS} `{TxGuardedLaws V L A Op S pre}.
Abbreviation thread := (thread LS V L A).
Implicit Types (th : thread) (t : tid_t) (sched : list (tid_t * Op)).

(** The calls of a thread's program. *)
Definition calls (p : list Op * L) : list (txn V L A) * L := (ob_call <$> p.1, p.2).

(** The answers to the operations of a thread. *)
Definition answers_of t sched (s : S) : list A :=
  snd <$> filter (fun p => p.1 = t) (zip sched.*1 (ob_run sched.*2 s).1).

Lemma returned_vals (dn : list (txn V L A)) vals : returned_of dn (Val <$> vals) = zip dn vals.
Proof.
  revert vals. induction dn as [|tr dn IH]; intros [|a vals]; try done.
  unfold returned_of in *. simpl. by rewrite IH.
Qed.

Lemma in_flight_cases th : in_flight th = [] \/ exists tr rest a, todo th = tr :: rest /\ in_flight th = [(tr, a)].
Proof.
  unfold in_flight. destruct (at_pc th) as [| |q|y k|y k|y v k|b i g|b g|b wv i g|b wv i g|b wv i g|b [|] l|];
    destruct (todo th) as [|tr rest]; eauto 10.
Qed.

Lemma calm_results th : calm th -> exists vals, results th = Val <$> vals.
Proof.
  intros (_ & Hr & _). induction Hr as [|o os [a ->] _ [vals IH]]; [by exists []|].
  exists (a :: vals). by rewrite IH.
Qed.

Lemma zip_commits (ops : list Op) vals (es : list (event V L A)) : length ops = length vals ->
  Forall2 commit_of (zip (ob_call <$> ops) vals) es -> Forall2 event_op ops es /\ e_ret <$> es = vals.
Proof.
  revert vals es. induction ops as [|op ops IH]; intros [|a vals] es Hl Hf; try done.
  - by apply Forall2_nil_inv_l in Hf as ->.
  - apply Forall2_cons_inv_l in Hf as (e & es' & Hc & Hf & ->). injection Hl as Hl.
    destruct (IH vals es' Hl Hf) as [Hops Hr]. split; [constructor; [by eapply commit_event_op|done]|].
    rewrite fmap_cons, Hr. by destruct Hc as [_ -> _].
Qed.

(** The operations behind the commits of a thread. *)
Lemma thread_ops (p : list Op) es th : accounted (ob_call <$> p) es th -> calm th ->
  exists ops vals flight, ops `prefix_of` p /\ Forall2 event_op ops es /\ results th = Val <$> vals /\
    e_ret <$> es = vals ++ flight /\ (todo th = [] -> ops = p /\ flight = []).
Proof.
  intros (_ & _ & dn & Ep & El & Hf) Hc. destruct (calm_results th Hc) as [vals Er].
  rewrite Er, returned_vals in Hf. rewrite Er, length_fmap in El.
  apply fmap_app_inv in Ep as (done & rest & -> & Et & ->). rewrite length_fmap in El.
  destruct (in_flight_cases th) as [Ef|(tr & rest' & a & Etd & Ef)]; rewrite Ef in Hf.
  - rewrite app_nil_r in Hf. destruct (zip_commits done vals es El Hf) as [Hops Hr].
    exists done, vals, []. split; [by exists rest|]. split; [done|]. split; [done|]. split; [by rewrite app_nil_r|].
    intros E. rewrite Et in E. apply fmap_nil_inv in E as ->. by rewrite app_nil_r.
  - rewrite Etd in Et. destruct rest as [|op rest]; [done|]. injection Et as Eop _.
    assert (Hl : length (done ++ [op]) = length (vals ++ [a])) by (rewrite !length_app; simpl; lia).
    destruct (zip_commits (done ++ [op]) (vals ++ [a]) es Hl) as [Hops Hr].
    { rewrite fmap_app, zip_with_app by (by rewrite length_fmap). simpl. by rewrite <- Eop. }
    exists (done ++ [op]), vals, [a]. split; [exists rest; by rewrite <- app_assoc|]. split; [done|].
    split; [done|]. split; [done|]. intros E. by rewrite Etd in E.
Qed.

(** Answers, thread by thread. *)
Lemma answers_of_thread sched (order : list (event V L A)) t s0 :
  Forall2 (fun p e => p.1 = e_tid e /\ event_op p.2 e) sched order ->
  e_ret <$> order = (ob_run sched.*2 s0).1 -> answers_of t sched s0 = e_ret <$> of_thread t order.
Proof.
  intros Hf Hr. unfold answers_of. rewrite <- Hr. clear Hr. induction Hf as [|p e sched order [Ht _] _ IH]; [done|].
  unfold of_thread in *. rewrite !fmap_cons. simpl. rewrite !filter_cons. simpl. rewrite Ht.
  case_decide; [|done]. rewrite fmap_cons, IH. done.
Qed.

(** Operations that change nothing answer as they would first. *)
Lemma fixed_run (ops : list Op) (s : S) : Forall (fun op => (ob_apply op s).2 = s) ops ->
  ob_run ops s = ((fun op => (ob_apply op s).1) <$> ops, s).
Proof.
  induction 1 as [|op ops Hop _ IH]; [done|]. cbn [ob_run]. destruct (ob_apply op s) as [a s'] eqn:E.
  simpl in Hop. subst s'. rewrite IH. rewrite fmap_cons, E. done.
Qed.

Lemma answers_fixed t sched (s : S) : Forall (fun op => (ob_apply op s).2 = s) sched.*2 ->
  answers_of t sched s = (fun op => (ob_apply op s).1) <$> ops_of t sched.
Proof.
  intros Hf. unfold answers_of, ops_of. rewrite (fixed_run _ _ Hf). simpl. clear Hf.
  induction sched as [|p sched IH]; [done|]. rewrite !fmap_cons. simpl. rewrite !filter_cons. simpl.
  case_decide; [|done]. by rewrite !fmap_cons, IH.
Qed.

(** The operations of a thread with the answers it got. *)
Definition trace_of t sched (s : S) : list (Op * A) := zip (ops_of t sched) (answers_of t sched s).

(** What only one thread does is in its trace. *)
Lemma trace_thread {X} (f : Op * A -> option X) t sched (s : S) :
  (forall u op a, (u, op) ∈ sched -> u <> t -> f (op, a) = None) ->
  omap f (zip sched.*2 (ob_run sched.*2 s).1) = omap f (trace_of t sched s).
Proof.
  unfold trace_of, ops_of, answers_of. intros Hf.
  assert (Hlen : length sched = length (ob_run sched.*2 s).1) by by rewrite ob_run_length, length_fmap.
  revert Hlen. generalize (ob_run sched.*2 s).1. induction sched as [|[u op] sched IH]; intros [|a r] Hl; try done.
  injection Hl as Hl. rewrite !fmap_cons. simpl. rewrite !filter_cons. simpl.
  specialize (IH (fun v o b Hv => Hf v o b (list_elem_of_further _ _ _ Hv)) r Hl). case_decide as Hu.
  - rewrite !fmap_cons. simpl. destruct (f (op, a)); [f_equal|]; exact IH.
  - rewrite (Hf u op a ltac:(by left) Hu). exact IH.
Qed.

(** What a run shows of the interleaving [sched]. *)
Definition seen (progs : gmap tid_t (list Op * L)) sched (s0 : S)
    (s : Machine.sys (LS := LS) (V := V) (L := L) (A := A)) : Prop :=
  (forall t th, Machine.ths s !! t = Some th ->
     results th `prefix_of` (Val <$> answers_of t sched s0) /\
     (todo th = [] -> results th = Val <$> answers_of t sched s0 /\
        ops_of t sched = default [] (fst <$> progs !! t))) /\
  (quiescent s -> ob_rep (mem (Machine.sh s)) (ob_run sched.*2 s0).2).

(** The commit behind an operation of the interleaving. *)
Definition commits_at (p : tid_t * Op) (e : event V L A) : Prop := p.1 = e_tid e /\ event_op p.2 e.

Section Run.
Context (is_trivial : addr_t -> bool) (m0 : gmap addr_t V) (progs : gmap tid_t (list Op * L)).
Context (n : nat) (evs : list (event V L A)) (s : Machine.sys (LS := LS) (V := V) (L := L) (A := A)).
Hypothesis Hstd : forall op, no_std (body (ob_call op)).
Hypothesis Hs : Machine.steps (LS := LS) is_trivial n (Machine.init m0 (calls <$> progs)) evs s.
Hypothesis Hn : Z.of_nat n < 2 ^ 63.

Definition prog_of t : list Op := default [] (fst <$> progs !! t).

Lemma thread_part t th : Machine.ths s !! t = Some th -> exists ops vals flight,
  ops `prefix_of` prog_of t /\ Forall2 event_op ops (of_thread t evs) /\ results th = Val <$> vals /\
  e_ret <$> of_thread t evs = vals ++ flight /\ (todo th = [] -> ops = prog_of t /\ flight = []).
Proof.
  intros Ht. destruct (steps_accounted _ _ _ _ _ _ Hs t th Ht) as (p & Hpt & Hac).
  rewrite lookup_fmap in Hpt. apply fmap_Some in Hpt as (p' & Ep & ->). unfold prog_of. rewrite Ep.
  apply (thread_ops p'.1 _ th Hac). eapply steps_calm; [|exact Hs|exact Hn|exact Ht].
  intros u p Hu. rewrite lookup_fmap in Hu. apply fmap_Some in Hu as (q & _ & ->).
  apply Forall_fmap, Forall_forall. intros op _. apply Hstd.
Qed.

(** As much of the program as the thread has commits. *)
Lemma program_part t : Forall2 event_op (take (length (of_thread t evs)) (prog_of t)) (of_thread t evs).
Proof.
  destruct (of_thread t evs) as [|e es] eqn:Eo; [constructor|].
  assert (He : e ∈ of_thread t evs) by (rewrite Eo; by left). apply list_elem_of_filter in He as [<- He].
  destruct (event_thread _ _ _ _ _ _ _ Hs He) as [th Ht].
  destruct (thread_part _ _ Ht) as (ops & _ & _ & [rest E] & Hf & _). rewrite Eo in Hf.
  by rewrite <- (Forall2_length _ _ _ Hf), E, take_app_length.
Qed.

(** In an order that keeps the commits of each thread in order. *)
Lemma seen_threads order sched s0 : (forall t, of_thread t order = of_thread t evs) ->
  Forall2 commits_at sched order -> e_ret <$> order = (ob_run sched.*2 s0).1 ->
  (forall t, ops_of t sched = take (length (of_thread t order)) (prog_of t)) ->
  forall t th, Machine.ths s !! t = Some th ->
    results th `prefix_of` (Val <$> answers_of t sched s0) /\
    (todo th = [] -> results th = Val <$> answers_of t sched s0 /\ ops_of t sched = prog_of t).
Proof.
  intros Hot Hf Hr Ho t th Ht. destruct (thread_part t th Ht) as (ops & vals & flight & Hp & Hops & Er & Ee & Hd).
  rewrite (answers_of_thread sched order t s0 Hf Hr), Hot, Er, Ee. split; [rewrite fmap_app; by eexists|].
  intros Etd. destruct (Hd Etd) as [-> ->]. rewrite app_nil_r. split; [done|].
  rewrite Ho, Hot, <- (Forall2_length _ _ _ Hops). apply firstn_all.
Qed.

Lemma steps_dom t : is_Some (progs !! t) -> is_Some (Machine.ths s !! t).
Proof.
  intros Ht. remember (Machine.init m0 (calls <$> progs)) as s1 eqn:E1. clear Hn. induction Hs as [|k s1 es s2 ev s3 H3 IH Hst].
  - subst. simpl. by rewrite !lookup_fmap, !fmap_is_Some.
  - destruct Hst as [s2 u thu sh' th' ev Hu Hst]. simpl. apply lookup_insert_is_Some'. right. by apply IH.
Qed.

Lemma programs_run s0 : ob_rep m0 s0 -> (forall sched, interleaves progs sched -> admissible pre sched.*2 s0) ->
  exists sched order, interleaves progs sched /\ seen progs sched s0 s /\
    order ≡ₚ evs /\ StronglySorted (fun e1 e2 => e_wv e1 < e_wv e2) order /\ Forall2 commits_at sched order.
Proof.
  intros Hr0 Hadm. destruct (serial_order _ _ _ _ _ _ Hs Hn) as (order & m & Hp & Hsrt & Hser & Hm).
  assert (Hot : forall t, of_thread t order = of_thread t evs) by (intros t; by eapply of_thread_order).
  destruct (align event_op order (fun t => take (length (of_thread t order)) (prog_of t))) as (sched & Hf & Ho).
  { intros t. rewrite Hot. apply program_part. }
  assert (Hil : interleaves progs sched) by (intros t; rewrite Ho; apply prefix_take).
  assert (Hops : Forall2 event_op sched.*2 order) by (apply Forall2_fmap_l; eapply Forall2_impl; [exact Hf|by intros p e []]).
  destruct (serial_run s0 order _ m0 m Hr0 Hser Hops (Hadm _ Hil)) as [Hr Hrep].
  exists sched, order. split; [done|]. split; [|done]. split; [by eapply seen_threads|].
  intros Hq. by rewrite (Hm Hq).
Qed.

(** Every thread is at the end of its program. *)
Definition finished : Prop := forall t th, Machine.ths s !! t = Some th -> todo th = [].

Lemma finished_quiescent : finished -> quiescent s.
Proof.
  intros Hf t th Ht. destruct (steps_accounted _ _ _ _ _ _ Hs t th Ht) as (p & _ & Hact & _).
  specialize (Hf t th Ht). unfold active in Hact. destruct (at_pc th); try done; by apply Hact.
Qed.

(** A run to the end. *)
Lemma finished_run s0 : ob_rep m0 s0 -> (forall sched, interleaves progs sched -> admissible pre sched.*2 s0) -> finished ->
  exists sched, interleaves progs sched /\ sched.*2 ≡ₚ all_ops progs /\
    (forall t th, Machine.ths s !! t = Some th -> results th = Val <$> answers_of t sched s0 /\ ops_of t sched = prog_of t) /\
    ob_rep (mem (Machine.sh s)) (ob_run sched.*2 s0).2.
Proof.
  intros Hr0 Hadm Hf. destruct (programs_run s0 Hr0 Hadm) as (sched & order & Hil & [Hseen Hq] & _).
  exists sched. split; [done|]. split; [|split].
  - apply interleaves_complete; [done|]. intros t Ht. destruct (steps_dom t Ht) as [th Hth].
    apply (Hseen t th Hth). by eapply Hf.
  - intros t th Ht. apply (Hseen t th Ht). by eapply Hf.
  - apply Hq. by apply finished_quiescent.
Qed.

(** All that the threads got. *)
Definition all_results : list (outcome A) := map_to_list (Machine.ths s) ≫= (fun p => results p.2).

(** A run to the end, all threads together. *)
Lemma finished_total s0 : ob_rep m0 s0 -> (forall sched, interleaves progs sched -> admissible pre sched.*2 s0) -> finished ->
  exists sched, sched.*2 ≡ₚ all_ops progs /\ all_results ≡ₚ Val <$> (ob_run sched.*2 s0).1 /\
    ob_rep (mem (Machine.sh s)) (ob_run sched.*2 s0).2.
Proof.
  intros Hr0 Hadm Hf. destruct (finished_run s0 Hr0 Hadm Hf) as (sched & Hil & Hp & Hth & Hrep).
  exists sched. split; [done|]. split; [|done]. unfold all_results.
  rewrite (Forall_bind_ext _ (fun p => Val <$> (snd <$> filter (fun q => q.1 = p.1) (zip sched.*1 (ob_run sched.*2 s0).1)))).
  2:{ apply Forall_forall. intros [t th] Ht%elem_of_map_to_list. apply (Hth t th Ht). }
  assert (Hlen : length sched.*1 = length (ob_run sched.*2 s0).1) by (rewrite ob_run_length, !length_fmap; done).
  etrans; [|apply fmap_Permutation; rewrite <- (snd_zip sched.*1 (ob_run sched.*2 s0).1) by lia; reflexivity].
  rewrite <- (by_thread (Machine.ths s) (zip sched.*1 (ob_run sched.*2 s0).1)).
  - clear. induction (map_to_list (Machine.ths s)) as [|q r IH]; [done|]. rewrite !bind_cons, fmap_app. by apply Permutation_app.
  - intros [t a] Hin%elem_of_zip_l. apply steps_dom. apply list_elem_of_fmap in Hin as ([u o] & -> & Hin).
    by apply (interleaves_thread progs sched Hil u o).
Qed.

(** Programs that change nothing, run to the end. *)
Lemma finished_readers s0 : ob_rep m0 s0 -> (forall sched, interleaves progs sched -> admissible pre sched.*2 s0) -> finished ->
  Forall (fun op => (ob_apply op s0).2 = s0) (all_ops progs) ->
  forall t th, Machine.ths s !! t = Some th -> results th = Val <$> ((fun op => (ob_apply op s0).1) <$> prog_of t).
Proof.
  intros Hr0 Hadm Hf Hfix t th Ht. destruct (finished_run s0 Hr0 Hadm Hf) as (sched & _ & Hp & Hth & _).
  destruct (Hth t th Ht) as [-> Ho]. rewrite <- Hp in Hfix. by rewrite (answers_fixed t sched s0 Hfix), Ho.
Qed.
End Run.

(** A program of one thread gets the answers of its operations in order. *)
Lemma finished_one (is_trivial : addr_t -> bool) (m0 : gmap addr_t V) t (ops : list Op) lo n evs s (s0 : S) :
  (forall op, no_std (body (ob_call op))) -> ob_rep m0 s0 -> (forall ops', ops' ⊆+ ops -> admissible pre ops' s0) ->
  Machine.steps (LS := LS) is_trivial n (Machine.init m0 (calls <$> {[t := (ops, lo)]})) evs s -> Z.of_nat n < 2 ^ 63 ->
  finished s -> ob_rep (mem (Machine.sh s)) (ob_run ops s0).2 /\
  exists th, Machine.ths s !! t = Some th /\ results th = Val <$> (ob_run ops s0).1.
Proof.
  intros Hstd Hr0 Hadm Hs Hn Hf.
  destruct (finished_run is_trivial m0 {[t := (ops, lo)]} n evs s Hstd Hs Hn s0 Hr0) as (sched & Hil & _ & Hth & Hrep); [|done|].
  { intros sched Hil. apply Hadm. etrans; [exact (interleaves_all _ _ Hil)|].
    by rewrite all_ops_one. }
  destruct (interleaves_one _ _ _ _ Hil) as [E Hall].
  destruct (steps_dom is_trivial m0 {[t := (ops, lo)]} n evs s Hs t) as [th Ht]; [rewrite lookup_singleton_eq; by eexists|].
  destruct (Hth t th Ht) as [Hr Ho]. unfold prog_of in Ho. rewrite lookup_singleton_eq in Ho. simpl in Ho.
  rewrite E, Ho in Hrep. split; [done|]. exists th. split; [done|]. rewrite Hr. unfold answers_of. rewrite E, Ho.
  f_equal. assert (Hlen : length (ob_run ops s0).1 = length sched) by (rewrite ob_run_length, <- Ho, <- E; apply length_fmap).
  clear -Hall Hlen. revert Hlen. generalize (ob_run ops s0).1. induction Hall as [|p sched Hp _ IH]; intros [|a l] Hl; try done.
  rewrite fmap_cons. simpl. rewrite filter_cons_True by done. rewrite fmap_cons. f_equal. apply IH. by injection Hl.
Qed.

(** [C4] Programs over an object are linearizable, and their threads see it.  Let
    the operations of an object, run alone where their preconditions hold,
    implement the abstract operations, and let every interleaving of (parts of)
    the threads' programs meet the preconditions.  Then in any run the commits,
    in the order of their versions, are such an interleaving: each thread's
    operations occur in program order, the results it got are the answers to its
    operations in the interleaving, all of them when its program is over, and
    when no commit is half done the memory represents the state that the
    interleaving leaves. *)
Theorem programs_linearizable (is_trivial : addr_t -> bool) (m0 : gmap addr_t V)
  (progs : gmap tid_t (list Op * L)) n evs s (s0 : S) :
  (forall op, no_std (body (ob_call op))) -> ob_rep m0 s0 ->
  (forall sched, interleaves progs sched -> admissible pre sched.*2 s0) ->
  Machine.steps (LS := LS) is_trivial n (Machine.init m0 (calls <$> progs)) evs s -> Z.of_nat n < 2 ^ 63 ->
  exists sched order, interleaves progs sched /\ seen progs sched s0 s /\
    order ≡ₚ evs /\ StronglySorted (fun e1 e2 => e_wv e1 < e_wv e2) order /\ Forall2 commits_at sched order.
Proof. intros Hstd Hr0 Hadm Hs Hn. by apply (programs_run is_trivial m0 progs n). Qed.
End Programs.
