(* ===== verification/Stack.v ===== *)
(** * The stack of [.graphs/coarse_stack/coarse_stack.h]

    One [TVar] to the top node.  The fields of a node never change after its
    construction, so a pointer to a node is modelled as the list of the values
    from that node on; the null pointer is the empty list.  Nodes are never
    freed. *)

From S2P Require Import Prelude Log Tx Machine Linearize.

Module Stack.
Section Stack.
Context {T : Type} (top : addr_t).

Abbreviation pointer := (list T).

(** [new Node(x, n)]. *)
Definition Node (v : T) (n : pointer) : pointer := v :: n.

(** The variables captured by reference: [result] and [is_empty]. *)
Record captured := Captured { result : option T; is_empty : bool }.

Inductive op := Push (x : T) | TryPop | Empty.
Inductive value := Void | Popped (r : option T) | IsEmpty (b : bool).

Abbreviation body_t := (tx pointer captured value).

Definition push (x : T) : body_t :=
  Read top (fun old_top => Write top (Node x old_top) (Ret Void)).

(** [return result] after the call. *)
Definition return_result : body_t := GetL (fun lo => Ret (Popped (result lo))).
Definition set_result (r : option T) (k : body_t) : body_t :=
  GetL (fun lo => SetL (Captured r (is_empty lo)) k).

Definition try_pop : body_t :=
  Read top (fun old_top =>
    match old_top with
    | [] => set_result None return_result
    | value :: next => set_result (Some value) (Write top next return_result)
    end).

Definition empty : body_t :=
  Read top (fun t =>
    GetL (fun lo => SetL (Captured (result lo) (match t with [] => true | _ => false end))
      (GetL (fun lo' => Ret (IsEmpty (is_empty lo')))))).

(** The call of each method: what is set before, the body; no arguments are
    passed to [atomically], so a retry restores nothing. *)
Definition call (o : op) : txn pointer captured value :=
  let keep := fun (_ now : captured) => now in
  match o with
  | Push x => Txn id (push x) keep
  | TryPop => Txn (fun lo => Captured None (is_empty lo)) try_pop keep
  | Empty => Txn (fun lo => Captured (result lo) false) empty keep
  end.

(** The abstract stack. *)
Definition apply (o : op) (s : list T) : value * list T :=
  match o with
  | Push x => (Void, x :: s)
  | TryPop => (Popped (head s), tail s)
  | Empty => (IsEmpty (match s with [] => true | _ => false end), s)
  end.

#[export] Instance stack_object : TxObject pointer captured value op (list T) := {
  ob_call := call;
  ob_init _ _ := True;
  ob_rep m s := m !! top = Some s;
  ob_apply := apply }.

#[export] Instance stack_laws : TxObjectLaws pointer captured value op (list T).
Proof.
  constructor; [done|done|]. intros o lo m s _ Hr. simpl in *.
  destruct o as [x| |]; cbn [call body push try_pop empty Tx.run]; rewrite Hr.
  - eexists _, _. split; [done|]. apply lookup_insert_eq.
  - destruct s as [|x s]; simpl; eexists _, _; (split; [done|]); [done|apply lookup_insert_eq].
  - eexists _, _. split; [done|done].
Qed.
End Stack.
Arguments op : clear implicits.
Arguments captured : clear implicits.
Arguments value : clear implicits.
End Stack.
