(* ===== verification/BQueue.v ===== *)
(** * The bounded queues of [.graphs]

    [bounded_queue/bounded_queue.h], and the queue of [queue/batch_bench.cc]
    which is the same code with other names: a ring of [TVar]s between two
    counters of type [size_t] that only grow, modulo 2^64.  When a counter wraps, the
    index of a position jumps unless the capacity divides 2^64: for another
    capacity (1000 in the profiler) the queue has room for so many more
    enqueues. *)

From S2P Require Import Prelude Log Tx Machine Linearize.

Module BQueue.

(** What a [TVar] of the queue holds: an element or a counter. *)
Inductive cell (T : Type) := Item (x : T) | Size (n : Z).
Arguments Item {T} _.
Arguments Size {T} _.

(** Where the [TVar]s are. *)
Record layout := Layout { capacity : Z; head_at : addr_t; tail_at : addr_t; item_at : Z -> addr_t }.

Record layout_ok (q : layout) : Prop := {
  ok_cap : 0 < capacity q < W64.modulus;
  ok_head_tail : head_at q <> tail_at q;
  ok_head_item i : head_at q <> item_at q i;
  ok_tail_item i : tail_at q <> item_at q i;
  ok_item_inj i j : 0 <= i < capacity q -> 0 <= j < capacity q -> item_at q i = item_at q j -> i = j }.

Section Queue.
Context {T : Type} (default_item : T) (q : layout).
Abbreviation cap := (capacity q).

(** The captured variables of the methods. *)
Record captured := Captured { success : bool; out : T; size_var : Z }.

Inductive op :=
| TryEnq (x : T) | TryDeq | DeqTx | SizeOp
| ProfileEnq (x : T) | ProfileDeq | BatchEnqueue (x : T) | BatchDequeue.
Inductive value := Enqueued (b : bool) | Dequeued (b : bool) (x : T) | SizeIs (n : Z).
Abbreviation body_t := (tx (cell T) captured value).

(** [static_cast<size_t>(tvar)] and [static_cast<T>(items[i])]: a [TVar] of the
    one type never holds a value of the other. *)
Definition read_size (x : addr_t) (k : Z -> body_t) : body_t :=
  Read x (fun c => match c with Size n => k n | Item _ => Throw (other_exception 1) end).
Definition read_item (i : Z) (k : T -> body_t) : body_t :=
  Read (item_at q i) (fun c => match c with Item x => k x | Size _ => Throw (other_exception 1) end).

Definition enq_tx (x : T) (k : bool -> body_t) : body_t :=
  read_size (head_at q) (fun h => read_size (tail_at q) (fun t =>
    if W64.wrap (t - h) =? cap then k false
    else Write (item_at q (t mod cap)) (Item x) (Write (tail_at q) (Size (W64.wrap (t + 1))) (k true)))).

Definition deq_tx (k : bool * T -> body_t) : body_t :=
  read_size (head_at q) (fun h => read_size (tail_at q) (fun t =>
    if t =? h then k (false, default_item)
    else read_item (h mod cap) (fun result => Write (head_at q) (Size (W64.wrap (h + 1))) (k (true, result))))).

Definition set_captured (f : captured -> captured) (k : body_t) : body_t :=
  GetL (fun lo => SetL (f lo) k).

(** [success = enq_tx(x)], and [return success] after the call. *)
Definition set_success (b : bool) : body_t :=
  set_captured (fun lo => Captured b (out lo) (size_var lo)) (GetL (fun lo => Ret (Enqueued (success lo)))).
Definition try_enq (x : T) : body_t := enq_tx x set_success.

(** [out] and [success] are assigned when there is an element, and only then. *)
Definition set_out (res : bool * T) : body_t :=
  let return_success := GetL (fun lo => Ret (Dequeued (success lo) (out lo))) in
  if res.1 then set_captured (fun lo => Captured true res.2 (size_var lo)) return_success
  else return_success.
Definition try_deq : body_t := deq_tx set_out.

(** *** The other two copies *)

(** [perf/profile_queue.cc]: [success] and [result] are assigned on both branches. *)
Definition profile_try_enq (x : T) : body_t :=
  read_size (head_at q) (fun h => read_size (tail_at q) (fun t =>
    if W64.wrap (t - h) =? cap then set_success false
    else Write (item_at q (t mod cap)) (Item x) (Write (tail_at q) (Size (W64.wrap (t + 1))) (set_success true)))).

Definition set_result (res : bool * T) : body_t :=
  set_captured (fun lo => Captured res.1 res.2 (size_var lo)) (GetL (fun lo => Ret (Dequeued (success lo) (out lo)))).

Definition profile_try_deq : body_t :=
  read_size (head_at q) (fun h => read_size (tail_at q) (fun t =>
    if t =? h then set_result (false, default_item)
    else read_item (h mod cap) (fun result =>
      Write (head_at q) (Size (W64.wrap (h + 1))) (set_result (true, result))))).

(** [queue/batch_bench.cc]: both are assigned only on success. *)
Definition batch_set_success (b : bool) : body_t :=
  let return_success := GetL (fun lo => Ret (Enqueued (success lo))) in
  if b then set_captured (fun lo => Captured true (out lo) (size_var lo)) return_success else return_success.

Definition batch_try_enqueue (x : T) : body_t :=
  read_size (head_at q) (fun h => read_size (tail_at q) (fun t =>
    if W64.wrap (t - h) =? cap then batch_set_success false
    else Write (item_at q (t mod cap)) (Item x)
           (Write (tail_at q) (Size (W64.wrap (t + 1))) (batch_set_success true)))).

Definition batch_try_dequeue : body_t :=
  read_size (head_at q) (fun h => read_size (tail_at q) (fun t =>
    if t =? h then set_out (false, default_item)
    else read_item (h mod cap) (fun result =>
      Write (head_at q) (Size (W64.wrap (h + 1))) (set_out (true, result))))).

(** [atomically([&] { return deq_tx(); })]. *)
Definition deq_body : body_t := deq_tx (fun res => Ret (Dequeued res.1 res.2)).

Definition size_body : body_t :=
  read_size (tail_at q) (fun t => read_size (head_at q) (fun h =>
    set_captured (fun lo => Captured (success lo) (out lo) (W64.wrap (t - h)))
      (GetL (fun lo => Ret (SizeIs (size_var lo)))))).

(** No captured variable is passed to [atomically]: a retry restores nothing. *)
Definition call (o : op) : txn (cell T) captured value :=
  let keep := fun (_ now : captured) => now in
  let fresh := fun lo => Captured false (out lo) (size_var lo) in      (* bool success = false *)
  match o with
  | TryEnq x => Txn fresh (try_enq x) keep
  | TryDeq => Txn fresh try_deq keep
  | DeqTx => Txn id deq_body keep
  | SizeOp => Txn id size_body keep
  | ProfileEnq x => Txn fresh (profile_try_enq x) keep
  | ProfileDeq => Txn fresh profile_try_deq keep
  | BatchEnqueue x => Txn fresh (batch_try_enqueue x) keep
  | BatchDequeue => Txn fresh batch_try_dequeue keep
  end.

(** The abstract queue. *)
Definition apply (o : op) (s : list T) : value * list T :=
  match o with
  | TryEnq x | ProfileEnq x | BatchEnqueue x =>
      if Z.of_nat (length s) =? cap then (Enqueued false, s) else (Enqueued true, s ++ [x])
  | TryDeq | DeqTx | ProfileDeq | BatchDequeue =>
      match s with [] => (Dequeued false default_item, []) | x :: r => (Dequeued true x, r) end
  | SizeOp => (SizeIs (Z.of_nat (length s)), s)
  end.

(** What a call answers from captured variables [lo], which a retry finds as the
    attempt before left them: a dequeue that assigns only on success answers an
    empty queue with them, and so does the batch enqueue a full one. *)
Definition answer_from (o : op) (lo : captured) (s : list T) : value :=
  match o, s with
  | (TryDeq | BatchDequeue), [] => Dequeued (success lo) (out lo)
  | BatchEnqueue _, _ => Enqueued (if Z.of_nat (length s) =? cap then success lo else true)
  | _, _ => (apply o s).1
  end.

(** What a caller looks at: not the element of a dequeue that failed. *)
Definition seen (v : value) : value :=
  match v with Dequeued false _ => Dequeued false default_item | _ => v end.

(** No index jumps: the capacity divides 2^64, or the counters are below it for
    [room] more enqueues. *)
Definition divides : Prop := (cap | W64.modulus).
Definition no_jump (h : Z) (s : list T) (room : Z) : Prop :=
  divides \/ 0 <= room /\ h + Z.of_nat (length s) + room < W64.modulus.

(** The elements of the queue are at the positions from the head on. *)
Record rep (m : gmap addr_t (cell T)) (s : list T) (room : Z) : Prop := {
  rep_cap : Z.of_nat (length s) <= cap;
  rep_ring : exists h, W64.in_range h /\ m !! head_at q = Some (Size h) /\
    m !! tail_at q = Some (Size (W64.wrap (h + Z.of_nat (length s)))) /\
    (forall (i : nat) x, s !! i = Some x -> m !! item_at q ((h + Z.of_nat i) mod cap) = Some (Item x)) /\
    no_jump h s room }.

(** An enqueue uses room, when it is needed. *)
Definition is_enq (o : op) : bool := match o with TryEnq _ | ProfileEnq _ | BatchEnqueue _ => true | _ => false end.
Definition room_for (o : op) (room : Z) : Prop := divides \/ (is_enq o = true -> 0 < room).
Definition room_after (o : op) (room : Z) : Z := if is_enq o then room - 1 else room.

Context (Hq : layout_ok q).

Lemma wrap_index z : divides \/ W64.in_range z -> W64.wrap z mod cap = z mod cap.
Proof.
  intros [[d Hd]|Hz]; [|by rewrite W64.wrap_small]. pose proof (ok_cap _ Hq). unfold W64.wrap.
  rewrite (Z.mod_eq z W64.modulus) by (unfold W64.modulus; lia). rewrite Hd.
  replace (z - d * cap * (z / (d * cap))) with (z + (- d * (z / (d * cap))) * cap) by ring.
  apply Z.mod_add. lia.
Qed.

Lemma wrap_distance h n : 0 <= n < W64.modulus -> W64.wrap (W64.wrap (h + n) - h) = n.
Proof.
  intros Hn. unfold W64.wrap. rewrite Zminus_mod_idemp_l. replace (h + n - h) with n by ring.
  by apply Z.mod_small.
Qed.

Lemma wrap_next z : W64.wrap (W64.wrap z + 1) = W64.wrap (z + 1).
Proof. unfold W64.wrap. apply Zplus_mod_idemp_l. Qed.

Lemma item_ne h i j : 0 <= i < cap -> 0 <= j < cap -> i <> j ->
  item_at q ((h + i) mod cap) <> item_at q ((h + j) mod cap).
Proof.
  intros Hi Hj Hne E. pose proof (ok_cap _ Hq). apply Hne.
  apply (ok_item_inj _ Hq) in E; [|apply Z.mod_pos_bound; lia..].
  pose proof (Z.div_mod (h + i) cap ltac:(lia)) as D1. pose proof (Z.div_mod (h + j) cap ltac:(lia)) as D2.
  rewrite E in D1. assert (Ed : (h + i) / cap = (h + j) / cap) by nia. lia.
Qed.

Context (m : gmap addr_t (cell T)) (s : list T) (room : Z) (Hr : rep m s room).

Lemma full_test h t : m !! head_at q = Some (Size h) -> m !! tail_at q = Some (Size t) ->
  W64.wrap (t - h) = Z.of_nat (length s) /\ (t =? h) = match s with [] => true | _ => false end.
Proof.
  destruct Hr as [Hc (h0 & Hh & Eh & Et & _)]. pose proof (ok_cap _ Hq) as Hcap.
  intros E1 E2. rewrite Eh in E1. rewrite Et in E2. injection E1 as <-. injection E2 as <-. 
  rewrite wrap_distance by lia. split; [done|]. destruct s as [|x r]; simpl length in *.
  - rewrite Z.add_0_r, W64.wrap_small by done. apply Z.eqb_refl.
  - apply Z.eqb_neq. intros E.
    pose proof (wrap_distance h0 (Z.of_nat (S (length r))) ltac:(lia)) as Hd.
    rewrite E, Z.sub_diag, W64.wrap_small in Hd by (unfold W64.in_range, W64.modulus; lia). lia.
Qed.

(** The memory after [enq_tx]. *)
Lemma rep_enq x h t : m !! head_at q = Some (Size h) -> m !! tail_at q = Some (Size t) ->
  Z.of_nat (length s) <> cap -> divides \/ 0 < room ->
  rep (<[tail_at q := Size (W64.wrap (t + 1))]> (<[item_at q (t mod cap) := Item x]> m)) (s ++ [x]) (room - 1).
Proof.
  destruct Hr as [Hc (h0 & Hh & Eh & Et & Hi & Hj)]. pose proof (ok_cap _ Hq) as Hcap.
  intros E1 E2 Hne Hroom. rewrite Eh in E1. rewrite Et in E2. injection E1 as <-. injection E2 as <-.
  assert (Hlen : length (s ++ [x]) = S (length s)) by (rewrite length_app; simpl; lia).
  constructor; [rewrite Hlen; lia|]. exists h0. split; [done|].
  split; [rewrite !lookup_insert_ne by (apply not_eq_sym, Hq); done|].
  split; [rewrite lookup_insert_eq, wrap_next, Hlen; do 3 f_equal; lia|]. split.
  - intros i y Hy. rewrite lookup_insert_ne by apply Hq. rewrite wrap_index.
    2:{ destruct Hj as [?|Hj]; [by left|right]. unfold W64.in_range in *. lia. }
    destruct (decide (i = length s)) as [->|Hil].
    + rewrite lookup_app_r, Nat.sub_diag in Hy by done. injection Hy as <-. apply lookup_insert_eq.
    + pose proof (lookup_lt_Some _ _ _ Hy) as Hlt. rewrite Hlen in Hlt.
      rewrite lookup_insert_ne by (apply item_ne; lia). rewrite lookup_app_l in Hy by lia. by apply Hi.
  - unfold no_jump in *. rewrite Hlen. destruct Hj as [?|Hj]; [by left|]. destruct Hroom as [?|?]; [by left|right]. lia.
Qed.

(** The memory after [deq_tx]. *)
Lemma rep_deq x r h : s = x :: r -> m !! head_at q = Some (Size h) ->
  m !! item_at q (h mod cap) = Some (Item x) /\ rep (<[head_at q := Size (W64.wrap (h + 1))]> m) r room.
Proof.
  destruct Hr as [Hc (h0 & Hh & Eh & Et & Hi & Hj)]. pose proof (ok_cap _ Hq) as Hcap.
  intros -> E1. rewrite Eh in E1. injection E1 as <-. unfold no_jump in *. simpl length in *. split.
  - specialize (Hi 0%nat x eq_refl). by rewrite Z.add_0_r in Hi.
  - constructor; [lia|]. exists (W64.wrap (h0 + 1)). split; [apply W64.wrap_range|].
    split; [apply lookup_insert_eq|]. split; [|split].
    + rewrite lookup_insert_ne by apply Hq. rewrite Et. do 2 f_equal. unfold W64.wrap.
      rewrite Zplus_mod_idemp_l. f_equal. lia.
    + intros i y Hy. rewrite lookup_insert_ne by apply Hq. specialize (Hi (S i) y Hy). rewrite <- Hi. do 2 f_equal.
      rewrite Z.add_mod, wrap_index, <- Z.add_mod by first [lia|destruct Hj as [?|Hj]; [by left|right; unfold W64.in_range in *; lia]].
      f_equal. lia.
    + destruct Hj as [?|Hj]; [by left|right]. rewrite W64.wrap_small by (unfold W64.in_range in *; lia). lia.
Qed.

(** Less room will do. *)
Lemma rep_room o : room_for o room -> rep m s (room_after o room).
Proof.
  destruct Hr as [Hc (h & Hh & Eh & Et & Hi & Hj)]. intros Ho. constructor; [done|]. exists h. repeat (split; [done|]).
  unfold no_jump, room_for, room_after in *. destruct Hj as [?|Hj]; [by left|]. destruct Ho as [?|Ho]; [by left|right].
  destruct (is_enq o); [specialize (Ho eq_refl)|]; lia.
Qed.
End Queue.
Arguments captured : clear implicits.
Arguments op : clear implicits.
Arguments value : clear implicits.

Section Object.
Context {T : Type} (default_item : T) (q : layout) (Hq : layout_ok q).
Abbreviation cap := (capacity q).

Lemma rep_counters m (s : list T) room : rep q m s room -> exists h t,
  m !! head_at q = Some (Size h) /\ m !! tail_at q = Some (Size t) /\
  W64.wrap (t - h) = Z.of_nat (length s) /\ (t =? h) = match s with [] => true | _ => false end.
Proof.
  intros Hr. pose proof Hr as [Hc (h & Hh & Eh & Et & _)]. eexists h, _. split; [done|]. split; [exact Et|].
  by apply (full_test q Hq m s room Hr).
Qed.

Lemma run_enq_tx x (k : bool -> tx (cell T) (captured T) (value T)) lo m (s : list T) room :
  rep q m s room -> divides q \/ 0 < room ->
  exists m', Tx.run (enq_tx q x k) lo m = Tx.run (k (negb (Z.of_nat (length s) =? cap))) lo m' /\
    rep q m' (if Z.of_nat (length s) =? cap then s else s ++ [x]) (room - 1).
Proof.
  intros Hr Hroom. destruct (rep_counters m s room Hr) as (h & t & Eh & Et & Ed & _).
  unfold enq_tx, read_size. cbn [Tx.run]. rewrite Eh. cbn [Tx.run]. rewrite Et, Ed.
  destruct (Z.eqb_spec (Z.of_nat (length s)) cap) as [E|E].
  - exists m. split; [done|]. apply (rep_room q m s room Hr (TryEnq x)). destruct Hroom; [by left|by right].
  - eexists. split; [reflexivity|]. by apply (rep_enq q Hq m s room Hr x h t).
Qed.

Lemma run_deq_tx (k : bool * T -> tx (cell T) (captured T) (value T)) lo m (s : list T) room : rep q m s room ->
  exists m', Tx.run (deq_tx default_item q k) lo m =
      Tx.run (k (match s with [] => (false, default_item) | x :: _ => (true, x) end)) lo m' /\
    rep q m' (tail s) room.
Proof.
  intros Hr. destruct (rep_counters m s room Hr) as (h & t & Eh & Et & _ & Ee).
  unfold deq_tx, read_size, read_item. cbn [Tx.run]. rewrite Eh. cbn [Tx.run]. rewrite Et, Ee.
  destruct s as [|x r]; [by exists m|].
  destruct (rep_deq q Hq m _ room Hr x r h eq_refl Eh) as [Ei Hr']. cbn [Tx.run]. rewrite Ei. by eexists.
Qed.

(** The copies inline the transactions of the first one. *)
Lemma profile_try_enq_eq (x : T) : profile_try_enq q x = try_enq q x.
Proof. done. Qed.
Lemma profile_try_deq_eq : profile_try_deq default_item q = deq_tx default_item q (set_result (T := T)).
Proof. done. Qed.
Lemma batch_enqueue_eq (x : T) : batch_try_enqueue q x = enq_tx q x batch_set_success.
Proof. done. Qed.
Lemma batch_dequeue_eq : batch_try_dequeue default_item q = deq_tx default_item q (set_out (T := T)).
Proof. done. Qed.

(** The four dequeues differ in what they make of the pair [deq_tx] returns, and
    the three enqueues in what they make of the boolean. *)
Definition deq_answer (o : op T) : option (bool * T -> tx (cell T) (captured T) (value T)) :=
  match o with
  | TryDeq | BatchDequeue => Some set_out
  | DeqTx => Some (fun res => Ret (Dequeued res.1 res.2))
  | ProfileDeq => Some set_result
  | _ => None
  end.
Definition enq_answer (o : op T) : option (T * (bool -> tx (cell T) (captured T) (value T))) :=
  match o with
  | TryEnq x | ProfileEnq x => Some (x, set_success)
  | BatchEnqueue x => Some (x, batch_set_success)
  | _ => None
  end.

(** A call from any captured variables, on any attempt. *)
Lemma run_call (o : op T) lo m (s : list T) room : rep q m s room -> room_for q o room ->
  exists lo' m', Tx.run (body (call default_item q o)) lo m = Some (Val (answer_from default_item q o lo s), lo', m') /\
    rep q m' (apply default_item q o s).2 (room_after o room).
Proof.
  intros Hr Ho.
  assert (Hdeq : forall k, deq_answer o = Some k -> exists m',
    Tx.run (deq_tx default_item q k) lo m =
      Tx.run (k (match s with [] => (false, default_item) | x :: _ => (true, x) end)) lo m' /\ rep q m' (tail s) room)
    by (intros k _; by apply run_deq_tx).
  assert (Henq : forall x k, enq_answer o = Some (x, k) -> exists m',
    Tx.run (enq_tx q x k) lo m = Tx.run (k (negb (Z.of_nat (length s) =? cap))) lo m' /\
    rep q m' (if Z.of_nat (length s) =? cap then s else s ++ [x]) (room - 1)).
  { intros x k Hk. apply run_enq_tx; [done|]. destruct Ho as [?|Ho]; [by left|right].
    apply Ho. by destruct o. }
  destruct o as [x| | | |x| |x|]; cbn [enq_answer deq_answer] in *; cbn [call body apply answer_from room_after is_enq].
  1,5,7: destruct (Henq _ _ eq_refl) as (m' & Erun & Hr');
    rewrite ?profile_try_enq_eq, ?batch_enqueue_eq; unfold try_enq; rewrite Erun;
    destruct (Z.of_nat (length s) =? cap); by eexists _, _.
  3: destruct (rep_counters m s room Hr) as (h & t & Eh & Et & Ed & _);
    unfold size_body, read_size; cbn [Tx.run]; rewrite Et; cbn [Tx.run]; rewrite Eh; cbn; rewrite Ed; by eexists _, _.
  all: destruct (Hdeq _ eq_refl) as (m' & Erun & Hr');
    rewrite ?profile_try_deq_eq, ?batch_dequeue_eq; unfold try_deq, deq_body; rewrite Erun; destruct s; by eexists _, _.
Qed.

(** On its first attempt every call answers as the abstract queue. *)
Lemma first_answer (o : op T) lo (s : list T) :
  seen default_item (answer_from default_item q o (prepare (call default_item q o) lo) s) = (apply default_item q o s).1.
Proof.
  destruct o as [x| | | |x| |x|]; cbn [answer_from apply call prepare success out]; try done; try by destruct s.
  all: by destruct (_ =? cap).
Qed.

(** The operations that assign what they return on every branch: [try_enq], the
    batch operation [deq_tx] in a transaction, [size] and the two methods of the
    profiler's copy. *)
Inductive safe_op := SafeEnq (x : T) | SafeDeq | SafeSize | SafeProfileEnq (x : T) | SafeProfileDeq.
Definition op_of (o : safe_op) : op T :=
  match o with
  | SafeEnq x => TryEnq x | SafeDeq => DeqTx | SafeSize => SizeOp
  | SafeProfileEnq x => ProfileEnq x | SafeProfileDeq => ProfileDeq
  end.

Lemma safe_answer (o : safe_op) lo (s : list T) :
  answer_from default_item q (op_of o) lo s = (apply default_item q (op_of o) s).1.
Proof. by destruct o. Qed.

(** The object, with the room that is left. *)
#[export] Instance queue_object : TxObject (cell T) (captured T) (value T) safe_op (list T * Z) := {
  ob_call o := call default_item q (op_of o);
  ob_init _ _ := True;
  ob_rep m s := rep q m s.1 s.2;
  ob_apply o s := let r := apply default_item q (op_of o) s.1 in (r.1, (r.2, room_after (op_of o) s.2)) }.

#[export] Instance queue_laws : TxGuardedLaws (cell T) (captured T) (value T) safe_op (list T * Z)
  (fun o s => room_for q (op_of o) s.2).
Proof.
  constructor; [done|done|]. intros o lo m [s room] _ Hr Ho.
  destruct (run_call (op_of o) lo m s room Hr Ho) as (lo' & m' & E & Hr'). rewrite safe_answer in E. by exists lo', m'.
Qed.

(** [C18] The bounded queues are FIFO queues.  From a memory that holds the
    elements [s] in a ring whose capacity divides 2^64, or whose counters do not
    reach 2^64, each of the eight calls of the three copies, run alone, leaves a
    memory that holds the elements the abstract queue is left with, also when
    the counters of a ring of the first kind wrap around.  Its first attempt
    answers as the abstract queue does (full, empty, the first element, the
    size; the element of a failed dequeue is not looked at).  Any attempt,
    whatever an attempt before left in the captured variables, answers as
    [answer_from] says; for [try_enq], [deq_tx] in a transaction, [size] and
    the profiler's two methods, which assign on every branch, that is the
    abstract queue's answer again. *)
Theorem bounded_queue_refines (o : op T) m (s : list T) room : rep q m s room -> room_for q o room ->
  (forall lo, exists v lo' m',
    Tx.run (body (call default_item q o)) (prepare (call default_item q o) lo) m = Some (Val v, lo', m') /\
    seen default_item v = (apply default_item q o s).1 /\
    rep q m' (apply default_item q o s).2 (room_after o room)) /\
  (forall lo, exists lo' m',
    Tx.run (body (call default_item q o)) lo m = Some (Val (answer_from default_item q o lo s), lo', m') /\
    rep q m' (apply default_item q o s).2 (room_after o room)) /\
  (forall so lo, o = op_of so -> answer_from default_item q o lo s = (apply default_item q o s).1).
Proof.
  intros Hr Ho. split_and!.
  - intros lo. destruct (run_call o (prepare (call default_item q o) lo) m s room Hr Ho) as (lo' & m' & E & Hr').
    eexists _, lo', m'. split; [exact E|]. split; [apply first_answer|done].
  - intros lo. by apply run_call.
  - intros so lo ->. apply safe_answer.
Qed.
End Object.
End BQueue.
