(* ===== verification/QueueRuns.v ===== *)
(** * The bounded queue under threads

    [perf/profile_queue.cc]: a producer and a consumer on the ring of [BQueue],
    each call in a loop until it succeeds.  The turns that the loops took are
    arguments, and what the calls answered in them (all false but the last) is
    what it means that the loops ended.  For any threads: what was enqueued is
    what was dequeued and what is left, in order.  Then the three benchmarks of
    [.graphs/queue/batch_bench.cc]: transactions of many calls, calls of which most
    dequeue, and a queue for each thread. *)

From S2P Require Import Prelude VersionLock LockTable Store Op LocSets Log Tx State LockGuard Machine History MachineInv Serializability Order Linearize Programs BQueue.
Import History BQueue.

Module QueueRuns.
Section Queue.
Context {T : Type} (default_item : T) (q : layout) (Hq : layout_ok q).
Implicit Types (s : list T) (ops : list (safe_op (T := T))).

#[local] Existing Instance queue_object.
Abbreviation object := (queue_object default_item q).
Abbreviation laws := (queue_laws default_item q Hq).

(** What a call put into the queue, and what it took out. *)
Definition enqueued (p : safe_op (T := T) * value T) : option T :=
  match p with
  | (SafeEnq x, Enqueued true) | (SafeProfileEnq x, Enqueued true) => Some x
  | _ => None
  end.
Definition dequeued (p : safe_op (T := T) * value T) : option T :=
  match p with
  | (SafeDeq, Dequeued true x) | (SafeProfileDeq, Dequeued true x) => Some x
  | _ => None
  end.

(** First in, first out. *)
Lemma queue_fifo ops s room : let '(r, s') := ob_run (H := object) ops (s, room) in
  s ++ omap enqueued (zip ops r) = omap dequeued (zip ops r) ++ s'.1.
Proof.
  revert s room. induction ops as [|o ops IH]; intros s room; cbn [ob_run]; [simpl; by rewrite app_nil_r|].
  change (ob_apply o (s, room)) with (let r := apply default_item q (op_of o) s in (r.1, (r.2, room_after (op_of o) room))).
  destruct (apply default_item q (op_of o) s) as [v s1] eqn:E. cbn [fst snd].
  specialize (IH s1 (room_after (op_of o) room)).
  destruct (ob_run ops _) as [r s']. cbn [zip_with omap list_omap].
  destruct o as [x| | |x|]; cbn [apply op_of] in E.
  - destruct (_ =? _); injection E as <- <-; cbn; [done|]. by rewrite <- IH, <- app_assoc.
  - destruct s as [|y s]; injection E as <- <-; cbn; [done|]. by f_equal.
  - injection E as <- <-; done.
  - destruct (_ =? _); injection E as <- <-; cbn; [done|]. by rewrite <- IH, <- app_assoc.
  - destruct s as [|y s]; injection E as <- <-; cbn; [done|]. by f_equal.
Qed.

(** Room for every call is enough. *)
Lemma queue_admissible ops s room : divides q \/ Z.of_nat (length ops) <= room ->
  admissible (H := object) (fun o st => room_for q (op_of o) st.2) ops (s, room).
Proof.
  revert s room. induction ops as [|o ops IH]; intros s room Hroom; [done|]. split.
  - destruct Hroom as [?|Hl]; [by left|right]. intros _. simpl in *. lia.
  - apply (IH (apply default_item q (op_of o) s).2 (room_after (op_of o) room)).
    destruct Hroom as [?|Hl]; [by left|right]. unfold room_after. simpl in Hl. destruct (is_enq _); lia.
Qed.

Abbreviation no_std_t := (no_std (V := cell T) (L := captured T) (A := value T)).

Lemma read_size_no_std x k : (forall n, no_std_t (k n)) -> no_std_t (read_size x k).
Proof. intros Hk [y|n]; [done|apply Hk]. Qed.

Lemma read_item_no_std i k : (forall y, no_std_t (k y)) -> no_std_t (read_item q i k).
Proof. intros Hk [y|n]; [apply Hk|done]. Qed.

Lemma enq_tx_no_std x k : (forall b, no_std_t (k b)) -> no_std_t (enq_tx q x k).
Proof. intros Hk. do 2 (apply read_size_no_std; intros ?). destruct (_ =? _); apply Hk. Qed.

Lemma deq_tx_no_std k : (forall r, no_std_t (k r)) -> no_std_t (deq_tx default_item q k).
Proof. intros Hk. do 2 (apply read_size_no_std; intros ?). destruct (_ =? _); [apply Hk|]. apply read_item_no_std. intros y. apply Hk. Qed.

Lemma bounded_no_std o : no_std (body (ob_call (TxObject := object) o)).
Proof.
  destruct o as [x| | |x|]; cbn [ob_call queue_object op_of call body].
  - by apply enq_tx_no_std.
  - by apply deq_tx_no_std.
  - by do 2 (apply read_size_no_std; intros ?).
  - rewrite profile_try_enq_eq. by apply enq_tx_no_std.
  - rewrite profile_try_deq_eq. by apply deq_tx_no_std.
Qed.

Section Threads.
Context {LS : Type} `{LocationSetLaws LS}.
Abbreviation sys := (Machine.sys (LS := LS) (V := cell T) (L := captured T) (A := value T)).

(** Any programs, run to the end. *)
Lemma queue_threads (is_trivial : addr_t -> bool) m0 progs n evs (s : sys) l room :
  rep q m0 l room -> divides q \/ Z.of_nat (length (all_ops progs)) <= room ->
  Machine.steps (LS := LS) is_trivial n (Machine.init m0 (calls (H1 := object) <$> progs)) evs s ->
  Z.of_nat n < 2 ^ 63 -> finished s ->
  exists sched l' room', interleaves progs sched /\
    (forall t th, Machine.ths s !! t = Some th ->
       results th = Val <$> answers_of (H1 := object) t sched (l, room) /\ ops_of t sched = prog_of progs t) /\
    l ++ omap enqueued (zip sched.*2 (ob_run (H := object) sched.*2 (l, room)).1) =
      omap dequeued (zip sched.*2 (ob_run (H := object) sched.*2 (l, room)).1) ++ l' /\
    rep q (mem (Machine.sh s)) l' room'.
Proof.
  intros Hr Hroom Hs Hn Hf.
  destruct (finished_run (H2 := laws) is_trivial m0 progs n evs s bounded_no_std Hs Hn (l, room) Hr)
    as (sched & Hil & _ & Hth & Hrep); [|done|].
  { intros sched Hil%interleaves_all%submseteq_length. apply queue_admissible. destruct Hroom; [by left|right; lia]. }
  exists sched, (ob_run (H := object) sched.*2 (l, room)).2.1, (ob_run (H := object) sched.*2 (l, room)).2.2.
  split; [done|]. split; [done|]. split; [|exact Hrep].
  pose proof (queue_fifo sched.*2 l room) as Hfifo. by destruct (ob_run sched.*2 (l, room)).
Qed.

(** ** A producer and a consumer *)

(** [while (!q.try_enq(i)) {}] for the items in order, each with the number of
    attempts that fail, and the answers of the calls. *)
Definition produce (p : list (T * nat)) : list (safe_op (T := T)) :=
  p ≫= (fun c => replicate (S c.2) (SafeProfileEnq c.1)).
Definition produced (p : list (T * nat)) : list (value T) :=
  p ≫= (fun c => replicate c.2 (Enqueued false) ++ [Enqueued true]).

(** [while (!(x = q.try_deq())) {}]: what each loop got, and its turns. *)
Definition consume (c : list (T * nat)) : list (safe_op (T := T)) :=
  c ≫= (fun c => replicate (S c.2) SafeProfileDeq).
Definition consumed (c : list (T * nat)) : list (value T) :=
  c ≫= (fun c => replicate c.2 (Dequeued false default_item) ++ [Dequeued true c.1]).

Definition producer_consumer (p c : list (T * nat)) (lo1 lo2 : captured T) :
    gmap tid_t (list (safe_op (T := T)) * captured T) :=
  {[1%nat := (produce p, lo1); 2%nat := (consume c, lo2)]}.

Lemma zip_replicate {X Y} (x : X) (y : Y) k (xs : list X) ys : zip (replicate (S k) x ++ xs) (replicate k y ++ ys) =
  replicate k (x, y) ++ zip (x :: xs) ys.
Proof. induction k as [|k IH]; [done|]. cbn [replicate app zip_with]. f_equal. exact IH. Qed.

Lemma omap_replicate_none {X Y} (f : X -> option Y) x k l : f x = None -> omap f (replicate k x ++ l) = omap f l.
Proof. intros E. induction k as [|k IH]; [done|]. cbn [replicate app omap list_omap]. by rewrite E. Qed.

Lemma produced_items p : omap enqueued (zip (produce p) (produced p)) = p.*1.
Proof.
  induction p as [|[x k] p IH]; [done|]. unfold produce, produced. rewrite !bind_cons, <- app_assoc.
  rewrite zip_replicate, omap_replicate_none by done. rewrite fmap_cons, <- IH. done.
Qed.

Lemma consumed_items c : omap dequeued (zip (consume c) (consumed c)) = c.*1.
Proof.
  induction c as [|[x k] c IH]; [done|]. unfold consume, consumed. rewrite !bind_cons, <- app_assoc.
  rewrite zip_replicate, omap_replicate_none by done. rewrite fmap_cons, <- IH. done.
Qed.

Lemma val_inj (l l' : list (value T)) : Val <$> l = Val (A := value T) <$> l' -> l = l'.
Proof. apply list_fmap_eq_inj. intros x y [=]. done. Qed.

(** [C19] The consumer gets what the producer produced, in order.  [profile_queue.cc]
    on an empty ring whose capacity divides 2^64 or whose counters stay below it,
    for any items, in any interleaving: when the loops of both threads have ended,
    the items that the consumer got are the first ones that the producer put in,
    and the ring holds the others in their order; with as many loops on both sides
    the ring is empty. *)
Theorem producer_consumer_fifo (is_trivial : addr_t -> bool) m0 p c lo1 lo2 n evs (s : sys) th1 th2 room :
  rep q m0 [] room -> divides q \/ Z.of_nat (length (produce p) + length (consume c)) <= room ->
  Machine.steps (LS := LS) is_trivial n (Machine.init m0 (calls (H1 := object) <$> producer_consumer p c lo1 lo2)) evs s ->
  Z.of_nat n < 2 ^ 63 -> finished s ->
  Machine.ths s !! 1%nat = Some th1 -> results th1 = Val <$> produced p ->
  Machine.ths s !! 2%nat = Some th2 -> results th2 = Val <$> consumed c ->
  exists rest room', p.*1 = c.*1 ++ rest /\ rep q (mem (Machine.sh s)) rest room' /\ (length p = length c -> rest = []).
Proof.
  intros Hr Hroom Hs Hn Hf H1 R1 H2 R2.
  assert (Hroom' : divides q \/ Z.of_nat (length (all_ops (producer_consumer p c lo1 lo2))) <= room)
    by (unfold producer_consumer; rewrite all_ops_new, all_ops_one, length_app by done; exact Hroom).
  destruct (queue_threads is_trivial m0 _ n evs s [] room Hr Hroom' Hs Hn Hf) as (sched & rest & room' & Hil & Hth & Hfifo & Hrep).
  destruct (Hth _ _ H1) as [A1 P1], (Hth _ _ H2) as [A2 P2]. rewrite R1 in A1. rewrite R2 in A2.
  apply val_inj in A1, A2. simpl in Hfifo.
  rewrite (trace_thread enqueued 1), (trace_thread dequeued 2) in Hfifo.
  - unfold trace_of in Hfifo. rewrite P1, P2, <- A1, <- A2 in Hfifo. unfold prog_of, producer_consumer in Hfifo.
    rewrite lookup_insert_eq, lookup_insert_ne, lookup_singleton_eq in Hfifo by done.
    change (default [] _) with (produce p) in Hfifo at 1. change (default [] _) with (consume c) in Hfifo.
    rewrite produced_items, consumed_items in Hfifo.
    exists rest, room'. split; [done|]. split; [done|]. intros Hl. apply (f_equal length) in Hfifo.
    rewrite length_app, !length_fmap in Hfifo. destruct rest; [done|simpl in Hfifo; lia].
  - intros u o a (pr & Hu & Ho)%(interleaves_op _ _ _ _ Hil) Hne. unfold producer_consumer in Hu.
    apply lookup_insert_Some in Hu as [[<- <-]|[_ [<- <-]%lookup_singleton_Some]]; [|done].
    apply list_elem_of_bind in Ho as (d & Ho%elem_of_replicate & _). by destruct Ho as [-> _].
  - intros u o a (pr & Hu & Ho)%(interleaves_op _ _ _ _ Hil) Hne. unfold producer_consumer in Hu.
    apply lookup_insert_Some in Hu as [[<- <-]|[_ [<- <-]%lookup_singleton_Some]]; [done|].
    apply list_elem_of_bind in Ho as (d & Ho%elem_of_replicate & _). by destruct Ho as [-> _].
Qed.
End Threads.
End Queue.

(** ** The batch benchmark

    [.graphs/queue/batch_bench.cc]: a transaction that calls [try_enqueue] and
    [try_dequeue] in turn; each call is nested, and its [success] and [result] are
    variables of their own. *)
Section Batch.
Context (q : layout) (Hq : layout_ok q).
Abbreviation body_t := (tx (cell Z) (captured Z) (value Z)).

(** A nested call whose result nobody looks at. *)
Definition nested (o : op Z) (k : body_t) : body_t :=
  let tr := call 0 q o in set_captured (prepare tr) (Tx.bind (body tr) (fun _ => k)).

(** The turns [k] to [k + fuel] of the inner loop. *)
Fixpoint batch_loop (turns : nat) (k i : Z) : body_t :=
  match turns with
  | O => Ret (Enqueued true)
  | S turns' => nested (BatchEnqueue (i + k)) (nested BatchDequeue (batch_loop turns' (k + 1) i))
  end.
Definition batch (i : Z) : body_t := batch_loop 10 0 i.

(** Turn [i] of a thread, on a queue that is empty, with room for so many more. *)
#[export] Instance batch_object : TxObject (cell Z) (captured Z) (value Z) Z Z := {
  ob_call i := Txn id (batch i) (fun _ now => now);
  ob_init _ _ := True;
  ob_rep m room := rep q m [] room;
  ob_apply _ room := (Enqueued true, room - 10) }.

Lemma run_nested o k lo m : Tx.run (nested o k) lo m =
  match Tx.run (body (call 0 q o)) (prepare (call 0 q o) lo) m with
  | Some (Val _, lo', m') => Tx.run k lo' m'
  | Some (Exn e, lo', m') => Some (Exn e, lo', m')
  | None => None
  end.
Proof. unfold nested, set_captured. cbn [Tx.run]. rewrite Tx.run_bind. by destruct (Tx.run _ _ _) as [[[[|] ?] ?]|]. Qed.

Lemma run_batch_loop turns k i lo m room : rep q m [] room -> divides q \/ Z.of_nat turns <= room ->
  exists lo' m', Tx.run (batch_loop turns k i) lo m = Some (Val (Enqueued true), lo', m') /\
    rep q m' [] (room - Z.of_nat turns).
Proof.
  pose proof (ok_cap _ Hq) as Hcap.
  revert k lo m room. induction turns as [|turns IH]; intros k lo m room Hr Hroom.
  - eexists _, _. split; [reflexivity|]. by rewrite Z.sub_0_r.
  - cbn [batch_loop]. rewrite run_nested. cbn [call body prepare]. rewrite batch_enqueue_eq.
    destruct (run_enq_tx q Hq (i + k) batch_set_success (Captured false (out lo) (size_var lo)) m [] room Hr) as (m1 & E1 & Hr1);
      [destruct Hroom; [by left|right; lia]|].
    rewrite E1. simpl length. rewrite (proj2 (Z.eqb_neq _ _)) by (simpl; lia).
    rewrite (proj2 (Z.eqb_neq _ _)) in Hr1 by (simpl; lia). simpl app in Hr1.
    cbn [negb batch_set_success set_captured Tx.run]. rewrite run_nested. cbn [call body prepare]. rewrite batch_dequeue_eq.
    match goal with |- context [Tx.run (deq_tx _ _ _) ?lo1 _] =>
      destruct (run_deq_tx 0 q Hq set_out lo1 m1 [i + k] (room - 1) Hr1) as (m2 & E2 & Hr2) end.
    rewrite E2. unfold set_out, set_captured. cbn [fst snd Tx.run].
    match goal with |- context [Tx.run (batch_loop _ _ _) ?lo2 _] =>
      destruct (IH (k + 1) lo2 m2 (room - 1) Hr2) as (lo3 & m3 & E3 & Hr3) end; [destruct Hroom; [by left|right; lia]|].
    rewrite E3. eexists _, _. split; [reflexivity|]. by replace (room - Z.of_nat (S turns)) with (room - 1 - Z.of_nat turns) by lia.
Qed.

#[export] Instance batch_laws : TxGuardedLaws (cell Z) (captured Z) (value Z) Z Z (fun _ room => divides q \/ 10 <= room).
Proof.
  constructor; [done|done|]. intros i lo m room _ Hr Hroom. exact (run_batch_loop 10 0 i lo m room Hr Hroom).
Qed.

Lemma batch_nested_no_std o k : no_std (body (call 0 q o)) -> no_std k -> no_std (nested o k).
Proof. intros Hb Hk lo. by apply bind_no_std. Qed.

Lemma set_out_no_std (r : bool * Z) : no_std (set_out r : body_t).
Proof. unfold set_out. by destruct r as [[|] ?]; intros lo. Qed.

Lemma set_success_no_std (b : bool) : no_std (batch_set_success b : body_t).
Proof. unfold batch_set_success. by destruct b; intros lo. Qed.

Lemma batch_no_std i : no_std (body (ob_call (TxObject := batch_object) i)).
Proof.
  cbn [ob_call batch_object body]. unfold batch. generalize 0. generalize 10%nat.
  intros turns. induction turns as [|turns IH]; intros k; [done|]. cbn [batch_loop].
  apply batch_nested_no_std; [apply enq_tx_no_std, set_success_no_std|].
  apply batch_nested_no_std; [apply deq_tx_no_std, set_out_no_std|apply IH].
Qed.

(** [bench_batch]: each thread makes [ops] calls, with [i] from 0 on. *)
Definition bench_batch (ts : gset tid_t) (ops : nat) (lo : captured Z) : gmap tid_t (list Z * captured Z) :=
  gset_to_gmap (seqZ 0 (Z.of_nat ops), lo) ts.

Lemma batch_admissible is_ room : divides q \/ 10 * Z.of_nat (length is_) <= room ->
  admissible (H := batch_object) (fun _ room => divides q \/ 10 <= room) is_ room.
Proof.
  revert room. induction is_ as [|i is_ IH]; intros room Hroom; [done|]. cbn [admissible ob_apply batch_object snd]. simpl length in Hroom.
  split; [destruct Hroom; [by left|right; lia]|]. apply IH. destruct Hroom; [by left|right; lia].
Qed.

Section BatchThreads.
Context {LS : Type} `{LocationSetLaws LS}.

(** The queue is empty between the transactions, so that no call of a batch finds
    it full or empty, and at the end. *)
Lemma bench_batch_empty is_trivial m0 ts ops lo n evs s room :
  rep q m0 [] room -> divides q \/ 10 * Z.of_nat (size ts * ops) <= room ->
  Machine.steps (LS := LS) is_trivial n (Machine.init m0 (calls (H1 := batch_object) <$> bench_batch ts ops lo)) evs s ->
  Z.of_nat n < 2 ^ 63 -> finished s -> exists room', rep q (mem (Machine.sh s)) [] room'.
Proof.
  intros Hr Hroom Hs Hn Hf. destruct (all_ops_same ts (seqZ 0 (Z.of_nat ops), lo)) as [Hlen _].
  cbn [fst] in Hlen. rewrite length_seqZ, Nat2Z.id in Hlen.
  destruct (finished_run (H2 := batch_laws) is_trivial m0 _ n evs s batch_no_std Hs Hn room Hr) as (sched & _ & _ & _ & Hrep); [|done|].
  - intros sched Hil%interleaves_all%submseteq_length. apply batch_admissible. fold (bench_batch ts ops lo) in Hlen.
    rewrite Hlen in Hil. destruct Hroom; [by left|right; lia].
  - exists (ob_run (H := batch_object) sched.*2 room).2. exact Hrep.
Qed.
End BatchThreads.
End Batch.

(** ** Calls whose answers are not used

    [bench_read_heavy] adds up what it dequeued and drops the sum.  Also the
    methods that can answer with what an aborted attempt assigned do to the queue
    what they should. *)
Section Effects.
Context (q : layout) (Hq : layout_ok q).
Implicit Types (l : list Z) (room : Z).

Lemma run_any (o : op Z) lo m l room : rep q m l room -> room_for q o room ->
  exists v lo' m', Tx.run (body (call 0 q o)) lo m = Some (Val v, lo', m') /\
    rep q m' (apply 0 q o l).2 (room_after o room).
Proof.
  intros Hr Ho. destruct (run_call 0 q Hq o lo m l room Hr Ho) as (lo' & m' & E & Hr'). by eexists _, lo', m'.
Qed.

#[export] Instance effect_object : TxObject (cell Z) (captured Z) unit (op Z) (list Z * Z) := {
  ob_call o := Txn (prepare (call 0 q o)) (Tx.bind (body (call 0 q o)) (fun _ => Ret tt)) (restore (call 0 q o));
  ob_init _ _ := True;
  ob_rep m s := rep q m s.1 s.2;
  ob_apply o s := (tt, ((apply 0 q o s.1).2, room_after o s.2)) }.

#[export] Instance effect_laws : TxGuardedLaws (cell Z) (captured Z) unit (op Z) (list Z * Z) (fun o st => room_for q o st.2).
Proof.
  constructor; [done|done|]. intros o lo m [l room] _ Hr Ho. cbn [ob_call effect_object body]. rewrite Tx.run_bind.
  destruct (run_any o lo m l room Hr Ho) as (v & lo' & m' & -> & Hr'). by eexists _, _.
Qed.

Lemma effect_no_std o : no_std (body (ob_call (TxObject := effect_object) o)).
Proof.
  cbn [ob_call effect_object body]. apply bind_no_std; [|done]. destruct o as [x| | | |x| |x|]; cbn [call body].
  - by apply enq_tx_no_std.
  - apply deq_tx_no_std, set_out_no_std.
  - by apply deq_tx_no_std.
  - by do 2 (apply read_size_no_std; intros ?).
  - rewrite profile_try_enq_eq. by apply enq_tx_no_std.
  - rewrite profile_try_deq_eq. by apply deq_tx_no_std.
  - apply enq_tx_no_std, set_success_no_std.
  - apply deq_tx_no_std, set_out_no_std.
Qed.

(** What a call may put into the queue. *)
Definition offered (o : op Z) : option Z := match o with TryEnq x | ProfileEnq x | BatchEnqueue x => Some x | _ => None end.

Lemma effect_run (ops : list (op Z)) l room x : x ∈ (ob_run (H := effect_object) ops (l, room)).2.1 ->
  x ∈ l \/ x ∈ omap offered ops.
Proof.
  revert l room. induction ops as [|o ops IH]; intros l room; [by left|]. cbn [ob_run].
  change (ob_apply o (l, room)) with (tt, ((apply 0 q o l).2, room_after o room)). cbv beta iota.
  specialize (IH (apply 0 q o l).2 (room_after o room)). destruct (ob_run ops _) as [r s]. cbn [snd] in *.
  intros [Hx|Hx]%IH; [|right; simpl; destruct (offered o); [by right|done]].
  destruct o as [y| | | |y| |y|]; cbn [apply] in Hx; try (destruct l as [|z l]; [by left|left; by right]); [|by left| |];
    (destruct (_ =? _); [by left|]; apply elem_of_app in Hx as [?|Hx]; [by left|right; simpl];
     apply list_elem_of_singleton in Hx as ->; by left).
Qed.

Lemma effect_admissible (ops : list (op Z)) l room : divides q \/ Z.of_nat (length ops) <= room ->
  admissible (H := effect_object) (fun o st => room_for q o st.2) ops (l, room).
Proof.
  revert l room. induction ops as [|o ops IH]; intros l room Hroom; [done|]. split.
  - destruct Hroom as [?|Hl]; [by left|right]. intros _. simpl in *. lia.
  - apply (IH (apply 0 q o l).2 (room_after o room)). destruct Hroom as [?|Hl]; [by left|right].
    unfold room_after. simpl in Hl. destruct (is_enq _); lia.
Qed.

(** Turn [i] of a thread of [bench_read_heavy]. *)
Definition read_heavy_turn (i : Z) : op Z := if i mod 10 =? 0 then BatchEnqueue i else BatchDequeue.
Definition bench_read_heavy (ts : gset tid_t) (ops : nat) (lo : captured Z) : gmap tid_t (list (op Z) * captured Z) :=
  gset_to_gmap (read_heavy_turn <$> seqZ 0 (Z.of_nat ops), lo) ts.

Section EffectThreads.
Context {LS : Type} `{LocationSetLaws LS}.

(** At the end the ring is whole and has multiples of ten only. *)
Lemma bench_read_heavy_ends is_trivial m0 ts ops lo n evs s room :
  rep q m0 [] room -> divides q \/ Z.of_nat (size ts * ops) <= room ->
  Machine.steps (LS := LS) is_trivial n (Machine.init m0 (calls (H1 := effect_object) <$> bench_read_heavy ts ops lo)) evs s ->
  Z.of_nat n < 2 ^ 63 -> finished s ->
  exists l room', rep q (mem (Machine.sh s)) l room' /\ Forall (fun x => x mod 10 = 0 /\ 0 <= x < Z.of_nat ops) l.
Proof.
  intros Hr Hroom Hs Hn Hf. destruct (all_ops_same ts (read_heavy_turn <$> seqZ 0 (Z.of_nat ops), lo)) as [Hlen Hin].
  cbn [fst] in Hlen, Hin. rewrite length_fmap, length_seqZ, Nat2Z.id in Hlen. fold (bench_read_heavy ts ops lo) in Hlen, Hin.
  destruct (finished_run (H2 := effect_laws) is_trivial m0 _ n evs s effect_no_std Hs Hn ([], room) Hr) as (sched & _ & Hp & _ & Hrep); [|done|].
  - intros sched Hil%interleaves_all%submseteq_length. apply effect_admissible. rewrite Hlen in Hil.
    destruct Hroom; [by left|right; lia].
  - eexists _, _. split; [exact Hrep|]. apply Forall_forall. intros x Hx. apply effect_run in Hx as [Hx|Hx]; [by apply elem_of_nil in Hx|].
    apply list_elem_of_omap in Hx as (o & Ho & E). rewrite Hp in Ho. apply Hin, list_elem_of_fmap in Ho as (i & -> & Hi%elem_of_seqZ).
    unfold read_heavy_turn in E. destruct (Z.eqb_spec (i mod 10) 0); simplify_eq/=; lia.
Qed.
End EffectThreads.
End Effects.

(** ** A queue for each thread: [bench_low_contention] *)
Section Queues.
Context (qs : tid_t -> layout) (Hqs : forall t, layout_ok (qs t)) (Hdivides : forall t, divides (qs t)).

(** The [TVar]s of a queue. *)
Definition tvars (q : layout) (a : addr_t) : Prop :=
  a = head_at q \/ a = tail_at q \/ exists i, 0 <= i < capacity q /\ a = item_at q i.
Context (Hapart : forall t u a, tvars (qs t) a -> tvars (qs u) a -> t = u).

Lemma rep_off q m m' (l : list Z) room : layout_ok q -> (forall a, tvars q a -> m' !! a = m !! a) -> rep q m l room -> rep q m' l room.
Proof.
  intros Hq Heq [Hc (h & Hh & Eh & Et & Ei & Hj)]. pose proof (ok_cap _ Hq). constructor; [done|]. exists h.
  rewrite !Heq by first [by left|right; by left]. do 3 (split; [done|]). split; [|done]. intros i x Hi.
  rewrite Heq; [by apply Ei|]. right; right. eexists. split; [|done]. apply Z.mod_pos_bound. lia.
Qed.

Section Writes.
Context (q : layout) (Hq : layout_ok q).
Abbreviation within := (Tx.writes_in (V := cell Z) (L := captured Z) (A := value Z) (tvars q)).

Lemma item_tvar z : tvars q (item_at q (z mod capacity q)).
Proof. pose proof (ok_cap _ Hq). right; right. eexists. split; [|done]. apply Z.mod_pos_bound. lia. Qed.

Lemma read_size_writes x k : (forall n, within (k n)) -> within (read_size x k).
Proof. intros Hk [y|n]; [done|apply Hk]. Qed.

Lemma enq_tx_writes x k : (forall b, within (k b)) -> within (enq_tx q x k).
Proof.
  intros Hk. do 2 (apply read_size_writes; intros ?). destruct (_ =? _); [apply Hk|]. split; [apply item_tvar|].
  split; [right; by left|apply Hk].
Qed.

Lemma deq_tx_writes k : (forall r, within (k r)) -> within (deq_tx 0 q k).
Proof.
  intros Hk. do 2 (apply read_size_writes; intros ?). destruct (_ =? _); [apply Hk|]. intros [y|n']; [|done].
  split; [by left|apply Hk].
Qed.

Lemma call_writes (o : op Z) : within (body (call 0 q o)).
Proof.
  assert (Hout : forall r, within (set_out r)) by (intros [[|] ?]; by intros lo).
  destruct o as [x| | | |x| |x|]; cbn [call body].
  - by apply enq_tx_writes.
  - by apply deq_tx_writes.
  - by apply deq_tx_writes.
  - by do 2 (apply read_size_writes; intros ?).
  - rewrite profile_try_enq_eq. by apply enq_tx_writes.
  - rewrite profile_try_deq_eq. by apply deq_tx_writes.
  - rewrite batch_enqueue_eq. apply enq_tx_writes. by intros [|].
  - rewrite batch_dequeue_eq. by apply deq_tx_writes.
Qed.
End Writes.

#[export] Instance queues_object : TxObject (cell Z) (captured Z) unit (tid_t * op Z) (tid_t -> list Z * Z) := {
  ob_call p := ob_call (TxObject := effect_object (qs p.1)) p.2;
  ob_init _ _ := True;
  ob_rep m s := forall t, rep (qs t) m (s t).1 (s t).2;
  ob_apply p s := (tt, fun u => if decide (u = p.1) then (ob_apply (TxObject := effect_object (qs u)) p.2 (s u)).2 else s u) }.

#[export] Instance queues_laws : TxGuardedLaws (cell Z) (captured Z) unit (tid_t * op Z) (tid_t -> list Z * Z) (fun _ _ => True).
Proof.
  constructor; [done|done|]. intros [t o] lo m s _ Hr _. change (forall t, rep (qs t) m (s t).1 (s t).2) in Hr.
  destruct (gd_sim (TxGuardedLaws := effect_laws (qs t) (Hqs t)) o lo m (s t) I (Hr t)) as (lo' & m' & E & Hr'); [by left|].
  exists lo', m'. split; [exact E|]. intros u. cbn [ob_apply queues_object fst snd]. destruct (decide (u = t)) as [->|Hne]; [exact Hr'|].
  apply (rep_off _ m); [done| |apply Hr]. intros a Ha.
  refine (Tx.run_writes_in (tvars (qs t)) _ _ _ _ _ _ _ E a _).
  - cbn [ob_call queues_object effect_object body fst snd]. apply Tx.bind_writes_in; [by apply call_writes|done].
  - intros Ht. by apply Hne, (Hapart _ _ a).
Qed.

Lemma queues_no_std p : no_std (body (ob_call (TxObject := queues_object) p)).
Proof. apply effect_no_std. Qed.

Lemma queues_admissible ops s : admissible (H := queues_object) (fun _ _ => True) ops s.
Proof. revert s. induction ops; by split. Qed.

(** What a run does to one of the queues. *)
Definition step_on u (st : list Z * Z) (o : op Z) : list Z * Z := (ob_apply (TxObject := effect_object (qs u)) o st).2.
Definition own u (p : tid_t * op Z) : option (op Z) := if decide (p.1 = u) then Some p.2 else None.

Lemma queues_run ops s u : (ob_run (H := queues_object) ops s).2 u = foldl (step_on u) (s u) (omap (own u) ops).
Proof.
  revert s. induction ops as [|[t o] ops IH]; intros s; [done|]. cbn [ob_run ob_apply queues_object fst snd].
  specialize (IH (fun u => if decide (u = t) then (ob_apply (TxObject := effect_object (qs u)) o (s u)).2 else s u)).
  destruct (ob_run ops _) as [r s']. cbn [snd] in *. rewrite IH. simpl. unfold own at 2. cbn [fst snd].
  destruct (decide (u = t)) as [->|Hne]; [by rewrite decide_True|by rewrite decide_False].
Qed.

(** Turn [i] of a thread, and the program of the threads in [ts]. *)
Definition low_contention_turn (i : Z) : op Z := if i mod 2 =? 0 then BatchEnqueue i else BatchDequeue.
Definition bench_low_contention (ts : gset tid_t) (ops : nat) (lo : captured Z) : gmap tid_t (list (tid_t * op Z) * captured Z) :=
  map_imap (fun t lo => Some ((fun i => (t, low_contention_turn i)) <$> seqZ 0 (Z.of_nat ops), lo)) (gset_to_gmap lo ts).

(** Enqueues and dequeues alternate. *)
Lemma low_contention_run u ops room : exists room',
  foldl (step_on u) ([], room) (low_contention_turn <$> seqZ 0 (Z.of_nat ops)) =
    (if Nat.even ops then [] else [Z.of_nat ops - 1], room').
Proof.
  pose proof (ok_cap _ (Hqs u)) as Hcap. induction ops as [|ops [room' IH]]; [by exists room|].
  rewrite Nat2Z.inj_succ, <- Z.add_1_r, seqZ_app, fmap_app, foldl_app, IH by lia. rewrite Z.add_0_l. change (seqZ (Z.of_nat ops) 1) with [Z.of_nat ops].
  rewrite Nat.even_succ, <- Nat.negb_even. cbn [fmap list_fmap foldl]. unfold low_contention_turn, step_on.
  rewrite Zmod_even. assert (Ee : Z.even (Z.of_nat ops) = Nat.even ops).
  { destruct (Nat.even ops) eqn:E; [apply Nat.even_spec in E as [k ->]|rewrite <- Nat.negb_odd, negb_false_iff in E; apply Nat.odd_spec in E as [k ->]].
    - rewrite Nat2Z.inj_mul. by rewrite Z.even_mul.
    - rewrite Nat2Z.inj_add, Nat2Z.inj_mul. by rewrite Z.even_add, Z.even_mul. }
  rewrite Ee. destruct (Nat.even ops); cbn [negb Z.eqb ob_apply effect_object apply fst snd app length].
  - destruct (Z.eqb_spec (Z.of_nat 0) (capacity (qs u))); [simpl in *; lia|]. eexists.
    replace (Z.of_nat ops + 1 - 1) with (Z.of_nat ops) by lia. reflexivity.
  - by eexists.
Qed.

Section QueueThreads.
Context {LS : Type} `{LocationSetLaws LS}.

(** Each thread has its own queue, which ends empty when the number of turns is even. *)
Lemma bench_low_contention_ends is_trivial m0 ts ops lo n evs s (rooms : tid_t -> Z) :
  (forall t, rep (qs t) m0 [] (rooms t)) ->
  Machine.steps (LS := LS) is_trivial n (Machine.init m0 (calls (H1 := queues_object) <$> bench_low_contention ts ops lo)) evs s ->
  Z.of_nat n < 2 ^ 63 -> finished s -> forall t, t ∈ ts ->
  exists room, rep (qs t) (mem (Machine.sh s)) (if Nat.even ops then [] else [Z.of_nat ops - 1]) room.
Proof.
  intros Hr Hs Hn Hf t Ht.
  destruct (finished_run (H2 := queues_laws) is_trivial m0 _ n evs s queues_no_std Hs Hn (fun t => ([], rooms t)) Hr)
    as (sched & Hil & _ & Hth & Hrep); [intros; apply queues_admissible|done|].
  assert (Hp : forall u, bench_low_contention ts ops lo !! u =
    (fun lo => ((fun i => (u, low_contention_turn i)) <$> seqZ 0 (Z.of_nat ops), lo)) <$> (gset_to_gmap lo ts !! u)).
  { intros u. unfold bench_low_contention. rewrite map_lookup_imap. by destruct (gset_to_gmap lo ts !! u). }
  destruct (steps_dom is_trivial m0 _ n evs s Hs t) as [th Hth']; [rewrite Hp, lookup_gset_to_gmap, option_guard_True; eauto|].
  destruct (Hth t th Hth') as [_ Ho]. unfold prog_of in Ho. rewrite Hp, lookup_gset_to_gmap, option_guard_True in Ho by done.
  cbn in Ho. specialize (Hrep t). rewrite queues_run in Hrep.
  assert (Eo : omap (own t) sched.*2 = (ops_of t sched).*2).
  { assert (Htag : forall u o, (u, o) ∈ sched -> o.1 = u).
    { intros u o (p & Hu & Hin)%(interleaves_op _ _ _ _ Hil). rewrite Hp in Hu. apply fmap_Some in Hu as (lo' & _ & ->).
      by apply list_elem_of_fmap in Hin as (i & -> & _). }
    clear -Htag. unfold ops_of. induction sched as [|[u o] sched IH]; [done|]. rewrite filter_cons. simpl. unfold own at 1.
    rewrite (Htag u o) by by left. simpl. destruct (decide (u = t)); simpl; [f_equal|]; apply IH; intros v p Hin; apply Htag; by right. }
  rewrite Eo, Ho, <- list_fmap_compose in Hrep.
  set (st := foldl (step_on t) ([], rooms t) (low_contention_turn <$> seqZ 0 (Z.of_nat ops))).
  change (rep (qs t) (mem (Machine.sh s)) st.1 st.2) in Hrep.
  destruct (low_contention_run t ops (rooms t)) as [room E]. exists room. unfold st in Hrep. by rewrite E in Hrep.
Qed.
End QueueThreads.
End Queues.
End QueueRuns.
