(* ===== verification/Clients.v ===== *)
(** * Small programs on the library

    The transactions of [test/two_threads_counter.cc] (also in
    [perf/profile_counter.cc]),
    [test/linearizabillity.cc], [perf/profile_swap.cc] and [test/peterson.cc], as
    objects; what their tests check, for every interleaving. *)

From S2P Require Import Prelude VersionLock LockTable Store Op Log Tx State LockGuard Machine History MachineInv InvFacts Preserve Steps StepsGuard StepsCommit Serializability Order Linearize.
Import History.

(** No argument is passed to [atomically]. *)
Definition plain {V L A} (p : tx V L A) : txn V L A := Txn id p (fun _ now => now).

(** ** A counter of type [uint] *)
Module Counter.
Section Counter.
Context (counter : addr_t).

Definition wrap32 (z : Z) : Z := z mod 2 ^ 32.

Definition increment : tx Z unit Z := Read counter (fun val => Write counter (wrap32 (val + 1)) (Ret 0)).
Definition get : tx Z unit Z := Read counter (fun v => Ret v).

Inductive call := Increment | GetValue.
Definition body_of (c : call) : txn Z unit Z :=
  plain match c with Increment => increment | GetValue => get end.
Definition amount (c : call) : Z := match c with Increment => 1 | GetValue => 0 end.

Definition apply (c : call) (s : Z) : Z * Z :=
  match c with GetValue => (s, s) | _ => (0, wrap32 (s + amount c)) end.

#[export] Instance counter_object : TxObject Z unit Z call Z := {
  ob_call := body_of;
  ob_init _ _ := True;
  ob_rep m s := m !! counter = Some s;
  ob_apply := apply }.

#[export] Instance counter_laws : TxObjectLaws Z unit Z call Z.
Proof.
  constructor; [done|done|]. intros c lo m s _ Hr. change (m !! counter = Some s) in Hr.
  destruct c; cbn [ob_call ob_apply counter_object body_of plain body increment get Tx.run]; rewrite Hr;
    eexists _, _; (split; [reflexivity|]); [apply lookup_insert_eq|exact Hr].
Qed.

(** The state after a sequence of calls. *)
Lemma counter_sum cs s : wrap32 s = s ->
  (ob_run cs s).2 = wrap32 (s + foldr (fun c n => amount c + n) 0 cs).
Proof.
  intros Hs. assert (Hgen : forall s, wrap32 s = s -> (ob_run cs s).2 = wrap32 (s + foldr (fun c n => amount c + n) 0 cs)); [|by apply Hgen].
  clear s Hs. induction cs as [|c cs IH]; intros s Hs; cbn [ob_run foldr].
  - by rewrite Z.add_0_r.
  - change (ob_apply c s) with (apply c s).
    assert (Ea : (apply c s).2 = wrap32 (s + amount c)) by (destruct c; simpl; rewrite ?Z.add_0_r; done).
    destruct (apply c s) as [a s'] eqn:E. simpl in Ea. specialize (IH s').
    destruct (ob_run cs s') as [r s''] eqn:Er. simpl in *. rewrite IH.
    + rewrite Ea. unfold wrap32. rewrite Zplus_mod_idemp_l. f_equal. lia.
    + rewrite Ea. unfold wrap32. by rewrite Z.mod_mod by lia.
Qed.
End Counter.

Section CounterTheorem.
Context {LS : Type} `{LocationSetLaws LS} (counter : addr_t).
#[local] Existing Instance counter_object.

(** No increment is lost.  Threads that increment one counter and read it, in any
    interleaving: when no commit is half done, the counter is its initial value
    plus what was added by the calls that committed, modulo 2^32. *)
Theorem counter_total (is_trivial : addr_t -> bool) (m0 : gmap addr_t Z)
  (ps : gmap tid_t (list (txn Z unit Z) * unit)) n evs s c0 :
  (forall u p, ps !! u = Some p -> Forall (fun tr => exists c, tr = body_of counter c) p.1) ->
  m0 !! counter = Some c0 -> wrap32 c0 = c0 ->
  Machine.steps (LS := LS) is_trivial n (Machine.init m0 ps) evs s -> Z.of_nat n < 2 ^ 63 ->
  quiescent s ->
  exists cs, e_body <$> evs ≡ₚ (fun c => body (body_of counter c)) <$> cs /\
    mem (Machine.sh s) !! counter = Some (wrap32 (c0 + foldr (fun c n => amount c + n) 0 cs)).
Proof.
  intros Hps Hm Hc Hs Hn Hq.
  assert (Hps' : forall u p, ps !! u = Some p -> calls_ops (H := counter_object counter) p.1) by exact Hps.
  destruct (serial_calls is_trivial m0 ps n evs s c0 Hps' Hm Hs Hn) as (ops & Hp & Hr).
  exists ops. split; [done|]. specialize (Hr Hq). rewrite counter_sum in Hr by done. exact Hr.
Qed.
End CounterTheorem.
End Counter.

(** ** Two variables written, read and swapped together *)
Module Pair.
Section Pair.
Context (a b : addr_t) (Hab : a <> b).

Inductive call := WriteBoth (v : Z) | ReadBoth | Swap.

Definition write_both (v : Z) : tx Z unit (Z * Z) := Write a v (Write b v (Ret (0, 0))).
Definition read_both : tx Z unit (Z * Z) := Read a (fun val_a => Read b (fun val_b => Ret (val_a, val_b))).
Definition swap : tx Z unit (Z * Z) :=
  Read a (fun a_val => Read b (fun b_val => Write a b_val (Write b a_val (Ret (0, 0))))).

Definition body_of (c : call) : txn Z unit (Z * Z) :=
  plain match c with WriteBoth v => write_both v | ReadBoth => read_both | Swap => swap end.

Definition apply (c : call) (s : Z * Z) : (Z * Z) * (Z * Z) :=
  match c with
  | WriteBoth v => ((0, 0), (v, v))
  | ReadBoth => (s, s)
  | Swap => ((0, 0), (s.2, s.1))
  end.

#[export] Instance pair_object : TxObject Z unit (Z * Z) call (Z * Z) := {
  ob_call := body_of;
  ob_init _ _ := True;
  ob_rep m s := m !! a = Some s.1 /\ m !! b = Some s.2;
  ob_apply := apply }.

Lemma rep_pair (m : gmap addr_t Z) v w :
  <[b := w]> (<[a := v]> m) !! a = Some v /\ <[b := w]> (<[a := v]> m) !! b = Some w.
Proof. split; [|apply lookup_insert_eq]. rewrite lookup_insert_ne by done. apply lookup_insert_eq. Qed.

#[export] Instance pair_laws : TxObjectLaws Z unit (Z * Z) call (Z * Z).
Proof.
  constructor; [done|done|]. intros c lo m [v w] _ [Ha Hb].
  destruct c as [u| |]; cbn [ob_call ob_apply pair_object body_of plain body write_both read_both swap Tx.run];
    rewrite ?Ha; cbn [Tx.run]; rewrite ?Hb; eexists _, _; (split; [reflexivity|]); [apply rep_pair|done|apply rep_pair].
Qed.

(** Equal variables stay equal, and are read equal. *)
Lemma pair_equal cs s : s.1 = s.2 -> Forall (fun r => r.1 = r.2) (ob_run cs s).1 /\ (ob_run cs s).2.1 = (ob_run cs s).2.2.
Proof.
  revert s. induction cs as [|c cs IH]; intros s Hs; cbn [ob_run]; [done|].
  change (ob_apply c s) with (apply c s). assert (Hn : (apply c s).2.1 = (apply c s).2.2 /\ (apply c s).1.1 = (apply c s).1.2)
    by by destruct c.
  destruct (apply c s) as [r s'] eqn:E. destruct Hn as [Hn Hr]. specialize (IH s' Hn).
  destruct (ob_run cs s') as [rs s'']. simpl in *. destruct IH as [IH1 IH2]. split; [by constructor|done].
Qed.
End Pair.

Section PairTheorem.
Context {LS : Type} `{LocationSetLaws LS} (a b : addr_t) (Hab : a <> b).

(** A snapshot is never torn.  Threads write the same value to two variables,
    swap them and read both, in any interleaving, from equal values: each pair
    that a call returned has equal components, however many attempts it took. *)
Theorem snapshots_equal (is_trivial : addr_t -> bool) (m0 : gmap addr_t Z)
  (ps : gmap tid_t (list (txn Z unit (Z * Z)) * unit)) n evs s v t th r :
  (forall u p, ps !! u = Some p -> Forall (fun tr => exists c, tr = body_of a b c) p.1) ->
  m0 !! a = Some v -> m0 !! b = Some v ->
  Machine.steps (LS := LS) is_trivial n (Machine.init m0 ps) evs s -> Z.of_nat n < 2 ^ 63 ->
  Machine.ths s !! t = Some th -> Val r ∈ results th -> r.1 = r.2.
Proof.
  intros Hps Ha Hb Hs Hn Ht Hr.
  assert (Hps' : forall u p, ps !! u = Some p -> calls_ops (H := pair_object a b) p.1) by exact Hps.
  destruct (serial_ops (H2 := pair_laws a b Hab) is_trivial m0 ps n evs s (v, v) Hps' (conj Ha Hb) Hs Hn)
    as (order & ops & Hp & _ & _ & Er & _).
  destruct (result_event is_trivial m0 ps n evs s t th r Hs Ht Hr) as (e & He & <-).
  destruct (pair_equal a b ops (v, v) eq_refl) as [Hall _]. rewrite <- Er, Forall_forall in Hall.
  apply Hall, list_elem_of_fmap_2. by rewrite Hp.
Qed.
End PairTheorem.
End Pair.

(** ** Peterson's lock in transactions *)
Module Peterson.
Section Peterson.
Context (flag0 flag1 victim : addr_t) (Hdistinct : flag0 <> flag1 /\ flag0 <> victim /\ flag1 <> victim).

Definition flag (id : bool) : addr_t := if id then flag1 else flag0.
Definition of_bool (id : bool) : Z := if id then 1 else 0.

(** The loop of [lock], for [turns] turns; a call that would wait longer is the
    one that throws. *)
Fixpoint wait (turns : nat) (id : bool) : tx Z unit Z :=
  match turns with
  | O => Throw (other_exception 0)
  | S n => Read (flag (negb id)) (fun other =>
      if other =? 1 then Read victim (fun v => if v =? of_bool id then wait n id else Ret 0) else Ret 0)
  end.

Definition lock (turns : nat) (id : bool) : tx Z unit Z :=
  Write (flag id) 1 (Write victim (of_bool id) (wait turns id)).
Definition unlock (id : bool) : tx Z unit Z := Write (flag id) 0 (Ret 0).

(** At most one flag is up. *)
Definition exclusive (m : gmap addr_t Z) : Prop := ~ (m !! flag0 = Some 1 /\ m !! flag1 = Some 1).

Lemma wait_returns turns id lo m a lo' m' : m !! victim = Some (of_bool id) ->
  Tx.run (wait turns id) lo m = Some (Val a, lo', m') -> m' = m /\ m !! flag (negb id) <> Some 1.
Proof.
  revert m. induction turns as [|n IH]; intros m Hv Hrun; simpl in Hrun; [done|].
  destruct (m !! flag (negb id)) as [o|] eqn:Ef; [|done].
  destruct (Z.eqb_spec o 1) as [->|Ho].
  - simpl in Hrun. rewrite Hv, Z.eqb_refl in Hrun. destruct (IH m Hv Hrun) as [_ Hne]. congruence.
  - simpl in Hrun. injection Hrun as <- <- <-. split; [done|]. congruence.
Qed.

Lemma lock_exclusive turns id lo m a lo' m' :
  Tx.run (lock turns id) lo m = Some (Val a, lo', m') -> exclusive m'.
Proof.
  destruct Hdistinct as (H1 & H2 & H3). unfold lock. cbn [Tx.run]. intros Hrun.
  apply wait_returns in Hrun as [-> Hne]; [|apply lookup_insert_eq]. intros [E0 E1].
  by destruct id.
Qed.

Lemma unlock_exclusive id lo m a lo' m' : exclusive m ->
  Tx.run (unlock id) lo m = Some (Val a, lo', m') -> exclusive m'.
Proof.
  destruct Hdistinct as (H1 & _). intros He Hrun. injection Hrun as <- <- <-. intros [E0 E1].
  destruct id; [rewrite lookup_insert_eq in E1|rewrite lookup_insert_eq in E0]; done.
Qed.

End Peterson.

Section PetersonTheorem.
Context {LS : Type} `{LocationSetLaws LS} (flag0 flag1 victim : addr_t)
  (Hdistinct : flag0 <> flag1 /\ flag0 <> victim /\ flag1 <> victim).

(** The lock of the Peterson test excludes.  Whatever calls of [lock] and
    [unlock] the threads make and however they interleave (with any bound on the
    turns of the waiting loop), when no commit is half done the two flags are not
    both up: two threads never both have their call of [lock] committed and not
    undone. *)
Theorem peterson_excludes (is_trivial : addr_t -> bool) (m0 : gmap addr_t Z)
  (ps : gmap tid_t (list (txn Z unit Z) * unit)) n evs s :
  (forall t p, ps !! t = Some p -> Forall (fun tr => exists turns id,
     tr = plain (lock flag0 flag1 victim turns id) \/ tr = plain (unlock flag0 flag1 id)) p.1) ->
  exclusive flag0 flag1 m0 ->
  Machine.steps (LS := LS) is_trivial n (Machine.init m0 ps) evs s -> Z.of_nat n < 2 ^ 63 ->
  quiescent s -> exclusive flag0 flag1 (mem (Machine.sh s)).
Proof.
  intros Hps H0' Hs Hn Hq. apply (serial_invariant is_trivial m0 ps (exclusive flag0 flag1) n evs s); try done.
  intros t p Hp. specialize (Hps t p Hp). eapply Forall_impl; [exact Hps|].
  intros tr (turns & id & [->| ->]) lo m a lo' m' He Hrun.
  - exact (lock_exclusive _ _ _ Hdistinct _ _ _ _ _ _ _ Hrun).
  - exact (unlock_exclusive _ _ _ Hdistinct _ _ _ _ _ _ He Hrun).
Qed.
End PetersonTheorem.
End Peterson.
