(* ===== verification/StmTests.v ===== *)
(** * The tests of the library

    The programs of [src/test] with what they expect: those of one thread are run
    by [Nested], those of several are programs over an object ([Programs]), and
    the expectation is proved of every run to the end.  An [int] that would
    overflow stops the program (an exception that no run to the end has). *)

From S2P Require Import Prelude VersionLock LockTable Store Op LocSets Log Tx State Nested LockGuard Machine History MachineInv Serializability Order Linearize Programs Clients.
Import History.

(** ** One thread *)
Section OneThread.
Import Nested.

Abbreviation test := (prog Z unit (list Z)).

(** Outside a transaction. *)
Definition outside (m : gmap addr_t Z) : ctx Z unit := Ctx ABORT no_log m tt.

(** What the assertions of a test see. *)
Definition observed (t : test) (m : gmap addr_t Z) : option (outcome (list Z) * STATE) :=
  (fun r => (r.1, c_state r.2)) <$> eval t (outside m).

Definition read_int (x : addr_t) : test := PRead x (fun v => PRet [v]).
Definition write_int (x : addr_t) (v : Z) : test := PWrite x v (PRet []).

(** One observation after another. *)
Definition and_then (t k : test) : test :=
  PAtomically t (fun seen => PAtomically k (fun seen' => PRet (seen ++ seen'))).

(** [NestedTransactionTest]: [BasicNesting], [ReadModifyWrite] and
    [InnerAbortPropagates], with [x] at 8. *)
Definition basic_nesting : test :=
  and_then (PAtomically (write_int 8 10) (fun _ => read_int 8)) (read_int 8).

Definition nested_read_modify_write : test :=
  and_then (PRead 8 (fun outer_read => PAtomically (write_int 8 (outer_read + 1)) (fun _ => read_int 8))) (read_int 8).

Definition inner_abort_propagates : test :=
  PTry (PAtomically (PWrite 8 1 (PAtomically (PThrow (std_exception 0)) (fun _ => write_int 8 2))) PRet)
    (fun _ => PRet []) (fun _ => PAtomically (read_int 8) PRet).

Lemma nesting_tests_pass :
  observed basic_nesting {[8 := 0]} = Some (Val [10; 10], ZOMBIE) /\
  observed nested_read_modify_write {[8 := 1]} = Some (Val [2; 2], ZOMBIE) /\
  observed inner_abort_propagates {[8 := 0]} = Some (Val [0], ZOMBIE).
Proof. by vm_compute. Qed.

(** [InvalidAccess]: [test] at 8, the temporary [TVar<int>(1)] at 16.
    [ASSERT_ANY_THROW] observes 1 when its argument throws. *)
Definition any_throw (t k : test) : test :=
  PTry (PTry t PThrow (fun _ => PRet [0])) (fun _ => PRet [1])
    (fun seen => PTry k PThrow (fun seen' => PRet (seen ++ seen'))).

Definition invalid_accesses (k : test) : test :=
  any_throw (write_int 8 1) (any_throw (read_int 8)
    (any_throw (copy_assign 8 16 (PRet [])) (any_throw (copy_assign 8 16 (PRet [])) k))).

Definition invalid_access_test : test :=
  invalid_accesses (PAtomically (write_int 8 1) (fun _ => invalid_accesses (PRet []))).

Lemma invalid_access_passes :
  observed invalid_access_test {[8 := 0; 16 := 1]} = Some (Val [1; 1; 1; 1; 1; 1; 1; 1], ZOMBIE).
Proof. by vm_compute. Qed.

(** [CopyAssignmentSingle]: [a] at 8, [b] at 16. *)
Definition copy_assignment_single : test :=
  PAtomically (copy_assign 8 16 (PRet [])) (fun _ =>
    PAtomically (read_int 8) (fun val_a => PAtomically (read_int 16) (fun val_b =>
      PAtomically (PWrite 16 2 (copy_assign 8 16 (PRet []))) (fun _ =>
        PAtomically (read_int 8) (fun val_a' => PAtomically (read_int 16) (fun val_b' =>
          PRet (val_a ++ val_b ++ val_a' ++ val_b'))))))).

Lemma copy_assignment_single_passes :
  observed copy_assignment_single {[8 := 0; 16 := 1]} = Some (Val [1; 1; 2; 2], ZOMBIE).
Proof. by vm_compute. Qed.

(** [SingleThreadedLargeArrayAccess], for any number of variables. *)
Fixpoint increment_all (xs : list addr_t) : test :=
  match xs with
  | [] => PRet []
  | x :: xs' => PRead x (fun val => PWrite x (val + 1) (increment_all xs'))
  end.

Fixpoint read_all (xs : list addr_t) : test :=
  match xs with
  | [] => PRet []
  | x :: xs' => PRead x (fun val => PTry (read_all xs') PThrow (fun seen => PRet (val :: seen)))
  end.

Lemma increment_all_run xs v (m : gmap addr_t Z) : NoDup xs -> (forall x, x ∈ xs -> m !! x = Some v) ->
  exists m', Tx.run (flat (increment_all xs)) tt m = Some (Val [], tt, m') /\
    (forall x, x ∈ xs -> m' !! x = Some (v + 1)) /\ forall x, x ∉ xs -> m' !! x = m !! x.
Proof.
  revert m. induction xs as [|x xs IH]; intros m Hn Hm; [exists m; split; [done|]; split; [|done]; by intros x Hx%elem_of_nil|].
  apply NoDup_cons in Hn as [Hx Hn]. cbn [increment_all flat Tx.run]. rewrite (Hm x) by by left.
  destruct (IH (<[x := v + 1]> m) Hn) as (m' & Hrun & Hin & Hout).
  - intros y Hy. rewrite lookup_insert_ne by (intros ->; done). apply Hm. by right.
  - exists m'. split; [exact Hrun|]. split.
    + intros y [->|Hy]%elem_of_cons; [rewrite Hout by done; apply lookup_insert_eq|by apply Hin].
    + intros y [Hy Hy']%not_elem_of_cons. rewrite Hout by done. by rewrite lookup_insert_ne.
Qed.

Lemma read_all_run xs v (m : gmap addr_t Z) : (forall x, x ∈ xs -> m !! x = Some v) ->
  Tx.run (flat (read_all xs)) tt m = Some (Val (replicate (length xs) v), tt, m).
Proof.
  induction xs as [|x xs IH]; intros Hm; [done|]. cbn [read_all flat Tx.run]. rewrite (Hm x) by by left.
  rewrite run_catch, IH by (intros y Hy; apply Hm; by right). done.
Qed.

Definition large_array_access (xs : list addr_t) : test :=
  PAtomically (increment_all xs) (fun _ => PAtomically (read_all xs) PRet).

Lemma large_array_passes xs (m : gmap addr_t Z) : NoDup xs -> (forall x, x ∈ xs -> m !! x = Some 0) ->
  observed (large_array_access xs) m = Some (Val (replicate (length xs) 1), ZOMBIE).
Proof.
  intros Hn Hm. destruct (increment_all_run xs 0 m Hn Hm) as (m' & Hrun & Hin & _).
  pose proof (outermost_is_flat (increment_all xs) (outside m) ltac:(discriminate)) as H1.
  unfold Tx.atomic in H1. cbn [outside c_locals c_mem] in H1. rewrite Hrun in H1.
  pose proof (outermost_is_flat (read_all xs) (Ctx ZOMBIE no_log m' tt) ltac:(discriminate)) as H2.
  unfold Tx.atomic in H2. cbn [c_locals c_mem] in H2. rewrite (read_all_run xs 1 m' Hin) in H2.
  unfold observed, large_array_access.
  change (eval (PAtomically (increment_all xs) (fun _ => PAtomically (read_all xs) PRet)) (outside m))
    with (continue (atomically (eval (increment_all xs)) (outside m)) (fun _ => eval (PAtomically (read_all xs) PRet))).
  cbn [eval] in H1. destruct (atomically (eval (increment_all xs)) (outside m)) as [[[a|e] c]|]; simpl in H1; try done.
  injection H1 as -> ->. cbn [continue]. by rewrite H2.
Qed.
End OneThread.

(** ** Two threads on a counter *)
Section TwoThreads.
Context {LS : Type} `{LocationSetLaws LS}.

(** [TwoThreadsCounter]: [run(niters)], the counter at 8. *)
Definition increments (niters : nat) : list Counter.call := replicate niters Counter.Increment.

Definition run (niters : nat) : gmap tid_t (list Counter.call * unit) :=
  {[1%nat := (increments niters, tt); 2%nat := (increments niters, tt)]}.

Lemma sum_increments cs : Forall (fun c => c = Counter.Increment) cs ->
  foldr (fun c n => Counter.amount c + n) 0 cs = Z.of_nat (length cs).
Proof. induction 1 as [|c cs -> _ IH]; [done|]. cbn [foldr length Counter.amount]. rewrite IH. lia. Qed.

Lemma counter_no_std c : no_std (body (ob_call (TxObject := Counter.counter_object 8) c)).
Proof. by destruct c. Qed.

Lemma two_threads_counter_passes is_trivial (m0 : gmap addr_t Z) niters n evs s : m0 !! 8 = Some 0 ->
  Machine.steps (LS := LS) is_trivial n
    (Machine.init m0 (calls (H1 := Counter.counter_object 8) <$> run niters)) evs s ->
  Z.of_nat n < 2 ^ 63 -> finished s ->
  mem (Machine.sh s) !! 8 = Some (Counter.wrap32 (2 * Z.of_nat niters)).
Proof.
  intros Hm Hs Hn Hf.
  destruct (finished_run (H2 := laws_guarded _ _ _ _ _ (H0 := Counter.counter_laws 8)) is_trivial m0 _ n evs s counter_no_std Hs Hn 0 Hm)
    as (sched & _ & Hp & _ & Hrep); [intros; apply admissible_true|done|].
  unfold run in Hp. rewrite all_ops_new, all_ops_one in Hp by done. simpl in Hp.
  assert (Hall : Forall (fun c => c = Counter.Increment) sched.*2).
  { rewrite Hp. apply Forall_app. split; by apply Forall_replicate. }
  change (mem (Machine.sh s) !! 8 = Some (ob_run (H := Counter.counter_object 8) sched.*2 0).2) in Hrep.
  rewrite Hrep, Counter.counter_sum, sum_increments, Hp, length_app by done. unfold increments. rewrite length_replicate. do 2 f_equal. lia.
Qed.
End TwoThreads.

(** ** Nested increments of an [int] *)
Definition INT_LIMIT : Z := 2 ^ 31.

Section ConcurrentNested.
Context {LS : Type} `{LocationSetLaws LS}.

(** [ConcurrentNested], with [x] at 8: the inner call of [atomically]. *)
Definition nested_increment : prog Z unit (list Z) :=
  PAtomically (PRead 8 (fun v => if v + 1 <? INT_LIMIT then PWrite 8 (v + 1) (PRet []) else PThrow (other_exception 3))) PRet.

Instance nested_object : TxObject Z unit (list Z) unit Z := {
  ob_call _ := plain (Nested.flat nested_increment);
  ob_init _ _ := True;
  ob_rep m s := m !! 8 = Some s;
  ob_apply _ s := ([], s + 1) }.

Instance nested_laws : TxGuardedLaws Z unit (list Z) unit Z (fun _ s => s + 1 < INT_LIMIT).
Proof.
  constructor; [done|done|]. intros [] lo m s _ Hr Hs. change (m !! 8 = Some s) in Hr.
  cbn [ob_call ob_apply nested_object plain body nested_increment Nested.flat Tx.bind Tx.run]. rewrite Hr.
  destruct (Z.ltb_spec (s + 1) INT_LIMIT); [|lia]. cbn [Nested.flat Tx.bind Tx.run fst snd].
  eexists _, _. split; [reflexivity|]. apply lookup_insert_eq.
Qed.

Lemma nested_no_std op : no_std (body (ob_call (TxObject := nested_object) op)).
Proof. intros v. by destruct (v + 1 <? INT_LIMIT). Qed.

Lemma nested_run (cs : list unit) s : (ob_run cs s).2 = s + Z.of_nat (length cs).
Proof.
  revert s. induction cs as [|c cs IH]; intros s; [simpl; lia|]. cbn [ob_run ob_apply nested_object].
  specialize (IH (s + 1)). destruct (ob_run cs (s + 1)). simpl in *. lia.
Qed.

Lemma nested_admissible (cs : list unit) s : s + Z.of_nat (length cs) < INT_LIMIT ->
  admissible (fun _ s => s + 1 < INT_LIMIT) cs s.
Proof.
  revert s. induction cs as [|c cs IH]; intros s Hs; [done|]. simpl in Hs. split; [lia|]. apply IH. simpl. lia.
Qed.

Definition concurrent_nested : gmap tid_t (list unit * unit) :=
  let worker := replicate 1000 tt in {[1%nat := (worker, tt); 2%nat := (worker, tt)]}.

Lemma concurrent_nested_passes is_trivial (m0 : gmap addr_t Z) n evs s : m0 !! 8 = Some 0 ->
  Machine.steps (LS := LS) is_trivial n
    (Machine.init m0 (calls <$> concurrent_nested)) evs s ->
  Z.of_nat n < 2 ^ 63 -> finished s -> mem (Machine.sh s) !! 8 = Some 2000.
Proof.
  intros Hm Hs Hn Hf.
  destruct (finished_run is_trivial m0 _ n evs s nested_no_std Hs Hn 0 Hm) as (sched & _ & Hp & _ & Hrep); [|done|].
  - intros sched Hil. apply nested_admissible. apply interleaves_all, submseteq_length in Hil.
    unfold concurrent_nested in Hil. rewrite all_ops_new, all_ops_one, length_app in Hil by done. cbn [fst] in Hil. rewrite length_replicate in Hil.
    unfold INT_LIMIT. lia.
  - unfold concurrent_nested in Hp. rewrite all_ops_new, all_ops_one in Hp by done. cbn [fst] in Hp.
    change (mem (Machine.sh s) !! 8 = Some (ob_run sched.*2 0).2) in Hrep.
    by rewrite Hrep, nested_run, Hp, length_app, length_replicate.
Qed.
End ConcurrentNested.

(** ** A large vector in one variable *)
Section HighMemUsage.
Context {LS : Type} `{LocationSetLaws LS}.

(** The transaction of [high_mem_usage.cc], with [tvar] at 8:
    [v[i % size] += 1] on a copy, then the copy is assigned. *)
Definition increment_at (i : nat) : txn (list Z) unit Z :=
  plain (Read 8 (fun v =>
    match v !! i with
    | Some z => if z + 1 <? INT_LIMIT then Write 8 (<[i := z + 1]> v) (Ret 0) else Throw (other_exception 3)
    | None => Throw (other_exception 1)
    end)).

Instance vector_object : TxObject (list Z) unit Z nat (list Z) := {
  ob_call := increment_at;
  ob_init _ _ := True;
  ob_rep m v := m !! 8 = Some v;
  ob_apply i v := (0, alter Z.succ i v) }.

Definition fits (i : nat) (v : list Z) : Prop := exists z, v !! i = Some z /\ z + 1 < INT_LIMIT.

Instance vector_laws : TxGuardedLaws (list Z) unit Z nat (list Z) fits.
Proof.
  constructor; [done|done|]. intros i lo m v _ Hr (z & Hz & Hlt). change (m !! 8 = Some v) in Hr.
  cbn [ob_call ob_apply vector_object increment_at plain body Tx.run]. rewrite Hr, Hz.
  destruct (Z.ltb_spec (z + 1) INT_LIMIT); [|lia]. eexists _, _. split; [reflexivity|].
  change (<[8 := <[i := z + 1]> v]> m !! 8 = Some (alter Z.succ i v)). rewrite lookup_insert_eq. f_equal.
  apply list_eq. intros j. destruct (decide (j = i)) as [->|Hne].
  - rewrite list_lookup_insert_eq by by eapply lookup_lt_Some. by rewrite list_lookup_alter_eq, Hz.
  - by rewrite list_lookup_insert_ne, list_lookup_alter_ne.
Qed.

Lemma vector_no_std i : no_std (body (ob_call (TxObject := vector_object) i)).
Proof. intros v. simpl. destruct (v !! i) as [z|]; [|done]. by destruct (z + 1 <? INT_LIMIT). Qed.

Definition total (v : list Z) : Z := foldr Z.add 0 v.

Lemma total_alter i v : (i < length v)%nat -> total (alter Z.succ i v) = total v + 1.
Proof.
  unfold total. revert i. induction v as [|z v IH]; intros [|i] Hi; cbn [length] in Hi; try lia.
  - change (alter Z.succ 0%nat (z :: v)) with (Z.succ z :: v). simpl. lia.
  - change (alter Z.succ (S i) (z :: v)) with (z :: alter Z.succ i v). cbn [foldr]. rewrite IH by lia. lia.
Qed.

(** In range, and no element above [k]. *)
Lemma vector_run (is_ : list nat) v k : Forall (fun i => (i < length v)%nat) is_ -> Forall (fun z => z <= k) v ->
  k + Z.of_nat (length is_) < INT_LIMIT ->
  admissible fits is_ v /\ total (ob_run is_ v).2 = total v + Z.of_nat (length is_).
Proof.
  revert v k. induction is_ as [|i is_ IH]; intros v k Hi Hv Hk; [simpl; split; [done|lia]|].
  apply Forall_cons in Hi as [Hlt Hi]. cbn [length] in Hk. destruct (lookup_lt_is_Some_2 v i Hlt) as [z Hz].
  destruct (IH (alter Z.succ i v) (k + 1)) as [Ha Ht].
  - by rewrite length_alter.
  - apply Forall_forall. intros y Hy. rewrite Forall_forall in Hv.
    apply list_elem_of_lookup in Hy as [j Hj]. destruct (decide (j = i)) as [->|Hne].
    + rewrite list_lookup_alter_eq, Hz in Hj. injection Hj as <-. specialize (Hv z (list_elem_of_lookup_2 _ _ _ Hz)). lia.
    + rewrite list_lookup_alter_ne in Hj by done. specialize (Hv y (list_elem_of_lookup_2 _ _ _ Hj)). lia.
  - lia.
  - split.
    + split; [|exact Ha]. exists z. split; [done|]. rewrite Forall_forall in Hv.
      specialize (Hv z (list_elem_of_lookup_2 _ _ _ Hz)). lia.
    + cbn [ob_run ob_apply vector_object]. destruct (ob_run is_ (alter Z.succ i v)) as [r v'] eqn:E.
      simpl in Ht |- *. rewrite Ht, total_alter by done. lia.
Qed.

(** [run_single], [run_two] and [run_four]: each thread increments the elements
    [0], [1], ... in turn. *)
Definition turns_of (niters size : nat) : list nat := (fun i => i mod size)%nat <$> seq 0 niters.

Lemma same_turns_pass is_trivial (m0 : gmap addr_t (list Z)) (ts : gset tid_t) niters size n evs s :
  (0 < size)%nat -> Z.of_nat (base.size ts * niters) < INT_LIMIT -> m0 !! 8 = Some (replicate size 0) ->
  Machine.steps (LS := LS) is_trivial n (Machine.init m0 (calls <$> gset_to_gmap (turns_of niters size, tt) ts)) evs s ->
  Z.of_nat n < 2 ^ 63 -> finished s ->
  exists v, mem (Machine.sh s) !! 8 = Some v /\ total v = Z.of_nat (base.size ts * niters).
Proof.
  intros Hsz Hlt Hm Hs Hn Hf. set (progs := gset_to_gmap (turns_of niters size, tt) ts) in *.
  destruct (all_ops_same ts (turns_of niters size, tt)) as [Hlen Hin]. fold progs in Hlen, Hin. cbn [fst] in Hlen, Hin.
  unfold turns_of in Hlen. rewrite length_fmap, length_seq in Hlen.
  assert (Hzero : Forall (fun z => z <= 0) (replicate size 0)) by (apply Forall_replicate; lia).
  assert (Hrange : forall is_, is_ ⊆+ all_ops progs -> Forall (fun i => (i < length (replicate size 0%Z))%nat) is_).
  { intros is_ Hsub. apply Forall_forall. intros i Hi. rewrite length_replicate.
    pose proof (Hin i (elem_of_submseteq _ _ _ Hi Hsub)) as (j & -> & _)%list_elem_of_fmap.
    apply Nat.mod_upper_bound. lia. }
  destruct (finished_run is_trivial m0 progs n evs s vector_no_std Hs Hn _ Hm) as (sched & Hil & Hp & _ & Hrep); [|done|].
  - intros sched Hil%interleaves_all. pose proof (submseteq_length _ _ Hil) as Hle.
    apply (vector_run _ _ 0); [by apply Hrange|done|lia].
  - exists (ob_run sched.*2 (replicate size 0)).2. split; [exact Hrep|].
    destruct (vector_run sched.*2 (replicate size 0) 0) as [_ ->]; [by apply Hrange; rewrite Hp|done|rewrite Hp; lia|].
    rewrite Hp, Hlen. assert (Ht : total (replicate size 0) = 0) by (clear; induction size; [done|simpl; lia]). lia.
Qed.

Definition LARGE_SIZE : nat := Z.to_nat 100000.
Definition run_four (niters : nat) : gmap tid_t (list nat * unit) :=
  gset_to_gmap (turns_of niters (LARGE_SIZE / 4), tt) {[1%nat; 2%nat; 3%nat; 4%nat]}.
Definition run_two (niters : nat) : gmap tid_t (list nat * unit) :=
  gset_to_gmap (turns_of niters (LARGE_SIZE / 2), tt) {[1%nat; 2%nat]}.
Definition run_single (niters : nat) : gmap tid_t (list nat * unit) :=
  gset_to_gmap (turns_of niters LARGE_SIZE, tt) {[1%nat]}.

(** Threads, their program, and the size of the vector. *)
Definition high_mem_run (progs : gmap tid_t (list nat * unit)) (size : nat) (result : Z) : Prop :=
  forall is_trivial (m0 : gmap addr_t (list Z)) n evs s, m0 !! 8 = Some (replicate size 0) ->
  Machine.steps (LS := LS) is_trivial n (Machine.init m0 (calls <$> progs)) evs s ->
  Z.of_nat n < 2 ^ 63 -> finished s -> exists v, mem (Machine.sh s) !! 8 = Some v /\ total v = result.

(** The three tests, with [iters] = 100. *)
Lemma high_mem_usage_passes :
  high_mem_run (run_single 100) LARGE_SIZE 100 /\ high_mem_run (run_two 100) (LARGE_SIZE / 2) 200 /\
  high_mem_run (run_four 100) (LARGE_SIZE / 4) 400.
Proof.
  assert (Hdiv : forall k, (0 < k < 10)%nat -> (0 < LARGE_SIZE / k)%nat)
    by (intros k Hk; apply Nat.div_str_pos; unfold LARGE_SIZE; lia).
  split; [|split]; intros is_trivial m0 n evs s Hm Hs Hn Hf.
  - destruct (same_turns_pass is_trivial m0 {[1%nat]} 100 LARGE_SIZE n evs s) as (v & Hv & E);
      [unfold LARGE_SIZE; lia|by vm_compute|done..|]. exists v. by rewrite E.
  - destruct (same_turns_pass is_trivial m0 {[1%nat; 2%nat]} 100 (LARGE_SIZE / 2) n evs s) as (v & Hv & E);
      [apply Hdiv; lia|by vm_compute|done..|]. exists v. by rewrite E.
  - destruct (same_turns_pass is_trivial m0 {[1%nat; 2%nat; 3%nat; 4%nat]} 100 (LARGE_SIZE / 4) n evs s) as (v & Hv & E);
      [apply Hdiv; lia|by vm_compute|done..|]. exists v. by rewrite E.
Qed.
End HighMemUsage.

(** ** Copies of many variables *)
Section CopyAssignment.
Context {LS : Type} `{LocationSetLaws LS}.
(** The elements of the two vectors of variables. *)
Context (a b : nat -> addr_t) (Ha : Inj eq eq a) (Hb : Inj eq eq b) (Hab : forall i j, a i <> b j).

(** [a[i] = b[i]]. *)
Definition copy_element (i : nat) : txn Z unit (list Z) := plain (Nested.flat (Nested.copy_assign (a i) (b i) (PRet []))).

Definition holds_vector (x : nat -> addr_t) (m : gmap addr_t Z) (v : list Z) : Prop :=
  forall i z, v !! i = Some z -> m !! x i = Some z.

Instance vectors_object : TxObject Z unit (list Z) nat (list Z * list Z) := {
  ob_call := copy_element;
  ob_init _ _ := True;
  ob_rep m s := holds_vector a m s.1 /\ holds_vector b m s.2;
  ob_apply i s := ([], (match s.2 !! i with Some z => <[i := z]> s.1 | None => s.1 end, s.2)) }.

Definition has_element (i : nat) (s : list Z * list Z) : Prop := is_Some (s.2 !! i).

Instance vectors_laws : TxGuardedLaws Z unit (list Z) nat (list Z * list Z) has_element.
Proof.
  constructor; [done|done|]. intros i lo m [va vb] _ Hr [z Hz]. destruct Hr as [Hva Hvb]. simpl in Hz, Hva, Hvb.
  cbn [ob_call ob_apply vectors_object copy_element plain body fst snd].
  unfold Nested.copy_assign. rewrite decide_False by (intros E; by apply (Hab i i)). cbn [Nested.flat Tx.run].
  rewrite (Hvb i z Hz), Hz. eexists _, _. split; [reflexivity|]. split; intros j y Hj; simpl in Hj.
  - destruct (decide (j = i)) as [->|Hne].
    + rewrite lookup_insert_eq. by apply list_lookup_insert_Some in Hj as [(_ & -> & _)|[? _]].
    + rewrite list_lookup_insert_ne in Hj by done. rewrite lookup_insert_ne by (intros E; by apply Hne, Ha). by apply Hva.
  - rewrite lookup_insert_ne by apply Hab. by apply Hvb.
Qed.

Lemma copy_no_std i : no_std (body (ob_call (TxObject := vectors_object) i)).
Proof. unfold ob_call, vectors_object, copy_element, Nested.copy_assign. simpl. by case_decide. Qed.

Lemma copies_run is_ va vb : length va = length vb ->
  (ob_run is_ (va, vb)).2.2 = vb /\ length (ob_run is_ (va, vb)).2.1 = length va /\
  forall i, i ∈ is_ \/ va !! i = vb !! i -> (ob_run is_ (va, vb)).2.1 !! i = vb !! i.
Proof.
  revert va. induction is_ as [|i is_ IH]; intros va Hl.
  - split; [done|]. split; [done|]. by intros j [Hj%elem_of_nil|].
  - cbn [ob_run ob_apply vectors_object fst snd].
    set (va' := match vb !! i with Some z => <[i:=z]> va | None => va end).
    assert (Hl' : length va' = length va) by (unfold va'; destruct (vb !! i); by rewrite ?length_insert).
    destruct (IH va') as (H1 & H2 & H3); [lia|]. destruct (ob_run is_ (va', vb)) as [r s]. simpl in *.
    split; [done|]. split; [lia|]. intros j Hj. apply H3.
    destruct (decide (j = i)) as [->|Hne].
    + right. unfold va'. destruct (vb !! i) as [z|] eqn:E.
      * apply list_lookup_insert_eq. apply lookup_lt_Some in E. lia.
      * apply lookup_ge_None. apply lookup_ge_None in E. lia.
    + destruct Hj as [[Hj|Hj]%elem_of_cons|Hj]; [done|by left|right]. unfold va'.
      destruct (vb !! i); [by rewrite list_lookup_insert_ne|done].
Qed.

(** [CopyAssignmentDouble], for vectors of any length [N]. *)
Definition copy_assignment_double (N : nat) : gmap tid_t (list nat * unit) :=
  {[1%nat := (seq 0 N, tt); 2%nat := (seq 0 N, tt)]}.

Lemma copy_assignment_double_passes is_trivial (m0 : gmap addr_t Z) N n evs s :
  (forall i, (i < N)%nat -> m0 !! a i = Some 0 /\ m0 !! b i = Some 1) ->
  Machine.steps (LS := LS) is_trivial n
    (Machine.init m0 (calls <$> copy_assignment_double N)) evs s ->
  Z.of_nat n < 2 ^ 63 -> finished s ->
  forall i, (i < N)%nat -> mem (Machine.sh s) !! a i = Some 1 /\ mem (Machine.sh s) !! b i = Some 1.
Proof.
  intros Hm Hs Hn Hf i Hi. set (s0 := (replicate N 0, replicate N 1)).
  assert (Hr0 : ob_rep m0 s0).
  { split; intros j z [-> Hj]%lookup_replicate; by apply Hm. }
  assert (Hadm : forall is_ s, snd s = replicate N 1 -> Forall (fun j => (j < N)%nat) is_ -> admissible has_element is_ s).
  { clear. induction is_ as [|j is_ IH]; intros s Hs Hj; [done|]. apply Forall_cons in Hj as [Hj Hjs].
    split; [exists 1; rewrite Hs; by apply lookup_replicate|by apply IH]. }
  destruct (finished_run is_trivial m0 _ n evs s copy_no_std Hs Hn s0 Hr0) as (sched & _ & Hp & _ & Hrep); [|done|].
  - intros sched Hil%interleaves_all. apply Hadm; [done|]. apply Forall_forall. intros j Hj.
    apply (elem_of_submseteq _ _ _ Hj) in Hil. unfold copy_assignment_double in Hil. rewrite all_ops_new, all_ops_one in Hil by done. cbn [fst] in Hil.
    apply elem_of_app in Hil as [Hil|Hil]; apply elem_of_seq in Hil; lia.
  - unfold copy_assignment_double in Hp. rewrite all_ops_new, all_ops_one in Hp by done. cbn [fst] in Hp.
    destruct (copies_run sched.*2 (replicate N 0) (replicate N 1)) as (H1 & _ & H3); [by rewrite !length_replicate|].
    destruct Hrep as [Hra Hrb]. fold s0 in H1, H3. split; [apply Hra|apply Hrb; rewrite H1; by apply lookup_replicate].
    rewrite H3; [by apply lookup_replicate|]. left. rewrite Hp. apply elem_of_app. left. apply elem_of_seq. lia.
Qed.
End CopyAssignment.

(** ** Two variables written and read together *)
Section Linearizability.
Context {LS : Type} `{LocationSetLaws LS} (a b : addr_t) (Hab : a <> b).

Lemma pair_no_std c : no_std (body (ob_call (TxObject := Pair.pair_object a b) c)).
Proof. by destruct c. Qed.

(** [Linearizability]. *)
Definition writer_and_reader : gmap tid_t (list Pair.call * unit) :=
  {[1%nat := ([Pair.WriteBoth 2], tt); 2%nat := ([Pair.ReadBoth], tt)]}.

Lemma linearizability_passes is_trivial (m0 : gmap addr_t Z) n evs s th :
  m0 !! a = Some 1 /\ m0 !! b = Some 1 ->
  Machine.steps (LS := LS) is_trivial n
    (Machine.init m0 (calls (H1 := Pair.pair_object a b) <$> writer_and_reader)) evs s ->
  Z.of_nat n < 2 ^ 63 -> finished s ->
  Machine.ths s !! 2%nat = Some th -> results th = [Val (1, 1)] \/ results th = [Val (2, 2)].
Proof.
  intros Hm Hs Hn Hf Ht.
  destruct (finished_run (H2 := laws_guarded _ _ _ _ _ (H0 := Pair.pair_laws a b Hab)) is_trivial m0 _ n evs s pair_no_std Hs Hn (1, 1) Hm)
    as (sched & Hil & Hp & Hth & _); [intros; apply admissible_true|done|].
  destruct (Hth _ _ Ht) as [-> Ho]. unfold writer_and_reader in Hp. rewrite all_ops_new, all_ops_one in Hp by done. cbn [fst] in Hp.
  change (prog_of _ 2) with [Pair.ReadBoth] in Ho. unfold answers_of, ops_of in *.
  destruct sched as [|[t1 o1] [|[t2 o2] [|]]]; try (apply Permutation_length in Hp; simpl in Hp; lia).
  simpl in Hp. symmetry in Hp.
  apply Permutation_length_2_inv in Hp as [E|E]; injection E as -> ->; rewrite !filter_cons in Ho; simpl in Ho |- *;
    rewrite !filter_cons; simpl;
    destruct (decide (t1 = 2%nat)), (decide (t2 = 2%nat)); simpl in Ho |- *; try discriminate; auto.
Qed.
End Linearizability.

(** ** Arguments restored on a retry *)
Section RestoreArgs.
Context {LS : Type} `{LocationSetLaws LS}.

(** [while (static_cast<int>(lock) == 0)], for [turns] turns; a call that would
    wait longer is one that throws.  [lock] is at 8; [start] only delays the
    writer, so it is left out. *)
Fixpoint spin (turns : nat) (k : tx Z bool bool) : tx Z bool bool :=
  match turns with
  | O => Throw (other_exception 0)
  | S turns' => Read 8 (fun lock => if lock =? 0 then spin turns' k else k)
  end.

(** [acquired] when the body is over. *)
Definition return_acquired : tx Z bool bool := GetL (fun acquired => Ret acquired).

Definition acquire_body (turns : nat) : tx Z bool bool :=
  Read 8 (fun lock => if lock =? 0 then spin turns (SetL true return_acquired) else return_acquired).

(** [acquired] is an argument of [atomically]. *)
Definition acquire (turns : nat) : txn Z bool bool := Txn (fun _ => false) (acquire_body turns) (fun saved _ => saved).
Definition set_lock : txn Z bool bool := Txn (fun _ => false) (Write 8 1 (Ret false)) (fun _ now => now).

Lemma spin_never turns k lo (m : gmap addr_t Z) a lo' m' : m !! 8 = Some 0 -> Tx.run (spin turns k) lo m <> Some (Val a, lo', m').
Proof. intros Hm. induction turns as [|turns IH]; cbn [spin Tx.run]; [done|]. rewrite Hm. exact IH. Qed.

Lemma acquire_returns turns (m : gmap addr_t Z) a lo' m' : Tx.run (acquire_body turns) false m = Some (Val a, lo', m') -> a = false.
Proof.
  unfold acquire_body. cbn [Tx.run]. destruct (m !! 8) as [v|] eqn:E; [|done]. destruct (Z.eqb_spec v 0) as [->|Hv].
  - intros Hr. by apply spin_never in Hr.
  - simpl. by intros [= <- _ _].
Qed.

Lemma serial_elem m order m' (e : event Z bool bool) : serial m order m' -> e ∈ order ->
  exists m1 m2, Tx.run (e_body e) (e_in e) m1 = Some (Val (e_ret e), e_out e, m2).
Proof.
  induction 1 as [m|m order m1 e' m2 _ IH Hrun]; [by intros ?%elem_of_nil|].
  intros [He|He%list_elem_of_singleton]%elem_of_app; [by apply IH|]. subst. eauto.
Qed.

(** [RestoreArgs]: no call returns with [acquired]. *)
Definition restore_args (turns : nat) : gmap tid_t (list (txn Z bool bool) * bool) :=
  {[1%nat := ([set_lock], false); 2%nat := ([acquire turns], false)]}.

Lemma restore_args_passes is_trivial (m0 : gmap addr_t Z) turns n evs s t th r :
  Machine.steps (LS := LS) is_trivial n (Machine.init m0 (restore_args turns)) evs s ->
  Z.of_nat n < 2 ^ 63 -> Machine.ths s !! t = Some th -> Val r ∈ results th -> r = false.
Proof.
  intros Hs Hn Ht Hr. destruct (result_event is_trivial m0 _ n evs s t th r Hs Ht Hr) as (e & He & <-).
  destruct (event_txn is_trivial m0 _ n evs s e Hs He) as (p & tr & Hp & Htr & [Eb _ Hst]). simpl in Eb, Hst.
  destruct (serial_order is_trivial m0 _ n evs s Hs Hn) as (order & m & Hperm & _ & Hser & _). rewrite <- Hperm in He.
  destruct (serial_elem _ _ _ _ Hser He) as (m1 & m2 & Hrun). rewrite Eb in Hrun.
  assert (Htxn : tr = set_lock \/ tr = acquire turns).
  { unfold restore_args in Hp. apply lookup_insert_Some in Hp as [[_ <-]|[_ [_ <-]%lookup_singleton_Some]];
      apply list_elem_of_singleton in Htr as ->; auto. }
  destruct Htxn as [-> | ->]; [injection Hrun; congruence|].
  assert (Hin : e_in e = false) by (clear -Hst; by induction Hst). rewrite Hin in Hrun. exact (acquire_returns turns _ _ _ _ Hrun).
Qed.
End RestoreArgs.
