(* ===== verification/PetersonTest.v ===== *)
(** * The Peterson test: [test/peterson.cc]

    Two threads increment a plain [int] between [lock] and [unlock] of a lock made
    of transactions.  The increment is a read and a write outside the library, so
    the machine is extended with the counter and with where each thread is in its
    increment: a thread whose [lock] has returned increments before its [unlock]
    begins.  The lock excludes, so no increment is lost. *)

From S2P Require Import Prelude VersionLock LockTable Store Op LocSets Log Tx State LockGuard Machine History MachineInv Serializability Order Linearize Programs Clients.
Import History.

Module PetersonTest.
Import Peterson.
Section Test.
Context {LS : Type} `{LocationSetLaws LS} (flag0 flag1 victim : addr_t)
  (Hdistinct : flag0 <> flag1 /\ flag0 <> victim /\ flag1 <> victim).
Context (is_trivial : addr_t -> bool).
Abbreviation thread := (thread LS Z unit Z).
Abbreviation sys := (Machine.sys (LS := LS) (V := Z) (L := unit) (A := Z)).
Abbreviation event := (event Z unit Z).
Abbreviation lock := (lock flag0 flag1 victim).
Abbreviation unlock := (unlock flag0 flag1).
Abbreviation flag := (flag flag0 flag1).
Implicit Types (th : thread) (s : sys) (e : event) (id : bool) (m : gmap addr_t Z).

(** Thread 1 calls with [id] 0 and thread 2 with [id] 1. *)
Definition thread_of id : tid_t := if id then 2%nat else 1%nat.

(** [l.lock(id); counter++; l.unlock(id)] in a loop: its transactions, for
    any number of turns of each waiting loop. *)
Definition program id (waits : list nat) : list (txn Z unit Z) :=
  waits ≫= (fun w => [plain (lock w id); plain (unlock id)]).
Definition run (waits0 waits1 : list nat) : gmap tid_t (list (txn Z unit Z) * unit) :=
  {[1%nat := (program false waits0, tt); 2%nat := (program true waits1, tt)]}.

(** ** The transactions *)

Lemma program_at id waits i tr : program id waits !! i = Some tr ->
  if Nat.even i then exists w, tr = plain (lock w id) else tr = plain (unlock id).
Proof.
  revert i. induction waits as [|w waits IH]; intros i Hi; [done|]. unfold program in Hi. rewrite bind_cons in Hi.
  destruct i as [|[|i]]; [injection Hi as <-; by exists w|by injection Hi as <-|]. exact (IH i Hi).
Qed.

Lemma wait_keeps w id lo m a lo' m' : Tx.run (wait flag0 flag1 victim w id) lo m = Some (Val a, lo', m') -> m' = m.
Proof.
  induction w as [|w IH]; intros Hr; [done|]. cbn [wait Tx.run] in Hr.
  destruct (m !! flag (negb id)) as [o|]; [|done]. destruct (o =? 1); [|by simplify_eq/=].
  cbn [Tx.run] in Hr. destruct (m !! victim) as [v|]; [|done]. destruct (v =? of_bool id); [by apply IH|by simplify_eq/=].
Qed.

Lemma flag_ne id : flag id <> flag (negb id) /\ flag id <> victim.
Proof. destruct Hdistinct as (H1 & H2 & H3). by destruct id. Qed.

(** What a call does to the flags. *)
Lemma lock_flags w id lo m a lo' m' : Tx.run (lock w id) lo m = Some (Val a, lo', m') ->
  m' !! flag id = Some 1 /\ m' !! flag (negb id) = m !! flag (negb id).
Proof.
  intros Hr. unfold Peterson.lock in Hr. cbn [Tx.run] in Hr. apply wait_keeps in Hr as ->.
  destruct (flag_ne id) as [H1 H2], (flag_ne (negb id)) as [_ H3]. split.
  - by rewrite lookup_insert_ne, lookup_insert_eq by congruence.
  - by rewrite !lookup_insert_ne by congruence.
Qed.

Lemma unlock_flags id lo m a lo' m' : Tx.run (unlock id) lo m = Some (Val a, lo', m') ->
  m' !! flag (negb id) = m !! flag (negb id).
Proof. intros [= <- <- <-]. destruct (flag_ne id). by rewrite lookup_insert_ne. Qed.

(** Calls of the thread [id], and of the other one. *)
Definition call_of id e : Prop := (exists w, e_body e = lock w id) \/ e_body e = unlock id.

(** The flag of a thread is up after a [lock]. *)
Lemma flag_up m0 order m id e w : serial m0 order m ->
  (forall e', e' ∈ order -> if decide (e_tid e' = thread_of id) then call_of id e' else call_of (negb id) e') ->
  last (of_thread (thread_of id) order) = Some e -> e_body e = lock w id -> m !! flag id = Some 1.
Proof.
  intros Hs Hc Hl Hb. revert Hl. induction Hs as [m|m order m1 e1 m2 Hs IH Hr]; intros Hl; [done|].
  pose proof (Hc e1 ltac:(apply elem_of_app; right; by left)) as Hc1.
  rewrite of_thread_app in Hl. unfold of_thread at 2 in Hl. rewrite filter_cons, filter_nil in Hl. case_decide as Ht.
  - rewrite last_snoc in Hl. injection Hl as ->. rewrite Hb in Hr. by apply lock_flags in Hr as [? _].
  - rewrite app_nil_r in Hl. assert (E : m2 !! flag id = m1 !! flag id).
    { destruct Hc1 as [[w' E]|E]; rewrite E in Hr.
      - apply lock_flags in Hr as [_ E']. by rewrite negb_involutive in E'.
      - apply unlock_flags in Hr. by rewrite negb_involutive in Hr. }
    rewrite E. apply IH; [|done]. intros e' He'. apply Hc, elem_of_app. by left.
Qed.

(** ** The lock excludes *)
Context (waits0 waits1 : list nat) (m0 : gmap addr_t Z) (Hm0 : exclusive flag0 flag1 m0).
Abbreviation start := (Machine.init (LS := LS) m0 (run waits0 waits1)).

Definition waits_of id : list nat := if id then waits1 else waits0.

Lemma run_at id p : run waits0 waits1 !! thread_of id = Some p -> p = (program id (waits_of id), tt).
Proof. destruct id; intros E; vm_compute in E; by injection E as <-. Qed.

Lemma run_threads t p : run waits0 waits1 !! t = Some p -> exists id, t = thread_of id.
Proof.
  unfold run. intros [[<- _]|[_ [<- _]%lookup_singleton_Some]]%lookup_insert_Some; [by exists false|by exists true].
Qed.

Lemma test_no_std t p : run waits0 waits1 !! t = Some p -> Forall (fun tr => no_std (body tr)) p.1.
Proof.
  intros Hp. destruct (run_threads t p Hp) as [id ->]. apply run_at in Hp as ->. simpl. apply Forall_forall.
  intros tr (i & Hi)%list_elem_of_lookup_1. apply program_at in Hi. destruct (Nat.even i); [|by subst].
  destruct Hi as [w ->]. simpl. induction w as [|w IH]; [done|]. intros o. destruct (o =? 1); [|done].
  intros v. by destruct (v =? of_bool id).
Qed.

(** In its critical section: [lock] has returned, [unlock] has not begun. *)
Definition critical th : Prop := at_pc th = Idle /\ Nat.odd (length (results th)) = true.

(** The events of the thread [id], when it is idle. *)
Lemma idle_events n evs s id th : Machine.steps is_trivial n start evs s -> Z.of_nat n < 2 ^ 63 ->
  Machine.ths s !! thread_of id = Some th -> at_pc th = Idle ->
  length (of_thread (thread_of id) evs) = length (results th) /\
  forall i e, of_thread (thread_of id) evs !! i = Some e ->
    if Nat.even i then exists w, e_body e = lock w id else e_body e = unlock id.
Proof.
  intros Hs Hn Ht Hpc. destruct (steps_accounted _ _ _ _ _ _ Hs _ th Ht) as (p & Hp & _ & _ & dn & Ep & El & Hf).
  apply run_at in Hp as ->. cbn [fst] in Ep.
  destruct (calm_results th (steps_calm _ _ _ _ _ _ test_no_std Hs Hn _ _ Ht)) as [vals Er].
  unfold in_flight in Hf. rewrite Hpc, Er, returned_vals, app_nil_r in Hf. rewrite Er, length_fmap in *.
  assert (Hz : length (zip dn vals) = length vals) by (rewrite length_zip_with; lia).
  split; [by rewrite <- (Forall2_length _ _ _ Hf)|]. intros i e Hi.
  destruct (Forall2_lookup_r _ _ _ _ _ Hf Hi) as ([tr a] & Htr & [Eb _ _]). cbn [fst] in Eb.
  apply lookup_zip_with_Some in Htr as (tr' & a' & [= <- <-] & Hdn & _).
  assert (Hpr : program id (waits_of id) !! i = Some tr) by (rewrite Ep; by apply lookup_app_l_Some).
  apply program_at in Hpr. destruct (Nat.even i); [destruct Hpr as [w ->]; by exists w|by subst].
Qed.

Lemma critical_last n evs s id th : Machine.steps is_trivial n start evs s -> Z.of_nat n < 2 ^ 63 ->
  Machine.ths s !! thread_of id = Some th -> critical th ->
  exists e w, last (of_thread (thread_of id) evs) = Some e /\ e_body e = lock w id.
Proof.
  intros Hs Hn Ht [Hpc Hodd]. destruct (idle_events n evs s id th Hs Hn Ht Hpc) as [Hlen Hev].
  destruct (length (results th)) as [|k] eqn:Ek; [done|].
  destruct (lookup_lt_is_Some_2 (of_thread (thread_of id) evs) k ltac:(lia)) as [e He].
  specialize (Hev k e He). rewrite Nat.odd_succ in Hodd. rewrite Hodd in Hev. destruct Hev as [w Hw]. exists e, w.
  by rewrite last_lookup, Hlen.
Qed.

Lemma event_call n evs s e : Machine.steps is_trivial n start evs s -> e ∈ evs ->
  exists id, e_tid e = thread_of id /\ call_of id e.
Proof.
  intros Hs He. destruct (event_txn is_trivial m0 _ n evs s e Hs He) as (p & tr & Hp & Htr & [Eb _ _]). cbn [fst] in Eb.
  destruct (run_threads _ p Hp) as [id Eid]. exists id. split; [done|]. rewrite Eid in Hp. apply run_at in Hp as ->.
  apply list_elem_of_lookup in Htr as [i Hi]. apply program_at in Hi. unfold call_of. rewrite Eb.
  destruct (Nat.even i); [destruct Hi as [w ->]; left; by exists w|subst; by right].
Qed.

(** The two threads are not in their critical sections at the same time. *)
Lemma mutual_exclusion n evs s th0 th1 : Machine.steps is_trivial n start evs s -> Z.of_nat n < 2 ^ 63 ->
  Machine.ths s !! thread_of false = Some th0 -> Machine.ths s !! thread_of true = Some th1 ->
  ~ (critical th0 /\ critical th1).
Proof.
  intros Hs Hn H0' H1 [Hc0 Hc1].
  assert (Hq : quiescent s).
  { intros t th Ht. destruct (steps_accounted _ _ _ _ _ _ Hs t th Ht) as (p & Hp & _).
    destruct (run_threads t p Hp) as [[|] ->]; rewrite ?H0', ?H1 in Ht; injection Ht as <-;
      [by destruct Hc1 as [-> _]|by destruct Hc0 as [-> _]]. }
  destruct (serial_order is_trivial m0 _ n evs s Hs Hn) as (order & m & Hp & Hsrt & Hser & Em).
  assert (Hup : forall id th, Machine.ths s !! thread_of id = Some th -> critical th -> m !! flag id = Some 1).
  { intros id th Ht Hc. destruct (critical_last n evs s id th Hs Hn Ht Hc) as (e & w & Hl & Hb).
    apply (flag_up m0 order m id e w Hser); [|by rewrite (of_thread_order is_trivial m0 _ n evs s order _ Hs Hn Hp Hsrt)|done].
    intros e' He'. rewrite Hp in He'. destruct (event_call n evs s e' Hs He') as (id' & E & Hcall).
    case_decide as Hd; rewrite E in Hd;
      destruct id, id'; first [exact Hcall|discriminate Hd|by destruct Hd]. }
  pose proof (peterson_excludes flag0 flag1 victim Hdistinct is_trivial m0 (run waits0 waits1) n evs s) as Hex.
  rewrite (Em Hq) in Hex. apply Hex; try done.
  - intros t p Hpt. destruct (run_threads t p Hpt) as [id ->]. apply run_at in Hpt as ->. cbn [fst]. apply Forall_forall.
    intros tr (i & Hi)%list_elem_of_lookup_1. apply program_at in Hi.
    destruct (Nat.even i); [destruct Hi as [w ->]; exists w, id; by left|subst; exists 0%nat, id; by right].
  - split; [exact (Hup false th0 H0' Hc0)|exact (Hup true th1 H1 Hc1)].
Qed.

(** ** The machine with the counter *)

(** A thread's increments so far, and what its [counter++] has read. *)
Record loop := Loop { incs : nat; reg : option Z }.
Record test_sys := TestSys { base : sys; counter : Z; loops : bool -> loop }.

Definition criticalb th : bool := match at_pc th with Idle => Nat.odd (length (results th)) | _ => false end.

(** [lock] has returned and the increment of this turn is not done. *)
Definition must_increment th (l : loop) : bool := criticalb th && (incs l =? Nat.div2 (length (results th)))%nat.

Definition set_loop id (l : loop) (s : test_sys) : test_sys :=
  TestSys (base s) (counter s) (fun i => if Bool.eqb i id then l else loops s i).

(** A step of a thread in the library, or in its increment. *)
Inductive action := Transact (id : bool) | Increment (id : bool).

Definition act (a : action) (s : test_sys) : option (test_sys * option event) :=
  match a with
  | Transact id =>
      th ← Machine.ths (base s) !! thread_of id;
      if must_increment th (loops s id) then None else
      '(sh', th', ev) ← Machine.tstep is_trivial (thread_of id) (Machine.sh (base s)) th;
      Some (TestSys (Machine.Sys sh' (<[thread_of id := th']> (Machine.ths (base s)))) (counter s) (loops s), ev)
  | Increment id =>
      th ← Machine.ths (base s) !! thread_of id;
      if must_increment th (loops s id) then
        match reg (loops s id) with
        | None => Some (set_loop id (Loop (incs (loops s id)) (Some (counter s))) s, None)
        | Some v =>
            if v + 1 <? 2 ^ 31 then
              let s' := set_loop id (Loop (S (incs (loops s id))) None) s in
              Some (TestSys (base s') (v + 1) (loops s'), None)
            else None
        end
      else None
  end.

Fixpoint run_test (acts : list action) (s : test_sys) : option (test_sys * list event) :=
  match acts with
  | [] => Some (s, [])
  | a :: acts =>
      '(s1, ev) ← act a s;
      '(s2, evs) ← run_test acts s1;
      Some (s2, option_list ev ++ evs)
  end.

(** [run]: the counter at 0, both threads at the start. *)
Definition test_start : test_sys := TestSys start 0 (fun _ => Loop 0 None).

(** ** The invariant *)

(** Increments and results of a thread. *)
Definition in_step th (l : loop) : Prop :=
  if Nat.odd (length (results th))
  then incs l = S (Nat.div2 (length (results th))) \/ incs l = Nat.div2 (length (results th)) /\ at_pc th = Idle
  else incs l = Nat.div2 (length (results th)).

Record test_ok (n : nat) (evs : list event) (s : test_sys) : Prop := TestOk {
  ok_steps : exists k, (k <= n)%nat /\ Machine.steps is_trivial k start evs (base s);
  ok_counter : counter s = Z.of_nat (incs (loops s false) + incs (loops s true));
  ok_thread id : exists th, Machine.ths (base s) !! thread_of id = Some th /\ in_step th (loops s id) /\
    forall v, reg (loops s id) = Some v -> v = counter s /\ must_increment th (loops s id) = true }.

Lemma must_critical th l : must_increment th l = true -> critical th /\ incs l = Nat.div2 (length (results th)).
Proof.
  unfold must_increment, criticalb, critical. rewrite andb_true_iff, Nat.eqb_eq.
  destruct (at_pc th); intros [Hc Hi]; by split.
Qed.

Lemma test_start_ok : test_ok 0 [] test_start.
Proof.
  split; [exists 0%nat; split; [done|constructor]|done|]. intros id.
  exists (Machine.new_thread (program id (waits_of id), tt)). split; [by destruct id|]. split; [reflexivity|intros v [=]].
Qed.

(** A thread that need not increment keeps in step. *)
Lemma in_step_progress t th th' ev l : progress t th th' ev -> in_step th l -> must_increment th l = false -> in_step th' l.
Proof.
  intros Hp Hi Hm. unfold in_step, must_increment, criticalb in *.
  assert (Hr : results th' = results th \/ exists o, results th' = results th ++ [o] /\ at_pc th' = Idle).
  { destruct Hp; eauto. }
  destruct Hr as [->|(o & -> & Hidle)].
  - destruct (Nat.odd (length (results th))) eqn:Eo; [|done]. destruct Hi as [?|[Ei Hpc]]; [by left|].
    by rewrite Hpc, Ei, Nat.eqb_refl in Hm.
  - rewrite length_app, Nat.add_1_r, Nat.odd_succ. rewrite <- Nat.negb_odd.
    destruct (Nat.odd (length (results th))) eqn:Eo; simpl negb.
    + apply Nat.odd_spec in Eo as [k Ek]. rewrite Ek in *. rewrite Nat.add_1_r, Nat.div2_succ_double in Hi.
      replace (S (2 * k + 1)) with (2 * S k)%nat by lia. rewrite Nat.div2_double.
      destruct Hi as [Hi|[Hi Hpc]]; [done|]. rewrite Hpc, Hi, Nat.add_1_r, Nat.div2_succ_double, Nat.eqb_refl in Hm. done.
    + assert (Ee : Nat.even (length (results th)) = true) by by rewrite <- Nat.negb_odd, Eo.
      apply Nat.even_spec in Ee as [k Ek]. rewrite Ek in *. rewrite Nat.div2_succ_double. rewrite Nat.div2_double in Hi.
      right. by split.
Qed.

(** The other thread's part of the invariant. *)
Lemma other_ne id id' : id' <> id -> thread_of id <> thread_of id' /\ Bool.eqb id' id = false.
Proof. by destruct id, id'. Qed.

Lemma transact_ok n evs (s : test_sys) id (s' : test_sys) ev : test_ok n evs s -> Z.of_nat (S n) < 2 ^ 63 ->
  act (Transact id) s = Some (s', ev) -> test_ok (S n) (evs ++ option_list ev) s'.
Proof.
  intros [(k & Hk & Hs) Hc Ht] Hn Ha. simpl in Ha. destruct (Ht id) as (th & Hth & Hin & Hreg). rewrite Hth in Ha. simpl in Ha.
  destruct (must_increment th (loops s id)) eqn:Em; [done|].
  destruct (Machine.tstep is_trivial (thread_of id) (Machine.sh (base s)) th) as [[[sh' th'] ev']|] eqn:Est; [|done].
  simpl in Ha. injection Ha as <- <-. split; cbn [base counter loops].
  - exists (S k). split; [lia|]. econstructor; [exact Hs|]. by econstructor.
  - done.
  - intros id'. cbn [Machine.ths]. destruct (decide (id' = id)) as [->|Hne].
    + exists th'. split; [apply lookup_insert_eq|].
      destruct (steps_accounted _ _ _ _ _ _ Hs _ th Hth) as (p & _ & Hact & _).
      split; [exact (in_step_progress _ _ _ _ _ (tstep_progress _ _ _ _ _ _ _ Hact Est) Hin Em)|].
      intros v Hv. destruct (Hreg v Hv) as [_ Hm]. congruence.
    + destruct (Ht id') as (th1 & Hth1 & Hin1 & Hreg1). exists th1. split; [|by split].
      rewrite lookup_insert_ne; [done|]. by apply other_ne.
Qed.

Lemma increment_ok n evs (s : test_sys) id (s' : test_sys) ev : test_ok n evs s -> Z.of_nat (S n) < 2 ^ 63 ->
  act (Increment id) s = Some (s', ev) -> test_ok (S n) (evs ++ option_list ev) s'.
Proof.
  intros [(k & Hk & Hs) Hc Ht] Hn Ha. simpl in Ha. destruct (Ht id) as (th & Hth & Hin & Hreg). rewrite Hth in Ha. simpl in Ha.
  destruct (must_increment th (loops s id)) eqn:Em; [|done].
  assert (Hother : forall id' th1 v, id' <> id -> Machine.ths (base s) !! thread_of id' = Some th1 ->
    reg (loops s id') = Some v -> must_increment th1 (loops s id') = true -> False).
  { intros id' th1 v Hne H1 _ Hm1. apply must_critical in Em as [Hc0 _]. apply must_critical in Hm1 as [Hc1 _].
    destruct id, id'; try done; [apply (mutual_exclusion k evs (base s) th1 th)|apply (mutual_exclusion k evs (base s) th th1)];
      (done || lia || by split). }
  destruct (reg (loops s id)) as [v|] eqn:Er.
  - destruct (Hreg v eq_refl) as [-> _]. destruct (counter s + 1 <? 2 ^ 31); [|done].
    injection Ha as <- <-. rewrite app_nil_r. split; cbn [base counter loops set_loop].
    + exists k. split; [lia|done].
    + destruct id; simpl; lia.
    + intros id'. destruct (decide (id' = id)) as [->|Hne].
      * exists th. rewrite Bool.eqb_reflx. split; [done|]. split; [|intros v [=]].
        apply must_critical in Em as [[_ Hodd] Ei]. unfold in_step. rewrite Hodd. left. simpl. by rewrite Ei.
      * destruct (other_ne id id' Hne) as [_ ->]. destruct (Ht id') as (th1 & Hth1 & Hin1 & Hreg1). exists th1. split; [done|].
        split; [done|]. intros v Hv. destruct (Hreg1 v Hv) as [_ Hm]. destruct (Hother id' th1 v Hne Hth1 Hv Hm).
  - injection Ha as <- <-. rewrite app_nil_r. split; cbn [base counter loops set_loop].
    + exists k. split; [lia|done].
    + destruct id; simpl; lia.
    + intros id'. destruct (decide (id' = id)) as [->|Hne].
      * exists th. rewrite Bool.eqb_reflx. split; [done|]. split; [done|]. by intros v [= <-].
      * destruct (other_ne id id' Hne) as [_ ->]. destruct (Ht id') as (th1 & Hth1 & Hin1 & Hreg1). by exists th1.
Qed.

Lemma run_test_ok n evs (s : test_sys) acts (s' : test_sys) evs' : test_ok n evs s -> Z.of_nat (n + length acts) < 2 ^ 63 ->
  run_test acts s = Some (s', evs') -> test_ok (n + length acts) (evs ++ evs') s'.
Proof.
  revert n evs s evs'. induction acts as [|a acts IH]; intros n evs s evs' Hok Hn Hr; simpl in Hr.
  - injection Hr as <- <-. by rewrite app_nil_r, Nat.add_0_r.
  - destruct (act a s) as [[s1 ev]|] eqn:Ea; [|done]. simpl in Hr.
    destruct (run_test acts s1) as [[s2 evs2]|] eqn:Er; [|done]. simpl in Hr. injection Hr as <- <-. simpl length in *.
    rewrite app_assoc, <- Nat.add_succ_comm. apply (IH (S n) _ s1); [|lia|done].
    destruct a as [id|id]; [eapply transact_ok|eapply increment_ok]; (done || lia).
Qed.

(** At the end a thread has made an increment for each turn. *)
Lemma finished_incs n evs (s : test_sys) id : test_ok n evs s -> finished (base s) -> Z.of_nat n < 2 ^ 63 -> incs (loops s id) = length (waits_of id).
Proof.
  intros [(k & Hk & Hs) _ Ht] Hf Hn. destruct (Ht id) as (th & Hth & Hin & _).
  destruct (steps_accounted _ _ _ _ _ _ Hs _ th Hth) as (p & Hp & _ & _ & dn & Ep & El & _).
  apply run_at in Hp as ->. rewrite (Hf _ _ Hth), app_nil_r in Ep. cbn [fst] in Ep. subst dn.
  assert (Hl : length (program id (waits_of id)) = (2 * length (waits_of id))%nat).
  { unfold program. generalize (waits_of id) as ws. induction ws as [|w ws IH]; [done|]. rewrite bind_cons, length_app, IH. simpl. lia. }
  unfold in_step in Hin. rewrite <- El, Hl in Hin. rewrite Nat.odd_mul in Hin. simpl Nat.odd in Hin. simpl andb in Hin.
  by rewrite Nat.div2_double in Hin.
Qed.

(** [C26] The Peterson test passes.  Two threads increment a plain counter between
    [lock] and [unlock], any number of times each and with any waiting, in any
    interleaving of the steps of the transactions with the reads and the writes
    of the increments: they are never both between a [lock] that returned and an
    [unlock] that has not begun; the counter is the number of increments made; and
    when both threads are over it is the number of their turns. *)
Theorem peterson_counts acts (s : test_sys) evs : Z.of_nat (length acts) < 2 ^ 63 -> run_test acts test_start = Some (s, evs) ->
  (forall th0 th1, Machine.ths (base s) !! 1%nat = Some th0 -> Machine.ths (base s) !! 2%nat = Some th1 ->
     ~ (critical th0 /\ critical th1)) /\
  counter s = Z.of_nat (incs (loops s false) + incs (loops s true)) /\
  (finished (base s) -> counter s = Z.of_nat (length waits0 + length waits1)).
Proof.
  intros Hn Hr. pose proof (run_test_ok 0 [] test_start acts s evs test_start_ok ltac:(done) Hr) as Hok.
  pose proof Hok as [(k & Hk & Hs) Hc _]. simpl in Hk. split; [|split; [done|]].
  - intros th0 th1 H0' H1. by apply (mutual_exclusion k evs (base s) th0 th1 Hs ltac:(lia)).
  - intros Hf. rewrite Hc. by rewrite !(finished_incs _ _ _ _ Hok Hf) by done.
Qed.
End Test.
End PetersonTest.
