(* ===== verification/Links.v ===== *)
(** * Singly linked nodes in memory

    What the lists and the queue built on [TVar<Node *>] share: a node has the
    address of its [next], and a chain of nodes in memory ends at a given node.
    [next] holds a pointer: null, or a node. *)

From S2P Require Import Prelude.

Section Links.
Context {N V : Type} (next_at : N -> addr_t) (ptr : option N -> V).
Implicit Types (m : gmap addr_t V) (a b c d : N) (l r : list N).

(** From [a] through the nodes of [l] to [z]. *)
Fixpoint linked m a l z : Prop :=
  match l with
  | [] => m !! next_at a = Some (ptr (Some z))
  | b :: r => m !! next_at a = Some (ptr (Some b)) /\ linked m b r z
  end.

(** What is after a first part of the chain. *)
Definition linked_rest m l z : Prop := match l with [] => True | c :: r => linked m c r z end.

Fixpoint last_of a l : N := match l with [] => a | b :: r => last_of b r end.

Lemma last_of_cons a b l : last_of a (b :: l) = last_of b l.
Proof. done. Qed.

Lemma last_of_elem a l : last_of a l ∈ a :: l.
Proof.
  revert a. induction l as [|b l IH]; intros a; [by left|]. right. apply IH.
Qed.

Lemma linked_app m a l r z : linked m a (l ++ r) z <-> linked m a l (hd z r) /\ linked_rest m r z.
Proof.
  revert a. induction l as [|b l IH]; intros a; simpl.
  - destruct r as [|c r]; simpl; naive_solver.
  - rewrite IH. naive_solver.
Qed.

Lemma linked_last m a l z : linked m a l z -> m !! next_at (last_of a l) = Some (ptr (Some z)).
Proof.
  revert a. induction l as [|b l IH]; intros a; simpl; [done|]. intros [_ Hl]. by apply IH.
Qed.

Lemma linked_frame x v m a l z : x ∉ next_at <$> (a :: l) -> linked m a l z -> linked (<[x := v]> m) a l z.
Proof.
  revert a. induction l as [|b l IH]; intros a Hx; simpl in *.
  - intros Hl. rewrite lookup_insert_ne; [done|]. intros ->. apply Hx. by left.
  - intros [Ha Hl]. split; [|apply IH; [|done]; intros Hin; apply Hx; by right].
    rewrite lookup_insert_ne; [done|]. intros ->. apply Hx. by left.
Qed.

Lemma linked_rest_frame x v m l z : x ∉ next_at <$> l -> linked_rest m l z -> linked_rest (<[x := v]> m) l z.
Proof. destruct l as [|c r]; [done|]. apply linked_frame. Qed.

(** The last node of a chain made to point elsewhere. *)
Lemma linked_set_last m a l z z' : NoDup (next_at <$> (a :: l)) -> linked m a l z ->
  linked (<[next_at (last_of a l) := ptr (Some z')]> m) a l z'.
Proof.
  revert a. induction l as [|b l IH]; intros a Hn; [intros _; apply lookup_insert_eq|].
  intros [Ha Hl]. simpl last_of. pose proof Hn as [Hna Hn']%NoDup_cons. split; [|by apply IH].
  rewrite lookup_insert_ne; [done|]. intros E. apply Hna. rewrite <- E.
  exact (list_elem_of_fmap_2 next_at _ _ (last_of_elem b l)).
Qed.

(** A node inserted after the first part of a chain. *)
Lemma linked_insert m a l r z n : NoDup (next_at <$> (a :: l ++ r)) -> next_at n ∉ next_at <$> (a :: l ++ r) ->
  linked m a (l ++ r) z ->
  linked (<[next_at (last_of a l) := ptr (Some n)]> (<[next_at n := ptr (Some (hd z r))]> m)) a (l ++ n :: r) z.
Proof.
  intros Hnd Hn Hl. apply linked_app in Hl as [Hl Hr]. rewrite app_comm_cons, fmap_app in Hnd, Hn.
  apply NoDup_app in Hnd as (Hnl & Hdis & Hnr). rewrite not_elem_of_app in Hn. destruct Hn as [Hn1 Hn2].
  apply linked_app. split.
  - apply (linked_set_last _ _ _ (hd z r)); [done|]. by apply linked_frame.
  - simpl. assert (Hlast : next_at (last_of a l) ∈ next_at <$> a :: l) by apply list_elem_of_fmap_2, last_of_elem.
    assert (E : (<[next_at (last_of a l) := ptr (Some n)]> (<[next_at n := ptr (Some (hd z r))]> m)) !! next_at n =
      Some (ptr (Some (hd z r)))).
    { rewrite lookup_insert_ne by (intros E; apply Hn1; by rewrite <- E). apply lookup_insert_eq. }
    destruct r as [|c r]; [exact E|]. split; [exact E|]. apply linked_frame; [by apply Hdis|].
    apply linked_frame; [exact Hn2|exact Hr].
Qed.

(** The node after the first part of a chain unlinked. *)
Lemma linked_remove m a l c r z : NoDup (next_at <$> (a :: l ++ c :: r)) -> linked m a (l ++ c :: r) z ->
  m !! next_at c = Some (ptr (Some (hd z r))) /\
  linked (<[next_at (last_of a l) := ptr (Some (hd z r))]> m) a (l ++ r) z.
Proof.
  intros Hnd Hl. apply linked_app in Hl as [Hl Hr]. simpl in Hl, Hr. rewrite app_comm_cons, fmap_app in Hnd.
  apply NoDup_app in Hnd as (Hnl & Hdis & Hnr). split; [by destruct r; [|destruct Hr]|].
  apply linked_app. split; [by apply (linked_set_last _ _ _ c)|].
  apply linked_rest_frame.
  - intros Hin. apply (Hdis (next_at (last_of a l))); [apply list_elem_of_fmap_2, last_of_elem|]. by right.
  - by destruct r; [|destruct Hr].
Qed.
End Links.
