(* ===== verification/OrderedList.v ===== *)
(** * The ordered linked lists

    [zoo/ordered_ll.h] and, the same code, [.graphs/coarse_linked_list]: a set of
    items in a chain of nodes ordered by a hash of the item, between two
    sentinels with the keys [INT_MIN] and [INT_MAX].  The item and the key of a
    node never change, so a pointer carries them with the node's address; the
    address is that of its [next].  A node allocated in a transaction is at an
    address given to the operation; its constructor's store to [next] is among
    the writes of the transaction (nobody else knows the node).  The loops take a
    fuel; dereferencing null, which is undefined, and running out of fuel are an
    exception that no theorem allows. *)

From S2P Require Import Prelude Links Tx Machine.

Definition INT_MIN : Z := - 2 ^ 31.
Definition INT_MAX : Z := 2 ^ 31 - 1.

(** [int key = hash(item)]: the conversion of a [size_t]. *)
Definition to_int (z : Z) : Z := (z + 2 ^ 31) mod 2 ^ 32 - 2 ^ 31.

Lemma to_int_range z : INT_MIN <= to_int z <= INT_MAX.
Proof. unfold to_int, INT_MIN, INT_MAX. pose proof (Z.mod_pos_bound (z + 2 ^ 31) (2 ^ 32)). lia. Qed.

Module OrderedLinkedList.

Record node (T : Type) := Node { next_at : addr_t; item : T; key : Z }.
Arguments Node {T} _ _ _.
Arguments next_at {T} _.
Arguments item {T} _.
Arguments key {T} _.

Section List.
Context {T : Type} (default_item : T) (hash : T -> Z) (head_at tail_at : addr_t).
Abbreviation pointer := (option (node T)).
Abbreviation body_t := (tx pointer bool bool).
Implicit Types (m : gmap addr_t pointer) (ns : list (node T)).

Definition m_head : node T := Node head_at default_item INT_MIN.
Definition m_tail : node T := Node tail_at default_item INT_MAX.

(** The memory after the constructor. *)
Definition empty_list m : gmap addr_t pointer := <[head_at := Some m_tail]> (<[tail_at := None]> m).

Definition undefined : body_t := Throw (other_exception 1).
Definition out_of_fuel : body_t := Throw (other_exception 2).

(** [*p] for a pointer that the code dereferences without a test. *)
Definition deref (p : pointer) (k : node T -> body_t) : body_t :=
  match p with Some n => k n | None => undefined end.

(** The loops of [locate] and [contains]. *)
Fixpoint locate_from (fuel : nat) (pred curr : node T) (key0 : Z) (k : node T -> node T -> body_t) : body_t :=
  if key curr <? key0 then
    match fuel with
    | O => out_of_fuel
    | S fuel' => Read (next_at curr) (fun p => deref p (fun next => locate_from fuel' curr next key0 k))
    end
  else k pred curr.

Definition locate (fuel : nat) (start : node T) (key0 : Z) (k : node T -> node T -> body_t) : body_t :=
  Read (next_at start) (fun p => deref p (fun curr => locate_from fuel start curr key0 k)).

Fixpoint find_from (fuel : nat) (curr : node T) (key0 : Z) (k : node T -> body_t) : body_t :=
  if key curr <? key0 then
    match fuel with
    | O => out_of_fuel
    | S fuel' => Read (next_at curr) (fun p => deref p (fun next => find_from fuel' next key0 k))
    end
  else k curr.

(** [result = b], and [return result] after the call. *)
Definition set_result (b : bool) (k : body_t) : body_t := SetL b k.
Definition return_result : body_t := GetL (fun result => Ret result).

Definition add_body (fuel : nat) (x : T) (new_at : addr_t) : body_t :=
  let key0 := to_int (hash x) in
  locate fuel m_head key0 (fun pred curr =>
    if key curr =? key0 then set_result false return_result
    else
      let n := Node new_at x key0 in
      Write (next_at n) (Some curr)                       (* new Node(item, key, curr) *)
        (Write (next_at pred) (Some n) (set_result true return_result))).

Definition remove_body (fuel : nat) (x : T) : body_t :=
  let key0 := to_int (hash x) in
  locate fuel m_head key0 (fun pred curr =>
    if key curr =? key0 then
      Read (next_at curr) (fun next => Write (next_at pred) next (set_result true return_result))
    else return_result).

Definition contains_body (fuel : nat) (x : T) : body_t :=
  let key0 := to_int (hash x) in
  find_from fuel m_head key0 (fun curr => set_result (key curr =? key0) return_result).

(** The methods: [bool result = false], the transaction; [remove] and [contains]
    pass [result] to [atomically], which restores it on a retry. *)
Definition add (fuel : nat) (x : T) (new_at : addr_t) : txn pointer bool bool :=
  Txn (fun _ => false) (add_body fuel x new_at) (fun _ now => now).
Definition remove (fuel : nat) (x : T) : txn pointer bool bool :=
  Txn (fun _ => false) (remove_body fuel x) (fun saved _ => saved).
Definition contains (fuel : nat) (x : T) : txn pointer bool bool :=
  Txn (fun _ => false) (contains_body fuel x) (fun saved _ => saved).

(** [coarse_linked_list]'s [remove] also assigns [false]. *)
Definition coarse_remove_body (fuel : nat) (x : T) : body_t :=
  let key0 := to_int (hash x) in
  locate fuel m_head key0 (fun pred curr =>
    if key curr =? key0 then
      Read (next_at curr) (fun next => Write (next_at pred) next (set_result true return_result))
    else set_result false return_result).

(** There no method passes [result] to [atomically]. *)
Definition coarse_add (fuel : nat) (x : T) (new_at : addr_t) : txn pointer bool bool :=
  Txn (fun _ => false) (add_body fuel x new_at) (fun _ now => now).
Definition coarse_remove (fuel : nat) (x : T) : txn pointer bool bool :=
  Txn (fun _ => false) (coarse_remove_body fuel x) (fun _ now => now).
Definition coarse_contains (fuel : nat) (x : T) : txn pointer bool bool :=
  Txn (fun _ => false) (contains_body fuel x) (fun _ now => now).

(** ** What a list represents *)

Definition in_range (k : Z) : Prop := INT_MIN < k < INT_MAX.

Record rep m ns : Prop := {
  rep_linked : linked next_at (fun p => p) m m_head ns m_tail;
  rep_nodup : NoDup (next_at <$> (m_head :: ns));
  rep_tail : tail_at ∉ next_at <$> (m_head :: ns) /\ m !! tail_at = Some None;
  rep_sorted : StronglySorted (fun a b => key a < key b) ns;
  rep_keys : Forall (fun n => in_range (key n) /\ key n = to_int (hash (item n))) ns }.

(** The abstract set: the keys of the items. *)
Definition keys ns : gset Z := list_to_set (key <$> ns).

Lemma elem_keys ns k : k ∈ keys ns <-> exists n, n ∈ ns /\ key n = k.
Proof. unfold keys. rewrite elem_of_list_to_set, list_elem_of_fmap. naive_solver. Qed.

(** Where a key belongs. *)
Lemma split_at ns k : StronglySorted (fun a b : node T => key a < key b) ns ->
  exists l r, ns = l ++ r /\ Forall (fun n => key n < k) l /\ Forall (fun n => k <= key n) r.
Proof.
  intros Hs. induction Hs as [|n ns Hs IH Hn]; [by exists [], []|].
  destruct (Z.lt_ge_cases (key n) k) as [Hlt|Hge].
  - destruct IH as (l & r & -> & Hl & Hr). exists (n :: l), r. split; [done|]. split; [by constructor|done].
  - exists [], (n :: ns). split; [done|]. split; [done|]. constructor; [done|].
    eapply Forall_impl; [exact Hn|]. intros x Hx. simpl in Hx. lia.
Qed.

(** ** The loops *)

Lemma ordered_locate_from fuel a c l z k0 k lo m : linked next_at (fun p => p) m c l z ->
  Forall (fun n => key n < k0) (c :: l) -> k0 <= key z -> (length l < fuel)%nat ->
  Tx.run (locate_from fuel a c k0 k) lo m = Tx.run (k (last_of c l) z) lo m.
Proof.
  revert fuel a c. induction l as [|b l IH]; intros fuel a c Hl Hk Hz Hf; apply Forall_cons in Hk as [Hc Hk];
    (destruct fuel as [|fuel]; [simpl in Hf; lia|]); cbn [locate_from];
    (destruct (Z.ltb_spec (key c) k0) as [_|]; [|lia]); simpl in Hl; cbn [Tx.run].
  - rewrite Hl. cbn [deref]. destruct fuel as [|fuel]; cbn [locate_from last_of];
      (destruct (Z.ltb_spec (key z) k0) as [|_]; [lia|done]).
  - destruct Hl as [Hb Hl]. rewrite Hb. cbn [deref last_of]. apply IH; [done|done|done|simpl in Hf; lia].
Qed.

Lemma ordered_locate fuel a l z k0 k lo m : linked next_at (fun p => p) m a l z ->
  Forall (fun n => key n < k0) l -> k0 <= key z -> (length l <= fuel)%nat ->
  Tx.run (locate fuel a k0 k) lo m = Tx.run (k (last_of a l) z) lo m.
Proof.
  intros Hl Hk Hz Hf. unfold locate. cbn [Tx.run]. destruct l as [|b l]; simpl in Hl.
  - rewrite Hl. cbn [deref last_of]. destruct fuel as [|fuel]; cbn [locate_from];
      (destruct (Z.ltb_spec (key z) k0) as [|_]; [lia|done]).
  - destruct Hl as [Hb Hl]. rewrite Hb. cbn [deref last_of]. by apply ordered_locate_from.
Qed.

Lemma run_find_from fuel c l z k0 k lo m : linked next_at (fun p => p) m c l z ->
  Forall (fun n => key n < k0) (c :: l) -> k0 <= key z -> (length l < fuel)%nat ->
  Tx.run (find_from fuel c k0 k) lo m = Tx.run (k z) lo m.
Proof.
  revert fuel c. induction l as [|b l IH]; intros fuel c Hl Hk Hz Hf; apply Forall_cons in Hk as [Hc Hk];
    (destruct fuel as [|fuel]; [simpl in Hf; lia|]); cbn [find_from];
    (destruct (Z.ltb_spec (key c) k0) as [_|]; [|lia]); simpl in Hl; cbn [Tx.run].
  - rewrite Hl. cbn [deref]. destruct fuel as [|fuel]; cbn [find_from];
      (destruct (Z.ltb_spec (key z) k0) as [|_]; [lia|done]).
  - destruct Hl as [Hb Hl]. rewrite Hb. cbn [deref]. apply IH; [done|done|done|simpl in Hf; lia].
Qed.

(** ** The list around a key *)

Lemma rep_split m ns k0 : rep m ns -> k0 < INT_MAX ->
  exists l r, ns = l ++ r /\ Forall (fun n => key n < k0) l /\
    linked next_at (fun p => p) m m_head l (hd m_tail r) /\ k0 <= key (hd m_tail r) /\
    (k0 ∈ keys ns <-> key (hd m_tail r) = k0).
Proof.
  intros [Hl _ _ Hs Hk] Hm. destruct (split_at ns k0 Hs) as (l & r & -> & Hlt & Hge). exists l, r.
  pose proof (proj1 (linked_app next_at (fun p => p) m m_head l r m_tail) Hl) as [Hl1 _].
  assert (Hz : k0 <= key (hd m_tail r)) by (destruct Hge; [simpl; lia|done]).
  split; [done|]. split; [done|]. split; [done|]. split; [done|]. rewrite elem_keys. split.
  - intros (n & Hn & E). rewrite Forall_forall in Hlt. apply elem_of_app in Hn as [Hn|Hn].
    + specialize (Hlt n Hn). lia.
    + destruct r as [|c r]; [by apply elem_of_nil in Hn|]. simpl in *.
      apply elem_of_cons in Hn as [<-|Hn]; [done|].
      apply StronglySorted_app_1_r, StronglySorted_inv in Hs as [_ Hs]. rewrite Forall_forall in Hs.
      specialize (Hs n Hn). simpl in Hs. lia.
  - intros E. destruct r as [|c r]; simpl in E; [lia|]. exists c. split; [|done].
    apply elem_of_app. right. by left.
Qed.

(** A new node between them keeps the representation. *)
Lemma rep_insert m l r k0 x new_at : rep m (l ++ r) -> in_range k0 -> k0 = to_int (hash x) ->
  Forall (fun n => key n < k0) l -> k0 < key (hd m_tail r) ->
  new_at ∉ next_at <$> (m_head :: l ++ r) -> new_at <> tail_at ->
  rep (<[next_at (last_of m_head l) := Some (Node new_at x k0)]> (<[new_at := Some (hd m_tail r)]> m))
    (l ++ Node new_at x k0 :: r).
Proof.
  intros [Hl Hn [Ht1 Ht2] Hs Hk] Hr Ek Hlt Hgt Hnew Hnt. constructor.
  - by apply (linked_insert next_at (fun p => p) m m_head l r m_tail (Node new_at x k0)).
  - assert (Hp : next_at <$> (m_head :: l ++ Node new_at x k0 :: r) ≡ₚ new_at :: (next_at <$> (m_head :: l ++ r)))
      by (simpl; rewrite !fmap_app; simpl; rewrite <- Permutation_middle; apply Permutation_swap).
    rewrite Hp. by constructor.
  - assert (Hlast : next_at (last_of m_head l) <> tail_at).
    { intros E. apply Ht1. rewrite <- E. apply list_elem_of_fmap_2. pose proof (last_of_elem m_head l) as Hin.
      apply elem_of_cons in Hin as [->|Hin]; [by left|right]. apply elem_of_app. by left. }
    split; [|by rewrite !lookup_insert_ne].
    simpl. rewrite fmap_app. simpl in *. rewrite fmap_app in Ht1. set_solver.
  - apply StronglySorted_app in Hs as (Hlr & Hsl & Hsr). rewrite Forall_forall in Hlt.
    apply StronglySorted_app. split; [|split; [done|]].
    + intros a b Ha [->|Hb]%elem_of_cons; [by apply Hlt|by apply Hlr].
    + constructor; [done|]. apply Forall_forall. intros b Hb. simpl.
      destruct r as [|c r]; [by apply elem_of_nil in Hb|]. simpl in Hgt.
      apply elem_of_cons in Hb as [->|Hb]; [done|]. apply StronglySorted_inv in Hsr as [_ Hsr].
      rewrite Forall_forall in Hsr. specialize (Hsr b Hb). simpl in Hsr. lia.
  - apply Forall_app in Hk as [Hk1 Hk2]. apply Forall_app. split; [done|]. by constructor.
Qed.

Lemma rep_delete m l c r : rep m (l ++ c :: r) ->
  m !! next_at c = Some (Some (hd m_tail r)) /\
  rep (<[next_at (last_of m_head l) := Some (hd m_tail r)]> m) (l ++ r).
Proof.
  intros [Hl Hn [Ht1 Ht2] Hs Hk].
  destruct (linked_remove next_at (fun p => p) m m_head l c r m_tail Hn Hl) as [Hc Hl']. split; [done|].
  assert (Hp : next_at <$> (m_head :: l ++ c :: r) ≡ₚ next_at c :: (next_at <$> (m_head :: l ++ r)))
    by (simpl; rewrite !fmap_app; simpl; rewrite <- Permutation_middle; apply Permutation_swap).
  rewrite Hp in Hn, Ht1. apply NoDup_cons in Hn as [_ Hn]. apply not_elem_of_cons in Ht1 as [_ Ht1].
  constructor; [done|done| | |].
  - split; [done|]. rewrite lookup_insert_ne; [done|]. intros E. apply Ht1. rewrite <- E.
    apply list_elem_of_fmap_2. pose proof (last_of_elem m_head l) as Hin.
    apply elem_of_cons in Hin as [->|Hin]; [by left|right]. apply elem_of_app. by left.
  - apply StronglySorted_app in Hs as (Hlr & Hsl & Hsr). apply StronglySorted_inv in Hsr as [Hsr _].
    apply StronglySorted_app. split; [|by split]. intros a b Ha Hb. apply Hlr; [done|by right].
  - apply Forall_app in Hk as [Hk1 Hk2]. apply Forall_cons in Hk2 as [_ Hk2]. by apply Forall_app.
Qed.

Lemma keys_middle l n r : keys (l ++ n :: r) = {[key n]} ∪ keys (l ++ r).
Proof. unfold keys. rewrite !fmap_app. simpl. rewrite !list_to_set_app_L, list_to_set_cons. set_solver. Qed.

Lemma key_notin l r (k0 : Z) : Forall (fun n : node T => key n < k0) l ->
  StronglySorted (fun a b : node T => key a < key b) r -> k0 < key (hd m_tail r) -> k0 ∉ keys (l ++ r).
Proof.
  intros Hl Hs Hr (n & Hn & E)%elem_keys. rewrite Forall_forall in Hl.
  apply elem_of_app in Hn as [Hn|Hn]; [specialize (Hl n Hn); lia|].
  destruct r as [|c r]; [by apply elem_of_nil in Hn|]. simpl in Hr.
  apply elem_of_cons in Hn as [->|Hn]; [lia|]. apply StronglySorted_inv in Hs as [_ Hs].
  rewrite Forall_forall in Hs. specialize (Hs n Hn). simpl in Hs. lia.
Qed.

(** ** The operations *)

Lemma ordered_run_add (fuel : nat) (x : T) new_at lo m ns :
  rep m ns -> in_range (to_int (hash x)) -> (length ns < fuel)%nat ->
  new_at ∉ next_at <$> (m_head :: ns) -> new_at <> tail_at ->
  let k := to_int (hash x) in
  exists m' ns', Tx.run (add_body fuel x new_at) lo m =
      Some (Val (bool_decide (k ∉ keys ns)), bool_decide (k ∉ keys ns), m') /\
    rep m' ns' /\ keys ns' = {[k]} ∪ keys ns /\ forall n, n ∈ ns' -> n ∈ ns \/ next_at n = new_at.
Proof.
  intros Hr Hk Hf Hnew Hnt k. destruct (rep_split m ns k Hr ltac:(apply Hk)) as (l & r & -> & Hlt & Hl & Hz & Hin).
  rewrite length_app in Hf. unfold add_body. cbv zeta. fold k.
  rewrite (ordered_locate _ _ l (hd m_tail r)) by (done || lia). destruct (Z.eqb_spec (key (hd m_tail r)) k) as [E|E].
  - rewrite bool_decide_false by (rewrite Hin; tauto). eexists _, (l ++ r). split; [reflexivity|].
    split; [done|]. apply Hin in E. split; [set_solver|]. by left.
  - rewrite bool_decide_true by (by rewrite Hin). eexists _, (l ++ Node new_at x k :: r). split; [reflexivity|].
    split; [apply rep_insert; try done; lia|]. split; [exact (keys_middle l (Node new_at x k) r)|].
    intros n. rewrite elem_of_app, elem_of_cons, elem_of_app. intros [H|[->|H]]; auto.
Qed.

Lemma ordered_run_remove (fuel : nat) (x : T) m ns :
  rep m ns -> in_range (to_int (hash x)) -> (length ns < fuel)%nat ->
  let k := to_int (hash x) in
  exists m' ns', Tx.run (remove_body fuel x) false m =
      Some (Val (bool_decide (k ∈ keys ns)), bool_decide (k ∈ keys ns), m') /\
    rep m' ns' /\ keys ns' = keys ns ∖ {[k]} /\ forall n, n ∈ ns' -> n ∈ ns.
Proof.
  intros Hr Hk Hf k. destruct (rep_split m ns k Hr ltac:(apply Hk)) as (l & r & -> & Hlt & Hl & Hz & Hin).
  rewrite length_app in Hf. unfold remove_body. cbv zeta. fold k.
  rewrite (ordered_locate _ _ l (hd m_tail r)) by (done || lia). destruct (Z.eqb_spec (key (hd m_tail r)) k) as [E|E].
  - rewrite bool_decide_true by (by apply Hin). destruct r as [|c r]; [simpl in E; unfold in_range in Hk; lia|].
    destruct (rep_delete m l c r Hr) as [Hc Hr']. simpl in E. cbn [Tx.run hd]. rewrite Hc.
    eexists _, (l ++ r). split; [reflexivity|]. split; [done|]. rewrite keys_middle, E. split.
    + assert (k ∉ keys (l ++ r)); [|set_solver]. pose proof (rep_sorted _ _ Hr) as Hs.
      apply StronglySorted_app_1_r in Hs. apply StronglySorted_inv in Hs as [Hs1 Hs2].
      apply key_notin; [done|done|]. destruct r as [|d r]; [simpl; unfold in_range in Hk; lia|].
      apply Forall_cons in Hs2 as [Hd _]. simpl in *. lia.
    + intros n. rewrite !elem_of_app, elem_of_cons. tauto.
  - rewrite bool_decide_false by (by rewrite Hin). exists m, (l ++ r). split; [reflexivity|].
    split; [done|]. rewrite <- Hin in E. split; [set_solver|done].
Qed.

Lemma ordered_run_contains (fuel : nat) (x : T) lo m ns :
  rep m ns -> in_range (to_int (hash x)) -> (length ns < fuel)%nat ->
  let k := to_int (hash x) in
  Tx.run (contains_body fuel x) lo m = Some (Val (bool_decide (k ∈ keys ns)), bool_decide (k ∈ keys ns), m).
Proof.
  intros Hr Hk Hf k. destruct (rep_split m ns k Hr ltac:(apply Hk)) as (l & r & -> & Hlt & Hl & Hz & Hin).
  rewrite length_app in Hf. unfold contains_body. cbv zeta. fold k.
  rewrite (run_find_from fuel m_head l (hd m_tail r)); [|done|constructor; [apply Hk|done]|done|lia].
  cbn [set_result return_result Tx.run].
  assert (Eb : (key (hd m_tail r) =? k) = bool_decide (k ∈ keys (l ++ r))) by
    (destruct (Z.eqb_spec (key (hd m_tail r)) k); [by rewrite bool_decide_true by by apply Hin|by rewrite bool_decide_false by by rewrite Hin]).
  by rewrite Eb.
Qed.

(** The ordered list is a set of keys.  On a list with the nodes [ns], with
    the hash of the item strictly between the keys of the sentinels and enough
    fuel for the list, [add] with a fresh node tells whether the key was new and
    adds it, [remove] tells whether it was there and removes it, [contains] tells
    whether it is there and changes nothing; the list stays ordered. *)
Theorem ordered_list_set (fuel : nat) (x : T) new_at lo m ns :
  rep m ns -> in_range (to_int (hash x)) -> (length ns < fuel)%nat ->
  let k := to_int (hash x) in
  (new_at ∉ next_at <$> (m_head :: ns) -> new_at <> tail_at ->
   exists m' ns', Tx.run (add_body fuel x new_at) lo m =
       Some (Val (bool_decide (k ∉ keys ns)), bool_decide (k ∉ keys ns), m') /\
     rep m' ns' /\ keys ns' = {[k]} ∪ keys ns) /\
  (exists m' ns', Tx.run (remove_body fuel x) false m =
       Some (Val (bool_decide (k ∈ keys ns)), bool_decide (k ∈ keys ns), m') /\
     rep m' ns' /\ keys ns' = keys ns ∖ {[k]}) /\
  Tx.run (contains_body fuel x) lo m = Some (Val (bool_decide (k ∈ keys ns)), bool_decide (k ∈ keys ns), m).
Proof.
  intros Hr Hk Hf k. split; [|split].
  - intros Hnew Hnt. destruct (ordered_run_add fuel x new_at lo m ns) as (m' & ns' & ? & ? & ? & _); eauto.
  - destruct (ordered_run_remove fuel x m ns) as (m' & ns' & ? & ? & ? & _); eauto.
  - by apply ordered_run_contains.
Qed.

(** The list after the constructor has no item. *)
Lemma rep_empty m : head_at <> tail_at -> rep (empty_list m) [].
Proof.
  intros Hne. unfold empty_list. constructor.
  - apply lookup_insert_eq.
  - repeat constructor. set_solver.
  - split; [|by rewrite lookup_insert_ne, lookup_insert_eq]. simpl. set_solver.
  - constructor.
  - constructor.
Qed.

(** A chain whose last node was made to point to null. *)
Lemma run_find_null fuel c l z k0 k lo m : linked next_at (fun p => p) m c l z ->
  NoDup (next_at <$> (c :: l)) -> Forall (fun n => key n < k0) (c :: l) -> (length l < fuel)%nat ->
  let m' := <[next_at (last_of c l) := None]> m in
  Tx.run (find_from fuel c k0 k) lo m' = Some (Exn (other_exception 1), lo, m').
Proof.
  revert fuel c. induction l as [|b l IH]; intros fuel c Hl Hn Hk Hf m'; apply Forall_cons in Hk as [Hc Hk];
    (destruct fuel as [|fuel]; [simpl in Hf; lia|]); cbn [find_from];
    (destruct (Z.ltb_spec (key c) k0) as [_|]; [|lia]); cbn [Tx.run]; subst m'.
  - rewrite lookup_insert_eq. done.
  - destruct Hl as [Hb Hl]. simpl last_of. pose proof Hn as [Hcn Hn']%NoDup_cons.
    rewrite lookup_insert_ne, Hb.
    + cbn [deref]. apply IH; [done|done|done|simpl in Hf; lia].
    + intros E. apply Hcn. rewrite <- E. exact (list_elem_of_fmap_2 next_at _ _ (last_of_elem b l)).
Qed.

(** [C22] An item whose hash is [INT_MAX], the key of the last sentinel: [remove]
    answers that it was in the list, which it never is, and unlinks the sentinel;
    from then on looking for an item after the last one dereferences null. *)
Theorem remove_unlinks_tail (fuel : nat) (x : T) m ns :
  rep m ns -> to_int (hash x) = INT_MAX -> (length ns < fuel)%nat ->
  exists m', Tx.run (remove_body fuel x) false m = Some (Val true, true, m') /\
    forall (y : T) lo, INT_MIN < to_int (hash y) -> Forall (fun n => key n < to_int (hash y)) ns ->
    Tx.run (contains_body fuel y) lo m' = Some (Exn (other_exception 1), lo, m').
Proof.
  intros [Hl Hn [_ Ht] _ Hk] Ex Hf. exists (<[next_at (last_of m_head ns) := None]> m). split.
  - unfold remove_body. cbv zeta. rewrite Ex, (ordered_locate _ _ ns m_tail); [| done | | done | lia].
    + unfold m_tail. cbn [key]. rewrite Z.eqb_refl. cbn [Tx.run next_at]. by rewrite Ht.
    + eapply Forall_impl; [exact Hk|]. intros n [[_ H] _]. exact H.
  - intros y lo Hy Hs. unfold contains_body. cbv zeta.
    apply (run_find_null _ _ ns m_tail); [done|done| |done]. constructor; [exact Hy|done].
Qed.

(** The other [remove] does the same, whatever [result] was. *)
Lemma coarse_remove_eq fuel x m : Tx.run (coarse_remove_body fuel x) false m = Tx.run (remove_body fuel x) false m.
Proof.
  unfold coarse_remove_body, remove_body, locate. cbn [Tx.run]. destruct (m !! next_at m_head) as [[c|]|]; [|done|done].
  cbn [deref]. generalize m_head. revert c. induction fuel as [|fuel IH]; intros c a; cbn [locate_from];
    (destruct (key c <? to_int (hash x)); [|by destruct (key c =? to_int (hash x))]); [done|].
  cbn [Tx.run]. destruct (m !! next_at c) as [[d|]|]; [|done|done]. apply IH.
Qed.

(** It assigns [result] on both branches, so what an attempt left there is no
    matter. *)
Lemma coarse_remove_locals fuel x lo m a lo' m' :
  Tx.run (coarse_remove_body fuel x) false m = Some (Val a, lo', m') ->
  Tx.run (coarse_remove_body fuel x) lo m = Some (Val a, lo', m').
Proof.
  unfold coarse_remove_body, locate. cbn [Tx.run]. destruct (m !! next_at m_head) as [[c|]|]; [|done|done].
  cbn [deref]. generalize m_head. revert c. induction fuel as [|fuel IH]; intros c b; cbn [locate_from];
    (destruct (key c <? to_int (hash x)); [|destruct (key c =? to_int (hash x)); [|done]; cbn [Tx.run]; by destruct (m !! next_at c)]);
    [done|].
  cbn [Tx.run]. destruct (m !! next_at c) as [[d|]|]; [|done|done]. apply IH.
Qed.
End List.

(** ** Witnesses: the list of 5, hashed to itself *)

Definition five : node Z := Node 30 5 5.
Definition of_five : gmap addr_t (option (node Z)) :=
  <[10 := Some five]> (<[30 := Some (m_tail 0 20)]> (<[20 := None]> ∅)).

Lemma ordered_rep_five : rep 0 id 10 20 of_five [five].
Proof.
  constructor; [by split|apply (bool_decide_unpack _); by vm_compute| | |].
  - split; [apply (bool_decide_unpack _); by vm_compute|done].
  - repeat constructor.
  - repeat constructor.
Qed.

Lemma ordered_list_set_witness :
  exists m' ns', Tx.run (add_body 0 id 10 2 7 40) true of_five = Some (Val true, true, m') /\
    rep 0 id 10 20 m' ns' /\ keys ns' = {[7]} ∪ keys [five].
Proof.
  refine (proj1 (ordered_list_set 0 id 10 20 2 7 40 true of_five [five] ordered_rep_five _ _) _ _).
  - by vm_compute.
  - simpl; lia.
  - apply (bool_decide_unpack _); by vm_compute.
  - done.
Defined.

Lemma remove_unlinks_tail_witness :
  exists m', Tx.run (remove_body 0 id 10 2 INT_MAX) false of_five = Some (Val true, true, m') /\
    forall y lo, INT_MIN < to_int (id y) -> Forall (fun n => key n < to_int (id y)) [five] ->
    Tx.run (contains_body 0 id 10 2 y) lo m' = Some (Exn (other_exception 1), lo, m').
Proof.
  apply (remove_unlinks_tail 0 id 10 20 2 INT_MAX of_five [five] ordered_rep_five); [by vm_compute|simpl; lia].
Defined.
End OrderedLinkedList.
