(* ===== verification/OrderedObject.v ===== *)
(** * The ordered linked list under threads

    [zoo/ordered_ll.h] as an object of [Linearize]: calls of [add], [remove] and
    [contains] by any threads.  Each call of [add] has a node of its own, and the
    items' hashes are strictly between the keys of the sentinels; then the calls
    are those on a set, in any interleaving. *)

From S2P Require Import Prelude VersionLock LockTable Store Op LocSets Log Tx State LockGuard Machine History MachineInv Serializability Order Linearize Programs OrderedList.
Import OrderedLinkedList.

Module OrderedObject.
Section Object.
Context {T : Type} (default_item : T) (hash : T -> Z) (head_at tail_at : addr_t) (fuel : nat).
Abbreviation pointer := (option (node T)).
Implicit Types (m : gmap addr_t pointer).

Inductive op := Add (x : T) (new_at : addr_t) | Remove (x : T) | Contains (x : T).

Definition call (o : op) : txn pointer bool bool :=
  match o with
  | Add x new_at => add default_item hash head_at fuel x new_at
  | Remove x => remove default_item hash head_at fuel x
  | Contains x => contains default_item hash head_at fuel x
  end.

Definition item_of (o : op) : T := match o with Add x _ | Remove x | Contains x => x end.
Definition key_of (o : op) : Z := to_int (hash (item_of o)).
Definition new_of (o : op) : option addr_t := match o with Add _ new_at => Some new_at | _ => None end.

(** The set of keys, and the nodes handed out. *)
Record set_state := SetState { contents : gset Z; taken : gset addr_t }.

Definition apply (o : op) (s : set_state) : bool * set_state :=
  match o with
  | Add _ new_at =>
      (bool_decide (key_of o ∉ contents s), SetState ({[key_of o]} ∪ contents s) ({[new_at]} ∪ taken s))
  | Remove _ => (bool_decide (key_of o ∈ contents s), SetState (contents s ∖ {[key_of o]}) (taken s))
  | Contains _ => (bool_decide (key_of o ∈ contents s), s)
  end.

(** What a call needs: a hash that no sentinel has, a turn of the loop for each
    node, and, for [add], a new node. *)
Definition ready (o : op) (s : set_state) : Prop :=
  in_range (key_of o) /\ (size (taken s) < fuel)%nat /\ head_at ∈ taken s /\ tail_at ∈ taken s /\
  (forall a, new_of o = Some a -> a ∉ taken s).

Definition object_rep m (s : set_state) : Prop :=
  exists ns, rep default_item hash head_at tail_at m ns /\ keys ns = contents s /\
    forall n, n ∈ ns -> next_at n ∈ taken s.

#[export] Instance ordered_object : TxObject pointer bool bool op set_state := {
  ob_call := call;
  ob_init o result := match o with Remove _ => result = false | _ => True end;
  ob_rep := object_rep;
  ob_apply := apply }.

Lemma length_taken m ns (X : gset addr_t) : rep default_item hash head_at tail_at m ns ->
  (forall n, n ∈ ns -> next_at n ∈ X) -> (length ns <= size X)%nat.
Proof.
  intros Hr HX. assert (Hn : NoDup (next_at <$> ns)) by apply (NoDup_cons_1_2 _ _ (rep_nodup _ _ _ _ _ _ Hr)).
  rewrite <- (length_fmap next_at), <- (size_list_to_set (C := gset addr_t)) by done. apply subseteq_size.
  intros a. rewrite elem_of_list_to_set, list_elem_of_fmap. intros (n & -> & Hin). by apply HX.
Qed.

#[export] Instance ordered_laws : TxGuardedLaws pointer bool bool op set_state ready.
Proof.
  constructor; [by intros []|by intros []|].
  intros o lo m s Hi (ns & Hr & Ek & Ht) (Hk & Hf & Hh & Htl & Hn).
  assert (Hl : (length ns < fuel)%nat) by (pose proof (length_taken _ _ _ Hr Ht); lia).
  destruct o as [x new_at|x|x]; cbn [ob_call ob_apply ordered_object call apply body add remove contains] in *;
    unfold key_of, item_of in *; simpl in Hk.
  - specialize (Hn _ eq_refl). destruct (ordered_run_add default_item hash head_at tail_at fuel x new_at lo m ns) as (m' & ns' & Er & Hr' & Ek' & Hns);
      try done.
    + rewrite fmap_cons. simpl. rewrite elem_of_cons, list_elem_of_fmap. intros [->|(n & -> & Hin)]; [done|].
      by apply Hn, Ht.
    + intros ->. done.
    + eexists _, m'. split; [rewrite Er, Ek; reflexivity|]. exists ns'. simpl. rewrite Ek', Ek. split; [done|]. split; [done|].
      intros n [Hin| ->]%Hns; [|set_solver]. specialize (Ht n Hin). set_solver.
  - simpl in Hi. subst lo. destruct (ordered_run_remove default_item hash head_at tail_at fuel x m ns) as (m' & ns' & Er & Hr' & Ek' & Hns);
      try done.
    eexists _, m'. split; [rewrite Er, Ek; reflexivity|]. exists ns'. simpl. rewrite Ek', Ek. split; [done|]. split; [done|]. auto.
  - eexists _, m. rewrite (ordered_run_contains default_item hash head_at tail_at fuel x lo m ns) by done. rewrite Ek.
    split; [reflexivity|]. by exists ns.
Qed.

(** ** No exception reaches the caller *)

Lemma locate_no_std f pred curr k0 k : (forall p c, no_std (k p c)) ->
  no_std (locate_from (T := T) f pred curr k0 k).
Proof.
  intros Hk. revert pred curr. induction f as [|f IH]; intros pred curr; cbn [locate_from];
    (destruct (key curr <? k0); [|apply Hk]); [done|]. intros [next|]; [apply IH|done].
Qed.

Lemma find_no_std f curr k0 k : (forall c, no_std (k c)) -> no_std (find_from (T := T) f curr k0 k).
Proof.
  intros Hk. revert curr. induction f as [|f IH]; intros curr; cbn [find_from];
    (destruct (key curr <? k0); [|apply Hk]); [done|]. intros [next|]; [apply IH|done].
Qed.

Lemma ordered_no_std o : no_std (body (ob_call o)).
Proof.
  destruct o as [x new_at|x|x]; cbn [ob_call ordered_object call add remove contains body].
  - intros [c|]; [|done]. apply locate_no_std. intros p c'. by destruct (key c' =? _).
  - intros [c|]; [|done]. apply locate_no_std. intros p c'. by destruct (key c' =? _).
  - apply find_no_std. by intros c.
Qed.

(** ** Interleavings of programs *)

(** The nodes that the calls of [add] allocate. *)
Definition nodes_of (ops : list op) : list addr_t := omap new_of ops.

(** The programs are fit: items that no sentinel has the key of, a node of its
    own for each call of [add], none of them in use, and enough fuel. *)
Record fit_ops (ops : list op) (s : set_state) : Prop := {
  fit_keys : Forall (fun o => in_range (key_of o)) ops;
  fit_nodes : NoDup (nodes_of ops);
  fit_new : forall a, a ∈ nodes_of ops -> a ∉ taken s;
  fit_ends : head_at ∈ taken s /\ tail_at ∈ taken s;
  fit_fuel : (size (taken s) + length (nodes_of ops) < fuel)%nat }.

Lemma ordered_fit_sub ops ops' s : ops' ⊆+ ops -> fit_ops ops s -> fit_ops ops' s.
Proof.
  intros Hsub [Hk Hd Hn He Hf]. assert (Hn' : nodes_of ops' ⊆+ nodes_of ops) by by apply omap_submseteq_mono.
  constructor; [|by eapply NoDup_submultiset| |done|].
  - rewrite Forall_forall in Hk |- *. intros o Ho. apply Hk. by eapply elem_of_submseteq.
  - intros a Ha. apply Hn. by eapply elem_of_submseteq.
  - apply submseteq_length in Hn'. lia.
Qed.

Lemma ordered_admissible ops s : fit_ops ops s -> admissible ready ops s.
Proof.
  revert s. induction ops as [|o ops IH]; intros s [Hk Hd Hn He Hf]; [done|].
  apply Forall_cons in Hk as [Ho Hk]. split.
  - split; [done|]. split; [lia|]. split; [apply He|]. split; [apply He|]. intros a Ha. apply Hn.
    unfold nodes_of. simpl. rewrite Ha. by left.
  - apply IH. unfold nodes_of in *. cbn [ob_apply ordered_object].
    destruct o as [x new_at|x|x]; simpl in *; [|by constructor..].
    apply NoDup_cons in Hd as [Hin Hd]. constructor; simpl; [done|done| |set_solver|].
    + intros a Ha [->%elem_of_singleton|Ht]%elem_of_union; [done|]. apply (Hn a); [by right|done].
    + rewrite size_union, size_singleton; [change (nodes_of ops) with (list_omap op Z new_of ops); lia|].
      apply disjoint_singleton_l. apply Hn. by left.
Qed.

Section Threads.
Context {LS : Type} `{LocationSetLaws LS}.

(** [C21] The ordered linked list is a set under threads.  Let threads run any
    programs of [add], [remove] and [contains], with hashes strictly between the
    keys of the sentinels and a new node for each [add].  In any interleaving of
    their steps, every result is that of the set in one sequence of the calls,
    in which each thread's calls are in program order, and when no commit is half
    done the memory holds an ordered list with the keys of the set. *)
Theorem ordered_list_linearizable (is_trivial : addr_t -> bool) (m0 : gmap addr_t pointer)
  (progs : gmap tid_t (list op * bool)) n evs s (s0 : set_state) :
  object_rep m0 s0 -> fit_ops (all_ops progs) s0 ->
  Machine.steps (LS := LS) is_trivial n (Machine.init m0 (calls <$> progs)) evs s -> Z.of_nat n < 2 ^ 63 ->
  exists sched order, interleaves progs sched /\ seen progs sched s0 s /\
    order ≡ₚ evs /\ StronglySorted (fun e1 e2 => e_wv e1 < e_wv e2) order /\ Forall2 commits_at sched order.
Proof.
  intros Hr Hfit Hs Hn. apply (programs_run is_trivial m0 progs n evs s ordered_no_std Hs Hn s0 Hr).
  intros sched Hil. apply ordered_admissible. eapply ordered_fit_sub; [exact (interleaves_all _ _ Hil)|done].
Qed.
End Threads.
End Object.
End OrderedObject.
