(* ===== verification/ListSet.v ===== *)
(** * Sets of keys and chains of nodes

    What the lists of [graphs/ordered_ll] implement: [add], [remove] and [contains]
    of an item, on the set of the keys of the items.  A key is the hash of the
    item converted to [int].  And what they share: a chain follows [next] from one
    node to another, and the keys grow along it.  A heap is seen as the function
    [nx] from a node to the next one. *)

From S2P Require Import Prelude OrderedList.

Inductive op (T : Type) := Add (x : T) | Remove (x : T) | Contains (x : T).
Arguments Add {T} _.
Arguments Remove {T} _.
Arguments Contains {T} _.

Section Ops.
Context {T : Type} (hash : T -> Z).
Implicit Types (o : op T).

(** [const int key = std::hash<T>{}(item)]. *)
Definition key_of o : Z := match o with Add x | Remove x | Contains x => to_int (hash x) end.

(** What the calls should do to a set, and answer. *)
Definition set_op o (ks : gset Z) : gset Z * bool :=
  let k := key_of o in
  match o with
  | Add _ => ({[k]} ∪ ks, bool_decide (k ∉ ks))
  | Remove _ => (ks ∖ {[k]}, bool_decide (k ∈ ks))
  | Contains _ => (ks, bool_decide (k ∈ ks))
  end.

(** The operations in order, one after the other; [None] when an answer is wrong. *)
Fixpoint replay (cs : list (op T * bool)) (ks : gset Z) : option (gset Z) :=
  match cs with
  | [] => Some ks
  | (o, result) :: cs' =>
      let '(ks', r) := set_op o ks in
      if decide (result = r) then replay cs' ks' else None
  end.

Lemma replay_app cs1 cs2 ks : replay (cs1 ++ cs2) ks = replay cs1 ks ≫= replay cs2.
Proof.
  revert ks. induction cs1 as [|[o r] cs1 IH]; intros ks; [done|]. simpl.
  destruct (set_op o ks) as [ks' r']. by case_decide.
Qed.
End Ops.

(** ** Chains of nodes in a heap *)

Section Seg.
Implicit Types (nx : Z -> option Z) (p q x y : Z) (c : list Z).

(** From [p], through the nodes of [c] ([p] the first), to [q]. *)
Fixpoint seg nx p c q : Prop :=
  match c with
  | [] => p = q
  | x :: c' => x = p /\ exists y, nx p = Some y /\ seg nx y c' q
  end.

Lemma seg_app nx p c1 c2 q : seg nx p (c1 ++ c2) q <-> exists x, seg nx p c1 x /\ seg nx x c2 q.
Proof.
  revert p. induction c1 as [|x c1 IH]; intros p; simpl; [naive_solver|]. split.
  - intros (-> & y & Hy & (z & Hz & Hq)%IH). exists z. eauto.
  - intros (z & (-> & y & Hy & Hz) & Hq). split; [done|]. exists y. split; [done|]. apply IH. eauto.
Qed.

Lemma seg_frame nx nx' p c q : (forall x, x ∈ c -> nx' x = nx x) -> seg nx p c q -> seg nx' p c q.
Proof.
  revert p. induction c as [|x c IH]; intros p Hf; simpl; [done|]. intros (-> & y & Hy & Hs). split; [done|].
  exists y. rewrite Hf by by left. split; [done|]. apply IH; [|done]. intros z Hz. apply Hf. by right.
Qed.

Lemma seg_split nx p c q x : seg nx p c q -> x ∈ c ->
  exists c1 c2 y, c = c1 ++ x :: c2 /\ seg nx p c1 x /\ nx x = Some y /\ seg nx y c2 q.
Proof.
  intros Hs (c1 & c2 & ->)%list_elem_of_split. apply seg_app in Hs as (z & H1 & (<- & y & Hy & H2)).
  exists c1, c2, y. done.
Qed.

Lemma seg_start nx p c q x : seg nx p (c ++ [x]) q -> nx x = Some q.
Proof. intros (z & _ & -> & y & Hy & ->)%seg_app. done. Qed.

(** A node inserted after [x]. *)
Lemma seg_insert nx nx' p c1 c2 q x n : seg nx p (c1 ++ x :: c2) q -> nx' x = Some n -> nx' n = nx x ->
  (forall z, z ∈ c1 ++ c2 -> nx' z = nx z) -> seg nx' p (c1 ++ x :: n :: c2) q.
Proof.
  intros (z & H1 & -> & y & Hy & H2)%seg_app Hx Hn Hf. apply seg_app. exists z. split.
  - apply (seg_frame nx); [|done]. intros w Hw. apply Hf. apply elem_of_app. by left.
  - split; [done|]. exists n. split; [done|]. split; [done|]. exists y. split; [congruence|].
    apply (seg_frame nx); [|done]. intros w Hw. apply Hf. apply elem_of_app. by right.
Qed.

(** The node after [x] unlinked. *)
Lemma seg_remove nx nx' p c1 c2 q x y : seg nx p (c1 ++ x :: y :: c2) q -> nx' x = nx y ->
  (forall z, z ∈ c1 ++ c2 -> nx' z = nx z) -> seg nx' p (c1 ++ x :: c2) q.
Proof.
  intros (z & H1 & -> & y' & Hy & -> & w & Hw & H2)%seg_app Hx Hf. apply seg_app. exists z. split.
  - apply (seg_frame nx); [|done]. intros v Hv. apply Hf. apply elem_of_app. by left.
  - split; [done|]. exists w. split; [congruence|]. apply (seg_frame nx); [|done].
    intros v Hv. apply Hf. apply elem_of_app. by right.
Qed.

Lemma seg_next nx p c1 c2 q x y : seg nx p (c1 ++ x :: c2) q -> nx x = Some y ->
  (c2 = [] /\ y = q) \/ exists c3, c2 = y :: c3.
Proof.
  intros (z & _ & -> & y' & Hy & H2)%seg_app Hx. simplify_eq. destruct c2 as [|w c2]; simpl in H2.
  - by left.
  - destruct H2 as [-> _]. right. by exists c2.
Qed.

(** ** Keys that grow *)

Section Sorted.
Context (key : Z -> Z).

Lemma seg_sorted nx p c q : seg nx p c q -> (forall x y, x ∈ c -> nx x = Some y -> key x < key y) ->
  StronglySorted (fun x y => key x < key y) (c ++ [q]).
Proof.
  revert p. induction c as [|x c IH]; intros p; simpl.
  - intros _ _. repeat constructor.
  - intros (-> & y & Hy & Hs) Hup.
    assert (Hc : StronglySorted (fun x y => key x < key y) (c ++ [q])) by (eapply IH; [done|]; intros; apply Hup; [by right|done]).
    assert (Hpy : key p < key y) by (apply Hup; [by left|done]).
    constructor; [done|]. destruct c as [|z c]; simpl in Hs |- *.
    + subst. by constructor.
    + destruct Hs as [-> _]. simpl in Hc. apply StronglySorted_inv in Hc as [_ Hall]. constructor; [done|].
      eapply Forall_impl; [exact Hall|]. simpl. lia.
Qed.

(** Between the keys of two neighbours there is none. *)
Lemma seg_gap nx p c q x y z : seg nx p c q -> (forall x y, x ∈ c -> nx x = Some y -> key x < key y) ->
  x ∈ c -> nx x = Some y -> z ∈ c ++ [q] -> ~ key x < key z < key y.
Proof.
  intros Hs Hup Hx Hy Hz Hk. pose proof (seg_sorted nx p c q Hs Hup) as Hso.
  destruct (seg_split nx p c q x Hs Hx) as (c1 & c2 & y' & -> & H1 & Hy' & H2). simplify_eq.
  rewrite <- app_assoc in Hz, Hso. simpl in Hz, Hso. apply elem_of_app in Hz as [Hz|Hz].
  - apply StronglySorted_app_1_elem_of with (x1 := z) (x2 := x) in Hso; [lia|done|by left].
  - apply elem_of_cons in Hz as [->|Hz]; [lia|].
    destruct c2 as [|w c2]; simpl in H2, Hz.
    + subst. apply list_elem_of_singleton in Hz as ->. lia.
    + destruct H2 as [-> _]. apply elem_of_cons in Hz as [->|Hz]; [lia|].
      apply StronglySorted_app_1_r in Hso. apply StronglySorted_inv in Hso as [Hso _].
      apply StronglySorted_inv in Hso as [_ Hall]. rewrite Forall_forall in Hall. specialize (Hall z Hz). lia.
Qed.

Lemma seg_NoDup nx p c q : seg nx p c q -> (forall x y, x ∈ c -> nx x = Some y -> key x < key y) -> NoDup (c ++ [q]).
Proof.
  intros Hs Hup. pose proof (seg_sorted nx p c q Hs Hup) as Hso.
  induction Hso as [|x l Hso IH Hall] in |- *; constructor; [|done].
  intros Hin. rewrite Forall_forall in Hall. specialize (Hall x Hin). lia.
Qed.
End Sorted.
End Seg.
