(* ===== verification/CoarseList.v ===== *)
(** * The list with one lock

    [graphs/ordered_ll/coarse_list.h]: an ordered list between two sentinels whose
    methods run under one mutex, so each is a function of the heap.  The nodes and
    the theory of their chain are also those of the list with a lock in each node.
    The loops have as fuel the number of nodes; a pointer that is not a node is
    [None]. *)

From S2P Require Import Prelude OrderedList ListSet.

Module CoarseList.

Record node (T : Type) := Node { item : option T; key : Z; next : Z }.
Arguments Node {T} _ _ _.
Arguments item {T} _.
Arguments key {T} _.
Arguments next {T} _.

Section List.
Context {T : Type} (hash : T -> Z) (head tail : Z).
Abbreviation heap := (gmap Z (node T)).
Abbreviation key_of := (key_of hash).
Implicit Types (h : heap) (c : list Z) (nd : node T) (p q : Z).

(** The constructor. *)
Definition init_heap : heap :=
  <[head := Node None INT_MIN tail]> {[tail := Node None INT_MAX tail]}.

(** [p->next = q]. *)
Definition set_next h p q : option heap := nd ← h !! p; Some (<[p := Node (item nd) (key nd) q]> h).

(** The loop of [locate] and of [contains]. *)
Fixpoint locate_from (fuel : nat) h (k : Z) (pred curr : Z) : option (Z * Z) :=
  nd ← h !! curr;
  if key nd <? k then match fuel with O => None | S fuel' => locate_from fuel' h k curr (next nd) end
  else Some (pred, curr).

Definition locate h (k start : Z) : option (Z * Z) :=
  nd ← h !! start; locate_from (base.size h) h k start (next nd).

(** The methods; [new] is the address of the node [add] allocates. *)
Definition add h (x : T) (new : Z) : option (heap * bool) :=
  let k := key_of (Add x) in
  '(pred, curr) ← locate h k head;
  nc ← h !! curr;
  if key nc =? k then Some (h, false)
  else h' ← set_next (<[new := Node (Some x) k curr]> h) pred new; Some (h', true).

Definition remove h (x : T) : option (heap * bool) :=
  let k := key_of (Remove x) in
  '(pred, curr) ← locate h k head;
  nc ← h !! curr;
  if key nc =? k then h' ← set_next h pred (next nc); Some (h', true) else Some (h, false).

Definition contains h (x : T) : option (heap * bool) :=
  let k := key_of (Contains x) in
  nd ← h !! head;
  '(_, curr) ← locate_from (base.size h) h k head (next nd);
  nc ← h !! curr;
  Some (h, key nc =? k).

Definition call h (o : op T) (new : Z) : option (heap * bool) :=
  match o with Add x => add h x new | Remove x => remove h x | Contains x => contains h x end.

(** ** The chain of nodes *)

Definition nx h p : option Z := next <$> h !! p.
Definition kf h p : Z := default 0 (key <$> h !! p).

(** The nodes from [head] up to the last sentinel; their keys, without those of the sentinels. *)
Fixpoint walk (fuel : nat) h (p : Z) : list Z :=
  if p =? tail then []
  else match fuel with
  | O => []
  | S fuel' => match h !! p with Some nd => p :: walk fuel' h (next nd) | None => [] end
  end.

Definition members h : gset Z := list_to_set (kf h <$> List.tl (walk (base.size h) h head)).

Record list_ok h c : Prop := {
  l_seg : seg (nx h) head c tail;
  l_head : head ∈ c;
  l_tail : tail ∉ c;
  l_node p : p ∈ tail :: c -> is_Some (h !! p);
  l_up p q : p ∈ c -> nx h p = Some q -> kf h p < kf h q;
  l_first : kf h head = INT_MIN;
  l_last : kf h tail = INT_MAX }.

Lemma coarse_kf_key h p nd : h !! p = Some nd -> kf h p = key nd.
Proof. intros Hp. unfold kf. by rewrite Hp. Qed.

Section Facts.
Context h c (Hok : list_ok h c).

Lemma coarse_chain_NoDup : NoDup c.
Proof.
  pose proof (seg_NoDup (kf h) (nx h) head c tail (l_seg _ _ Hok) (l_up _ _ Hok)) as Hn. by apply NoDup_app in Hn as [? _].
Qed.

Lemma coarse_key_inj p q : p ∈ c -> q ∈ c -> kf h p = kf h q -> p = q.
Proof.
  intros Hp Hq E. pose proof (seg_sorted (kf h) _ _ _ _ (l_seg _ _ Hok) (l_up _ _ Hok)) as Hs.
  apply StronglySorted_app_1_l in Hs. apply list_elem_of_lookup in Hp as [i Hi], Hq as [j Hj].
  destruct (Nat.lt_trichotomy i j) as [Hlt|[->|Hlt]]; [|congruence|].
  - pose proof (sorted_lookup _ _ _ _ _ _ Hs Hlt Hi Hj). simpl in *. lia.
  - pose proof (sorted_lookup _ _ _ _ _ _ Hs Hlt Hj Hi). simpl in *. lia.
Qed.

Lemma key_range p : p ∈ c -> p <> head -> INT_MIN < kf h p < INT_MAX.
Proof.
  intros Hp Hne. pose proof (seg_sorted (kf h) _ _ _ _ (l_seg _ _ Hok) (l_up _ _ Hok)) as Hs. split.
  - pose proof (l_seg _ _ Hok) as Hseg. destruct c as [|x c']; [by apply elem_of_nil in Hp|]. destruct Hseg as [-> _].
    apply elem_of_cons in Hp as [|Hp]; [done|]. simpl in Hs. apply StronglySorted_inv in Hs as [_ Hall].
    rewrite Forall_forall in Hall. rewrite <- (l_first _ _ Hok). apply Hall. apply elem_of_app. by left.
  - rewrite <- (l_last _ _ Hok). apply (StronglySorted_app_1_elem_of _ c [tail] p tail Hs Hp). by left.
Qed.

Lemma coarse_walk_chain fuel p c' : seg (nx h) p c' tail -> tail ∉ c' -> (length c' <= fuel)%nat -> walk fuel h p = c'.
Proof.
  revert p c'. induction fuel as [|fuel IH]; intros p c' Hs Ht Hf; simpl; destruct c' as [|x c']; simpl in *; try lia.
  - subst. by rewrite Z.eqb_refl.
  - subst. by rewrite Z.eqb_refl.
  - destruct Hs as (-> & y & Hy & Hs). apply not_elem_of_cons in Ht as [Hne Ht].
    destruct (Z.eqb_spec p tail); [congruence|]. unfold nx in Hy. destruct (h !! p) as [nd|]; [|done].
    simpl in Hy. simplify_eq. f_equal. apply IH; [done|done|lia].
Qed.

Lemma chain_size : (length c <= base.size h)%nat.
Proof.
  rewrite <- (size_list_to_set (C := gset Z) c coarse_chain_NoDup), <- size_dom. apply subseteq_size.
  intros p Hp%elem_of_list_to_set. apply elem_of_dom, (l_node _ _ Hok). by right.
Qed.

Lemma coarse_chain_head : exists c', c = head :: c' /\ head ∉ c'.
Proof.
  pose proof (l_head _ _ Hok) as Hh. pose proof (l_seg _ _ Hok) as Hs. pose proof coarse_chain_NoDup as Hnd.
  destruct c as [|x c']; [by apply elem_of_nil in Hh|]. destruct Hs as [-> _]. exists c'.
  split; [done|]. by apply NoDup_cons in Hnd as [? _].
Qed.

Lemma coarse_members_spec k : k ∈ members h <-> exists p, p ∈ c /\ p <> head /\ kf h p = k.
Proof.
  unfold members. rewrite (coarse_walk_chain _ head c (l_seg _ _ Hok) (l_tail _ _ Hok) chain_size).
  rewrite elem_of_list_to_set, list_elem_of_fmap. destruct coarse_chain_head as (c' & -> & Hh). simpl. split.
  - intros (p & -> & Hp). exists p. split; [by right|]. split; [by intros ->|done].
  - intros (p & Hp & Hne & <-). apply elem_of_cons in Hp as [|Hp]; [done|]. by exists p.
Qed.

(** Between two neighbours there is no key. *)
Lemma coarse_gap_absent p q k : p ∈ c -> nx h p = Some q -> kf h p < k < kf h q -> k ∉ members h.
Proof.
  intros Hp Hq Hk (z & Hz & _ & <-)%coarse_members_spec. apply (seg_gap (kf h) (nx h) head c tail p q z);
    [apply Hok|apply Hok|done|done| |lia]. apply elem_of_app. by left.
Qed.

Lemma next_in p q : p ∈ c -> nx h p = Some q -> q ∈ tail :: c.
Proof.
  intros Hp Hq. destruct (list_elem_of_split _ _ Hp) as (c1 & c2 & E). pose proof (l_seg _ _ Hok) as Hs. rewrite E in Hs.
  destruct (seg_next _ _ _ _ _ _ _ Hs Hq) as [[_ ->]|[c3 E3]]; [by left|right]. rewrite E, E3, elem_of_app, !elem_of_cons. auto.
Qed.

(** A key that a node has. *)
Lemma key_present q k : q ∈ tail :: c -> kf h q = k -> INT_MIN < k < INT_MAX -> q ∈ c /\ q <> head /\ k ∈ members h.
Proof.
  intros Hq E Hk. apply elem_of_cons in Hq as [->|Hq]; [rewrite (l_last _ _ Hok) in E; lia|].
  assert (Hne : q <> head) by (intros ->; rewrite (l_first _ _ Hok) in E; lia).
  split; [done|]. split; [done|]. apply coarse_members_spec. by exists q.
Qed.

Lemma next_some p : p ∈ c -> exists q, nx h p = Some q /\ q ∈ tail :: c.
Proof.
  intros Hp. destruct (l_node _ _ Hok p) as [nd Hnd]; [by right|]. exists (next nd).
  assert (E : nx h p = Some (next nd)) by (unfold nx; by rewrite Hnd). split; [done|]. by apply (next_in p).
Qed.
End Facts.

(** ** What the two writes do *)

Lemma set_next_spec h p q nd : h !! p = Some nd -> set_next h p q = Some (<[p := Node (item nd) (key nd) q]> h).
Proof. intros Hp. unfold set_next. by rewrite Hp. Qed.

Lemma kf_set h p q nd z : h !! p = Some nd -> kf (<[p := Node (item nd) (key nd) q]> h) z = kf h z.
Proof.
  intros Hp. unfold kf. destruct (decide (p = z)) as [<-|Hne]; [by rewrite lookup_insert_eq, Hp|by rewrite lookup_insert_ne].
Qed.

Lemma nx_insert h p nd z : nx (<[p := nd]> h) z = if decide (z = p) then Some (next nd) else nx h z.
Proof. unfold nx. case_decide as E; [subst; by rewrite lookup_insert_eq|by rewrite lookup_insert_ne by done]. Qed.

(** A new node linked between [p] and [q]. *)
(** The members of a chain with one more node. *)
Lemma members_insert h h' c c' n k : list_ok h c -> list_ok h' c' -> n ∉ c -> (forall z, z ∈ c' <-> z = n \/ z ∈ c) ->
  kf h' n = k -> (forall z, z ∈ c -> kf h' z = kf h z) -> members h' = {[k]} ∪ members h.
Proof.
  intros Hok Hok' Hn Hc' Hkn Hk'. apply set_eq. intros k'.
  rewrite elem_of_union, elem_of_singleton, (coarse_members_spec h' _ Hok'), (coarse_members_spec h c Hok). split.
  - intros (z & [->|Hz]%Hc' & Hzh & <-); [left; by rewrite Hkn|right]. exists z. by rewrite Hk'.
  - intros [->|(z & Hz & Hzh & <-)].
    + exists n. split; [apply Hc'; by left|]. split; [|done]. intros ->. apply Hn, Hok.
    + exists z. split; [apply Hc'; by right|]. split; [done|]. by apply Hk'.
Qed.

Lemma insert_ok h c p q n x k : list_ok h c -> p ∈ c -> nx h p = Some q -> kf h p < k < kf h q -> INT_MIN < k < INT_MAX ->
  h !! n = None -> exists h' c', set_next (<[n := Node (Some x) k q]> h) p n = Some h' /\ list_ok h' c' /\
    (forall z, z ∈ c' <-> z = n \/ z ∈ c) /\ members h' = {[k]} ∪ members h /\ k ∉ members h /\
    (forall z, is_Some (h !! z) -> z <> p -> h' !! z = h !! z) /\ (forall z, is_Some (h !! z) -> kf h' z = kf h z) /\
    (forall z, is_Some (h !! z) -> is_Some (h' !! z)).
Proof.
  intros Hok Hp Hq Hk Hrange Hn. destruct (l_node _ _ Hok p) as [nd Hnd]; [by right|].
  assert (Hnew : forall z, is_Some (h !! z) -> z <> n) by (intros z [nz Hz] ->; congruence).
  assert (Hcn : forall z, z ∈ tail :: c -> z <> n) by (intros z Hz; apply Hnew; by apply (l_node _ _ Hok)).
  set (h1 := <[n := Node (Some x) k q]> h). assert (Hnd1 : h1 !! p = Some nd) by (unfold h1; rewrite lookup_insert_ne; [done|]; intros <-; congruence).
  pose proof (next_in h c Hok p q Hp Hq) as Hqc.
  rewrite (set_next_spec h1 p n nd Hnd1). set (h' := <[p := _]> h1).
  assert (Hkn : kf h' n = k) by (unfold h'; rewrite (kf_set h1 p n nd n Hnd1); unfold h1, kf; by rewrite lookup_insert_eq).
  assert (Hk' : forall z, is_Some (h !! z) -> kf h' z = kf h z).
  { intros z Hz. unfold h'. rewrite (kf_set h1 p n nd z Hnd1). unfold h1, kf. rewrite lookup_insert_ne; [done|]. intros <-. by apply (Hnew n). }
  assert (Hnx : forall z, z <> p -> z <> n -> nx h' z = nx h z).
  { intros z Hzp Hzn. unfold h', h1. rewrite !nx_insert. by rewrite !decide_False. }
  assert (Hlook : forall z, is_Some (h !! z) -> z <> p -> h' !! z = h !! z).
  { intros z Hz Hzp. unfold h', h1. rewrite !lookup_insert_ne; [done| |done]. intros <-. by apply (Hnew n). }
  destruct (list_elem_of_split _ _ Hp) as (c1 & c2 & Ec). pose proof (coarse_chain_NoDup h c Hok) as Hnd'. rewrite Ec in Hnd'.
  assert (Hpn : p ∉ c1 ++ c2) by (rewrite <- Permutation_middle in Hnd'; by apply NoDup_cons in Hnd' as [? _]).
  assert (Hc' : forall z, z ∈ c1 ++ p :: n :: c2 <-> z = n \/ z ∈ c) by (intros z; rewrite Ec, !elem_of_app, !elem_of_cons; tauto).
  assert (Hpp : p <> n) by (apply Hcn; by right).
  assert (Hok' : list_ok h' (c1 ++ p :: n :: c2)).
  { constructor.
    - pose proof (l_seg _ _ Hok) as Hs. rewrite Ec in Hs. apply (seg_insert (nx h)); [done| | |].
      + unfold h'. by rewrite nx_insert, decide_True.
      + unfold h', h1. by rewrite nx_insert, decide_False, nx_insert, decide_True, Hq.
      + intros z Hz. apply Hnx; [by intros ->|]. apply Hcn. right. rewrite Ec. apply elem_of_app in Hz as [|]; apply elem_of_app; [by left|right; by right].
    - apply Hc'. right. apply Hok.
    - intros [Ht|Ht]%Hc'; [by apply (Hcn tail); [left|]|by apply (l_tail _ _ Hok)].
    - assert (Hsome : forall z, is_Some (h !! z) -> is_Some (h' !! z)).
      { intros z Hz. destruct (decide (z = p)) as [->|]; [unfold h'; rewrite lookup_insert_eq; by eexists|by rewrite Hlook]. }
      intros z Hz. apply elem_of_cons in Hz as [->|[->|Hz]%Hc']; [apply Hsome, (l_node _ _ Hok); by left| |apply Hsome, (l_node _ _ Hok); by right].
      unfold h', h1. rewrite lookup_insert_ne, lookup_insert_eq by done. by eexists.
    - intros z y Hz Hy. destruct (decide (z = n)) as [->|Hzn].
      + unfold h', h1 in Hy. rewrite nx_insert, decide_False, nx_insert, decide_True in Hy by done. injection Hy as <-.
        rewrite Hkn, Hk' by by apply (l_node _ _ Hok). simpl. lia.
      + apply Hc' in Hz as [|Hz]; [done|]. rewrite (Hk' z) by (apply (l_node _ _ Hok); by right).
        destruct (decide (z = p)) as [->|Hzp].
        * unfold h' in Hy. rewrite nx_insert, decide_True in Hy by done. injection Hy as <-. simpl. rewrite Hkn. lia.
        * rewrite Hnx in Hy by done. rewrite Hk' by (apply (l_node _ _ Hok); by apply (next_in h c Hok z)). by apply (l_up _ _ Hok).
    - rewrite Hk' by (apply (l_node _ _ Hok); right; apply Hok). apply Hok.
    - rewrite Hk' by (apply (l_node _ _ Hok); by left). apply Hok. }
  exists h', (c1 ++ p :: n :: c2). split; [done|]. split; [done|]. split; [done|]. split; [|split; [|split; [|split]]]; [| |done|done|].
  - apply (members_insert h h' c (c1 ++ p :: n :: c2) n k); try done.
    + intros Hin. apply (Hcn n); [by right|done].
    + intros z Hz. apply Hk', (l_node _ _ Hok). by right.
  - by apply (coarse_gap_absent h c Hok p q).
  - intros z Hz. destruct (decide (z = p)) as [->|]; [unfold h'; rewrite lookup_insert_eq; by eexists|by rewrite Hlook].
Qed.

(** The node after [p] unlinked. *)
Lemma unlink_ok h c p q r : list_ok h c -> p ∈ c -> nx h p = Some q -> q ∈ c -> q <> head -> nx h q = Some r ->
  exists h' c', set_next h p r = Some h' /\ list_ok h' c' /\ (forall z, z ∈ c' <-> z ∈ c /\ z <> q) /\
    members h' = members h ∖ {[kf h q]} /\ (forall z, z <> p -> h' !! z = h !! z) /\ (forall z, kf h' z = kf h z) /\
    (forall z, is_Some (h !! z) -> is_Some (h' !! z)).
Proof.
  intros Hok Hp Hq Hqc Hqh Hr. destruct (l_node _ _ Hok p) as [nd Hnd]; [by right|].
  rewrite (set_next_spec h p r nd Hnd). set (h' := <[p := _]> h).
  assert (Hk' : forall z, kf h' z = kf h z) by (intros z; by apply kf_set).
  assert (Hlook : forall z, z <> p -> h' !! z = h !! z) by (intros z Hz; unfold h'; by rewrite lookup_insert_ne).
  assert (Hnx : forall z, z <> p -> nx h' z = nx h z) by (intros z Hz; unfold nx; by rewrite Hlook).
  assert (Hsome : forall z, is_Some (h !! z) -> is_Some (h' !! z)).
  { intros z Hz. destruct (decide (z = p)) as [->|]; [unfold h'; rewrite lookup_insert_eq; by eexists|by rewrite Hlook]. }
  destruct (list_elem_of_split _ _ Hp) as (c1 & c2 & Ec). pose proof (l_seg _ _ Hok) as Hs. rewrite Ec in Hs.
  destruct (seg_next _ _ _ _ _ _ _ Hs Hq) as [[_ ->]|[c3 ->]]; [by destruct (l_tail _ _ Hok)|].
  pose proof (coarse_chain_NoDup h c Hok) as Hnd'. rewrite Ec in Hnd'.
  assert (Hpn : p ∉ c1 ++ q :: c3) by (rewrite <- Permutation_middle in Hnd'; by apply NoDup_cons in Hnd' as [? _]).
  assert (Hqn : q ∉ c1 ++ p :: c3).
  { rewrite (Permutation_swap q p), <- Permutation_middle in Hnd'. by apply NoDup_cons in Hnd' as [? _]. }
  assert (Hc' : forall z, z ∈ c1 ++ p :: c3 <-> z ∈ c /\ z <> q).
  { intros z. rewrite Ec. split.
    - intros Hz. split; [rewrite !elem_of_app, !elem_of_cons in *; tauto|by intros ->].
    - intros [Hz Hne]. rewrite !elem_of_app, !elem_of_cons in *. tauto. }
  assert (Hok' : list_ok h' (c1 ++ p :: c3)).
  { constructor.
    - apply (seg_remove (nx h) _ head c1 c3 tail p q); [done| |].
      + unfold h'. rewrite nx_insert, decide_True by done. by rewrite Hr.
      + intros z Hz. apply Hnx. intros ->. apply Hpn. rewrite elem_of_app, elem_of_cons. apply elem_of_app in Hz. tauto.
    - apply Hc'. split; [apply Hok|done].
    - intros [Ht _]%Hc'. by apply (l_tail _ _ Hok).
    - intros z Hz. apply Hsome, (l_node _ _ Hok). apply elem_of_cons in Hz as [->|[Hz _]%Hc']; [by left|by right].
    - intros z y [Hz Hzq]%Hc' Hy. rewrite !Hk'. destruct (decide (z = p)) as [->|Hzp].
      + unfold h' in Hy. rewrite nx_insert, decide_True in Hy by done. injection Hy as <-. simpl.
        pose proof (l_up _ _ Hok p q Hp Hq). pose proof (l_up _ _ Hok q r Hqc Hr). lia.
      + rewrite Hnx in Hy by done. by apply (l_up _ _ Hok).
    - rewrite Hk'. apply Hok.
    - rewrite Hk'. apply Hok. }
  exists h', (c1 ++ p :: c3). split; [done|]. split; [done|]. split; [done|]. split; [|done].
  apply set_eq. intros k. rewrite elem_of_difference, elem_of_singleton, (coarse_members_spec h' _ Hok'), (coarse_members_spec h c Hok). split.
  - intros (z & [Hz Hzq]%Hc' & Hzh & <-). rewrite Hk'. split; [by exists z|]. intros E. apply Hzq. by apply (coarse_key_inj h c Hok).
  - intros [(z & Hz & Hzh & <-) Hne]. exists z. rewrite Hk'. split; [|done]. apply Hc'. split; [done|]. by intros ->.
Qed.

(** ** The methods *)

Lemma init_ok : head <> tail -> list_ok init_heap [head] /\ members init_heap = ∅.
Proof.
  intros Hne. assert (Hh : init_heap !! head = Some (Node None INT_MIN tail)) by apply lookup_insert_eq.
  assert (Ht : init_heap !! tail = Some (Node None INT_MAX tail)).
  { unfold init_heap. rewrite lookup_insert_ne by done. apply lookup_singleton_eq. }
  assert (Hok : list_ok init_heap [head]).
  { constructor; unfold kf, nx; rewrite ?Hh, ?Ht; try done.
    - simpl. split; [done|]. exists tail. by rewrite Hh.
    - by left.
    - intros ?%list_elem_of_singleton. congruence.
    - intros p Hp. rewrite !elem_of_cons in Hp. destruct Hp as [->|[->|Hp]]; [by eexists|by eexists|by apply elem_of_nil in Hp].
    - intros p q ->%list_elem_of_singleton. rewrite Hh. simpl. intros [= <-]. by rewrite Ht. }
  split; [done|]. apply set_eq. intros k. rewrite (coarse_members_spec _ _ Hok). split; [|by intros ?%elem_of_empty].
  by intros (p & ->%list_elem_of_singleton & ? & _).
Qed.

(** Where [locate] stops. *)
Definition found h c (k p q : Z) : Prop := p ∈ c /\ nx h p = Some q /\ kf h p < k /\ k <= kf h q.

Lemma locate_from_spec h c k fuel c1 c2 p q : list_ok h c -> c = c1 ++ p :: c2 -> nx h p = Some q -> kf h p < k -> k <= INT_MAX ->
  (length c2 <= fuel)%nat -> exists p' q', locate_from fuel h k p q = Some (p', q') /\ found h c k p' q'.
Proof.
  intros Hok Ec Hq Hp Hk. revert c1 c2 p q Ec Hq Hp. induction fuel as [|fuel IH]; intros c1 c2 p q Ec Hq Hp Hf; simpl;
    (assert (Hpc : p ∈ c) by (rewrite Ec, elem_of_app, elem_of_cons; auto));
    pose proof (next_in h c Hok p q Hpc Hq) as Hqc; destruct (l_node _ _ Hok q Hqc) as [nq Hnq];
    pose proof (coarse_kf_key h q nq Hnq) as Ek; rewrite Hnq; simpl; pose proof (l_seg _ _ Hok) as Hs; rewrite Ec in Hs;
    (destruct (Z.ltb_spec (key nq) k) as [Hlt|Hge]; [|by exists p, q; split; [done|]; unfold found; rewrite Ek]);
    (destruct (seg_next _ _ _ _ _ _ _ Hs Hq) as [[_ ->]|[c3 ->]]; [rewrite (l_last _ _ Hok) in Ek; lia|]); simpl in Hf; [lia|].
  apply (IH (c1 ++ [p]) c3 q (next nq)); [by rewrite Ec, <- app_assoc| |by rewrite Ek|lia]. unfold nx. by rewrite Hnq.
Qed.

Lemma locate_spec h c k : list_ok h c -> INT_MIN < k < INT_MAX ->
  exists p q, locate h k head = Some (p, q) /\ found h c k p q.
Proof.
  intros Hok Hk. destruct (coarse_chain_head h c Hok) as (c' & Ec & _). destruct (next_some h c Hok head (l_head _ _ Hok)) as (q & Hq & _).
  unfold locate. unfold nx in Hq. destruct (h !! head) as [nd|] eqn:Hnd; [|done]. simpl in Hq |- *. injection Hq as <-.
  pose proof (chain_size h c Hok) as Hsz. rewrite Ec in Hsz. simpl in Hsz.
  apply (locate_from_spec h c k _ [] c'); [done|done|unfold nx; by rewrite Hnd|rewrite (l_first _ _ Hok); lia|lia|lia].
Qed.

(** The list with one lock is a set of keys: each method, which runs alone under
    the mutex, ends without a wild pointer, answers and changes the set of keys as
    it should, and keeps the chain ordered, for an item whose key is not that of a
    sentinel. *)
Theorem coarse_list_set h c o new : list_ok h c -> INT_MIN < key_of o < INT_MAX -> h !! new = None ->
  exists h' c', call h o new = Some (h', (set_op hash o (members h)).2) /\ list_ok h' c' /\
    members h' = (set_op hash o (members h)).1.
Proof.
  intros Hok Hk Hnew. destruct (locate_spec h c (key_of o) Hok Hk) as (p & q & El & Hp & Hq & Hkp & Hkq).
  pose proof (next_in h c Hok p q Hp Hq) as Hqc. destruct (l_node _ _ Hok q Hqc) as [nq Hnq].
  pose proof (coarse_kf_key h q nq Hnq) as Ek.
  assert (Hmem : bool_decide (key_of o ∈ members h) = (key nq =? key_of o)).
  { destruct (Z.eqb_spec (key nq) (key_of o)) as [E|E].
    - apply bool_decide_true. by apply (key_present h c Hok q); [|rewrite Ek|].
    - apply bool_decide_false. apply (coarse_gap_absent h c Hok p q); [done|done|]. lia. }
  destruct o as [x|x|x]; unfold call, add, remove, contains; simpl.
  - simpl in El, Hmem. rewrite El. simpl. rewrite Hnq. simpl. rewrite bool_decide_not, Hmem. destruct (Z.eqb_spec (key nq) (to_int (hash x))) as [E|E].
    + exists h, c. split; [done|]. split; [done|]. apply bool_decide_eq_true in Hmem. set_solver.
    + simpl in Hk, Hkp, Hkq. destruct (insert_ok h c p q new x (to_int (hash x)) Hok Hp Hq) as (h' & c' & -> & Hok' & _ & Hm & _); [lia|done|done|].
      exists h', c'. by split.
  - simpl in El, Hmem. rewrite El. simpl. rewrite Hnq. simpl. rewrite Hmem. destruct (Z.eqb_spec (key nq) (to_int (hash x))) as [E|E].
    + destruct (key_present h c Hok q (to_int (hash x)) Hqc) as (Hqc' & Hqh & _); [congruence|exact Hk|].
      destruct (unlink_ok h c p q (next nq) Hok Hp Hq Hqc' Hqh) as (h' & c' & -> & Hok' & _ & Hm & _); [unfold nx; by rewrite Hnq|].
      exists h', c'. split; [done|]. split; [done|]. rewrite Hm, Ek. by rewrite E.
    + exists h, c. split; [done|]. split; [done|]. apply bool_decide_eq_false in Hmem. set_solver.
  - unfold locate in El. simpl in El, Hmem. destruct (h !! head) as [nd|]; [|done]. simpl in El |- *. rewrite El. simpl.
    rewrite Hnq. simpl. rewrite Hmem. by exists h, c.
Qed.
End List.
End CoarseList.

Lemma coarse_list_set_witness : exists h' c', CoarseList.call id 16 (CoarseList.init_heap 16 32) (Add 5) 48 = Some (h', true) /\
  CoarseList.list_ok 16 32 h' c' /\ CoarseList.members 16 32 h' = {[ 5 ]}.
Proof.
  destruct (CoarseList.init_ok (T := Z) 16 32) as [Hok Hm]; [done|].
  destruct (CoarseList.coarse_list_set id 16 32 _ _ (Add 5) 48 Hok) as (h' & c' & Hc & Hok' & Hm');
    [split; vm_compute; reflexivity|vm_compute; reflexivity|].
  exists h', c'. rewrite Hm in Hc, Hm'. split; [exact Hc|]. split; [exact Hok'|]. rewrite Hm'. vm_compute. reflexivity.
Defined.
