(* ===== verification/FineList.v ===== *)
(** * The list with a lock in each node

    [graphs/ordered_ll/fine_list.h]: the same list as that with one lock, locked
    hand over hand.  A step of a thread takes or releases one lock, reads one
    [next], or, holding the locks of two neighbours, does the work of the method,
    which is when the call takes effect. *)

From S2P Require Import Prelude OrderedList ListSet CoarseList.
Import CoarseList.

Module FineList.

(** Where a thread is; [pred] and [curr] as in the code. *)
Inductive pc (T : Type) :=
| Idle
| LockHead (o : op T)
| GetNext (o : op T) (pred : Z)
| LockCurr (o : op T) (pred curr : Z)
| Test (o : op T) (pred curr : Z)
| UnlockCurr (o : op T) (result : bool) (pred curr : Z)
| UnlockPred (o : op T) (result : bool) (pred : Z).
Arguments Idle {T}.
Arguments LockHead {T} _.
Arguments GetNext {T} _ _.
Arguments LockCurr {T} _ _ _.
Arguments Test {T} _ _ _.
Arguments UnlockCurr {T} _ _ _ _.
Arguments UnlockPred {T} _ _ _.

Record thread (T : Type) := Thread { at_pc : pc T; todo : list (op T); finished : list (op T * bool) }.
Arguments Thread {T} _ _ _.
Arguments at_pc {T} _.
Arguments todo {T} _.
Arguments finished {T} _.

Section List.
Context {T : Type} (hash : T -> Z) (head tail : Z).
Abbreviation heap := (gmap Z (node T)).
Abbreviation key_of := (key_of hash).
Implicit Types (h : heap) (lk : gmap Z tid_t) (th : thread T) (o : op T) (t : tid_t).

(** [std::mutex]: [lock] blocks while someone holds it. *)
Definition lock t lk (p : Z) : option (gmap Z tid_t) :=
  match lk !! p with None => Some (<[p := t]> lk) | Some _ => None end.
Definition unlock lk (p : Z) : gmap Z tid_t := delete p lk.

Definition goto (k : pc T) th : thread T := Thread k (todo th) (finished th).

(** The work of [add], [remove] and [contains] between the locks. *)
Definition act h o (pred curr new : Z) : option (heap * bool) :=
  nc ← h !! curr;
  let k := key_of o in
  match o with
  | Add x =>
      if key nc =? k then Some (h, false)
      else if decide (h !! new = None) then
        h' ← set_next (<[new := Node (Some x) k curr]> h) pred new; Some (h', true)
      else None
  | Remove _ => if key nc =? k then h' ← set_next h pred (next nc); Some (h', true) else Some (h, false)
  | Contains _ => Some (h, key nc =? k)
  end.

(** One step, with the call that takes effect in it. *)
Definition tstep t h lk th (new : Z) : option (heap * gmap Z tid_t * thread T * option (op T * bool)) :=
  match at_pc th with
  | Idle =>
      match todo th with
      | [] => None
      | o :: rest => Some (h, lk, Thread (LockHead o) rest (finished th), None)
      end
  | LockHead o => lk' ← lock t lk head; Some (h, lk', goto (GetNext o head) th, None)
  | GetNext o pred => nd ← h !! pred; Some (h, lk, goto (LockCurr o pred (next nd)) th, None)
  | LockCurr o pred curr => lk' ← lock t lk curr; Some (h, lk', goto (Test o pred curr) th, None)
  | Test o pred curr =>
      nc ← h !! curr;
      if key nc <? key_of o then Some (h, unlock lk pred, goto (GetNext o curr) th, None)
      else
        '(h', result) ← act h o pred curr new;
        Some (h', lk, goto (UnlockCurr o result pred curr) th, Some (o, result))
  | UnlockCurr o result pred curr => Some (h, unlock lk curr, goto (UnlockPred o result pred) th, None)
  | UnlockPred o result pred =>
      Some (h, unlock lk pred, Thread Idle (todo th) (finished th ++ [(o, result)]), None)
  end.

Record sys := Sys { nodes : heap; locks : gmap Z tid_t; threads : gmap tid_t (thread T) }.

Inductive step : sys -> option (tid_t * (op T * bool)) -> sys -> Prop :=
| step_thread s t th new h' lk' th' ev :
    threads s !! t = Some th -> tstep t (nodes s) (locks s) th new = Some (h', lk', th', ev) ->
    step s (pair t <$> ev) (Sys h' lk' (<[t := th']> (threads s))).

(** The calls in the order in which they took effect. *)
Inductive exec (s0 : sys) : list (tid_t * (op T * bool)) -> sys -> Prop :=
| exec_nil : exec s0 [] s0
| exec_snoc evs s ev s' : exec s0 evs s -> step s ev s' -> exec s0 (evs ++ option_list ev) s'.

Definition init (ps : gmap tid_t (list (op T))) : sys :=
  Sys (init_heap head tail) ∅ ((fun os => Thread Idle os []) <$> ps).

(** ** The invariant *)

Abbreviation list_ok := (list_ok head tail).
Abbreviation members := (members head tail).
Implicit Types (c : list Z).

Definition in_range o : Prop := INT_MIN < key_of o < INT_MAX.

(** The locks a thread holds. *)
Definition holds (k : pc T) : list Z :=
  match k with
  | Idle | LockHead _ => []
  | GetNext _ p | LockCurr _ p _ | UnlockPred _ _ p => [p]
  | Test _ p q | UnlockCurr _ _ p q => [p; q]
  end.

Definition pc_ok h c (k : pc T) : Prop :=
  match k with
  | Idle => True
  | LockHead o => in_range o
  | GetNext o p => in_range o /\ p ∈ c /\ kf h p < key_of o
  | LockCurr o p q | Test o p q => in_range o /\ p ∈ c /\ kf h p < key_of o /\ nx h p = Some q
  | UnlockCurr _ _ p q => p <> q
  | UnlockPred _ _ _ => True
  end.

(** The calls of a thread that took effect. *)
Definition effects th : list (op T * bool) :=
  finished th ++ match at_pc th with UnlockCurr o r _ _ | UnlockPred o r _ => [(o, r)] | _ => [] end.

Record inv (evs : list (tid_t * (op T * bool))) (s : sys) : Prop := {
  i_list : exists c, list_ok (nodes s) c /\ forall t th, threads s !! t = Some th -> pc_ok (nodes s) c (at_pc th);
  i_todo t th : threads s !! t = Some th -> Forall in_range (todo th);
  i_locks p t : locks s !! p = Some t <-> exists th, threads s !! t = Some th /\ p ∈ holds (at_pc th);
  i_replay : replay hash evs.*2 ∅ = Some (members (nodes s));
  i_effects t th : threads s !! t = Some th -> (filter (fun e => e.1 = t) evs).*2 = effects th }.

(** What a step of another thread leaves of what a thread knows: it writes only
    to nodes, and unlinks only nodes, that this thread has not locked. *)
Lemma pc_ok_stable h c h' c' k : list_ok h c -> pc_ok h c k ->
  (forall p, p ∈ holds k -> p ∈ c -> p ∈ c' /\ h' !! p = h !! p) -> pc_ok h' c' k.
Proof.
  intros Hok Hk Hf. assert (Hkf : forall p, p ∈ holds k -> p ∈ c -> p ∈ c' /\ kf h' p = kf h p /\ nx h' p = nx h p).
  { intros p Hp Hpc. destruct (Hf p Hp Hpc) as [? E]. unfold kf, nx. by rewrite E. }
  destruct k as [|o|o p|o p q|o p q|o r p q|o r p]; simpl in *; try done.
  - destruct Hk as (? & Hp & ?). destruct (Hkf p ltac:(by left) Hp) as (? & -> & _). done.
  - destruct Hk as (? & Hp & ?). destruct (Hkf p ltac:(by left) Hp) as (? & -> & ->). done.
  - destruct Hk as (? & Hp & ?). destruct (Hkf p ltac:(by left) Hp) as (? & -> & ->). done.
Qed.

(** The step changed the list and its own locks in this way. *)
Record stepped t h lk th h' lk' th' (ev : option (op T * bool)) c c' : Prop := {
  s_ok : list_ok h' c';
  s_pc : pc_ok h' c' (at_pc th');
  s_others p : p ∈ c -> p ∉ holds (at_pc th) -> p ∈ c' /\ h' !! p = h !! p;
  s_todo : Forall in_range (todo th) -> Forall in_range (todo th');
  s_replay : replay hash (option_list ev) (members h) = Some (members h');
  s_effects : effects th' = effects th ++ option_list ev;
  s_locks p u : lk' !! p = Some u <-> (u = t /\ p ∈ holds (at_pc th')) \/ (u <> t /\ lk !! p = Some u) }.

Section Step.
Context t h lk th c (Hok : list_ok h c) (Hpc : pc_ok h c (at_pc th)).
Context (Hlk : forall p, lk !! p = Some t <-> p ∈ holds (at_pc th)).

(** No node changes, and no call takes effect. *)
Lemma fine_quiet lk' k : pc_ok h c k ->
  match at_pc th with UnlockCurr o r _ _ => exists p, k = UnlockPred o r p | UnlockPred _ _ _ => False
  | _ => match k with UnlockCurr _ _ _ _ | UnlockPred _ _ _ => False | _ => True end end ->
  (forall p u, lk' !! p = Some u <-> (u = t /\ p ∈ holds k) \/ (u <> t /\ lk !! p = Some u)) ->
  stepped t h lk th h lk' (goto k th) None c c.
Proof.
  intros Hk Heff Hl. constructor; try done. unfold effects, goto. simpl. rewrite app_nil_r.
  destruct (at_pc th), k; try done; by destruct Heff as [? [= <- <- <-]].
Qed.

Lemma locks_same p u : lk !! p = Some u <-> (u = t /\ p ∈ holds (at_pc th)) \/ (u <> t /\ lk !! p = Some u).
Proof. destruct (decide (u = t)) as [->|]; rewrite ?Hlk; tauto. Qed.

Lemma locks_taken q p u : lk !! q = None ->
  <[q := t]> lk !! p = Some u <-> (u = t /\ (p = q \/ p ∈ holds (at_pc th))) \/ (u <> t /\ lk !! p = Some u).
Proof.
  intros Hq. rewrite lookup_insert_Some. destruct (decide (u = t)) as [->|Hne].
  - rewrite Hlk. destruct (decide (q = p)); naive_solver.
  - destruct (decide (q = p)) as [<-|]; naive_solver congruence.
Qed.

Lemma locks_released q p u : lk !! q = Some t ->
  unlock lk q !! p = Some u <-> (u = t /\ p <> q /\ p ∈ holds (at_pc th)) \/ (u <> t /\ lk !! p = Some u).
Proof.
  intros Hq. unfold unlock. rewrite lookup_delete_Some. destruct (decide (u = t)) as [->|Hne].
  - rewrite Hlk. naive_solver.
  - destruct (decide (q = p)) as [<-|]; naive_solver congruence.
Qed.

Lemma act_step o p q nq new h' r : at_pc th = Test o p q -> h !! q = Some nq -> key_of o <= key nq ->
  act h o p q new = Some (h', r) ->
  exists c', stepped t h lk th h' lk (goto (UnlockCurr o r p q) th) (Some (o, r)) c c'.
Proof.
  intros Ea Hnq Hle Hact. rewrite Ea in Hpc. simpl in Hpc. destruct Hpc as (Ho & Hp & Hkp & Hq).
  pose proof (next_in head tail h c Hok p q Hp Hq) as Hqc. pose proof (coarse_kf_key h q nq Hnq) as Ek.
  pose proof (l_up _ _ _ _ Hok p q Hp Hq) as Hup. assert (Hpq : p <> q) by (intros ->; lia).
  pose proof locks_same as Hls. rewrite Ea in Hls. simpl in Hls.
  assert (Heff : effects (goto (UnlockCurr o r p q) th) = effects th ++ option_list (Some (o, r))).
  { unfold effects, goto. rewrite Ea. simpl. by rewrite app_nil_r. }
  assert (Hsame : replay hash [(o, r)] (members h) = Some (members h) ->
    exists c', stepped t h lk th h lk (goto (UnlockCurr o r p q) th) (Some (o, r)) c c').
  { intros Hr. exists c. by constructor. }
  assert (Habs : key nq <> key_of o -> key_of o ∉ members h).
  { intros Hne. apply (coarse_gap_absent head tail h c Hok p q); [done|done|]. lia. }
  assert (Hpres : key nq = key_of o -> q ∈ c /\ q <> head /\ key_of o ∈ members h).
  { intros E. apply (key_present head tail h c Hok q); [done|congruence|exact Ho]. }
  unfold act in Hact. rewrite Hnq in Hact. simpl in Hact.
  destruct (Z.eqb_spec (key nq) (key_of o)) as [E|E]; destruct o as [x|x|x]; simpl in Hact, E; rewrite ?E, ?Z.eqb_refl in Hact.
  - simplify_eq. apply Hsame. simpl. destruct (Hpres E) as (_ & _ & Hin). simpl in Hin. rewrite decide_True by (symmetry; by apply bool_decide_false; intros ?).
    f_equal. set_solver.
  - destruct (Hpres E) as (Hqc' & Hqh & Hin).
    destruct (unlink_ok head tail h c p q (next nq) Hok Hp Hq Hqc' Hqh) as (h1 & c' & E1 & Hok' & Hc' & Hm & Hlook & _); [unfold nx; by rewrite Hnq|].
    rewrite E1 in Hact. simpl in Hact. simplify_eq. exists c'. constructor; try done.
    + intros z Hz Hnh. rewrite Ea in Hnh. simpl in Hnh. rewrite !not_elem_of_cons in Hnh. split; [apply Hc'; naive_solver|apply Hlook; naive_solver].
    + simpl. rewrite decide_True by (symmetry; by apply bool_decide_true). rewrite Hm, Ek. simpl in E. by rewrite E.
  - simplify_eq. apply Hsame. simpl. destruct (Hpres E) as (_ & _ & Hin). by rewrite decide_True by (symmetry; by apply bool_decide_true).
  - destruct (Z.eqb_spec (key nq) (to_int (hash x))); [done|]. case_decide as Hnew; [|done].
    destruct (insert_ok hash head tail h c p q new x (to_int (hash x)) Hok Hp Hq) as (h1 & c' & E1 & Hok' & Hc' & Hm & Hno & Hlook & _);
      [simpl in *; lia|exact Ho|done|]. rewrite E1 in Hact. simpl in Hact. simplify_eq. exists c'. constructor; try done.
    + intros z Hz Hnh. rewrite Ea in Hnh. simpl in Hnh. rewrite !not_elem_of_cons in Hnh.
      split; [apply Hc'; by right|apply Hlook; [apply (l_node _ _ _ _ Hok); by right|naive_solver]].
    + simpl. rewrite decide_True by (symmetry; by apply bool_decide_true). by rewrite Hm.
  - destruct (Z.eqb_spec (key nq) (to_int (hash x))); [done|]. simplify_eq. apply Hsame. simpl.
    specialize (Habs E). simpl in Habs. rewrite decide_True by (symmetry; by apply bool_decide_false). f_equal. set_solver.
  - destruct (Z.eqb_spec (key nq) (to_int (hash x))); [done|]. simplify_eq. apply Hsame. simpl.
    specialize (Habs E). simpl in Habs. by rewrite decide_True by (symmetry; by apply bool_decide_false).
Qed.

Lemma tstep_ok new h' lk' th' ev : Forall in_range (todo th) -> tstep t h lk th new = Some (h', lk', th', ev) ->
  exists c', stepped t h lk th h' lk' th' ev c c'.
Proof.
  intros Htd. pose proof locks_same as Hls. pose proof Hpc as Hk'. unfold tstep.
  destruct (at_pc th) as [|o|o p|o p q|o p q|o r p q|o r p] eqn:Ea in Hk' |- *; rewrite Ea in Hls; simpl in Hk', Hls.
  - destruct (todo th) as [|o rest] eqn:Et; [done|]. intros [= <- <- <- <-]. apply Forall_cons in Htd as [Ho Hrest].
    exists c. constructor; try done. unfold effects. rewrite Ea. simpl. by rewrite !app_nil_r.
  - unfold lock. destruct (lk !! head) eqn:Hh; simpl; [done|]. intros [= <- <- <- <-]. exists c.
    pose proof (l_first _ _ _ _ Hok) as Hf. pose proof (l_head _ _ _ _ Hok). apply fine_quiet; [simpl; rewrite Hf|by rewrite Ea|].
    + unfold in_range in Hk'. split; [done|]. split; [done|lia].
    + intros z u. rewrite locks_taken by done. rewrite Ea. simpl. rewrite elem_of_nil, list_elem_of_singleton. tauto.
  - destruct Hk' as (Ho & Hp & Hk). destruct (h !! p) as [nd|] eqn:Hnd; simpl; [|done]. intros [= <- <- <- <-]. exists c.
    apply fine_quiet; [|by rewrite Ea|done]. simpl. split_and!; try done. unfold nx. by rewrite Hnd.
  - unfold lock. destruct (lk !! q) eqn:Hh; simpl; [done|]. intros [= <- <- <- <-]. exists c.
    apply fine_quiet; [done|by rewrite Ea|]. intros z u. rewrite locks_taken by done. rewrite Ea. simpl.
    rewrite !elem_of_cons, elem_of_nil. tauto.
  - destruct (h !! q) as [nq|] eqn:Hnq; simpl; [|done]. destruct (Z.ltb_spec (key nq) (key_of o)) as [Hlt|Hge].
    + intros [= <- <- <- <-]. exists c. destruct Hk' as (Ho & Hp & Hk & Hq). pose proof (coarse_kf_key h q nq Hnq) as Ek.
      pose proof (l_up _ _ _ _ Hok p q Hp Hq) as Hup. apply fine_quiet; [|by rewrite Ea|].
      * simpl. rewrite Ek. split; [done|]. split; [|done]. pose proof (next_in head tail h c Hok p q Hp Hq) as Hqc.
        apply elem_of_cons in Hqc as [->|]; [|done]. rewrite (l_last _ _ _ _ Hok) in Ek. unfold in_range in Ho. lia.
      * intros z u. rewrite locks_released by (apply Hlk; rewrite Ea; by left). rewrite Ea. simpl.
        rewrite !elem_of_cons, elem_of_nil. assert (p <> q) by (intros ->; lia). naive_solver.
    + destruct (act h o p q new) as [[h1 r]|] eqn:Hact; simpl; [|done]. intros [= <- <- <- <-].
      by apply (act_step o p q nq new).
  - intros [= <- <- <- <-]. exists c. apply fine_quiet; [done|rewrite Ea; by eexists|].
    intros z u. rewrite locks_released by (apply Hlk; rewrite Ea; right; by left). rewrite Ea. simpl.
    rewrite !elem_of_cons, elem_of_nil. naive_solver.
  - intros [= <- <- <- <-]. exists c. constructor; try done.
    + unfold effects. rewrite Ea. simpl. by rewrite !app_nil_r.
    + intros z u. rewrite locks_released by (apply Hlk; rewrite Ea; by left). rewrite Ea. simpl.
      rewrite elem_of_cons, elem_of_nil. naive_solver.
Qed.
End Step.

(** ** The system *)

Implicit Types (s : sys) (evs : list (tid_t * (op T * bool))).

Lemma fine_step_inv evs s ev s' : inv evs s -> step s ev s' -> inv (evs ++ option_list ev) s'.
Proof.
  intros [(c & Hok & Hpcs) Htd Hl Hr He] Hst. destruct Hst as [s t th new h' lk' th' ev Ht Hstep].
  assert (Hlk : forall p, locks s !! p = Some t <-> p ∈ holds (at_pc th)).
  { intros p. rewrite Hl. split; [|by exists th]. intros (th1 & Ht1 & Hp). by simplify_eq. }
  destruct (tstep_ok t (nodes s) (locks s) th c Hok (Hpcs t th Ht) Hlk new h' lk' th' ev (Htd t th Ht) Hstep) as [c' Hs'].
  constructor; simpl.
  - exists c'. split; [apply Hs'|]. intros u thu [[<- <-]|[Hne Hu]]%lookup_insert_Some; [apply Hs'|].
    apply (pc_ok_stable (nodes s) c); [done|by apply (Hpcs u)|]. intros p Hp Hpc. apply (s_others _ _ _ _ _ _ _ _ _ _ Hs'); [done|].
    rewrite <- Hlk. intros Hpt. assert (Hpu : locks s !! p = Some u) by (apply Hl; by exists thu). congruence.
  - intros u thu [[<- <-]|[Hne Hu]]%lookup_insert_Some; [apply Hs'|]; by eapply Htd.
  - intros p u. rewrite (s_locks _ _ _ _ _ _ _ _ _ _ Hs'), Hl. destruct (decide (u = t)) as [->|Hne].
    + rewrite lookup_insert_eq. naive_solver.
    + rewrite lookup_insert_ne by done. naive_solver.
  - rewrite fmap_app, replay_app, Hr. simpl. rewrite <- (s_replay _ _ _ _ _ _ _ _ _ _ Hs'). by destruct ev.
  - intros u thu Hu. rewrite filter_app, fmap_app. apply lookup_insert_Some in Hu as [[<- <-]|[Hne Hu]].
    + rewrite (s_effects _ _ _ _ _ _ _ _ _ _ Hs'), (He t th Ht). f_equal. destruct ev; [|done]. simpl. by rewrite filter_cons_True.
    + rewrite (He u thu Hu). destruct ev; simpl; rewrite ?app_nil_r; [|done]. by rewrite filter_cons_False, app_nil_r by done.
Qed.

Lemma fine_init_inv ps : head <> tail -> (forall t os, ps !! t = Some os -> Forall in_range os) -> inv [] (init ps).
Proof.
  intros Hne Hos. destruct (init_ok (T := T) head tail Hne) as [Hok Hmem]. constructor; simpl.
  - exists [head]. split; [exact Hok|]. by intros t th (os & <- & Ht)%lookup_fmap_Some.
  - intros t th (os & <- & Ht)%lookup_fmap_Some. by apply (Hos t).
  - intros p t. rewrite lookup_empty. split; [done|]. intros (th & (os & <- & Ht)%lookup_fmap_Some & Hp). by apply elem_of_nil in Hp.
  - by rewrite Hmem.
  - by intros t th (os & <- & Ht)%lookup_fmap_Some.
Qed.

Lemma fine_exec_inv s0 evs s : exec s0 evs s -> inv [] s0 -> inv evs s.
Proof. induction 1 as [|evs s ev s' He IH Hst]; intros Hi; [done|]. apply (fine_step_inv evs s); [by apply IH|done]. Qed.

(** A thread that has no step is over or waits for a lock. *)
Lemma fine_tstep_defined t h lk th c new : list_ok h c -> pc_ok h c (at_pc th) -> h !! new = None ->
  is_Some (tstep t h lk th new) \/ at_pc th = Idle /\ todo th = [] \/
  (exists o, at_pc th = LockHead o /\ is_Some (lk !! head)) \/
  (exists o p q, at_pc th = LockCurr o p q /\ is_Some (lk !! q)).
Proof.
  intros Hok Hk Hnew. unfold tstep, lock. destruct (at_pc th) as [|o|o p|o p q|o p q|o r p q|o r p] eqn:Ea; simpl in Hk.
  - destruct (todo th); [by right; left|left; by eexists].
  - destruct (lk !! head) eqn:E; [right; right; left; exists o; split; [done|by eexists]|left; by eexists].
  - destruct Hk as (_ & Hp & _). destruct (l_node _ _ _ _ Hok p) as [nd ->]; [by right|]. left. by eexists.
  - destruct (lk !! q) eqn:E; [right; right; right; exists o, p, q; split; [done|by eexists]|left; by eexists].
  - destruct Hk as (Ho & Hp & Hkp & Hq). destruct (l_node _ _ _ _ Hok q) as [nq Hnq]; [by apply (next_in head tail h c Hok p q)|].
    left. rewrite Hnq. simpl. case_match; [by eexists|]. unfold act. rewrite Hnq. simpl.
    destruct (l_node _ _ _ _ Hok p) as [nd Hnd]; [by right|].
    destruct o; try (by eexists); case_match; try (by eexists).
    + rewrite decide_True by done. unfold set_next. rewrite lookup_insert_ne by (intros <-; congruence). rewrite Hnd. by eexists.
    + unfold set_next. rewrite Hnd. by eexists.
  - left. by eexists.
  - left. by eexists.
Qed.

(** A thread that waits for the lock of [q] is behind one that can step: the
    holder waits, if at all, for a node with a larger key. *)
Lemma waiting_chain evs s c new n t th o p q : inv evs s -> list_ok (nodes s) c ->
  (forall t th, threads s !! t = Some th -> pc_ok (nodes s) c (at_pc th)) -> nodes s !! new = None ->
  threads s !! t = Some th -> at_pc th = LockCurr o p q -> is_Some (locks s !! q) -> INT_MAX - kf (nodes s) q <= Z.of_nat n ->
  exists u thu, threads s !! u = Some thu /\ is_Some (tstep u (nodes s) (locks s) thu new).
Proof.
  intros Hi Hok Hpcs Hnew. revert t th o p q. induction n as [|n IH]; intros t th o p q Ht Ea [u Hu] Hn;
    apply (i_locks _ _ Hi) in Hu as (thu & Htu & Hq);
    pose proof (fine_tstep_defined u (nodes s) (locks s) thu c new Hok (Hpcs u thu Htu) Hnew)
      as [Hs|[[Eu _]|[(o' & Eu & _)|(o' & p' & q' & Eu & Hw)]]];
    try (by exists u, thu); try (by rewrite Eu in Hq; apply elem_of_nil in Hq);
    pose proof (Hpcs u thu Htu) as Hpu; rewrite Eu in Hq, Hpu; apply list_elem_of_singleton in Hq as <-;
    destruct Hpu as (_ & Hpc & _ & Hnx); pose proof (l_up _ _ _ _ Hok _ _ Hpc Hnx) as Hup.
  - destruct (decide (q = head)) as [->|Hne].
    + rewrite (l_first _ _ _ _ Hok) in Hn. unfold INT_MIN, INT_MAX in Hn. lia.
    + pose proof (key_range head tail (nodes s) c Hok q Hpc Hne). lia.
  - apply (IH u thu o' q q'); [done|done|done|lia].
Qed.

Lemma progress evs s new t th : inv evs s -> nodes s !! new = None -> threads s !! t = Some th ->
  at_pc th = Idle /\ todo th = [] \/ exists u thu, threads s !! u = Some thu /\ is_Some (tstep u (nodes s) (locks s) thu new).
Proof.
  intros Hi Hnew Ht. destruct (i_list _ _ Hi) as (c & Hok & Hpcs).
  assert (Hwait : forall u thu o p q, threads s !! u = Some thu -> at_pc thu = LockCurr o p q -> is_Some (locks s !! q) ->
    exists v thv, threads s !! v = Some thv /\ is_Some (tstep v (nodes s) (locks s) thv new)).
  { intros u thu o p q Hu Eu Hq. apply (waiting_chain evs s c new (Z.to_nat (INT_MAX - kf (nodes s) q)) u thu o p q); try done. lia. }
  destruct (fine_tstep_defined t (nodes s) (locks s) th c new Hok (Hpcs t th Ht) Hnew)
    as [Hs|[Ho|[(o & Ea & [u Hu])|(o & p & q & Ea & Hq)]]]; [right; by exists t, th|by left|right|right; by apply (Hwait t th o p q)].
  apply (i_locks _ _ Hi) in Hu as (thu & Htu & Hp).
  destruct (fine_tstep_defined u (nodes s) (locks s) thu c new Hok (Hpcs u thu Htu) Hnew)
    as [Hs|[[Eu _]|[(o' & Eu & _)|(o' & p & q & Eu & Hq)]]];
    [by exists u, thu|by rewrite Eu in Hp; apply elem_of_nil in Hp..|by apply (Hwait u thu o' p q)].
Qed.

(** [C36] The list with a lock in each node is linearizable: in any interleaving, for
    items whose key is not that of a sentinel, each call takes effect in one of
    its own steps, the calls in the order of those steps are a sequential
    execution on a set of keys which ends in the set the list holds, and the calls
    of each thread return those answers in the order of its program.  There is no
    deadlock: while a thread is not done, some thread has a step, given an address
    for a new node. *)
Theorem fine_list_linearizable ps evs s : head <> tail -> (forall t os, ps !! t = Some os -> Forall in_range os) ->
  exec (init ps) evs s ->
  replay hash evs.*2 ∅ = Some (members (nodes s)) /\
  forall t th, threads s !! t = Some th -> (filter (fun e => e.1 = t) evs).*2 = effects th /\
    forall new, nodes s !! new = None -> at_pc th = Idle /\ todo th = [] \/
      exists u thu, threads s !! u = Some thu /\ is_Some (tstep u (nodes s) (locks s) thu new).
Proof.
  intros Hne Hos He. pose proof (fine_exec_inv _ _ _ He (fine_init_inv ps Hne Hos)) as Hi.
  split; [apply Hi|]. intros t th Ht. split; [by apply (i_effects _ _ Hi)|]. intros new Hnew. by apply (progress evs s new t th).
Qed.

(** The states of a schedule: who steps, and the address for an allocation. *)
Fixpoint run (sched : list (tid_t * Z)) s : option (list (tid_t * (op T * bool)) * sys) :=
  match sched with
  | [] => Some ([], s)
  | (t, new) :: rest =>
      th ← threads s !! t;
      '(h', lk', th', ev) ← tstep t (nodes s) (locks s) th new;
      '(evs, s') ← run rest (Sys h' lk' (<[t := th']> (threads s)));
      Some (option_list (pair t <$> ev) ++ evs, s')
  end.

Lemma run_events sched s0 evs s evs' s' : exec s0 evs s -> run sched s = Some (evs', s') -> exec s0 (evs ++ evs') s'.
Proof.
  revert evs s evs'. induction sched as [|[t new] sched IH]; intros evs s evs' He; simpl.
  - intros [= <- <-]. by rewrite app_nil_r.
  - destruct (threads s !! t) as [th|] eqn:Ht; simpl; [|done].
    destruct (tstep t (nodes s) (locks s) th new) as [[[[h' lk'] th'] ev]|] eqn:Hs; simpl; [|done].
    destruct (run sched _) as [[evs1 s1]|] eqn:Hr; simpl; [|done]. intros [= <- <-].
    rewrite app_assoc. eapply IH; [|exact Hr]. eapply exec_snoc; [exact He|]. by econstructor.
Qed.
End List.
End FineList.

(** Two threads, the second waiting for the first. *)
Definition two_programs : gmap tid_t (list (op Z)) := {[ 0%nat := [Add 5]; 1%nat := [Add 7; Contains 5] ]}.
Definition two_schedule : list (tid_t * Z) :=
  (replicate 4 (0%nat, 48)) ++ [(1%nat, 64)] ++ replicate 3 (0%nat, 48) ++ replicate 16 (1%nat, 64).

Lemma fine_list_linearizable_witness : exists evs s,
  FineList.exec id 16 (FineList.init 16 32 two_programs) evs s /\
  evs = [(0%nat, (Add 5, true)); (1%nat, (Add 7, true)); (1%nat, (Contains 5, true))] /\
  replay id evs.*2 ∅ = Some (members 16 32 (FineList.nodes s)).
Proof.
  assert (Hr : exists s, FineList.run id 16 two_schedule (FineList.init 16 32 two_programs) =
    Some ([(0%nat, (Add 5, true)); (1%nat, (Add 7, true)); (1%nat, (Contains 5, true))], s))
    by (eexists; vm_compute; reflexivity).
  destruct Hr as [s Hr]. eexists _, s.
  pose proof (FineList.run_events id 16 _ _ [] _ _ _ (FineList.exec_nil id 16 _) Hr) as He.
  split; [exact He|]. split; [reflexivity|].
  apply (FineList.fine_list_linearizable id 16 32 two_programs _ s); [done| |exact He].
  intros t os Ht. assert (Hall : map_Forall (fun _ os => Forall (FineList.in_range id) os) two_programs).
  { apply map_Forall_insert; [done|]. split; [|apply map_Forall_singleton];
      repeat (constructor; [unfold FineList.in_range; vm_compute; split; reflexivity|]); constructor. }
  exact (Hall t os Ht).
Defined.
