(* ===== verification/LockFree.v ===== *)
(** * The lock-free list

    [graphs/ordered_ll/lockfree_list.h]: an ordered list whose [next] pointers
    carry a mark in their lowest bit.  [remove] marks the node's own [next] and
    then unlinks it; [locate] unlinks the marked nodes it meets.  A step of a
    thread is one access to a [next] word, with the local computation after it;
    nodes are allocated and never freed.  A thread records of each call the
    instants (the number of steps so far) at which it began, took effect and
    returned. *)

From S2P Require Import Prelude OrderedList ListSet.

Module LockFreeList.

(** ** The marked pointer *)

Definition one : Z := 1.

(** [AMR::pack], [get_ptr] and [get_mark] on a 64-bit word. *)
Definition pack (p : Z) (mark : bool) : Z := Z.lor (Z.land p (W64.modulus - 1 - one)) (if mark then 1 else 0).
Definition get_ptr (v : Z) : Z := Z.land v (W64.modulus - 1 - one).
Definition get_mark (v : Z) : bool := negb (Z.land v 1 =? 0).

(** The address of a node. *)
Definition aligned (p : Z) : Prop := 0 <= p < W64.modulus /\ Z.even p = true.

#[export] Instance aligned_dec p : Decision (aligned p).
Proof. unfold aligned. apply _. Defined.

(** ** The nodes *)

Record node (T : Type) := Node { item : option T; key : Z; next : Z }.
Arguments Node {T} _ _ _.
Arguments item {T} _.
Arguments key {T} _.
Arguments next {T} _.

(** A call that returned. *)
Record call (T : Type) := Call { c_op : op T; c_result : bool; c_from : nat; c_at : nat; c_to : nat }.
Arguments Call {T} _ _ _ _ _.
Arguments c_op {T} _.
Arguments c_result {T} _.
Arguments c_from {T} _.
Arguments c_at {T} _.
Arguments c_to {T} _.

(** Where a thread is.  [At o pred curr seen]: about to read [curr->next], the
    link from [pred] to [curr] having been there at [seen]. *)
Inductive pc (T : Type) :=
| Idle
| Start (o : op T)
| At (o : op T) (pred curr : Z) (seen : nat)
| Snip (o : op T) (pred curr succ : Z) (seen : nat)
| AddNew (x : T) (pred curr : Z)
| AddCas (x : T) (pred curr node : Z)
| RemGet (x : T) (pred curr : Z)
| RemMark (x : T) (pred curr succ : Z)
| RemSnip (x : T) (pred curr succ : Z) (seen : nat)
| ContGet (x : T) (curr : Z).
Arguments Idle {T}.
Arguments Start {T} _.
Arguments At {T} _ _ _ _.
Arguments Snip {T} _ _ _ _ _.
Arguments AddNew {T} _ _ _.
Arguments AddCas {T} _ _ _ _.
Arguments RemGet {T} _ _ _.
Arguments RemMark {T} _ _ _ _.
Arguments RemSnip {T} _ _ _ _ _.
Arguments ContGet {T} _ _.

Record thread (T : Type) := Thread { at_pc : pc T; todo : list (op T); since : nat; finished : list (call T) }.
Arguments Thread {T} _ _ _ _.
Arguments at_pc {T} _.
Arguments todo {T} _.
Arguments since {T} _.
Arguments finished {T} _.

Section List.
Context {T : Type} (hash : T -> Z) (head tail : Z).
Abbreviation heap := (gmap Z (node T)).
Abbreviation key_of := (key_of hash).
Implicit Types (h : heap) (th : thread T) (o : op T).

(** The constructor. *)
Definition init_heap : heap :=
  <[head := Node None INT_MIN (pack tail false)]> {[tail := Node None INT_MAX (pack tail false)]}.

(** [AMR::get]: the pointer and the mark. *)
Definition amr_get h (p : Z) : option (Z * bool) :=
  nd ← h !! p; Some (get_ptr (next nd), get_mark (next nd)).

Definition key_at h (p : Z) : option Z := key <$> h !! p.

(** [AMR::compare_and_set] on the [next] of [p]. *)
Definition compare_and_set h (p expected_ref new_ref : Z) (expected_mark new_mark : bool) : option (heap * bool) :=
  nd ← h !! p;
  if next nd =? pack expected_ref expected_mark
  then Some (<[p := Node (item nd) (key nd) (pack new_ref new_mark)]> h, true)
  else Some (h, false).

Definition goto (k : pc T) th : thread T := Thread k (todo th) (since th) (finished th).

Definition return_ (now : nat) o (result : bool) (point : nat) th : thread T :=
  Thread Idle (todo th) (since th) (finished th ++ [Call o result (since th) point now]).

(** What follows [locate] with [curr->key >= key]; [k] is [curr->key]. *)
Definition located (now : nat) o (pred curr k : Z) (seen : nat) th : thread T :=
  match o with
  | Add x => if k =? key_of o then return_ now o false now th else goto (AddNew x pred curr) th
  | Remove x => if negb (k =? key_of o) then return_ now o false seen th else goto (RemGet x pred curr) th
  | Contains _ => th
  end.

(** One step; [new] is the address an allocation gets. *)
Definition tstep (now : nat) h th (new : Z) : option (heap * thread T) :=
  match at_pc th with
  | Idle =>
      match todo th with
      | [] => None
      | o :: rest =>
          let k := match o with Contains x => ContGet x head | _ => Start o end in
          Some (h, Thread k rest now (finished th))
      end
  | Start o =>
      '(curr, _) ← amr_get h head; Some (h, goto (At o head curr now) th)
  | At o pred curr seen =>
      '(succ, marked) ← amr_get h curr;
      k ← key_at h curr;
      if marked : bool then Some (h, goto (Snip o pred curr succ seen) th)
      else if key_of o <=? k then Some (h, located now o pred curr k seen th)
      else Some (h, goto (At o curr succ now) th)
  | Snip o pred curr succ seen =>
      '(h', ok) ← compare_and_set h pred curr succ false false;
      if ok : bool then Some (h', goto (At o pred succ (S now)) th) else Some (h', goto (Start o) th)
  | AddNew x pred curr =>
      if decide (h !! new = None /\ aligned new) then
        Some (<[new := Node (Some x) (key_of (Add x)) (pack curr false)]> h, goto (AddCas x pred curr new) th)
      else None
  | AddCas x pred curr node =>
      '(h', ok) ← compare_and_set h pred curr node false false;
      if ok : bool then Some (h', return_ now (Add x) true now th) else Some (h', goto (Start (Add x)) th)
  | RemGet x pred curr =>
      '(succ, marked) ← amr_get h curr;
      if marked : bool then Some (h, goto (Start (Remove x)) th) else Some (h, goto (RemMark x pred curr succ) th)
  | RemMark x pred curr succ =>
      '(h', ok) ← compare_and_set h curr succ succ false true;
      if ok : bool then Some (h', goto (RemSnip x pred curr succ now) th) else Some (h', goto (Start (Remove x)) th)
  | RemSnip x pred curr succ seen =>
      '(h', _) ← compare_and_set h pred curr succ false false;
      Some (h', return_ now (Remove x) true seen th)
  | ContGet x curr =>
      '(next, marked) ← amr_get h curr;
      k ← key_at h next;
      if negb marked && (key_of (Contains x) <=? k)
      then Some (h, return_ now (Contains x) (k =? key_of (Contains x)) now th)
      else Some (h, goto (ContGet x next) th)
  end.

(** ** The system *)

Record sys := Sys { nodes : heap; threads : gmap tid_t (thread T); now : nat }.

Inductive step : sys -> sys -> Prop :=
| step_thread s t th new h' th' :
    threads s !! t = Some th -> tstep (now s) (nodes s) th new = Some (h', th') ->
    step s (Sys h' (<[t := th']> (threads s)) (S (now s))).

(** [trace ++ [s]]: the states so far. *)
Inductive exec (s0 : sys) : list sys -> sys -> Prop :=
| exec_nil : exec s0 [] s0
| exec_snoc trace s s' : exec s0 trace s -> step s s' -> exec s0 (trace ++ [s]) s'.

Definition init (ps : gmap tid_t (list (op T))) : sys :=
  Sys init_heap ((fun os => Thread Idle os 0 []) <$> ps) 0.

(** The state at an instant. *)
Definition state_at (trace : list sys) (s : sys) (i : nat) : option sys := (trace ++ [s]) !! i.

(** The states of a schedule: who steps, and the address for an allocation. *)
Fixpoint run (sched : list (tid_t * Z)) (s : sys) : option (list sys * sys) :=
  match sched with
  | [] => Some ([], s)
  | (t, new) :: rest =>
      th ← threads s !! t;
      '(h', th') ← tstep (now s) (nodes s) th new;
      '(trace, s') ← run rest (Sys h' (<[t := th']> (threads s)) (S (now s)));
      Some (s :: trace, s')
  end.

(** ** The set of keys *)

(** The nodes from [p] up to the last sentinel. *)
Fixpoint walk (fuel : nat) h (p : Z) : list Z :=
  if p =? tail then []
  else match fuel with
  | O => []
  | S fuel' => match h !! p with Some nd => p :: walk fuel' h (get_ptr (next nd)) | None => [] end
  end.

Definition live_key h (p : Z) : option Z :=
  nd ← h !! p; if get_mark (next nd) then None else Some (key nd).

(** The keys of the nodes that are linked and not marked, the sentinels apart. *)
Definition members h : gset Z := list_to_set (omap (live_key h) (List.tl (walk (base.size h) h head))).

(** ** The points at which the calls took effect *)

Record point := Point { p_tid : tid_t; p_op : op T; p_result : bool; p_at : nat }.

Definition updater o : bool := match o with Contains _ => false | _ => true end.

(** Those of the finished calls of [add] and [remove], and of a [remove] that marked its node. *)
Definition points (t : tid_t) th : list point :=
  ((fun c => Point t (c_op c) (c_result c) (c_at c)) <$> filter (fun c => updater (c_op c) = true) (finished th)) ++
  match at_pc th with RemSnip x _ _ _ seen => [Point t (Remove x) true seen] | _ => [] end.

Definition all_points (s : sys) : list point := map_to_list (threads s) ≫= fun tth => points tth.1 tth.2.
End List.
End LockFreeList.
