(* ===== verification/LockFreeHeap.v ===== *)
(** * The heap of the lock-free list

    The invariant of the nodes and what each successful compare-and-set does to
    it and to the set of keys: linking a new node adds its key, marking a node
    takes its key out, unlinking a marked node changes no key. *)

From S2P Require Import Prelude OrderedList ListSet LockFree.
Import LockFreeList.

(** ** The marked pointer *)

Lemma clear_mark p : W64.in_range p -> Z.land p (W64.modulus - 1 - one) = p - p mod 2.
Proof. intros Hp. unfold one. replace (W64.modulus - 1 - 1) with (W64.modulus - 2) by lia. by apply W64.land_clear_lsb. Qed.

Lemma even_half p : Z.even p = true -> p = 2 * (p / 2) /\ p mod 2 = 0.
Proof. intros He. rewrite Zmod_even, He. pose proof (Z.div_mod p 2). rewrite Zmod_even, He in *. lia. Qed.

Lemma pack_value p m : aligned p -> pack p m = p + Z.b2z m.
Proof.
  intros [Hp He]. unfold pack. rewrite clear_mark by done. destruct (even_half p He) as [Eh ->].
  rewrite Z.sub_0_r, Eh. destruct m; [apply (W64.lor_double _ true)|apply (W64.lor_double _ false)].
Qed.

Lemma amr_pack_range p m : aligned p -> W64.in_range (pack p m).
Proof.
  intros Hp. rewrite pack_value by done. destruct Hp as [[H0 H1] He]. destruct (even_half p He) as [Eh _].
  unfold W64.in_range, W64.modulus in *. change (2 ^ 64) with (2 * 2 ^ 63) in *. destruct m; simpl; lia.
Qed.

Lemma get_ptr_pack p m : aligned p -> get_ptr (pack p m) = p.
Proof.
  intros Hp. unfold get_ptr. rewrite clear_mark by by apply amr_pack_range. rewrite pack_value by done.
  destruct Hp as [_ He]. destruct (even_half p He) as [Eh Hm].
  rewrite Eh, Z.add_comm, (Z.mul_comm 2), Z_mod_plus_full. destruct m; simpl; [change (1 mod 2) with 1|change (0 mod 2) with 0]; lia.
Qed.

Lemma get_mark_pack p m : aligned p -> get_mark (pack p m) = m.
Proof.
  intros Hp. unfold get_mark. rewrite W64.land_1, pack_value by done. destruct Hp as [_ He].
  destruct (even_half p He) as [Eh _]. rewrite Eh, Z.add_comm, (Z.mul_comm 2), Z_mod_plus_full. by destruct m.
Qed.

Lemma amr_pack_inj p q m n : aligned p -> aligned q -> pack p m = pack q n -> p = q /\ m = n.
Proof.
  intros Hp Hq E. split; [rewrite <- (get_ptr_pack p m), <- (get_ptr_pack q n) by done|
    rewrite <- (get_mark_pack p m), <- (get_mark_pack q n) by done]; by rewrite E.
Qed.

Section Heap.
Context {T : Type} (head tail : Z).
Abbreviation heap := (gmap Z (node T)).
Implicit Types (h : heap) (nd : node T) (L : gset Z) (c : list Z).

Definition nx h p : option Z := (fun nd => get_ptr (next nd)) <$> h !! p.
Definition kf h p : Z := default 0 (key_at h p).

(** [L]: the nodes ever linked; [c]: those linked now, the last sentinel apart. *)
Record heap_ok h L c : Prop := {
  hk_seg : seg (nx h) head c tail;
  hk_head : head ∈ c;
  hk_in p : p ∈ c -> p ∈ L /\ p <> tail;
  hk_tail : tail ∈ L;
  hk_node p : p ∈ L -> aligned p /\ exists nd q m, h !! p = Some nd /\ next nd = pack q m /\ q ∈ L /\
    (p <> tail -> key nd < kf h q) /\ (p <> head -> INT_MIN < key nd) /\ (p <> tail -> key nd < INT_MAX);
  hk_first nd : h !! head = Some nd -> key nd = INT_MIN /\ get_mark (next nd) = false;
  hk_last nd : h !! tail = Some nd -> key nd = INT_MAX /\ next nd = pack tail false;
  hk_live p nd : p ∈ L -> p <> tail -> h !! p = Some nd -> get_mark (next nd) = false -> p ∈ c }.

Section Facts.
Context h L c (Hok : heap_ok h L c).

Lemma node_at p : p ∈ L -> aligned p /\ exists nd, h !! p = Some nd.
Proof. intros Hp. destruct (hk_node _ _ _ Hok p Hp) as (? & nd & q & m & ? & _). eauto. Qed.

Lemma word_at p nd : p ∈ L -> h !! p = Some nd ->
  next nd = pack (get_ptr (next nd)) (get_mark (next nd)) /\ get_ptr (next nd) ∈ L /\
  (p <> tail -> key nd < kf h (get_ptr (next nd))).
Proof.
  intros Hp Hnd. destruct (hk_node _ _ _ Hok p Hp) as (_ & nd' & q & m & Hnd' & E & Hq & Hk & _). simplify_eq.
  destruct (node_at q Hq) as [Ha _]. rewrite E, get_ptr_pack, get_mark_pack by done. done.
Qed.

Lemma lf_kf_key p nd : h !! p = Some nd -> kf h p = key nd.
Proof. intros Hp. unfold kf, key_at. by rewrite Hp. Qed.

Lemma chain_up p q : p ∈ c -> nx h p = Some q -> kf h p < kf h q.
Proof.
  intros Hp Hq. destruct (hk_in _ _ _ Hok p Hp) as [HL Ht]. destruct (node_at p HL) as [_ (nd & Hnd)].
  unfold nx in Hq. rewrite Hnd in Hq. simpl in Hq. simplify_eq. rewrite (lf_kf_key p nd Hnd).
  destruct (word_at p nd HL Hnd) as (_ & _ & Hk). by apply Hk.
Qed.

Lemma lf_chain_NoDup : NoDup (c ++ [tail]).
Proof. apply (seg_NoDup (kf h) (nx h) head); [apply Hok|apply chain_up]. Qed.

Lemma key_gap p q k z : p ∈ c -> nx h p = Some q -> kf h p < k < kf h q -> z ∈ c -> kf h z <> k.
Proof.
  intros Hp Hq Hk Hz E. apply (seg_gap (kf h) (nx h) head c tail p q z); [apply Hok|apply chain_up|done|done| |lia].
  apply elem_of_app. by left.
Qed.

Lemma lf_key_inj p q : p ∈ c -> q ∈ c -> kf h p = kf h q -> p = q.
Proof.
  intros Hp Hq E. pose proof (seg_sorted (kf h) _ _ _ _ (hk_seg _ _ _ Hok) chain_up) as Hs.
  apply StronglySorted_app_1_l in Hs. apply list_elem_of_lookup in Hp as [i Hi], Hq as [j Hj].
  destruct (Nat.lt_trichotomy i j) as [Hlt|[->|Hlt]]; [|congruence|].
  - pose proof (sorted_lookup _ _ _ _ _ _ Hs Hlt Hi Hj). simpl in *. lia.
  - pose proof (sorted_lookup _ _ _ _ _ _ Hs Hlt Hj Hi). simpl in *. lia.
Qed.

(** ** The set of keys *)

Lemma lf_walk_chain fuel p c' : seg (nx h) p c' tail -> tail ∉ c' -> (length c' <= fuel)%nat -> walk tail fuel h p = c'.
Proof.
  revert p c'. induction fuel as [|fuel IH]; intros p c' Hs Ht Hf; simpl; destruct c' as [|x c']; simpl in *; try lia.
  - subst. by rewrite Z.eqb_refl.
  - subst. by rewrite Z.eqb_refl.
  - destruct Hs as (-> & y & Hy & Hs). apply not_elem_of_cons in Ht as [Hne Ht].
    destruct (Z.eqb_spec p tail); [congruence|]. unfold nx in Hy. destruct (h !! p) as [nd|]; [|done].
    simpl in Hy. simplify_eq. f_equal. apply IH; [done|done|lia].
Qed.

Lemma walk_all : walk tail (base.size h) h head = c.
Proof.
  apply lf_walk_chain; [apply Hok|intros Hin; by apply (hk_in _ _ _ Hok) in Hin as []|].
  pose proof lf_chain_NoDup as Hnd. apply NoDup_app in Hnd as [Hnd _].
  rewrite <- (size_list_to_set (C := gset Z) c Hnd), <- size_dom. apply subseteq_size.
  intros p Hp%elem_of_list_to_set. apply elem_of_dom. destruct (hk_in _ _ _ Hok p Hp) as [HL _].
  by apply node_at in HL as [_ ?].
Qed.

Lemma lf_chain_head : exists c', c = head :: c' /\ head ∉ c'.
Proof.
  pose proof (hk_head _ _ _ Hok) as Hh. pose proof (hk_seg _ _ _ Hok) as Hs. pose proof lf_chain_NoDup as Hnd.
  destruct c as [|x c']; [by apply elem_of_nil in Hh|]. simpl in Hs. destruct Hs as [-> _]. exists c'.
  split; [done|]. apply NoDup_app in Hnd as [Hnd _]. by apply NoDup_cons in Hnd as [? _].
Qed.

Lemma lf_members_spec k : k ∈ members head tail h <->
  exists p nd, p ∈ L /\ p <> head /\ p <> tail /\ h !! p = Some nd /\ get_mark (next nd) = false /\ key nd = k.
Proof.
  unfold members. rewrite walk_all, elem_of_list_to_set, list_elem_of_omap. destruct lf_chain_head as (c' & E & Hh).
  rewrite E. simpl. unfold live_key. split.
  - intros (p & Hp & Hk). assert (Hpc : p ∈ c) by (rewrite E; by right).
    destruct (hk_in _ _ _ Hok p Hpc) as [HL Ht]. destruct (h !! p) as [nd|] eqn:Hnd; simpl in Hk; [|done].
    destruct (get_mark (next nd)) eqn:Hm; [done|]. simplify_eq. exists p, nd. split_and!; try done. by intros ->.
  - intros (p & nd & HL & Hne & Ht & Hnd & Hm & <-). exists p.
    pose proof (hk_live _ _ _ Hok p nd HL Ht Hnd Hm) as Hp. rewrite E in Hp. apply elem_of_cons in Hp as [|Hp]; [done|].
    split; [done|]. rewrite Hnd. simpl. by rewrite Hm.
Qed.

(** Between two neighbours, the first not marked, there is no key. *)
Lemma lf_gap_absent p q nd k : p ∈ L -> p <> tail -> h !! p = Some nd -> next nd = pack q false -> q ∈ L ->
  key nd < k < kf h q -> k ∉ members head tail h.
Proof.
  intros Hp Ht Hnd E Hq Hk (z & nz & Hz & _ & Hzt & Hnz & Hm & <-)%lf_members_spec.
  destruct (node_at q Hq) as [Ha _]. assert (Hpc : p ∈ c).
  { apply (hk_live _ _ _ Hok p nd); [done|done|done|]. by rewrite E, get_mark_pack. }
  apply (key_gap p q (key nz) z); [done| | |by apply (hk_live _ _ _ Hok z nz)|by apply lf_kf_key].
  - unfold nx. rewrite Hnd. simpl. by rewrite E, get_ptr_pack.
  - by rewrite (lf_kf_key p nd).
Qed.
End Facts.

(** ** The compare-and-sets that succeed *)

Definition upd h p nd (v : Z) : heap := <[p := Node (item nd) (key nd) v]> h.

Lemma kf_upd h p nd v z : h !! p = Some nd -> kf (upd h p nd v) z = kf h z.
Proof.
  intros Hp. unfold kf, key_at, upd. destruct (decide (p = z)) as [<-|Hne].
  - by rewrite lookup_insert_eq, Hp.
  - by rewrite lookup_insert_ne.
Qed.

Lemma nx_upd h p nd v z : nx (upd h p nd v) z = if decide (z = p) then Some (get_ptr v) else nx h z.
Proof.
  unfold nx, upd. case_decide as E; [subst; by rewrite lookup_insert_eq|by rewrite lookup_insert_ne by done].
Qed.

(** What is left to show when [p] gets the word [pack q m]. *)
Lemma upd_heap h L L' c c' p nd q m : heap_ok h L c -> p ∈ L -> p <> tail -> h !! p = Some nd -> q ∈ L' -> aligned q ->
  key nd < kf h q -> (p = head -> m = false) -> L ⊆ L' ->
  (forall z, z ∈ L' -> z ∉ L -> aligned z /\ exists nz q m, h !! z = Some nz /\ next nz = pack q m /\ q ∈ L /\
     key nz < kf h q /\ INT_MIN < key nz /\ key nz < INT_MAX) ->
  seg (nx (upd h p nd (pack q m))) head c' tail -> (forall z, z ∈ c -> z ∈ c' \/ z <> head /\ exists nz, h !! z = Some nz /\ get_mark (next nz) = true) ->
  (m = true \/ p ∈ c') -> (forall z, z ∈ c' -> z ∈ L' /\ z <> tail) -> (forall z, z ∈ L' -> z ∉ L -> z ∈ c') ->
  heap_ok (upd h p nd (pack q m)) L' c'.
Proof.
  intros Hok Hp Ht Hnd Hq Ha Hk Hhead Hsub Hnew Hseg Hc Hpc Hc' Hnewc. pose proof (hk_first _ _ _ Hok) as Hfirst.
  constructor.
  - exact Hseg.
  - destruct (Hc _ (hk_head _ _ _ Hok)) as [|[? _]]; done.
  - exact Hc'.
  - apply Hsub, (hk_tail _ _ _ Hok).
  - intros z Hz. destruct (decide (z = p)) as [->|Hne].
    + destruct (hk_node _ _ _ Hok p Hp) as (Hap & nd' & q' & m' & Hnd' & _ & _ & _ & H1 & H2). simplify_eq.
      split; [done|]. eexists _, q, m. unfold upd. rewrite lookup_insert_eq. split; [done|].
      fold (upd h p nd (pack q m)). rewrite (kf_upd h p nd (pack q m) q Hnd). simpl. auto.
    + unfold upd. setoid_rewrite lookup_insert_ne; [|done]. fold (upd h p nd (pack q m)).
      setoid_rewrite (kf_upd h p nd (pack q m) _ Hnd). destruct (decide (z ∈ L)) as [HzL|HzL].
      * destruct (hk_node _ _ _ Hok z HzL) as (Haz & nz & q' & m' & H1 & H2 & H3 & H4).
        split; [done|]. exists nz, q', m'. repeat (split; [by auto|]). done.
      * destruct (Hnew z Hz HzL) as (Haz & nz & q' & m' & H1 & H2 & H3 & H4 & H5 & H6).
        split; [done|]. exists nz, q', m'. repeat (split; [by auto|]). auto.
  - intros nh Hh. unfold upd in Hh. destruct (decide (p = head)) as [->|Hne].
    + rewrite lookup_insert_eq in Hh. simplify_eq. simpl. rewrite get_mark_pack, Hhead by done.
      destruct (Hfirst _ Hnd) as [? _]. done.
    + rewrite lookup_insert_ne in Hh by done. by apply Hfirst.
  - intros nt Hh. unfold upd in Hh. rewrite lookup_insert_ne in Hh by done. by apply (hk_last _ _ _ Hok).
  - intros z nz Hz Hzt Hh Hm. unfold upd in Hh. destruct (decide (p = z)) as [<-|Hne].
    + rewrite lookup_insert_eq in Hh. simplify_eq. simpl in Hm. rewrite get_mark_pack in Hm by done.
      destruct Hpc as [->|]; done.
    + rewrite lookup_insert_ne in Hh by done. destruct (decide (z ∈ L)) as [HzL|HzL]; [|by apply Hnewc].
      destruct (Hc _ (hk_live _ _ _ Hok z nz HzL Hzt Hh Hm)) as [|(_ & nz' & Hh' & Hm')]; [done|]. congruence.
Qed.

Lemma mark_ok h L c p nd q : heap_ok h L c -> p ∈ L -> p <> head -> p <> tail -> h !! p = Some nd ->
  next nd = pack q false -> q ∈ L -> let h' := upd h p nd (pack q true) in
  heap_ok h' L c /\ key nd ∈ members head tail h /\ members head tail h' = members head tail h ∖ {[key nd]}.
Proof.
  intros Hok Hp Hh Ht Hnd E Hq h'. destruct (node_at h L c Hok q Hq) as [Ha _].
  assert (Hm : get_mark (next nd) = false) by (by rewrite E, get_mark_pack).
  assert (Hpc : p ∈ c) by by apply (hk_live _ _ _ Hok p nd).
  destruct (word_at h L c Hok p nd Hp Hnd) as (_ & _ & Hk). rewrite E, get_ptr_pack in Hk by done.
  assert (Hok' : heap_ok h' L c).
  { apply (upd_heap h L L c c p nd q true); try done; auto.
    - apply (seg_frame (nx h)); [|apply Hok]. intros z _. rewrite nx_upd. case_decide as Ez; [|done].
      subst. unfold nx. rewrite Hnd. simpl. rewrite E. by rewrite !get_ptr_pack.
    - apply (hk_in _ _ _ Hok). }
  split; [done|]. split; [apply (lf_members_spec h L c Hok); by exists p, nd|].
  apply set_eq. intros k. rewrite elem_of_difference, (lf_members_spec h' L c Hok'), (lf_members_spec h L c Hok), elem_of_singleton.
  split.
  - intros (z & nz & Hz & Hzh & Hzt & Hnz & Hmz & <-). unfold h', upd in Hnz. destruct (decide (p = z)) as [<-|Hne].
    + rewrite lookup_insert_eq in Hnz. simplify_eq. simpl in Hmz. by rewrite get_mark_pack in Hmz.
    + rewrite lookup_insert_ne in Hnz by done. split; [by exists z, nz|]. intros Ek. apply Hne.
      apply (lf_key_inj h L c Hok); [done|by apply (hk_live _ _ _ Hok z nz)|].
      by rewrite (lf_kf_key h p nd), (lf_kf_key h z nz).
  - intros [(z & nz & Hz & Hzh & Hzt & Hnz & Hmz & <-) Hk']. exists z, nz.
    unfold h', upd. rewrite lookup_insert_ne by (intros ->; congruence). done.
Qed.

Lemma snip_ok h L c p nd q nq r : heap_ok h L c -> p ∈ L -> p <> tail -> h !! p = Some nd -> next nd = pack q false ->
  q ∈ L -> h !! q = Some nq -> next nq = pack r true -> r ∈ L -> let h' := upd h p nd (pack r false) in
  (exists c', heap_ok h' L c') /\ members head tail h' = members head tail h.
Proof.
  intros Hok Hp Ht Hnd E Hq Hnq Eq Hr h'. destruct (node_at h L c Hok q Hq) as [Ha _].
  destruct (node_at h L c Hok r Hr) as [Har _].
  assert (Hm : get_mark (next nd) = false) by (by rewrite E, get_mark_pack).
  assert (Hmq : get_mark (next nq) = true) by (by rewrite Eq, get_mark_pack).
  assert (Hpc : p ∈ c) by by apply (hk_live _ _ _ Hok p nd).
  destruct (word_at h L c Hok p nd Hp Hnd) as (_ & _ & Hk). rewrite E, get_ptr_pack in Hk by done.
  destruct (word_at h L c Hok q nq Hq Hnq) as (_ & _ & Hkq). rewrite Eq, get_ptr_pack in Hkq by done.
  assert (Hqt : q <> tail). { intros ->. destruct (hk_last _ _ _ Hok nq Hnq) as [_ El]. rewrite El, get_mark_pack in Hmq; done. }
  assert (Hqh : q <> head). { intros ->. destruct (hk_first _ _ _ Hok nq Hnq) as [_ El]. congruence. }
  specialize (Hk Ht). specialize (Hkq Hqt). rewrite (lf_kf_key h q nq Hnq) in Hk.
  assert (Hnp : nx h p = Some q) by (unfold nx; rewrite Hnd; simpl; by rewrite E, get_ptr_pack).
  assert (Hnq' : nx h q = Some r) by (unfold nx; rewrite Hnq; simpl; by rewrite Eq, get_ptr_pack).
  pose proof (lf_chain_NoDup h L c Hok) as Hnodup. apply NoDup_app in Hnodup as [Hnodup _].
  destruct (list_elem_of_split _ _ Hpc) as (c1 & c2 & Ec). pose proof (hk_seg _ _ _ Hok) as Hseg. rewrite Ec in Hseg, Hnodup.
  destruct (seg_next _ _ _ _ _ _ _ Hseg Hnp) as [[_ ?]|[c3 ->]]; [done|].
  assert (Hpn : p ∉ c1 ++ q :: c3) by (rewrite <- Permutation_middle in Hnodup; by apply NoDup_cons in Hnodup as [? _]).
  assert (Hok' : heap_ok h' L (c1 ++ p :: c3)).
  { apply (upd_heap h L L c (c1 ++ p :: c3) p nd r false); try done; auto; [lia| | | |].
    - apply (seg_remove (nx h) _ head c1 c3 tail p q); [done| |].
      + rewrite nx_upd, decide_True, Hnq', get_ptr_pack by done. done.
      + intros z Hz. rewrite nx_upd, decide_False; [done|]. intros ->. apply Hpn.
        apply elem_of_app. apply elem_of_app in Hz as [|]; [by left|right; by right].
    - intros z Hz. rewrite Ec in Hz. destruct (decide (z = q)) as [->|Hne]; [right; split; [done|]; by exists nq|left].
      rewrite elem_of_app, !elem_of_cons in *. naive_solver.
    - right. apply elem_of_app. right. by left.
    - intros z Hz. apply (hk_in _ _ _ Hok). rewrite Ec, elem_of_app, !elem_of_cons in *. naive_solver. }
  split; [by eexists|]. apply set_eq. intros k. rewrite (lf_members_spec h' L _ Hok'), (lf_members_spec h L c Hok).
  split; intros (z & nz & Hz & Hzh & Hzt & Hnz & Hmz & <-); unfold h', upd in *; destruct (decide (p = z)) as [<-|Hne].
  - rewrite lookup_insert_eq in Hnz. simplify_eq. by exists p, nd.
  - rewrite lookup_insert_ne in Hnz by done. by exists z, nz.
  - simplify_eq. exists p. eexists. rewrite lookup_insert_eq. split_and!; try done. simpl. by rewrite get_mark_pack.
  - exists z, nz. by rewrite lookup_insert_ne.
Qed.

Lemma link_ok h L c p nd q n it k : heap_ok h L c -> p ∈ L -> p <> tail -> h !! p = Some nd -> next nd = pack q false ->
  q ∈ L -> n ∉ L -> aligned n -> h !! n = Some (Node it k (pack q false)) -> key nd < k < kf h q ->
  INT_MIN < k < INT_MAX -> let h' := upd h p nd (pack n false) in
  (exists c', heap_ok h' (L ∪ {[n]}) c') /\ k ∉ members head tail h /\ members head tail h' = {[k]} ∪ members head tail h.
Proof.
  intros Hok Hp Ht Hnd E Hq Hn Han Hnn Hk Hrange h'. destruct (node_at h L c Hok q Hq) as [Ha _].
  assert (Hm : get_mark (next nd) = false) by (by rewrite E, get_mark_pack).
  assert (Hpc : p ∈ c) by by apply (hk_live _ _ _ Hok p nd).
  assert (Hnp : nx h p = Some q) by (unfold nx; rewrite Hnd; simpl; by rewrite E, get_ptr_pack).
  assert (Hnn' : nx h n = Some q) by (unfold nx; rewrite Hnn; simpl; by rewrite get_ptr_pack).
  assert (Hne : n <> p) by (intros ->; done).
  assert (Hnt : n <> tail) by (intros ->; apply Hn, (hk_tail _ _ _ Hok)).
  assert (Hnh : n <> head) by (intros ->; apply Hn; apply (hk_in _ _ _ Hok), (hk_head _ _ _ Hok)).
  pose proof (lf_chain_NoDup h L c Hok) as Hnodup. apply NoDup_app in Hnodup as [Hnodup _].
  destruct (list_elem_of_split _ _ Hpc) as (c1 & c2 & Ec). pose proof (hk_seg _ _ _ Hok) as Hseg. rewrite Ec in Hseg, Hnodup.
  assert (Hpn : p ∉ c1 ++ c2) by (rewrite <- Permutation_middle in Hnodup; by apply NoDup_cons in Hnodup as [? _]).
  assert (Hok' : heap_ok h' (L ∪ {[n]}) (c1 ++ p :: n :: c2)).
  { apply (upd_heap h L (L ∪ {[n]}) c (c1 ++ p :: n :: c2) p nd n false); try done; auto.
    - set_solver.
    - rewrite (lf_kf_key h n _ Hnn). simpl. lia.
    - set_solver.
    - intros z Hz HzL. assert (z = n) as -> by set_solver. split; [done|]. eexists _, q, false. rewrite Hnn.
      split; [done|]. simpl. split_and!; done || lia.
    - apply (seg_insert (nx h)); [done| | |].
      + rewrite nx_upd, decide_True, get_ptr_pack by done. done.
      + by rewrite nx_upd, decide_False, Hnn', Hnp by done.
      + intros z Hz. rewrite nx_upd, decide_False; [done|]. by intros ->.
    - intros z Hz. left. rewrite Ec in Hz. rewrite elem_of_app, !elem_of_cons in *. naive_solver.
    - right. apply elem_of_app. right. by left.
    - intros z Hz. rewrite elem_of_app, !elem_of_cons in Hz. destruct (decide (z = n)) as [->|Hzn]; [set_solver|].
      assert (Hzc : z ∈ c) by (rewrite Ec, elem_of_app, elem_of_cons; naive_solver).
      destruct (hk_in _ _ _ Hok z Hzc). set_solver.
    - intros z Hz HzL. assert (z = n) as -> by set_solver. rewrite elem_of_app, !elem_of_cons. auto. }
  split; [by eexists|]. split; [apply (lf_gap_absent h L c Hok p q nd); try done|].
  apply set_eq. intros k'. rewrite elem_of_union, elem_of_singleton, (lf_members_spec h' _ _ Hok'), (lf_members_spec h L c Hok).
  split.
  - intros (z & nz & Hz & Hzh & Hzt & Hnz & Hmz & <-). unfold h', upd in Hnz. destruct (decide (p = z)) as [<-|Hpz].
    + rewrite lookup_insert_eq in Hnz. simplify_eq. right. by exists p, nd.
    + rewrite lookup_insert_ne in Hnz by done. destruct (decide (z = n)) as [->|Hzn].
      * simplify_eq. by left.
      * right. exists z, nz. split; [set_solver|done].
  - intros [->|(z & nz & Hz & Hzh & Hzt & Hnz & Hmz & <-)].
    + exists n. eexists. unfold h', upd. rewrite lookup_insert_ne by done. split; [set_solver|].
      split_and!; try done. simpl. by rewrite get_mark_pack.
    + unfold h', upd. destruct (decide (p = z)) as [<-|Hpz].
      * simplify_eq. exists p. eexists. rewrite lookup_insert_eq. split; [set_solver|]. split_and!; try done.
        simpl. by rewrite get_mark_pack.
      * exists z, nz. rewrite lookup_insert_ne by done. split; [set_solver|done].
Qed.

(** ** A node just allocated *)

Lemma alloc_ok h L c m nd : heap_ok h L c -> h !! m = None -> heap_ok (<[m := nd]> h) L c /\
  members head tail (<[m := nd]> h) = members head tail h.
Proof.
  intros Hok Hm. assert (Hne : forall p, p ∈ L -> m <> p).
  { intros p Hp <-. destruct (node_at h L c Hok m Hp) as [_ (nd' & ?)]. congruence. }
  assert (Hl : forall p, p ∈ L -> (<[m := nd]> h) !! p = h !! p) by (intros p Hp; apply lookup_insert_ne; auto).
  assert (Hkf : forall p, p ∈ L -> kf (<[m := nd]> h) p = kf h p) by (intros p Hp; unfold kf, key_at; by rewrite Hl).
  assert (Hok' : heap_ok (<[m := nd]> h) L c).
  { destruct (hk_in _ _ _ Hok head (hk_head _ _ _ Hok)) as [Hh _].
    constructor; [|apply (hk_head _ _ _ Hok)|apply (hk_in _ _ _ Hok)|apply (hk_tail _ _ _ Hok)|..].
    - apply (seg_frame (nx h)); [|apply Hok]. intros p [Hp _]%(hk_in _ _ _ Hok). unfold nx. by rewrite Hl.
    - intros p Hp. destruct (hk_node _ _ _ Hok p Hp) as (Ha & nd' & q & b & H1 & H2 & H3 & H4). split; [done|].
      exists nd', q, b. rewrite Hl, Hkf by done. done.
    - intros nh. rewrite Hl by done. apply (hk_first _ _ _ Hok).
    - intros nt. rewrite Hl by apply (hk_tail _ _ _ Hok). apply (hk_last _ _ _ Hok).
    - intros p nd' Hp Ht. rewrite Hl by done. by apply (hk_live _ _ _ Hok). }
  split; [done|]. apply set_eq. intros k. rewrite (lf_members_spec _ L c Hok'), (lf_members_spec h L c Hok).
  split; intros (p & nd' & Hp & Hr); exists p, nd'; rewrite Hl in * by done; done.
Qed.
End Heap.
