(* ===== verification/LockFreeProof.v ===== *)
(** * The lock-free list is linearizable, [contains] apart

    The invariant of the threads, what a step does to the set of keys and to the
    points of the calls, and the sequence of the calls in the order of their
    points.  A [remove] that answers false takes effect in the past, when it saw
    the link between the neighbours of its key. *)

From S2P Require Import Prelude OrderedList ListSet LockFree LockFreeHeap.
Import LockFreeList.

Section Proof.
Context {T : Type} (hash : T -> Z) (head tail : Z).
Abbreviation heap := (gmap Z (node T)).
Abbreviation members := (members head tail).
Abbreviation heap_ok := (heap_ok head tail).
Abbreviation key_of := (key_of hash).
Implicit Types (h : heap) (th : thread T) (o : op T) (L : gset Z) (H : list (gset Z)) (n : nat) (t : tid_t).

(** ** What a thread knows *)

Definition in_range o : Prop := INT_MIN < key_of o < INT_MAX.

(** [H]: the set of keys at each instant so far. *)
Definition seen_ok H (seen : nat) h o (curr : Z) : Prop :=
  key_of o < kf h curr -> exists ks, H !! seen = Some ks /\ key_of o ∉ ks.

Definition window h L o (pred curr : Z) : Prop := pred ∈ L /\ pred <> tail /\ curr ∈ L /\ kf h pred < key_of o.

Definition frozen h L (curr succ : Z) : Prop :=
  curr ∈ L /\ succ ∈ L /\ exists nd, h !! curr = Some nd /\ next nd = pack succ true.

Definition pc_ok H n h L (since : nat) (k : pc T) : Prop :=
  match k with
  | Idle => True
  | Start o => updater o = true /\ in_range o
  | At o p q seen => (updater o = true /\ in_range o) /\ window h L o p q /\ (since <= seen <= n)%nat /\ seen_ok H seen h o q
  | Snip o p q r seen => (updater o = true /\ in_range o) /\ window h L o p q /\ (since <= seen <= n)%nat /\ frozen h L q r
  | AddNew x p q => in_range (Add x) /\ window h L (Add x) p q /\ key_of (Add x) < kf h q
  | AddCas x p q m => in_range (Add x) /\ window h L (Add x) p q /\ key_of (Add x) < kf h q /\
      m ∉ L /\ aligned m /\ h !! m = Some (Node (Some x) (key_of (Add x)) (pack q false))
  | RemGet x p q => in_range (Remove x) /\ window h L (Remove x) p q /\ kf h q = key_of (Remove x)
  | RemMark x p q r => in_range (Remove x) /\ window h L (Remove x) p q /\ kf h q = key_of (Remove x) /\ r ∈ L
  | RemSnip x p q r seen => in_range (Remove x) /\ window h L (Remove x) p q /\ (since <= seen <= n)%nat /\ frozen h L q r
  | ContGet x q => in_range (Contains x) /\ q ∈ L
  end.

Record thread_ok H n h L th : Prop := {
  t_pc : pc_ok H n h L (since th) (at_pc th);
  t_since : (since th <= n)%nat;
  t_todo : Forall in_range (todo th);
  t_calls : Forall (fun c => c_from c <= c_at c <= c_to c)%nat (finished th) }.

(** The node a thread has made and not linked. *)
Definition private th : option Z := match at_pc th with AddCas _ _ _ m => Some m | _ => None end.

(** What a step of a thread with the private node [own] leaves of what others know. *)
Record evolves h L h' L' (own : option Z) : Prop := {
  e_sub : L ⊆ L';
  e_keys p k : key_at h p = Some k -> key_at h' p = Some k;
  e_marked p nd : p ∈ L -> h !! p = Some nd -> get_mark (next nd) = true -> h' !! p = Some nd;
  e_private m nd : m ∉ L -> own <> Some m -> h !! m = Some nd -> m ∉ L' /\ h' !! m = Some nd }.

Lemma evolves_refl h L own : evolves h L h L own.
Proof. constructor; auto. Qed.

Lemma evolves_alloc h L own m nd : h !! m = None -> evolves h L (<[m := nd]> h) L own.
Proof.
  intros Hm. assert (Hne : forall p nd', h !! p = Some nd' -> m <> p) by (intros p nd' Hp <-; congruence).
  constructor; [done| | |].
  - unfold key_at. intros p k Hk. destruct (h !! p) eqn:Hp; [|done]. rewrite lookup_insert_ne by eauto. by rewrite Hp.
  - intros p nd' _ Hp _. by rewrite lookup_insert_ne by eauto.
  - intros p nd' Hp _ Hnd. split; [done|]. by rewrite lookup_insert_ne by eauto.
Qed.

Lemma evolves_upd h L L' own p nd v : p ∈ L -> h !! p = Some nd -> get_mark (next nd) = false -> L ⊆ L' ->
  (forall m, m ∈ L' -> m ∈ L \/ own = Some m) -> evolves h L (upd h p nd v) L' own.
Proof.
  intros Hp Hnd Hm Hsub Hown. unfold upd. constructor; [done| | |].
  - unfold key_at. intros z k Hk. destruct (decide (p = z)) as [<-|Hne].
    + rewrite lookup_insert_eq. by rewrite Hnd in Hk.
    + by rewrite lookup_insert_ne.
  - intros z nz _ Hz Hmz. rewrite lookup_insert_ne; [done|]. intros <-. congruence.
  - intros m nm HmL Hne Hnm. split; [intros Hin; by destruct (Hown m Hin)|].
    rewrite lookup_insert_ne; [done|]. by intros <-.
Qed.

Lemma evolves_kf h L c h' L' own p : heap_ok h L c -> evolves h L h' L' own -> p ∈ L -> kf h' p = kf h p.
Proof.
  intros Hok He Hp. destruct (node_at head tail h L c Hok p Hp) as [_ (nd & Hnd)].
  unfold kf. assert (E : key_at h p = Some (key nd)) by (unfold key_at; by rewrite Hnd).
  by rewrite E, (e_keys _ _ _ _ _ He _ _ E).
Qed.

(** What another thread knows stays true. *)
Lemma thread_stable H n h L c h' L' own th ks : heap_ok h L c -> evolves h L h' L' own ->
  (forall m, private th = Some m -> own <> Some m) -> thread_ok H n h L th -> thread_ok (H ++ [ks]) (S n) h' L' th.
Proof.
  intros Hok He Hpriv [Hpc Hs Htd Hcs]. constructor; [|lia|done|done].
  pose proof (e_sub _ _ _ _ _ He) as Hsub.
  assert (Hkf : forall p, p ∈ L -> kf h' p = kf h p) by (intros p; by apply (evolves_kf h L c h' L' own)).
  assert (Hwin : forall o p q, window h L o p q -> window h' L' o p q).
  { intros o p q (Hp & Ht & Hq & Hk). unfold window. rewrite Hkf by done. split_and!; auto. }
  assert (Hfro : forall q r, frozen h L q r -> r ∈ L -> frozen h' L' q r).
  { intros q r (Hq & _ & nd & Hnd & E) Hr. split_and!; [auto|auto|]. exists nd. split; [|done].
    apply (e_marked _ _ _ _ _ He); [done|done|]. rewrite E. apply get_mark_pack.
    by destruct (node_at head tail h L c Hok r Hr). }
  unfold private in Hpriv. destruct (at_pc th) as [|o|o p q seen|o p q r seen|x p q|x p q m|x p q|x p q r|x p q r seen|x q];
    simpl in *; auto.
  - destruct Hpc as (? & Hw & Hse & Hseen). pose proof Hw as (_ & _ & Hq & _). split; [done|]. split; [auto|]. split; [lia|].
    unfold seen_ok. rewrite Hkf by done. intros Hk. destruct (Hseen Hk) as (ks' & Hks & Hin).
    exists ks'. split; [by apply lookup_app_l_Some|done].
  - destruct Hpc as (? & Hw & Hse & Hf). split; [done|]. split; [auto|]. split; [lia|]. apply Hfro; [done|apply Hf].
  - destruct Hpc as (? & Hw & Hk). pose proof Hw as (_ & _ & Hq & _). rewrite Hkf by done. auto.
  - destruct Hpc as (? & Hw & Hk & Hm & Ha & Hnm). pose proof Hw as (_ & _ & Hq & _). rewrite Hkf by done.
    destruct (e_private _ _ _ _ _ He m _ Hm (Hpriv m eq_refl) Hnm). split_and!; auto.
  - destruct Hpc as (? & Hw & Hk). pose proof Hw as (_ & _ & Hq & _). rewrite Hkf by done. auto.
  - destruct Hpc as (? & Hw & Hk & Hr). pose proof Hw as (_ & _ & Hq & _). rewrite Hkf by done. split_and!; auto.
  - destruct Hpc as (? & Hw & Hse & Hf). split; [done|]. split; [auto|]. split; [lia|]. apply Hfro; [done|apply Hf].
  - destruct Hpc as [? Hq]. auto.
Qed.

(** ** What a step does *)

(** A point: the answer is that of the operation on the set at that instant, and
    an operation that answers true makes the set of the next instant. *)
Definition point_ok H (p : point) : Prop :=
  exists ks, H !! p_at p = Some ks /\ (set_op hash (p_op p) ks).2 = p_result p /\
    (p_result p = true -> H !! S (p_at p) = Some (set_op hash (p_op p) ks).1).

Record effect H n h t th h' th' (ps : list point) : Prop := {
  f_points : points t th' ≡ₚ points t th ++ ps;
  f_ok : Forall (point_ok (H ++ [members h'])) ps;
  f_set : (members h' = members h /\ Forall (fun p => p_result p = false) ps) \/
          exists p, ps = [p] /\ p_result p = true /\ p_at p = n }.

Definition good H n h L t th h' th' : Prop := exists L' c' ps,
  heap_ok h' L' c' /\ evolves h L h' L' (private th) /\ thread_ok (H ++ [members h']) (S n) h' L' th' /\
  (forall m, private th' = Some m -> private th = Some m \/ h !! m = None) /\ effect H n h t th h' th' ps.

Lemma pc_ok_mono H n h L c since k ks : heap_ok h L c -> pc_ok H n h L since k -> pc_ok (H ++ [ks]) (S n) h L since k.
Proof.
  intros Hok Hk.
  destruct (decide (since <= n)%nat) as [Hs|Hs].
  - apply (thread_stable H n h L c h L None (Thread k [] since []) ks Hok (evolves_refl h L None)); [done|].
    constructor; [exact Hk|exact Hs|constructor|constructor].
  - destruct k; simpl in *; try done; naive_solver lia.
Qed.

Lemma goto_ok H n h L th k ks c : heap_ok h L c -> thread_ok H n h L th -> pc_ok H n h L (since th) k ->
  thread_ok (H ++ [ks]) (S n) h L (goto k th).
Proof. intros Hok [_ Hs Ht Hc] Hk. constructor; simpl; [by apply (pc_ok_mono _ _ _ _ c)|lia|done|done]. Qed.

Lemma return_ok H n h h' L L' th o r pt ks : thread_ok H n h L th -> (since th <= pt <= n)%nat ->
  thread_ok (H ++ [ks]) (S n) h' L' (return_ n o r pt th).
Proof.
  intros [_ Hs Ht Hc] Hp. constructor; simpl; [done|lia|done|]. apply Forall_app. split; [done|]. by constructor.
Qed.

(** No node changes, and no point is made. *)
Lemma lf_quiet H n h L c t th k : heap_ok h L c -> thread_ok H n h L th -> pc_ok H n h L (since th) k ->
  match at_pc th with RemSnip _ _ _ _ _ => False | _ => True end ->
  match k with RemSnip _ _ _ _ _ | AddCas _ _ _ _ => False | _ => True end -> good H n h L t th h (goto k th).
Proof.
  intros Hok Hth Hk Hnow Hnext. exists L, c, []. split; [done|]. split; [apply evolves_refl|]. split; [by apply (goto_ok _ _ _ _ _ _ _ c)|].
  split; [by destruct k|]. constructor; [|constructor|by left]. unfold points. simpl. rewrite app_nil_r.
  by destruct (at_pc th), k.
Qed.

Lemma points_return n t th o r pt : updater o = true -> match at_pc th with RemSnip _ _ _ _ _ => False | _ => True end ->
  points t (return_ n o r pt th) = points t th ++ [Point t o r pt].
Proof.
  intros Ho Hpc. unfold points. simpl. rewrite filter_app, fmap_app, app_nil_r. simpl.
  rewrite filter_cons_True by done. simpl. destruct (at_pc th); rewrite ?app_nil_r; done.
Qed.

(** A call answers false: its point is a past instant. *)
Lemma refused H n h L c t th o pt : heap_ok h L c -> thread_ok H n h L th -> updater o = true ->
  match at_pc th with RemSnip _ _ _ _ _ => False | _ => True end -> (since th <= pt <= n)%nat ->
  (exists ks, H !! pt = Some ks /\ (set_op hash o ks).2 = false) -> good H n h L t th h (return_ n o false pt th).
Proof.
  intros Hok Hth Ho Hnow Hpt (ks & Hks & Hr). exists L, c, [Point t o false pt]. split; [done|]. split; [apply evolves_refl|].
  split; [by apply (return_ok _ _ h _ L)|]. split; [done|]. constructor.
  - by rewrite points_return.
  - constructor; [|constructor]. exists ks. simpl. split; [by apply lookup_app_l_Some|done].
  - left. split; [done|]. by constructor.
Qed.

Lemma cas_cases h p a b ea eb h' ok : compare_and_set h p a b ea eb = Some (h', ok) ->
  exists nd, h !! p = Some nd /\
    (ok = true /\ next nd = pack a ea /\ h' = upd h p nd (pack b eb) \/ ok = false /\ h' = h).
Proof.
  unfold compare_and_set. destruct (h !! p) as [nd|]; simpl; [|done].
  destruct (Z.eqb_spec (next nd) (pack a ea)); intros [= <- <-]; exists nd; auto.
Qed.

Lemma amr_cases h p q m : amr_get h p = Some (q, m) -> exists nd, h !! p = Some nd /\ q = get_ptr (next nd) /\ m = get_mark (next nd).
Proof. unfold amr_get. destruct (h !! p) as [nd|]; simpl; [|done]. intros [= <- <-]. by exists nd. Qed.

(** The link read from [p] that is not marked: no key between. *)
Lemma link_seen H n h L c o p nd : heap_ok h L c -> H !! n = Some (members h) -> p ∈ L -> p <> tail -> h !! p = Some nd ->
  get_mark (next nd) = false -> key nd < key_of o -> seen_ok H n h o (get_ptr (next nd)).
Proof.
  intros Hok Hn Hp Ht Hnd Hm Hk Hk2. exists (members h). split; [done|].
  destruct (word_at head tail h L c Hok p nd Hp Hnd) as (E & Hq & _). rewrite Hm in E.
  by apply (lf_gap_absent head tail h L c Hok p (get_ptr (next nd)) nd).
Qed.

(** ** The steps *)

Section Steps.
Context H n h L c t th (Hok : heap_ok h L c) (Hn : H !! n = Some (members h)) (Hlen : length H = S n).
Context (Hth : thread_ok H n h L th).

Lemma head_facts : head ∈ L /\ head <> tail /\ exists nd, h !! head = Some nd /\ key nd = INT_MIN /\ get_mark (next nd) = false.
Proof.
  destruct (hk_in _ _ _ _ _ Hok head (hk_head _ _ _ _ _ Hok)) as [Hh Ht].
  destruct (node_at head tail h L c Hok head Hh) as [_ (nd & Hnd)].
  split; [done|]. split; [done|]. exists nd. split; [done|]. by apply (hk_first _ _ _ _ _ Hok).
Qed.

Lemma key_kf p k : key_at h p = Some k -> kf h p = k.
Proof. unfold kf. by intros ->. Qed.

(** A node with the key of a call is not a sentinel. *)
Lemma inner p nd o : p ∈ L -> h !! p = Some nd -> INT_MIN < key_of o < INT_MAX -> key nd = key_of o -> p <> head /\ p <> tail.
Proof.
  intros Hp Hnd Ho E. split; intros ->.
  - destruct (hk_first _ _ _ _ _ Hok nd Hnd). lia.
  - destruct (hk_last _ _ _ _ _ Hok nd Hnd). lia.
Qed.

Lemma idle_good o rest : at_pc th = Idle -> todo th = o :: rest ->
  good H n h L t th h (Thread (match o with Contains x => ContGet x head | _ => Start o end) rest n (finished th)).
Proof.
  intros Ea Et. pose proof (t_todo _ _ _ _ _ Hth) as Htd. rewrite Et in Htd. apply Forall_cons in Htd as [Ho Hrest].
  destruct head_facts as (Hh & _). exists L, c, []. split; [done|]. split; [apply evolves_refl|]. split; [|split].
  - constructor; simpl; [|lia|done|apply Hth]. by destruct o.
  - by destruct o.
  - constructor; [|constructor|by left]. unfold points. rewrite Ea. simpl. rewrite !app_nil_r. by destruct o; rewrite ?app_nil_r.
Qed.

Lemma start_good o q m : at_pc th = Start o -> amr_get h head = Some (q, m) -> good H n h L t th h (goto (At o head q n) th).
Proof.
  intros Ea (nd & Hnd & -> & ->)%amr_cases. pose proof (t_pc _ _ _ _ _ Hth) as Hpc. rewrite Ea in Hpc. simpl in Hpc.
  destruct head_facts as (Hh & Ht & nd' & Hnd' & Hk & Hm). simplify_eq. destruct Hpc as [Hu Ho]. unfold in_range in Ho.
  apply (lf_quiet H n h L c); [done|done| |by rewrite Ea|done]. simpl. split; [done|]. split; [|split].
  - destruct (word_at head tail h L c Hok head nd Hh Hnd) as (_ & Hq & _). unfold window.
    rewrite (lf_kf_key h head nd Hnd). split_and!; try done. lia.
  - pose proof (t_since _ _ _ _ _ Hth). lia.
  - apply (link_seen H n h L c o head nd); try done. lia.
Qed.

(** [locate] ends at [q]. *)
Lemma located_good o p q k seen nd : at_pc th = At o p q seen -> h !! q = Some nd -> get_mark (next nd) = false ->
  key_at h q = Some k -> key_of o <= k -> good H n h L t th h (located hash n o p q k seen th).
Proof.
  intros Ea Hnd Hm Hk Hle. pose proof (t_pc _ _ _ _ _ Hth) as Hpc. rewrite Ea in Hpc. simpl in Hpc.
  destruct Hpc as ([Hu Ho] & Hw & Hse & Hseen). pose proof (key_kf q k Hk) as Ekf. unfold seen_ok in Hseen. rewrite Ekf in Hseen.
  assert (Eknd : key nd = k) by (unfold key_at in Hk; rewrite Hnd in Hk; by injection Hk).
  pose proof Hw as (_ & _ & Hq & _). pose proof (t_since _ _ _ _ _ Hth) as Hsi.
  destruct o as [x|x|x]; [| |done]; unfold located.
  - destruct (Z.eqb_spec k (key_of (Add x))) as [E|E].
    + apply (refused H n h L c); [done|done|done|by rewrite Ea|lia|]. exists (members h). split; [done|]. simpl.
      apply bool_decide_false. intros Hin. apply Hin. apply (lf_members_spec head tail h L c Hok).
      destruct (inner q nd (Add x)) as [? ?]; [done|done|exact Ho|congruence|]. exists q, nd. split_and!; try done. simpl in E. congruence.
    + apply (lf_quiet H n h L c); [done|done| |by rewrite Ea|done]. simpl. split; [done|]. split; [done|]. simpl in *. lia.
  - destruct (Z.eqb_spec k (key_of (Remove x))) as [E|E]; cbn [negb].
    + apply (lf_quiet H n h L c); [done|done| |by rewrite Ea|done]. simpl. split; [done|]. split; [done|]. simpl in *. lia.
    + apply (refused H n h L c); [done|done|done|by rewrite Ea|lia|]. destruct Hseen as (ks & Hks & Hin); [lia|].
      exists ks. split; [done|]. simpl. by apply bool_decide_false.
Qed.

Lemma at_good o p q r m k seen : at_pc th = At o p q seen -> amr_get h q = Some (r, m) -> key_at h q = Some k ->
  good H n h L t th h (if m then goto (Snip o p q r seen) th
    else if key_of o <=? k then located hash n o p q k seen th else goto (At o q r n) th).
Proof.
  intros Ea (nd & Hnd & -> & ->)%amr_cases Hk. pose proof (t_pc _ _ _ _ _ Hth) as Hpc. rewrite Ea in Hpc. simpl in Hpc.
  destruct Hpc as ([Hu Ho] & Hw & Hse & Hseen). pose proof Hw as (_ & _ & Hq & _).
  destruct (word_at head tail h L c Hok q nd Hq Hnd) as (E & Hr & _).
  assert (Eknd : key nd = k) by (unfold key_at in Hk; rewrite Hnd in Hk; by injection Hk).
  destruct (get_mark (next nd)) eqn:Hm.
  - apply (lf_quiet H n h L c); [done|done| |by rewrite Ea|done]. simpl. split; [done|]. split; [done|]. split; [done|].
    split; [done|]. split; [done|]. by exists nd.
  - destruct (Z.leb_spec (key_of o) k); [by apply (located_good o p q k seen nd)|].
    assert (Hqt : q <> tail).
    { intros ->. destruct (hk_last _ _ _ _ _ Hok nd Hnd). unfold in_range in Ho. lia. }
    apply (lf_quiet H n h L c); [done|done| |by rewrite Ea|done]. simpl. split; [done|]. split; [|split].
    + unfold window. rewrite (lf_kf_key h q nd Hnd). split_and!; try done. lia.
    + pose proof (t_since _ _ _ _ _ Hth). lia.
    + apply (link_seen H n h L c o q nd); try done. lia.
Qed.

(** The compare-and-set of [locate] failed: it starts again. *)
Lemma retry_good o : updater o = true -> in_range o -> match at_pc th with RemSnip _ _ _ _ _ => False | _ => True end ->
  good H n h L t th h (goto (Start o) th).
Proof. intros Hu Ho Hpc. by apply (lf_quiet H n h L c). Qed.

Lemma unmarked p nd q : p ∈ L -> q ∈ L -> h !! p = Some nd -> next nd = pack q false -> get_mark (next nd) = false.
Proof.
  intros Hp Hq Hnd E. rewrite E. apply get_mark_pack. by destruct (node_at head tail h L c Hok q Hq).
Qed.

Lemma snip_good o p q r seen h' ok : at_pc th = Snip o p q r seen -> compare_and_set h p q r false false = Some (h', ok) ->
  good H n h L t th h' (if ok then goto (At o p r (S n)) th else goto (Start o) th).
Proof.
  intros Ea (nd & Hnd & [(-> & E & ->)|[-> ->]])%cas_cases; pose proof (t_pc _ _ _ _ _ Hth) as Hpc; rewrite Ea in Hpc;
    simpl in Hpc; destruct Hpc as ([Hu Ho] & Hw & Hse & Hf); [|apply retry_good; [done|done|by rewrite Ea]].
  pose proof Hw as (Hp & Hpt & Hq & Hk). destruct Hf as (_ & Hr & nq & Hnq & Eq).
  destruct (snip_ok head tail h L c p nd q nq r Hok Hp Hpt Hnd E Hq Hnq Eq Hr) as [(c' & Hok') Hmem].
  pose proof (unmarked p nd q Hp Hq Hnd E) as Hm. destruct (node_at head tail h L c Hok r Hr) as [Har _].
  assert (He : evolves h L (upd h p nd (pack r false)) L (private th)) by (apply evolves_upd; auto).
  exists L, c', []. split; [done|]. split; [done|]. split; [|split; [done|]].
  - constructor; simpl; [|pose proof (t_since _ _ _ _ _ Hth); lia|apply Hth|apply Hth].
    split; [done|]. split; [|split; [pose proof (t_since _ _ _ _ _ Hth); lia|]].
    + unfold window. rewrite (kf_upd h p nd _ p Hnd). done.
    + assert (Hnp : upd h p nd (pack r false) !! p = Some (Node (item nd) (key nd) (pack r false))) by apply lookup_insert_eq.
      pose proof (link_seen (H ++ [members (upd h p nd (pack r false))]) (S n) _ L c' o p (Node (item nd) (key nd) (pack r false)) Hok') as Hl. simpl in Hl.
      rewrite get_ptr_pack in Hl by done. apply Hl; try done.
      * rewrite lookup_app_r by lia. by rewrite Hlen, Nat.sub_diag.
      * by rewrite get_mark_pack.
      * by rewrite <- (lf_kf_key h p nd Hnd).
  - constructor; [|constructor|by left]. unfold points. rewrite Ea. simpl. by rewrite !app_nil_r.
Qed.

Lemma new_good x p q m : at_pc th = AddNew x p q -> h !! m = None -> aligned m ->
  good H n h L t th (<[m := Node (Some x) (key_of (Add x)) (pack q false)]> h) (goto (AddCas x p q m) th).
Proof.
  intros Ea Hm Ha. pose proof (t_pc _ _ _ _ _ Hth) as Hpc. rewrite Ea in Hpc. simpl in Hpc. destruct Hpc as (Ho & Hw & Hk).
  destruct (alloc_ok head tail h L c m (Node (Some x) (key_of (Add x)) (pack q false)) Hok Hm) as [Hok' Hmem].
  set (h' := <[m := _]> h) in *. pose proof (evolves_alloc h L (private th) m (Node (Some x) (key_of (Add x)) (pack q false)) Hm) as He.
  pose proof Hw as (Hp & Hpt & Hq & Hkp). assert (Hml : m ∉ L).
  { intros Hin. destruct (node_at head tail h L c Hok m Hin) as [_ (nd & ?)]. congruence. }
  exists L, c, []. split; [done|]. split; [done|]. split; [|split].
  - constructor; simpl; [|pose proof (t_since _ _ _ _ _ Hth); lia|apply Hth|apply Hth].
    unfold window. rewrite !(evolves_kf h L c h' L (private th)) by done. split; [done|]. split; [done|]. split; [done|].
    split; [done|]. split; [done|]. apply lookup_insert_eq.
  - intros m' [= <-]. by right.
  - constructor; [|constructor|by left]. unfold points. rewrite Ea. simpl. by rewrite !app_nil_r.
Qed.

Lemma add_good x p q m h' ok : at_pc th = AddCas x p q m -> compare_and_set h p q m false false = Some (h', ok) ->
  good H n h L t th h' (if ok then return_ n (Add x) true n th else goto (Start (Add x)) th).
Proof.
  intros Ea (nd & Hnd & [(-> & E & ->)|[-> ->]])%cas_cases; pose proof (t_pc _ _ _ _ _ Hth) as Hpc; rewrite Ea in Hpc;
    simpl in Hpc; destruct Hpc as (Ho & Hw & Hk & Hm & Ha & Hnm); [|apply retry_good; [done|done|by rewrite Ea]].
  pose proof Hw as (Hp & Hpt & Hq & Hkp). rewrite (lf_kf_key h p nd Hnd) in Hkp.
  destruct (link_ok head tail h L c p nd q m (Some x) (key_of (Add x))) as [(c' & Hok') [Hno Hmem]]; try done.
  pose proof (unmarked p nd q Hp Hq Hnd E) as Hmk. assert (Epriv : private th = Some m) by (unfold private; by rewrite Ea).
  exists (L ∪ {[m]}), c', [Point t (Add x) true n]. split; [done|]. split; [apply evolves_upd; [done|done|done|set_solver|]|].
  { intros m' [|Hm']%elem_of_union; [by left|right]. apply elem_of_singleton in Hm'. by subst. }
  pose proof (t_since _ _ _ _ _ Hth). split; [by apply (return_ok _ _ h _ L); [|lia]|]. split; [done|]. constructor.
  - by rewrite points_return by (done || by rewrite Ea).
  - constructor; [|constructor]. exists (members h). simpl. split; [by apply lookup_app_l_Some|].
    split; [by apply bool_decide_true|]. intros _. rewrite lookup_app_r by lia. rewrite Hlen, Nat.sub_diag. simpl.
    by rewrite Hmem.
  - right. by eexists.
Qed.

Lemma get_good x p q r m : at_pc th = RemGet x p q -> amr_get h q = Some (r, m) ->
  good H n h L t th h (if m then goto (Start (Remove x)) th else goto (RemMark x p q r) th).
Proof.
  intros Ea (nd & Hnd & -> & ->)%amr_cases. pose proof (t_pc _ _ _ _ _ Hth) as Hpc. rewrite Ea in Hpc. simpl in Hpc.
  destruct Hpc as (Ho & Hw & Hk). pose proof Hw as (_ & _ & Hq & _).
  destruct (get_mark (next nd)); [by apply retry_good; [|done|by rewrite Ea]|].
  apply (lf_quiet H n h L c); [done|done| |by rewrite Ea|done]. simpl. split_and!; try done. by apply (word_at head tail h L c Hok q nd).
Qed.

Lemma mark_good x p q r h' ok : at_pc th = RemMark x p q r -> compare_and_set h q r r false true = Some (h', ok) ->
  good H n h L t th h' (if ok then goto (RemSnip x p q r n) th else goto (Start (Remove x)) th).
Proof.
  intros Ea (nd & Hnd & [(-> & E & ->)|[-> ->]])%cas_cases; pose proof (t_pc _ _ _ _ _ Hth) as Hpc; rewrite Ea in Hpc;
    simpl in Hpc; destruct Hpc as (Ho & Hw & Hk & Hr); [|apply retry_good; [done|done|by rewrite Ea]].
  pose proof Hw as (Hp & Hpt & Hq & Hkp). rewrite (lf_kf_key h q nd Hnd) in Hk.
  destruct (inner q nd (Remove x) Hq Hnd Ho Hk) as [Hqh Hqt].
  destruct (mark_ok head tail h L c q nd r Hok Hq Hqh Hqt Hnd E Hr) as (Hok' & Hin & Hmem).
  pose proof (unmarked q nd r Hq Hr Hnd E) as Hmk. pose proof (t_since _ _ _ _ _ Hth) as Hs.
  exists L, c, [Point t (Remove x) true n]. split; [done|]. split; [apply evolves_upd; auto|]. split; [|split; [done|]].
  - constructor; simpl; [|lia|apply Hth|apply Hth]. split; [done|]. split; [|split; [lia|]].
    + unfold window. by rewrite (kf_upd h q nd _ p Hnd).
    + split; [done|]. split; [done|]. eexists. split; [apply lookup_insert_eq|done].
  - constructor.
    + unfold points. rewrite Ea. simpl. by rewrite app_nil_r.
    + constructor; [|constructor]. exists (members h). simpl. split; [by apply lookup_app_l_Some|]. simpl in Hk. rewrite <- Hk.
      split; [by apply bool_decide_true|]. intros _. rewrite lookup_app_r by lia. rewrite Hlen, Nat.sub_diag. simpl. by rewrite Hmem.
    + right. by eexists.
Qed.

Lemma remove_good x p q r seen h' ok : at_pc th = RemSnip x p q r seen -> compare_and_set h p q r false false = Some (h', ok) ->
  good H n h L t th h' (return_ n (Remove x) true seen th).
Proof.
  intros Ea Hcas. pose proof (t_pc _ _ _ _ _ Hth) as Hpc. rewrite Ea in Hpc. simpl in Hpc.
  destruct Hpc as (Ho & (Hp & Hpt & Hq & Hkp) & Hse & (_ & Hr & nq & Hnq & Eq)).
  assert (Hpoints : points t (return_ n (Remove x) true seen th) = points t th).
  { unfold points. rewrite Ea. simpl. rewrite filter_app, fmap_app, app_nil_r. by rewrite filter_cons_True. }
  assert (Hok' : exists c', heap_ok h' L c' /\ members h' = members h /\ evolves h L h' L (private th)).
  { apply cas_cases in Hcas as (nd & Hnd & [(-> & E & ->)|[-> ->]]).
    - destruct (snip_ok head tail h L c p nd q nq r Hok Hp Hpt Hnd E Hq Hnq Eq Hr) as [(c' & Hok') Hmem].
      exists c'. split; [done|]. split; [done|]. apply evolves_upd; auto. by apply (unmarked p nd q).
    - exists c. split; [done|]. split; [done|]. apply evolves_refl. }
  destruct Hok' as (c' & Hok' & Hmem & He). exists L, c', []. split; [done|]. split; [done|].
  split; [by apply (return_ok _ _ h _ L); [|lia]|]. split; [done|]. constructor; [|constructor|by left]. by rewrite Hpoints, app_nil_r.
Qed.

Lemma contains_good x q r m k : at_pc th = ContGet x q -> amr_get h q = Some (r, m) -> key_at h r = Some k ->
  good H n h L t th h (if negb m && (key_of (Contains x) <=? k) then return_ n (Contains x) (k =? key_of (Contains x)) n th
    else goto (ContGet x r) th).
Proof.
  intros Ea (nd & Hnd & -> & ->)%amr_cases Hk. pose proof (t_pc _ _ _ _ _ Hth) as Hpc. rewrite Ea in Hpc. simpl in Hpc.
  destruct Hpc as [Ho Hq]. destruct (word_at head tail h L c Hok q nd Hq Hnd) as (_ & Hr & _). case_match.
  - exists L, c, []. split; [done|]. split; [apply evolves_refl|].
    pose proof (t_since _ _ _ _ _ Hth). split; [by apply (return_ok _ _ h _ L); [|lia]|]. split; [done|].
    constructor; [|constructor|by left]. unfold points. rewrite Ea. simpl. rewrite filter_app, filter_cons_False by done.
    by rewrite !app_nil_r.
  - by apply (lf_quiet H n h L c); [done|done| |by rewrite Ea|].
Qed.

Lemma tstep_good new h' th' : tstep hash head n h th new = Some (h', th') -> good H n h L t th h' th'.
Proof.
  unfold tstep. destruct (at_pc th) eqn:Ea.
  - destruct (todo th) as [|o rest] eqn:Et; [done|]. intros [= <- <-]. by apply idle_good.
  - destruct (amr_get h head) as [[q m]|] eqn:E; simpl; [|done]. intros [= <- <-]. by apply (start_good o q m).
  - destruct (amr_get h curr) as [[r m]|] eqn:E; simpl; [|done]. destruct (key_at h curr) as [k|] eqn:Hk; simpl; [|done].
    pose proof (at_good o pred curr r m k seen Ea E Hk) as Hg. destruct m; [by intros [= <- <-]|].
    destruct (key_of o <=? k); by intros [= <- <-].
  - destruct (compare_and_set _ _ _ _ _ _) as [[h1 ok]|] eqn:E; simpl; [|done].
    pose proof (snip_good o pred curr succ seen h1 ok Ea E) as Hg. destruct ok; by intros [= <- <-].
  - case_decide as Hnew; [|done]. destruct Hnew as [Hm Ha]. intros [= <- <-]. by apply new_good.
  - destruct (compare_and_set _ _ _ _ _ _) as [[h1 ok]|] eqn:E; simpl; [|done].
    pose proof (add_good x pred curr node0 h1 ok Ea E) as Hg. destruct ok; by intros [= <- <-].
  - destruct (amr_get h curr) as [[r m]|] eqn:E; simpl; [|done]. pose proof (get_good x pred curr r m Ea E) as Hg.
    destruct m; by intros [= <- <-].
  - destruct (compare_and_set _ _ _ _ _ _) as [[h1 ok]|] eqn:E; simpl; [|done].
    pose proof (mark_good x pred curr succ h1 ok Ea E) as Hg. destruct ok; by intros [= <- <-].
  - destruct (compare_and_set _ _ _ _ _ _) as [[h1 ok]|] eqn:E; simpl; [|done]. intros [= <- <-].
    by apply (remove_good x pred curr succ seen h1 ok).
  - destruct (amr_get h curr) as [[r m]|] eqn:E; simpl; [|done]. destruct (key_at h r) as [k|] eqn:Hk; simpl; [|done].
    pose proof (contains_good x curr r m k Ea E Hk) as Hg. destruct (negb m && _); by intros [= <- <-].
Qed.
End Steps.
End Proof.
