(* ===== verification/LockFreeLin.v ===== *)
(** * Linearization of the lock-free list

    The points of the calls, sorted by instant, are a sequential execution on the
    set of keys; and the calls of [contains] that answer wrongly. *)

From S2P Require Import Prelude OrderedList ListSet LockFree LockFreeHeap LockFreeProof.
Import LockFreeList.

Section Lin.
Context {T : Type} (hash : T -> Z) (head tail : Z).
Abbreviation members := (members head tail).
Abbreviation heap_ok := (heap_ok head tail).
Abbreviation system := (sys (T := T)).
Implicit Types (s : system) (tr : list system) (p q : point (T := T)) (H : list (gset Z)).

Definition updates p : Prop := p_result p = true.
#[export] Instance updates_dec p : Decision (updates p).
Proof. unfold updates. apply _. Defined.

(** The sequence of the calls that took effect. *)
Record linearization s (order : list point) : Prop := {
  lin_all : order ≡ₚ all_points s;
  lin_sorted : StronglySorted (fun p q => p_at p <= p_at q)%nat order;
  lin_replay : replay hash ((fun p => (p_op p, p_result p)) <$> order) ∅ = Some (members (nodes s)) }.

(** ** The invariant of the system *)

Definition sets tr s : list (gset Z) := (fun s => members (nodes s)) <$> (tr ++ [s]).

(** Every change of the set is the update of a point. *)
Definition covered H (ps : list (point (T := T))) : Prop := forall i ks ks', H !! i = Some ks -> H !! S i = Some ks' ->
  ks' = ks \/ exists p, p ∈ ps /\ updates p /\ p_at p = i.

Record inv tr s : Prop := {
  i_heap : exists L c, heap_ok (nodes s) L c /\ forall t th, threads s !! t = Some th ->
    thread_ok hash tail (sets tr s) (now s) (nodes s) L th;
  i_private t1 t2 th1 th2 m : t1 <> t2 -> threads s !! t1 = Some th1 -> threads s !! t2 = Some th2 ->
    private th1 = Some m -> private th2 <> Some m;
  i_now : length tr = now s;
  i_points : Forall (point_ok hash (sets tr s)) (all_points s);
  i_covered : covered (sets tr s) (all_points s);
  i_once : NoDup (p_at <$> filter updates (all_points s)) }.

Lemma all_points_insert s h t th th' n ps : threads s !! t = Some th -> points t th' ≡ₚ points t th ++ ps ->
  all_points (Sys h (<[t := th']> (threads s)) n) ≡ₚ all_points s ++ ps.
Proof.
  intros Ht Hp. unfold all_points. simpl.
  rewrite <- insert_delete_eq, map_to_list_insert by apply lookup_delete_eq.
  rewrite <- (map_to_list_delete (threads s) t th Ht). simpl. rewrite Hp. solve_Permutation.
Qed.

Lemma sets_snoc tr s s' : sets (tr ++ [s]) s' = sets tr s ++ [members (nodes s')].
Proof. unfold sets. by rewrite fmap_app. Qed.

Lemma sets_last tr s : length tr = now s -> sets tr s !! now s = Some (members (nodes s)) /\ length (sets tr s) = S (now s).
Proof.
  intros E. unfold sets. rewrite fmap_app, length_app, length_fmap, lookup_app_r by (rewrite length_fmap; lia).
  rewrite length_fmap, E, Nat.sub_diag. simpl. split; [done|lia].
Qed.

Lemma point_ok_mono H ks p : point_ok hash H p -> point_ok hash (H ++ [ks]) p.
Proof.
  intros (k & Hk & Hr & Hu). exists k. split; [by apply lookup_app_l_Some|]. split; [done|].
  intros E. apply lookup_app_l_Some. by apply Hu.
Qed.

Lemma update_before H p : point_ok hash H p -> updates p -> (S (p_at p) < length H)%nat.
Proof. intros (k & _ & _ & Hu) E. specialize (Hu E). by apply lookup_lt_Some in Hu. Qed.

Lemma covered_snoc H n ks ks' ps ps' : covered H ps -> H !! n = Some ks -> length H = S n ->
  (forall p, p ∈ ps -> p ∈ ps') -> ks' = ks \/ (exists p, p ∈ ps' /\ updates p /\ p_at p = n) -> covered (H ++ [ks']) ps'.
Proof.
  intros Hc Hn Hlen Hsub Hnew i k k' Hi Hi'. destruct (decide (i = n)) as [->|Hne].
  - rewrite lookup_app_l in Hi by lia. rewrite Hn in Hi. injection Hi as <-.
    rewrite lookup_app_r, Hlen, Nat.sub_diag in Hi' by lia. injection Hi' as <-. done.
  - pose proof (lookup_lt_Some _ _ _ Hi') as Hlt. rewrite length_app in Hlt. simpl in Hlt.
    rewrite lookup_app_l in Hi, Hi' by lia. destruct (Hc i k k' Hi Hi') as [|(p & Hp & Hr)]; [by left|right].
    exists p. split; [by apply Hsub|done].
Qed.

Lemma lf_step_inv tr s s' : inv tr s -> step hash head s s' -> inv (tr ++ [s]) s'.
Proof.
  intros [(L & c & Hok & Hths) Hpriv Hnow Hpts Hcov Honce] Hst. destruct Hst as [s t th new h' th' Ht Hstep].
  destruct (sets_last tr s Hnow) as [Hlast Hlen].
  destruct (tstep_good hash head tail (sets tr s) (now s) (nodes s) L c t th Hok Hlast Hlen (Hths t th Ht) new h' th' Hstep)
    as (L' & c' & ps & Hok' & He & Hth' & Hpr & [Hperm Hpsok Hset]).
  pose proof (all_points_insert s h' t th th' (S (now s)) ps Ht Hperm) as Hall. set (s' := Sys h' _ _) in *.
  constructor; rewrite ?sets_snoc; simpl.
  - exists L', c'. split; [done|]. intros u thu [[<- <-]|[Hne Hu]]%lookup_insert_Some; [done|].
    apply (thread_stable hash head tail _ _ (nodes s) L c h' L' (private th)); [done|done| |by apply (Hths u)].
    intros m Hm Ho. by apply (Hpriv t u th thu m).
  - intros t1 t2 th1 th2 m Hne H1 H2 Hm Hm'. cbn [threads s'] in H1, H2.
    assert (Hown : forall u thu, u <> t -> threads s !! u = Some thu -> private thu = Some m -> private th' = Some m -> False).
    { intros u thu Hu Hthu Hpu Hp'. destruct (Hpr m Hp') as [Hp|Hno]; [by apply (Hpriv t u th thu m)|].
      pose proof (t_pc _ _ _ _ _ _ _ (Hths u thu Hthu)) as Hpc. unfold private in Hpu.
      destruct (at_pc thu); simplify_eq. simpl in Hpc. destruct Hpc as (_ & _ & _ & _ & _ & Hpc). congruence. }
    apply lookup_insert_Some in H1 as [[<- <-]|[Hn1 H1]], H2 as [[<- <-]|[Hn2 H2]]; [done|by apply (Hown t2 th2)|by apply (Hown t1 th1)|].
    by apply (Hpriv t1 t2 th1 th2 m).
  - rewrite length_app. simpl. lia.
  - rewrite Hall. apply Forall_app. split; [|done]. eapply Forall_impl; [exact Hpts|]. intros p. apply point_ok_mono.
  - apply (covered_snoc _ (now s) (members (nodes s)) _ (all_points s)); [done|done|done| |].
    + intros p Hp. rewrite Hall. apply elem_of_app. by left.
    + destruct Hset as [[E _]|(p & -> & Hu & Hat)]; [by left|right]. exists p. rewrite Hall. split; [|done].
      apply elem_of_app. right. by left.
  - rewrite Hall, filter_app, fmap_app. destruct Hset as [[_ Hfalse]|(p & -> & Hu & Hat)].
    + assert (E : filter updates ps = []).
      { clear - Hfalse. induction Hfalse as [|p ps Hp _ IH]; [done|]. rewrite filter_cons_False; [done|]. unfold updates. by rewrite Hp. }
      by rewrite E, app_nil_r.
    + rewrite filter_cons_True by done. simpl. apply NoDup_app. split; [done|]. split; [|apply NoDup_singleton].
      intros i (q & -> & [Hq Hin]%list_elem_of_filter)%list_elem_of_fmap Hi%list_elem_of_singleton.
      rewrite Forall_forall in Hpts. pose proof (update_before _ q (Hpts q Hin) Hq). lia.
Qed.

(** ** The initial state *)

Section Init.
Context (Ha : aligned head) (Hb : aligned tail) (Hne : head <> tail).

Lemma init_heap_ok : heap_ok (init_heap head tail : gmap Z (node T)) {[head; tail]} [head] /\
  members (init_heap head tail : gmap Z (node T)) = ∅.
Proof.
  set (h := init_heap head tail : gmap Z (node T)).
  assert (Hh : h !! head = Some (Node None INT_MIN (pack tail false))) by apply lookup_insert_eq.
  assert (Ht : h !! tail = Some (Node None INT_MAX (pack tail false))).
  { unfold h, init_heap. rewrite lookup_insert_ne by done. apply lookup_singleton_eq. }
  assert (Hkt : kf h tail = INT_MAX) by (unfold kf, key_at; by rewrite Ht).
  assert (Hok : heap_ok h {[head; tail]} [head]).
  { constructor.
    - simpl. split; [done|]. exists tail. unfold nx. rewrite Hh. simpl. by rewrite get_ptr_pack.
    - by left.
    - intros p ->%list_elem_of_singleton. set_solver.
    - set_solver.
    - intros p Hp. assert (p = head \/ p = tail) as [-> | ->] by set_solver.
      + split; [done|]. eexists _, tail, false. split; [exact Hh|]. rewrite Hkt. simpl. unfold INT_MIN, INT_MAX.
        split_and!; try done; set_solver.
      + split; [done|]. eexists _, tail, false. split; [exact Ht|]. simpl. unfold INT_MIN, INT_MAX.
        split_and!; try done; set_solver.
    - intros nd E. rewrite Hh in E. simplify_eq. simpl. by rewrite get_mark_pack.
    - intros nd E. rewrite Ht in E. by simplify_eq.
    - intros p nd Hp Hpt _ _. assert (p = head) as -> by set_solver. by left. }
  split; [done|]. apply set_eq. intros k. rewrite (lf_members_spec head tail h _ _ Hok).
  split; [|by intros ?%elem_of_empty]. intros (p & nd & Hp & Hph & Hpt & _). set_solver.
Qed.

Lemma init_points ps : all_points (init head tail ps : system) = [].
Proof.
  apply elem_of_nil_inv. intros p ([t th] & Hp & Ht)%list_elem_of_bind. simpl in Ht.
  apply elem_of_map_to_list, lookup_fmap_Some in Ht as (os & <- & _). by apply elem_of_nil in Hp.
Qed.

Lemma lf_init_inv ps : (forall t os, ps !! t = Some os -> Forall (in_range hash) os) -> inv [] (init head tail ps).
Proof.
  intros Hos. destruct init_heap_ok as [Hok Hmem].
  constructor; rewrite ?init_points; simpl.
  - exists {[head; tail]}, [head]. split; [exact Hok|]. intros t th (os & <- & Ht)%lookup_fmap_Some.
    constructor; simpl; [done|done|by apply (Hos t)|constructor].
  - intros t1 t2 th1 th2 m _ (os & <- & _)%lookup_fmap_Some _. done.
  - done.
  - constructor.
  - intros i ks ks' _ Hi'. by apply lookup_lt_Some in Hi'; simpl in Hi'; lia.
  - constructor.
Qed.

Lemma lf_exec_inv s0 tr s : exec hash head s0 tr s -> inv [] s0 -> inv tr s.
Proof. induction 1 as [|tr s s' He IH Hst]; intros Hi; [done|]. apply lf_step_inv; [by apply IH|done]. Qed.
End Init.

(** ** The order of the points *)

(** By instant; at one instant the update comes last. *)
Definition before p q : Prop := (p_at p < p_at q)%nat \/ p_at p = p_at q /\ (updates p -> updates q).

#[export] Instance before_dec p q : Decision (before p q).
Proof. unfold before. apply _. Defined.
#[export] Instance before_total : Total before.
Proof.
  intros p q. unfold before. destruct (Nat.lt_trichotomy (p_at p) (p_at q)) as [?|[E|?]]; [tauto| |tauto].
  destruct (decide (updates q)); [left|right]; right; split; by auto.
Qed.
#[export] Instance before_trans : Transitive before.
Proof. unfold before. intros p q r [?|[? ?]] [?|[? ?]]; [left; lia|left; lia|left; lia|right; split; [lia|auto]]. Qed.

Lemma set_same H a b ks : (forall i, (a <= i < b)%nat -> forall ks ks', H !! i = Some ks -> H !! S i = Some ks' -> ks' = ks) ->
  (a <= b)%nat -> (b < length H)%nat -> H !! a = Some ks -> H !! b = Some ks.
Proof.
  intros Hs Hab Hb Ha. induction Hab as [|b Hab IH]; [done|].
  destruct (lookup_lt_is_Some_2 H (S b)) as [ks' Hks']; [done|].
  rewrite Hks'. f_equal. apply (Hs b); [lia| |done]. apply IH; [|lia]. intros i Hi. apply Hs. lia.
Qed.

Lemma refused_same o ks : (set_op hash o ks).2 = false -> (set_op hash o ks).1 = ks.
Proof.
  destruct o as [x|x|x]; unfold set_op; cbn [fst snd]; [intros Hn%bool_decide_eq_false..|done].
  - apply subseteq_union_1_L, singleton_subseteq_l. destruct (decide (key_of hash (Add x) ∈ ks)); tauto.
  - apply difference_disjoint_L. by intros k Hk ->%elem_of_singleton.
Qed.

Lemma replay_sorted H order a ks kz : StronglySorted before order -> Forall (fun p => a <= p_at p)%nat order ->
  Forall (point_ok hash H) order -> NoDup (p_at <$> filter updates order) ->
  (forall i ks ks', (a <= i)%nat -> H !! i = Some ks -> H !! S i = Some ks' -> ks' = ks \/ exists p, p ∈ order /\ updates p /\ p_at p = i) ->
  H !! a = Some ks -> last H = Some kz -> replay hash ((fun p => (p_op p, p_result p)) <$> order) ks = Some kz.
Proof.
  intros Hso. revert a ks. induction Hso as [|p order Hso IH Hall]; intros a ks Hge Hok Hnd Hcov Ha Hz.
  - simpl. f_equal. rewrite last_lookup in Hz. pose proof (lookup_lt_Some _ _ _ Ha) as Hlt.
    assert (E : H !! pred (length H) = Some ks); [|congruence]. apply (set_same H a); [|lia|lia|done].
    intros i Hi k k' Hk Hk'. destruct (Hcov i k k' ltac:(lia) Hk Hk') as [|(q & Hq & _)]; [done|by apply elem_of_nil in Hq].
  - apply Forall_cons in Hge as [Hap Hge]. apply Forall_cons in Hok as [(kp & Hkp & Hr & Hu) Hok].
    rewrite Forall_forall in Hall, Hge. assert (Ep : H !! p_at p = Some ks).
    { pose proof (lookup_lt_Some _ _ _ Hkp). apply (set_same H a); [|lia|lia|done].
      intros i Hi k k' Hk Hk'. destruct (Hcov i k k' ltac:(lia) Hk Hk') as [|(q & Hq & _ & Hqi)]; [done|].
      apply elem_of_cons in Hq as [->|Hq]; [lia|]. destruct (Hall q Hq) as [|[? _]]; lia. }
    rewrite Hkp in Ep. injection Ep as ->. simpl. destruct (set_op hash (p_op p) ks) as [ks1 r] eqn:Eop. simpl in Hr, Hu.
    rewrite decide_True by done. destruct (decide (updates p)) as [Hup|Hup].
    + rewrite filter_cons_True in Hnd by done. simpl in Hnd. apply NoDup_cons in Hnd as [Hnew Hnd].
      assert (Hlater : forall q, q ∈ order -> (S (p_at p) <= p_at q)%nat).
      { intros q Hq. destruct (Hall q Hq) as [|[Eat Hq']]; [lia|]. exfalso. apply Hnew. rewrite Eat.
        apply list_elem_of_fmap_2, list_elem_of_filter. auto. }
      apply (IH (S (p_at p))); [by apply Forall_forall|done|done| |by apply Hu|done].
      intros i k k' Hi Hk Hk'. destruct (Hcov i k k' ltac:(lia) Hk Hk') as [|(q & Hq & Hqu & Hqi)]; [by left|right].
      apply elem_of_cons in Hq as [->|Hq]; [lia|by exists q].
    + rewrite filter_cons_False in Hnd by done. pose proof (refused_same (p_op p) ks) as Hsame. rewrite Eop in Hsame. simpl in Hsame.
      rewrite Hsame by (rewrite Hr; unfold updates in Hup; by destruct (p_result p)).
      apply (IH (p_at p)); [|done|done| |done|done].
      * apply Forall_forall. intros q Hq. destruct (Hall q Hq) as [|[? _]]; lia.
      * intros i k k' Hi Hk Hk'. destruct (Hcov i k k' ltac:(lia) Hk Hk') as [|(q & Hq & Hqu & Hqi)]; [by left|right].
        apply elem_of_cons in Hq as [->|Hq]; [done|by exists q].
Qed.

Lemma inv_linearization tr s : inv tr s -> sets tr s !! 0%nat = Some ∅ ->
  linearization s (merge_sort before (all_points s)).
Proof.
  intros Hi H0. pose proof (merge_sort_Permutation before (all_points s)) as Hp.
  pose proof (StronglySorted_merge_sort before (all_points s)) as Hs. destruct (sets_last tr s (i_now _ _ Hi)) as [Hl Hlen].
  constructor.
  - exact Hp.
  - apply lookup_sorted. intros i j p q Hij Hp' Hq'. destruct (sorted_lookup _ _ _ _ _ _ Hs Hij Hp' Hq') as [|[? _]]; lia.
  - apply (replay_sorted (sets tr s) _ 0 ∅); [done| | | | |done|].
    + apply Forall_forall. lia.
    + rewrite Hp. apply Hi.
    + rewrite Hp. apply Hi.
    + intros i ks ks' _ Hi1 Hi2. destruct (i_covered _ _ Hi i ks ks' Hi1 Hi2) as [|(p & Hin & Hr)]; [by left|right].
      exists p. split; [by rewrite Hp|done].
    + rewrite last_lookup, Hlen. simpl. exact Hl.
Qed.

Lemma exec_first s0 tr s : exec hash head s0 tr s -> sets tr s !! 0%nat = Some (members (nodes s0)).
Proof.
  induction 1 as [|tr s s' He IH Hst]; [done|]. rewrite sets_snoc. by apply lookup_app_l_Some.
Qed.

(** ** No step is undefined *)

(** A thread with something to do can step; an allocation needs a free address. *)
Lemma lf_tstep_defined H n (h : gmap Z (node T)) L c th new : heap_ok h L c -> thread_ok hash tail H n h L th ->
  h !! new = None -> aligned new -> at_pc th = Idle /\ todo th = [] \/ is_Some (tstep hash head n h th new).
Proof.
  intros Hok [Hpc _ _ _] Hnew Ha. unfold tstep, amr_get, compare_and_set, key_at.
  assert (Hat : forall z : Z, z ∈ L -> exists nd, h !! z = Some nd /\ exists nr, h !! get_ptr (next nd) = Some nr).
  { intros z Hz. destruct (node_at head tail h L c Hok z Hz) as [_ (nd & Hnd)]. exists nd. split; [done|].
    destruct (word_at head tail h L c Hok z nd Hz Hnd) as (_ & Hq & _). by apply (node_at head tail h L c Hok). }
  assert (Hhead : head ∈ L) by apply (hk_in _ _ _ _ _ Hok), (hk_head _ _ _ _ _ Hok).
  destruct (at_pc th) as [|o|o p q seen|o p q r seen|x p q|x p q m|x p q|x p q r|x p q r seen|x q]; simpl in Hpc; [|right..].
  - destruct (todo th); [by left|right; by eexists].
  - destruct (Hat head Hhead) as (nd & -> & _). by eexists.
  - destruct Hpc as (_ & (_ & _ & Hq & _) & _). destruct (Hat q Hq) as (nd & -> & _). simpl.
    do 2 (case_match; [by eexists|]); by eexists.
  - destruct Hpc as (_ & (Hp & _) & _). destruct (Hat p Hp) as (nd & -> & _). simpl. case_match; by eexists.
  - rewrite decide_True by done. by eexists.
  - destruct Hpc as (_ & (Hp & _) & _). destruct (Hat p Hp) as (nd & -> & _). simpl. case_match; by eexists.
  - destruct Hpc as (_ & (_ & _ & Hq & _) & _). destruct (Hat q Hq) as (nd & -> & _). simpl. case_match; by eexists.
  - destruct Hpc as (_ & (_ & _ & Hq & _) & _). destruct (Hat q Hq) as (nd & -> & _). simpl. case_match; by eexists.
  - destruct Hpc as (_ & (Hp & _) & _). destruct (Hat p Hp) as (nd & -> & _). simpl. case_match; by eexists.
  - destruct Hpc as [_ Hq]. destruct (Hat q Hq) as (nd & -> & nr & E). simpl. rewrite E. simpl. by destruct (_ && _); eexists.
Qed.

(** [C34] The lock-free list is linearizable for [add] and [remove], whatever runs
    beside them ([contains] included) in any interleaving, for items whose key is
    not that of a sentinel.  The calls that took effect, in the order of an
    instant of each, are a sequential execution on a set of keys with the same
    answers, which ends in the set the list holds; the instant of a call that
    returned is between its beginning and its return.  No thread ever
    dereferences a pointer that is not a node: one that has something to do has
    a step, given an address for a new node. *)
Theorem lock_free_linearizable ps tr s : aligned head -> aligned tail -> head <> tail ->
  (forall t os, ps !! t = Some os -> Forall (in_range hash) os) -> exec hash head (init head tail ps) tr s ->
  (exists order, linearization s order) /\
  forall t th, threads s !! t = Some th ->
    Forall (fun cl => c_from cl <= c_at cl <= c_to cl)%nat (finished th) /\
    forall new, nodes s !! new = None -> aligned new ->
      at_pc th = Idle /\ todo th = [] \/ is_Some (tstep hash head (now s) (nodes s) th new).
Proof.
  intros Ha Hb Hne Hos He. pose proof (lf_exec_inv _ _ _ He (lf_init_inv Ha Hb Hne ps Hos)) as Hi. split.
  - eexists. apply (inv_linearization tr s Hi). rewrite (exec_first _ _ _ He). f_equal. by apply init_heap_ok.
  - intros t th Ht. destruct (i_heap _ _ Hi) as (L & c & Hok & Hths). split; [by apply (t_calls _ _ _ _ _ _ _ (Hths t th Ht))|].
    intros new Hnew Haw. by apply (lf_tstep_defined (sets tr s) (now s) (nodes s) L c); [|apply (Hths t)| |].
Qed.

Lemma run_exec sched s0 tr s tr' s' : exec hash head s0 tr s -> run hash head sched s = Some (tr', s') ->
  exec hash head s0 (tr ++ tr') s'.
Proof.
  revert tr s tr'. induction sched as [|[t new] sched IH]; intros tr s tr' He; simpl.
  - intros [= <- <-]. by rewrite app_nil_r.
  - destruct (threads s !! t) as [th|] eqn:Ht; simpl; [|done].
    destruct (tstep hash head (now s) (nodes s) th new) as [[h' th']|] eqn:Hs; simpl; [|done].
    destruct (run hash head sched _) as [[tr1 s1]|] eqn:Hr; simpl; [|done]. intros [= <- <-].
    rewrite (cons_middle s), app_assoc. eapply IH; [|exact Hr]. eapply exec_snoc; [exact He|]. by econstructor.
Qed.
End Lin.

(** ** [contains] *)

(** Thread 0 adds 5 and 7; its [remove(5)] is overtaken by [add(3)] of thread 1,
    so the node of 5 is marked but stays linked. *)
Definition programs : gmap tid_t (list (op Z)) :=
  {[ 0%nat := [Add 5; Add 7; Remove 5; Contains 7; Contains 5]; 1%nat := [Add 3] ]}.

Definition times (n : nat) (t : tid_t) : list (tid_t * Z) := replicate n (t, 0).

Definition until_removed : list (tid_t * Z) :=
  times 3 0 ++ [(0%nat, 48)] ++ times 5 0 ++ [(0%nat, 64)] ++ times 4 0 ++
  times 3 1 ++ [(1%nat, 80)] ++ times 1 1 ++ times 3 0.

Definition searches : list (tid_t * Z) := times 8 0.

Definition reached (sched : list (tid_t * Z)) (s : sys) : list (sys (T := Z)) * sys (T := Z) :=
  default ([], s) (run id 16 sched s).

Lemma reached_exec sched s : (if run id 16 sched s is Some _ then true else false) = true ->
  exec id 16 s (reached sched s).1 (reached sched s).2.
Proof.
  unfold reached. destruct (run id 16 sched s) as [[tr s']|] eqn:E; [|done]. intros _. simpl.
  apply (run_exec id 16 sched s [] s tr s'); [constructor|done].
Qed.

Definition removed : sys := (reached until_removed (init 16 32 programs)).2.

(** [C35] [contains] is wrong.  In a state of the list of the keys 3 and 7 in which no
    call is running, after a [remove(5)] that answered true, [contains(7)] answers
    false and [contains(5)] answers true, with nothing else running: the key is
    compared without looking at the mark of its node, and a node after a marked
    one is not compared at all. *)
Theorem contains_wrong :
  (exists tr, exec id 16 (init 16 32 programs) tr removed) /\
  (forall t th, threads removed !! t = Some th -> at_pc th = Idle) /\ members 16 32 (nodes removed) = {[ 3; 7 ]} /\
  exists tr s th, exec id 16 removed tr s /\ Forall (fun s => nodes s = nodes removed) (tr ++ [s]) /\
    threads s !! 0%nat = Some th /\
    (fun c => (c_op c, c_result c)) <$> finished th =
      [(Add 5, true); (Add 7, true); (Remove 5, true); (Contains 7, false); (Contains 5, true)].
Proof.
  split; [|split; [|split]].
  - eexists. apply (reached_exec until_removed). vm_compute. reflexivity.
  - intros t th Ht%elem_of_map_to_list. apply (list_elem_of_fmap_2 (fun tth => at_pc tth.2)) in Ht.
    assert (E : (fun tth => at_pc tth.2) <$> map_to_list (threads removed) = replicate 2 Idle) by (vm_compute; reflexivity).
    rewrite E in Ht. by apply elem_of_replicate in Ht as [? _].
  - vm_compute. reflexivity.
  - exists (reached searches removed).1, (reached searches removed).2. eexists. split; [|split; [|split]].
    + apply reached_exec. vm_compute. reflexivity.
    + apply Forall_forall. intros s Hs.
      assert (E : (fun s => nodes s) <$> ((reached searches removed).1 ++ [(reached searches removed).2]) =
        replicate 9 (nodes removed)) by (vm_compute; reflexivity).
      pose proof (list_elem_of_fmap_2 (fun s => nodes s) _ _ Hs) as Hin. rewrite E in Hin. by apply elem_of_replicate in Hin as [-> _].
    + vm_compute. reflexivity.
    + vm_compute. reflexivity.
Qed.

Lemma lock_free_linearizable_witness : exists tr order, exec id 16 (init 16 32 programs) tr removed /\ linearization id 16 32 removed order.
Proof.
  assert (He : exists tr, exec id 16 (init 16 32 programs) tr removed).
  { eexists. apply (reached_exec until_removed). vm_compute. reflexivity. }
  destruct He as [tr He]. exists tr.
  destruct (lock_free_linearizable id 16 32 programs tr removed) as [[order Ho] _]; try done.
  - intros t os Ht. assert (Hall : map_Forall (fun _ os => Forall (in_range id) os) programs).
    { apply map_Forall_insert; [done|]. split; [|apply map_Forall_singleton];
        repeat (constructor; [unfold in_range; vm_compute; split; reflexivity|]); constructor. }
    exact (Hall t os Ht).
  - by exists order.
Defined.
