(* ===== verification/LinkedList.v ===== *)
(** * The linked list of [zoo/linked_list.h]

    Items in a chain of nodes from [m_head], the newest first, and their number in
    [m_sz].  Both fields of a node are [TVar]s, so a pointer is a pair of
    addresses.  The allocation of a node is modelled by the address given to the
    operation, its constructor's stores are among the writes of the transaction
    (nobody else knows the node), and [delete] of a node takes its two [TVar]s out
    of the memory.  Equality of items is the [operator==] of their type, with no
    law.  The loops take a fuel; null dereferences (undefined) and exhausted fuel
    are exceptions that no theorem allows. *)

From S2P Require Import Prelude Tx Machine.

Module LinkedList.

(** [Node]: where its two [TVar]s are. *)
Record node := Node { item_at : addr_t; next_at : addr_t }.

#[export] Instance node_eq_dec : EqDecision node.
Proof. solve_decision. Defined.

Abbreviation pointer := (option node).

(** What a [TVar] of the list holds. *)
Inductive cell (T : Type) := Item (x : T) | Next (p : pointer) | Size (n : Z).
Arguments Item {T} _.
Arguments Next {T} _.
Arguments Size {T} _.

(** The fields of a list. *)
Record list_at := ListAt { m_head : addr_t; m_sz : addr_t }.

Section List.
Context {T : Type} (eqb : T -> T -> bool) (at_ : list_at).
Implicit Types (m : gmap addr_t (cell T)) (l r : list (node * T)).

(** The captured [result] of [remove] and [contains]. *)
Abbreviation body_t A := (tx (cell T) bool A).

Section Bodies.
Context {A : Type}.

Definition undefined : body_t A := Throw (other_exception 1).
Definition out_of_fuel : body_t A := Throw (other_exception 2).

Definition read_item (x : addr_t) (k : T -> body_t A) : body_t A :=
  Read x (fun c => match c with Item v => k v | _ => undefined end).
Definition read_next (x : addr_t) (k : pointer -> body_t A) : body_t A :=
  Read x (fun c => match c with Next p => k p | _ => undefined end).
Definition read_size (x : addr_t) (k : Z -> body_t A) : body_t A :=
  Read x (fun c => match c with Size n => k n | _ => undefined end).

Definition deref (p : pointer) (k : node -> body_t A) : body_t A :=
  match p with Some n => k n | None => undefined end.

(** The loop of [_locate]. *)
Fixpoint locate_from (fuel : nat) (pred curr : pointer) (x : T) (k : pointer -> pointer -> body_t A) : body_t A :=
  match curr with
  | None => k pred curr
  | Some n => read_item (item_at n) (fun v =>
      if eqb v x then k pred curr
      else match fuel with
           | O => out_of_fuel
           | S fuel' => read_next (next_at n) (fun next => locate_from fuel' curr next x k)
           end)
  end.

Definition locate (fuel : nat) (start : pointer) (x : T) (k : pointer -> pointer -> body_t A) : body_t A :=
  match start with None => k None None | Some _ => locate_from fuel None start x k end.

(** The loop of [contains], [get] and [update]. *)
Fixpoint find_from (fuel : nat) (curr : pointer) (x : T) (k : pointer -> body_t A) : body_t A :=
  match curr with
  | None => k curr
  | Some n => read_item (item_at n) (fun v =>
      if eqb v x then k curr
      else match fuel with
           | O => out_of_fuel
           | S fuel' => read_next (next_at n) (fun next => find_from fuel' next x k)
           end)
  end.

(** [new Node(item)]. *)
Definition new_node (n : node) (x : T) (k : body_t A) : body_t A :=
  Write (item_at n) (Item x) (Write (next_at n) (Next None) k).

(** [add], as it is called inside another transaction too. *)
Definition add_tx (n : node) (x : T) (k : body_t A) : body_t A :=
  new_node n x
    (read_next (m_head at_) (fun head_val =>
       Write (next_at n) (Next head_val)
         (Write (m_head at_) (Next (Some n))
            (read_size (m_sz at_) (fun sz => Write (m_sz at_) (Size (W64.wrap (sz + 1))) k))))).
End Bodies.

Definition add_body (n : node) (x : T) : body_t unit := add_tx n x (Ret tt).

Definition remove_body (fuel : nat) (x : T) : body_t pointer :=
  read_next (m_head at_) (fun head =>
    locate fuel head x (fun pred curr =>
      match curr with
      | Some c =>
          read_size (m_sz at_) (fun sz => Write (m_sz at_) (Size (W64.wrap (sz - 1)))
            (if bool_decide (curr <> head) then
               read_next (next_at c) (fun next => deref pred (fun p =>
                 Write (next_at p) (Next next) (SetL true (Ret curr))))
             else
               read_next (m_head at_) (fun old_head => deref old_head (fun o =>
                 read_next (next_at o) (fun next_head =>
                   Write (m_head at_) (Next next_head) (SetL true (Ret old_head)))))))
      | None => Ret None
      end)).

Definition contains_body (fuel : nat) (x : T) : body_t bool :=
  read_next (m_head at_) (fun head => find_from fuel head x (fun curr =>
    SetL (bool_decide (curr <> None)) (GetL (fun result => Ret result)))).

Definition get_body (fuel : nat) (x : T) : body_t (option T) :=
  read_next (m_head at_) (fun head => find_from fuel head x (fun curr =>
    match curr with
    | Some c => read_item (item_at c) (fun v => Ret (Some v))
    | None => Ret None
    end)).

Definition update_body (fuel : nat) (x y : T) (n : node) : body_t unit :=
  read_next (m_head at_) (fun head => find_from fuel head x (fun curr =>
    match curr with
    | Some c => Write (item_at c) (Item y) (Ret tt)
    | None => add_tx n y (Ret tt)
    end)).

Definition size_body : body_t Z := read_size (m_sz at_) (fun sz => Ret sz).

(** [delete node], after the transaction of [remove]. *)
Definition delete_node (p : pointer) m : gmap addr_t (cell T) :=
  match p with Some n => delete (item_at n) (delete (next_at n) m) | None => m end.

(** The calls of [atomically]. *)
Definition add (n : node) (x : T) : txn (cell T) bool unit := Txn id (add_body n x) (fun _ now => now).
Definition remove (fuel : nat) (x : T) : txn (cell T) bool pointer :=
  Txn (fun _ => false) (remove_body fuel x) (fun saved _ => saved).
Definition contains (fuel : nat) (x : T) : txn (cell T) bool bool :=
  Txn (fun _ => false) (contains_body fuel x) (fun saved _ => saved).
Definition get (fuel : nat) (x : T) : txn (cell T) bool (option T) :=
  Txn id (get_body fuel x) (fun _ now => now).
Definition update (fuel : nat) (x y : T) (n : node) : txn (cell T) bool unit :=
  Txn id (update_body fuel x y n) (fun _ now => now).
Definition size : txn (cell T) bool Z := Txn id size_body (fun _ now => now).

(** ** Chains of nodes *)

(** From pointer [p] through the nodes of [l] to pointer [q]. *)
Fixpoint seg m (p : pointer) l (q : pointer) : Prop :=
  match l with
  | [] => p = q
  | (n, x) :: r => p = Some n /\ m !! item_at n = Some (Item x) /\
      exists p', m !! next_at n = Some (Next p') /\ seg m p' r q
  end.

Definition node_cells (n : node) : list addr_t := [item_at n; next_at n].
Definition cells l : list addr_t := l ≫= (fun nx => node_cells nx.1).

Lemma cells_app l r : cells (l ++ r) = cells l ++ cells r.
Proof. apply bind_app. Qed.

Lemma cells_seg_app m p l r q : seg m p (l ++ r) q <-> exists p', seg m p l p' /\ seg m p' r q.
Proof.
  revert p. induction l as [|[n x] l IH]; intros p; simpl; [naive_solver|]. setoid_rewrite IH. naive_solver.
Qed.

Lemma cells_seg_frame m m' p l q : (forall a, a ∈ cells l -> m' !! a = m !! a) -> seg m p l q -> seg m' p l q.
Proof.
  revert p. induction l as [|[n x] l IH]; intros p Hf; [done|]. intros (-> & Hx & p' & Hp & Hl).
  split; [done|]. split; [rewrite Hf; [done|by left]|]. exists p'.
  split; [rewrite Hf; [done|right; by left]|]. apply IH; [|done]. intros a Ha. apply Hf. by do 2 right.
Qed.

(** The last link of a chain changed. *)
Lemma seg_relink m p l n x q q' : NoDup (cells (l ++ [(n, x)])) -> seg m p (l ++ [(n, x)]) q ->
  seg (<[next_at n := Next q']> m) p (l ++ [(n, x)]) q'.
Proof.
  rewrite cells_app. intros Hn (p' & Hl & -> & Hx & _)%cells_seg_app. apply cells_seg_app.
  apply NoDup_app in Hn as (_ & Hd & Hn). simpl in Hn. apply NoDup_cons in Hn as [Hne _]. exists (Some n). split.
  - eapply cells_seg_frame; [|exact Hl]. intros a Ha. apply lookup_insert_ne. intros <-. apply (Hd _ Ha). right; by left.
  - split; [done|]. split; [rewrite lookup_insert_ne; [done|set_solver]|]. exists q'. by rewrite lookup_insert_eq.
Qed.

(** An item changed. *)
Lemma seg_set_item m p l n x y q : NoDup (cells ((n, x) :: l)) -> seg m p ((n, x) :: l) q ->
  seg (<[item_at n := Item y]> m) p ((n, y) :: l) q.
Proof.
  intros Hn (-> & Hx & p' & Hp & Hl). simpl in Hn. apply NoDup_cons in Hn as [Hne [Hne' _]%NoDup_cons].
  split; [done|]. split; [apply lookup_insert_eq|]. exists p'.
  split; [rewrite lookup_insert_ne; [done|set_solver]|]. eapply cells_seg_frame; [|exact Hl].
  intros a Ha. apply lookup_insert_ne. intros <-. apply Hne. by right.
Qed.

(** The first item equal to [x], if any. *)
Lemma split_first x l : (Forall (fun nv => eqb nv.2 x = false) l) \/
  exists l1 n v l2, l = l1 ++ (n, v) :: l2 /\ Forall (fun nv => eqb nv.2 x = false) l1 /\ eqb v x = true.
Proof.
  induction l as [|[n v] l IH]; [by left|]. destruct (eqb v x) eqn:E.
  - right. by exists [], n, v, l.
  - destruct IH as [Hf|(l1 & n' & v' & l2 & -> & Hf & Hv)]; [left; by constructor|].
    right. exists ((n, v) :: l1), n', v', l2. split; [done|]. split; [by constructor|done].
Qed.

(** Where a search stops: at null, or at an item equal to [x]. *)
Definition stops m (q : pointer) (x : T) : Prop :=
  forall n, q = Some n -> exists v, m !! item_at n = Some (Item v) /\ eqb v x = true.

Definition last_node (p : pointer) l : pointer :=
  match last l with Some nx => Some nx.1 | None => p end.

Lemma run_find {A} fuel p l q x (k : pointer -> body_t A) lo m : seg m p l q ->
  Forall (fun nv => eqb nv.2 x = false) l -> stops m q x -> (length l <= fuel)%nat ->
  Tx.run (find_from fuel p x k) lo m = Tx.run (k q) lo m.
Proof.
  revert fuel p. induction l as [|[n v] l IH]; intros fuel p Hs Hf Hq Hlen.
  - simpl in Hs. subst. destruct fuel, q as [n|]; cbn [find_from Tx.run]; try done;
      destruct (Hq n eq_refl) as (v & Hv & E); unfold read_item; cbn [Tx.run]; by rewrite Hv, E.
  - destruct Hs as (-> & Hv & p' & Hp & Hs). apply Forall_cons in Hf as [Hx Hf]. simpl in Hx, Hlen.
    destruct fuel as [|fuel]; [lia|]. cbn [find_from]. unfold read_item at 1. cbn [Tx.run]. rewrite Hv, Hx.
    unfold read_next at 1. cbn [Tx.run]. rewrite Hp. apply IH; [done|done|done|lia].
Qed.

Lemma run_locate_from {A} fuel p0 p l q x (k : pointer -> pointer -> body_t A) lo m : seg m p l q ->
  Forall (fun nv => eqb nv.2 x = false) l -> stops m q x -> (length l <= fuel)%nat ->
  Tx.run (locate_from fuel p0 p x k) lo m = Tx.run (k (last_node p0 l) q) lo m.
Proof.
  revert fuel p0 p. induction l as [|[n v] l IH]; intros fuel p0 p Hs Hf Hq Hlen.
  - simpl in Hs. subst. destruct fuel, q as [n|]; cbn [locate_from Tx.run]; try done;
      destruct (Hq n eq_refl) as (v & Hv & E); unfold read_item; cbn [Tx.run]; by rewrite Hv, E.
  - destruct Hs as (-> & Hv & p' & Hp & Hs). apply Forall_cons in Hf as [Hx Hf]. simpl in Hx, Hlen.
    destruct fuel as [|fuel]; [lia|]. cbn [locate_from]. unfold read_item at 1. cbn [Tx.run]. rewrite Hv, Hx.
    unfold read_next at 1. cbn [Tx.run]. rewrite Hp, (IH fuel (Some n)); [|done|done|done|lia].
    unfold last_node. rewrite last_cons. by destruct (last l).
Qed.

Lemma run_locate {A} fuel p l q x (k : pointer -> pointer -> body_t A) lo m : seg m p l q ->
  Forall (fun nv => eqb nv.2 x = false) l -> stops m q x -> (length l <= fuel)%nat ->
  Tx.run (locate fuel p x k) lo m = Tx.run (k (last_node None l) q) lo m.
Proof.
  intros Hs Hf Hq Hlen. unfold locate. destruct p as [n|]; [by apply run_locate_from|].
  destruct l as [|[n v] l]; [by simpl in Hs; subst|]. by destruct Hs.
Qed.

(** ** The list of items *)

Definition of_list l : list addr_t := m_head at_ :: m_sz at_ :: cells l.

Record rep m l : Prop := {
  rep_head : exists p, m !! m_head at_ = Some (Next p) /\ seg m p l None;
  rep_size : m !! m_sz at_ = Some (Size (W64.wrap (Z.of_nat (length l))));
  rep_cells : NoDup (of_list l) }.

Fixpoint remove_first (x : T) l : list (node * T) :=
  match l with
  | [] => []
  | (n, v) :: r => if eqb v x then r else (n, v) :: remove_first x r
  end.

(** [None] when no item is equal to [x]. *)
Fixpoint replace_first (x y : T) l : option (list (node * T)) :=
  match l with
  | [] => None
  | (n, v) :: r => if eqb v x then Some ((n, y) :: r) else cons (n, v) <$> replace_first x y r
  end.

Definition mem_item (x : T) l : bool := existsb (fun nv => eqb nv.2 x) l.
Definition find_item (x : T) l : option T := snd <$> find (fun nv => eqb nv.2 x) l.
Definition update_items (x y : T) (n : node) l : list (node * T) := default ((n, y) :: l) (replace_first x y l).

(** Nothing outside the list and the new node is touched. *)
Definition frame m m' l (n : node) : Prop :=
  forall a, a ∉ of_list l -> a ∉ node_cells n -> m' !! a = m !! a.

Lemma none_equal x l : Forall (fun nv => eqb nv.2 x = false) l ->
  mem_item x l = false /\ find_item x l = None /\ remove_first x l = l /\ (forall y, replace_first x y l = None).
Proof.
  induction 1 as [|[n v] l Hx Hl (H1 & H2 & H3 & H4)]; [done|]. simpl in Hx.
  unfold mem_item, find_item in *. simpl. rewrite Hx. split; [done|]. split; [done|].
  split; [by rewrite H3|]. intros y. by rewrite H4.
Qed.

Lemma first_equal x l1 n v l2 : Forall (fun nv => eqb nv.2 x = false) l1 -> eqb v x = true ->
  let l := l1 ++ (n, v) :: l2 in
  mem_item x l = true /\ find_item x l = Some v /\ remove_first x l = l1 ++ l2 /\
  (forall y, replace_first x y l = Some (l1 ++ (n, y) :: l2)).
Proof.
  intros Hl Hv. induction Hl as [|[n' v'] l1 Hx Hl (H1 & H2 & H3 & H4)]; unfold mem_item, find_item in *; simpl.
  - by rewrite Hv.
  - simpl in Hx. rewrite Hx. split; [done|]. split; [done|]. split; [by rewrite H3|]. intros y. by rewrite H4.
Qed.

Lemma replace_first_cells x y l r : replace_first x y l = Some r -> cells r = cells l.
Proof.
  revert r. induction l as [|[n v] l IH]; intros r; simpl; [done|]. destruct (eqb v x).
  - intros [= <-]. done.
  - destruct (replace_first x y l) as [r'|]; [|done]. intros [= <-]. simpl. by rewrite (IH r').
Qed.

Lemma update_items_cells x y n l a :
  a ∈ cells (update_items x y n l) -> a ∈ node_cells n \/ a ∈ cells l.
Proof.
  unfold update_items. destruct (replace_first x y l) as [r|] eqn:E; simpl.
  - rewrite (replace_first_cells _ _ _ _ E). by right.
  - rewrite !elem_of_cons. intros [->|[->|Ha]]; [left; left|left; right; left|by right].
Qed.

Lemma update_items_length x y n l : (length (update_items x y n l) <= S (length l))%nat.
Proof.
  unfold update_items. destruct (replace_first x y l) as [r|] eqn:E; simpl; [|lia].
  revert r E. induction l as [|[n1 v] l IH]; intros r; simpl; [done|].
  destruct (eqb v x); [intros [= <-]; simpl; lia|].
  destruct (replace_first x y l) as [r'|]; [|done]. intros [= <-]. specialize (IH r' eq_refl). simpl. lia.
Qed.

Lemma wrap_S n : W64.wrap (W64.wrap (Z.of_nat n) + 1) = W64.wrap (Z.of_nat (S n)).
Proof. unfold W64.wrap. rewrite Zplus_mod_idemp_l. f_equal. lia. Qed.

Lemma wrap_pred n : W64.wrap (W64.wrap (Z.of_nat (S n)) - 1) = W64.wrap (Z.of_nat n).
Proof. unfold W64.wrap. rewrite Zminus_mod_idemp_l. f_equal. lia. Qed.

Lemma node_cells_ne n : NoDup (node_cells n) -> item_at n <> next_at n.
Proof. intros [Hn _]%NoDup_cons E. apply Hn. rewrite E. by left. Qed.

Lemma not_node_cells n b : b ∉ node_cells n -> b <> item_at n /\ b <> next_at n.
Proof. unfold node_cells. rewrite !not_elem_of_cons. tauto. Qed.

Lemma not_of_list l b : b ∉ of_list l -> b <> m_head at_ /\ b <> m_sz at_ /\ b ∉ cells l.
Proof. unfold of_list. rewrite !not_elem_of_cons. tauto. Qed.

Lemma of_list_ne l : NoDup (of_list l) ->
  m_head at_ <> m_sz at_ /\ forall b, b ∈ cells l -> m_head at_ <> b /\ m_sz at_ <> b.
Proof.
  intros [Hh [Hs _]%NoDup_cons]%NoDup_cons. apply not_elem_of_cons in Hh as [Hh Hh'].
  split; [done|]. intros b Hb. split; by intros <-.
Qed.

(** A new node in front. *)
Lemma run_add {A} n x (a : A) lo m l : rep m l -> NoDup (node_cells n ++ of_list l) ->
  exists m', Tx.run (add_tx n x (Ret a)) lo m = Some (Val a, lo, m') /\ rep m' ((n, x) :: l) /\ frame m m' l n.
Proof.
  intros [(p & Hp & Hl) Hsz Hn] Hnew. pose proof Hnew as (Hnn & Hdis & _)%NoDup_app.
  apply node_cells_ne in Hnn.
  assert (Hd : forall b, b ∈ of_list l -> item_at n <> b /\ next_at n <> b)
    by (intros b Hb; split; intros <-; eapply Hdis; [|exact Hb| |exact Hb]; [left|right; left]).
  pose proof (of_list_ne l Hn) as [Hhs Hcells].
  unfold add_tx, new_node, read_next, read_size. cbn [Tx.run].
  pose proof (Hd (m_head at_) ltac:(by left)) as [Hh1 Hh2]. pose proof (Hd (m_sz at_) ltac:(right; by left)) as [Hs1 Hs2].
  rewrite !(lookup_insert_ne _ _ (m_head at_)) by done. rewrite Hp. cbn [Tx.run].
  rewrite !(lookup_insert_ne _ _ (m_sz at_)) by done. rewrite Hsz. cbn [Tx.run].
  eexists. split; [reflexivity|]. split.
  - constructor.
    + exists (Some n). rewrite (lookup_insert_ne _ (m_sz at_)) by done. rewrite lookup_insert_eq. split; [done|].
      split; [done|]. split; [rewrite !lookup_insert_ne by done; apply lookup_insert_eq|]. exists p.
      split; [rewrite !(lookup_insert_ne _ _ (next_at n)) by done; apply lookup_insert_eq|].
      eapply cells_seg_frame; [|exact Hl]. intros b Hb. pose proof (Hd b ltac:(by do 2 right)) as [Hb1 Hb2].
      destruct (Hcells b Hb). by rewrite !lookup_insert_ne.
    + rewrite lookup_insert_eq. by rewrite wrap_S.
    + eapply NoDup_Permutation_proper; [|exact Hnew]. unfold of_list. simpl. solve_Permutation.
  - intros b (Hb1 & Hb2 & _)%not_of_list [Hb3 Hb4]%not_node_cells. by rewrite !lookup_insert_ne.
Qed.

(** *** A node in the middle *)

Lemma of_list_middle l1 n v l2 : NoDup (of_list (l1 ++ (n, v) :: l2)) ->
  NoDup (of_list (l1 ++ l2)) /\ (forall b, b ∈ of_list (l1 ++ l2) -> b <> item_at n /\ b <> next_at n) /\
  item_at n <> next_at n.
Proof.
  intros Hn. assert (Hp : of_list (l1 ++ (n, v) :: l2) ≡ₚ node_cells n ++ of_list (l1 ++ l2)).
  { unfold of_list. rewrite !cells_app. simpl. solve_Permutation. }
  rewrite Hp in Hn. apply NoDup_app in Hn as (H1 & Hd & H2). split; [done|].
  split; [|by apply node_cells_ne]. intros b Hb. split; intros ->; eapply Hd; try exact Hb; [left|right; left].
Qed.

Lemma rep_middle m l1 n v l2 : rep m (l1 ++ (n, v) :: l2) ->
  exists p p2, m !! m_head at_ = Some (Next p) /\ seg m p l1 (Some n) /\
    m !! item_at n = Some (Item v) /\ m !! next_at n = Some (Next p2) /\ seg m p2 l2 None.
Proof.
  intros [(p & Hp & Hl) _ _]. apply cells_seg_app in Hl as (p' & Hl1 & -> & Hv & p2 & Hp2 & Hl2). by exists p, p2.
Qed.

Lemma seg_delete m p l q n : (forall b, b ∈ cells l -> b <> item_at n /\ b <> next_at n) ->
  seg m p l q -> seg (delete_node (Some n) m) p l q.
Proof.
  intros Hb. apply cells_seg_frame. intros a Ha. destruct (Hb a Ha). simpl. by rewrite !lookup_delete_ne.
Qed.

Lemma seg_write m p l q b c : b ∉ cells l -> seg m p l q -> seg (<[b := c]> m) p l q.
Proof. intros Hb. apply cells_seg_frame. intros a Ha. apply lookup_insert_ne. by intros ->. Qed.

(** The rest of a list whose node was unlinked and deleted. *)
Lemma rep_unlinked m m' l1 n v l2 p : rep m (l1 ++ (n, v) :: l2) ->
  m' !! m_head at_ = Some (Next p) -> seg m' p (l1 ++ l2) None ->
  m' !! m_sz at_ = Some (Size (W64.wrap (W64.wrap (Z.of_nat (length (l1 ++ (n, v) :: l2))) - 1))) ->
  rep (delete_node (Some n) m') (l1 ++ l2).
Proof.
  intros [_ _ Hn] Hp Hs Hsz. destruct (of_list_middle _ _ _ _ Hn) as (Hn' & Hd & _).
  destruct (Hd (m_head at_) ltac:(by left)), (Hd (m_sz at_) ltac:(right; by left)). constructor; [| |done].
  - exists p. split; [simpl; by rewrite !lookup_delete_ne|]. apply seg_delete; [|done].
    intros b Hb. apply Hd. by do 2 right.
  - simpl. rewrite !lookup_delete_ne, Hsz by done. do 2 f_equal.
    rewrite length_app, Nat.add_comm. simpl. rewrite wrap_pred, length_app. do 2 f_equal. lia.
Qed.

Lemma last_node_snoc p l n v : last_node p (l ++ [(n, v)]) = Some n.
Proof. unfold last_node. by rewrite last_snoc. Qed.

Lemma seg_head_ne m p l1 n v l2 : NoDup (cells (l1 ++ (n, v) :: l2)) -> l1 <> [] ->
  seg m p l1 (Some n) -> Some n <> p.
Proof.
  rewrite cells_app. intros (_ & Hd & _)%NoDup_app Hne Hs. destruct l1 as [|[n1 v1] l1]; [done|].
  destruct Hs as [-> _]. intros [= ->]. apply (Hd (item_at n1)); left.
Qed.

Lemma run_remove fuel x m l : rep m l -> (length l <= fuel)%nat ->
  exists m' nd, Tx.run (remove_body fuel x) false m = Some (Val nd, mem_item x l, m') /\
    rep (delete_node nd m') (remove_first x l).
Proof.
  intros Hr Hlen. unfold remove_body, read_next at 1. cbn [Tx.run].
  destruct (split_first x l) as [Hf|(l1 & n & v & l2 & -> & Hf & Hv)].
  - destruct (none_equal x l Hf) as (Hm & _ & Hrem & _). pose proof Hr as [(p & Hp & Hl) _ _].
    rewrite Hp, (run_locate _ _ l None) by done. rewrite Hm, Hrem. exists m, None. by split.
  - destruct (first_equal x l1 n v l2 Hf Hv) as (Hm & _ & Hrem & _). rewrite Hm, Hrem.
    destruct (rep_middle _ _ _ _ _ Hr) as (p & p2 & Hp & Hl1 & Hi & Hp2 & Hl2).
    pose proof Hr as [_ Hsz Hn]. pose proof (of_list_ne _ Hn) as [Hhs Hcells].
    destruct (of_list_middle _ _ _ _ Hn) as (Hn' & Hd & Hne).
    destruct (Hd (m_head at_) ltac:(by left)), (Hd (m_sz at_) ltac:(right; by left)).
    assert (Hstop : stops m (Some n) x) by (intros ? [= <-]; by exists v).
    rewrite Hp, (run_locate _ _ l1 (Some n)); [|done|done|done|rewrite length_app in Hlen; lia].
    unfold read_size at 1. cbn [Tx.run]. rewrite Hsz. cbn [Tx.run].
    assert (Hc : NoDup (cells (l1 ++ (n, v) :: l2))) by (by apply NoDup_cons in Hn as [_ [_ Hn]%NoDup_cons]).
    assert (Hc' : NoDup (cells (l1 ++ l2))) by (by apply NoDup_cons in Hn' as [_ [_ Hn']%NoDup_cons]).
    pose proof Hl1 as Hl1'. destruct l1 as [|[n0 x0] l0 _] using rev_ind.
    + simpl in Hl1. subst p. rewrite bool_decide_false by tauto. unfold read_next. cbn [Tx.run].
      rewrite lookup_insert_ne, Hp by done. cbn [deref Tx.run]. rewrite lookup_insert_ne, Hp2 by done. cbn [Tx.run].
      eexists _, _. split; [reflexivity|]. apply (rep_unlinked m _ [] n v l2 p2); [done| | |].
      * apply lookup_insert_eq.
      * simpl. simpl in Hc'. apply seg_write; [intros Hb; by destruct (Hcells (m_head at_) ltac:(by do 2 right))|].
        apply seg_write; [intros Hb; by destruct (Hcells (m_sz at_) ltac:(by do 2 right))|done].
      * rewrite lookup_insert_ne by done. apply lookup_insert_eq.
    + rewrite bool_decide_true by (apply (seg_head_ne m p (l0 ++ [(n0, x0)]) n v l2); [done|by destruct l0|done]).
      unfold read_next. cbn [Tx.run]. rewrite lookup_insert_ne, Hp2 by done. rewrite last_node_snoc. cbn [deref Tx.run].
      assert (Hin : next_at n0 ∈ cells ((l0 ++ [(n0, x0)]) ++ l2))
        by (rewrite !cells_app, !elem_of_app; left; right; right; left).
      assert (Hin' : next_at n0 ∈ cells ((l0 ++ [(n0, x0)]) ++ (n, v) :: l2))
        by (rewrite !cells_app, !elem_of_app; left; right; right; left).
      destruct (Hcells _ Hin').
      eexists _, _. split; [reflexivity|]. apply (rep_unlinked m _ (l0 ++ [(n0, x0)]) n v l2 p); [done| | |].
      * by rewrite !lookup_insert_ne.
      * rewrite cells_app in Hc', Hcells. apply NoDup_app in Hc' as (Hc1 & Hc2 & Hc3). apply cells_seg_app. exists p2. split.
        -- apply (seg_relink _ _ _ _ _ (Some n)); [done|]. apply seg_write; [|done].
           intros Hb. by destruct (Hcells (m_sz at_) ltac:(apply elem_of_app; by left)).
        -- apply seg_write; [apply Hc2; rewrite cells_app, elem_of_app; right; right; left|].
           apply seg_write; [|done]. intros Hb.
           destruct (Hcells (m_sz at_) ltac:(apply elem_of_app; right; by do 2 right)). done.
      * rewrite lookup_insert_ne by done. apply lookup_insert_eq.
Qed.

Lemma run_contains fuel x lo m l : rep m l -> (length l <= fuel)%nat ->
  Tx.run (contains_body fuel x) lo m = Some (Val (mem_item x l), mem_item x l, m).
Proof.
  intros Hr Hlen. unfold contains_body, read_next at 1. cbn [Tx.run].
  destruct (split_first x l) as [Hf|(l1 & n & v & l2 & -> & Hf & Hv)].
  - destruct (none_equal x l Hf) as (-> & _). destruct Hr as [(p & Hp & Hl) _ _].
    by rewrite Hp, (run_find _ _ l None).
  - destruct (first_equal x l1 n v l2 Hf Hv) as (-> & _).
    destruct (rep_middle _ _ _ _ _ Hr) as (p & p2 & Hp & Hl1 & Hi & _). rewrite length_app in Hlen.
    rewrite Hp, (run_find _ _ l1 (Some n)); [done|done|done| |lia]. intros ? [= <-]. by exists v.
Qed.

Lemma run_get fuel x lo m l : rep m l -> (length l <= fuel)%nat ->
  Tx.run (get_body fuel x) lo m = Some (Val (find_item x l), lo, m).
Proof.
  intros Hr Hlen. unfold get_body, read_next at 1. cbn [Tx.run].
  destruct (split_first x l) as [Hf|(l1 & n & v & l2 & -> & Hf & Hv)].
  - destruct (none_equal x l Hf) as (_ & -> & _). destruct Hr as [(p & Hp & Hl) _ _].
    by rewrite Hp, (run_find _ _ l None).
  - destruct (first_equal x l1 n v l2 Hf Hv) as (_ & -> & _).
    destruct (rep_middle _ _ _ _ _ Hr) as (p & p2 & Hp & Hl1 & Hi & _). rewrite length_app in Hlen.
    rewrite Hp, (run_find _ _ l1 (Some n)); [|done|done| |lia]; [|intros ? [= <-]; by exists v].
    unfold read_item. cbn [Tx.run]. by rewrite Hi.
Qed.

Lemma run_update fuel x y n lo m l : rep m l -> (length l <= fuel)%nat ->
  NoDup (node_cells n ++ of_list l) ->
  exists m', Tx.run (update_body fuel x y n) lo m = Some (Val tt, lo, m') /\
    rep m' (update_items x y n l) /\ frame m m' l n.
Proof.
  intros Hr Hlen Hn. unfold update_body, read_next at 1. cbn [Tx.run].
  destruct (split_first x l) as [Hf|(l1 & n1 & v & l2 & -> & Hf & Hv)]; unfold update_items.
  - destruct (none_equal x l Hf) as (_ & _ & _ & ->). pose proof Hr as [(p & Hp & Hl) _ _].
    rewrite Hp, (run_find _ _ l None) by done. by apply run_add.
  - destruct (first_equal x l1 n1 v l2 Hf Hv) as (_ & _ & _ & ->).
    pose proof Hr as [(p & Hp & Hl) Hsz Hnd]. pose proof (of_list_ne _ Hnd) as [_ Hcells].
    assert (Hc : NoDup (cells (l1 ++ (n1, v) :: l2))) by (by apply NoDup_cons in Hnd as [_ [_ Hnd]%NoDup_cons]).
    assert (Hin : item_at n1 ∈ cells (l1 ++ (n1, v) :: l2)) by (rewrite cells_app, elem_of_app; right; left).
    destruct (Hcells _ Hin). rewrite length_app in Hlen. pose proof Hl as (p' & Hl1 & Hl2)%cells_seg_app.
    assert (Hp' : p' = Some n1) by apply Hl2. subst p'.
    rewrite Hp, (run_find _ _ l1 (Some n1)); [|done|done| |lia].
    2: { intros ? [= <-]. exists v. split; [apply Hl2|done]. }
    eexists. split; [reflexivity|]. simpl. split.
    + constructor.
      * exists p. split; [by rewrite lookup_insert_ne|]. rewrite cells_app in Hc.
        apply NoDup_app in Hc as (Hc1 & Hc2 & Hc3). apply cells_seg_app. exists (Some n1). split.
        -- apply seg_write; [|done]. intros Hb. apply (Hc2 _ Hb). left.
        -- by apply (seg_set_item _ _ _ _ v).
      * rewrite lookup_insert_ne, Hsz by done. simpl. by rewrite !length_app.
      * unfold of_list in *. by rewrite cells_app in Hnd |- *.
    + intros b (_ & _ & Hb)%not_of_list _. apply lookup_insert_ne. by intros <-.
Qed.

(** [C23] The linked list is a list of items with the newest first.  From a
    memory that represents the list [l], with fuel for its length: [add] of a
    fresh node puts the item in front; [remove], and then [delete] of the node
    it returned, takes out the first item equal to its argument and tells
    whether there was one; [contains], [get] and [size] answer for [l] and
    change nothing; [update] replaces the first equal item in place, or adds. *)
Theorem linked_list_refines fuel (x y : T) (n : node) lo m l :
  rep m l -> (length l <= fuel)%nat -> NoDup (node_cells n ++ of_list l) ->
  (exists m', Tx.run (add_body n x) lo m = Some (Val tt, lo, m') /\ rep m' ((n, x) :: l)) /\
  (exists m' nd, Tx.run (remove_body fuel x) false m = Some (Val nd, mem_item x l, m') /\
     rep (delete_node nd m') (remove_first x l)) /\
  Tx.run (contains_body fuel x) lo m = Some (Val (mem_item x l), mem_item x l, m) /\
  Tx.run (get_body fuel x) lo m = Some (Val (find_item x l), lo, m) /\
  (exists m', Tx.run (update_body fuel x y n) lo m = Some (Val tt, lo, m') /\ rep m' (update_items x y n l)) /\
  Tx.run size_body lo m = Some (Val (W64.wrap (Z.of_nat (length l))), lo, m).
Proof.
  intros Hr Hf Hn. split; [|split; [by apply run_remove|split; [by apply run_contains|split; [by apply run_get|split]]]].
  - destruct (run_add n x tt lo m l Hr Hn) as (m' & ? & ? & _). by exists m'.
  - destruct (run_update fuel x y n lo m l Hr Hf Hn) as (m' & ? & ? & _). by exists m'.
  - unfold size_body, read_size. cbn [Tx.run]. by rewrite (rep_size _ _ Hr).
Qed.
End List.

(** ** A witness: the list of 5 *)

Definition fields : list_at := ListAt 10 18.
Definition five : list (node * Z) := [(Node 30 38, 5)].
Definition of_five : gmap addr_t (cell Z) :=
  <[10 := Next (Some (Node 30 38))]> (<[18 := Size 1]> (<[30 := Item 5]> {[ 38 := Next None ]})).

Lemma rep_five : rep fields of_five five.
Proof.
  constructor; [exists (Some (Node 30 38)); split; [done|]|done|apply (bool_decide_unpack _); by vm_compute].
  split; [done|]. split; [done|]. by exists None.
Qed.

Lemma linked_list_refines_witness :
  rep fields of_five five /\
  Tx.run (contains_body Z.eqb fields 1 5) false of_five = Some (Val true, true, of_five).
Proof.
  split; [exact rep_five|].
  refine (proj1 (proj2 (proj2 (linked_list_refines Z.eqb fields 1 5 6 (Node 50 58) false of_five five rep_five _ _)))).
  - simpl; lia.
  - apply (bool_decide_unpack _); by vm_compute.
Defined.
End LinkedList.
