(* ===== verification/ListObject.v ===== *)
(** * The linked list under threads

    [zoo/linked_list.h] as an object of [Linearize]: calls of [add], [contains],
    [get], [update] and [size] by any threads, with a new node for each call that
    may add one; then the calls are those on a list of items, in any
    interleaving.  [remove] is left out: it deletes the node it unlinked, so a
    call that still runs can read freed memory ([reader_of_deleted]). *)

From S2P Require Import Prelude VersionLock LockTable Store Op LocSets Log Tx State LockGuard Machine History MachineInv Serializability Order Linearize Programs LinkedList.
Import LinkedList.

Module ListObject.

Lemma list_find_no_std {T A} (eqb : T -> T -> bool) f curr x (k : pointer -> tx (cell T) bool A) :
  (forall c, no_std (k c)) -> no_std (find_from eqb f curr x k).
Proof.
  intros Hk. revert curr. induction f as [|f IH]; intros [c|]; cbn [find_from]; try apply Hk;
    intros [v| |]; try done; (destruct (eqb v x); [apply Hk|]); [done|]. intros [|p|]; try done.
Qed.

Section Object.
Context {T : Type} (eqb : T -> T -> bool) (at_ : list_at) (fuel : nat).
Implicit Types (m : gmap addr_t (cell T)) (l : list (node * T)).

Inductive op := Add (n : node) (x : T) | Contains (x : T) | GetItem (x : T) | Update (x y : T) (n : node) | GetSize.
Inductive answer := Done | Found (b : bool) | Value (x : option T) | Count (n : Z).

(** The call of a method, its value as an [answer]. *)
Definition answering {B} (f : B -> answer) (tr : txn (cell T) bool B) : txn (cell T) bool answer :=
  Txn (prepare tr) (Tx.bind (body tr) (fun b => Ret (f b))) (restore tr).

Definition call (o : op) : txn (cell T) bool answer :=
  match o with
  | Add n x => answering (fun _ => Done) (add at_ n x)
  | Contains x => answering Found (contains eqb at_ fuel x)
  | GetItem x => answering Value (get eqb at_ fuel x)
  | Update x y n => answering (fun _ => Done) (update eqb at_ fuel x y n)
  | GetSize => answering Count (size at_)
  end.

Definition apply (o : op) l : answer * list (node * T) :=
  match o with
  | Add n x => (Done, (n, x) :: l)
  | Contains x => (Found (mem_item eqb x l), l)
  | GetItem x => (Value (find_item eqb x l), l)
  | Update x y n => (Done, update_items eqb x y n l)
  | GetSize => (Count (W64.wrap (Z.of_nat (length l))), l)
  end.

Definition new_of (o : op) : option node := match o with Add n _ | Update _ _ n => Some n | _ => None end.

(** A node outside the list, and enough turns of the loops. *)
Definition ready (o : op) l : Prop :=
  (length l <= fuel)%nat /\
  forall n, new_of o = Some n -> NoDup (node_cells n) /\ forall a, a ∈ node_cells n -> a ∉ of_list at_ l.

#[export] Instance list_object : TxObject (cell T) bool answer op (list (node * T)) := {
  ob_call := call;
  ob_init _ _ := True;
  ob_rep m l := rep at_ m l;
  ob_apply := apply }.

#[export] Instance list_laws : TxGuardedLaws (cell T) bool answer op (list (node * T)) ready.
Proof.
  constructor; [done|done|]. intros o lo m l _ Hr [Hf Hnew]. change (rep at_ m l) in Hr.
  assert (Hn : forall n, new_of o = Some n -> NoDup (node_cells n ++ of_list at_ l)).
  { intros n E. destruct (Hnew n E). apply NoDup_app. split; [done|]. split; [done|]. apply Hr. }
  destruct o as [n x|x|x|x y n|]; cbn [ob_call ob_apply list_object call apply answering body]; rewrite Tx.run_bind.
  - destruct (run_add at_ n x tt lo m l Hr (Hn n eq_refl)) as (m' & E & Hr' & _). unfold add, add_body. cbn [body].
    rewrite E. by eexists _, m'.
  - unfold contains. cbn [body]. rewrite (run_contains eqb at_ fuel x lo m l Hr Hf). by eexists _, m.
  - unfold get. cbn [body]. rewrite (run_get eqb at_ fuel x lo m l Hr Hf). by eexists _, m.
  - destruct (run_update eqb at_ fuel x y n lo m l Hr Hf (Hn n eq_refl)) as (m' & E & Hr' & _). unfold update. cbn [body].
    rewrite E. by eexists _, m'.
  - unfold size, size_body, read_size. cbn [body Tx.run]. rewrite (rep_size _ _ _ Hr). by eexists _, m.
Qed.

Lemma list_no_std o : no_std (body (ob_call o)).
Proof.
  destruct o as [n x|x|x|x y n|]; apply bind_no_std; try done.
  - intros [|h|]; try done. by intros [].
  - intros [|p|]; try done. by apply list_find_no_std.
  - intros [|p|]; try done. apply list_find_no_std. intros [c|]; [|done]. by intros [].
  - intros [|p|]; try done. apply list_find_no_std. intros [c|]; [done|]. intros [|h|]; try done. by intros [].
  - by intros [].
Qed.

(** ** Interleavings of programs *)

Definition nodes_of (ops : list op) : list node := omap new_of ops.

(** Every call that may add an item has a node of its own, outside the list. *)
Record fit_ops (ops : list op) l : Prop := {
  fit_nodes : NoDup (nodes_of ops ≫= node_cells);
  fit_new : forall a, a ∈ nodes_of ops ≫= node_cells -> a ∉ of_list at_ l;
  fit_fuel : (length l + length (nodes_of ops) <= fuel)%nat }.

Lemma list_fit_sub ops ops' l : ops' ⊆+ ops -> fit_ops ops l -> fit_ops ops' l.
Proof.
  intros Hsub [Hd Hn Hf]. assert (Hnodes : nodes_of ops' ⊆+ nodes_of ops) by by apply omap_submseteq_mono.
  pose proof Hnodes as [r Hr]%submseteq_Permutation.
  assert (Hcells : nodes_of ops' ≫= node_cells ⊆+ nodes_of ops ≫= node_cells)
    by (rewrite Hr, bind_app; by apply submseteq_inserts_r).
  constructor; [by eapply NoDup_submultiset| |apply submseteq_length in Hnodes; lia].
  intros a Ha. apply Hn. by eapply elem_of_submseteq.
Qed.

Lemma of_list_apply o l a : a ∈ of_list at_ (ob_apply o l).2 ->
  a ∈ of_list at_ l \/ exists n, new_of o = Some n /\ a ∈ node_cells n.
Proof.
  unfold of_list. destruct o as [n x|x|x|x y n|]; cbn [ob_apply list_object apply snd]; try (by left);
    rewrite !elem_of_cons; (intros [Ha|[Ha|Ha]]; [left; by left|left; right; by left|]).
  - change (cells ((n, x) :: l)) with (node_cells n ++ cells l) in Ha. apply elem_of_app in Ha as [Ha|Ha];
      [right; by exists n|left; by do 2 right].
  - apply update_items_cells in Ha as [Ha|Ha]; [right; by exists n|left; by do 2 right].
Qed.

Lemma list_admissible ops l : fit_ops ops l -> admissible ready ops l.
Proof.
  revert l. induction ops as [|o ops IH]; intros l [Hd Hn Hf]; [done|].
  assert (Hnodes : nodes_of (o :: ops) = match new_of o with Some n => [n] | None => [] end ++ nodes_of ops)
    by (unfold nodes_of; simpl; by destruct (new_of o)).
  rewrite Hnodes, bind_app in Hd, Hn. rewrite Hnodes, length_app in Hf. apply NoDup_app in Hd as (Hd1 & Hdis & Hd).
  split.
  - split; [lia|]. intros n E. rewrite E in *. simpl in Hd1. split; [done|]. intros a Ha. apply Hn.
    apply elem_of_app. left. exact Ha.
  - apply IH. constructor; [done| |].
    + intros a Ha Hin. apply of_list_apply in Hin as [Hin|(n & E & Hin)].
      * apply (Hn a); [|done]. apply elem_of_app. by right.
      * apply (Hdis a); [|done]. rewrite E. exact Hin.
    + pose proof (update_items_length eqb) as Hlen.
      destruct o as [n x|x|x|x y n|]; simpl in *; try lia. specialize (Hlen x y n l). lia.
Qed.

Section Threads.
Context {LS : Type} `{LocationSetLaws LS}.

(** The linked list is a list under threads that do not remove. *)
Lemma linked_list_linearizable (is_trivial : addr_t -> bool) (m0 : gmap addr_t (cell T))
  (progs : gmap tid_t (list op * bool)) n evs s l :
  rep at_ m0 l -> fit_ops (all_ops progs) l ->
  Machine.steps (LS := LS) is_trivial n (Machine.init m0 (calls <$> progs)) evs s -> Z.of_nat n < 2 ^ 63 ->
  exists sched order, interleaves progs sched /\ seen progs sched l s /\
    order ≡ₚ evs /\ StronglySorted (fun e1 e2 => e_wv e1 < e_wv e2) order /\ Forall2 commits_at sched order.
Proof.
  intros Hr Hfit Hs Hn. apply (programs_run is_trivial m0 progs n evs s list_no_std Hs Hn l Hr).
  intros sched Hil. apply list_admissible. eapply list_fit_sub; [exact (interleaves_all _ _ Hil)|done].
Qed.
End Threads.
End Object.
End ListObject.
