(* ===== verification/HashMap.v ===== *)
(** * The hash map of [zoo/hash_map.h]

    1024 linked lists of pairs of a key and an item, compared by their keys; a
    key is looked for in the list numbered by its hash.  [m_hash] is a parameter,
    and [==] of keys is their equality. *)

From S2P Require Import Prelude Tx Machine LinkedList.
Import LinkedList.

Module HashMap.

Definition HASH_MOD : Z := 1024.

Section HashMap.
Context {KeyT ItemT : Type} `{EqDecision KeyT} (default_item : ItemT) (m_hash : KeyT -> Z).
Context (buckets : Z -> list_at).
Context (buckets_inj : forall i j, m_head (buckets i) <> m_sz (buckets j) /\
  (i <> j -> m_head (buckets i) <> m_head (buckets j) /\ m_sz (buckets i) <> m_sz (buckets j))).

Record LLNode := LL { m_key : KeyT; item : ItemT }.

(** [operator==]. *)
Definition ll_eqb (a b : LLNode) : bool := bool_decide (m_key a = m_key b).

Definition index (key : KeyT) : Z := m_hash key mod HASH_MOD.

Abbreviation body_t A := (tx (cell LLNode) bool A).

Definition contains_body (fuel : nat) (key : KeyT) : body_t bool :=
  Tx.bind (get_body ll_eqb (buckets (index key)) fuel (LL key default_item)) (fun entry =>
    match entry with Some _ => Ret true | None => Ret false end).

Definition get_body (fuel : nat) (key : KeyT) : body_t (option ItemT) :=
  Tx.bind (get_body ll_eqb (buckets (index key)) fuel (LL key default_item)) (fun entry =>
    match entry with Some e => Ret (Some (item e)) | None => Ret None end).

Definition set_body (fuel : nat) (key : KeyT) (x : ItemT) (n : node) : body_t unit :=
  update_body ll_eqb (buckets (index key)) fuel (LL key default_item) (LL key x) n.

(** The constructor: every list is empty. *)
Definition empty_map (m : gmap addr_t (cell LLNode)) : gmap addr_t (cell LLNode) :=
  foldr (fun i m => <[m_head (buckets i) := Next None]> (<[m_sz (buckets i) := Size 0]> m)) m (seqZ 0 HASH_MOD).

(** ** What it represents *)

Implicit Types (m : gmap addr_t (cell LLNode)) (b : Z -> list (node * LLNode)).

Definition lookup_key b (key : KeyT) : option ItemT :=
  item <$> find_item ll_eqb (LL key default_item) (b (index key)).

Record rep m b : Prop := {
  rep_bucket i : 0 <= i < HASH_MOD -> LinkedList.rep (buckets i) m (b i);
  rep_disjoint i j x : 0 <= i < HASH_MOD -> 0 <= j < HASH_MOD -> i <> j ->
    x ∈ of_list (buckets i) (b i) -> x ∉ of_list (buckets j) (b j) }.

(** A node that no list uses. *)
Definition fresh (n : node) b : Prop := forall i, 0 <= i < HASH_MOD -> NoDup (node_cells n ++ of_list (buckets i) (b i)).

Lemma index_range key : 0 <= index key < HASH_MOD.
Proof. apply Z.mod_pos_bound. done. Qed.

Lemma rep_frame at_ m m' (l : list (node * LLNode)) :
  (forall a, a ∈ of_list at_ l -> m' !! a = m !! a) -> LinkedList.rep at_ m l -> LinkedList.rep at_ m' l.
Proof.
  intros Hf [(p & Hp & Hl) Hs Hn]. constructor; [|by rewrite Hf by (right; left)|done].
  exists p. split; [by rewrite Hf by left|]. eapply cells_seg_frame; [|exact Hl]. intros a Ha. apply Hf. by do 2 right.
Qed.

(** Updating the pair of one key changes the item of that key only. *)
Lemma find_update key x n key' l :
  item <$> find_item ll_eqb (LL key' default_item) (update_items ll_eqb (LL key default_item) (LL key x) n l) =
    if decide (key' = key) then Some x else item <$> find_item ll_eqb (LL key' default_item) l.
Proof.
  unfold update_items, find_item.
  destruct (split_first ll_eqb (LL key default_item) l) as [Hf|(l1 & n1 & v & l2 & -> & Hf & Hv)].
  - destruct (none_equal ll_eqb _ l Hf) as (_ & Hnone & _ & ->). unfold ll_eqb at 1. simpl.
    destruct (decide (key' = key)) as [->|Hne]; [by rewrite bool_decide_true|by rewrite bool_decide_false by done].
  - destruct (first_equal ll_eqb _ l1 n1 v l2 Hf Hv) as (_ & _ & _ & ->). simpl.
    apply bool_decide_eq_true in Hv. simpl in Hv. induction Hf as [|[n2 v2] l1 Hx Hf IH]; simpl.
    + unfold ll_eqb. simpl. rewrite Hv. destruct (decide (key' = key)) as [->|Hne]; [by rewrite bool_decide_true|].
      by rewrite !bool_decide_false.
    + apply bool_decide_eq_false in Hx. simpl in Hx. unfold ll_eqb at 1 3. simpl.
      destruct (decide (m_key v2 = key')) as [E|E].
      * rewrite !bool_decide_true by done. rewrite decide_False by congruence. done.
      * rewrite !bool_decide_false by done. exact IH.
Qed.

Lemma run_get_key fuel key lo m b : rep m b -> (length (b (index key)) <= fuel)%nat ->
  Tx.run (get_body fuel key) lo m = Some (Val (lookup_key b key), lo, m) /\
  Tx.run (contains_body fuel key) lo m = Some (Val (bool_decide (is_Some (lookup_key b key))), lo, m).
Proof.
  intros Hr Hf. unfold get_body, contains_body. rewrite !Tx.run_bind.
  rewrite (run_get _ _ fuel _ lo m (b (index key))) by (done || apply Hr, index_range).
  unfold lookup_key. by destruct (find_item _ _ _).
Qed.

Lemma run_set fuel key x n lo m b : rep m b -> fresh n b -> (length (b (index key)) <= fuel)%nat ->
  exists m' b', Tx.run (set_body fuel key x n) lo m = Some (Val tt, lo, m') /\ rep m' b' /\
    (forall i, length (b' i) <= S (length (b i)))%nat /\
    (forall key', lookup_key b' key' = if decide (key' = key) then Some x else lookup_key b key') /\
    forall n', fresh n' b -> (forall a, a ∈ node_cells n -> a ∉ node_cells n') -> fresh n' b'.
Proof.
  intros Hr Hn Hf. set (i := index key). pose proof (index_range key : 0 <= i < HASH_MOD) as Hi.
  destruct (run_update ll_eqb (buckets i) fuel (LL key default_item) (LL key x) n lo m (b i))
    as (m' & Hrun & Hr' & Hfr); [by apply Hr|done|by apply Hn|].
  set (b' := fun j => if decide (j = i) then update_items ll_eqb (LL key default_item) (LL key x) n (b i) else b j).
  exists m', b'. split; [exact Hrun|].
  assert (Hb' : forall j a, a ∈ of_list (buckets j) (b' j) ->
    a ∈ of_list (buckets j) (b j) \/ (a ∈ node_cells n /\ j = i)).
  { intros j a. unfold b'. destruct (decide (j = i)) as [->|]; [|by left]. unfold of_list. rewrite !elem_of_cons.
    intros [Ha|[Ha|Ha]]; [left; by left|left; right; by left|].
    apply update_items_cells in Ha as [Ha|Ha]; [by right|left; by do 2 right]. }
  assert (Hnew : forall j a, 0 <= j < HASH_MOD -> a ∈ node_cells n -> a ∉ of_list (buckets j) (b j)).
  { intros j a Hj Ha. specialize (Hn j Hj). apply NoDup_app in Hn as (_ & Hd & _). by apply Hd. }
  assert (Hrep : rep m' b').
  { constructor.
    + intros j Hj. unfold b'. destruct (decide (j = i)) as [->|Hne]; [exact Hr'|].
      apply (rep_frame _ m); [|by apply Hr]. intros a Ha. apply Hfr; [by eapply (rep_disjoint _ _ Hr j i)|].
      intros Hin. by apply (Hnew j a).
    + intros j1 j2 a Hj1 Hj2 Hne Ha1 Ha2. apply Hb' in Ha1 as [Ha1|[Ha1 ->]], Ha2 as [Ha2|[Ha2 ->]]; try done.
      * by apply (rep_disjoint _ _ Hr j1 j2 a).
      * by apply (Hnew j1 a).
      * by apply (Hnew j2 a). }
  split; [exact Hrep|]. split; [|split].
  - intros j. unfold b'. destruct (decide (j = i)) as [->|]; [|lia].
    apply update_items_length.
  - intros key'. unfold lookup_key at 1, b'. destruct (decide (index key' = i)) as [Ei|Ei].
    + rewrite find_update. destruct (decide (key' = key)); [done|]. unfold lookup_key. by rewrite Ei.
    + rewrite decide_False by (intros ->; done). done.
  - intros n' Hn' Hd j Hj. specialize (Hn' j Hj). apply NoDup_app in Hn' as (Hn1 & Hn2 & _).
    apply NoDup_app. split; [done|]. split; [|by apply Hrep].
    intros a Ha Ha'. apply Hb' in Ha' as [Ha'|[Ha' _]]; [by apply (Hn2 a)|by apply (Hd a)].
Qed.

(** The map after the constructor. *)
Lemma rep_empty_map m : rep (empty_map m) (fun _ => []).
Proof.
  assert (Hm : forall i, 0 <= i < HASH_MOD ->
    empty_map m !! m_head (buckets i) = Some (Next None) /\ empty_map m !! m_sz (buckets i) = Some (Size 0)).
  { intros i Hi. unfold empty_map. apply (elem_of_seqZ 0 HASH_MOD i) in Hi. revert Hi.
    induction (seqZ 0 HASH_MOD) as [|j js IH]; [by intros ?%elem_of_nil|]. intros Hin. simpl.
    destruct (decide (i = j)) as [->|Hne].
    - split; [apply lookup_insert_eq|]. rewrite lookup_insert_ne by apply buckets_inj. apply lookup_insert_eq.
    - apply elem_of_cons in Hin as [Hin|Hin]; [done|]. destruct (buckets_inj j i) as [_ Hd]. destruct (Hd ltac:(done)).
      destruct (buckets_inj j i) as [H1 _], (buckets_inj i j) as [H2 _].
      rewrite !(lookup_insert_ne _ (m_head (buckets j))), !(lookup_insert_ne _ (m_sz (buckets j))) by done. by apply IH. }
  constructor.
  - intros i Hi. destruct (Hm i Hi). constructor; [by exists None|done|].
    apply NoDup_cons. split; [|apply NoDup_singleton]. intros Hin%list_elem_of_singleton. by apply (proj1 (buckets_inj i i)).
  - intros i j x Hi Hj Hne. unfold of_list, cells. simpl. rewrite !elem_of_cons.
    destruct (buckets_inj i j) as [H1 H2], (buckets_inj j i) as [H3 _]. destruct (H2 Hne).
    intros [->|[->|[]%elem_of_nil]] [E|[E|[]%elem_of_nil]]; done.
Qed.

(** [C25] The hash map is a map.  From a memory that represents the lists [b],
    [get] and [contains] answer for the map [lookup_key b] and change nothing,
    and a [set] followed by a [get], for any two keys that collide or not, gives
    the new item for the key set and the old one for every other. *)
Theorem hash_map_roundtrip fuel key x n key' lo m b :
  rep m b -> fresh n b -> (forall i, length (b i) < fuel)%nat ->
  Tx.run (get_body fuel key) lo m = Some (Val (lookup_key b key), lo, m) /\
  Tx.run (contains_body fuel key) lo m = Some (Val (bool_decide (is_Some (lookup_key b key))), lo, m) /\
  exists m', Tx.run (Tx.bind (set_body fuel key x n) (fun _ => get_body fuel key')) lo m =
    Some (Val (if decide (key' = key) then Some x else lookup_key b key'), lo, m').
Proof.
  intros Hr Hn Hf. pose proof (Hf (index key)) as Hk.
  destruct (run_get_key fuel key lo m b Hr ltac:(lia)) as [Hg Hc]. split; [exact Hg|]. split; [exact Hc|].
  destruct (run_set fuel key x n lo m b Hr Hn ltac:(lia)) as (m' & b' & Hrun & Hr' & Hl & Hlook & _).
  exists m'. rewrite Tx.run_bind, Hrun. specialize (Hl (index key')). specialize (Hf (index key')).
  rewrite (proj1 (run_get_key fuel key' lo m' b' Hr' ltac:(lia))). by rewrite Hlook.
Qed.
End HashMap.

(** ** A witness: two keys of one bucket, on the empty map *)

Definition buckets_at (i : Z) : list_at := ListAt (16 * i) (16 * i + 8).

Lemma buckets_at_inj i j : m_head (buckets_at i) <> m_sz (buckets_at j) /\
  (i <> j -> m_head (buckets_at i) <> m_head (buckets_at j) /\ m_sz (buckets_at i) <> m_sz (buckets_at j)).
Proof. simpl. lia. Qed.

Lemma hash_map_roundtrip_witness :
  exists m', Tx.run (Tx.bind (set_body 0 id buckets_at 1 7 70 (Node 20000 20008))
      (fun _ => get_body (ItemT := Z) 0 id buckets_at 1 (7 + 1024))) false (empty_map buckets_at ∅) =
    Some (Val None, false, m').
Proof.
  refine (proj2 (proj2 (hash_map_roundtrip 0 id buckets_at 1 7 70 (Node 20000 20008) (7 + 1024) false
    (empty_map buckets_at ∅) (fun _ => []) (rep_empty_map buckets_at buckets_at_inj ∅) _ _))).
  - intros i [H1 H2]. unfold HASH_MOD in H2. repeat (apply NoDup_cons; split; [|]); try apply NoDup_nil_2;
      unfold of_list; simpl; rewrite ?elem_of_cons, ?elem_of_nil; lia.
  - intros i. simpl. lia.
Defined.
End HashMap.
