(* ===== verification/HashObject.v ===== *)
(** * The hash map under threads

    [zoo/hash_map.h] as an object of [Linearize]: calls of [contains], [get] and
    [set] by any threads, each a call of [atomically] of the linked list of the
    key's bucket.  Each call of [set] has a node of its own; then the calls are
    those on a finite map, in any interleaving. *)

From S2P Require Import Prelude VersionLock LockTable Store Op LocSets Log Tx State LockGuard Machine History MachineInv Serializability Order Linearize Programs LinkedList ListObject HashMap.
Import LinkedList HashMap.

Module HashObject.
Section Object.
Context {KeyT ItemT : Type} `{Countable KeyT} (default_item : ItemT) (m_hash : KeyT -> Z).
Context (buckets : Z -> list_at) (fuel : nat).
Abbreviation cells_t := (cell (LLNode (KeyT := KeyT) (ItemT := ItemT))).
Implicit Types (m : gmap addr_t cells_t).

Inductive op := Contains (key : KeyT) | Get (key : KeyT) | Set_ (key : KeyT) (x : ItemT) (n : node).
Inductive answer := Found (b : bool) | Value (x : option ItemT) | Done.

Definition call (o : op) : txn cells_t bool answer :=
  Txn id
    match o with
    | Contains key => Tx.bind (contains_body default_item m_hash buckets fuel key) (fun b => Ret (Found b))
    | Get key => Tx.bind (get_body default_item m_hash buckets fuel key) (fun x => Ret (Value x))
    | Set_ key x n => Tx.bind (set_body default_item m_hash buckets fuel key x n) (fun _ => Ret Done)
    end
    (fun _ now => now).

(** The map, the nodes not used yet and the number of calls of [set] so far. *)
Record map_state := MapState { entries : gmap KeyT ItemT; spare : list node; sets : nat }.

Definition apart (n n' : node) : Prop := forall a, a ∈ node_cells n -> a ∉ node_cells n'.
#[local] Instance apart_dec n n' : Decision (apart n n').
Proof. refine (cast_if (decide (Forall (fun a => a ∉ node_cells n') (node_cells n)))); unfold apart; by rewrite <- Forall_forall. Defined.

Definition apply (o : op) (s : map_state) : answer * map_state :=
  match o with
  | Contains key => (Found (bool_decide (is_Some (entries s !! key))), s)
  | Get key => (Value (entries s !! key), s)
  | Set_ key x n => (Done, MapState (<[key := x]> (entries s)) (filter (apart n) (spare s)) (S (sets s)))
  end.

Definition ready (o : op) (s : map_state) : Prop :=
  (sets s <= fuel)%nat /\ match o with Set_ _ _ n => n ∈ spare s | _ => True end.

Definition object_rep m (s : map_state) : Prop :=
  exists b, rep buckets m b /\ (forall key, lookup_key default_item m_hash b key = entries s !! key) /\
    (forall n, n ∈ spare s -> fresh buckets n b) /\ forall i, (length (b i) <= sets s)%nat.

#[export] Instance hash_object : TxObject cells_t bool answer op map_state := {
  ob_call := call;
  ob_init _ _ := True;
  ob_rep := object_rep;
  ob_apply := apply }.

#[export] Instance hash_laws : TxGuardedLaws cells_t bool answer op map_state ready.
Proof.
  constructor; [done|done|]. intros o lo m s _ (b & Hr & Hl & Hsp & Hb) [Hf Hn].
  assert (Hlen : forall key, (length (b (index m_hash key)) <= fuel)%nat) by (intros key; specialize (Hb (index m_hash key)); lia).
  destruct o as [key|key|key x n]; cbn [ob_call ob_apply hash_object call apply body];
    rewrite Tx.run_bind.
  - rewrite (proj2 (run_get_key default_item m_hash buckets fuel key lo m b Hr (Hlen key))), Hl.
    eexists _, _. split; [reflexivity|]. by exists b.
  - rewrite (proj1 (run_get_key default_item m_hash buckets fuel key lo m b Hr (Hlen key))), Hl.
    eexists _, _. split; [reflexivity|]. by exists b.
  - destruct (run_set default_item m_hash buckets fuel key x n lo m b Hr (Hsp n Hn) (Hlen key))
      as (m' & b' & -> & Hr' & Hlen' & Hl' & Hfr).
    eexists _, _. split; [reflexivity|]. exists b'. split; [done|]. split; [|split].
    + intros key'. rewrite Hl', Hl. simpl. destruct (decide (key' = key)) as [->|Hne]; [by rewrite lookup_insert_eq|].
      by rewrite lookup_insert_ne.
    + intros n' [Ha Hin]%list_elem_of_filter. by apply Hfr; [apply Hsp|].
    + intros i. specialize (Hlen' i). specialize (Hb i). simpl. lia.
Qed.

(** ** No exception reaches the caller *)

Lemma get_no_std key : no_std (get_body default_item m_hash buckets fuel key).
Proof.
  apply bind_no_std; [|by intros []]. intros [|p|]; try done. apply ListObject.list_find_no_std.
  intros [c|]; [|done]. by intros [].
Qed.

Lemma set_no_std key x n : no_std (set_body default_item m_hash buckets fuel key x n).
Proof.
  intros [|p|]; try done. apply ListObject.list_find_no_std. intros [c|]; [done|]. intros [|h|]; try done. by intros [].
Qed.

Lemma hash_no_std o : no_std (body (ob_call o)).
Proof.
  destruct o as [key|key|key x n]; apply bind_no_std; try done; [|apply get_no_std|apply set_no_std].
  apply bind_no_std; [|by intros []]. intros [|p|]; try done. apply ListObject.list_find_no_std.
  intros [c|]; [|done]. by intros [].
Qed.

(** ** Interleavings of programs *)

Definition new_of (o : op) : option node := match o with Set_ _ _ n => Some n | _ => None end.
Definition nodes_of (ops : list op) : list node := omap new_of ops.

(** Every call of [set] has a node of its own among the spare ones; the loops
    have a turn for each. *)
Record fit_ops (ops : list op) (s : map_state) : Prop := {
  fit_nodes : NoDup (nodes_of ops ≫= node_cells);
  fit_spare : forall n, n ∈ nodes_of ops -> n ∈ spare s;
  fit_fuel : (sets s + length (nodes_of ops) <= fuel)%nat }.

Lemma hash_fit_sub ops ops' s : ops' ⊆+ ops -> fit_ops ops s -> fit_ops ops' s.
Proof.
  intros Hsub [Hd Hs Hf]. assert (Hn : nodes_of ops' ⊆+ nodes_of ops) by by apply omap_submseteq_mono.
  constructor.
  - eapply NoDup_submultiset; [|exact Hd]. apply submseteq_Permutation in Hn as [r ->]. rewrite bind_app.
    by apply submseteq_inserts_r.
  - intros n Hin. apply Hs. by eapply elem_of_submseteq.
  - apply submseteq_length in Hn. lia.
Qed.

Lemma hash_admissible ops s : fit_ops ops s -> admissible ready ops s.
Proof.
  revert s. induction ops as [|o ops IH]; intros s [Hd Hs Hf]; [done|]. split.
  - split; [lia|]. destruct o as [key|key|key x n]; try done. apply Hs. by left.
  - apply IH. unfold nodes_of in *. cbn [ob_apply hash_object].
    destruct o as [key|key|key x n]; simpl in *; [by constructor|by constructor|].
    apply NoDup_cons in Hd as [H1 Hd]. apply NoDup_cons in Hd as [H2 Hd]. constructor; simpl; [done| |].
    + intros n' Hn'. apply list_elem_of_filter. split; [|apply Hs; by right].
      assert (Hc : forall a, a ∈ node_cells n' -> a ∈ list_omap op node new_of ops ≫= node_cells)
        by (intros a Ha; apply list_elem_of_bind; by exists n').
      intros a Ha Ha'. specialize (Hc a Ha'). set_solver.
    + change (nodes_of ops) with (list_omap op node new_of ops). lia.
Qed.

Section Threads.
Context {LS : Type} `{LocationSetLaws LS}.

(** The hash map is a map under threads.  Let threads run any programs of
    [contains], [get] and [set], with a new node for each [set].  In any
    interleaving of their steps, every result is that of a finite map in one
    sequence of the calls, in which each thread's calls are in program order, and
    when no commit is half done the buckets hold the pairs of the map. *)
Lemma hash_map_linearizable (is_trivial : addr_t -> bool) (m0 : gmap addr_t cells_t)
  (progs : gmap tid_t (list op * bool)) n evs s (s0 : map_state) :
  object_rep m0 s0 -> fit_ops (all_ops progs) s0 ->
  Machine.steps (LS := LS) is_trivial n (Machine.init m0 (calls <$> progs)) evs s -> Z.of_nat n < 2 ^ 63 ->
  exists sched order, interleaves progs sched /\ seen progs sched s0 s /\
    order ≡ₚ evs /\ StronglySorted (fun e1 e2 => e_wv e1 < e_wv e2) order /\ Forall2 commits_at sched order.
Proof.
  intros Hr Hfit Hs Hn. apply (programs_run is_trivial m0 progs n evs s hash_no_std Hs Hn s0 Hr).
  intros sched Hil. apply hash_admissible. eapply hash_fit_sub; [exact (interleaves_all _ _ Hil)|done].
Qed.
End Threads.
End Object.
End HashObject.
