(* ===== verification/ObjectTests.v ===== *)
(** * The tests of the data structures

    [zoo/ordered_ll_test.cc], [zoo/hash_map_test.cc] and [zoo/linked_list_test.cc]
    as programs of the objects: for every run to the end, the calls return what
    the tests expect.  [std::hash<int>] is that of the standard library in use,
    the conversion to [size_t].  The objects are at concrete addresses. *)

From S2P Require Import Prelude VersionLock LockTable Store Op LocSets Log Tx State LockGuard Machine History MachineInv Serializability Order Linearize Programs OrderedList OrderedObject LinkedList ListObject HashMap HashObject.

(** [std::hash<int>]. *)
Definition std_hash (x : Z) : Z := x mod 2 ^ 64.

#[local] Opaque seqZ.

Lemma omap_fmap_some {A B C} (f : A -> B) (g : B -> option C) (h : A -> C) (l : list A) :
  (forall x, g (f x) = Some (h x)) -> omap g (f <$> l) = h <$> l.
Proof. intros E. induction l as [|x l IH]; [done|]. simpl. rewrite E. by f_equal. Qed.

Lemma omap_fmap_none {A B C} (f : A -> B) (g : B -> option C) (l : list A) : (forall x, g (f x) = None) -> omap g (f <$> l) = [].
Proof. intros E. induction l as [|x l IH]; [done|]. simpl. by rewrite E. Qed.

Lemma fmap_constant {A B} (f : A -> B) (b : B) (l : list A) : Forall (fun x => f x = b) l -> f <$> l = replicate (length l) b.
Proof. induction 1 as [|x l E _ IH]; [done|]. by rewrite fmap_cons, E, IH. Qed.

Section OrderedListTests.
Import OrderedLinkedList OrderedObject.
Context {LS : Type} `{LocationSetLaws LS}.

Abbreviation object := (ordered_object 0 std_hash 8 16 1000).
Abbreviation laws := (ordered_laws 0 std_hash 8 16 1000).

(** The constructor's memory and set. *)
Definition new_list (m : gmap addr_t (option (node Z))) := empty_list 0 8 16 m.
Definition no_item : set_state := SetState ∅ {[8; 16]}.

Lemma new_list_rep m : object_rep 0 std_hash 8 16 (new_list m) no_item.
Proof. exists []. split; [by apply rep_empty|]. split; [done|]. by intros n Hn%elem_of_nil. Qed.

(** [AddContainsRemove]. *)
Definition add_contains_remove : list (op (T := Z)) :=
  [Contains 10; Add 30 100; Add 10 108; Add 20 116; Contains 10; Contains 20; Contains 30; Contains 40;
   Add 20 124; Remove 10; Contains 10; Contains 20; Contains 30; Remove 10].
Definition add_contains_remove_expected : list bool :=
  [false; true; true; true; true; true; true; false; false; true; false; true; true; false].

Lemma add_contains_remove_fit : fit_ops std_hash 8 16 1000 add_contains_remove no_item.
Proof.
  constructor; [|apply (bool_decide_unpack _); by vm_compute| |split; set_solver|vm_compute; lia].
  - repeat constructor; vm_compute; split; reflexivity.
  - apply Forall_forall. repeat constructor; apply (bool_decide_unpack _); by vm_compute.
Qed.

Lemma add_contains_remove_passes is_trivial m lo n evs s :
  Machine.steps (LS := LS) is_trivial n
    (Machine.init (new_list m) (calls (H1 := object) <$> {[0%nat := (add_contains_remove, lo)]})) evs s ->
  Z.of_nat n < 2 ^ 63 -> finished s ->
  exists th, Machine.ths s !! 0%nat = Some th /\ results th = Val <$> add_contains_remove_expected.
Proof.
  intros Hs Hn Hf. destruct (finished_one (H2 := laws) is_trivial (new_list m) 0 add_contains_remove lo n evs s no_item)
    as (_ & th & Ht & Hr); [apply ordered_no_std|apply new_list_rep| |done..|].
  - intros ops' Hsub. apply ordered_admissible. eapply ordered_fit_sub; [done|apply add_contains_remove_fit].
  - exists th. split; [done|]. rewrite Hr. by vm_compute.
Qed.

(** [MultiThreadedReads]: 400 items are added, then two threads look for them. *)
Definition kPerThread : Z := 200.
Definition add_all : list (op (T := Z)) := (fun i => Add i (1000 + 8 * i)) <$> seqZ 0 (2 * kPerThread).
Definition look_all : list (op (T := Z)) := Contains <$> seqZ 0 (2 * kPerThread).

(** The set when all were added. *)
Definition all_added : set_state := (ob_run (H := object) add_all no_item).2.

(** A hash in the range of the items is the item. *)
Lemma small_key i : 0 <= i < 2 * kPerThread -> to_int (std_hash i) = i.
Proof.
  unfold kPerThread, to_int, std_hash. intros Hi. rewrite (Z.mod_small i) by lia. rewrite Z.mod_small by lia. lia.
Qed.

Lemma small_in_range i : 0 <= i < 2 * kPerThread -> in_range i.
Proof. unfold kPerThread, in_range, INT_MIN, INT_MAX. lia. Qed.

Lemma adds_run (node_of : Z -> addr_t) l s : let s' := (ob_run (H := object) ((fun i => Add i (node_of i)) <$> l) s).2 in
  contents s' = list_to_set ((fun i => to_int (std_hash i)) <$> l) ∪ contents s /\
  taken s' = list_to_set ((fun i => node_of i) <$> l) ∪ taken s.
Proof.
  revert s. induction l as [|i l IH]; intros s; [simpl; split; set_solver|]. rewrite !fmap_cons. cbn [ob_run].
  change (ob_apply (Add i (node_of i)) s) with (apply std_hash (Add i (node_of i)) s). cbn [apply].
  match goal with |- context [ob_run _ ?s1] => specialize (IH s1); destruct (ob_run _ s1) as [r s2] end.
  simpl in *. destruct IH as [-> ->]. unfold key_of, item_of. split; set_solver.
Qed.

Lemma nodes_of_adds l : nodes_of ((fun i => Add (T := Z) i (1000 + 8 * i)) <$> l) = (fun i => 1000 + 8 * i) <$> l.
Proof. by apply omap_fmap_some. Qed.

Lemma nodup_adds : NoDup ((fun i => 1000 + 8 * i) <$> seqZ 0 (2 * kPerThread)).
Proof. apply NoDup_fmap_2_strong; [intros; lia|apply NoDup_seqZ]. Qed.

Lemma add_all_fit : fit_ops std_hash 8 16 1000 add_all no_item.
Proof.
  unfold add_all. constructor; rewrite ?nodes_of_adds; [|apply nodup_adds| |split; set_solver|].
  - apply Forall_fmap, Forall_forall. intros i Hi%elem_of_seqZ. unfold key_of, item_of. simpl.
    rewrite small_key by lia. apply small_in_range. lia.
  - intros a (i & -> & Hi%elem_of_seqZ)%list_elem_of_fmap. simpl. set_unfold. lia.
  - rewrite length_fmap, length_seqZ. vm_compute. lia.
Qed.

Lemma populate_passes is_trivial m lo n evs s :
  Machine.steps (LS := LS) is_trivial n
    (Machine.init (new_list m) (calls (H1 := object) <$> {[0%nat := (add_all, lo)]})) evs s ->
  Z.of_nat n < 2 ^ 63 -> finished s -> object_rep 0 std_hash 8 16 (mem (Machine.sh s)) all_added.
Proof.
  intros Hs Hn Hf. refine (proj1 (finished_one (H2 := laws) is_trivial (new_list m) 0 add_all lo n evs s no_item _ _ _ Hs Hn Hf)).
  - apply ordered_no_std.
  - apply new_list_rep.
  - intros ops' Hsub. apply ordered_admissible. eapply ordered_fit_sub; [done|apply add_all_fit].
Qed.

Lemma all_added_spec :
  (forall i, 0 <= i < 2 * kPerThread -> i ∈ contents all_added) /\ 8 ∈ taken all_added /\ 16 ∈ taken all_added /\
  size (taken all_added) = 402%nat.
Proof.
  destruct (adds_run (fun i => 1000 + 8 * i) (seqZ 0 (2 * kPerThread)) no_item) as [Ec Et]. unfold all_added, add_all. rewrite Ec, Et.
  assert (Hend : forall a, a ∈ taken no_item -> a ∈ list_to_set ((fun i => 1000 + 8 * i) <$> seqZ 0 (2 * kPerThread)) ∪ taken no_item)
    by (intros a Ha; by apply elem_of_union_r).
  split; [|split; [apply Hend; set_solver|split; [apply Hend; set_solver|]]].
  - intros i Hi. apply elem_of_union_l, elem_of_list_to_set, list_elem_of_fmap. exists i. rewrite small_key by exact Hi.
    split; [reflexivity|]. apply elem_of_seqZ. lia.
  - rewrite size_union; [rewrite size_list_to_set by apply nodup_adds; by rewrite length_fmap, length_seqZ|].
    intros a Ha Hn. apply elem_of_list_to_set, list_elem_of_fmap in Ha as (i & -> & Hi). apply elem_of_seqZ in Hi.
    revert Hn. unfold no_item. cbn [taken]. rewrite elem_of_union, !elem_of_singleton. lia.
Qed.

#[local] Opaque all_added.

Lemma look_all_fit : fit_ops std_hash 8 16 1000 (look_all ++ look_all) all_added.
Proof.
  destruct all_added_spec as (_ & H8 & H16 & Hsz).
  assert (Hno : nodes_of (look_all ++ look_all) = []) by (unfold nodes_of; rewrite omap_app; unfold look_all; by rewrite omap_fmap_none).
  constructor; rewrite ?Hno; [|constructor|intros a []%elem_of_nil|exact (conj H8 H16)|rewrite Hsz; simpl; lia].
  assert (Hk : Forall (fun o => in_range (key_of std_hash o)) look_all); [|apply Forall_app; split; exact Hk].
  apply Forall_fmap, Forall_forall. intros i Hi%elem_of_seqZ. unfold key_of, item_of. simpl.
  rewrite small_key by lia. apply small_in_range. lia.
Qed.

Lemma look_all_answers : (fun o => (ob_apply (TxObject := object) o all_added).1) <$> look_all = replicate 400 true.
Proof.
  unfold look_all. rewrite <- list_fmap_compose. change 400%nat with (Z.to_nat (2 * kPerThread)). rewrite <- (length_seqZ 0).
  apply fmap_constant, Forall_forall. intros i Hi%elem_of_seqZ. simpl. apply bool_decide_true. unfold key_of, item_of.
  rewrite small_key by lia. apply (proj1 all_added_spec). lia.
Qed.

Definition look_twice (lo1 lo2 : bool) : gmap tid_t (list (op (T := Z)) * bool) :=
  {[1%nat := (look_all, lo1); 2%nat := (look_all, lo2)]}.

(** No look-up fails. *)
Lemma multi_threaded_reads_passes is_trivial m0 lo1 lo2 n evs s t th :
  object_rep 0 std_hash 8 16 m0 all_added ->
  Machine.steps (LS := LS) is_trivial n
    (Machine.init m0 (calls (H1 := object) <$> look_twice lo1 lo2)) evs s ->
  Z.of_nat n < 2 ^ 63 -> finished s ->
  Machine.ths s !! t = Some th -> t = 1%nat \/ t = 2%nat -> results th = replicate 400 (Val true).
Proof.
  intros Hr Hs Hn Hf Ht Htid.
  set (progs := look_twice lo1 lo2) in *.
  assert (Eall : all_ops progs ≡ₚ look_all ++ look_all) by by unfold progs, look_twice; rewrite all_ops_new, all_ops_one.
  rewrite (finished_readers (H2 := laws) is_trivial m0 progs n evs s (ordered_no_std _ _ _ _ _) Hs Hn all_added Hr) with (t := t); [|..|done].
  - assert (prog_of progs t = look_all) as -> by by destruct Htid as [-> | ->].
    by rewrite look_all_answers, fmap_replicate.
  - intros sched Hil. apply ordered_admissible. eapply ordered_fit_sub; [|apply look_all_fit]. rewrite <- Eall.
    exact (interleaves_all _ _ Hil).
  - done.
  - rewrite Eall. assert (Hfix : Forall (fun o => (ob_apply (TxObject := object) o all_added).2 = all_added) look_all); [|by apply Forall_app].
    by apply Forall_fmap, Forall_forall.
Qed.
End OrderedListTests.

Section HashMapTests.
Import HashMap HashObject.
#[local] Existing Instance LinkedList.node_eq_dec.
Context {LS : Type} `{LocationSetLaws LS}.

Abbreviation map_object h := (hash_object (KeyT := Z) (ItemT := Z) 0 h buckets_at 1000).
Abbreviation map_laws h := (hash_laws (KeyT := Z) (ItemT := Z) 0 h buckets_at 1000).
Abbreviation map_op := (op (KeyT := Z) (ItemT := Z)).
Abbreviation int_map := (map_state (KeyT := Z) (ItemT := Z)).

(** The node of the [i]-th call of [set]. *)
Definition node_at (i : Z) : LinkedList.node := LinkedList.Node (20000 + 16 * i) (20008 + 16 * i).

(** Different calls have different cells. *)
Lemma node_at_cells i a : a ∈ LinkedList.node_cells (node_at i) <-> a = 20000 + 16 * i \/ a = 20008 + 16 * i.
Proof. unfold LinkedList.node_cells, node_at. simpl. by rewrite !elem_of_cons, elem_of_nil; tauto. Qed.

Lemma nodes_at_cells l : NoDup l -> NoDup ((node_at <$> l) ≫= LinkedList.node_cells).
Proof.
  induction 1 as [|i l Hi _ IH]; [constructor|]. rewrite fmap_cons, bind_cons. apply NoDup_app. split; [|split; [|done]].
  - unfold LinkedList.node_cells, node_at. simpl. apply NoDup_cons. rewrite elem_of_cons, elem_of_nil.
    split; [lia|apply NoDup_singleton].
  - intros a Ha%node_at_cells (n & Hn & (j & -> & Hj)%list_elem_of_fmap)%list_elem_of_bind.
    apply node_at_cells in Hn. assert (j = i) as -> by lia. done.
Qed.

Definition new_map (m : gmap addr_t (LinkedList.cell (LLNode (KeyT := Z) (ItemT := Z)))) := empty_map buckets_at m.
Definition no_entry : int_map := MapState ∅ (node_at <$> seqZ 0 400) 0.

Lemma new_map_rep h m : object_rep (KeyT := Z) (ItemT := Z) 0 h buckets_at (new_map m) no_entry.
Proof.
  exists (fun _ => []). split; [apply rep_empty_map, buckets_at_inj|]. split; [done|]. split; [|simpl; lia].
  intros n Hn. apply list_elem_of_fmap in Hn as (i & -> & Hi%elem_of_seqZ). intros j Hj. unfold HASH_MOD in Hj.
  unfold LinkedList.of_list, LinkedList.cells, LinkedList.node_cells, node_at, buckets_at. simpl.
  repeat (apply NoDup_cons; split; [rewrite ?elem_of_cons, ?elem_of_nil; lia|]). apply NoDup_nil_2.
Qed.

(** A program of one thread on the new map. *)
Lemma map_test_passes h (ops : list map_op) is_trivial m lo n evs s : fit_ops 1000 ops no_entry ->
  Machine.steps (LS := LS) is_trivial n (Machine.init (new_map m) (calls (H1 := map_object h) <$> {[0%nat := (ops, lo)]})) evs s ->
  Z.of_nat n < 2 ^ 63 -> finished s ->
  object_rep 0 h buckets_at (mem (Machine.sh s)) (ob_run (H := map_object h) ops no_entry).2 /\
  exists th, Machine.ths s !! 0%nat = Some th /\ results th = Val <$> (ob_run (H := map_object h) ops no_entry).1.
Proof.
  intros Hfit Hs Hn Hf. apply (finished_one (H2 := map_laws h) is_trivial (new_map m) 0 ops lo n evs s no_entry); try done.
  - apply hash_no_std.
  - apply new_map_rep.
  - intros ops' Hsub. apply hash_admissible. by eapply hash_fit_sub.
Qed.

(** [GetSetContains], with [std::hash], and [HandlesCollisions], with [ZeroHash]. *)
Definition ZeroHash (x : Z) : Z := 0.

Definition get_set_contains : list map_op := [Contains 1; Set_ 1 42 (node_at 0); Get 1; Contains 1].
Definition handles_collisions : list map_op :=
  [Get 1; Get 2; Set_ 1 10 (node_at 0); Set_ 2 20 (node_at 1); Contains 1; Contains 2; Get 1; Get 2;
   Set_ 1 100 (node_at 2); Get 1; Get 2].

Ltac fit_by_computation :=
  constructor; [apply (bool_decide_unpack _); by vm_compute| |vm_compute; lia];
  apply Forall_forall; apply (bool_decide_unpack _); by vm_compute.

Lemma get_set_contains_passes is_trivial m lo n evs s :
  Machine.steps (LS := LS) is_trivial n
    (Machine.init (new_map m) (calls (H1 := map_object std_hash) <$> {[0%nat := (get_set_contains, lo)]})) evs s ->
  Z.of_nat n < 2 ^ 63 -> finished s ->
  exists th, Machine.ths s !! 0%nat = Some th /\ results th = Val <$> [Found false; Done; Value (Some 42); Found true].
Proof.
  intros Hs Hn Hf. destruct (map_test_passes std_hash get_set_contains is_trivial m lo n evs s) as (_ & th & Ht & Hr);
    [fit_by_computation|done..|]. exists th. split; [done|]. rewrite Hr. by vm_compute.
Qed.

Lemma handles_collisions_passes is_trivial m lo n evs s :
  Machine.steps (LS := LS) is_trivial n
    (Machine.init (new_map m) (calls (H1 := map_object ZeroHash) <$> {[0%nat := (handles_collisions, lo)]})) evs s ->
  Z.of_nat n < 2 ^ 63 -> finished s ->
  exists th, Machine.ths s !! 0%nat = Some th /\
    results th = Val <$> [Value None; Value None; Done; Done; Found true; Found true; Value (Some 10); Value (Some 20);
                          Done; Value (Some 100); Value (Some 20)].
Proof.
  intros Hs Hn Hf. destruct (map_test_passes ZeroHash handles_collisions is_trivial m lo n evs s) as (_ & th & Ht & Hr);
    [fit_by_computation|done..|]. exists th. split; [done|]. rewrite Hr. by vm_compute.
Qed.

(** [MultiThreadedReads]. *)
Definition get_and_set_all : list map_op :=
  seqZ 0 (2 * kPerThread) ≫= (fun i => [Get i; Set_ i (i * 10) (node_at i)]).
Definition contains_all : list map_op := Contains <$> seqZ 0 (2 * kPerThread).
Definition get_all : list map_op := Get <$> seqZ 0 (2 * kPerThread).
Definition all_set : int_map := (ob_run (H := map_object std_hash) get_and_set_all no_entry).2.

Lemma nodes_of_sets l : nodes_of (l ≫= (fun i => [Get i; Set_ i (i * 10) (node_at i)])) = node_at <$> l.
Proof.
  unfold nodes_of. induction l as [|i l IH]; [done|]. rewrite bind_cons, omap_app, IH, fmap_cons. done.
Qed.

Lemma get_and_set_all_fit : fit_ops 1000 get_and_set_all no_entry.
Proof.
  unfold get_and_set_all. constructor; rewrite nodes_of_sets; [apply nodes_at_cells, NoDup_seqZ|done|].
  rewrite length_fmap, length_seqZ. unfold kPerThread. simpl. lia.
Qed.

Lemma sets_run l (s : int_map) :
  let s' := (ob_run (H := map_object std_hash) (l ≫= (fun i => [Get i; Set_ i (i * 10) (node_at i)])) s).2 in
  (forall i, i ∈ l -> entries s' !! i = Some (i * 10)) /\ (forall i, i ∉ l -> entries s' !! i = entries s !! i) /\
  sets s' = (sets s + length l)%nat.
Proof.
  revert s. induction l as [|j l IH]; intros s; [simpl; split; [by intros i ?%elem_of_nil|split; [done|lia]]|].
  rewrite bind_cons. cbn [app ob_run ob_apply hash_object apply].
  match goal with |- context [ob_run _ ?s1] => specialize (IH s1); destruct (ob_run _ s1) as [r s2] end.
  simpl in *. destruct IH as (Hin & Hout & ->). split; [|split; [|lia]].
  - intros i Hi. destruct (decide (i ∈ l)) as [Hl|Hl]; [by apply Hin|]. apply elem_of_cons in Hi as [->|Hi]; [|done].
    rewrite Hout by done. by rewrite lookup_insert_eq.
  - intros i [Hne Hl]%not_elem_of_cons. rewrite Hout by done. by rewrite lookup_insert_ne.
Qed.

Lemma all_set_spec : (forall i, i ∈ seqZ 0 (2 * kPerThread) -> entries all_set !! i = Some (i * 10)) /\ sets all_set = 400%nat.
Proof.
  destruct (sets_run (seqZ 0 (2 * kPerThread)) no_entry) as (Hin & _ & Hs). unfold all_set, get_and_set_all.
  split; [exact Hin|]. rewrite Hs, length_seqZ. done.
Qed.

#[local] Opaque all_set.

Lemma map_readers_fit : fit_ops 1000 (contains_all ++ get_all) all_set.
Proof.
  assert (Hno : nodes_of (contains_all ++ get_all) = [])
    by (unfold nodes_of; rewrite omap_app; unfold contains_all, get_all; by rewrite !omap_fmap_none).
  constructor; rewrite ?Hno; [constructor|intros n []%elem_of_nil|]. rewrite (proj2 all_set_spec). simpl. lia.
Qed.

Lemma map_readers_answers :
  (fun o => (ob_apply (TxObject := map_object std_hash) o all_set).1) <$> contains_all = replicate 400 (Found true) /\
  (fun o => (ob_apply (TxObject := map_object std_hash) o all_set).1) <$> get_all =
    (fun i => Value (Some (i * 10))) <$> seqZ 0 (2 * kPerThread).
Proof.
  unfold contains_all, get_all. rewrite <- !list_fmap_compose. split.
  - change 400%nat with (Z.to_nat (2 * kPerThread)). rewrite <- (length_seqZ 0).
    apply fmap_constant, Forall_forall. intros i Hi. simpl. f_equal. apply bool_decide_true.
    rewrite (proj1 all_set_spec i Hi). by eexists.
  - apply list_fmap_ext. intros k i Hi. simpl. f_equal. apply (proj1 all_set_spec). by eapply list_elem_of_lookup_2.
Qed.

Lemma fill_passes is_trivial m lo n evs s :
  Machine.steps (LS := LS) is_trivial n
    (Machine.init (new_map m) (calls (H1 := map_object std_hash) <$> {[0%nat := (get_and_set_all, lo)]})) evs s ->
  Z.of_nat n < 2 ^ 63 -> finished s -> object_rep 0 std_hash buckets_at (mem (Machine.sh s)) all_set.
Proof.
  intros Hs Hn Hf. refine (proj1 (map_test_passes std_hash get_and_set_all is_trivial m lo n evs s _ Hs Hn Hf)).
  apply get_and_set_all_fit.
Qed.

Definition contains_and_get (lo1 lo2 : bool) : gmap tid_t (list map_op * bool) :=
  {[1%nat := (contains_all, lo1); 2%nat := (get_all, lo2)]}.

(** One thread finds every key and the other its item. *)
Lemma map_reads_passes is_trivial m0 lo1 lo2 n evs s :
  object_rep 0 std_hash buckets_at m0 all_set ->
  Machine.steps (LS := LS) is_trivial n
    (Machine.init m0 (calls (H1 := map_object std_hash) <$> contains_and_get lo1 lo2)) evs s ->
  Z.of_nat n < 2 ^ 63 -> finished s ->
  (forall th, Machine.ths s !! 1%nat = Some th -> results th = replicate 400 (Val (Found true))) /\
  (forall th, Machine.ths s !! 2%nat = Some th -> results th = (fun i => Val (Value (Some (i * 10)))) <$> seqZ 0 (2 * kPerThread)).
Proof.
  intros Hr Hs Hn Hf.
  set (progs := contains_and_get lo1 lo2) in *.
  assert (Eall : all_ops progs ≡ₚ contains_all ++ get_all) by by unfold progs, contains_and_get; rewrite all_ops_new, all_ops_one.
  assert (Hres := finished_readers (H2 := map_laws std_hash) is_trivial m0 progs n evs s (hash_no_std _ _ _ _) Hs Hn all_set Hr).
  lapply Hres; [clear Hres; intros Hres; lapply (Hres Hf); [clear Hres; intros Hres|]|].
  - destruct map_readers_answers as [E1 E2]. split; intros th Ht; rewrite (Hres _ th Ht).
    + change (prog_of progs 1) with contains_all. by rewrite E1, fmap_replicate.
    + change (prog_of progs 2) with get_all. by rewrite E2, <- list_fmap_compose.
  - rewrite Eall. apply Forall_app. split; by apply Forall_fmap, Forall_forall.
  - intros sched Hil. apply hash_admissible. apply (hash_fit_sub 1000 (contains_all ++ get_all)).
    + rewrite <- Eall. exact (interleaves_all _ _ Hil).
    + apply map_readers_fit.
Qed.
End HashMapTests.

Section LinkedListTests.
Import LinkedList ListObject.
Context {LS : Type} `{LocationSetLaws LS}.

Abbreviation list_test := (list_object (T := Z) Z.eqb fields 1000).
Abbreviation list_test_laws := (list_laws (T := Z) Z.eqb fields 1000).
Abbreviation list_op := (op (T := Z)).

(** The constructor. *)
Definition empty_ll (m : gmap addr_t (cell Z)) : gmap addr_t (cell Z) :=
  <[m_head fields := Next None]> (<[m_sz fields := Size 0]> m).

Lemma empty_ll_rep m : rep fields (empty_ll m) [].
Proof.
  unfold empty_ll. constructor; [exists None; split; [apply lookup_insert_eq|done]| |apply (bool_decide_unpack _); by vm_compute].
  rewrite lookup_insert_ne by done. apply lookup_insert_eq.
Qed.

(** A call made by the only thread; [remove] deletes the node it was given. *)
Inductive method := Call (o : list_op) | Remove (x : Z).

Definition do_method (q : method) (m : gmap addr_t (cell Z)) : option (answer (T := Z) * gmap addr_t (cell Z)) :=
  match q with
  | Call o =>
      let tr := call Z.eqb fields 1000 o in
      match Tx.run (body tr) (prepare tr false) m with Some (Val a, _, m') => Some (a, m') | _ => None end
  | Remove x =>
      let tr := remove Z.eqb fields 1000 x in
      match Tx.run (body tr) (prepare tr false) m with
      | Some (Val nd, result, m') => Some (Found result, delete_node nd m')
      | _ => None
      end
  end.

Fixpoint do_methods (qs : list method) (m : gmap addr_t (cell Z)) : option (list (answer (T := Z))) :=
  match qs with
  | [] => Some []
  | q :: qs' => match do_method q m with Some (a, m') => cons a <$> do_methods qs' m' | None => None end
  end.

(** [AddContainsRemoveAndSize]. *)
Definition add_contains_remove_size : list method :=
  [Call GetSize; Call (Contains 10); Call (Add (node_at 0) 10); Call (Add (node_at 1) 20); Call (Add (node_at 2) 30);
   Call GetSize; Call (Contains 10); Call (Contains 20); Call (Contains 30); Call (Contains 40);
   Remove 20; Call (Contains 20); Call GetSize; Remove 40; Call GetSize; Remove 10; Call GetSize; Remove 30; Call GetSize].

Lemma add_contains_remove_size_passes :
  do_methods add_contains_remove_size (empty_ll ∅) =
    Some [Count 0; Found false; Done; Done; Done; Count 3; Found true; Found true; Found true; Found false;
          Found true; Found false; Count 2; Found false; Count 2; Found true; Count 1; Found true; Count 0].
Proof. by vm_compute. Qed.

(** [GetAndUpdate]. *)
Definition get_and_update : list method :=
  [Call (GetItem 5); Call (Add (node_at 0) 5); Call (Add (node_at 1) 7); Call (GetItem 5);
   Call (Update 5 50 (node_at 2)); Call (Contains 5); Call (Contains 50); Call (GetItem 50)].

Lemma get_and_update_passes :
  do_methods get_and_update (empty_ll ∅) =
    Some [Value None; Done; Done; Value (Some 5); Done; Found false; Found true; Value (Some 50)].
Proof. by vm_compute. Qed.

(** [MultiThreadedReads]. *)
Definition list_add_all : list list_op := (fun i => Add (node_at i) i) <$> seqZ 0 (2 * kPerThread).
Definition list_contains_all : list list_op := Contains <$> seqZ 0 (2 * kPerThread).
Definition list_get_all : list list_op := GetItem <$> seqZ 0 (2 * kPerThread).
Definition list_all_added : list (node * Z) := (ob_run (H := list_test) list_add_all []).2.

Lemma nodes_of_list_adds l : nodes_of ((fun i => Add (node_at i) i) <$> l) = node_at <$> l.
Proof. by apply omap_fmap_some. Qed.

Lemma list_add_all_fit : fit_ops fields 1000 list_add_all [].
Proof.
  unfold list_add_all. constructor; rewrite nodes_of_list_adds; [apply nodes_at_cells, NoDup_seqZ| |].
  - intros a (n & Ha & (i & -> & Hi%elem_of_seqZ)%list_elem_of_fmap)%list_elem_of_bind. apply node_at_cells in Ha.
    unfold of_list, cells. simpl. rewrite !elem_of_cons, elem_of_nil. lia.
  - rewrite length_fmap, length_seqZ. unfold kPerThread. simpl. lia.
Qed.

Lemma list_adds_run l (s : list (node * Z)) :
  (ob_run (H := list_test) ((fun i => Add (node_at i) i) <$> l) s).2 = rev ((fun i => (node_at i, i)) <$> l) ++ s.
Proof.
  revert s. induction l as [|i l IH]; intros s; [done|]. rewrite !fmap_cons. cbn [ob_run ob_apply list_object apply].
  specialize (IH ((node_at i, i) :: s)). destruct (ob_run _ ((node_at i, i) :: s)) as [r s']. simpl in *.
  by rewrite IH, <- app_assoc.
Qed.

Lemma found x (s : list (node * Z)) : x ∈ s.*2 -> mem_item Z.eqb x s = true /\ find_item Z.eqb x s = Some x.
Proof.
  unfold mem_item, find_item. induction s as [|[n v] s IH]; [by intros ?%elem_of_nil|].
  intros Hx%elem_of_cons. simpl in *. destruct (Z.eqb_spec v x) as [->|Hne]; [done|].
  destruct Hx as [->|Hx]; [done|]. by apply IH.
Qed.

Lemma list_all_added_spec :
  length list_all_added = 400%nat /\ forall i, i ∈ seqZ 0 (2 * kPerThread) -> i ∈ list_all_added.*2.
Proof.
  unfold list_all_added, list_add_all. rewrite list_adds_run, app_nil_r. split.
  - by rewrite length_rev, length_fmap, length_seqZ.
  - intros i Hi. apply list_elem_of_fmap. exists (node_at i, i). split; [done|].
    rewrite list_elem_of_In, <- in_rev, <- list_elem_of_In. apply list_elem_of_fmap. by exists i.
Qed.

#[local] Opaque list_all_added.

Lemma list_readers_fit : fit_ops fields 1000 (list_contains_all ++ list_get_all) list_all_added.
Proof.
  assert (Hno : nodes_of (list_contains_all ++ list_get_all) = [])
    by (unfold nodes_of; rewrite omap_app; unfold list_contains_all, list_get_all; by rewrite !omap_fmap_none).
  constructor; rewrite ?Hno; [constructor|intros n []%elem_of_nil|]. rewrite (proj1 list_all_added_spec). simpl. lia.
Qed.

Lemma list_readers_answers :
  (fun o => (ob_apply (TxObject := list_test) o list_all_added).1) <$> list_contains_all = replicate 400 (Found true) /\
  (fun o => (ob_apply (TxObject := list_test) o list_all_added).1) <$> list_get_all =
    (fun i => Value (Some i)) <$> seqZ 0 (2 * kPerThread).
Proof.
  unfold list_contains_all, list_get_all. rewrite <- !list_fmap_compose. split.
  - change 400%nat with (Z.to_nat (2 * kPerThread)). rewrite <- (length_seqZ 0).
    apply fmap_constant, Forall_forall. intros i Hi. simpl. f_equal. apply found, (proj2 list_all_added_spec), Hi.
  - apply list_fmap_ext. intros k i Hi. simpl. f_equal. apply found, (proj2 list_all_added_spec).
    by eapply list_elem_of_lookup_2.
Qed.

Lemma list_populate_passes is_trivial m lo n evs s :
  Machine.steps (LS := LS) is_trivial n
    (Machine.init (empty_ll m) (calls (H1 := list_test) <$> {[0%nat := (list_add_all, lo)]})) evs s ->
  Z.of_nat n < 2 ^ 63 -> finished s -> rep fields (mem (Machine.sh s)) list_all_added.
Proof.
  intros Hs Hn Hf.
  refine (proj1 (finished_one (H2 := list_test_laws) is_trivial (empty_ll m) 0 list_add_all lo n evs s [] _ _ _ Hs Hn Hf)).
  - apply list_no_std.
  - apply empty_ll_rep.
  - intros ops' Hsub. apply list_admissible. eapply list_fit_sub; [exact Hsub|apply list_add_all_fit].
Qed.

Definition list_contains_and_get (lo1 lo2 : bool) : gmap tid_t (list list_op * bool) :=
  {[1%nat := (list_contains_all, lo1); 2%nat := (list_get_all, lo2)]}.

Lemma list_reads_passes is_trivial m0 lo1 lo2 n evs s :
  rep fields m0 list_all_added ->
  Machine.steps (LS := LS) is_trivial n
    (Machine.init m0 (calls (H1 := list_test) <$> list_contains_and_get lo1 lo2)) evs s ->
  Z.of_nat n < 2 ^ 63 -> finished s ->
  (forall th, Machine.ths s !! 1%nat = Some th -> results th = replicate 400 (Val (Found true))) /\
  (forall th, Machine.ths s !! 2%nat = Some th -> results th = (fun i => Val (Value (Some i))) <$> seqZ 0 (2 * kPerThread)).
Proof.
  intros Hr Hs Hn Hf.
  set (progs := list_contains_and_get lo1 lo2) in *.
  assert (Eall : all_ops progs ≡ₚ list_contains_all ++ list_get_all) by by unfold progs, list_contains_and_get; rewrite all_ops_new, all_ops_one.
  assert (Hres := finished_readers (H2 := list_test_laws) is_trivial m0 progs n evs s (list_no_std _ _ _) Hs Hn list_all_added Hr).
  lapply Hres; [clear Hres; intros Hres; lapply (Hres Hf); [clear Hres; intros Hres|]|].
  - destruct list_readers_answers as [E1 E2]. split; intros th Ht; rewrite (Hres _ th Ht).
    + change (prog_of progs 1) with list_contains_all. by rewrite E1, fmap_replicate.
    + change (prog_of progs 2) with list_get_all. by rewrite E2, <- list_fmap_compose.
  - rewrite Eall. apply Forall_app. split; by apply Forall_fmap, Forall_forall.
  - intros sched Hil. apply list_admissible. apply (list_fit_sub fields 1000 (list_contains_all ++ list_get_all)).
    + rewrite <- Eall. exact (interleaves_all _ _ Hil).
    + apply list_readers_fit.
Qed.
End LinkedListTests.
