(* ===== verification/Benchmarks.v ===== *)
(** * The benchmarks and profilers

    What the threads of each benchmark run, as programs over the objects, and what
    holds of every run to the end, for any number of threads and of turns.  Starting
    and joining the threads, timing and printing are left out; the random numbers
    of a benchmark are arguments. *)

From S2P Require Import Prelude VersionLock LockTable Store Op LocSets Log Tx State LockGuard Machine History MachineInv Serializability Order Linearize Programs Stack BQueue QueueRuns Clients OrderedList OrderedObject LinkedList ObjectTests.
Import History.

(** ** Counters of a signed type

    [.graphs/shared_counter/bench.cc] ([long long]) and
    [.graphs/batch_counter/bench.cc] ([int]). *)
Module CounterBench.
Section Counter.
Context (counter : addr_t) (limit : Z).

(** [v++], [k] times; an overflow is undefined. *)
Fixpoint add_times (k : nat) (v : Z) : option Z :=
  match k with O => Some v | S k' => if v + 1 <? limit then add_times k' (v + 1) else None end.

Definition add_body (k : nat) : tx Z unit Z :=
  Read counter (fun v => match add_times k v with
    | Some v' => Write counter v' (Ret 0)
    | None => Throw (other_exception 3)
    end).

(** The transactions of the two benchmarks. *)
Definition increment : tx Z unit Z := add_body 1.
Definition batch : tx Z unit Z := add_body 1000.

Inductive call := Increment | Batch.
Definition amount (c : call) : nat := match c with Increment => 1 | Batch => 1000 end.
Definition body_of (c : call) : txn Z unit Z := plain match c with Increment => increment | Batch => batch end.

#[export] Instance bench_object : TxObject Z unit Z call Z := {
  ob_call := body_of;
  ob_init _ _ := True;
  ob_rep m s := m !! counter = Some s;
  ob_apply c s := (0, s + Z.of_nat (amount c)) }.

Lemma add_times_some k v : v + Z.of_nat k < limit -> add_times k v = Some (v + Z.of_nat k).
Proof.
  revert v. induction k as [|k IH]; intros v Hv; cbn [add_times]; [f_equal; lia|].
  destruct (Z.ltb_spec (v + 1) limit); [|lia]. rewrite IH by lia. f_equal. lia.
Qed.

Lemma body_amount c : body (ob_call c) = add_body (amount c).
Proof. destruct c; exact eq_refl. Qed.

#[export] Instance bench_laws : TxGuardedLaws Z unit Z call Z (fun c s => s + Z.of_nat (amount c) < limit).
Proof.
  constructor; [done|done|]. intros c lo m s _ Hr Hs. change (m !! counter = Some s) in Hr.
  rewrite body_amount. unfold add_body. cbn [Tx.run]. rewrite Hr, add_times_some by done. eexists _, _. split; [reflexivity|].
  apply lookup_insert_eq.
Qed.

Lemma bench_no_std c : no_std (body (ob_call (TxObject := bench_object) c)).
Proof. rewrite body_amount. intros v. by destruct (add_times (amount c) v). Qed.

Lemma bench_run c k s : admissible (fun c s => s + Z.of_nat (amount c) < limit) (replicate k c) s <->
  (k = O \/ s + Z.of_nat (k * amount c) < limit).
Proof.
  revert s. induction k as [|k IH]; intros s; [simpl; tauto|]. cbn [replicate admissible ob_apply bench_object snd].
  rewrite IH. destruct k; lia.
Qed.

Lemma bench_sum c k s : (ob_run (replicate k c) s).2 = s + Z.of_nat (k * amount c).
Proof.
  revert s. induction k as [|k IH]; intros s; [simpl; lia|]. cbn [replicate ob_run ob_apply bench_object].
  specialize (IH (s + Z.of_nat (amount c))). destruct (ob_run _ _). simpl in *. lia.
Qed.

(** [benchmark(threads, ops)]: each thread makes the call [ops] times. *)
Definition benchmark (ts : gset tid_t) (ops : nat) (c : call) : gmap tid_t (list call * unit) :=
  gset_to_gmap (replicate ops c, tt) ts.

Lemma all_same (ts : gset tid_t) ops c cs : cs ⊆+ all_ops (benchmark ts ops c) -> cs = replicate (length cs) c.
Proof.
  intros Hsub. symmetry. apply replicate_as_Forall_2; [done|]. apply Forall_forall. intros d Hd.
  eapply elem_of_submseteq in Hsub; [|exact Hd].
  destruct (all_ops_same ts (replicate ops c, tt)) as [_ Hin]. apply Hin, elem_of_replicate in Hsub. by destruct Hsub as [-> _].
Qed.

Section Threads.
Context {LS : Type} `{LocationSetLaws LS}.

(** No increment is lost, and no [int] overflows when the sum fits. *)
Lemma benchmark_total is_trivial (m0 : gmap addr_t Z) (ts : gset tid_t) ops c n evs s :
  m0 !! counter = Some 0 -> Z.of_nat (size ts * ops * amount c) < limit ->
  Machine.steps (LS := LS) is_trivial n (Machine.init m0 (calls <$> benchmark ts ops c)) evs s ->
  Z.of_nat n < 2 ^ 63 -> finished s ->
  mem (Machine.sh s) !! counter = Some (Z.of_nat (size ts * ops * amount c)).
Proof.
  intros Hm Hlt Hs Hn Hf. destruct (all_ops_same ts (replicate ops c, tt)) as [Hlen _]. cbn [fst] in Hlen.
  rewrite length_replicate in Hlen.
  destruct (finished_run is_trivial m0 _ n evs s bench_no_std Hs Hn 0 Hm) as (sched & Hil & Hp & _ & Hrep); [|done|].
  - intros sched Hsub%interleaves_all. pose proof (submseteq_length _ _ Hsub) as Hle. fold (benchmark ts ops c) in Hlen.
    rewrite Hlen in Hle. rewrite (all_same _ _ _ _ Hsub). apply bench_run. right. nia.
  - rewrite (all_same ts ops c sched.*2) in Hrep by (by rewrite Hp).
    change (mem (Machine.sh s) !! counter = Some (ob_run (replicate (length sched.*2) c) 0).2) in Hrep.
    rewrite Hrep, bench_sum, Hp. fold (benchmark ts ops c) in Hlen. by rewrite Hlen.
Qed.
End Threads.
End Counter.
End CounterBench.

(** ** Swaps: [perf/profile_swap.cc] *)
Module SwapBench.
Section Swap.
Context (a b : addr_t) (Hab : a <> b).
#[local] Existing Instance Pair.pair_object.
#[local] Existing Instance Pair.pair_laws.

(** Each of the two threads swaps [turns] times. *)
Definition swaps (turns : nat) : gmap tid_t (list Pair.call * unit) :=
  gset_to_gmap (replicate turns Pair.Swap, tt) {[1%nat; 2%nat]}.

Lemma swap_run k v w : (ob_run (H := Pair.pair_object a b) (replicate k Pair.Swap) (v, w)).2 = if Nat.even k then (v, w) else (w, v).
Proof.
  revert v w. induction k as [|k IH]; intros v w; [done|]. cbn [replicate ob_run ob_apply Pair.pair_object Pair.apply fst snd].
  specialize (IH w v). destruct (ob_run _ _) as [r s]. cbn [snd] in *. rewrite IH, Nat.even_succ, <- Nat.negb_even.
  by destruct (Nat.even k).
Qed.

Lemma swap_no_std c : no_std (body (ob_call (TxObject := Pair.pair_object a b) c)).
Proof. by destruct c. Qed.

Section Threads.
Context {LS : Type} `{LocationSetLaws LS}.

(** An even number of swaps, two for each turn, leaves the values as they were. *)
Lemma swaps_restore is_trivial (m0 : gmap addr_t Z) turns v w n evs s :
  m0 !! a = Some v -> m0 !! b = Some w ->
  Machine.steps (LS := LS) is_trivial n (Machine.init m0 (calls (H1 := Pair.pair_object a b) <$> swaps turns)) evs s ->
  Z.of_nat n < 2 ^ 63 -> finished s ->
  mem (Machine.sh s) !! a = Some v /\ mem (Machine.sh s) !! b = Some w.
Proof.
  intros Ha Hb Hs Hn Hf. destruct (all_ops_same {[1%nat; 2%nat]} (replicate turns Pair.Swap, tt)) as [Hlen Hin].
  fold (swaps turns) in Hlen, Hin. cbn [fst] in Hlen, Hin. rewrite length_replicate in Hlen.
  destruct (finished_run (H2 := laws_guarded _ _ _ _ _ (H0 := Pair.pair_laws a b Hab)) is_trivial m0 _ n evs s swap_no_std Hs Hn (v, w) (conj Ha Hb))
    as (sched & _ & Hp & _ & Hrep); [intros; apply admissible_true|done|].
  assert (E : sched.*2 = replicate (2 * turns) Pair.Swap).
  { symmetry. apply replicate_as_Forall_2; [rewrite Hp, Hlen; done|]. apply Forall_forall. intros c Hc. rewrite Hp in Hc.
    apply Hin, elem_of_replicate in Hc. by destruct Hc as [-> _]. }
  rewrite E in Hrep. change (ob_rep (TxObject := Pair.pair_object a b) (mem (Machine.sh s)) (ob_run (H := Pair.pair_object a b) (replicate (2 * turns) Pair.Swap) (v, w)).2) in Hrep.
  rewrite swap_run, Nat.even_even in Hrep. exact Hrep.
Qed.
End Threads.
End Swap.
End SwapBench.

(** ** The stack: [.graphs/coarse_stack/bench.cc] *)
Module StackBench.
Import Stack.
Section Stack.
Context {T : Type} (top : addr_t).
#[local] Existing Instance stack_object.
#[local] Existing Instance stack_laws.
Abbreviation object := (stack_object (T := T) top).

Definition pushed (o : op T) : option T := match o with Push x => Some x | _ => None end.
Definition popped (v : value T) : option T := match v with Popped r => r | _ => None end.

(** What is pushed is popped or stays. *)
Lemma stack_balance (ops : list (op T)) (s : list T) :
  omap pushed ops ++ s ≡ₚ omap popped (ob_run (H := object) ops s).1 ++ (ob_run (H := object) ops s).2.
Proof.
  revert s. induction ops as [|o ops IH]; intros s; [done|]. cbn [ob_run]. change (ob_apply o s) with (apply o s).
  destruct (apply o s) as [v s1] eqn:E. specialize (IH s1). destruct (ob_run ops s1) as [r s2]. simpl in IH.
  destruct o as [x| |]; simpl in E; injection E as <- <-; simpl.
  - rewrite <- IH. apply Permutation_middle.
  - destruct s as [|y s]; simpl in *; [exact IH|]. rewrite <- IH. symmetry. apply Permutation_middle.
  - exact IH.
Qed.

Lemma stack_no_std o : no_std (body (ob_call (TxObject := object) o)).
Proof. destruct o; intros p; simpl; try done. by destruct p. Qed.

Definition value_of (o : outcome (value T)) : option (value T) := match o with Val v => Some v | Exn _ => None end.

Section Threads.
Context {LS : Type} `{LocationSetLaws LS}.

(** No element is lost or taken twice, whatever the programs. *)
Lemma stack_conserves is_trivial m0 progs n evs s (l : list T) :
  m0 !! top = Some l ->
  Machine.steps (LS := LS) is_trivial n (Machine.init m0 (calls (H1 := object) <$> progs)) evs s ->
  Z.of_nat n < 2 ^ 63 -> finished s ->
  exists l', mem (Machine.sh s) !! top = Some l' /\
    omap pushed (all_ops progs) ++ l ≡ₚ omap popped (omap value_of (all_results s)) ++ l'.
Proof.
  intros Hm Hs Hn Hf.
  destruct (finished_total (H2 := laws_guarded _ _ _ _ _ (H0 := stack_laws top)) is_trivial m0 progs n evs s stack_no_std Hs Hn l Hm)
    as (sched & Hp & Hall & Hrep); [intros; apply admissible_true|done|].
  exists (ob_run (H := object) sched.*2 l).2. split; [exact Hrep|]. rewrite <- Hp, (stack_balance sched.*2 l).
  f_equiv. rewrite Hall. clear. induction (ob_run sched.*2 l).1 as [|v r IH]; [done|]. cbn. destruct (popped v); [by constructor|done].
Qed.

End Threads.
End Stack.

(** A turn of a thread.  The lambda captures the number of the thread by
    reference, and the variable is gone when it runs: which branch a turn takes is
    anything. *)
Definition turn (t_odd : bool) : list (op Z) := if t_odd then [Push 2; Push 4] else [TryPop; TryPop].
Definition benchmark (turns : gmap tid_t (list bool)) (lo : captured Z) : gmap tid_t (list (op Z) * captured Z) :=
  (fun bs => (bs ≫= turn, lo)) <$> turns.

Section Threads.
Context {LS : Type} `{LocationSetLaws LS} (top : addr_t).
#[local] Existing Instance stack_object.

Lemma turns_push turns lo o x : o ∈ all_ops (benchmark turns lo) -> pushed o = Some x -> x = 2 \/ x = 4.
Proof.
  intros ([t [ops l]] & Ho & Ht)%list_elem_of_bind Hx. apply elem_of_map_to_list in Ht. unfold benchmark in Ht.
  rewrite lookup_fmap in Ht. apply fmap_Some in Ht as (bs & _ & [= -> ->]). simpl in Ho.
  apply list_elem_of_bind in Ho as (b & Ho & _). unfold turn in Ho.
  destruct b; rewrite !elem_of_cons, elem_of_nil in Ho; destruct Ho as [->|[->|[]]]; simplify_eq/=; auto.
Qed.

(** The stack is left with 2s and 4s only. *)
Lemma benchmark_stack is_trivial m0 turns lo n evs s :
  m0 !! top = Some [] ->
  Machine.steps (LS := LS) is_trivial n (Machine.init m0 (calls (H1 := stack_object top) <$> benchmark turns lo)) evs s ->
  Z.of_nat n < 2 ^ 63 -> finished s ->
  exists l, mem (Machine.sh s) !! top = Some l /\ Forall (fun x => x = 2 \/ x = 4) l.
Proof.
  intros Hm Hs Hn Hf. destruct (stack_conserves top is_trivial m0 _ n evs s [] Hm Hs Hn Hf) as (l & Hl & Hp).
  exists l. split; [done|]. apply Forall_forall. intros x Hx.
  assert (Hin : x ∈ omap pushed (all_ops (benchmark turns lo)) ++ []) by (rewrite Hp; apply elem_of_app; by right).
  rewrite app_nil_r in Hin. apply list_elem_of_omap in Hin as (o & Ho & E). by eapply turns_push.
Qed.
End Threads.
End StackBench.

(** ** The ordered lists

    [graphs/ordered_ll/bench.cc], which runs random calls on [zoo/ordered_ll.h]
    after adding the first keys, and [.graphs/coarse_linked_list/bench.cc], whose
    threads add and remove the same items, on the list of
    [coarse_linked_list.h].  The nodes that [add] allocates are arguments. *)
Module ListBench.
Import OrderedLinkedList OrderedObject.

(** A key of a benchmark is its own hash and fits an [int]. *)
Lemma bench_key i : 0 <= i < 2 ^ 31 - 1 -> to_int (std_hash i) = i /\ in_range i.
Proof.
  intros Hi. unfold to_int, std_hash, in_range, INT_MIN, INT_MAX. rewrite (Z.mod_small i) by lia.
  rewrite Z.mod_small by lia. lia.
Qed.

(** *** The list of [coarse_linked_list.h] as an object *)
Section Coarse.
Context (head_at tail_at : addr_t) (fuel : nat).
Abbreviation pointer := (option (node Z)).

Definition coarse_call (o : op (T := Z)) : txn pointer bool bool :=
  match o with
  | Add x new_at => coarse_add 0 std_hash head_at fuel x new_at
  | Remove x => coarse_remove 0 std_hash head_at fuel x
  | Contains x => coarse_contains 0 std_hash head_at fuel x
  end.

#[export] Instance coarse_object : TxObject pointer bool bool (op (T := Z)) set_state := {
  ob_call := coarse_call;
  ob_init _ _ := True;
  ob_rep := object_rep 0 std_hash head_at tail_at;
  ob_apply := apply std_hash }.

#[export] Instance coarse_laws : TxGuardedLaws pointer bool bool (op (T := Z)) set_state (ready std_hash head_at tail_at fuel).
Proof.
  constructor; [done|done|]. intros o lo m s _ Hr Hp.
  assert (Hgd : forall lo, (match o with Remove _ => lo = false | _ => True end) -> exists lo' m',
    Tx.run (body (call 0 std_hash head_at fuel o)) lo m = Some (Val (apply std_hash o s).1, lo', m') /\
    object_rep 0 std_hash head_at tail_at m' (apply std_hash o s).2).
  { intros lo1 Hlo. exact (gd_sim (TxGuardedLaws := ordered_laws 0 std_hash head_at tail_at fuel) o lo1 m s Hlo Hr Hp). }
  destruct o as [x new_at|x|x]; [exact (Hgd lo I)| |exact (Hgd lo I)].
  destruct (Hgd false eq_refl) as (lo' & m' & E & Hr'). exists lo', m'. split; [|exact Hr'].
  apply (coarse_remove_locals 0 std_hash head_at). by rewrite coarse_remove_eq.
Qed.

Lemma coarse_no_std o : no_std (body (ob_call (TxObject := coarse_object) o)).
Proof.
  destruct o as [x new_at|x|x]; [exact (ordered_no_std 0 std_hash head_at tail_at fuel (Add x new_at))| |
    exact (ordered_no_std 0 std_hash head_at tail_at fuel (Contains x))].
  intros [c|]; [|done]. apply locate_no_std. intros p c'. by destruct (key c' =? _).
Qed.

(** *** [benchmark_batch] *)

(** Turn [i]: [list.add(i); list.remove(i)]. *)
Definition add_remove (new_at : Z -> addr_t) (i : Z) : list (op (T := Z)) := [Add i (new_at i); Remove i].
Definition thread_turns (new_at : Z -> addr_t) (is_ : list Z) : list (op (T := Z)) := is_ ≫= add_remove new_at.

(** The keys that are in the set at the end were added after their last removal. *)
Lemma last_added (ops : list (op (T := Z))) s k : k ∈ contents (ob_run (H := coarse_object) ops s).2 ->
  k ∈ contents s \/ exists ops1 x a ops2, ops = ops1 ++ Add x a :: ops2 /\ to_int (std_hash x) = k /\
    Forall (fun o => forall y, o = Remove y -> to_int (std_hash y) <> k) ops2.
Proof.
  induction ops as [|o ops IH] using rev_ind; [by left|]. rewrite ob_run_snoc. cbn [snd].
  destruct (ob_run (H := coarse_object) ops s).2 as [X Y] eqn:E. cbn [contents] in IH.
  assert (Hold : forall y, o = Remove y \/ o = Contains y -> k ∈ X -> (forall z, o = Remove z -> to_int (std_hash z) <> k) ->
    k ∈ contents s \/ exists ops1 x a ops2, ops ++ [o] = ops1 ++ Add x a :: ops2 /\ to_int (std_hash x) = k /\
      Forall (fun o => forall y, o = Remove y -> to_int (std_hash y) <> k) ops2).
  { intros y _ Hk Hz. destruct (IH Hk) as [?|(ops1 & x & a & ops2 & -> & Ex & Hf)]; [by left|right].
    exists ops1, x, a, (ops2 ++ [o]). split; [by rewrite <- app_assoc|]. split; [done|]. apply Forall_app. by repeat constructor. }
  destruct o as [x a|x|x]; cbn [ob_apply coarse_object apply snd contents]; unfold key_of, item_of.
  - intros [->%elem_of_singleton|Hk]%elem_of_union; [right; by exists ops, x, a, []|].
    destruct (IH Hk) as [?|(ops1 & y & b & ops2 & -> & Ey & Hf)]; [by left|right].
    exists ops1, y, b, (ops2 ++ [Add x a]). split; [by rewrite <- app_assoc|]. split; [done|].
    apply Forall_app. split; [done|]. by repeat constructor.
  - intros [Hk Hne]%elem_of_difference. apply (Hold x); [by left|done|]. intros z [= <-] Ez. apply Hne, elem_of_singleton. done.
  - intros Hk. apply (Hold x); [by right|done|done].
Qed.

(** In a thread's program a removal comes after every addition. *)
Lemma then_removed new_at is_ ops1 x a ops2 : thread_turns new_at is_ = ops1 ++ Add x a :: ops2 -> Remove x ∈ ops2.
Proof.
  revert ops1. induction is_ as [|i is_ IH]; intros ops1 E; [by destruct ops1|].
  unfold thread_turns in E. rewrite bind_cons in E. destruct ops1 as [|o1 [|o2 ops1]].
  - injection E as -> _ <-. by left.
  - by injection E as _ E.
  - injection E as _ _ E. by apply (IH ops1).
Qed.

Section Threads.
Context {LS : Type} `{LocationSetLaws LS}.

Definition benchmark_batch (node_of : tid_t -> Z -> addr_t) (threads : gset tid_t) (ops : nat) (lo : bool) :
    gmap tid_t (list (op (T := Z)) * bool) :=
  map_imap (fun t lo => Some (thread_turns (node_of t) (seqZ 0 (Z.of_nat ops)), lo)) (gset_to_gmap lo threads).

(** Every item was removed after it was last added: the list is empty at the end. *)
Lemma benchmark_batch_empty is_trivial m0 node_of threads ops lo n evs s s0 :
  object_rep 0 std_hash head_at tail_at m0 s0 -> contents s0 = ∅ ->
  fit_ops std_hash head_at tail_at fuel (all_ops (benchmark_batch node_of threads ops lo)) s0 ->
  Machine.steps (LS := LS) is_trivial n
    (Machine.init m0 (calls (H1 := coarse_object) <$> benchmark_batch node_of threads ops lo)) evs s ->
  Z.of_nat n < 2 ^ 63 -> finished s ->
  rep 0 std_hash head_at tail_at (mem (Machine.sh s)) [].
Proof.
  intros Hr He Hfit Hs Hn Hf.
  destruct (finished_run (H2 := coarse_laws) is_trivial m0 _ n evs s coarse_no_std Hs Hn s0 Hr) as (sched & Hil & Hp & Hth & Hrep); [|done|].
  { intros sched Hil. exact (ordered_admissible 0 std_hash head_at tail_at fuel _ _ (ordered_fit_sub std_hash head_at tail_at fuel _ _ _ (interleaves_all _ _ Hil) Hfit)). }
  destruct Hrep as (ns & Hrep & Hk & _). assert (Hno : forall k, k ∉ contents (ob_run (H := coarse_object) sched.*2 s0).2).
  { intros k [Hin|(ops1 & x & a & ops2 & E & Ek & Hrem)]%last_added; [set_solver|].
    apply fmap_app_inv in E as (sched1 & sched2 & _ & E2 & ->).
    destruct sched2 as [|[t o] sched2]; [done|]. simpl in E2. injection E2 as <- E2.
    pose proof (interleaves_thread _ _ Hil t (Add x a)) as [p Hpt]; [apply elem_of_app; right; by left|].
    destruct (steps_dom is_trivial m0 _ n evs s Hs t) as [th Ht]; [by rewrite Hpt|].
    destruct (Hth t th Ht) as [_ Ho]. unfold prog_of in Ho. rewrite Hpt in Ho. unfold benchmark_batch in Hpt.
    rewrite map_lookup_imap in Hpt. apply bind_Some in Hpt as (lo' & _ & [= <-]). simpl in Ho.
    unfold ops_of in Ho. rewrite filter_app, fmap_app, filter_cons_True in Ho by done. rewrite fmap_cons in Ho. simpl in Ho.
    symmetry in Ho. apply then_removed in Ho. apply list_elem_of_fmap in Ho as ([u o] & Eo & [_ Hin]%list_elem_of_filter).
    rewrite Forall_forall in Hrem. apply (Hrem o) with (y := x); [|done|done]. rewrite E2. by apply (list_elem_of_fmap_2 snd _ (u, o)). }
  destruct ns as [|b ns]; [exact Hrep|]. exfalso. apply (Hno (key b)). rewrite <- Hk. apply (elem_keys 0 std_hash). exists b. split; [by left|done].
Qed.
End Threads.
End Coarse.

(** *** [run_benchmark] on [OrderedLinkedList] *)
Section Workloads.

Record Workload := { contains_pct : Z; add_pct : Z; remove_pct : Z }.
Definition kWorkloads : list Workload :=
  [Build_Workload 90 5 5; Build_Workload 34 33 33; Build_Workload 20 40 40].

(** [prefill(list, count)], with the node of each item. *)
Definition prefill (node_of : Z -> addr_t) (count : Z) : list (op (T := Z)) := (fun i => Add i (node_of i)) <$> seqZ 0 count.

(** A turn of a thread: the two random numbers, and the node that [add] would
    allocate. *)
Record draw := Draw { d_op : Z; d_key : Z; d_node : addr_t }.
Definition choose (w : Workload) (d : draw) : op (T := Z) :=
  if d_op d <? contains_pct w then Contains (d_key d)
  else if d_op d <? contains_pct w + add_pct w then Add (d_key d) (d_node d)
  else Remove (d_key d).

Definition run_threads (w : Workload) (draws : gmap tid_t (list draw)) (lo : bool) : gmap tid_t (list (op (T := Z)) * bool) :=
  (fun ds : list draw => (choose w <$> ds, lo)) <$> draws.

(** The numbers that the calls answered, one for each key added or removed. *)
Definition change (p : op (T := Z) * bool) : Z :=
  match p with (Add _ _, true) => 1 | (Remove _, true) => - 1 | _ => 0 end.
Definition changes (l : list (op (T := Z) * bool)) : Z := foldr (fun p n => change p + n) 0 l.

Section Object.
Context (head_at tail_at : addr_t) (fuel : nat).
Abbreviation object := (ordered_object 0 std_hash head_at tail_at fuel).
Abbreviation laws := (ordered_laws 0 std_hash head_at tail_at fuel).

(** The answers account for the size of the set. *)
Lemma size_changes (ops : list (op (T := Z))) s :
  Z.of_nat (size (contents (ob_run (H := object) ops s).2)) =
    Z.of_nat (size (contents s)) + changes (zip ops (ob_run (H := object) ops s).1).
Proof.
  revert s. induction ops as [|o ops IH]; intros s; [simpl; lia|]. cbn [ob_run].
  change (ob_apply o s) with (apply std_hash o s). destruct (apply std_hash o s) as [a s1] eqn:E. specialize (IH s1).
  destruct (ob_run ops s1) as [r s2]. cbn [fst snd zip_with changes foldr] in *. rewrite IH. fold (changes (zip ops r)).
  destruct o as [x new_at|x|x]; injection E as <- <-; cbn [contents change].
  - destruct (decide (key_of std_hash (Add x new_at) ∈ contents s)) as [Hin|Hin].
    + rewrite bool_decide_false by tauto. replace ({[key_of std_hash (Add x new_at)]} ∪ contents s) with (contents s) by set_solver. lia.
    + rewrite bool_decide_true by done. rewrite size_union by set_solver. rewrite size_singleton. lia.
  - destruct (decide (key_of std_hash (Remove x) ∈ contents s)) as [Hin|Hin].
    + rewrite bool_decide_true by done. rewrite size_difference by set_solver. rewrite size_singleton.
      assert (size (contents s) <> 0)%nat by (intros E%size_empty_inv; set_solver). lia.
    + rewrite bool_decide_false by done. replace (contents s ∖ {[key_of std_hash (Remove x)]}) with (contents s) by set_solver. lia.
  - lia.
Qed.

(** Keys come from the calls. *)
Lemma keys_from (ops : list (op (T := Z))) s k : k ∈ contents (ob_run (H := object) ops s).2 ->
  k ∈ contents s \/ k ∈ (key_of std_hash <$> ops).
Proof.
  revert s. induction ops as [|o ops IH]; intros s; [by left|]. cbn [ob_run].
  change (ob_apply o s) with (apply std_hash o s). destruct (apply std_hash o s) as [a s1] eqn:E. specialize (IH s1).
  destruct (ob_run ops s1) as [r s2]. cbn [snd] in *. intros [Hk|Hk]%IH; [|right; by right].
  destruct o as [x new_at|x|x]; injection E as <- <-; cbn [contents] in Hk.
  - apply elem_of_union in Hk as [->%elem_of_singleton|Hk]; [right; by left|by left].
  - left. set_solver.
  - by left.
Qed.

Section Threads.
Context {LS : Type} `{LocationSetLaws LS}.

(** [prefill] adds the keys below [count]. *)
Lemma prefill_ends is_trivial m0 node_of count t lo n evs s s0 :
  0 <= count < 2 ^ 31 - 1 -> object_rep 0 std_hash head_at tail_at m0 s0 -> contents s0 = ∅ ->
  fit_ops std_hash head_at tail_at fuel (prefill node_of count) s0 ->
  Machine.steps (LS := LS) is_trivial n (Machine.init m0 (calls (H1 := object) <$> {[t := (prefill node_of count, lo)]})) evs s ->
  Z.of_nat n < 2 ^ 63 -> finished s ->
  exists s1, object_rep 0 std_hash head_at tail_at (mem (Machine.sh s)) s1 /\ forall k, k ∈ contents s1 <-> 0 <= k < count.
Proof.
  intros Hc Hr He Hfit Hs Hn Hf.
  destruct (finished_one (H2 := laws) is_trivial m0 t (prefill node_of count) lo n evs s s0 (ordered_no_std 0 std_hash head_at tail_at fuel) Hr)
    as (Hrep & _); [|done..|].
  { intros ops' Hsub. apply ordered_admissible. by eapply ordered_fit_sub. }
  eexists. split; [exact Hrep|]. intros k. pose proof (proj1 (adds_run node_of (seqZ 0 count) s0)) as E.
  change (contents (ob_run (H := object) (prefill node_of count) s0).2 =
    list_to_set ((fun i => to_int (std_hash i)) <$> seqZ 0 count) ∪ contents s0) in E.
  rewrite E, He, union_empty_r_L, elem_of_list_to_set, list_elem_of_fmap. split.
  - intros (i & -> & Hi%elem_of_seqZ). rewrite (proj1 (bench_key i ltac:(lia))). lia.
  - intros Hk. exists k. rewrite (proj1 (bench_key k ltac:(lia))). split; [done|]. apply elem_of_seqZ. lia.
Qed.

(** The benchmark ends with a list of keys below [key_range] in order, and the
    answers of [add] and [remove] account for its length. *)
Lemma run_benchmark_ends is_trivial m0 w draws lo key_range n evs s s0 :
  0 <= key_range < 2 ^ 31 - 1 -> (forall t ds, draws !! t = Some ds -> Forall (fun d => 0 <= d_key d < key_range) ds) ->
  object_rep 0 std_hash head_at tail_at m0 s0 -> (forall k, k ∈ contents s0 -> 0 <= k < key_range) ->
  fit_ops std_hash head_at tail_at fuel (all_ops (run_threads w draws lo)) s0 ->
  Machine.steps (LS := LS) is_trivial n (Machine.init m0 (calls (H1 := object) <$> run_threads w draws lo)) evs s ->
  Z.of_nat n < 2 ^ 63 -> finished s ->
  exists ns sched, rep 0 std_hash head_at tail_at (mem (Machine.sh s)) ns /\
    sched.*2 ≡ₚ all_ops (run_threads w draws lo) /\
    (forall t th, Machine.ths s !! t = Some th -> results th = Val <$> answers_of (H1 := object) t sched s0) /\
    Forall (fun b => 0 <= key b < key_range) ns /\
    Z.of_nat (length ns) = Z.of_nat (size (contents s0)) + changes (zip sched.*2 (ob_run (H := object) sched.*2 s0).1).
Proof.
  intros Hkr Hd Hr H0' Hfit Hs Hn Hf.
  destruct (finished_run (H2 := laws) is_trivial m0 _ n evs s (ordered_no_std 0 std_hash head_at tail_at fuel) Hs Hn s0 Hr)
    as (sched & _ & Hp & Hth & ns & Hrep & Hk & _); [|done|].
  { intros sched Hil. apply ordered_admissible. eapply ordered_fit_sub; [exact (interleaves_all _ _ Hil)|done]. }
  exists ns, sched. split; [done|]. split; [done|]. split; [intros t th Ht; apply (Hth t th Ht)|].
  change (keys ns = contents (ob_run (H := object) sched.*2 s0).2) in Hk. split.
  - apply Forall_forall. intros b Hb. assert (Hin : key b ∈ keys ns) by (apply (elem_keys 0 std_hash); by exists b).
    rewrite Hk in Hin. apply keys_from in Hin as [Hin|(o & -> & Ho)%list_elem_of_fmap]; [by apply H0'|].
    rewrite Hp in Ho. apply list_elem_of_bind in Ho as ([t [ops lo']] & Ho & Ht). apply elem_of_map_to_list in Ht.
    unfold run_threads in Ht. rewrite lookup_fmap in Ht. apply fmap_Some in Ht as (ds & Hds & [= -> ->]).
    apply list_elem_of_fmap in Ho as (d & -> & Hin). specialize (Hd t ds Hds). rewrite Forall_forall in Hd. specialize (Hd d Hin).
    assert (Ek : key_of std_hash (choose w d) = to_int (std_hash (d_key d)))
      by (unfold choose; repeat case_match; done).
    rewrite Ek, (proj1 (bench_key (d_key d) ltac:(lia))). done.
  - rewrite <- size_changes, <- Hk. unfold keys. rewrite size_list_to_set; [by rewrite length_fmap|].
    pose proof (rep_sorted _ _ _ _ _ _ Hrep) as Hsrt. clear -Hsrt.
    induction Hsrt as [|b ns _ IH Hb]; [constructor|]. rewrite fmap_cons. constructor; [|done].
    intros (c & E & Hc)%list_elem_of_fmap. rewrite Forall_forall in Hb. specialize (Hb c Hc). lia.
Qed.
End Threads.
End Object.
End Workloads.
End ListBench.

(** ** The linked list: [graphs/linked_list/bench.cc]

    The runs with one thread: with more, a thread can read a node that another one's
    [remove] has deleted.  The random numbers, and the nodes that [add] allocates, are
    arguments; the answers of the calls are not used. *)
Module LinkedBench.
Import LinkedList.
Section Alone.
Context (at_ : list_at) (fuel : nat).
Implicit Types (m : gmap addr_t (cell Z)) (l : list (node * Z)).

Inductive turn := Contains (key : Z) | Add (n : node) (key : Z) | Remove (key : Z).

(** A turn of the loop: the two random numbers, and the node that [add] would allocate. *)
Record draw := Draw { d_op : Z; d_key : Z; d_node : node }.
Definition choose (w : ListBench.Workload) (d : draw) : turn :=
  if d_op d <? ListBench.contains_pct w then Contains (d_key d)
  else if d_op d <? ListBench.contains_pct w + ListBench.add_pct w then Add (d_node d) (d_key d)
  else Remove (d_key d).

Definition prefill (node_of : Z -> node) (count : Z) : list turn := (fun i => Add (node_of i) i) <$> seqZ 0 count.

(** A call by the only thread; [remove] deletes the node that it unlinked. *)
Definition do_turn (q : turn) m : option (gmap addr_t (cell Z)) :=
  match q with
  | Contains x =>
      let tr := contains Z.eqb at_ fuel x in
      match Tx.run (body tr) (prepare tr false) m with Some (Val _, _, m') => Some m' | _ => None end
  | Add n x =>
      let tr := add at_ n x in
      match Tx.run (body tr) (prepare tr false) m with Some (Val _, _, m') => Some m' | _ => None end
  | Remove x =>
      let tr := remove Z.eqb at_ fuel x in
      match Tx.run (body tr) (prepare tr false) m with Some (Val nd, _, m') => Some (delete_node nd m') | _ => None end
  end.

Fixpoint do_turns (qs : list turn) m : option (gmap addr_t (cell Z)) :=
  match qs with [] => Some m | q :: qs' => do_turn q m ≫= do_turns qs' end.

Definition run_benchmark (w : ListBench.Workload) (node_of : Z -> node) (count : Z) (draws : list draw) m :=
  do_turns (prefill node_of count ++ (choose w <$> draws)) m.

(** What the turns should do to the list. *)
Definition apply_turn l (q : turn) : list (node * Z) :=
  match q with Contains _ => l | Add n x => (n, x) :: l | Remove x => remove_first Z.eqb x l end.

Definition new_cells (q : turn) : list addr_t := match q with Add n _ => node_cells n | _ => [] end.

Lemma remove_first_sublist x l : remove_first Z.eqb x l `sublist_of` l.
Proof.
  induction l as [|[n v] l IH]; [done|]. cbn [remove_first]. destruct (v =? x); [by apply sublist_cons|by apply sublist_skip].
Qed.

Lemma cells_sublist l l' : l' `sublist_of` l -> of_list at_ l' `sublist_of` of_list at_ l.
Proof.
  intros Hs. do 2 apply sublist_skip. induction Hs as [|[n v] l1 l2 _ IH|[n v] l1 l2 _ IH]; [done| |].
  - change (node_cells n ++ cells l1 `sublist_of` node_cells n ++ cells l2). by apply sublist_app.
  - by apply (sublist_inserts_l (node_cells n)).
Qed.

Lemma do_turns_spec qs m l : rep at_ m l -> NoDup ((qs ≫= new_cells) ++ of_list at_ l) -> (length l + length qs <= fuel)%nat ->
  exists m', do_turns qs m = Some m' /\ rep at_ m' (foldl apply_turn l qs).
Proof.
  revert m l. induction qs as [|q qs IH]; intros m l Hr Hd Hf; [by exists m|]. rewrite bind_cons, <- app_assoc in Hd. simpl in Hf.
  cbn [do_turns foldl]. destruct q as [x|n x|x]; cbn [do_turn new_cells apply_turn app] in *.
  - unfold contains. cbn [body]. rewrite (run_contains Z.eqb at_ fuel x) with (l := l) by (done || lia). cbn [mbind option_bind].
    apply IH; [done..|lia].
  - unfold add, add_body, id. cbn [body prepare]. destruct (run_add at_ n x tt false m l Hr) as (m' & -> & Hr' & _).
    { eapply sublist_NoDup; [exact Hd|]. by apply sublist_app, sublist_inserts_l. }
    cbn [mbind option_bind]. apply IH; [done| |simpl; lia].
    assert (E : (qs ≫= new_cells) ++ of_list at_ ((n, x) :: l) ≡ₚ node_cells n ++ (qs ≫= new_cells) ++ of_list at_ l)
      by (unfold of_list; simpl; solve_Permutation).
    by rewrite E.
  - unfold remove. cbn [body prepare]. destruct (run_remove Z.eqb at_ fuel x m l Hr) as (m' & nd & -> & Hr'); [lia|].
    cbn [mbind option_bind]. pose proof (remove_first_sublist x l) as Hsub. apply IH; [done| |].
    + eapply sublist_NoDup; [exact Hd|]. by apply sublist_app; [|apply cells_sublist].
    + pose proof (sublist_length _ _ Hsub). lia.
Qed.
Lemma items_from qs l n x : (n, x) ∈ foldl apply_turn l qs -> (n, x) ∈ l \/ Add n x ∈ qs.
Proof.
  revert l. induction qs as [|q qs IH]; intros l; [by left|]. cbn [foldl]. intros [Hin|Hin]%IH; [|right; by right].
  destruct q as [y|k y|y]; cbn [apply_turn] in Hin; [by left| |].
  - apply elem_of_cons in Hin as [[= -> ->]|Hin]; [right; by left|by left].
  - left. eapply elem_of_sublist; [exact Hin|apply remove_first_sublist].
Qed.

(** The benchmark run by one thread on an empty list ends, with items in range. *)
Lemma run_benchmark_alone w node_of count draws key_range m :
  rep at_ m [] -> 0 <= count <= key_range -> Forall (fun d => 0 <= d_key d < key_range) draws ->
  NoDup (((prefill node_of count ++ (choose w <$> draws)) ≫= new_cells) ++ of_list (T := Z) at_ []) ->
  (Z.to_nat count + length draws <= fuel)%nat ->
  exists m' l, run_benchmark w node_of count draws m = Some m' /\ rep at_ m' l /\
    Forall (fun b => 0 <= b.2 < key_range) l.
Proof.
  intros Hr Hc Hd Hn Hf. unfold run_benchmark. set (qs := prefill node_of count ++ (choose w <$> draws)) in *.
  destruct (do_turns_spec qs m [] Hr Hn) as (m' & E & Hr').
  { unfold qs, prefill. rewrite length_app, !length_fmap, length_seqZ. simpl. lia. }
  exists m', (foldl apply_turn [] qs). split; [done|]. split; [done|]. apply Forall_forall. intros [n x] Hin.
  apply items_from in Hin as [Hin|Hin]; [by apply elem_of_nil in Hin|]. apply elem_of_app in Hin as [Hin|Hin].
  - apply list_elem_of_fmap in Hin as (i & [= -> ->] & Hi%elem_of_seqZ). simpl. lia.
  - apply list_elem_of_fmap in Hin as (d & E' & Hdin). rewrite Forall_forall in Hd. specialize (Hd d Hdin).
    unfold choose in E'. repeat case_match; simplify_eq/=; lia.
Qed.
End Alone.
End LinkedBench.
