(* ===== verification/LinkedQueue.v ===== *)
(** * The linked queue of [.graphs/queue/queue.h]

    Nodes from a dummy at [head] to the newest at [tail]; the value of a node
    never changes, so a pointer carries it with the address of the node's
    [next].  A node is allocated at an address given to the operation; its
    constructor's store to [next] is among the writes of the transaction. *)

From S2P Require Import Prelude VersionLock LockTable Store Op LocSets Log Tx State LockGuard Machine History MachineInv Serializability Order Linearize Programs Links.

Module STMQueue.

Record node (T : Type) := Node { next_at : addr_t; value : T }.
Arguments Node {T} _ _.
Arguments next_at {T} _.
Arguments value {T} _.

Section Queue.
Context {T : Type} (head tail : addr_t).
Abbreviation pointer := (option (node T)).
(** [captured]: the variable [result] of [dequeue]. *)
Abbreviation body_t A := (tx pointer (option T) A).
Implicit Types (m : gmap addr_t pointer) (l : list (node T)).

Definition deref {A} (p : pointer) (k : node T -> body_t A) : body_t A :=
  match p with Some n => k n | None => Throw (other_exception 1) end.

(** [new Node(v)]. *)
Definition new_node {A} (n : node T) (k : body_t A) : body_t A := Write (next_at n) None k.

(** The constructor's transaction. *)
Definition init_body (dummy : node T) : body_t unit :=
  new_node dummy (Write head (Some dummy) (Write tail (Some dummy) (Ret tt))).

Definition enqueue_body (n : node T) : body_t unit :=
  new_node n
    (Read tail (fun p => deref p (fun t =>
       Write (next_at t) (Some n) (Write tail (Some n) (Ret tt))))).

Definition dequeue_body : body_t (option T) :=
  Read head (fun p => deref p (fun h =>
    Read (next_at h) (fun next =>
      match next with
      | None => SetL None (GetL Ret)
      | Some n => SetL (Some (value n)) (Write head next (GetL Ret))
      end))).

(** The calls: nothing is passed to [atomically]. *)
Definition STMQueue (dummy : node T) : txn pointer (option T) unit := Txn id (init_body dummy) (fun _ now => now).
Definition enqueue (n : node T) : txn pointer (option T) unit := Txn id (enqueue_body n) (fun _ now => now).
Definition dequeue : txn pointer (option T) (option T) := Txn (fun _ => None) dequeue_body (fun _ now => now).

(** From [d] through the nodes of [l], the last of which has no next. *)
Fixpoint chain m (d : node T) l : Prop :=
  match l with
  | [] => m !! next_at d = Some None
  | n :: r => m !! next_at d = Some (Some n) /\ chain m n r
  end.

(** The nodes of a queue: the dummy and the others. *)
Record rep m (d : node T) l : Prop := {
  rep_head : m !! head = Some (Some d);
  rep_tail : m !! tail = Some (Some (last_of d l));
  rep_chain : chain m d l;
  rep_nodup : NoDup (head :: tail :: (next_at <$> d :: l)) }.

Lemma chain_frame x v m d l : x ∉ next_at <$> (d :: l) -> chain m d l -> chain (<[x := v]> m) d l.
Proof.
  revert d. induction l as [|n l IH]; intros d Hx; simpl in *.
  - intros Hd. rewrite lookup_insert_ne; [done|]. intros ->. apply Hx. by left.
  - intros [Hd Hl]. split; [|apply IH; [|done]; intros Hin; apply Hx; by right].
    rewrite lookup_insert_ne; [done|]. intros ->. apply Hx. by left.
Qed.

Lemma chain_snoc m d l n : NoDup (next_at <$> (d :: l ++ [n])) -> chain m d l -> m !! next_at n = Some None ->
  chain (<[next_at (last_of d l) := Some n]> m) d (l ++ [n]).
Proof.
  revert d. induction l as [|b l IH]; intros d Hn Hl Hnext; simpl in *.
  - split; [apply lookup_insert_eq|]. rewrite lookup_insert_ne; [done|].
    intros E. apply NoDup_cons in Hn as [Hn _]. apply Hn. rewrite E. by left.
  - destruct Hl as [Hd Hl]. apply NoDup_cons in Hn as [Hnd Hn]. split; [|by apply IH].
    rewrite lookup_insert_ne; [done|]. intros E. apply Hnd. rewrite <- E.
    change (next_at (last_of b l) ∈ next_at <$> (b :: l) ++ [n]). rewrite fmap_app. apply elem_of_app. left.
    apply list_elem_of_fmap_2, last_of_elem.
Qed.

Lemma last_of_snoc (d n : node T) l : last_of d (l ++ [n]) = n.
Proof. revert d. induction l as [|b l IH]; intros d; [done|]. apply IH. Qed.

(** ** The transactions *)

Lemma linked_run_init (n : node T) lo m : NoDup [head; tail; next_at n] ->
  exists m', Tx.run (init_body n) lo m = Some (Val tt, lo, m') /\ rep m' n [].
Proof.
  intros Hn. eexists. split; [reflexivity|].
  assert (Hne : head <> tail /\ head <> next_at n /\ tail <> next_at n).
  { apply NoDup_cons in Hn as [H1 [H2 _]%NoDup_cons]. rewrite !not_elem_of_cons in H1. set_solver. }
  destruct Hne as (H1 & H2 & H3). constructor; [| | |done]; simpl;
    rewrite ?lookup_insert_eq, ?lookup_insert_ne, ?lookup_insert_eq by done; done.
Qed.

Lemma linked_run_enqueue (n : node T) lo m d l : rep m d l -> next_at n ∉ head :: tail :: (next_at <$> d :: l) ->
  exists m', Tx.run (enqueue_body n) lo m = Some (Val tt, lo, m') /\ rep m' d (l ++ [n]).
Proof.
  intros [Hh Ht Hc Hn] Hnew. apply not_elem_of_cons in Hnew as [H1 [H2 Hnew]%not_elem_of_cons].
  pose proof Hn as [Hh' [Ht' Hn']%NoDup_cons]%NoDup_cons. apply not_elem_of_cons in Hh' as [Hht Hh'].
  assert (Hlast : next_at (last_of d l) ∈ next_at <$> d :: l) by (apply list_elem_of_fmap_2; apply last_of_elem).
  unfold enqueue_body, new_node. cbn [Tx.run]. rewrite lookup_insert_ne, Ht by done. cbn [deref Tx.run].
  eexists. split; [reflexivity|]. constructor.
  - rewrite !lookup_insert_ne; [done|done|by intros <-|done].
  - rewrite last_of_snoc. apply lookup_insert_eq.
  - assert (Hp : next_at <$> d :: l ++ [n] ≡ₚ next_at n :: (next_at <$> d :: l))
      by (simpl; rewrite fmap_app; simpl; solve_Permutation).
    apply chain_frame.
    { rewrite Hp. apply not_elem_of_cons. done. }
    apply chain_snoc; [rewrite Hp; by constructor| |apply lookup_insert_eq]. by apply chain_frame.
  - assert (Hp : head :: tail :: (next_at <$> d :: l ++ [n]) ≡ₚ next_at n :: head :: tail :: (next_at <$> d :: l))
      by (simpl; rewrite fmap_app; simpl; solve_Permutation).
    rewrite Hp. constructor; [rewrite !not_elem_of_cons|]; done.
Qed.

Lemma linked_run_dequeue lo m d l : rep m d l ->
  match l with
  | [] => Tx.run dequeue_body lo m = Some (Val None, None, m)
  | b :: r => exists m', Tx.run dequeue_body lo m = Some (Val (Some (value b)), Some (value b), m') /\ rep m' b r
  end.
Proof.
  intros [Hh Ht Hc Hn]. unfold dequeue_body. destruct l as [|b r]; simpl in Hc; cbn [Tx.run]; rewrite Hh; cbn [deref Tx.run].
  - by rewrite Hc.
  - destruct Hc as [Hd Hc]. rewrite Hd. cbn [Tx.run]. eexists. split; [reflexivity|].
    pose proof Hn as [Hh' [Ht' Hn']%NoDup_cons]%NoDup_cons. apply not_elem_of_cons in Hh' as [Hht Hh'].
    simpl in Hh', Ht', Hn'. apply not_elem_of_cons in Hh' as [_ Hh']. apply not_elem_of_cons in Ht' as [_ Ht'].
    apply NoDup_cons in Hn' as [_ Hn']. constructor.
    + apply lookup_insert_eq.
    + rewrite lookup_insert_ne by done. exact Ht.
    + by apply chain_frame.
    + constructor; [by apply not_elem_of_cons|]. by constructor.
Qed.

(** The linked queue is a queue.  The constructor makes an empty queue;
    [enqueue] of a fresh node puts its value at the end; [dequeue] takes the
    first value, or answers none and changes nothing when there is none,
    whatever [result] held (an earlier attempt may have set it). *)
Theorem linked_queue_refines (n : node T) lo m :
  (NoDup [head; tail; next_at n] ->
   exists m', Tx.run (init_body n) lo m = Some (Val tt, lo, m') /\ rep m' n []) /\
  forall d l, rep m d l ->
  (next_at n ∉ head :: tail :: (next_at <$> d :: l) ->
   exists m', Tx.run (enqueue_body n) lo m = Some (Val tt, lo, m') /\ rep m' d (l ++ [n])) /\
  match l with
  | [] => Tx.run dequeue_body lo m = Some (Val None, None, m)
  | b :: r => exists m', Tx.run dequeue_body lo m = Some (Val (Some (value b)), Some (value b), m') /\ rep m' b r
  end.
Proof.
  split; [apply linked_run_init|]. intros d l Hr. split; [|exact (linked_run_dequeue lo m d l Hr)].
  intros Hn. by apply (linked_run_enqueue n lo m d l).
Qed.
End Queue.

Lemma linked_queue_refines_witness :
  exists m', Tx.run (enqueue_body 18 (Node 50 7)) None (<[10 := Some (Node 30 0)]> (<[18 := Some (Node 30 0)]> {[ 30 := None ]})) =
      Some (Val tt, None, m') /\ rep 10 18 m' (Node 30 0) [Node 50 7].
Proof.
  refine (proj1 (proj2 (linked_queue_refines 10 18 (Node 50 7) None _) (Node 30 0) [] _) _).
  - constructor; try done. apply (bool_decide_unpack _); by vm_compute.
  - apply (bool_decide_unpack _); by vm_compute.
Defined.
End STMQueue.

(** ** The queue under threads

    As an object of [Linearize]: calls of [enqueue], each with a node of its own, and
    of [dequeue] by any threads.  In any interleaving the calls are those on a queue:
    first in, first out.  Then the program of [.graphs/queue/bench.cc]. *)


Module QueueObject.
Import History STMQueue.
Section Object.
Context {T : Type} (head_at tail_at : addr_t).
Abbreviation pointer := (option (node T)).
Implicit Types (m : gmap addr_t pointer) (l : list (node T)).

Inductive op := Enqueue (n : node T) | Dequeue.

(** [enqueue] returns nothing. *)
Definition call (o : op) : txn pointer (option T) (option T) :=
  match o with
  | Enqueue n => Txn id (Tx.bind (enqueue_body tail_at n) (fun _ => Ret None)) (fun _ now => now)
  | Dequeue => dequeue head_at
  end.

(** The dummy, the nodes of the elements, and the addresses ever used. *)
Record queue_state := QueueState { dummy : node T; nodes : list (node T); taken : gset addr_t }.

Definition apply (o : op) (s : queue_state) : option T * queue_state :=
  match o with
  | Enqueue n => (None, QueueState (dummy s) (nodes s ++ [n]) ({[next_at n]} ∪ taken s))
  | Dequeue =>
      match nodes s with
      | [] => (None, s)
      | n :: r => (Some (value n), QueueState n r (taken s))
      end
  end.

Definition object_rep m (s : queue_state) : Prop :=
  rep head_at tail_at m (dummy s) (nodes s) /\
  forall a, a ∈ head_at :: tail_at :: (next_at <$> dummy s :: nodes s) -> a ∈ taken s.

(** A call of [enqueue] has a new node. *)
Definition new_of (o : op) : option addr_t := match o with Enqueue n => Some (next_at n) | Dequeue => None end.
Definition ready (o : op) (s : queue_state) : Prop := forall a, new_of o = Some a -> a ∉ taken s.

#[export] Instance linked_object : TxObject pointer (option T) (option T) op queue_state := {
  ob_call := call;
  ob_init _ _ := True;
  ob_rep := object_rep;
  ob_apply := apply }.

#[export] Instance linked_laws : TxGuardedLaws pointer (option T) (option T) op queue_state ready.
Proof.
  constructor; [done|done|]. intros o lo m [d l X] _ [Hr Ht] Hn. cbn [dummy nodes taken] in *.
  destruct o as [n|]; cbn [ob_call ob_apply linked_object call apply body dequeue].
  - specialize (Hn _ eq_refl). cbn [taken] in Hn. rewrite Tx.run_bind.
    destruct (linked_run_enqueue head_at tail_at n lo m d l Hr) as (m' & -> & Hr'); [intros Hin; by apply Hn, Ht|].
    eexists _, m'. split; [reflexivity|]. split; [done|]. cbn [dummy nodes taken snd]. intros a.
    rewrite app_comm_cons, fmap_app, !app_comm_cons, elem_of_app. intros [Ha%Ht|Ha]; [set_solver|].
    apply list_elem_of_singleton in Ha as ->. set_solver.
  - pose proof (linked_run_dequeue head_at tail_at lo m d l Hr) as Hd. cbn [nodes]. destruct l as [|b r].
    + rewrite Hd. by eexists _, m.
    + destruct Hd as (m' & -> & Hr'). eexists _, m'. split; [reflexivity|]. split; [done|]. cbn [dummy nodes taken snd].
      intros a Ha. apply Ht. simpl in *. rewrite !elem_of_cons in *. tauto.
Qed.

Lemma linked_no_std o : no_std (body (ob_call o)).
Proof.
  destruct o as [n|]; cbn [ob_call linked_object call body dequeue].
  - apply bind_no_std; [|done]. intros [t|]; done.
  - intros [h|]; [|done]. intros [b|]; by intros lo.
Qed.

(** ** Interleavings of programs *)

Definition new_nodes (ops : list op) : list addr_t := omap new_of ops.

(** Each call of [enqueue] has a node of its own, and none was used before. *)
Definition fit_ops (ops : list op) (s : queue_state) : Prop :=
  NoDup (new_nodes ops) /\ forall a, a ∈ new_nodes ops -> a ∉ taken s.

Lemma linked_fit_sub ops ops' s : ops' ⊆+ ops -> fit_ops ops s -> fit_ops ops' s.
Proof.
  intros Hsub [Hd Hn]. assert (Hn' : new_nodes ops' ⊆+ new_nodes ops) by by apply omap_submseteq_mono.
  split; [by eapply NoDup_submultiset|]. intros a Ha. apply Hn. by eapply elem_of_submseteq.
Qed.

Lemma linked_admissible ops s : fit_ops ops s -> admissible ready ops s.
Proof.
  revert s. induction ops as [|o ops IH]; intros s [Hd Hn]; [done|]. unfold new_nodes in *.
  destruct o as [n|]; simpl in Hd, Hn; (split; [intros a Ha; simplify_eq/=; apply Hn; by left|apply IH]); cbn [ob_apply linked_object apply].
  - apply NoDup_cons in Hd as [Hin Hd]. split; [done|]. intros a Ha [->%elem_of_singleton|Ht]%elem_of_union; [done|].
    apply (Hn a); [by right|done].
  - split; [done|]. intros a Ha. specialize (Hn a Ha). by destruct (nodes s).
Qed.

(** ** First in, first out *)

Definition enqueued (p : op * option T) : option T := match p.1 with Enqueue n => Some (value n) | Dequeue => None end.
Definition dequeued (p : op * option T) : option T := match p.1 with Enqueue _ => None | Dequeue => p.2 end.

Lemma linked_fifo_run ops s : (value <$> nodes s) ++ omap enqueued (zip ops (ob_run ops s).1) =
  omap dequeued (zip ops (ob_run ops s).1) ++ (value <$> nodes (ob_run ops s).2).
Proof.
  revert s. induction ops as [|o ops IH]; intros s; [simpl; by rewrite app_nil_r|]. cbn [ob_run].
  destruct (ob_apply o s) as [v s1] eqn:E. specialize (IH s1). destruct (ob_run ops s1) as [r s2]. cbn [fst snd] in *.
  destruct o as [n|]; cbn [ob_apply linked_object apply] in E.
  - injection E as <- <-. cbn. rewrite <- IH. simpl. by rewrite fmap_app, <- app_assoc.
  - destruct (nodes s) as [|n l] eqn:En; injection E as <- <-; cbn; [by rewrite <- IH, En|]. f_equal. exact IH.
Qed.

Section Threads.
Context {LS : Type} `{LocationSetLaws LS}.

(** [C24] The linked queue is a queue under threads.  Let threads run any programs of
    [enqueue], each call with a node that nobody used, and [dequeue], in any
    interleaving.  The calls act as a sequence in which each thread's are in
    program order and got their answers; when no commit is half done, the elements
    that were in the queue and then those enqueued, in the order of the sequence,
    are those dequeued, in that order, and then those in the queue. *)
Theorem linked_queue_fifo (is_trivial : addr_t -> bool) (m0 : gmap addr_t pointer)
  (progs : gmap tid_t (list op * option T)) n evs s s0 :
  object_rep m0 s0 -> fit_ops (all_ops progs) s0 ->
  Machine.steps (LS := LS) is_trivial n (Machine.init m0 (calls <$> progs)) evs s -> Z.of_nat n < 2 ^ 63 ->
  exists sched, interleaves progs sched /\ seen progs sched s0 s /\
    (quiescent s -> exists d l, rep head_at tail_at (mem (Machine.sh s)) d l /\
       (value <$> nodes s0) ++ omap enqueued (zip sched.*2 (ob_run sched.*2 s0).1) =
         omap dequeued (zip sched.*2 (ob_run sched.*2 s0).1) ++ (value <$> l)).
Proof.
  intros Hr Hfit Hs Hn.
  destruct (programs_run is_trivial m0 progs n evs s linked_no_std Hs Hn s0 Hr) as (sched & order & Hil & Hseen & _).
  { intros sched Hil. apply linked_admissible. eapply linked_fit_sub; [exact (interleaves_all _ _ Hil)|done]. }
  exists sched. split; [done|]. split; [done|]. intros Hq. destruct (proj2 Hseen Hq) as [Hrep _].
  eexists _, _. split; [exact Hrep|apply linked_fifo_run].
Qed.

(** Run to the end, from an empty queue: no element is lost or taken twice. *)
Definition got (o : outcome (option T)) : option T := match o with Val v => v | Exn _ => None end.
Definition offered (o : op) : option T := match o with Enqueue n => Some (value n) | Dequeue => None end.

Lemma linked_balance ops s : omap enqueued (zip ops (ob_run ops s).1) = omap offered ops /\
  omap dequeued (zip ops (ob_run ops s).1) = omap id (ob_run ops s).1.
Proof.
  revert s. induction ops as [|o ops IH]; intros s; [done|]. cbn [ob_run].
  destruct (ob_apply o s) as [v s1] eqn:E. specialize (IH s1). destruct (ob_run ops s1) as [r s2]. cbn [fst snd] in *.
  destruct IH as [IH1 IH2]. destruct o as [n|]; cbn [ob_apply linked_object apply] in E.
  - injection E as <- _. cbn. split; [by f_equal|exact IH2].
  - cbn. split; [exact IH1|]. destruct v; simpl; [by f_equal|exact IH2].
Qed.

Lemma linked_conserves (is_trivial : addr_t -> bool) (m0 : gmap addr_t pointer)
  (progs : gmap tid_t (list op * option T)) n evs s s0 :
  object_rep m0 s0 -> fit_ops (all_ops progs) s0 -> nodes s0 = [] ->
  Machine.steps (LS := LS) is_trivial n (Machine.init m0 (calls <$> progs)) evs s -> Z.of_nat n < 2 ^ 63 -> finished s ->
  exists d l, rep head_at tail_at (mem (Machine.sh s)) d l /\
    omap offered (all_ops progs) ≡ₚ omap got (all_results s) ++ (value <$> l).
Proof.
  intros Hr Hfit He Hs Hn Hf.
  destruct (finished_total is_trivial m0 progs n evs s linked_no_std Hs Hn s0 Hr) as (sched & Hp & Hall & [Hrep _]); [|done|].
  { intros sched Hil. apply linked_admissible. eapply linked_fit_sub; [exact (interleaves_all _ _ Hil)|done]. }
  eexists _, _. split; [exact Hrep|]. pose proof (linked_fifo_run sched.*2 s0) as Hfifo. rewrite He in Hfifo.
  destruct (linked_balance sched.*2 s0) as [E1 E2]. rewrite E1, E2 in Hfifo. simpl in Hfifo.
  rewrite <- Hp, Hfifo. f_equiv. rewrite Hall. clear. induction (ob_run sched.*2 s0).1 as [|v r IH]; [done|].
  cbn. destruct v; [by constructor|done].
Qed.
End Threads.
End Object.
Arguments op : clear implicits.

(** [.graphs/queue/bench.cc]: in even turns a thread enqueues the number of the turn,
    in odd turns it dequeues; [node_of t i] is where the node of a turn is. *)
Definition bench_turn (node_of : tid_t -> Z -> addr_t) (t : tid_t) (i : Z) : op Z :=
  if i mod 2 =? 0 then Enqueue (Node (node_of t i) i) else Dequeue.
Definition benchmark (node_of : tid_t -> Z -> addr_t) (threads : gset tid_t) (ops_per_thread : nat) : gmap tid_t (list (op Z) * option Z) :=
  map_imap (fun t lo => Some (bench_turn node_of t <$> seqZ 0 (Z.of_nat ops_per_thread), lo)) (gset_to_gmap None threads).

Section Benchmark.
Context {LS : Type} `{LocationSetLaws LS} (head_at tail_at : addr_t).

(** The queue is left with even numbers below the number of turns. *)
Lemma benchmark_queue node_of (is_trivial : addr_t -> bool) m0 threads ops n evs s s0 :
  object_rep head_at tail_at m0 s0 -> nodes s0 = [] -> fit_ops (all_ops (benchmark node_of threads ops)) s0 ->
  Machine.steps (LS := LS) is_trivial n
    (Machine.init m0 (calls (H1 := linked_object head_at tail_at) <$> benchmark node_of threads ops)) evs s ->
  Z.of_nat n < 2 ^ 63 -> finished s ->
  exists d l, rep head_at tail_at (mem (Machine.sh s)) d l /\
    Forall (fun b => value b mod 2 = 0 /\ 0 <= value b < Z.of_nat ops) l.
Proof.
  intros Hr He Hfit Hs Hn Hf.
  destruct (linked_conserves head_at tail_at is_trivial m0 _ n evs s s0 Hr Hfit He Hs Hn Hf) as (d & l & Hrep & Hp).
  exists d, l. split; [done|]. apply Forall_forall. intros b Hb.
  assert (Hin : value b ∈ omap offered (all_ops (benchmark node_of threads ops)))
    by (rewrite Hp; apply elem_of_app; right; by apply list_elem_of_fmap_2).
  apply list_elem_of_omap in Hin as (o & ([t [p lo]] & Ho & Ht)%list_elem_of_bind & E). apply elem_of_map_to_list in Ht.
  unfold benchmark in Ht. rewrite map_lookup_imap in Ht. apply bind_Some in Ht as (lo' & _ & [= <- _]).
  apply list_elem_of_fmap in Ho as (i & -> & Hi%elem_of_seqZ). unfold bench_turn in E.
  destruct (Z.eqb_spec (i mod 2) 0); [|done]. injection E as E. rewrite <- E. lia.
Qed.
End Benchmark.
End QueueObject.
