(* ===== verification/Bank.v ===== *)
(** * The bank of [examples/bank]

    Transactions on the hash map of accounts, one of them made of the two others,
    and the logger that the server compares the accounts with.  [int] is checked:
    an overflow is undefined.  The nodes that [HashMap::set] may allocate are
    arguments. *)

From S2P Require Import Prelude Tx Machine LinkedList HashMap.
Import LinkedList HashMap.

Module Bank.
Section Bank.
Context {K : Type} `{Countable K} (m_hash : K -> Z) (buckets : Z -> list_at).

Record Account := Acc { balance : Z; name : K }.

(** The result of an [int] operation. *)
Definition int_ok (z : Z) : option Z := if (- 2 ^ 31 <=? z) && (z <? 2 ^ 31) then Some z else None.

Definition remove_balance (a : Account) (amt : Z) : option Account :=
  b ← int_ok (balance a - amt); Some (Acc b (name a)).
Definition add_balance (a : Account) (amt : Z) : option Account :=
  neg ← int_ok (- amt); remove_balance a neg.

(** A default-constructed account: what the node looked for has as its item. *)
Context (default_name : K).
Definition no_account : Account := Acc 0 default_name.

Abbreviation body_t := (tx (cell (LLNode (KeyT := K) (ItemT := Account))) bool unit).

Definition accounts_get (fuel : nat) (key : K) (k : option Account -> body_t) : body_t :=
  Tx.bind (get_body no_account m_hash buckets fuel key) k.
Definition accounts_set (fuel : nat) (key : K) (x : Account) (n : node) : body_t :=
  set_body no_account m_hash buckets fuel key x n.

(** An [int] expression in a body. *)
Definition with_int {A} (v : option A) (k : A -> body_t) : body_t :=
  match v with Some a => k a | None => Throw (other_exception 1) end.

Definition Withdraw_execute (fuel : nat) (m_name : K) (m_amt : Z) (n : node) : body_t :=
  accounts_get fuel m_name (fun a =>
    match a with
    | Some a => with_int (remove_balance a m_amt) (fun upd => accounts_set fuel m_name upd n)
    | None => accounts_set fuel m_name (Acc m_amt m_name) n
    end).

Definition Add_execute (fuel : nat) (m_name : K) (m_amt : Z) (n : node) : body_t :=
  accounts_get fuel m_name (fun a =>
    match a with
    | Some a => with_int (add_balance a m_amt) (fun upd => accounts_set fuel m_name upd n)
    | None => accounts_set fuel m_name (Acc m_amt m_name) n
    end).

(** A nested call is its body. *)
Definition Transfer_execute (fuel : nat) (m_src m_dest : K) (m_amt : Z) (n1 n2 : node) : body_t :=
  Tx.bind (Add_execute fuel m_dest m_amt n1) (fun _ => Withdraw_execute fuel m_src m_amt n2).

Inductive transaction := Withdraw (m_name : K) (m_amt : Z) | Add (m_name : K) (m_amt : Z)
  | Transfer (m_src m_dest : K) (m_amt : Z).

Definition execute_body (fuel : nat) (t : transaction) (n1 n2 : node) : body_t :=
  match t with
  | Withdraw x amt => Withdraw_execute fuel x amt n1
  | Add x amt => Add_execute fuel x amt n1
  | Transfer src dest amt => Transfer_execute fuel src dest amt n1 n2
  end.

Definition execute (fuel : nat) (t : transaction) (n1 n2 : node) : txn (cell LLNode) bool unit :=
  Txn id (execute_body fuel t n1 n2) (fun _ now => now).

(** *** The logger *)

(** [m_accounts[name] += amt]: a missing entry starts at 0. *)
Definition log_change (x : K) (amt : Z) (log : gmap K Z) : option (gmap K Z) :=
  b ← int_ok (default 0 (log !! x) + amt); Some (<[x := b]> log).
Definition log_sub (x : K) (amt : Z) (log : gmap K Z) : option (gmap K Z) :=
  b ← int_ok (default 0 (log !! x) - amt); Some (<[x := b]> log).

Definition log_transaction (t : transaction) (log : gmap K Z) : option (gmap K Z) :=
  match t with
  | Withdraw x amt => log_sub x amt log
  | Add x amt => log_change x amt log
  | Transfer src dest amt => log' ← log_sub src amt log; log_change dest amt log'
  end.

(** [Logger::check] against the accounts that [accounts.get] answers with. *)
Definition check (log : gmap K Z) (accounts : K -> option Account) : bool :=
  forallb (fun '(x, b) => match accounts x with Some a => balance a =? b | None => true end) (map_to_list log).

(** ** What a transaction does to the accounts *)

Abbreviation bank := (K -> option Account).
Definition set_account (f : bank) (x : K) (a : Account) : bank := fun y => if decide (y = x) then Some a else f y.

Definition withdraw_spec (f : bank) (x : K) (amt : Z) : option bank :=
  match f x with
  | Some a => upd ← remove_balance a amt; Some (set_account f x upd)
  | None => Some (set_account f x (Acc amt x))
  end.
Definition add_spec (f : bank) (x : K) (amt : Z) : option bank :=
  match f x with
  | Some a => upd ← add_balance a amt; Some (set_account f x upd)
  | None => Some (set_account f x (Acc amt x))
  end.
Definition execute_spec (f : bank) (t : transaction) : option bank :=
  match t with
  | Withdraw x amt => withdraw_spec f x amt
  | Add x amt => add_spec f x amt
  | Transfer src dest amt => f' ← add_spec f dest amt; withdraw_spec f' src amt
  end.

Implicit Types (m : gmap addr_t (cell (LLNode (KeyT := K) (ItemT := Account)))) (b : Z -> list (node * LLNode (KeyT := K) (ItemT := Account))).
Abbreviation lookup := (lookup_key no_account m_hash).

(** What a body that sets one account has to do. *)
Definition sets_account (p : body_t) lo m b (o : option bank) (n : node) : Prop :=
  match o with
  | Some f' => exists m' b', Tx.run p lo m = Some (Val tt, lo, m') /\ rep buckets m' b' /\
      (forall i, length (b' i) <= S (length (b i)))%nat /\ (forall x, lookup b' x = f' x) /\
      forall n', fresh buckets n' b -> (forall a, a ∈ node_cells n -> a ∉ node_cells n') -> fresh buckets n' b'
  | None => Tx.run p lo m = Some (Exn (other_exception 1), lo, m)
  end.

Lemma run_accounts_set fuel x a n lo m b f : rep buckets m b -> fresh buckets n b ->
  (forall i, length (b i) <= fuel)%nat -> (forall y, lookup b y = f y) ->
  sets_account (accounts_set fuel x a n) lo m b (Some (set_account f x a)) n.
Proof.
  intros Hr Hn Hf Hl.
  destruct (run_set no_account m_hash buckets fuel x a n lo m b Hr Hn (Hf _)) as (m' & b' & ? & ? & ? & Hb & ?).
  exists m', b'. repeat (split; [done|]). split; [|done]. intros y. rewrite Hb. unfold set_account. by rewrite Hl.
Qed.

(** [Withdraw] and [Add] differ by the arithmetic only. *)
Lemma run_change (op : Account -> option Account) fuel x amt n lo m b f : rep buckets m b -> fresh buckets n b ->
  (forall i, length (b i) <= fuel)%nat -> (forall y, lookup b y = f y) ->
  sets_account (accounts_get fuel x (fun a =>
      match a with
      | Some a => with_int (op a) (fun upd => accounts_set fuel x upd n)
      | None => accounts_set fuel x (Acc amt x) n
      end)) lo m b
    (match f x with Some a => upd ← op a; Some (set_account f x upd) | None => Some (set_account f x (Acc amt x)) end) n.
Proof.
  intros Hr Hn Hf Hl. unfold sets_account, accounts_get. rewrite Tx.run_bind.
  rewrite (proj1 (run_get_key no_account m_hash buckets fuel x lo m b Hr (Hf _))), Hl.
  destruct (f x) as [a|]; [|by apply run_accounts_set]. destruct (op a) as [upd|]; simpl; [|done].
  by apply run_accounts_set.
Qed.

Lemma run_withdraw fuel x amt n lo m b f : rep buckets m b -> fresh buckets n b ->
  (forall i, length (b i) <= fuel)%nat -> (forall y, lookup b y = f y) ->
  sets_account (Withdraw_execute fuel x amt n) lo m b (withdraw_spec f x amt) n.
Proof. apply (run_change (fun a => remove_balance a amt)). Qed.

Lemma run_deposit fuel x amt n lo m b f : rep buckets m b -> fresh buckets n b ->
  (forall i, length (b i) <= fuel)%nat -> (forall y, lookup b y = f y) ->
  sets_account (Add_execute fuel x amt n) lo m b (add_spec f x amt) n.
Proof. apply (run_change (fun a => add_balance a amt)). Qed.

(** A transaction that overflows nowhere, and what it leaves for those after it. *)
Lemma run_execute fuel t n1 n2 lo m b f f' : rep buckets m b -> fresh buckets n1 b -> fresh buckets n2 b ->
  (forall a, a ∈ node_cells n1 -> a ∉ node_cells n2) ->
  (forall i, length (b i) < fuel)%nat -> (forall x, lookup b x = f x) -> execute_spec f t = Some f' ->
  exists m' b', Tx.run (execute_body fuel t n1 n2) lo m = Some (Val tt, lo, m') /\ rep buckets m' b' /\
    (forall i, length (b' i) <= length (b i) + 2)%nat /\ (forall x, lookup b' x = f' x) /\
    forall n', fresh buckets n' b -> (forall a, a ∈ node_cells n1 -> a ∉ node_cells n') ->
      (forall a, a ∈ node_cells n2 -> a ∉ node_cells n') -> fresh buckets n' b'.
Proof.
  intros Hr Hn1 Hn2 Hd Hf Hl He. assert (Hf' : forall i, (length (b i) <= fuel)%nat) by (intros i; specialize (Hf i); lia).
  destruct t as [x amt|x amt|src dest amt]; simpl in *.
  1: pose proof (run_withdraw fuel x amt n1 lo m b f Hr Hn1 Hf' Hl) as Hw.
  2: pose proof (run_deposit fuel x amt n1 lo m b f Hr Hn1 Hf' Hl) as Hw.
  1,2: unfold sets_account in Hw; rewrite He in Hw; destruct Hw as (m' & b' & ? & ? & Hlen & ? & Hfr);
    exists m', b'; repeat (split; [done|]); split; [intros i; specialize (Hlen i); lia|]; split; [done|auto].
  pose proof (run_deposit fuel dest amt n1 lo m b f Hr Hn1 Hf' Hl) as Ha. unfold sets_account in Ha.
  destruct (add_spec f dest amt) as [f1|]; [|done]. simpl in He.
  destruct Ha as (m1 & b1 & Ha & Hr1 & Hlen1 & Hl1 & Hfr1).
  assert (Hf1 : forall i, (length (b1 i) <= fuel)%nat) by (intros i; specialize (Hf i); specialize (Hlen1 i); lia).
  pose proof (run_withdraw fuel src amt n2 lo m1 b1 f1 Hr1 (Hfr1 n2 Hn2 Hd) Hf1 Hl1) as Hw. unfold sets_account in Hw.
  rewrite He in Hw. destruct Hw as (m' & b' & Hw & ? & Hlen2 & ? & Hfr2). exists m', b'.
  split; [|split; [done|]].
  { etrans; [exact (Tx.run_bind (Add_execute fuel dest amt n1) (fun _ => Withdraw_execute fuel src amt n2) lo m)|].
    by rewrite Ha, Hw. }
  split; [intros i; specialize (Hlen1 i); specialize (Hlen2 i); lia|]. split; [done|auto].
Qed.

(** [C27] The bank's transactions do what they say, in one piece.  On accounts [f]
    in memory, with two fresh nodes and fuel for the longest list: [Withdraw] and
    [Add] change one balance, or open the account with the amount, and
    [Transfer] is [Add] then [Withdraw]; nothing else changes.  When an [int]
    would overflow, the transaction stops there. *)
Theorem bank_refines fuel t n1 n2 lo m b f :
  rep buckets m b -> fresh buckets n1 b -> fresh buckets n2 b ->
  (forall a, a ∈ node_cells n1 -> a ∉ node_cells n2) ->
  (forall i, length (b i) < fuel)%nat -> (forall x, lookup b x = f x) ->
  match execute_spec f t with
  | Some f' => exists m' b', Tx.run (execute_body fuel t n1 n2) lo m = Some (Val tt, lo, m') /\
      rep buckets m' b' /\ forall x, lookup b' x = f' x
  | None => exists m', Tx.run (execute_body fuel t n1 n2) lo m = Some (Exn (other_exception 1), lo, m')
  end.
Proof.
  intros Hr Hn1 Hn2 Hd Hf Hl. assert (Hf' : forall i, (length (b i) <= fuel)%nat) by (intros i; specialize (Hf i); lia).
  destruct t as [x amt|x amt|src dest amt]; simpl.
  - pose proof (run_withdraw fuel x amt n1 lo m b f Hr Hn1 Hf' Hl) as Hw. unfold sets_account in Hw.
    destruct (withdraw_spec f x amt); [|by eauto]. destruct Hw as (m' & b' & ? & ? & _ & ? & _). eauto.
  - pose proof (run_deposit fuel x amt n1 lo m b f Hr Hn1 Hf' Hl) as Hw. unfold sets_account in Hw.
    destruct (add_spec f x amt); [|by eauto]. destruct Hw as (m' & b' & ? & ? & _ & ? & _). eauto.
  - pose proof (run_deposit fuel dest amt n1 lo m b f Hr Hn1 Hf' Hl) as Ha. unfold sets_account in Ha.
    pose proof (Tx.run_bind (Add_execute fuel dest amt n1) (fun _ => Withdraw_execute fuel src amt n2) lo m) as E.
    unfold Transfer_execute.
    destruct (add_spec f dest amt) as [f'|]; simpl; [|rewrite Ha in E; by eauto].
    destruct Ha as (m1 & b1 & Ha & Hr1 & Hlen & Hl1 & Hfresh). rewrite Ha in E.
    assert (Hf1 : forall i, (length (b1 i) <= fuel)%nat) by (intros i; specialize (Hf i); specialize (Hlen i); lia).
    pose proof (run_withdraw fuel src amt n2 lo m1 b1 f' Hr1 (Hfresh n2 Hn2 Hd) Hf1 Hl1) as Hw. unfold sets_account in Hw.
    rewrite <- E in Hw. destruct (withdraw_spec f' src amt); [|by eauto].
    destruct Hw as (m' & b' & ? & ? & _ & ? & _). eauto.
Qed.

(** ** The logger and the accounts *)

(** Transactions logged and executed one after another. *)
Fixpoint run_ops (ts : list transaction) (f : bank) (log : gmap K Z) : option (bank * gmap K Z) :=
  match ts with
  | [] => Some (f, log)
  | t :: ts => log' ← log_transaction t log; f' ← execute_spec f t; run_ops ts f' log'
  end.

(** Money is taken from existing accounts only. *)
Definition known (f : bank) (t : transaction) : Prop :=
  match t with
  | Withdraw x _ => f x <> None
  | Add _ _ => True
  | Transfer src dest _ => src = dest \/ f src <> None
  end.

Fixpoint all_known (ts : list transaction) (f : bank) : Prop :=
  match ts with
  | [] => True
  | t :: ts => known f t /\ forall f', execute_spec f t = Some f' -> all_known ts f'
  end.

Definition agree (f : bank) (log : gmap K Z) : Prop := forall x, balance <$> f x = log !! x.

Lemma int_ok_some z v : int_ok z = Some v -> v = z.
Proof. unfold int_ok. destruct (_ && _); [by intros [= <-]|done]. Qed.

Lemma add_spec_some f x amt f' : add_spec f x amt = Some f' ->
  exists u, f' = set_account f x u /\ balance u = default 0 (balance <$> f x) + amt.
Proof.
  unfold add_spec, add_balance, remove_balance. destruct (f x) as [a|] eqn:E; simpl; [|intros [= <-]; by eexists].
  destruct (int_ok (- amt)) as [neg|] eqn:E1; [|done]. simpl. destruct (int_ok (balance a - neg)) as [v|] eqn:E2; [|done].
  intros [= <-]. apply int_ok_some in E1 as ->, E2 as ->. eexists. split; [done|]. simpl. lia.
Qed.

Lemma withdraw_spec_some f x a amt f' : f x = Some a -> withdraw_spec f x amt = Some f' ->
  exists u, f' = set_account f x u /\ balance u = balance a - amt.
Proof.
  unfold withdraw_spec, remove_balance. intros ->. simpl. destruct (int_ok (balance a - amt)) as [v|] eqn:E; [|done].
  intros [= <-]. apply int_ok_some in E as ->. by eexists.
Qed.

Lemma log_change_some x amt log log' : log_change x amt log = Some log' -> log' = <[x := default 0 (log !! x) + amt]> log.
Proof. unfold log_change. destruct (int_ok _) as [v|] eqn:E; [|done]. intros [= <-]. by apply int_ok_some in E as ->. Qed.

Lemma log_sub_some x amt log log' : log_sub x amt log = Some log' -> log' = <[x := default 0 (log !! x) - amt]> log.
Proof. unfold log_sub. destruct (int_ok _) as [v|] eqn:E; [|done]. intros [= <-]. by apply int_ok_some in E as ->. Qed.

Lemma agree_set f log x u v : agree f log -> balance u = v -> agree (set_account f x u) (<[x := v]> log).
Proof.
  intros Ha <- y. unfold set_account. destruct (decide (y = x)) as [->|Hne]; [by rewrite lookup_insert_eq|].
  by rewrite lookup_insert_ne.
Qed.

Lemma agree_step f log t f' log' : agree f log -> known f t ->
  execute_spec f t = Some f' -> log_transaction t log = Some log' -> agree f' log'.
Proof.
  intros Ha Hk Hf Hlog. destruct t as [x amt|x amt|src dest amt]; simpl in *.
  - destruct (f x) as [a|] eqn:E; [|done]. apply (withdraw_spec_some f x a) in Hf as (u & -> & Hu); [|done].
    apply log_sub_some in Hlog as ->. apply agree_set; [done|]. by rewrite <- (Ha x), E.
  - apply add_spec_some in Hf as (u & -> & Hu). apply log_change_some in Hlog as ->. apply agree_set; [done|].
    by rewrite <- (Ha x).
  - destruct (add_spec f dest amt) as [f1|] eqn:E1; [|done]. destruct (log_sub src amt log) as [log1|] eqn:E2; [|done].
    simpl in Hf, Hlog. apply add_spec_some in E1 as (u & -> & Hu).
    apply log_sub_some in E2 as ->. apply log_change_some in Hlog as ->. destruct (decide (src = dest)) as [->|Hne].
    + assert (Eu : set_account f dest u dest = Some u) by (unfold set_account; by rewrite decide_True).
      apply (withdraw_spec_some _ _ u) in Hf as (w & -> & Hw); [|done]. rewrite lookup_insert_eq, insert_insert_eq.
      intros y. specialize (Ha y). unfold set_account. destruct (decide (y = dest)) as [->|Hy].
      * rewrite lookup_insert_eq, <- Ha. simpl. f_equal. lia.
      * by rewrite lookup_insert_ne.
    + destruct Hk as [|Hk]; [done|]. destruct (f src) as [a|] eqn:E; [|done].
      assert (Eu : set_account f dest u src = Some a) by (unfold set_account; by rewrite decide_False).
      apply (withdraw_spec_some _ _ a) in Hf as (w & -> & Hw); [|done]. rewrite (lookup_insert_ne log) by done.
      rewrite insert_insert_ne by done. apply agree_set; [|by rewrite <- (Ha src), E].
      apply agree_set; [done|]. by rewrite <- (Ha dest).
Qed.

Lemma agree_run ts f log f' log' : agree f log -> all_known ts f -> run_ops ts f log = Some (f', log') -> agree f' log'.
Proof.
  revert f log. induction ts as [|t ts IH]; intros f log Ha Hk Hr; simpl in *; [by simplify_eq|].
  destruct Hk as [Hk Hks]. destruct (log_transaction t log) as [log1|] eqn:E1; [|done].
  destruct (execute_spec f t) as [f1|] eqn:E2; [|done]. simpl in Hr.
  apply (IH f1 log1); [by eapply agree_step|by apply Hks|done].
Qed.

Lemma check_spec log f : check log f = true <->
  forall x v a, log !! x = Some v -> f x = Some a -> balance a = v.
Proof.
  unfold check. rewrite forallb_forall. split.
  - intros Hc x v a Hx Hf. specialize (Hc (x, v)). simpl in Hc. rewrite Hf in Hc. apply Z.eqb_eq, Hc.
    by apply list_elem_of_In, elem_of_map_to_list.
  - intros Hc [x v] Hin%list_elem_of_In%elem_of_map_to_list. destruct (f x) as [a|] eqn:E; [|done].
    apply Z.eqb_eq. by eapply Hc.
Qed.

(** [C29] What the server's check says.  Transactions that are logged and executed
    one after another, money being taken from existing accounts only, leave the
    logger and the accounts in agreement; after a [Withdraw] of an amount
    that is not 0 from a missing account, which opens it with the amount instead
    of its opposite, the check fails; and against an empty map of accounts it always passes. *)
Theorem logger_check (f : bank) log :
  agree f log ->
  (forall ts f' log', all_known ts f -> run_ops ts f log = Some (f', log') -> check log' f' = true) /\
  (forall x amt f' log', f x = None -> amt <> 0 -> run_ops [Withdraw x amt] f log = Some (f', log') ->
     check log' f' = false) /\
  (forall log', check log' (fun _ => None) = true).
Proof.
  intros Ha. split; [|split].
  - intros ts f' log' Hk Hr. pose proof (agree_run _ _ _ _ _ Ha Hk Hr) as Ha'. apply check_spec.
    intros x v a Hx Hf. specialize (Ha' x). rewrite Hx, Hf in Ha'. by injection Ha'.
  - intros x amt f' log' Hx Hamt Hr. simpl in Hr. destruct (log_sub x amt log) as [log1|] eqn:E; [|done].
    apply log_sub_some in E as ->. simpl in Hr. unfold withdraw_spec in Hr. rewrite Hx in Hr. simpl in Hr.
    injection Hr as <- <-. apply not_true_is_false. intros Hc.
    pose proof (proj1 (check_spec _ _) Hc x _ (Acc amt x) (lookup_insert_eq _ _ _)) as Hb.
    unfold set_account in Hb. rewrite decide_True in Hb by done. specialize (Hb eq_refl). simpl in Hb.
    specialize (Ha x). rewrite Hx in Ha. rewrite <- Ha in Hb. simpl in Hb. lia.
  - intros log'. by apply check_spec.
Qed.
End Bank.

(** ** Witnesses *)

Definition nodes (i : Z) : node := Node (20000 + 16 * i) (20008 + 16 * i).

Lemma fresh_nodes i : 0 <= i -> fresh (KeyT := Z) (ItemT := Account (K := Z)) buckets_at (nodes i) (fun _ => []).
Proof.
  intros Hi j [H1 H2]. unfold HASH_MOD in H2. repeat (apply NoDup_cons; split; [|]); try apply NoDup_nil_2;
    unfold of_list; simpl; rewrite ?elem_of_cons, ?elem_of_nil; lia.
Qed.

Lemma bank_refines_witness :
  exists m' b', Tx.run (execute_body id buckets_at 0 1 (Transfer 7 (7 + 1024) 100) (nodes 0) (nodes 1)) false
      (empty_map buckets_at ∅) = Some (Val tt, false, m') /\
    rep buckets_at m' b' /\
    forall x, lookup_key (no_account 0) id b' x =
      set_account (set_account (fun _ => None) (7 + 1024) (Acc 100 (7 + 1024))) 7 (Acc 100 7) x.
Proof.
  refine (bank_refines id buckets_at 0 1 (Transfer 7 (7 + 1024) 100) (nodes 0) (nodes 1) false (empty_map buckets_at ∅)
    (fun _ => []) (fun _ => None) (rep_empty_map buckets_at buckets_at_inj ∅) (fresh_nodes 0 _) (fresh_nodes 1 _) _ _ _).
  - lia.
  - lia.
  - intros a. unfold node_cells, nodes. simpl. rewrite !elem_of_cons, elem_of_nil. lia.
  - intros i. simpl. lia.
  - done.
Defined.

Lemma logger_check_witness :
  match run_ops [Add 1 100; Transfer 1 2 30; Withdraw 2 10] (fun _ => None) (∅ : gmap Z Z) with
  | Some (f', log') => check log' f'
  | None => false
  end = true.
Proof.
  refine (proj1 (logger_check (fun _ => None) ∅ (fun _ => eq_refl)) [Add 1 100; Transfer 1 2 30; Withdraw 2 10] _ _ _ _).
  - split; [done|]. intros f1 [= <-]. split; [by right|]. intros f2 [= <-]. split; [done|]. done.
  - reflexivity.
Defined.
End Bank.
