(* ===== verification/BankServer.v ===== *)
(** * The bank's transactions on threads, and the server that makes them up

    [BankObject]: any threads running any transactions of [examples/bank], each a
    call of [atomically] on the machine of [Machine]; in any interleaving they
    take effect one after another.  [Server]: [Server::spin], which starts a
    thread for each transaction it makes up, with the accesses that it and the
    threads make to the objects they share without synchronisation (the random
    number generators and the logger). *)

From S2P Require Import Prelude VersionLock LockTable Store Op LocSets Log Tx State LockGuard Machine History MachineInv Serializability Order Linearize Programs LinkedList ListObject HashMap HashObject Bank.
Import LinkedList HashMap Bank.

Module BankObject.
Section Object.
Context {K : Type} `{Countable K} (m_hash : K -> Z) (buckets : Z -> list_at) (default_name : K) (fuel : nat).
Abbreviation cells_t := (cell (LLNode (KeyT := K) (ItemT := Account (K := K)))).
Abbreviation bank := (K -> option (Account (K := K))).
Abbreviation transaction := (transaction (K := K)).
Implicit Types (m : gmap addr_t cells_t) (f : bank) (t : transaction).

(** [t.execute()], with the nodes that its calls of [set] allocate. *)
Inductive op := Exec (t : transaction) (n1 n2 : node).
Definition transaction_of (o : op) : transaction := match o with Exec t _ _ => t end.
Definition nodes_of (o : op) : list node := match o with Exec _ n1 n2 => [n1; n2] end.

Definition call (o : op) : txn cells_t bool unit :=
  match o with Exec t n1 n2 => execute m_hash buckets default_name fuel t n1 n2 end.

(** The accounts, the nodes not used yet, and a bound on the accounts of a bucket. *)
Record bank_state := BankState { accounts : bank; spare : list node; most : nat }.

Definition unused (o : op) (n : node) : Prop := Forall (fun n' => HashObject.apart n' n) (nodes_of o).
#[local] Instance unused_dec o n : Decision (unused o n).
Proof. apply Forall_dec. intros n'. apply HashObject.apart_dec. Defined.

Definition apply (o : op) (s : bank_state) : unit * bank_state :=
  match execute_spec (accounts s) (transaction_of o) with
  | Some f => (tt, BankState f (filter (unused o) (spare s)) (most s + 2))
  | None => (tt, s)
  end.

(** No [int] overflows; the nodes are new; the loops have turns enough. *)
Definition ready (o : op) (s : bank_state) : Prop :=
  is_Some (execute_spec (accounts s) (transaction_of o)) /\ (most s < fuel)%nat /\
  match o with Exec _ n1 n2 => n1 ∈ spare s /\ n2 ∈ spare s /\ HashObject.apart n1 n2 end.

Definition object_rep m (s : bank_state) : Prop :=
  exists b, rep buckets m b /\ (forall x, lookup_key (no_account default_name) m_hash b x = accounts s x) /\
    (forall n, n ∈ spare s -> fresh buckets n b) /\ forall i, (length (b i) <= most s)%nat.

#[export] Instance bank_object : TxObject cells_t bool unit op bank_state := {
  ob_call := call;
  ob_init _ _ := True;
  ob_rep := object_rep;
  ob_apply := apply }.

#[export] Instance bank_laws : TxGuardedLaws cells_t bool unit op bank_state ready.
Proof.
  constructor; [by intros []|by intros []|].
  intros [t n1 n2] lo m s _ (b & Hr & Hl & Hsp & Hb) ([f' Hf'] & Hfuel & Hn1 & Hn2 & Ha).
  cbn [ob_call ob_apply ob_rep bank_object call execute body]. unfold apply. simpl in Hf'. simpl. rewrite Hf'. simpl.
  destruct (run_execute m_hash buckets default_name fuel t n1 n2 lo m b (accounts s) f') as (m' & b' & E & Hr' & Hlen & Hl' & Hfr);
    try done; auto; [intros i; specialize (Hb i); lia|].
  exists lo, m'. split; [exact E|]. exists b'. split; [done|]. split; [done|]. split; simpl.
  - intros n [Hu Hn]%list_elem_of_filter. apply Forall_cons in Hu as [Hu1 Hu]. apply Forall_cons in Hu as [Hu2 _].
    apply Hfr; auto.
  - intros i. specialize (Hlen i). specialize (Hb i). lia.
Qed.
(** ** No exception reaches the caller *)

Lemma bank_no_std o : no_std (body (ob_call o)).
Proof.
  destruct o as [t n1 n2]. cbn [ob_call bank_object call execute body].
  assert (Hset : forall x u n, no_std (accounts_set m_hash buckets default_name fuel x u n)) by (intros; apply HashObject.set_no_std).
  assert (Hint : forall (v : option (Account (K := K))) k, (forall u, no_std (k u)) -> no_std (with_int (K := K) v k))
    by (intros [u|] k Hk; [apply Hk|done]).
  assert (Hw : forall x amt n, no_std (Withdraw_execute m_hash buckets default_name fuel x amt n)).
  { intros x amt n. apply bind_no_std; [apply HashObject.get_no_std|]. intros [a|]; [apply Hint; auto|apply Hset]. }
  assert (Ha : forall x amt n, no_std (Add_execute m_hash buckets default_name fuel x amt n)).
  { intros x amt n. apply bind_no_std; [apply HashObject.get_no_std|]. intros [a|]; [apply Hint; auto|apply Hset]. }
  destruct t; [apply Hw|apply Ha|]. by apply bind_no_std.
Qed.

(** ** Bounds that exclude overflow *)

(** What a transaction can change a balance by. *)
Definition stake t : Z := match t with Withdraw _ amt | Add _ amt => Z.abs amt | Transfer _ _ amt => 2 * Z.abs amt end.
Definition bounded (B : Z) f : Prop := forall x a, f x = Some a -> Z.abs (balance a) <= B.

Lemma bounded_le B B' f : B <= B' -> bounded B f -> bounded B' f.
Proof. intros HB Hf x a Hx. specialize (Hf x a Hx). lia. Qed.

Lemma set_bounded B f x u : bounded B f -> Z.abs (balance u) <= B -> bounded B (set_account f x u).
Proof. intros Hf Hu y a. unfold set_account. case_decide; [by intros [= <-]|apply Hf]. Qed.

Lemma int_ok_abs z : Z.abs z < 2 ^ 31 -> int_ok z = Some z.
Proof. intros Hz. unfold int_ok. by rewrite (proj2 (Z.leb_le _ _)), (proj2 (Z.ltb_lt _ _)) by lia. Qed.

Lemma withdraw_bounded B f x amt : bounded B f -> 0 <= B -> B + Z.abs amt < 2 ^ 31 ->
  exists f', withdraw_spec f x amt = Some f' /\ bounded (B + Z.abs amt) f'.
Proof.
  intros Hf H0 HB. assert (Hf' : bounded (B + Z.abs amt) f) by (eapply bounded_le, Hf; lia).
  unfold withdraw_spec, remove_balance. destruct (f x) as [a|] eqn:E.
  - apply Hf in E. rewrite int_ok_abs by lia. simpl. eexists. split; [done|]. apply set_bounded; [done|]. simpl. lia.
  - eexists. split; [done|]. apply set_bounded; [done|]. simpl. lia.
Qed.

Lemma add_bounded B f x amt : bounded B f -> 0 <= B -> B + Z.abs amt < 2 ^ 31 ->
  exists f', add_spec f x amt = Some f' /\ bounded (B + Z.abs amt) f'.
Proof.
  intros Hf H0 HB. destruct (withdraw_bounded B f x (- amt) Hf H0) as (f' & E & Hf'); [lia|]. rewrite Z.abs_opp in Hf'.
  unfold add_spec, add_balance, withdraw_spec in *. rewrite int_ok_abs by lia. destruct (f x); [by exists f'|].
  eexists. split; [done|]. apply set_bounded; [eapply bounded_le, Hf; lia|]. simpl. lia.
Qed.

Lemma execute_bounded B f t : bounded B f -> 0 <= B -> B + stake t < 2 ^ 31 ->
  exists f', execute_spec f t = Some f' /\ bounded (B + stake t) f'.
Proof.
  intros Hf H0 HB. destruct t as [x amt|x amt|src dest amt]; simpl in *; [by apply withdraw_bounded|by apply add_bounded|].
  destruct (add_bounded B f dest amt Hf H0) as (f1 & -> & Hf1); [lia|]. simpl.
  destruct (withdraw_bounded (B + Z.abs amt) f1 src amt Hf1) as (f2 & -> & Hf2); [lia|lia|]. exists f2. split; [done|].
  eapply bounded_le, Hf2. lia.
Qed.

(** ** Interleavings of programs *)

Definition stakes (ops : list op) : Z := foldr (fun o n => stake (transaction_of o) + n) 0 ops.

Lemma stake_nonneg t : 0 <= stake t.
Proof. destruct t; simpl; lia. Qed.

Lemma stakes_app ops ops' : stakes (ops ++ ops') = stakes ops + stakes ops'.
Proof. induction ops as [|o ops IH]; simpl; [done|]. rewrite IH. lia. Qed.

Lemma stakes_nonneg ops : 0 <= stakes ops.
Proof. induction ops as [|o ops IH]; simpl; [done|]. pose proof (stake_nonneg (transaction_of o)). lia. Qed.

#[local] Instance stakes_perm : Proper (Permutation ==> eq) stakes.
Proof. intros l l' Hp. induction Hp; simpl; lia. Qed.

(** Every transaction has two nodes of its own among the spare ones, the loops
    have a turn for each, and the amounts together overflow no balance. *)
Record fit_ops (ops : list op) (s : bank_state) : Prop := {
  fit_nodes : NoDup ((ops ≫= nodes_of) ≫= node_cells);
  fit_spare : forall n, n ∈ ops ≫= nodes_of -> n ∈ spare s;
  fit_fuel : (most s + 2 * length ops <= fuel)%nat;
  fit_int : exists B, 0 <= B /\ bounded B (accounts s) /\ B + stakes ops < 2 ^ 31 }.

Lemma bank_fit_sub ops ops' s : ops' ⊆+ ops -> fit_ops ops s -> fit_ops ops' s.
Proof.
  intros [r Hp]%submseteq_Permutation [Hd Hs Hf (B & HB & Hb & Hi)]. rewrite Hp in Hi. rewrite Hp in Hd. rewrite Hp in Hf.
  rewrite !bind_app, NoDup_app in Hd. rewrite length_app in Hf. rewrite stakes_app in Hi. pose proof (stakes_nonneg r).
  constructor; [apply Hd| |lia|exists B; split_and!; [done|done|lia]].
  intros n Hn. apply Hs. rewrite Hp, bind_app. apply elem_of_app. by left.
Qed.

Lemma bank_admissible ops s : fit_ops ops s -> admissible ready ops s.
Proof.
  revert s. induction ops as [|[t n1 n2] ops IH]; intros s [Hd Hs Hf (B & HB & Hb & Hi)]; [done|].
  cbn [stakes foldr transaction_of] in Hi. fold (stakes ops) in Hi. pose proof (stakes_nonneg ops).
  destruct (execute_bounded B (accounts s) t Hb HB) as (f' & E & Hb'); [lia|]. simpl length in Hf.
  rewrite bind_cons, bind_app in Hd. cbn [nodes_of] in Hd. apply NoDup_app in Hd as (H12 & Hdis & Hd).
  rewrite !bind_cons, NoDup_app in H12. destruct H12 as (_ & H12 & _).
  assert (Hap : forall n', n' ∈ [n1; n2] -> forall n, n ∈ ops ≫= nodes_of -> HashObject.apart n' n).
  { intros n' Hn' n Hn a Ha Ha'. apply (Hdis a); apply list_elem_of_bind; eauto. }
  split.
  - split; [by eexists|]. split; [lia|]. split; [apply Hs; by left|]. split; [apply Hs; right; by left|].
    intros a Ha Ha'. apply (H12 a Ha). apply elem_of_app. by left.
  - cbn [ob_apply bank_object]. unfold apply. cbn [transaction_of]. rewrite E. simpl. apply IH. constructor; simpl.
    + done.
    + intros n Hn. apply list_elem_of_filter. split; [|apply Hs; rewrite bind_cons; apply elem_of_app; by right].
      apply Forall_forall. intros n' Hn'. by apply Hap.
    + lia.
    + exists (B + stake t). pose proof (stake_nonneg t). split; [lia|]. split; [done|lia].
Qed.

(** Transactions one after another. *)
Fixpoint run_bank (ts : list transaction) f : option bank :=
  match ts with [] => Some f | t :: ts => f' ← execute_spec f t; run_bank ts f' end.

Lemma bank_run ops s : admissible ready ops s ->
  run_bank (transaction_of <$> ops) (accounts s) = Some (accounts (ob_run ops s).2).
Proof.
  revert s. induction ops as [|o ops IH]; intros s Ha; [done|]. destruct Ha as [([f E] & _) Ha].
  specialize (IH _ Ha). cbn [ob_run]. cbn [ob_apply bank_object] in *. unfold apply in *. rewrite E in *.
  cbn [fmap list_fmap run_bank]. rewrite E. simpl in *. rewrite IH. by destruct (ob_run ops _).
Qed.

Section Threads.
Context {LS : Type} `{LocationSetLaws LS}.

(** [C28] The bank's transactions are serializable and each runs once.  Let
    threads run any programs of [Withdraw], [Add] and [Transfer], with two new
    nodes for each and amounts that together overflow no balance.  In any
    interleaving of the steps of the machine, the commits are transactions of the
    programs, each thread's in program order, one after another in the order of
    their versions, and no call throws; when no commit is half done the hash map
    holds the accounts they leave.  When all threads are at the ends of their
    programs, those are the accounts after all the transactions, each once, in
    some order, no balance having overflowed. *)
Theorem bank_linearizable (is_trivial : addr_t -> bool) (m0 : gmap addr_t cells_t)
  (progs : gmap tid_t (list op * bool)) n evs s (s0 : bank_state) :
  object_rep m0 s0 -> fit_ops (all_ops progs) s0 ->
  Machine.steps (LS := LS) is_trivial n (Machine.init m0 (calls <$> progs)) evs s -> Z.of_nat n < 2 ^ 63 ->
  (exists sched order, interleaves progs sched /\ seen progs sched s0 s /\
    order ≡ₚ evs /\ StronglySorted (fun e1 e2 => e_wv e1 < e_wv e2) order /\ Forall2 commits_at sched order /\
    run_bank (transaction_of <$> sched.*2) (accounts s0) = Some (accounts (ob_run sched.*2 s0).2)) /\
  (finished s -> exists ts f b, ts ≡ₚ transaction_of <$> all_ops progs /\ run_bank ts (accounts s0) = Some f /\
    rep buckets (mem (Machine.sh s)) b /\ forall x, lookup_key (no_account default_name) m_hash b x = f x).
Proof.
  intros Hr Hfit Hs Hn.
  assert (Hadm : forall sched, interleaves progs sched -> admissible ready sched.*2 s0)
    by (intros sched Hil; apply bank_admissible; eapply bank_fit_sub; [exact (interleaves_all _ _ Hil)|done]).
  split.
  - destruct (programs_run is_trivial m0 progs n evs s bank_no_std Hs Hn s0 Hr Hadm) as (sched & order & Hil & ? & ? & ? & ?).
    exists sched, order. repeat (split; [done|]). by apply bank_run, Hadm.
  - intros Hf. destruct (finished_run is_trivial m0 progs n evs s bank_no_std Hs Hn s0 Hr Hadm Hf)
      as (sched & Hil & Hp & _ & (b & Hrep & Hl & _)).
    exists (transaction_of <$> sched.*2), (accounts (ob_run sched.*2 s0).2), b. split; [by rewrite Hp|].
    split; [by apply bank_run, Hadm|]. by split.
Qed.
End Threads.
End Object.
End BankObject.

(** ** The server

    [spin] and its threads, a step at a time, with the threads' transactions on the
    machine.  [rng] of [random_int] and of [random_name], and [m_accounts] of the
    logger, are plain objects that [spin] and the threads change without a lock.
    Every access to one of them is recorded, and which of the accesses made so far
    happen before what a thread does next: those of the thread, those made before
    it was started, those of a thread it has joined, and, to be on the safe side,
    those that happened before any earlier step of any transaction, as if every
    atomic access of the library synchronised with all earlier ones.  An access
    that a previous one to the same object does not happen before is a data race:
    the program is undefined, and the model stops. *)

Module Server.

Definition MAX_THREADS : nat := 8.

(** The objects shared without synchronisation. *)
Inductive object := Ints | Names | Accounts.
#[export] Instance object_eq_dec : EqDecision object.
Proof. solve_decision. Defined.

Section Server.
Context {K : Type} `{Countable K} {LS : Type} `{LocationSet LS}.
Context (m_hash : K -> Z) (buckets : Z -> list_at) (default_name : K) (fuel : nat) (is_trivial : addr_t -> bool).
Abbreviation cells_t := (cell (LLNode (KeyT := K) (ItemT := Account (K := K)))).
Abbreviation transaction := (transaction (K := K)).
Abbreviation sys := (Machine.sys (LS := LS) (V := cells_t) (L := bool) (A := unit)).

(** What [random_int] and [random_name] answer for one transaction, and in which
    order the arguments of its constructor are computed. *)
Record draw := Draw { d_case : Z; d_name : K; d_name2 : K; d_amt : Z; d_order : list object }.

Definition construct_add (d : draw) : transaction := Add (d_name d) (d_amt d).
Definition construct_withdraw (d : draw) : transaction := Withdraw (d_name d) (d_amt d).
Definition construct_transfer (d : draw) : transaction := Transfer (d_name d) (d_name2 d) (d_amt d).

(** The [switch] over the kind of transaction. *)
Definition choose (d : draw) : transaction :=
  if d_case d =? 0 then construct_add d
  else if d_case d =? 1 then construct_withdraw d
  else construct_transfer d.

(** The generators that a constructor's arguments use. *)
Definition arguments (t : transaction) : list object :=
  match t with Withdraw _ _ | Add _ _ => [Names; Ints] | Transfer _ _ _ => [Names; Names; Ints] end.

(** The ranges of the numbers: [random_int(1)] and [random_int(1000)]. *)
Definition in_range (names : list K) (d : draw) : Prop :=
  0 <= d_case d <= 1 /\ 0 <= d_amt d <= 1000 /\ d_name d ∈ names /\ d_name2 d ∈ names /\
  d_order d ≡ₚ arguments (choose d).

(** The entries of the logger that a transaction changes, in order. *)
Definition log_changes (t : transaction) : list (K * Z) :=
  match t with
  | Withdraw x amt => [(x, - amt)]
  | Add x amt => [(x, amt)]
  | Transfer src dest amt => [(src, - amt); (dest, amt)]
  end.

(** Where a thread is: computing the arguments, before changes of the logger,
    in its transaction, at its end. *)
Inductive worker_at := W_draw (os : list object) | W_log (todo : list (K * Z)) | W_run | W_done.
Record worker := Worker { w_draw : draw; w_at : worker_at }.

(** Where [spin] is: before the number of transactions, at the head of the loop, at
    the test of [running], in one of the two [for_each] with the threads still to
    join, at the sleep, at the end. *)
Inductive main_at :=
  | M_count (todo : list draw)
  | M_loop (todo : list draw)
  | M_full (d : draw) (todo : list draw)
  | M_wait (js : list nat) (d : draw) (todo : list draw)
  | M_sleep (todo : list draw)
  | M_last (js : list nat)
  | M_done.

(** [None] is the thread of [spin], [Some i] the thread [i], which is that of the
    machine.  [known]: the accesses, by their numbers, that happen before what
    the thread does next; [published]: those before a step of a transaction. *)
Record server := Srv {
  main : main_at; running : list nat; workers : list worker;
  m_accounts : gmap K Z; base : sys;
  accesses : list object; known : option nat -> gset nat; published : gset nat; raced : bool }.

Definition at_main (p : main_at) (s : server) : server :=
  Srv p (running s) (workers s) (m_accounts s) (base s) (accesses s) (known s) (published s) (raced s).
Definition at_worker (i : nat) (d : draw) (p : worker_at) (s : server) : server :=
  Srv (main s) (running s) (<[i := Worker d p]> (workers s)) (m_accounts s) (base s) (accesses s) (known s) (published s) (raced s).
Definition know (t : option nat) (ids : gset nat) (s : server) : server :=
  Srv (main s) (running s) (workers s) (m_accounts s) (base s) (accesses s)
    (fun u => if decide (u = t) then ids else known s u) (published s) (raced s).

(** All accesses to [o] so far happen before what [t] does next. *)
Definition ordered (t : option nat) (o : object) (s : server) : bool :=
  forallb (fun i => negb (bool_decide (accesses s !! i = Some o)) || bool_decide (i ∈ known s t)) (seq 0 (length (accesses s))).

(** An access of [t] to [o], for reading and writing. *)
Definition access (t : option nat) (o : object) (s : server) : server :=
  let s' := know t ({[length (accesses s)]} ∪ known s t) s in
  Srv (main s') (running s') (workers s') (m_accounts s') (base s') (accesses s ++ [o]) (known s') (published s')
    (raced s || negb (ordered t o s)).

Definition start (d : draw) : worker := Worker d (W_draw (d_order d)).

(** [running.emplace_back(std::thread(transaction))]. *)
Definition spawn (d : draw) (todo : list draw) (rs : list nat) (s : server) : server :=
  let i := length (workers s) in
  let s' := know (Some i) (known s None) s in
  Srv (M_sleep todo) (rs ++ [i]) (workers s ++ [start d]) (m_accounts s) (base s) (accesses s) (known s') (published s) (raced s).

(** [t.join()]: waits for the thread, after which what it did has happened. *)
Definition join (j : nat) (s : server) : option server :=
  match workers s !! j with
  | Some (Worker _ W_done) => Some (know None (known s None ∪ known s (Some j)) s)
  | _ => None
  end.

(** One step of [spin]; [None] when it waits or is over. *)
Definition main_step (s : server) : option server :=
  match main s with
  | M_count todo => Some (at_main (M_loop todo) (access None Ints s))
  | M_loop (d :: todo) => Some (at_main (M_full d todo) (access None Ints s))
  | M_loop [] => Some (at_main (M_last (running s)) s)
  | M_full d todo =>
      if (length (running s) =? MAX_THREADS)%nat then Some (at_main (M_wait (running s) d todo) s)
      else Some (spawn d todo (running s) s)
  | M_wait (j :: js) d todo => s' ← join j s; Some (at_main (M_wait js d todo) s')
  | M_wait [] d todo => Some (spawn d todo [] s)
  | M_sleep todo => Some (at_main (M_loop todo) (access None Ints s))
  | M_last (j :: js) => s' ← join j s; Some (at_main (M_last js) s')
  | M_last [] => Some (Srv M_done [] (workers s) (m_accounts s) (base s) (accesses s) (known s) (published s) (raced s))
  | M_done => None
  end.

(** [m_accounts[name] += amt] of thread [i]; [None] when the [int] overflows. *)
Definition log_step (i : nat) (x : K) (amt : Z) (s : server) : option server :=
  log' ← log_change x amt (m_accounts s);
  let s' := access (Some i) Accounts s in
  Some (Srv (main s') (running s') (workers s') log' (base s') (accesses s') (known s') (published s') (raced s')).

(** A step of the transaction of thread [i]. *)
Definition run_step (i : nat) (th : thread LS cells_t bool unit) (s : server) : option server :=
  '(sh', th', _) ← Machine.tstep is_trivial i (Machine.sh (base s)) th;
  let ids := known s (Some i) ∪ published s in
  let s' := know (Some i) ids s in
  Some (Srv (main s') (running s') (workers s') (m_accounts s') (Machine.Sys sh' (<[i := th']> (Machine.ths (base s))))
    (accesses s') (known s') ids (raced s')).

(** One step of the thread [i]; [None] when it is over, waits for a lock, or an
    [int] of the logger overflows. *)
Definition worker_step (i : nat) (s : server) : option server :=
  '(Worker d p) ← workers s !! i;
  match p with
  | W_draw (o :: os) => Some (at_worker i d (W_draw os) (access (Some i) o s))
  | W_draw [] => Some (at_worker i d (W_log (log_changes (choose d))) s)
  | W_log ((x, amt) :: todo) => s' ← log_step i x amt s; Some (at_worker i d (W_log todo) s')
  | W_log [] => Some (at_worker i d W_run s)
  | W_run =>
      th ← Machine.ths (base s) !! i;
      match todo th with [] => Some (at_worker i d W_done s) | _ => run_step i th s end
  | W_done => None
  end.

(** Nothing is defined after a data race. *)
Definition turn (w : option nat) (s : server) : option server :=
  if raced s then None else match w with None => main_step s | Some i => worker_step i s end.

Fixpoint run_server (ws : list (option nat)) (s : server) : option server :=
  match ws with
  | [] => Some s
  | w :: ws => s' ← turn w s; run_server ws s'
  end.

(** [spin] with these numbers, from a memory with the accounts, a logger and two
    nodes for each transaction. *)
Definition init (ds : list (draw * (node * node))) (log : gmap K Z) (m0 : gmap addr_t cells_t) : server :=
  let progs : gmap tid_t (list (BankObject.op (K := K)) * bool) := list_to_map (zip (seq 0 (length ds))
    ((fun '(d, (n1, n2)) => ([BankObject.Exec (choose d) n1 n2], false)) <$> ds)) in
  Srv (M_count ds.*1) [] [] log
    (Machine.init m0 (calls (H1 := BankObject.bank_object m_hash buckets default_name fuel) <$> progs))
    [] (fun _ => ∅) ∅ false.
(** ** Every run races *)

(** The numbers of the accesses are those of accesses made. *)
Definition numbered (s : server) : Prop :=
  forall t id, id ∈ known s t \/ id ∈ published s -> (id < length (accesses s))%nat.

(** Some access to the generator of [random_int] need not happen before what [t] does. *)
Definition unseen (t : option nat) (s : server) : Prop := exists id, accesses s !! id = Some Ints /\ id ∉ known s t.

(** The first thread has still to draw a number. *)
Definition to_draw (s : server) : Prop := exists d os, workers s !! 0%nat = Some (Worker d (W_draw os)) /\ Ints ∈ os.

(** [spin] is before a join of the first thread. *)
Definition unjoined (s : server) : Prop :=
  match main s with
  | M_wait js _ _ | M_last js => 0%nat ∈ js
  | M_count _ | M_done => False
  | _ => 0%nat ∈ running s
  end.

(** Before the first thread; at the sleep after it was started; later. *)
Inductive phase (s : server) : Prop :=
  | before_first : workers s = [] -> running s = [] ->
      match main s with
      | M_count todo | M_loop todo => todo <> [] /\ Forall (fun d => Ints ∈ d_order d) todo
      | M_full d todo => Ints ∈ d_order d
      | _ => False
      end -> phase s
  | first_sleep todo : main s = M_sleep todo -> length (workers s) = 1%nat -> 0%nat ∈ running s ->
      to_draw s \/ unseen None s -> phase s
  | later : to_draw s -> unseen (Some 0%nat) s -> unjoined s -> phase s.

Lemma unseen_races t s : unseen t s -> raced (access t Ints s) = true.
Proof.
  intros (id & Hid & Hk). simpl. apply orb_true_iff. right. apply negb_true_iff, not_true_is_false. intros Ho.
  unfold ordered in Ho. rewrite forallb_forall in Ho. specialize (Ho id). rewrite !bool_decide_true in Ho by done.
  apply Hk, (bool_decide_eq_true_1 (id ∈ known s t)), Ho, in_seq. apply lookup_lt_Some in Hid. lia.
Qed.

Lemma access_unseen_new t u s : numbered s -> t <> u -> unseen u (access t Ints s).
Proof.
  intros Hn Hne. exists (length (accesses s)). split; [apply list_lookup_middle; done|]. simpl.
  rewrite decide_False by done. intros Hk. specialize (Hn u _ (or_introl Hk)). lia.
Qed.

Lemma access_unseen t u o s : unseen u s -> t <> u \/ numbered s -> unseen u (access t o s).
Proof.
  intros (id & Hid & Hk) Hor. exists id. split; [by apply lookup_app_l_Some|]. simpl. case_decide as E; [|done].
  subst u. rewrite elem_of_union, elem_of_singleton. intros [->|?]; [|done]. apply lookup_lt_Some in Hid. lia.
Qed.

Lemma access_numbered t o s : numbered s -> numbered (access t o s).
Proof.
  intros Hn u id. simpl. rewrite length_app. simpl. intros Hid.
  destruct (decide (id = length (accesses s))) as [->|Hne]; [lia|]. assert (id < length (accesses s))%nat; [|lia].
  revert Hid. case_decide; [rewrite elem_of_union, elem_of_singleton|]; intros Hid; eapply Hn; naive_solver.
Qed.

(** What [spin] and a thread do to what they do not touch. *)
Lemma worker_frame i s s' : worker_step i s = Some s' ->
  main s' = main s /\ running s' = running s /\ length (workers s') = length (workers s) /\
  (forall j, j <> i -> workers s' !! j = workers s !! j) /\
  (forall u, u <> Some i -> unseen u s -> unseen u s') /\ (numbered s -> numbered s').
Proof.
  assert (Hpl : forall d p s1, length (workers (at_worker i d p s1)) = length (workers s1) /\
      forall j, j <> i -> workers (at_worker i d p s1) !! j = workers s1 !! j)
    by (intros d p s1; split; [apply length_insert|intros j Hj; by apply list_lookup_insert_ne]).
  unfold worker_step. destruct (workers s !! i) as [[d [[|o os]|[|[x amt] todo]| |]]|] eqn:Hi; simpl; try done.
  - intros [= <-]. by repeat (split; [by apply Hpl || done|]).
  - intros [= <-]. repeat (split; [by apply (Hpl d (W_draw os) (access (Some i) o s)) || done|]).
    split; [intros u Hu Hs; apply (access_unseen (Some i) u o s Hs); left; congruence|apply (access_numbered (Some i) o s)].
  - intros [= <-]. by repeat (split; [by apply Hpl || done|]).
  - unfold log_step. destruct (log_change x amt (m_accounts s)) as [log'|]; [|done]. simpl. intros [= <-].
    repeat (split; [by apply (Hpl d (W_log todo) (access (Some i) Accounts s)) || done|]).
    split; [intros u Hu Hs; apply (access_unseen (Some i) u Accounts s Hs); left; congruence|apply (access_numbered (Some i) Accounts s)].
  - destruct (Machine.ths (base s) !! i) as [th|]; [|done]. simpl. destruct (todo th).
    + intros [= <-]. by repeat (split; [by apply Hpl || done|]).
    + unfold run_step. destruct (Machine.tstep _ _ _ _) as [[[sh' th'] ev]|]; [|done]. simpl. intros [= <-].
      repeat (split; [done|]). split.
      * intros u Hu (id & Hid & Hk). exists id. split; [done|]. simpl. by rewrite decide_False.
      * intros Hn u id. simpl. rewrite elem_of_union. case_decide; [rewrite elem_of_union; intros Hid; apply (Hn (Some i)); tauto|].
        intros [Hid|Hid]; [apply (Hn u); by left|apply (Hn (Some i)); tauto].
Qed.

Lemma join_frame j s s' : join j s = Some s' ->
  main s' = main s /\ running s' = running s /\ workers s' = workers s /\ raced s' = raced s /\
  (unseen (Some 0%nat) s -> unseen (Some 0%nat) s') /\ (numbered s -> numbered s') /\ (to_draw s -> j <> 0%nat).
Proof.
  unfold join. destruct (workers s !! j) as [[d []]|] eqn:Ej; try done. intros [= <-]. do 5 (split; [done|]). split.
  - intros Hn u id. simpl. case_decide; [rewrite elem_of_union|apply Hn]. intros [[Hid|Hid]|Hid];
      [apply (Hn None)|apply (Hn (Some j))|apply (Hn None)]; tauto.
  - intros (d0 & os & E0 & _) ->. congruence.
Qed.

Lemma spawn_numbered d todo rs s : numbered s -> numbered (spawn d todo rs s).
Proof. intros Hn u id. simpl. case_decide; [|apply Hn]. intros Hid. apply (Hn None). tauto. Qed.

(** [spin] after the sleep of the first thread. *)
Lemma spawn_later d todo rs s : to_draw s -> unseen (Some 0%nat) s -> 0%nat ∈ rs -> phase (spawn d todo rs s).
Proof.
  intros (d0 & os & E0 & Hin) (id & Hid & Hk) Hrs. apply later.
  - exists d0, os. split; [|done]. by apply lookup_app_l_Some.
  - exists id. split; [done|]. simpl. rewrite decide_False; [done|]. intros [= E].
    apply lookup_lt_Some in E0. lia.
  - simpl. apply elem_of_app. by left.
Qed.

Lemma main_later s s' : raced s = false -> numbered s -> to_draw s -> unseen (Some 0%nat) s -> unjoined s ->
  main_step s = Some s' -> raced s' = false -> numbered s' /\ phase s'.
Proof.
  intros Hr Hn Hd Hu Hj Hs Hr'. unfold main_step, unjoined in *.
  assert (Hacc : forall p, (match p with M_loop _ | M_full _ _ => True | _ => False end) ->
    0%nat ∈ running s -> let s1 := at_main p (access None Ints s) in numbered s1 /\ phase s1).
  { intros p Hp Hrun. split; [by apply access_numbered|]. apply later; [done|by apply (access_unseen None (Some 0%nat) Ints s Hu); left|].
    by destruct p. }
  destruct (main s) as [todo|[|d todo]|d todo|js d todo|todo|js|]; try done.
  - injection Hs as <-. split; [done|]. by apply later.
  - injection Hs as <-. by apply Hacc.
  - destruct (_ =? _)%nat; injection Hs as <-; [split; [done|by apply later]|].
    split; [by apply spawn_numbered|by apply spawn_later].
  - destruct js as [|j js]; [by apply elem_of_nil in Hj|]. destruct (join j s) as [s1|] eqn:Ej; [|done]. simpl in Hs. injection Hs as <-.
    destruct (join_frame _ _ _ Ej) as (_ & _ & Ew & _ & Hu1 & Hn1 & Hne). split; [by apply Hn1|].
    apply later; [unfold to_draw in *; simpl; by rewrite Ew|by apply Hu1|]. simpl. specialize (Hne Hd).
    apply elem_of_cons in Hj as [?|?]; [congruence|done].
  - injection Hs as <-. by apply Hacc.
  - destruct js as [|j js]; [by apply elem_of_nil in Hj|]. destruct (join j s) as [s1|] eqn:Ej; [|done]. simpl in Hs. injection Hs as <-.
    destruct (join_frame _ _ _ Ej) as (_ & _ & Ew & _ & Hu1 & Hn1 & Hne). split; [by apply Hn1|].
    apply later; [unfold to_draw in *; simpl; by rewrite Ew|by apply Hu1|]. simpl. specialize (Hne Hd).
    apply elem_of_cons in Hj as [?|?]; [congruence|done].
Qed.

Lemma main_phase s s' : raced s = false -> numbered s -> phase s -> main_step s = Some s' -> raced s' = false ->
  numbered s' /\ phase s'.
Proof.
  intros Hr Hn Hp Hs Hr'. destruct Hp as [Hw Hrun Hm|todo Hm Hw Hrun Hd|Hd Hu Hj]; [| |by apply (main_later s)].
  - unfold main_step in Hs. destruct (main s) as [todo|[|d todo]|d todo|js d todo|todo|js|]; try done.
    + injection Hs as <-. split; [by apply access_numbered|]. by apply before_first.
    + by destruct Hm as [[] _].
    + injection Hs as <-. split; [by apply access_numbered|]. apply before_first; [done|done|].
      destruct Hm as [_ Hm]. by apply Forall_cons in Hm as [Hm _].
    + rewrite Hrun in Hs. simpl in Hs. injection Hs as <-. split; [by apply spawn_numbered|].
      eapply first_sleep; [done|simpl; by rewrite Hw|simpl; rewrite Hw; by left|]. left. exists d, (d_order d).
      simpl. by rewrite Hw.
  - unfold main_step in Hs. rewrite Hm in Hs. injection Hs as <-. split; [by apply access_numbered|].
    destruct Hd as [Hd|Hu]; [|apply unseen_races in Hu; unfold at_main in Hr'; simpl in *; congruence].
    apply later; [done|by apply (access_unseen_new None (Some 0%nat) s)|done].
Qed.

Lemma draw_step s s' : numbered s -> to_draw s -> worker_step 0 s = Some s' -> raced s' = false ->
  to_draw s' /\ (unseen (Some 0%nat) s -> unseen (Some 0%nat) s') \/ unseen None s' /\ ~ unseen (Some 0%nat) s.
Proof.
  intros Hn (d & os & E & Hin) Hs Hr. unfold worker_step in Hs. rewrite E in Hs. simpl in Hs.
  destruct os as [|o os]; [by apply elem_of_nil in Hin|]. injection Hs as <-.
  destruct (decide (o = Ints)) as [->|Hne].
  - right. split; [by apply (access_unseen_new (Some 0%nat) None s)|]. intros Hu%unseen_races. simpl in *. congruence.
  - left. split; [|intros Hu; apply (access_unseen (Some 0%nat) (Some 0%nat) o s Hu); by right].
    apply elem_of_cons in Hin as [?|Hin]; [congruence|]. exists d, os. split; [|done]. simpl.
    apply list_lookup_insert_eq. by eapply lookup_lt_Some.
Qed.

Lemma worker_phase i s s' : numbered s -> phase s -> worker_step i s = Some s' -> raced s' = false -> numbered s' /\ phase s'.
Proof.
  intros Hn Hp Hs Hr'. destruct (worker_frame i s s' Hs) as (Em & Erun & El & Ew & Hu & Hn'). split; [by apply Hn'|].
  destruct Hp as [Hw Hrun Hm|todo Hm Hw Hrun Hd|Hd Hu0 Hj].
  - unfold worker_step in Hs. by rewrite Hw in Hs.
  - apply (first_sleep s' todo); [by rewrite Em|by rewrite El|by rewrite Erun|]. destruct Hd as [Hd|Hd]; [|right; by apply Hu].
    destruct (decide (i = 0%nat)) as [->|Hne].
    + destruct (draw_step s s' Hn Hd Hs Hr') as [[? _]|[? _]]; [by left|by right].
    + left. unfold to_draw in *. by rewrite Ew.
  - assert (Hj' : unjoined s') by (unfold unjoined in *; by rewrite Em, Erun). destruct (decide (i = 0%nat)) as [->|Hne].
    + destruct (draw_step s s' Hn Hd Hs Hr') as [[? H1]|[_ H1]]; [apply later; auto|done].
    + apply later; [unfold to_draw in *; by rewrite Ew|apply Hu; [congruence|done]|done].
Qed.

Definition unfinished (s : server) : Prop := main s <> M_done /\ (raced s = false -> numbered s /\ phase s).

Lemma turn_unfinished w s s' : unfinished s -> turn w s = Some s' -> unfinished s'.
Proof.
  intros [Hm Hp] Ht. unfold turn in Ht. destruct (raced s) eqn:Er; [done|]. destruct (Hp eq_refl) as [Hn Hph]. split.
  - destruct w as [i|].
    + by rewrite (proj1 (worker_frame i s s' Ht)).
    + unfold main_step in Ht. destruct (main s) as [todo|[|d todo]|d todo|[|j js] d todo|todo|[|j js]|] eqn:Em;
        try by simplify_eq.
      * by destruct (_ =? _)%nat; simplify_eq.
      * by destruct (join j s); simplify_eq/=.
      * destruct Hph as [? ? Hf|? Hf|? ? Hf]; [by rewrite Em in Hf|congruence|]. unfold unjoined in Hf. rewrite Em in Hf. by apply elem_of_nil in Hf.
      * by destruct (join j s); simplify_eq/=.
  - intros Hr'. destruct w as [i|]; [by apply (worker_phase i s)|by apply (main_phase s)].
Qed.

Lemma run_unfinished ws s s' : unfinished s -> run_server ws s = Some s' -> unfinished s'.
Proof.
  revert s. induction ws as [|w ws IH]; intros s Hu Hr; simpl in Hr; [by injection Hr as <-|].
  destruct (turn w s) as [s1|] eqn:E; [|done]. simpl in Hr. by apply (IH s1); [eapply turn_unfinished|].
Qed.

(** Every run of [spin] with a transaction races.  Whatever the order of the
    steps, [spin] and the first thread use the generator of [random_int] without
    one use happening before the other, at the latest before [spin] returns:
    no run without a data race gets there. *)
Theorem spin_races names ds log m0 ws s : Forall (fun p => in_range names p.1) ds -> ds <> [] ->
  run_server ws (init ds log m0) = Some s -> main s <> M_done.
Proof.
  intros Hds Hne Hr. assert (Hi : unfinished (init ds log m0)).
  { split; [done|]. intros _. split; [intros t id; simpl; set_solver|]. apply before_first; [done|done|]. simpl. split; [by destruct ds|].
    apply Forall_fmap. eapply Forall_impl; [exact Hds|]. intros p (_ & _ & _ & _ & Hp). simpl. rewrite Hp.
    destruct (choose p.1); simpl; set_solver. }
  apply (run_unfinished ws _ s Hi Hr).
Qed.

(** A transaction that [spin] makes up is no transfer. *)
Lemma transfer_never names d : in_range names d -> match choose d with Transfer _ _ _ => False | _ => True end.
Proof.
  intros ([H1 H2] & _). unfold choose. destruct (Z.eqb_spec (d_case d) 0); [done|].
  destruct (Z.eqb_spec (d_case d) 1); [done|lia].
Qed.
End Server.

(** ** Runs *)
Section Runs.
#[local] Existing Instance OrderedSet.set.

Definition one_add : list (draw (K := Z) * (node * node)) := [(Draw 0 7 0 5 [Names; Ints], (nodes 0, nodes 1))].
Definition spin_run (ws : list (option nat)) (ds : list (draw (K := Z) * (node * node))) :=
  run_server (LS := OrderedSet.oset) (fun _ => true) ws (init id buckets_at 0 6 ds ∅ (empty_map buckets_at ∅)).

(** The thread draws its numbers, then [spin] that of its sleep; or [spin] goes on
    to wait for the thread, which then draws. *)
Example race_reached :
  (s ← spin_run [None; None; None; Some 0; Some 0; None]%nat one_add; Some (raced s, main s)) = Some (true, M_loop []) /\
  (s ← spin_run [None; None; None; None; None; Some 0; Some 0]%nat one_add; Some (raced s, main s)) = Some (true, M_last [0%nat]).
Proof. by vm_compute. Qed.
End Runs.
End Server.
