(* ===== verification/Safety.v ===== *)
(** * Safety and progress of the machine

    Locks exclude one another; no step of a transaction is ever undefined: a
    thread stops only at the end of its program, at an exception nobody catches,
    on a variable that does not exist, or at a lock held by another thread.  When
    the addresses in use lie in one window of the lock table, some thread can
    always make a step: the order of the guard excludes deadlock. *)

From S2P Require Import Prelude VersionLock LockTable Store Op Log Tx State LockGuard Machine History MachineInv InvFacts Preserve Steps StepsGuard StepsCommit Serializability.
Import History.

Section Waiting.
Context {LS V L A : Type} `{LocationSetLaws LS}.
Context (is_trivial : addr_t -> bool).
Abbreviation thread := (thread LS V L A).
Abbreviation sys := (Machine.sys (LS := LS) (V := V) (L := L) (A := A)).
Implicit Types (th : thread) (s : sys) (t : tid_t).
Context (m0 : gmap addr_t V).

(** The lock that the next step of a thread needs to be free. *)
Definition awaits th : option Z :=
  match at_pc th with
  | Body (Read x _) => Some (index x)
  | Load x _ => if is_trivial x then None else Some (index x)
  | Guarding _ i g =>
      match Machine.locs th !! i with
      | Some loc => if decide (Loc.lock_ptr loc ∈ locked g) then None else Some (Loc.lock_ptr loc)
      | None => None
      end
  | _ => None
  end.

(** The address whose data the next step loads. *)
Definition loads th : option addr_t :=
  match at_pc th with
  | Load x _ => if is_trivial x then Some x else None
  | LoadHeld x _ => Some x
  | _ => None
  end.

Definition over th : Prop := (at_pc th = Idle /\ todo th = []) \/ at_pc th = Crashed.

Abbreviation is_locked s k := (Word.is_locked (table_word (tbl (Machine.sh s)) k)).

Lemma get_version_locked s x n HS :
  inv m0 n HS s -> Word.get_version (hashtbl_get (tbl (Machine.sh s)) x) = None ->
  is_locked s (index x) = true.
Proof.
  intros Hi Hg. destruct (i_words _ _ _ _ Hi (index x)) as [Hr _].
  destruct (word_pack _ _ Hr) as [E Hok]. unfold hashtbl_get in Hg. rewrite E in Hg.
  rewrite Word.get_version_pack in Hg by done. by destruct (Word.is_locked _).
Qed.

Lemma lock_locked s x n HS :
  inv m0 n HS s -> Word.lock (hashtbl_get (tbl (Machine.sh s)) x) = None ->
  is_locked s (index x) = true.
Proof.
  intros Hi Hg. destruct (i_words _ _ _ _ Hi (index x)) as [Hr _].
  destruct (word_pack _ _ Hr) as [E Hok]. unfold hashtbl_get in Hg. rewrite E in Hg.
  rewrite Word.lock_pack in Hg by done. by destruct (Word.is_locked _).
Qed.

Definition stuck s t th : Prop := Machine.tstep is_trivial t (Machine.sh s) th = None.

(** Why a thread may have no step. *)
Definition excused s th : Prop :=
  over th \/ (exists k, awaits th = Some k /\ is_locked s k = true) \/
  (exists x, loads th = Some x /\ mem (Machine.sh s) !! x = None).

Lemma stuck_body n HS s t th p :
  inv m0 n HS s -> Machine.ths s !! t = Some th -> at_pc th = Body p -> stuck s t th -> excused s th.
Proof.
  intros Hi Ht Hpc Hst. unfold stuck, Machine.tstep in Hst. rewrite Hpc in Hst.
  destruct (at_body_inv _ _ _ _ _ _ _ Hi Ht Hpc) as [(Hwf & Hrun & Hrv) _].
  destruct p; simpl in Hst; unfold Machine.silent in Hst; try done.
  - unfold Machine.step_throw, Machine.silent in Hst. rewrite clear_end in Hst by apply Hwf.
    by destruct (is_std e).
  - unfold Machine.step_read, Manager.assert_in_transaction, Manager.in_transaction, Machine.silent in Hst.
    rewrite bool_decide_true in Hst by done.
    pose proof (append_read_spec t (tbl (Machine.sh s)) x _ Hwf) as Hsp.
    destruct (Word.get_version _) as [wv|] eqn:Hgv.
    + destruct Hsp as (lg & E & _). rewrite E in Hst. by destruct (Log.value_at x lg).
    + right. left. exists (index x). unfold awaits. rewrite Hpc. split; [done|].
      by eapply get_version_locked.
  - unfold Machine.step_write, Manager.assert_in_transaction, Manager.in_transaction, Machine.silent in Hst.
    rewrite bool_decide_true in Hst by done.
    destruct (append_write_spec x v _ Hwf) as (lg & E & _). by rewrite E in Hst.
Qed.

Lemma stuck_load n HS s t th x k :
  inv m0 n HS s -> Machine.ths s !! t = Some th -> at_pc th = Load x k -> stuck s t th -> excused s th.
Proof.
  intros Hi Ht Hpc Hst. unfold stuck, Machine.tstep in Hst. rewrite Hpc in Hst.
  unfold Machine.step_load, Machine.silent in Hst. right.
  unfold awaits, loads. rewrite Hpc. destruct (is_trivial x).
  - right. exists x. by destruct (mem _ !! x).
  - left. exists (index x). split; [done|]. eapply lock_locked; [done|]. by destruct (Word.lock _).
Qed.

Lemma stuck_guard n HS s t th a i g :
  inv m0 n HS s -> Machine.ths s !! t = Some th -> at_pc th = Guarding a i g -> stuck s t th -> excused s th.
Proof.
  intros Hi Ht Hpc Hst. unfold stuck, Machine.tstep in Hst. rewrite Hpc in Hst.
  unfold Machine.step_guard, Machine.silent, LockGuard.acquire_step in Hst. right. left.
  unfold awaits. rewrite Hpc. destruct (Machine.locs th !! i) as [loc|] eqn:Hl; [|done].
  case_decide; [done|]. exists (Loc.lock_ptr loc). split; [done|].
  eapply lock_locked; [done|]. unfold Loc.lock in Hst.
  destruct (at_guard _ _ _ _ _ _ _ _ _ Hi Ht Hpc) as (_ & Hg & _).
  rewrite (not_owned _ _ _ _ _ Hg Hl) in Hst. by destruct (Word.lock _).
Qed.

Lemma stuck_excused n HS s t th :
  inv m0 n HS s -> Z.of_nat n < 2 ^ 63 -> Machine.ths s !! t = Some th -> stuck s t th -> excused s th.
Proof.
  intros Hi Hn Ht Hst. pose proof Hst as Hst0. unfold stuck, Machine.tstep in Hst.
  pose proof (i_thread _ _ _ _ Hi t th Ht) as Hti. unfold tinv in Hti.
  destruct (at_pc th) as [| |p|y k|y k|y v k|a i g|a g|a wv i g|a wv i g|a wv i g|a ok l|] eqn:Hpc;
    [| | | | | | | | | | | |by left; right].
  - left. left. unfold Machine.step_idle, Machine.silent in Hst. by destruct (todo th).
  - exfalso. destruct Hti as [Hok Htd]. unfold Machine.step_attempt, Machine.silent in Hst.
    destruct (todo th) as [|tr rest]; [done|]. unfold Manager.start_transaction in Hst.
    rewrite clear_spec in Hst by done. destruct (i_clock _ _ _ _ Hi) as (c & Ec & Hc).
    by rewrite Ec, Word.get_version_pack in Hst by (unfold Word.version_ok; lia).
  - by eapply stuck_body.
  - by eapply stuck_load.
  - right. right. exists y. unfold loads. rewrite Hpc. split; [done|].
    unfold Machine.step_load_held, Machine.silent in Hst. by destruct (mem _ !! y).
  - done.
  - by eapply stuck_guard.
  - exfalso. unfold Machine.step_incr, Machine.decide_commit, Machine.silent in Hst.
    destruct (Word.incr_version _). by destruct (_ =? _).
  - exfalso. unfold Machine.step_validate, Machine.decide_commit, Machine.abort, Machine.silent in Hst.
    destruct (Machine.locs th !! i) as [loc|] eqn:Hl; [|done]. destruct Hti as (_ & Hstp & _).
    destruct (own_version _ _ _ _ _ (tbl (Machine.sh s)) _ _ Hstp Hl) as [_ E]. rewrite E in Hst.
    destruct (m_read loc); [|done]. by destruct (_ <? _).
  - exfalso. unfold Machine.step_commit, Machine.silent in Hst.
    destruct (Machine.locs th !! i) as [loc|] eqn:Hl; [|done]. destruct (m_written loc) eqn:Hw; [|done].
    destruct (set_version_inv _ _ _ _ _ _ _ _ _ _ _ Hi Hn Ht Hpc Hl Hw) as (T' & E & _).
    by rewrite E in Hst.
  - exfalso. destruct (move_inv _ _ _ _ _ _ _ _ _ _ Hi Ht Hpc) as (sh1 & th1 & E & _). by rewrite E in Hst.
  - exfalso. destruct Hti as (Hok & Htd & _). unfold Machine.step_release, Machine.silent in Hst.
    destruct l as [|j l]; [|by destruct (LockGuard.release_step _ _ _)].
    destruct ok; [by rewrite clear_end in Hst|]. by destruct (todo th).
Qed.

(** A lock a thread waits for is not one of its own. *)
Lemma awaits_other n HS s t th k :
  inv m0 n HS s -> Machine.ths s !! t = Some th -> awaits th = Some k -> k ∉ held th.
Proof.
  intros Hi Ht Ha Hin. unfold awaits in Ha.
  destruct (at_pc th) as [| |p|y c|y c|y v c|a i g|a g|a wv i g|a wv i g|a wv i g|a ok l|] eqn:Hpc; try done;
    try (unfold held, held_pos in Hin; rewrite Hpc in Hin; by apply elem_of_nil in Hin).
  destruct (at_guard _ _ _ _ _ _ _ _ _ Hi Ht Hpc) as (_ & Hg & _).
  destruct (Machine.locs th !! i) as [loc|] eqn:Hl; [|done]. case_decide as Hnin; [done|]. simplify_eq.
  apply Hnin, (gd_set _ _ _ _ Hg). unfold held, held_pos in Hin. rewrite Hpc in Hin.
  apply list_elem_of_omap in Hin as (j & Hj & E). destruct (gd_pos _ _ _ _ Hg j Hj) as [Hlt [l0 Hl0]].
  exists j, l0. split_and!; [done..|]. rewrite (lock_at_held _ _ _ Hl0) in E. by simplify_eq.
Qed.
End Waiting.

(** The thread is between acquiring and releasing the lock. *)
Definition holds {LS V L A} `{LocationSet LS} (s : Machine.sys (LS := LS) (V := V) (L := L) (A := A))
    (t : tid_t) (k : Z) : Prop :=
  exists th, Machine.ths s !! t = Some th /\ k ∈ held th.

Section Safety.
Context {LS V L A : Type} `{LocationSetLaws LS}.

(** [C5] Mutual exclusion.  In any reachable state a lock word has its bit set
    exactly when some thread is between acquiring and releasing that lock, and
    never two; its version never exceeds that of the clock, nor the number of
    steps made. *)
Theorem locks_exclude (is_trivial : addr_t -> bool) (m0 : gmap addr_t V)
  (ps : gmap tid_t (list (txn V L A) * L)) n evs s k :
  Machine.steps (LS := LS) is_trivial n (Machine.init m0 ps) evs s -> Z.of_nat n < 2 ^ 63 ->
  (Word.is_locked (table_word (tbl (Machine.sh s)) k) = true <-> exists t, holds s t k) /\
  (forall t u, holds s t k -> holds s u k -> t = u) /\
  ver (tbl (Machine.sh s)) k <= Word.unpack_version (clock (Machine.sh s)) <= Z.of_nat n.
Proof.
  intros Hs Hn. destruct (steps_inv is_trivial m0 ps n evs s Hs Hn) as (HS & Hi & _).
  split; [apply (i_lock _ _ _ _ Hi)|].
  split; [intros t u (th & ? & ?) (thu & ? & ?); by eapply (i_excl _ _ _ _ Hi)|].
  split; [apply (i_words _ _ _ _ Hi)|]. destruct (i_clock _ _ _ _ Hi) as (c & -> & Hc).
  rewrite Word.unpack_pack; [lia|]. unfold Word.version_ok. lia.
Qed.

(** [C6] Nothing is undefined.  In any reachable state a thread that has no
    step is at the end of its program, or was left by an exception that
    [atomically] does not catch, or waits for a lock that another thread holds,
    or is about to load a variable at an address that holds none.  So the
    staging store never overwrites, moves or destroys an object that is not
    there, the log always finds what it looks for, and a thread never waits
    for its own lock. *)
Theorem step_defined (is_trivial : addr_t -> bool) (m0 : gmap addr_t V)
  (ps : gmap tid_t (list (txn V L A) * L)) n evs s t th :
  Machine.steps (LS := LS) is_trivial n (Machine.init m0 ps) evs s -> Z.of_nat n < 2 ^ 63 ->
  Machine.ths s !! t = Some th -> Machine.tstep is_trivial t (Machine.sh s) th = None ->
  over th \/
  (exists k u thu, awaits is_trivial th = Some k /\ u <> t /\ Machine.ths s !! u = Some thu /\
    k ∈ held thu) \/
  (exists x, loads is_trivial th = Some x /\ mem (Machine.sh s) !! x = None).
Proof.
  intros Hs Hn Ht Hst. destruct (steps_inv is_trivial m0 ps n evs s Hs Hn) as (HS & Hi & _).
  destruct (stuck_excused is_trivial m0 _ _ _ _ _ Hi Hn Ht Hst) as [|[(k & Ha & Hl)|]]; auto.
  right. left. apply (i_lock _ _ _ _ Hi) in Hl as (u & thu & Hu & Hin).
  exists k, u, thu. split_and!; [done| |done..]. intros ->. simplify_eq.
  by eapply (awaits_other is_trivial).
Qed.
End Safety.
