(* ===== verification/Deadlock.v ===== *)
(** * Deadlock

    The guard takes locks in the order of the addresses, while locks are chosen
    by hashing addresses.  Within one aligned window of 4 * [LOCKTABLE_SIZE]
    bytes the two orders agree and some thread can always make a step; across
    windows they do not, and two transactions can wait for each other forever. *)

From S2P Require Import Prelude VersionLock LockTable Store Op LocSets Log Tx State LockGuard Machine History MachineInv InvFacts Preserve Steps StepsGuard StepsCommit Serializability Safety.
Import History.

(** The addresses that a body may access satisfy [P]. *)
Fixpoint touches {V L A} (P : addr_t -> Prop) (p : tx V L A) : Prop :=
  match p with
  | Ret _ | Throw _ => True
  | Read x k => P x /\ forall v, touches P (k v)
  | Write x _ k => P x /\ touches P k
  | GetL k => forall lo, touches P (k lo)
  | SetL _ k => touches P k
  end.

Section Shape.
Context {LS V L A : Type} `{LocationSetLaws LS}.
Context (is_trivial : addr_t -> bool).
Abbreviation thread := (thread LS V L A).
Abbreviation sys := (Machine.sys (LS := LS) (V := V) (L := L) (A := A)).
Implicit Types (th : thread) (s : sys) (t : tid_t).
Context (m0 : gmap addr_t V) (P : addr_t -> Prop) (HP : forall x, P x -> W64.in_range x).

Definition addrs th : list addr_t := m_addr <$> Machine.locs th.

(** The log stays within [P], and is sorted while the guard locks it. *)
Definition shape_pc th : Prop :=
  match at_pc th with
  | Body p => touches P p /\ Forall P (addrs th)
  | Load x k | LoadHeld x k | LoadRel x _ k =>
      P x /\ (forall v, touches P (k v)) /\ Forall P (addrs th)
  | Guarding _ _ _ => Forall P (addrs th) /\ StronglySorted Z.le (addrs th)
  | _ => True
  end.

Definition shape th : Prop :=
  Forall (fun tr => touches P (body tr)) (todo th) /\ shape_pc th.

Lemma addrs_modify (i : nat) f (ls : LS) :
  (forall l, ls_locations ls !! i = Some l -> m_addr (f l) = m_addr l) ->
  m_addr <$> ls_locations (ls_modify i f ls) = m_addr <$> ls_locations ls.
Proof.
  intros Hf. rewrite ls_modify_locations. revert i Hf.
  induction (ls_locations ls) as [|l0 r IH]; intros [|i] Hf; simpl; try done.
  - by rewrite Hf.
  - f_equal. by apply IH.
Qed.

Lemma acquire_step_addrs t T (i : nat) loc (ls : LS) g T' ls' g' :
  ls_locations ls !! i = Some loc ->
  LockGuard.acquire_step t T i loc ls g = Some (T', ls', g') ->
  m_addr <$> ls_locations ls' = m_addr <$> ls_locations ls.
Proof.
  intros Hl Ha. unfold LockGuard.acquire_step, Loc.lock in Ha.
  repeat (case_hyp Ha; try discriminate Ha); simplify_eq; apply addrs_modify; intros l0 E; by simplify_eq.
Qed.

Lemma read_shape n HS s t th x k sh' th' ev :
  inv m0 n HS s -> Machine.ths s !! t = Some th -> at_pc th = Body (Read x k) -> shape th ->
  Machine.step_read t (Machine.sh s) th x k = Some (sh', th', ev) -> shape th'.
Proof.
  intros Hi Ht Hpc [Htd Hsh] Hst. unfold shape_pc in Hsh. rewrite Hpc in Hsh.
  destruct Hsh as [[Hx Hk] Ha].
  destruct (at_body_inv _ _ _ _ _ _ _ Hi Ht Hpc) as [(Hwf & Hrun & Hrv) _].
  unfold Machine.step_read, Manager.assert_in_transaction, Manager.in_transaction, Machine.silent in Hst.
  rewrite bool_decide_true in Hst by done.
  destruct (Log.append_read _ _ _ _) as [lg|] eqn:Er; [|done].
  assert (Hal : Forall P (m_addr <$> Log.locations lg)).
  { apply Forall_forall. intros y Hy. rewrite Forall_forall in Ha.
    destruct (append_read_addrs _ _ _ _ _ _ Hwf Er Hy) as [->|]; [done|by apply Ha]. }
  destruct (Log.value_at x lg); simplify_eq; (split; [done|]); by split_and!.
Qed.

Lemma write_shape n HS s t th x v k sh' th' ev :
  inv m0 n HS s -> Machine.ths s !! t = Some th -> at_pc th = Body (Write x v k) -> shape th ->
  Machine.step_write (Machine.sh s) th x v k = Some (sh', th', ev) -> shape th'.
Proof.
  intros Hi Ht Hpc [Htd Hsh] Hst. unfold shape_pc in Hsh. rewrite Hpc in Hsh.
  destruct Hsh as [[Hx Hk] Ha].
  destruct (at_body_inv _ _ _ _ _ _ _ Hi Ht Hpc) as [(Hwf & Hrun & Hrv) _].
  unfold Machine.step_write, Manager.assert_in_transaction, Manager.in_transaction, Machine.silent in Hst.
  rewrite bool_decide_true in Hst by done.
  destruct (Log.append_write _ _ _) as [lg|] eqn:Er; [|done]. simplify_eq. split; [done|]. split; [done|].
  apply Forall_forall. intros y Hy. rewrite Forall_forall in Ha.
  destruct (append_write_addrs _ _ _ _ _ Hwf Er Hy) as [->|]; [done|by apply Ha].
Qed.

Lemma ret_shape n HS s t th a :
  inv m0 n HS s -> Machine.ths s !! t = Some th -> at_pc th = Body (Ret a) -> shape th ->
  shape (Machine.goto (Guarding a 0 LockGuard.start)
           (Machine.with_ls (ls_stable_sort (Machine.lset th)) th)).
Proof.
  intros Hi Ht Hpc [Htd Hsh]. unfold shape_pc in Hsh. rewrite Hpc in Hsh. destruct Hsh as [_ Ha].
  destruct (at_body_inv _ _ _ _ _ _ _ Hi Ht Hpc) as [(Hwf & _) _]. split; [done|]. split.
  - change (Forall P (m_addr <$> ls_locations (ls_stable_sort (Machine.lset th)))).
    by rewrite ls_stable_sort_perm.
  - apply ls_stable_sort_sorted; [apply Hwf|]. eapply Forall_impl; [exact Ha|exact HP].
Qed.

Lemma tstep_shape n HS s t th sh' th' ev :
  inv m0 n HS s -> Machine.ths s !! t = Some th -> shape th ->
  Machine.tstep is_trivial t (Machine.sh s) th = Some (sh', th', ev) -> shape th'.
Proof.
  intros Hi Ht Hs Hst. unfold Machine.tstep in Hst. pose proof Hs as [Htd Hsh]. unfold shape_pc in Hsh.
  destruct (at_pc th) as [| |p|y k|y k|y v k|a i g|a g|a wv i g|a wv i g|a wv i g|a ok l|] eqn:Hpc.
  - unfold Machine.step_idle, Machine.silent in Hst. case_hyp Hst; simplify_eq. split; [done|done].
  - unfold Machine.step_attempt, Machine.silent in Hst. destruct (todo th) as [|tr rest] eqn:Etd; [done|].
    unfold Manager.start_transaction in Hst.
    destruct (Log.clear _) as [lg|] eqn:El; [|done].
    destruct (Word.get_version _) as [rv|]; [|done].
    pose proof (i_thread _ _ _ _ Hi t th Ht) as Hti. unfold tinv in Hti. rewrite Hpc in Hti.
    rewrite clear_spec in El by apply Hti. simplify_eq. split; [done|]. split.
    + by apply Forall_cons in Htd as [? _].
    + change (Forall P (m_addr <$> ls_locations ls_empty)). by rewrite ls_empty_locations.
  - destruct p as [a|e|x k|x v k|k|lo k]; simpl in Hst; unfold Machine.silent in Hst.
    + simplify_eq. by eapply ret_shape.
    + unfold Machine.step_throw, Machine.silent in Hst. repeat case_hyp Hst; simplify_eq; (split; [|done]);
        [by apply Forall_tail|done].
    + by eapply read_shape.
    + by eapply write_shape.
    + simplify_eq. destruct Hsh as [Hk ?]. by split_and!.
    + by simplify_eq.
  - unfold Machine.step_load, Machine.silent in Hst. destruct Hsh as (? & Hk & ?).
    repeat case_hyp Hst; simplify_eq; (split; [done|]); by split_and!.
  - unfold Machine.step_load_held, Machine.silent in Hst.
    repeat case_hyp Hst; simplify_eq; (split; [done|done]).
  - unfold Machine.step_load_rel, Machine.silent in Hst. destruct Hsh as (? & Hk & ?). simplify_eq.
    split; [done|]. by split_and!.
  - unfold Machine.step_guard, Machine.silent in Hst. destruct (Machine.locs th !! i) as [loc|] eqn:Hl;
      [|by simplify_eq].
    destruct (LockGuard.acquire_step _ _ _ _ _ _) as [[[T' ls'] g']|] eqn:Ea; [|done]. simplify_eq.
    split; [done|]. unfold shape_pc, addrs. simpl.
    change (Machine.locs (Machine.goto (Guarding a (S i) g') (Machine.with_ls ls' th))) with (ls_locations ls').
    by rewrite (acquire_step_addrs _ _ _ _ _ _ _ _ _ Hl Ea).
  - unfold Machine.step_incr, Machine.decide_commit, Machine.silent in Hst. repeat case_hyp Hst; by simplify_eq.
  - unfold Machine.step_validate, Machine.decide_commit, Machine.abort, Machine.silent in Hst.
    repeat case_hyp Hst; by simplify_eq.
  - unfold Machine.step_commit, Machine.silent in Hst. repeat case_hyp Hst; by simplify_eq.
  - unfold Machine.step_move, Machine.silent in Hst. repeat case_hyp Hst; by simplify_eq.
  - unfold Machine.step_release, Machine.silent in Hst. repeat case_hyp Hst; simplify_eq; (split; [|done]);
      first [exact (proj1 Hs)|by apply Forall_tail, Hs].
  - done.
Qed.
End Shape.

(** ** Reachable states *)
Section Ready.
Context {LS V L A : Type} `{LocationSetLaws LS}.
Context (is_trivial : addr_t -> bool).
Abbreviation thread := (thread LS V L A).
Abbreviation sys := (Machine.sys (LS := LS) (V := V) (L := L) (A := A)).
Implicit Types (th : thread) (s : sys) (t : tid_t).
Context (m0 : gmap addr_t V) (P : addr_t -> Prop) (HP : forall x, P x -> W64.in_range x).

Definition memory_kept s : Prop := forall x, is_Some (m0 !! x) -> is_Some (mem (Machine.sh s) !! x).

Lemma tstep_mem t (x x' : shared V) th th' ev y :
  Machine.tstep is_trivial t x th = Some (x', th', ev) -> is_Some (mem x !! y) -> is_Some (mem x' !! y).
Proof.
  intros Hst. unfold Machine.tstep in Hst.
  destruct (at_pc th); unfold Machine.step_idle, Machine.step_attempt, Machine.step_body, Machine.step_read,
      Machine.step_write, Machine.step_throw, Machine.step_load, Machine.step_load_held,
      Machine.step_load_rel, Machine.step_guard, Machine.step_incr, Machine.step_validate,
      Machine.step_commit, Machine.step_move, Machine.step_release, Machine.decide_commit,
      Machine.the_event, Machine.abort, Machine.silent, Loc.move in Hst;
    repeat (case_hyp Hst; try discriminate Hst); simplify_eq; try done.
  simpl. rewrite lookup_insert_is_Some'. auto.
Qed.

(** Everything the progress argument needs of a reachable state. *)
Record ready n HS s : Prop := {
  rd_inv : inv m0 n HS s;
  rd_shape : forall t th, Machine.ths s !! t = Some th -> shape P th;
  rd_mem : memory_kept s }.

Lemma ready_step n HS s ev s' :
  ready n HS s -> Z.of_nat (S n) < 2 ^ 63 -> Machine.step is_trivial s ev s' ->
  exists HS', ready (S n) HS' s'.
Proof.
  intros [Hi Hs Hm] Hn Hst. destruct (step_inv is_trivial m0 n HS s ev s' Hi Hn Hst) as (HS' & Hi' & _).
  exists HS'. constructor; [done| |]; destruct Hst as [s t th sh' th' ev Ht Hst]; simpl.
  - intros u thu Hu. destruct (decide (t = u)) as [<-|Hne].
    + rewrite lookup_insert_eq in Hu. simplify_eq. exact (tstep_shape is_trivial m0 P HP _ _ _ _ _ _ _ _ Hi Ht (Hs t th Ht) Hst).
    + rewrite lookup_insert_ne in Hu by done. eauto.
  - intros x Hx. eapply tstep_mem; [exact Hst|]. by apply Hm.
Qed.

Context (ps : gmap tid_t (list (txn V L A) * L)).
Hypothesis Hps : forall t p, ps !! t = Some p -> Forall (fun tr => touches P (body tr)) p.1.

Lemma steps_ready n evs s :
  Machine.steps is_trivial n (Machine.init (LS := LS) m0 ps) evs s -> Z.of_nat n < 2 ^ 63 ->
  exists HS, ready n HS s.
Proof.
  remember (Machine.init m0 ps) as s0 eqn:E0. intros Hs. induction Hs as [|n s evs s1 ev s2 Hs IH Hst].
  - intros _. subst. exists []. constructor; [apply init_inv| |by intros x].
    intros t th (p & Hp & ->)%init_thread. split; [by eapply Hps|done].
  - intros Hn. destruct (IH E0 ltac:(lia)) as (HS & Hr). by eapply ready_step.
Qed.

End Ready.

(** ** Progress inside one window *)
Section Progress.
Context {LS V L A : Type} `{LocationSetLaws LS}.
Context (is_trivial : addr_t -> bool).
Abbreviation thread := (thread LS V L A).
Abbreviation sys := (Machine.sys (LS := LS) (V := V) (L := L) (A := A)).
Implicit Types (th : thread) (s : sys) (t : tid_t).
Context (m0 : gmap addr_t V) (base : addr_t).

(** The address of a variable. *)
Definition variable (x : addr_t) : Prop := W64.in_range x /\ is_Some (m0 !! x).

(** Addresses of variables of the window that starts at [base]. *)
Definition in_window (x : addr_t) : Prop := base <= x < base + 2 ^ 24 /\ variable x.

Lemma in_window_range x : in_window x -> W64.in_range x.
Proof. by intros (_ & ? & _). Qed.

Abbreviation ready := (ready m0 in_window).

Lemma awaits_index th k : awaits is_trivial th = Some k -> 0 <= k < 2 ^ 22.
Proof.
  unfold awaits. intros Ha. assert (exists x, k = index x) as [x ->].
  { unfold Loc.lock_ptr in Ha. repeat case_match; simplify_eq; eauto. }
  rewrite index_eq. apply Z.mod_pos_bound. lia.
Qed.

Lemma loads_some n HS s t th x :
  ready n HS s -> Machine.ths s !! t = Some th -> loads is_trivial th = Some x ->
  mem (Machine.sh s) !! x <> None.
Proof.
  intros [_ Hs Hm] Ht Hx. destruct (Hs t th Ht) as [_ Hsh]. unfold shape_pc in Hsh. unfold loads in Hx.
  assert (is_Some (mem (Machine.sh s) !! x)) as [v ->]; [|done]. apply Hm.
  destruct (at_pc th); try done; [destruct (is_trivial _); [|done]|]; simplify_eq; apply Hsh.
Qed.

(** A thread of the guard holds locks below the one it waits for. *)
Lemma awaits_above n HS s t th k k' :
  ready n HS s -> base mod 2 ^ 24 = 0 -> Machine.ths s !! t = Some th ->
  awaits is_trivial th = Some k -> k' ∈ held th -> k' < k.
Proof.
  intros [Hi Hs _] Hb Ht Ha Hk. pose proof (awaits_other is_trivial m0 _ _ _ _ _ _ Hi Ht Ha) as Hne.
  assert (k' <> k) by (intros ->; done). enough (k' <= k) by lia. clear Hne.
  destruct (Hs t th Ht) as [_ Hsh]. unfold shape_pc in Hsh. unfold awaits in Ha.
  unfold held, held_pos in Hk.
  destruct (at_pc th) as [| |p|y c|y c|y v c|a i g|a g|a wv i g|a wv i g|a wv i g|a ok l|] eqn:Hpc;
    try done; try (by apply elem_of_nil in Hk).
  destruct Hsh as [Hwin Hsort].
  destruct (at_guard _ _ _ _ _ _ _ _ _ Hi Ht Hpc) as (_ & Hg & _).
  destruct (Machine.locs th !! i) as [loc|] eqn:Hl; [|done]. case_decide; [done|]. simplify_eq.
  apply list_elem_of_omap in Hk as (j & Hj & E). destruct (gd_pos _ _ _ _ Hg j Hj) as [Hlt [l0 Hl0]].
  rewrite (lock_at_held _ _ _ Hl0) in E. simplify_eq.
  assert (Hla : forall (q : nat) lq, Machine.locs th !! q = Some lq -> addrs th !! q = Some (m_addr lq)).
  { intros q lq Hq. unfold addrs. by rewrite list_lookup_fmap, Hq. }
  assert (Hle : m_addr l0 <= m_addr loc).
  { eapply (sorted_lookup Z.le (addrs th) j i); eauto. }
  rewrite Forall_forall in Hwin.
  assert (in_window (m_addr l0)) as [? _] by (apply Hwin, list_elem_of_lookup_2 with j; eauto).
  assert (in_window (m_addr loc)) as [? _] by (apply Hwin, list_elem_of_lookup_2 with i; eauto).
  apply (index_mono base); lia.
Qed.

(** Something can step, if only the thread at the end of the chain of waits. *)
Lemma someone_steps n HS s (fuel : nat) :
  ready n HS s -> Z.of_nat n < 2 ^ 63 -> base mod 2 ^ 24 = 0 ->
  forall t th, Machine.ths s !! t = Some th -> ~ over th ->
    (forall k, awaits is_trivial th = Some k -> 2 ^ 22 - k < Z.of_nat fuel) ->
    exists u thu, Machine.ths s !! u = Some thu /\
      Machine.tstep is_trivial u (Machine.sh s) thu <> None.
Proof.
  intros Hrd Hn Hb. pose proof Hrd as [Hi Hs Hm].
  induction fuel as [|fuel IH]; intros t th Ht Hov Hfuel;
    (destruct (Machine.tstep is_trivial t (Machine.sh s) th) as [r|] eqn:Est;
     [exists t, th; by rewrite Est|]);
    destruct (stuck_excused is_trivial m0 _ _ _ _ _ Hi Hn Ht Est) as [|[(k & Ha & Hl)|(x & Hx & Hnone)]];
    try done.
  - specialize (Hfuel k Ha). apply awaits_index in Ha. lia.
  - exfalso. by eapply (loads_some _ _ _ t th x).
  - apply (i_lock _ _ _ _ Hi) in Hl as (u & thu & Hu & Hin).
    apply (IH u thu Hu).
    + intros [[Hp _]|Hp]; unfold held, held_pos in Hin; rewrite Hp in Hin; by apply elem_of_nil in Hin.
    + intros k' Ha'. specialize (Hfuel k Ha).
      pose proof (awaits_above _ _ _ _ _ _ _ Hrd Hb Hu Ha' Hin). lia.
  - exfalso. by eapply (loads_some _ _ _ t th x).
Qed.
End Progress.

Section DeadlockFree.
Context {LS V L A : Type} `{LocationSetLaws LS}.

(** [C7] No deadlock within a window.  When every address the transactions may
    access is that of a variable in one aligned window of 2^24 bytes and a 64-bit word, in any
    reachable state in which some thread has not finished its program (and was
    not left by an uncaught exception) some thread has a step. *)
Theorem window_no_deadlock (is_trivial : addr_t -> bool) (m0 : gmap addr_t V)
  (ps : gmap tid_t (list (txn V L A) * L)) base n evs s t th :
  base mod 2 ^ 24 = 0 ->
  (forall u p, ps !! u = Some p -> Forall (fun tr => touches (in_window m0 base) (body tr)) p.1) ->
  Machine.steps (LS := LS) is_trivial n (Machine.init m0 ps) evs s -> Z.of_nat n < 2 ^ 63 ->
  Machine.ths s !! t = Some th -> ~ over th ->
  exists u thu, Machine.ths s !! u = Some thu /\
    Machine.tstep is_trivial u (Machine.sh s) thu <> None.
Proof.
  intros Hb Hps Hs Hn Ht Hov. destruct (steps_ready is_trivial m0 (in_window m0 base) (in_window_range m0 base) ps Hps n evs s Hs Hn) as (HS & Hrd).
  eapply (someone_steps is_trivial m0 base n HS s (Z.to_nat (2 ^ 22 + 1))); [done..|].
  intros k Ha%awaits_index. lia.
Qed.
End DeadlockFree.
