(* ===== verification/Solo.v ===== *)
(** * A transaction running alone

    When the other threads hold no lock, a thread that runs by itself finishes
    its transaction: the attempt it is in may fail validation, the next one
    cannot.  Running alone from the start, the transaction does what its body
    does: this is the sequential meaning of [atomically] ([tl2/stm.h]). *)

From S2P Require Import Prelude VersionLock LockTable Store Op LocSets Log Tx State LockGuard Machine History MachineInv InvFacts Preserve Steps StepsGuard StepsCommit Serializability Safety Deadlock.
Import History.

Section Solo.
Context {LS V L A : Type} `{LocationSetLaws LS}.
Context (is_trivial : addr_t -> bool) (m0 : gmap addr_t V) (t : tid_t).
Abbreviation thread := (thread LS V L A).
Abbreviation hrec := (hrec V L A).
Abbreviation event := (event V L A).
Abbreviation sys := (Machine.sys (LS := LS) (V := V) (L := L) (A := A)).
Implicit Types (th : thread) (s : sys) (HS : list hrec) (evs : list event).

Abbreviation variable := (variable m0).

(** The other threads hold no lock. *)
Definition alone s : Prop := forall u thu, u <> t -> Machine.ths s !! u = Some thu -> held thu = [].

(** The clock leaves room for two commits. *)
Definition room s : Prop := cv s + 3 < 2 ^ 63.

Record solo HS s th : Prop := {
  so_inv : inv m0 (Z.to_nat (cv s)) HS s;
  so_th : Machine.ths s !! t = Some th;
  so_alone : alone s;
  so_shape : shape variable th;
  so_mem : forall x, is_Some (m0 !! x) -> is_Some (mem (Machine.sh s) !! x) }.

Lemma inv_rebase n HS s : Z.of_nat n < 2 ^ 63 -> inv m0 n HS s -> inv m0 (Z.to_nat (cv s)) HS s.
Proof.
  intros Hn Hi. destruct (i_clock _ _ _ _ Hi) as (c & Ec & Hc).
  assert (Hcv : cv s = c) by (unfold cv; rewrite Ec; apply Word.unpack_pack; unfold Word.version_ok; lia).
  destruct Hi as [_]. constructor; try done. exists c. split; [done|lia].
Qed.

(** A step of the thread is there, unless it is over. *)
Lemma solo_can HS s th : solo HS s th -> room s -> ~ over th ->
  exists r, Machine.tstep is_trivial t (Machine.sh s) th = Some r.
Proof.
  intros [Hi Ht Hal Hsh Hm] Hroom Hov. unfold room in Hroom.
  destruct (Machine.tstep is_trivial t (Machine.sh s) th) as [r|] eqn:Est; [by exists r|]. exfalso.
  pose proof (i_clock _ _ _ _ Hi) as (c & Ec & Hc).
  destruct (stuck_excused is_trivial m0 _ HS s t th Hi ltac:(lia) Ht Est) as [Ho|[(k & Ha & Hl)|(x & Hx & Hn)]].
  - by destruct (Hov Ho).
  - apply (i_lock _ _ _ _ Hi) in Hl as (u & thu & Hu & Hin). destruct (decide (u = t)) as [->|Hne].
    + simplify_eq. by eapply awaits_other.
    + rewrite (Hal u thu Hne Hu) in Hin. by apply elem_of_nil in Hin.
  - destruct Hsh as [_ Hsh]. unfold shape_pc in Hsh. unfold loads in Hx.
    assert (Hv : variable x); [|destruct (Hm x (proj2 Hv)) as [v Ev]; congruence].
    destruct (at_pc th); try done; [destruct (is_trivial _); [|done]|]; simplify_eq; apply Hsh.
Qed.

Lemma solo_step HS s th sh' th' ev : solo HS s th -> cv s + 1 < 2 ^ 63 ->
  Machine.tstep is_trivial t (Machine.sh s) th = Some (sh', th', ev) ->
  exists HS', solo HS' (next_sys s t sh' th') th' /\ h_ev <$> HS' ≡ₚ (h_ev <$> HS) ++ option_list ev.
Proof.
  intros [Hi Ht Hal Hsh Hm] Hroom Hst.
  pose proof (i_clock _ _ _ _ Hi) as (c & Ec & Hc).
  assert (Hstep : Machine.step is_trivial s ev (next_sys s t sh' th')) by (by econstructor).
  destruct (step_inv is_trivial m0 _ HS s ev _ Hi ltac:(lia) Hstep) as (HS' & Hi' & Hp).
  exists HS'. split; [|done]. constructor.
  - eapply inv_rebase; [|exact Hi']. lia.
  - apply lookup_insert_eq.
  - intros u thu Hne Hu. simpl in Hu. rewrite lookup_insert_ne in Hu by done. by eapply Hal.
  - eapply (tstep_shape is_trivial m0 variable); [by intros x []|exact Hi|exact Ht|exact Hsh|exact Hst].
  - intros x Hx. eapply tstep_mem; [exact Hst|]. by apply Hm.
Qed.

(** ** Where running alone leads *)

Definition leads HS s (Q : list event -> sys -> thread -> Prop) : Prop :=
  exists k evs HS' s' th',
    Machine.run_schedule is_trivial (replicate k t) s = Some (s', evs) /\
    solo HS' s' th' /\ h_ev <$> HS' ≡ₚ (h_ev <$> HS) ++ evs /\ Q evs s' th'.

Lemma leads_now HS s th (Q : list event -> sys -> thread -> Prop) :
  solo HS s th -> Q [] s th -> leads HS s Q.
Proof. intros Hs HQ. exists 0%nat, [], HS, s, th. by rewrite app_nil_r. Qed.

(** One step, then the rest. *)
Lemma leads_step HS s th Q : solo HS s th -> room s -> ~ over th ->
  (forall sh' th' ev HS', Machine.tstep is_trivial t (Machine.sh s) th = Some (sh', th', ev) ->
     solo HS' (next_sys s t sh' th') th' -> h_ev <$> HS' ≡ₚ (h_ev <$> HS) ++ option_list ev ->
     leads HS' (next_sys s t sh' th') (fun evs s' th' => Q (option_list ev ++ evs) s' th')) ->
  leads HS s Q.
Proof.
  intros Hs Hr Hov Hnext. destruct (solo_can _ _ _ Hs Hr Hov) as [[[sh' th'] ev] Est].
  destruct (solo_step _ _ _ _ _ _ Hs ltac:(unfold room in Hr; lia) Est) as (HS' & Hs' & Hp).
  destruct (Hnext _ _ _ _ Est Hs' Hp) as (k & evs & HS2 & s2 & th2 & Hrun & Hs2 & Hp2 & HQ).
  exists (S k), (option_list ev ++ evs), HS2, s2, th2. split; [|split; [done|split; [|done]]].
  - cbn [replicate Machine.run_schedule]. rewrite (so_th _ _ _ Hs), Est. unfold next_sys in Hrun. by rewrite Hrun.
  - by rewrite Hp2, Hp, app_assoc.
Qed.

Lemma run_app k1 k2 s s1 evs1 s2 evs2 :
  Machine.run_schedule is_trivial (replicate k1 t) s = Some (s1, evs1) ->
  Machine.run_schedule is_trivial (replicate k2 t) s1 = Some (s2, evs2) ->
  Machine.run_schedule is_trivial (replicate (k1 + k2) t) s = Some (s2, evs1 ++ evs2).
Proof.
  revert s evs1. induction k1 as [|k1 IH]; intros s evs1 H1 H2; cbn [Nat.add replicate Machine.run_schedule] in *.
  - by injection H1 as -> <-.
  - destruct (Machine.ths s !! t) as [th|]; [|done].
    destruct (Machine.tstep is_trivial t (Machine.sh s) th) as [[[sh' th'] ev]|]; [|done].
    destruct (Machine.run_schedule is_trivial (replicate k1 t) _) as [[s' evs']|] eqn:E; [|done].
    injection H1 as -> <-. rewrite (IH _ _ E H2). by rewrite app_assoc.
Qed.

Lemma leads_trans HS s Q1 Q2 : leads HS s Q1 ->
  (forall HS1 s1 th1 evs1, solo HS1 s1 th1 -> h_ev <$> HS1 ≡ₚ (h_ev <$> HS) ++ evs1 -> Q1 evs1 s1 th1 ->
     leads HS1 s1 (fun evs2 s2 th2 => Q2 (evs1 ++ evs2) s2 th2)) ->
  leads HS s Q2.
Proof.
  intros (k1 & evs1 & HS1 & s1 & th1 & R1 & S1 & P1 & HQ1) Hnext.
  destruct (Hnext _ _ _ _ S1 P1 HQ1) as (k2 & evs2 & HS2 & s2 & th2 & R2 & S2 & P2 & HQ2).
  exists (k1 + k2)%nat, (evs1 ++ evs2), HS2, s2, th2. split; [by eapply run_app|].
  split; [done|]. split; [|done]. by rewrite P2, P1, app_assoc.
Qed.

Lemma leads_impl HS s (Q1 Q2 : list event -> sys -> thread -> Prop) :
  leads HS s Q1 -> (forall evs s' th', Q1 evs s' th' -> Q2 evs s' th') -> leads HS s Q2.
Proof. intros (k & evs & HS' & s' & th' & ? & ? & ? & ?) HQ. exists k, evs, HS', s', th'. auto. Qed.

(** ** The body *)

(** The same attempt of the same transaction, with nothing committed. *)
Record same_try s th s' th' : Prop := {
  st_cv : cv s' = cv s;
  st_rv : rv_of th' = rv_of th;
  st_todo : todo th' = todo th;
  st_results : results th' = results th;
  st_started : started th' = started th }.

Lemma same_try_refl s th : same_try s th s th.
Proof. by constructor. Qed.

Lemma same_try_trans s th s1 th1 s2 th2 :
  same_try s th s1 th1 -> same_try s1 th1 s2 th2 -> same_try s th s2 th2.
Proof. intros [] []. constructor; congruence. Qed.

Lemma same_try_room s th s' th' : same_try s th s' th' -> room s -> room s'.
Proof. intros [E]. unfold room. by rewrite E. Qed.

Lemma not_over_pc th p : at_pc th = p -> match p with Idle | Crashed => False | _ => True end -> ~ over th.
Proof. intros Hpc Hp [[E _]|E]; rewrite E in Hpc; by subst p. Qed.

Definition body_done evs s s' th th' : Prop :=
  evs = [] /\ same_try s th s' th' /\
  ((exists a, at_pc th' = Body (Ret a)) \/ (exists e, at_pc th' = Body (Throw e))).

(** The attempt goes on with [p'] after a silent step. *)
Lemma body_next HS s th p' sh' th' : room s ->
  (forall HS s th, solo HS s th -> room s -> at_pc th = Body p' ->
     leads HS s (fun evs s' th' => body_done evs s s' th th')) ->
  solo HS (next_sys s t sh' th') th' -> at_pc th' = Body p' ->
  same_try s th (next_sys s t sh' th') th' ->
  leads HS (next_sys s t sh' th') (fun evs s' th' => body_done evs s s' th th').
Proof.
  intros Hr IH Hs Hpc Hk. eapply leads_impl; [apply IH; [exact Hs|by eapply same_try_room|exact Hpc]|].
  intros evs s' th2 (-> & Hk2 & Hp). split; [done|]. split; [by eapply same_try_trans|done].
Qed.

(** The value is loaded: at once, or under the lock. *)
Lemma load_leads HS s th x k : solo HS s th -> room s -> at_pc th = Load x k ->
  (forall v HS s th, solo HS s th -> room s -> at_pc th = Body (k v) ->
     leads HS s (fun evs s' th' => body_done evs s s' th th')) ->
  leads HS s (fun evs s' th' => body_done evs s s' th th').
Proof.
  intros Hs Hr Hpc IH. eapply leads_step; [exact Hs|done|by eapply not_over_pc|].
  intros sh1 th1 ev HS1 Est Hs1 _. unfold Machine.tstep in Est. rewrite Hpc in Est.
  unfold Machine.step_load, Machine.silent in Est. destruct (is_trivial x).
  - destruct (mem (Machine.sh s) !! x) as [v|]; [|done]. injection Est as <- <- <-.
    by eapply body_next; [done|apply (IH v)|exact Hs1|..].
  - destruct (Word.lock _) as [w|]; [|done]. injection Est as <- <- <-.
    set (th1 := Machine.goto (LoadHeld x k) th) in *. set (s1 := next_sys _ _ _ _) in *.
    assert (K1 : same_try s th s1 th1) by done. pose proof (same_try_room _ _ _ _ K1 Hr) as Hr1.
    eapply leads_step; [exact Hs1|done|by eapply not_over_pc|].
    intros sh2 th2 ev2 HS2 Est2 Hs2 _. unfold Machine.tstep in Est2. simpl in Est2.
    unfold Machine.step_load_held, Machine.silent in Est2. case_hyp Est2; [|done]. injection Est2 as <- <- <-.
    set (th2 := Machine.goto (LoadRel x _ k) th1) in *. set (s2 := next_sys s1 _ _ _) in *.
    assert (K2 : same_try s th s2 th2) by done. pose proof (same_try_room _ _ _ _ K2 Hr) as Hr2.
    eapply leads_step; [exact Hs2|done|by eapply not_over_pc|].
    intros sh3 th3 ev3 HS3 Est3 Hs3 _. unfold Machine.tstep in Est3. simpl in Est3.
    unfold Machine.step_load_rel, Machine.silent in Est3. injection Est3 as <- <- <-. simpl.
    set (th3 := Machine.goto _ th2) in *. set (s3 := next_sys s2 _ _ _) in *.
    assert (K3 : same_try s th s3 th3) by done. pose proof (same_try_room _ _ _ _ K3 Hr) as Hr3.
    eapply leads_impl; [by eapply (IH _ _ s3 th3)|].
    intros evs s' th' (-> & Hk2 & Hp). split; [done|]. split; [by eapply same_try_trans|done].
Qed.

Lemma body_leads p : forall HS s th, solo HS s th -> room s -> at_pc th = Body p ->
  leads HS s (fun evs s' th' => body_done evs s s' th th').
Proof.
  induction p as [a|e|x k IH|x v p IH|k IH|lo p IH]; intros HS s th Hs Hr Hpc.
  - eapply leads_now; [exact Hs|]. split; [done|]. split; [apply same_try_refl|]. left. by exists a.
  - eapply leads_now; [exact Hs|]. split; [done|]. split; [apply same_try_refl|]. right. by exists e.
  - destruct (at_body_inv _ _ _ _ _ _ _ (so_inv _ _ _ Hs) (so_th _ _ _ Hs) Hpc) as [(Hwf & Hrun & Hrv) _].
    eapply leads_step; [exact Hs|done|by eapply not_over_pc|].
    intros sh1 th1 ev HS1 Est Hs1 _. unfold Machine.tstep in Est. rewrite Hpc in Est. simpl in Est.
    unfold Machine.step_read, Manager.assert_in_transaction, Manager.in_transaction, Machine.silent in Est.
    rewrite bool_decide_true in Est by done.
    destruct (Log.append_read _ _ _ _) as [lg|]; [|done].
    destruct (Log.value_at x lg) as [v|]; injection Est as <- <- <-.
    + by eapply body_next; [done|apply (IH v)|exact Hs1|..].
    + eapply leads_impl; [eapply load_leads; [exact Hs1|done|done|exact IH]|].
      intros evs s' th' (-> & Hk2 & Hp). split; [done|]. split; [|done].
      eapply same_try_trans; [|exact Hk2]. done.
  - destruct (at_body_inv _ _ _ _ _ _ _ (so_inv _ _ _ Hs) (so_th _ _ _ Hs) Hpc) as [(Hwf & Hrun & Hrv) _].
    eapply leads_step; [exact Hs|done|by eapply not_over_pc|].
    intros sh1 th1 ev HS1 Est Hs1 _. unfold Machine.tstep in Est. rewrite Hpc in Est. simpl in Est.
    unfold Machine.step_write, Manager.assert_in_transaction, Manager.in_transaction, Machine.silent in Est.
    rewrite bool_decide_true in Est by done.
    destruct (Log.append_write _ _ _) as [lg|]; [|done]. injection Est as <- <- <-.
    by eapply body_next; [done|apply IH|exact Hs1|..].
  - eapply leads_step; [exact Hs|done|by eapply not_over_pc|].
    intros sh1 th1 ev HS1 Est Hs1 _. unfold Machine.tstep in Est. rewrite Hpc in Est. simpl in Est.
    injection Est as <- <- <-. by eapply body_next; [done|apply (IH (locals th))|exact Hs1|..].
  - eapply leads_step; [exact Hs|done|by eapply not_over_pc|].
    intros sh1 th1 ev HS1 Est Hs1 _. unfold Machine.tstep in Est. rewrite Hpc in Est. simpl in Est.
    injection Est as <- <- <-. by eapply body_next; [done|apply IH|exact Hs1|..].
Qed.

(** ** The guard *)

Lemma guard_leads (d : nat) : forall HS s th a (i : nat) g, solo HS s th -> room s ->
  at_pc th = Guarding a i g -> (length (Machine.locs th) - i <= d)%nat ->
  leads HS s (fun evs s' th' => evs = [] /\ same_try s th s' th' /\ locals th' = locals th /\
    exists g', at_pc th' = Incr a g').
Proof.
  induction d as [|d IH]; intros HS s th a i g Hs Hr Hpc Hd;
    (eapply leads_step; [exact Hs|done|by eapply not_over_pc|]);
    intros sh1 th1 ev HS1 Est Hs1 _; unfold Machine.tstep in Est; rewrite Hpc in Est;
    unfold Machine.step_guard, Machine.silent in Est;
    (destruct (Machine.locs th !! i) as [loc|] eqn:Hl;
     [|injection Est as <- <- <-; eapply leads_now; [exact Hs1|]; by split_and!; [..|exists g]]).
  - apply lookup_lt_Some in Hl. lia.
  - destruct (LockGuard.acquire_step _ _ _ _ _ _) as [[[T' ls'] g']|] eqn:Ea; [|done].
    injection Est as <- <- <-. pose proof (acquire_step_addrs _ _ _ _ _ _ _ _ _ Hl Ea) as El.
    assert (Hlen : length (ls_locations ls') = length (Machine.locs th))
      by (rewrite <- (length_fmap m_addr), El, length_fmap; done).
    eapply leads_impl.
    + eapply IH; [exact Hs1|done|done|].
      change (length (ls_locations ls') - S i <= d)%nat. apply lookup_lt_Some in Hl. lia.
    + intros evs s' th' (-> & Hk & Hlo & Hg). split; [done|]. split; [|done].
      eapply same_try_trans; [|exact Hk]. done.
Qed.

(** ** The end of a commit *)

(** The transaction and the captured variables are as they were. *)
Record same_txn th th' : Prop := {
  sx_todo : todo th' = todo th;
  sx_results : results th' = results th;
  sx_locals : locals th' = locals th }.

Lemma same_txn_refl th : same_txn th th.
Proof. done. Qed.

Lemma same_txn_trans th1 th2 th3 : same_txn th1 th2 -> same_txn th2 th3 -> same_txn th1 th3.
Proof. intros [] []. constructor; congruence. Qed.

(** Where the loop of [commit] stands. *)
Definition committing_at th a (i : nat) (half : bool) : Prop :=
  exists wv g, at_pc th = if half then Moving a wv i g else Commit a wv i g.

Definition released_ok a s th evs s' th' : Prop :=
  evs = [] /\ cv s' = cv s /\ same_txn th th' /\ exists l, at_pc th' = Release a true l.

Lemma released_next a s th HS1 s1 th1 :
  solo HS1 s1 th1 -> cv s1 = cv s -> same_txn th th1 ->
  leads HS1 s1 (fun evs s' th' => released_ok a s1 th1 evs s' th') ->
  leads HS1 s1 (fun evs s' th' => released_ok a s th evs s' th').
Proof.
  intros _ Hc Hk Hl. eapply leads_impl; [exact Hl|]. intros evs s' th' (-> & Hc' & Hk' & Hp).
  split; [done|]. split; [congruence|]. split; [by eapply same_txn_trans|done].
Qed.

Lemma commit_leads (d : nat) : forall HS s th a (i : nat) (half : bool), solo HS s th -> room s ->
  committing_at th a i half -> (2 * (length (Machine.locs th) - i) + (if half then 0 else 1) <= d)%nat ->
  (half = true -> i < length (Machine.locs th))%nat ->
  leads HS s (fun evs s' th' => released_ok a s th evs s' th').
Proof.
  induction d as [|d IH]; intros HS s th a i half Hs Hr (wv & g & Hpc) Hd Hi;
    [destruct half; [specialize (Hi eq_refl)|]; lia|].
  eapply leads_step; [exact Hs|done|by destruct half; eapply not_over_pc|].
  intros sh1 th1 ev HS1 Est Hs1 _. unfold Machine.tstep in Est. rewrite Hpc in Est. destruct half.
  - unfold Machine.step_move, Machine.silent in Est.
    destruct (Machine.locs th !! i) as [loc|]; [|done]. case_hyp Est; [|done]. destruct p as [st' mem'].
    injection Est as <- <- <-. eapply released_next; [exact Hs1|done|done|].
    eapply (IH _ _ _ _ (S i) false); [exact Hs1|done|by eexists _, _|change (2 * (length (Machine.locs th) - S i) + 1 <= d)%nat; lia|done].
  - unfold Machine.step_commit, Machine.silent in Est. destruct (Machine.locs th !! i) as [loc|] eqn:Hl.
    + pose proof (lookup_lt_Some _ _ _ Hl) as Hlt. destruct (m_written loc).
      * case_hyp Est; [|done]. injection Est as <- <- <-. eapply released_next; [exact Hs1|done|done|].
        eapply (IH _ _ _ _ i true); [exact Hs1|done|by eexists _, _|change (2 * (length (Machine.locs th) - i) + 0 <= d)%nat; lia|done].
      * injection Est as <- <- <-. eapply released_next; [exact Hs1|done|done|].
        eapply (IH _ _ _ _ (S i) false); [exact Hs1|done|by eexists _, _|change (2 * (length (Machine.locs th) - S i) + 1 <= d)%nat; lia|done].
    + injection Est as <- <- <-. eapply leads_now; [exact Hs1|].
      split; [done|]. split; [done|]. split; [done|]. by eexists.
Qed.

Lemma release_leads l : forall HS s th a ok, solo HS s th -> room s -> at_pc th = Release a ok l ->
  leads HS s (fun evs s' th' => evs = [] /\ cv s' = cv s /\ same_txn th th' /\ saved th' = saved th /\
    at_pc th' = Release a ok []).
Proof.
  induction l as [|i l IH]; intros HS s th a ok Hs Hr Hpc.
  - by eapply leads_now.
  - eapply leads_step; [exact Hs|done|by eapply not_over_pc|].
    intros sh1 th1 ev HS1 Est Hs1 _. unfold Machine.tstep in Est. rewrite Hpc in Est. simpl in Est.
    destruct (LockGuard.release_step _ _ _) as [T' ls'] eqn:Er. injection Est as <- <- <-.
    eapply leads_impl; [eapply IH; [exact Hs1|done|done]|].
    intros evs s' th' (-> & Hc & Hk & Hsv & Hp). split; [done|]. split; [exact Hc|].
    split; [eapply same_txn_trans; [|exact Hk]; done|done].
Qed.

Lemma validate_leads (d : nat) : forall HS s th a wv (i : nat) g, solo HS s th -> room s ->
  at_pc th = Validate a wv i g -> (length (Machine.locs th) - i <= d)%nat ->
  leads HS s (fun evs s' th' => cv s' = cv s /\ same_txn th th' /\ saved th' = saved th /\
    ((exists i, committing_at th' a i false) \/ exists l, at_pc th' = Release a false l)).
Proof.
  induction d as [|d IH]; intros HS s th a wv i g Hs Hr Hpc Hd;
    (eapply leads_step; [exact Hs|done|by eapply not_over_pc|]);
    intros sh1 th1 ev HS1 Est Hs1 _; unfold Machine.tstep in Est; rewrite Hpc in Est;
    unfold Machine.step_validate, Machine.abort, Machine.decide_commit, Machine.silent in Est;
    (destruct (Machine.locs th !! i) as [loc|] eqn:Hl;
     [|injection Est as <- <- <-; eapply leads_now; [exact Hs1|];
       split; [done|]; split; [done|]; split; [done|]; left; by exists 0%nat, wv, g]).
  - apply lookup_lt_Some in Hl. lia.
  - assert (Hnext : forall HS2 s2 th2, solo HS2 s2 th2 -> cv s2 = cv s -> same_txn th th2 ->
        saved th2 = saved th -> Machine.locs th2 = Machine.locs th -> at_pc th2 = Validate a wv (S i) g ->
      leads HS2 s2 (fun evs s' th' => cv s' = cv s /\ same_txn th th' /\ saved th' = saved th /\
        ((exists i, committing_at th' a i false) \/ exists l, at_pc th' = Release a false l))).
    { intros HS2 s2 th2 Hs2 Hc2 Hk2 Hsv2 Hl2 Hpc2. eapply leads_impl.
      - eapply IH; [exact Hs2|unfold room; by rewrite Hc2|exact Hpc2|].
        rewrite Hl2. apply lookup_lt_Some in Hl. lia.
      - intros evs s' th' (Hc & Hk & Hsv & Hp). split; [congruence|]. split; [by eapply same_txn_trans|].
        split; [congruence|done]. }
    destruct (m_read loc); [|injection Est as <- <- <-; by eapply Hnext].
    destruct (Loc.get_version _ _ _) as [v|]; [|done].
    destruct (Manager.read_version (mgr th) <? v); [|injection Est as <- <- <-; by eapply Hnext].
    injection Est as <- <- <-. eapply leads_now; [exact Hs1|].
    split; [done|]. split; [done|]. split; [done|]. right. by eexists.
Qed.

(** ** The memory of a history *)

Lemma solo_mem HS s th : solo HS s th ->
  match at_pc th with Commit _ _ _ _ | Moving _ _ _ _ => False | _ => True end ->
  mem (Machine.sh s) = apply_all HS m0.
Proof.
  intros [Hi Ht Hal _ _] Hpc. apply map_eq. intros x. apply (i_mem _ _ _ _ Hi). intros u thu Hu Hp.
  destruct (decide (u = t)) as [->|Hne].
  - simplify_eq. unfold pend in Hp. by destruct (at_pc th).
  - pose proof (i_thread _ _ _ _ Hi u thu Hu) as Hti. unfold tinv in Hti.
    assert (Hst : forall wv i g, committing (cv s) (tbl (Machine.sh s)) HS u thu wv i g ->
      (exists j loc, Machine.locs thu !! j = Some loc) -> False).
    { intros wv i g [[Hg _] _] (j & loc & Hj). pose proof (lookup_lt_Some _ _ _ Hj) as Hlt.
      pose proof (gd_held _ _ _ _ Hg j loc Hj Hlt) as Hin. rewrite (Hal u thu Hne Hu) in Hin.
      by apply elem_of_nil in Hin. }
    unfold pend in Hp. destruct (at_pc thu) as [| |p|y k|y k|y v k|a i g|a g|a wv i g|a wv i g|a wv i g|a ok l|]; try done;
      destruct Hp as (j & loc & _ & Hj & _); eapply Hst; eauto; apply Hti.
Qed.

(** Histories are determined by their commits. *)
Lemma events_eq (E E' : list event) :
  StronglySorted (fun e1 e2 => e_wv e1 < e_wv e2) E ->
  StronglySorted (fun e1 e2 => e_wv e1 < e_wv e2) E' -> E ≡ₚ E' -> E = E'.
Proof.
  intros HE HE'. apply (StronglySorted_unique_strong (fun e1 e2 : event => e_wv e1 < e_wv e2)); [|done..]. intros e1 e2 _ _ H1 H2.
  exfalso. exact (Z.lt_irrefl _ (Z.lt_trans _ _ _ H1 H2)).
Qed.

Lemma serial_nil_inv (m m2 : gmap addr_t V) : serial (A := A) (L := L) m [] m2 -> m2 = m.
Proof. remember [] as E0 eqn:E. intros Hs. destruct Hs as [|m evs m' e m'']; [done|]. by destruct evs. Qed.

Lemma serial_snoc_inv (m : gmap addr_t V) (E : list event) e m2 : serial m (E ++ [e]) m2 ->
  exists m1, serial m E m1 /\ Tx.run (e_body e) (e_in e) m1 = Some (Val (e_ret e), e_out e, m2).
Proof.
  remember (E ++ [e]) as E0 eqn:EE. intros Hs. destruct Hs as [m|m evs m' e' m'' Hs Hr]; [by destruct E|].
  apply app_inj_tail in EE as [-> ->]. by exists m'.
Qed.

Lemma serial_det (m : gmap addr_t V) (E : list event) m1 m2 : serial m E m1 -> serial m E m2 -> m1 = m2.
Proof.
  intros Hs. revert m2. induction Hs as [m|m evs m' e m'' Hs IH Hr]; intros m2 H2.
  - symmetry. by eapply serial_nil_inv.
  - apply serial_snoc_inv in H2 as (m3 & H3 & Hr3). rewrite <- (IH _ H3) in Hr3. congruence.
Qed.

Lemma hist_serial HS s th : solo HS s th -> serial m0 (h_ev <$> HS) (apply_all HS m0).
Proof. intros [Hi]. apply replays_serial; apply Hi. Qed.

Lemma hist_silent HS s th HS' s' th' : solo HS s th -> solo HS' s' th' ->
  h_ev <$> HS' ≡ₚ (h_ev <$> HS) ++ [] -> apply_all HS' m0 = apply_all HS m0.
Proof.
  intros Hs Hs' Hp. rewrite app_nil_r in Hp. apply events_eq in Hp; [|apply sorted_events; by eapply i_sorted, so_inv..].
  pose proof (hist_serial _ _ _ Hs') as H'. rewrite Hp in H'. by eapply serial_det, hist_serial.
Qed.

(** One more commit, the last one: its body ran on the memory before it. *)
Lemma hist_commit HS s th HS' s' th' e : solo HS s th -> solo HS' s' th' ->
  h_ev <$> HS' ≡ₚ (h_ev <$> HS) ++ [e] -> cv s < e_wv e ->
  Tx.run (e_body e) (e_in e) (apply_all HS m0) = Some (Val (e_ret e), e_out e, apply_all HS' m0).
Proof.
  intros Hs Hs' Hp Hlt. pose proof (so_inv _ _ _ Hs) as Hi. pose proof (so_inv _ _ _ Hs') as Hi'.
  assert (Es : StronglySorted (fun e1 e2 => e_wv e1 < e_wv e2) ((h_ev <$> HS) ++ [e])).
  { apply StronglySorted_app_2; [|by apply sorted_events, Hi|repeat constructor].
    intros e1 e2 He1 ->%list_elem_of_singleton. apply list_elem_of_fmap in He1 as (h & -> & Hh).
    pose proof (i_bound _ _ _ _ Hi h Hh) as Hb. fold (cv s) in Hb. unfold hwv in Hb. lia. }
  apply events_eq in Hp; [|by apply sorted_events, Hi'|done].
  pose proof (hist_serial _ _ _ Hs') as H'. rewrite Hp in H'.
  apply serial_snoc_inv in H' as (m1 & Hs1 & Hr). by rewrite (serial_det _ _ _ _ Hs1 (hist_serial _ _ _ Hs)) in Hr.
Qed.

(** ** One transaction *)

Definition returned_val a th evs s' th' : Prop :=
  at_pc th' = Idle /\ todo th' = tail (todo th) /\ results th' = results th ++ [Val a] /\
  locals th' = locals th.

Lemma finish_leads HS s th a : solo HS s th -> room s -> at_pc th = Release a true [] ->
  leads HS s (fun evs s' th' => evs = [] /\ cv s' = cv s /\ returned_val a th evs s' th').
Proof.
  intros Hs Hr Hpc. eapply leads_step; [exact Hs|done|by eapply not_over_pc|].
  intros sh1 th1 ev HS1 Est Hs1 _. unfold Machine.tstep in Est. rewrite Hpc in Est. simpl in Est.
  destruct (Manager.end_transaction _) as [m|]; [|done]. injection Est as <- <- <-.
  by eapply leads_now.
Qed.

Lemma commit_finish HS s th a i half : solo HS s th -> room s -> committing_at th a i half ->
  (half = true -> i < length (Machine.locs th))%nat ->
  leads HS s (fun evs s' th' => evs = [] /\ cv s' = cv s /\ returned_val a th evs s' th').
Proof.
  intros Hs Hr Hc Hi. eapply leads_trans; [by eapply commit_leads|].
  intros HS1 s1 th1 evs1 Hs1 _ (-> & Hc1 & Hk1 & l & Hpc1). assert (Hr1 : room s1) by (unfold room; by rewrite Hc1).
  eapply leads_trans; [by eapply release_leads|].
  intros HS2 s2 th2 evs2 Hs2 _ (-> & Hc2 & Hk2 & _ & Hpc2). assert (Hr2 : room s2) by (unfold room; by rewrite Hc2).
  eapply leads_impl; [by eapply finish_leads|].
  intros evs s' th' (-> & Hc' & ? & Htd & Hres & Hlo). destruct Hk1, Hk2.
  split; [done|]. split; [congruence|]. split; [done|]. split; [congruence|]. split; congruence.
Qed.

Lemma clock_packed HS s th : solo HS s th -> cv s + 1 < 2 ^ 63 ->
  clock (Machine.sh s) = Word.pack (cv s) false /\ Word.version_ok (cv s) /\ Word.version_ok (cv s + 1).
Proof.
  intros [Hi] Hr. destruct (i_clock _ _ _ _ Hi) as (c & Ec & Hc).
  assert (Hcv : cv s = c) by (unfold cv; rewrite Ec; apply Word.unpack_pack; unfold Word.version_ok; lia).
  rewrite Hcv in *. unfold Word.version_ok. split; [done|]. lia.
Qed.

(** At the increment with the clock as the attempt found it: the commit. *)
Lemma incr_fresh HS s th a g tr rest : solo HS s th -> room s -> at_pc th = Incr a g ->
  rv_of th = cv s -> todo th = tr :: rest ->
  exists th1 HS1, th1 = Machine.goto (Commit a (cv s + 1) 0 g) th /\
    Machine.tstep is_trivial t (Machine.sh s) th = Some (Shared (Word.pack (cv s + 1) false)
      (tbl (Machine.sh s)) (mem (Machine.sh s)), th1,
      Some (Event (cv s + 1) t (body tr) (started th) a (locals th))) /\
    solo HS1 (next_sys s t (Shared (Word.pack (cv s + 1) false) (tbl (Machine.sh s)) (mem (Machine.sh s))) th1) th1.
Proof.
  intros Hs Hr Hpc Hrv Htd. unfold room in Hr. destruct (clock_packed _ _ _ Hs ltac:(lia)) as (Ec & Hv0 & Hv1).
  assert (Est : Machine.tstep is_trivial t (Machine.sh s) th = Some (Shared (Word.pack (cv s + 1) false)
      (tbl (Machine.sh s)) (mem (Machine.sh s)), Machine.goto (Commit a (cv s + 1) 0 g) th,
      Some (Event (cv s + 1) t (body tr) (started th) a (locals th)))).
  { unfold Machine.tstep. rewrite Hpc. unfold Machine.step_incr. rewrite Ec, Word.incr_version_pack by done.
    change (Manager.read_version (mgr th)) with (rv_of th). rewrite Hrv, W64.wrap_small, Z.eqb_refl.
    - unfold Machine.decide_commit, Machine.the_event. by rewrite Htd.
    - unfold Word.version_ok, W64.in_range, W64.modulus in *. lia. }
  destruct (solo_step _ _ _ _ _ _ Hs ltac:(lia) Est) as (HS1 & Hs1 & _). by exists (Machine.goto (Commit a (cv s + 1) 0 g) th), HS1.
Qed.

(** The commit of the transaction, as the theorems see it. *)
Definition commits_as a tr th (wv : version_t) evs s' th' : Prop :=
  evs = [Event wv t (body tr) (started th) a (locals th)] /\ cv s' = wv /\ returned_val a th evs s' th'.

Lemma incr_leads HS s th a g tr rest : solo HS s th -> room s -> cv s + 4 < 2 ^ 63 ->
  at_pc th = Incr a g -> rv_of th = cv s -> todo th = tr :: rest ->
  leads HS s (fun evs s' th' => commits_as a tr th (cv s + 1) evs s' th').
Proof.
  intros Hs Hr Hr4 Hpc Hrv Htd. destruct (incr_fresh _ _ _ _ _ _ _ Hs Hr Hpc Hrv Htd) as (th1 & HS1 & E1 & Est & _).
  pose proof (clock_packed _ _ _ Hs ltac:(lia)) as (_ & _ & Hv1).
  eapply leads_step; [exact Hs|done|by eapply not_over_pc|].
  intros sh2 th2 ev2 HS2 Est2 Hs2 _. rewrite Est in Est2. injection Est2 as <- <- <-.
  assert (Hc1 : cv (next_sys s t (Shared (Word.pack (cv s + 1) false) (tbl (Machine.sh s)) (mem (Machine.sh s))) th1) = cv s + 1)
    by (unfold cv at 1; simpl; by apply Word.unpack_pack).
  eapply leads_impl; [eapply (commit_finish _ _ _ a 0 false); [exact Hs2|unfold room; rewrite Hc1; lia| |]|].
  - exists (cv s + 1), g. by rewrite E1.
  - done.
  - intros evs s' th' (-> & Hc & Hret). rewrite E1 in Hret. split; [done|]. split; [congruence|]. exact Hret.
Qed.

(** The body returned in an attempt that started with the clock as it is. *)
Lemma ret_leads HS s th a tr rest : solo HS s th -> room s -> cv s + 4 < 2 ^ 63 ->
  at_pc th = Body (Ret a) -> rv_of th = cv s -> todo th = tr :: rest ->
  leads HS s (fun evs s' th' => commits_as a tr th (cv s + 1) evs s' th').
Proof.
  intros Hs Hr Hr4 Hpc Hrv Htd. eapply leads_step; [exact Hs|done|by eapply not_over_pc|].
  intros sh1 th1 ev HS1 Est Hs1 _. unfold Machine.tstep in Est. rewrite Hpc in Est. injection Est as <- <- <-.
  set (th1 := Machine.goto _ _) in *. set (s1 := next_sys _ _ _ _) in *.
  eapply leads_trans; [by eapply (guard_leads (length (Machine.locs th1)) _ s1 th1 a 0); [exact Hs1|..|lia]|].
  intros HS2 s2 th2 evs2 Hs2 _ (-> & Hk & Hlo & g' & Hpc2). destruct Hk as [Ec Erv Etd Eres Est].
  assert (Hc : cv s2 = cv s) by exact Ec.
  eapply leads_impl; [eapply incr_leads; [exact Hs2|unfold room in *; lia|lia|exact Hpc2| |]|].
  - rewrite Erv, Hc. exact Hrv.
  - rewrite Etd. exact Htd.
  - intros evs s' th' (-> & Hc' & Hidle & Htd' & Hres' & Hlo').
    rewrite Hc in *. split; [by rewrite Est, Hlo|]. split; [done|]. split; [done|].
    split; [by rewrite Htd', Etd|]. split; [by rewrite Hres', Eres|]. by rewrite Hlo', Hlo.
Qed.

(** ** Transactions that throw *)

(** What an exception does to the thread: [catch], or nothing. *)
Definition thrown e th evs s s' th' : Prop :=
  evs = [] /\ cv s' = cv s /\ mem (Machine.sh s') = mem (Machine.sh s) /\ locals th' = locals th /\
  if is_std e then at_pc th' = Idle /\ todo th' = tail (todo th) /\ results th' = results th ++ [Exn e]
  else at_pc th' = Crashed.

Lemma throw_leads HS s th e : solo HS s th -> room s -> at_pc th = Body (Throw e) ->
  leads HS s (fun evs s' th' => thrown e th evs s s' th').
Proof.
  intros Hs Hr Hpc. eapply leads_step; [exact Hs|done|by eapply not_over_pc|].
  intros sh1 th1 ev HS1 Est Hs1 _. unfold Machine.tstep in Est. rewrite Hpc in Est. simpl in Est.
  unfold Machine.step_throw, Machine.silent in Est. eapply leads_now; [exact Hs1|]. unfold thrown.
  destruct (is_std e); [destruct (Manager.end_transaction _) as [m|]; [|done]|]; by injection Est as <- <- <-.
Qed.

(** What the body observed is the memory it started on. *)
Lemma throw_run HS s th e tr rest : solo HS s th -> at_pc th = Body (Throw e) -> rv_of th = cv s ->
  todo th = tr :: rest ->
  exists m, Tx.run (body tr) (started th) (mem (Machine.sh s)) = Some (Exn e, locals th, m).
Proof.
  intros Hs Hpc Hrv Htd. pose proof (so_inv _ _ _ Hs) as Hi.
  destruct (at_body_inv _ _ _ _ _ _ _ Hi (so_th _ _ _ Hs) Hpc) as [_ (tr' & rest' & o & Etd & He & Ho)].
  rewrite Htd in Etd. injection Etd as <- <-. rewrite (solo_mem _ _ _ Hs) by (by rewrite Hpc).
  eexists. rewrite (Tx.exec_run _ _ _ _ _ _ (apply_all HS m0) He); [reflexivity|].
  intros x v Hin. destruct (Ho x v Hin) as [Hm|Hlt].
  - rewrite Hrv in Hm. rewrite <- (mem_upto_all (cv s)); [done|]. intros h Hh. by apply (i_bound _ _ _ _ Hi).
  - exfalso. destruct (i_words _ _ _ _ Hi (index x)) as [_ Hle]. fold (cv s) in Hle. lia.
Qed.

(** ** From the start of an attempt *)

(** An exception that [atomically] does not catch. *)
Definition uncaught (o : outcome A) : bool :=
  match o with Exn e => negb (is_std e) | Val _ => false end.

(** The transaction did what its body does on [m], from the captured variables
    [lo]: all of it, or nothing. *)
Definition atomic_done tr lo th (m : gmap addr_t V) s' th' : Prop :=
  exists o, Tx.atomic (body tr) lo m = Some (o, locals th', mem (Machine.sh s')) /\
    if uncaught o then at_pc th' = Crashed
    else at_pc th' = Idle /\ todo th' = tail (todo th) /\ results th' = results th ++ [o].

Lemma attempt_leads HS s th tr rest : solo HS s th -> cv s + 4 < 2 ^ 63 ->
  at_pc th = Attempt -> todo th = tr :: rest ->
  leads HS s (fun evs s' th' => cv s' <= cv s + 1 /\ atomic_done tr (locals th) th (mem (Machine.sh s)) s' th').
Proof.
  intros Hs Hr4 Hpc Htd. assert (Hr : room s) by (unfold room; lia).
  destruct (clock_packed _ _ _ Hs ltac:(lia)) as (Ec & Hv0 & _).
  assert (Hm : mem (Machine.sh s) = apply_all HS m0) by (apply (solo_mem _ _ _ Hs); by rewrite Hpc).
  (* start_transaction *)
  eapply leads_step; [exact Hs|done|by eapply not_over_pc|].
  intros sh1 th1 ev HS1 Est Hs1 Hp1. unfold Machine.tstep in Est. rewrite Hpc in Est.
  unfold Machine.step_attempt, Manager.start_transaction, Machine.silent in Est.
  rewrite Htd, Ec, Word.get_version_pack in Est by done.
  destruct (Log.clear _) as [lg|]; [|done]. injection Est as <- <- <-.
  set (s1 := next_sys _ _ _ _) in *. set (th1 := Thread _ _ _ _ _ _ _) in *.
  assert (Hc1 : cv s1 = cv s) by done.
  (* the body *)
  eapply leads_trans; [by eapply (body_leads (body tr) _ s1 th1)|].
  intros HS2 s2 th2 evs2 Hs2 Hp2 (-> & [Ec2 Erv2 Etd2 Eres2 Est2] & Hend).
  assert (Hc2 : cv s2 = cv s) by exact Ec2. assert (Hr2 : room s2) by (unfold room in *; lia).
  assert (Htd2 : todo th2 = tr :: rest) by (rewrite Etd2; reflexivity).
  assert (Hrv2 : rv_of th2 = cv s2) by (rewrite Hc2, Erv2; reflexivity).
  assert (Hp : h_ev <$> HS2 ≡ₚ (h_ev <$> HS) ++ []) by (rewrite Hp2, Hp1; by rewrite !app_nil_r).
  destruct Hend as [[a Hpc2]|[e Hpc2]].
  - (* commit *)
    eapply leads_trans; [eapply ret_leads; [exact Hs2|done|lia|exact Hpc2|exact Hrv2|exact Htd2]|].
    intros HS3 s3 th3 evs3 Hs3 Hp3 (-> & Hc3 & Hpc3 & Htd3 & Hres3 & Hlo3).
    eapply leads_now; [exact Hs3|]. split; [lia|]. exists (Val a).
    assert (Hfin : h_ev <$> HS3 ≡ₚ (h_ev <$> HS) ++ [Event (cv s2 + 1) t (body tr) (started th2) a (locals th2)])
      by (rewrite Hp3, Hp; by rewrite app_nil_r).
    pose proof (hist_commit _ _ _ _ _ _ _ Hs Hs3 Hfin ltac:(simpl; lia)) as Hrun. simpl in Hrun.
    rewrite Est2, <- Hm in Hrun. change (started th1) with (locals th) in Hrun.
    rewrite <- (solo_mem _ _ _ Hs3) in Hrun by (by rewrite Hpc3).
    split; [unfold Tx.atomic; by rewrite Hrun, Hlo3|]. simpl. split; [done|].
    split; [by rewrite Htd3, Etd2, Htd|]. by rewrite Hres3, Eres2.
  - (* exception *)
    assert (Hm2 : mem (Machine.sh s2) = mem (Machine.sh s)).
    { rewrite Hm, (solo_mem _ _ _ Hs2) by (by rewrite Hpc2). by eapply hist_silent. }
    destruct (throw_run _ _ _ _ _ _ Hs2 Hpc2 Hrv2 Htd2) as (m & Hrun).
    eapply leads_impl; [eapply throw_leads; [exact Hs2|done|exact Hpc2]|].
    intros evs s' th' (-> & Hc' & Hm' & Hlo' & Hend). split; [lia|]. exists (Exn e).
    rewrite Hm2, Est2 in Hrun. change (started th1) with (locals th) in Hrun.
    split; [unfold Tx.atomic; by rewrite Hrun, Hlo', Hm', Hm2|]. simpl.
    destruct (is_std e); [|done]. simpl. destruct Hend as (? & Htd' & Hres').
    split; [done|]. split; [by rewrite Htd', Etd2, Htd|]. by rewrite Hres', Eres2.
Qed.

Lemma idle_leads HS s th tr rest : solo HS s th -> cv s + 4 < 2 ^ 63 ->
  at_pc th = Idle -> todo th = tr :: rest ->
  leads HS s (fun evs s' th' => cv s' <= cv s + 1 /\ atomic_done tr (prepare tr (locals th)) th (mem (Machine.sh s)) s' th').
Proof.
  intros Hs Hr4 Hpc Htd. assert (Hr : room s) by (unfold room; lia).
  eapply leads_step; [exact Hs|done| |].
  - intros [[_ E]|E]; [by rewrite Htd in E|by rewrite Hpc in E].
  - intros sh1 th1 ev HS1 Est Hs1 _. unfold Machine.tstep in Est. rewrite Hpc in Est.
    unfold Machine.step_idle, Machine.silent in Est. rewrite Htd in Est. injection Est as <- <- <-.
    rewrite <- Htd in *. eapply leads_impl; [by eapply attempt_leads|].
    intros evs s' th' (Hc & o & Hat & Hend). split; [exact Hc|]. exists o. by split.
Qed.

(** ** From anywhere *)

(** The current transaction is over, after at most [d] increments of the clock. *)
Definition tried (d : Z) s th s' th' : Prop :=
  cv s' <= cv s + d /\
  (at_pc th' = Crashed \/
   at_pc th' = Idle /\ todo th' = tail (todo th) /\ exists o, results th' = results th ++ [o]).

(** Leading there from a later point of the same transaction. *)
Lemma tried_from d d1 d2 HS s th HS1 s1 th1 : solo HS1 s1 th1 -> cv s1 <= cv s + d1 -> d1 + d2 <= d ->
  todo th1 = todo th -> results th1 = results th ->
  leads HS1 s1 (fun evs s' th' => tried d2 s1 th1 s' th') -> solo HS s th ->
  leads HS1 s1 (fun evs s' th' => tried d s th s' th').
Proof.
  intros _ Hc Hd Htd Hres Hl _. eapply leads_impl; [exact Hl|]. intros evs s' th' [Hc' Hend].
  split; [lia|]. by rewrite <- Htd, <- Hres.
Qed.

Lemma atomic_tried tr lo th (m : gmap addr_t V) s s' th' :
  cv s' <= cv s + 1 -> atomic_done tr lo th m s' th' -> tried 1 s th s' th'.
Proof.
  intros Hc (o & _ & Ho). split; [done|]. destruct (uncaught o); [by left|right].
  destruct Ho as (? & ? & ?). split; [done|]. split; [done|]. by exists o.
Qed.

Lemma release_tried HS s th a ok l : solo HS s th -> cv s + 4 < 2 ^ 63 -> at_pc th = Release a ok l ->
  leads HS s (fun evs s' th' => tried 1 s th s' th').
Proof.
  intros Hs Hr4 Hpc. eapply leads_trans; [by eapply release_leads; [exact Hs|unfold room; lia|]|].
  intros HS1 s1 th1 evs1 Hs1 _ (-> & Hc1 & [Etd Eres Elo] & _ & Hpc1).
  assert (Hr1 : room s1) by (unfold room; lia). destruct ok.
  - eapply leads_impl; [by eapply finish_leads|]. intros evs s' th' (-> & Hc & Hi & Htd & Hres & _).
    split; [lia|]. right. split; [done|]. rewrite Htd, Hres, Etd, Eres. split; [done|]. by eexists.
  - eapply leads_step; [exact Hs1|done|by eapply not_over_pc|].
    intros sh2 th2 ev HS2 Est Hs2 _. unfold Machine.tstep in Est. rewrite Hpc1 in Est. simpl in Est.
    destruct (todo th1) as [|tr rest] eqn:Etd1; [done|]. injection Est as <- <- <-.
    eapply leads_impl; [eapply attempt_leads; [exact Hs2| |reflexivity|exact Etd1]|].
    + change (cv s1 + 4 < 2 ^ 63). lia.
    + intros evs s' th' [Hc Hat]. eapply atomic_tried in Hat; [|exact Hc]. destruct Hat as [Hc' Hend].
      change (cv s' <= cv s1 + 1) in Hc'. split; [lia|]. simpl in Hend. by rewrite <- Eres, <- Etd, Etd1 in *.
Qed.

Lemma validate_tried HS s th a wv i g : solo HS s th -> cv s + 4 < 2 ^ 63 -> at_pc th = Validate a wv i g ->
  leads HS s (fun evs s' th' => tried 1 s th s' th').
Proof.
  intros Hs Hr4 Hpc. eapply leads_trans.
  { eapply (validate_leads (length (Machine.locs th))); [exact Hs|unfold room; lia|exact Hpc|lia]. }
  intros HS1 s1 th1 evs1 Hs1 _ (Hc1 & [Etd Eres _] & _ & [[j Hp]|[l Hp]]).
  - eapply leads_impl; [eapply (commit_finish _ _ _ a j false); [exact Hs1|unfold room; lia|exact Hp|done]|].
    intros evs s' th' (-> & Hc & Hi & Htd & Hres & _). split; [lia|]. right. split; [done|].
    rewrite Htd, Hres, Etd, Eres. split; [done|]. by eexists.
  - eapply (tried_from 1 0 1); [exact Hs1|lia|lia|done|done| |exact Hs].
    eapply release_tried; [exact Hs1|lia|exact Hp].
Qed.

Lemma incr_tried HS s th a g : solo HS s th -> cv s + 5 < 2 ^ 63 -> at_pc th = Incr a g ->
  leads HS s (fun evs s' th' => tried 2 s th s' th').
Proof.
  intros Hs Hr5 Hpc. destruct (clock_packed _ _ _ Hs ltac:(lia)) as (Ec & Hv0 & Hv1).
  eapply leads_step; [exact Hs|unfold room; lia|by eapply not_over_pc|].
  intros sh1 th1 ev HS1 Est Hs1 _. unfold Machine.tstep in Est. rewrite Hpc in Est.
  unfold Machine.step_incr, Machine.decide_commit, Machine.silent in Est. rewrite Ec, Word.incr_version_pack in Est by done.
  assert (Hc1 : forall th', cv (next_sys s t (Shared (Word.pack (cv s + 1) false) (tbl (Machine.sh s)) (mem (Machine.sh s))) th') = cv s + 1)
    by (intros; unfold cv at 1; simpl; by apply Word.unpack_pack).
  case_hyp Est; injection Est as <- <- <-.
  - eapply leads_impl; [eapply (commit_finish _ _ _ a 0 false); [exact Hs1|unfold room; rewrite Hc1; lia|by eexists _, _|done]|].
    intros evs s' th' (-> & Hc & Hi & Htd & Hres & _). rewrite Hc1 in Hc. split; [lia|]. right.
    split; [done|]. rewrite Htd, Hres. split; [done|]. by eexists.
  - eapply (tried_from 2 1 1); [exact Hs1|rewrite Hc1; lia|lia|done|done| |exact Hs].
    eapply validate_tried; [exact Hs1|rewrite Hc1; lia|done].
Qed.

Lemma guard_tried HS s th a i g : solo HS s th -> cv s + 5 < 2 ^ 63 -> at_pc th = Guarding a i g ->
  leads HS s (fun evs s' th' => tried 2 s th s' th').
Proof.
  intros Hs Hr5 Hpc. eapply leads_trans.
  { eapply (guard_leads (length (Machine.locs th))); [exact Hs|unfold room; lia|exact Hpc|lia]. }
  intros HS1 s1 th1 evs1 Hs1 _ (-> & [Ec _ Etd Eres _] & _ & g' & Hp).
  eapply (tried_from 2 0 2); [exact Hs1|lia|lia|done|done| |exact Hs].
  eapply incr_tried; [exact Hs1|lia|exact Hp].
Qed.

Lemma body_tried HS s th p : solo HS s th -> cv s + 5 < 2 ^ 63 -> at_pc th = Body p ->
  leads HS s (fun evs s' th' => tried 2 s th s' th').
Proof.
  intros Hs Hr5 Hpc. eapply leads_trans; [by eapply body_leads; [exact Hs|unfold room; lia|]|].
  intros HS1 s1 th1 evs1 Hs1 _ (-> & [Ec _ Etd Eres _] & [[a Hp]|[e Hp]]).
  - eapply leads_step; [exact Hs1|unfold room; lia|by eapply not_over_pc|].
    intros sh2 th2 ev HS2 Est Hs2 _. unfold Machine.tstep in Est. rewrite Hp in Est. injection Est as <- <- <-.
    eapply (tried_from 2 0 2); [exact Hs2|change (cv s1 <= cv s + 0); lia|lia|exact Etd|exact Eres| |exact Hs].
    eapply guard_tried; [exact Hs2|change (cv s1 + 5 < 2 ^ 63); lia|done].
  - eapply leads_impl; [eapply throw_leads; [exact Hs1|unfold room; lia|exact Hp]|].
    intros evs s' th' (_ & Hc & _ & _ & Hend). split; [lia|]. destruct (is_std e); [right|by left].
    destruct Hend as (? & -> & ->). rewrite Etd, Eres. split; [done|]. split; [done|]. by eexists.
Qed.

Lemma todo_active n HS s th : inv m0 n HS s -> Machine.ths s !! t = Some th -> ~ over th ->
  todo th <> [].
Proof.
  intros Hi Ht Hov E. pose proof (i_thread _ _ _ _ Hi t th Ht) as Hti. unfold tinv in Hti.
  destruct (at_pc th) as [| |p|y k|y k|y v k|a i g|a g|a wv i g|a wv i g|a wv i g|a ok l|] eqn:Hpc.
  - apply Hov. by left.
  - by apply Hti.
  - destruct Hti as [_ (tr & rest & o & Etd & _)]. congruence.
  - destruct Hti as (_ & al & (tr & rest & o & Etd & _) & _). congruence.
  - destruct Hti as (_ & al & (tr & rest & o & Etd & _) & _). congruence.
  - destruct Hti as ((_ & al & (tr & rest & o & Etd & _) & _) & _). congruence.
  - destruct Hti as [(_ & _ & _ & (tr & rest & o & Etd & _)) _]. congruence.
  - destruct Hti as [(_ & _ & _ & (tr & rest & o & Etd & _)) _]. congruence.
  - destruct Hti as [(_ & _ & _ & (tr & rest & o & Etd & _)) _]. congruence.
  - destruct Hti as (_ & _ & _ & Htd & _). done.
  - destruct Hti as [(_ & _ & _ & Htd & _) _]. done.
  - by apply Hti.
  - apply Hov. by right.
Qed.

(** The data is being copied under the lock. *)
Lemma held_tried HS s th x k : solo HS s th -> cv s + 5 < 2 ^ 63 ->
  at_pc th = LoadHeld x k \/ (exists v, at_pc th = LoadRel x v k) ->
  leads HS s (fun evs s' th' => tried 2 s th s' th').
Proof.
  intros Hs Hr5.
  assert (Hrel : forall HS1 s1 th1 v, solo HS1 s1 th1 -> cv s1 = cv s -> todo th1 = todo th ->
      results th1 = results th -> at_pc th1 = LoadRel x v k ->
      leads HS1 s1 (fun evs s' th' => tried 2 s th s' th')).
  { intros HS1 s1 th1 v Hs1 Hc1 Etd Eres Hpc1.
    eapply leads_step; [exact Hs1|unfold room; lia|by eapply not_over_pc|].
    intros sh2 th2 ev HS2 Est Hs2 _. unfold Machine.tstep in Est. rewrite Hpc1 in Est. injection Est as <- <- <-.
    eapply (tried_from 2 0 2); [exact Hs2|change (cv s1 <= cv s + 0); lia|lia|exact Etd|exact Eres| |exact Hs].
    eapply body_tried; [exact Hs2|change (cv s1 + 5 < 2 ^ 63); lia|done]. }
  intros [Hpc|[v Hpc]]; [|by eapply Hrel].
  eapply leads_step; [exact Hs|unfold room; lia|by eapply not_over_pc|].
  intros sh1 th1 ev HS1 Est Hs1 _. unfold Machine.tstep in Est. rewrite Hpc in Est.
  unfold Machine.step_load_held, Machine.silent in Est. case_hyp Est; [|done]. injection Est as <- <- <-.
  by eapply Hrel.
Qed.

Lemma solo_tried HS s th : solo HS s th -> cv s + 5 < 2 ^ 63 -> ~ over th ->
  leads HS s (fun evs s' th' => tried 2 s th s' th').
Proof.
  intros Hs Hr5 Hov. pose proof (todo_active _ _ _ _ (so_inv _ _ _ Hs) (so_th _ _ _ Hs) Hov) as Htd.
  assert (Hweak : forall Q, leads HS s Q -> (forall evs s' th', Q evs s' th' -> tried 1 s th s' th') ->
      leads HS s (fun evs s' th' => tried 2 s th s' th')).
  { intros Q Hl HQ. eapply leads_impl; [exact Hl|]. intros evs s' th' Hq.
    destruct (HQ _ _ _ Hq) as [Hc He]. split; [lia|exact He]. }
  destruct (todo th) as [|tr rest] eqn:Etd; [done|].
  destruct (at_pc th) as [| |p|y k|y k|y v k|a i g|a g|a wv i g|a wv i g|a wv i g|a ok l|] eqn:Hpc.
  - eapply Hweak; [eapply idle_leads; [exact Hs|lia|exact Hpc|exact Etd]|].
    intros evs s' th' [Hc Hat]. by eapply atomic_tried.
  - eapply Hweak; [eapply attempt_leads; [exact Hs|lia|exact Hpc|exact Etd]|].
    intros evs s' th' [Hc Hat]. by eapply atomic_tried.
  - by eapply body_tried.
  - eapply leads_trans; [eapply load_leads; [exact Hs|unfold room; lia|exact Hpc|]|].
    + intros v HS1 s1 th1 Hs1 Hr1 Hp1. by apply (body_leads (k v)).
    + intros HS1 s1 th1 evs1 Hs1 _ (-> & [Ec _ Etd1 Eres _] & Hend).
      eapply (tried_from 2 0 2); [exact Hs1|lia|lia|done|done| |exact Hs].
      destruct Hend as [[a Hp]|[e Hp]]; (eapply body_tried; [exact Hs1|lia|exact Hp]).
  - eapply held_tried; [done|done|by left].
  - eapply held_tried; [done|done|right; by eexists].
  - by eapply guard_tried.
  - by eapply incr_tried.
  - eapply Hweak; [eapply validate_tried; [exact Hs|lia|exact Hpc]|done].
  - eapply Hweak; [eapply (commit_finish _ _ _ a i false); [exact Hs|unfold room; lia|by eexists _, _|done]|].
    intros evs s' th' (-> & Hc & Hi & Htd' & Hres & _). split; [lia|]. right. split; [done|].
    rewrite Htd', Hres. split; [done|]. by eexists.
  - eapply Hweak; [eapply (commit_finish _ _ _ a i true); [exact Hs|unfold room; lia|by eexists _, _|]|].
    + intros _. pose proof (i_thread _ _ _ _ (so_inv _ _ _ Hs) t th (so_th _ _ _ Hs)) as Hti. unfold tinv in Hti.
      rewrite Hpc in Hti. destruct Hti as [_ (loc & Hl & _)]. by eapply lookup_lt_Some.
    + intros evs s' th' (-> & Hc & Hi & Htd' & Hres & _). split; [lia|]. right. split; [done|].
      rewrite Htd', Hres. split; [done|]. by eexists.
  - eapply Hweak; [eapply release_tried; [exact Hs|lia|exact Hpc]|done].
  - exfalso. apply Hov. by right.
Qed.

(** Reachable states in which the thread is alone. *)
Lemma steps_solo (ps : gmap tid_t (list (txn V L A) * L)) n evs s th :
  (forall u p, ps !! u = Some p -> Forall (fun tr => touches variable (body tr)) p.1) ->
  Machine.steps is_trivial n (Machine.init m0 ps) evs s -> Z.of_nat n + 6 < 2 ^ 63 ->
  alone s -> Machine.ths s !! t = Some th ->
  exists HS, solo HS s th /\ cv s + 5 < 2 ^ 63.
Proof.
  intros Hps Hs Hn Hal Ht.
  destruct (steps_ready is_trivial m0 variable ltac:(by intros x []) ps Hps n evs s Hs ltac:(lia)) as (HS & [Hi Hsh Hm]).
  exists HS. pose proof (i_clock _ _ _ _ Hi) as (c & Ec & Hc).
  assert (Hcv : cv s = c) by (unfold cv; rewrite Ec; apply Word.unpack_pack; unfold Word.version_ok; lia).
  split; [|lia]. constructor; try done; [|by apply Hsh with t]. eapply inv_rebase; [|exact Hi]. lia.
Qed.
End Solo.

Section Theorems.
Context {LS V L A : Type} `{LocationSetLaws LS}.

(** [C10] Alone, [atomically] is atomic and terminates.  In any reachable state in
    which no other thread holds a lock, a thread that is about to start a
    transaction finishes it when it runs by itself: the memory, the captured
    variables and the value or exception are those of the body run on the memory
    in one piece, with no effect on the memory when it throws; an exception that
    is not a [std::exception] leaves the thread outside [atomically] for good. *)
Theorem alone_atomic (is_trivial : addr_t -> bool) (m0 : gmap addr_t V)
  (ps : gmap tid_t (list (txn V L A) * L)) n evs s t th tr rest :
  (forall u p, ps !! u = Some p -> Forall (fun tr => touches (variable m0) (body tr)) p.1) ->
  Machine.steps (LS := LS) is_trivial n (Machine.init m0 ps) evs s -> Z.of_nat n + 6 < 2 ^ 63 ->
  alone t s -> Machine.ths s !! t = Some th -> at_pc th = Idle -> todo th = tr :: rest ->
  exists k s' evs' th',
    Machine.run_schedule is_trivial (replicate k t) s = Some (s', evs') /\
    Machine.ths s' !! t = Some th' /\ atomic_done tr (prepare tr (locals th)) th (mem (Machine.sh s)) s' th'.
Proof.
  intros Hps Hs Hn Hal Ht Hpc Htd.
  destruct (steps_solo is_trivial m0 t ps n evs s th Hps Hs Hn Hal Ht) as (HS & Hso & Hr).
  destruct (idle_leads is_trivial m0 t HS s th tr rest Hso ltac:(lia) Hpc Htd)
    as (k & evs' & HS' & s' & th' & Hrun & Hso' & _ & _ & Hat).
  exists k, s', evs', th'. split; [done|]. split; [apply Hso'|done].
Qed.

(** [C11] Transactions are obstruction-free between critical sections.  In any
    reachable state in which no other thread holds a lock, wherever a thread is
    in its transaction, running by itself it gets to its end: at most one more
    attempt is made, which cannot fail. *)
Theorem obstruction_free (is_trivial : addr_t -> bool) (m0 : gmap addr_t V)
  (ps : gmap tid_t (list (txn V L A) * L)) n evs s t th :
  (forall u p, ps !! u = Some p -> Forall (fun tr => touches (variable m0) (body tr)) p.1) ->
  Machine.steps (LS := LS) is_trivial n (Machine.init m0 ps) evs s -> Z.of_nat n + 6 < 2 ^ 63 ->
  alone t s -> Machine.ths s !! t = Some th -> ~ over th ->
  exists k s' evs' th',
    Machine.run_schedule is_trivial (replicate k t) s = Some (s', evs') /\
    Machine.ths s' !! t = Some th' /\ tried 2 s th s' th'.
Proof.
  intros Hps Hs Hn Hal Ht Hov.
  destruct (steps_solo is_trivial m0 t ps n evs s th Hps Hs Hn Hal Ht) as (HS & Hso & Hr).
  destruct (solo_tried is_trivial m0 t HS s th Hso Hr Hov) as (k & evs' & HS' & s' & th' & Hrun & Hso' & _ & Hat).
  exists k, s', evs', th'. split; [done|]. split; [apply Hso'|done].
Qed.
End Theorems.
