(* ===== verification/Scenarios.v ===== *)
(** * Concrete runs

    Small systems driven by explicit schedules: the hypotheses of the general
    theorems hold in them, and they show two behaviours that no theorem can
    exclude, a deadlock across windows of the lock table and an attempt that
    observes an inconsistent state before it aborts. *)

From S2P Require Import Prelude VersionLock LockTable Store Op LocSets Log Tx State LockGuard Machine History MachineInv Serializability Order Safety Deadlock Solo.

#[local] Existing Instance OrderedSet.set.
#[local] Existing Instance OrderedSet.laws.

Module Scenarios.

Abbreviation body_t := (tx Z Z Z).
Abbreviation txn_t := (txn Z Z Z).
Abbreviation sys_t := (Machine.sys (LS := OrderedSet.oset) (V := Z) (L := Z) (A := Z)).

Definition trivial_data (x : addr_t) : bool := true.

(** The captured variables are passed to [atomically] as arguments. *)
Definition atomically (p : body_t) : txn_t := Txn id p (fun saved _ => saved).

Definition increment (x : addr_t) : body_t := Read x (fun v => Write x (v + 1) (Ret v)).

Definition run (m : gmap addr_t Z) (ps : gmap tid_t (list txn_t * Z)) (sched : list tid_t)
  : option (sys_t * list (event Z Z Z)) :=
  Machine.run_schedule trivial_data sched (Machine.init m ps).

Lemma run_steps m ps sched s evs : run m ps sched = Some (s, evs) ->
  Machine.steps trivial_data (length sched) (Machine.init m ps) evs s.
Proof. apply Machine.run_schedule_steps. Qed.

(** Where a run ends, with its commits. *)
Definition final (m : gmap addr_t Z) (ps : gmap tid_t (list txn_t * Z)) (sched : list tid_t)
  : sys_t * list (event Z Z Z) :=
  default (Machine.init m ps, []) (run m ps sched).

Lemma final_steps m ps sched : run m ps sched <> None ->
  Machine.steps trivial_data (length sched) (Machine.init m ps) (final m ps sched).2 (final m ps sched).1.
Proof.
  intros Hr. unfold final. destruct (run m ps sched) as [[s evs]|] eqn:E; [|done]. by apply run_steps.
Qed.

(** ** A contended counter *)

(** Two threads increment one counter; the second one's first attempt reads
    before the first one commits, aborts and is retried. *)
Definition counter_mem : gmap addr_t Z := {[8 := 5]}.
Definition counter_threads : gmap tid_t (list txn_t * Z) :=
  {[0%nat := ([atomically (increment 8)], 0); 1%nat := ([atomically (increment 8)], 0)]}.
Definition counter_sched : list tid_t :=
  [1; 1; 1; 1]%nat ++ replicate 14 0%nat ++ replicate 21 1%nat.
Definition counter_end := final counter_mem counter_threads counter_sched.

Lemma counter_steps :
  Machine.steps trivial_data 39 (Machine.init counter_mem counter_threads) counter_end.2 counter_end.1.
Proof. apply (final_steps counter_mem counter_threads counter_sched). by vm_compute. Qed.

(** Half way: the second thread's first attempt is on, the first committed. *)
Definition counter_half := final counter_mem counter_threads ([1; 1; 1; 1]%nat ++ replicate 14 0%nat).

Lemma counter_half_steps :
  Machine.steps trivial_data 18 (Machine.init counter_mem counter_threads) counter_half.2 counter_half.1.
Proof. apply (final_steps counter_mem counter_threads ([1; 1; 1; 1]%nat ++ replicate 14 0%nat)). by vm_compute. Qed.

(** The rest of the run. *)
Definition counter_rest :=
  default (counter_half.1, []) (Machine.run_schedule trivial_data (replicate 21 1%nat) counter_half.1).

Lemma counter_rest_steps :
  Machine.steps trivial_data 21 counter_half.1 counter_rest.2 counter_rest.1.
Proof.
  unfold counter_rest. destruct (Machine.run_schedule _ _ _) as [[s evs]|] eqn:E.
  - exact (Machine.run_schedule_steps _ _ _ _ _ E).
  - vm_compute in E. discriminate E.
Qed.

(** ** A reader that waits *)

(** The first thread holds the lock of the counter, the second one wants it. *)
Definition waiting := final counter_mem counter_threads (replicate 7 0%nat ++ [1; 1]%nat).

Lemma waiting_steps :
  Machine.steps trivial_data 9 (Machine.init counter_mem counter_threads) waiting.2 waiting.1.
Proof. apply (final_steps counter_mem counter_threads (replicate 7 0%nat ++ [1; 1]%nat)). by vm_compute. Qed.

(** ** A deadlock *)

(** Two pairs of addresses with the same two locks in opposite orders. *)
Definition pair (x y : addr_t) : body_t := Write x 1 (Write y 1 (Ret 0)).
Definition crossed_mem : gmap addr_t Z := {[4 := 0; 2 ^ 24 := 0; 2 ^ 25 := 0; 2 ^ 25 + 4 := 0]}.
Definition crossed_threads : gmap tid_t (list txn_t * Z) :=
  {[0%nat := ([atomically (pair 4 (2 ^ 24))], 0);
    1%nat := ([atomically (pair (2 ^ 25) (2 ^ 25 + 4))], 0)]}.
Definition crossed := final crossed_mem crossed_threads (replicate 6 0%nat ++ replicate 6 1%nat).

Lemma crossed_steps :
  Machine.steps trivial_data 12 (Machine.init crossed_mem crossed_threads) crossed.2 crossed.1.
Proof. apply (final_steps crossed_mem crossed_threads (replicate 6 0%nat ++ replicate 6 1%nat)). by vm_compute. Qed.

(** ** An inconsistent snapshot *)

(** One transaction keeps two variables equal, the other one subtracts them. *)
Definition both : body_t := Write 8 7 (Write 16 7 (Ret 0)).
Definition difference : body_t := Read 8 (fun a => Read 16 (fun b => Ret (b - a))).
Definition equal_mem : gmap addr_t Z := {[8 := 5; 16 := 5]}.
Definition equal_threads : gmap tid_t (list txn_t * Z) :=
  {[0%nat := ([atomically both], 0); 1%nat := ([atomically difference], 0)]}.
Definition zombie := final equal_mem equal_threads
  ([1; 1; 1; 1]%nat ++ replicate 17 0%nat ++ [1; 1]%nat).

Lemma zombie_steps :
  Machine.steps trivial_data 23 (Machine.init equal_mem equal_threads) zombie.2 zombie.1.
Proof.
  apply (final_steps equal_mem equal_threads ([1; 1; 1; 1]%nat ++ replicate 17 0%nat ++ [1; 1]%nat)).
  by vm_compute.
Qed.

(** No thread has a step. *)
Definition all_stuck (s : sys_t) : bool :=
  forallb (fun p => match Machine.tstep trivial_data p.1 (Machine.sh s) p.2 with
                    | Some _ => false | None => true end) (map_to_list (Machine.ths s)).

Lemma all_stuck_no_step s : all_stuck s = true -> forall ev s', ~ Machine.step trivial_data s ev s'.
Proof.
  intros Ha ev s' Hst. destruct Hst as [s t th sh' th' ev Ht Hst].
  unfold all_stuck in Ha. rewrite forallb_forall in Ha.
  assert (Hin : (t, th) ∈ map_to_list (Machine.ths s)) by by apply elem_of_map_to_list.
  apply list_elem_of_In in Hin. specialize (Ha _ Hin). simpl in Ha. by rewrite Hst in Ha.
Qed.

(** [C8] Across windows of the lock table deadlock is possible: two
    transactions that write two variables each, at distinct addresses, reach a
    state in which each holds a lock, wants the other's, and nobody can ever
    step.  Each takes its locks in the order of its addresses; the hash reverses
    the order of one pair. *)
Theorem deadlock_reachable : exists n evs (s : sys_t) t th,
  Machine.steps trivial_data n (Machine.init crossed_mem crossed_threads) evs s /\
  Machine.ths s !! t = Some th /\ ~ over th /\
  forall ev s', ~ Machine.step trivial_data s ev s'.
Proof.
  exists 12%nat, crossed.2, crossed.1, 0%nat.
  destruct (Machine.ths crossed.1 !! 0%nat) as [th|] eqn:E; [|vm_compute in E; discriminate E].
  exists th. split; [exact crossed_steps|]. split; [done|]. split.
  - vm_compute in E. injection E as <-. by intros [[Hp _]|Hp].
  - apply all_stuck_no_step. by vm_compute.
Qed.

(** [C9] An attempt may see an inconsistent state.  The first transaction keeps
    two variables equal, and the other subtracts them: it is 0 in the initial
    memory and in the memory after the commit.  An attempt is reachable whose
    body computed 2 (it will fail validation): reads are checked at the commit
    only, not when they are made. *)
Theorem inconsistent_attempt : exists n evs (s : sys_t) th,
  Machine.steps trivial_data n (Machine.init equal_mem equal_threads) evs s /\
  Machine.ths s !! 1%nat = Some th /\ at_pc th = Body (Ret 2) /\
  (e_body <$> evs = [both]) /\
  Tx.run difference 0 equal_mem = Some (Val 0, 0, equal_mem) /\
  Tx.run difference 0 (mem (Machine.sh s)) = Some (Val 0, 0, mem (Machine.sh s)).
Proof.
  exists 23%nat, zombie.2, zombie.1.
  destruct (Machine.ths zombie.1 !! 1%nat) as [th|] eqn:E; [|vm_compute in E; discriminate E].
  exists th. split; [exact zombie_steps|]. split; [done|]. split.
  - vm_compute in E. by injection E as <-.
  - split_and!; by vm_compute.
Qed.

End Scenarios.
Section Witnesses.
Import Scenarios.

(** Both increments are there, the second one after the retry. *)
Lemma serializable_witness :
  (exists order m, order ≡ₚ counter_end.2 /\
     StronglySorted (fun e1 e2 => e_wv e1 < e_wv e2) order /\
     History.serial counter_mem order m /\ (quiescent counter_end.1 -> mem (Machine.sh counter_end.1) = m)) /\
  mem (Machine.sh counter_end.1) = {[8 := 7]} /\
  (fun e => (e_tid e, e_wv e, e_ret e)) <$> counter_end.2 = [(0%nat, 1, 5); (1%nat, 3, 6)].
Proof.
  split; [|by vm_compute].
  apply (serializable trivial_data counter_mem counter_threads 39 _ _ counter_steps). lia.
Defined.

Lemma results_are_commits_witness : exists th,
  Machine.ths counter_end.1 !! 1%nat = Some th /\
  exists txns lo done, counter_threads !! 1%nat = Some (txns, lo) /\ txns = done ++ todo th /\
    length done = length (results th) /\
    Forall2 commit_of (returned_of done (results th) ++ in_flight th) (of_thread 1 counter_end.2).
Proof.
  destruct (Machine.ths counter_end.1 !! 1%nat) as [th|] eqn:E; [|vm_compute in E; discriminate E].
  exists th. split; [reflexivity|].
  apply (results_are_commits trivial_data counter_mem counter_threads 39 _ _ 1 th counter_steps E).
Defined.

Lemma real_time_witness : exists e e' th,
  e ∈ counter_half.2 /\ e' ∈ counter_rest.2 /\ Machine.ths counter_half.1 !! e_tid e' = Some th /\
  e_wv e < e_wv e'.
Proof.
  destruct counter_half.2 as [|e l] eqn:E; [vm_compute in E; discriminate E|].
  destruct counter_rest.2 as [|e' l'] eqn:E'; [vm_compute in E'; discriminate E'|].
  assert (Et : e_tid e' = 1%nat)
    by (transitivity (default 0%nat (e_tid <$> head counter_rest.2)); [rewrite E'|vm_compute]; reflexivity).
  destruct (Machine.ths counter_half.1 !! e_tid e') as [th|] eqn:Eth;
    [|rewrite Et in Eth; vm_compute in Eth; discriminate Eth].
  exists e, e', th. split; [left|]. split; [left|]. split; [exact Eth|].
  apply (real_time trivial_data counter_mem counter_threads 18 counter_half.2 counter_half.1
    21 counter_rest.2 counter_rest.1 e e' counter_half_steps counter_rest_steps);
    [lia|rewrite E; left|rewrite E'; left|].
  exists th. split; [exact Eth|].
  rewrite Et in Eth. vm_compute in Eth. injection Eth as <-. reflexivity.
Defined.

Lemma locks_exclude_witness :
  (Word.is_locked (table_word (tbl (Machine.sh waiting.1)) 2) = true <-> exists t, holds waiting.1 t 2) /\
  (forall t u, holds waiting.1 t 2 -> holds waiting.1 u 2 -> t = u) /\
  ver (tbl (Machine.sh waiting.1)) 2 <= Word.unpack_version (clock (Machine.sh waiting.1)) <= 9.
Proof.
  apply (locks_exclude trivial_data counter_mem counter_threads 9 _ _ 2 waiting_steps). lia.
Defined.

Lemma step_defined_witness : exists th,
  Machine.ths waiting.1 !! 1%nat = Some th /\ Machine.tstep trivial_data 1 (Machine.sh waiting.1) th = None /\
  (over th \/
  (exists k u thu, awaits trivial_data th = Some k /\ u <> 1%nat /\
    Machine.ths waiting.1 !! u = Some thu /\ k ∈ held thu) \/
  (exists x, loads trivial_data th = Some x /\ mem (Machine.sh waiting.1) !! x = None)).
Proof.
  destruct (Machine.ths waiting.1 !! 1%nat) as [th|] eqn:E; [|vm_compute in E; discriminate E].
  assert (Est : Machine.tstep trivial_data 1 (Machine.sh waiting.1) th = None)
    by (vm_compute in E; injection E as <-; vm_compute; reflexivity).
  exists th. split; [reflexivity|]. split; [exact Est|].
  apply (step_defined trivial_data counter_mem counter_threads 9 _ _ 1 th waiting_steps ltac:(lia) E Est).
Defined.

Lemma window_no_deadlock_witness : exists u thu,
  Machine.ths waiting.1 !! u = Some thu /\ Machine.tstep trivial_data u (Machine.sh waiting.1) thu <> None.
Proof.
  destruct (Machine.ths waiting.1 !! 1%nat) as [th|] eqn:E; [|vm_compute in E; discriminate E].
  apply (window_no_deadlock trivial_data counter_mem counter_threads 0 9 waiting.2 waiting.1 1 th);
    [reflexivity| |exact waiting_steps|lia|exact E|].
  - intros u p Hu. assert (Hp : p = ([atomically (increment 8)], 0)).
    { unfold counter_threads in Hu. apply lookup_insert_Some in Hu as [[_ <-]|[_ Hu]]; [reflexivity|].
      apply lookup_singleton_Some in Hu as [_ <-]. reflexivity. }
    subst p. repeat constructor; try lia; by eexists.
  - vm_compute in E. injection E as <-. intros [[Hp _]|Hp]; discriminate Hp.
Defined.

Lemma counter_touches u p : counter_threads !! u = Some p ->
  Forall (fun tr => touches (variable counter_mem) (body tr)) p.1.
Proof.
  intros Hu. assert (Hp : p = ([atomically (increment 8)], 0)).
  { unfold counter_threads in Hu. apply lookup_insert_Some in Hu as [[_ <-]|[_ Hu]]; [reflexivity|].
    apply lookup_singleton_Some in Hu as [_ <-]. reflexivity. }
  subst p. repeat constructor; try lia; by eexists.
Qed.

Definition start_state := Machine.init (LS := OrderedSet.oset) counter_mem counter_threads.

Lemma alone_atomic_witness : exists th, Machine.ths start_state !! 0%nat = Some th /\
  exists k s' evs' th', Machine.run_schedule trivial_data (replicate k 0%nat) start_state = Some (s', evs') /\
    Machine.ths s' !! 0%nat = Some th' /\
    atomic_done (atomically (increment 8)) (locals th) th (mem (Machine.sh start_state)) s' th'.
Proof.
  destruct (Machine.ths start_state !! 0%nat) as [th|] eqn:E; [|vm_compute in E; discriminate E].
  exists th. split; [reflexivity|]. pose proof E as E'. vm_compute in E'. injection E' as Eth.
  apply (alone_atomic trivial_data counter_mem counter_threads 0 [] start_state 0 th
    (atomically (increment 8)) [] counter_touches); [constructor|lia| |exact E|by subst th|by subst th].
  intros u thu Hu Hthu. destruct (decide (u = 1%nat)) as [->|Hne].
  - vm_compute in Hthu. injection Hthu as <-. reflexivity.
  - exfalso. unfold start_state, Machine.init, counter_threads in Hthu. simpl in Hthu.
    rewrite lookup_fmap, lookup_insert_ne, lookup_singleton_ne in Hthu by done. discriminate Hthu.
Defined.

(** The second thread is in the middle of an attempt that cannot commit. *)
Lemma obstruction_free_witness : exists th, Machine.ths counter_half.1 !! 1%nat = Some th /\
  exists k s' evs' th', Machine.run_schedule trivial_data (replicate k 1%nat) counter_half.1 = Some (s', evs') /\
    Machine.ths s' !! 1%nat = Some th' /\ tried 2 counter_half.1 th s' th'.
Proof.
  destruct (Machine.ths counter_half.1 !! 1%nat) as [th|] eqn:E; [|vm_compute in E; discriminate E].
  exists th. split; [reflexivity|].
  apply (obstruction_free trivial_data counter_mem counter_threads 18 counter_half.2 counter_half.1 1 th
    counter_touches counter_half_steps); [lia| |exact E|].
  - intros u thu Hu Hthu. destruct (Machine.ths counter_half.1 !! 0%nat) as [th0|] eqn:E0; [|vm_compute in E0; discriminate E0].
    destruct (decide (u = 0%nat)) as [->|Hne].
    + rewrite E0 in Hthu. injection Hthu as <-. vm_compute in E0. injection E0 as <-. reflexivity.
    + exfalso. apply elem_of_dom_2 in Hthu.
      assert (Hd : bool_decide (dom (Machine.ths counter_half.1) = ({[0; 1]}%nat : gset nat)) = true) by (vm_compute; reflexivity).
      apply bool_decide_eq_true in Hd. rewrite Hd in Hthu. clear -Hthu Hu Hne. set_solver.
  - vm_compute in E. injection E as <-. intros [[Hp _]|Hp]; discriminate Hp.
Defined.
End Witnesses.
