(* ===== verification/ClientRuns.v ===== *)
(** * Runs of the objects

    Concrete runs of the stack, the queue and the small programs, in which the
    hypotheses of their theorems hold, and one run that shows a defect: two calls
    of [try_deq] that return the same element. *)

From S2P Require Import Prelude VersionLock LockTable Store Op LocSets Log Tx State LockGuard Machine History MachineInv Serializability Order Linearize Programs Stack BQueue QueueRuns Clients PetersonTest LinkedQueue OrderedList OrderedObject LinkedList ListObject HashMap HashObject Bank BankServer.

#[local] Existing Instance OrderedSet.set.
#[local] Existing Instance OrderedSet.laws.

(** ** Driving a system *)
Section Driver.
Context {V L A : Type}.
Abbreviation sys := (Machine.sys (LS := OrderedSet.oset) (V := V) (L := L) (A := A)).

Definition all_trivial (x : addr_t) : bool := true.

(** A thread alone, for at most [fuel] steps. *)
Fixpoint drive (fuel : nat) (t : tid_t) (s : sys) : list tid_t * sys :=
  match fuel with
  | O => ([], s)
  | S fuel' =>
      match Machine.ths s !! t with
      | None => ([], s)
      | Some th =>
          match Machine.tstep all_trivial t (Machine.sh s) th with
          | None => ([], s)
          | Some (sh', th', _) =>
              let r := drive fuel' t (Machine.Sys sh' (<[t := th']> (Machine.ths s))) in (t :: r.1, r.2)
          end
      end
  end.

(** Turns: a thread and a bound on its steps. *)
Fixpoint turns (ts : list (tid_t * nat)) (s : sys) : list tid_t :=
  match ts with
  | [] => []
  | (t, fuel) :: ts' => let r := drive fuel t s in r.1 ++ turns ts' r.2
  end.

Definition final (s : sys) (sched : list tid_t) : sys * list (event V L A) :=
  default (s, []) (Machine.run_schedule all_trivial sched s).

Lemma final_run s sched :
  match Machine.run_schedule all_trivial sched s with Some _ => true | None => false end = true ->
  Machine.steps all_trivial (length sched) s (final s sched).2 (final s sched).1.
Proof.
  intros Hr. unfold final. destruct (Machine.run_schedule all_trivial sched s) as [[s' evs]|] eqn:E; [|done].
  by apply Machine.run_schedule_steps.
Qed.

(** No commit is half done. *)
Definition quiescentb (s : sys) : bool :=
  forallb (fun p => match at_pc p.2 with Commit _ _ _ _ | Moving _ _ _ _ => false | _ => true end)
    (map_to_list (Machine.ths s)).

Lemma quiescentb_spec s : quiescentb s = true -> quiescent s.
Proof.
  intros Hq t th Ht. unfold quiescentb in Hq. rewrite forallb_forall in Hq.
  assert (Hin : (t, th) ∈ map_to_list (Machine.ths s)) by by apply elem_of_map_to_list.
  apply list_elem_of_In in Hin. specialize (Hq _ Hin). simpl in Hq. by destruct (at_pc th).
Qed.

(** Every thread is at the end of its program. *)
Definition finishedb (s : sys) : bool :=
  forallb (fun p => match todo p.2 with [] => true | _ => false end) (map_to_list (Machine.ths s)).

Lemma finishedb_spec s : finishedb s = true -> finished s.
Proof.
  intros Hf t th Ht. unfold finishedb in Hf. rewrite forallb_forall in Hf.
  assert (Hin : (t, th) ∈ map_to_list (Machine.ths s)) by by apply elem_of_map_to_list.
  apply list_elem_of_In in Hin. specialize (Hf _ Hin). simpl in Hf. by destruct (todo th).
Qed.
End Driver.

(** ** A defect of [try_deq] *)
Module Duplicate.
Import BQueue.

Definition four : layout := Layout 4 8 16 (fun i => 64 + 8 * i).
Definition one_item : gmap addr_t (cell Z) := {[8 := Size 0; 16 := Size 1; 64 := Item 42]}.
Definition two_calls : gmap tid_t (list (txn (cell Z) (captured Z) (value Z)) * captured Z) :=
  {[0%nat := ([call 0 four TryDeq], Captured false 0 0);
    1%nat := ([call 0 four TryDeq], Captured false 0 0)]}.
Definition start_state := Machine.init (LS := OrderedSet.oset) one_item two_calls.

(** The second thread reads the element; the first one dequeues it; the second
    one aborts, finds the queue empty and returns what its first attempt set. *)
Definition schedule : list tid_t := turns [(1, 12); (0, 40); (1, 40)]%nat start_state.
Definition run := final start_state schedule.

Lemma dup_run_steps : Machine.steps all_trivial (length schedule) start_state run.2 run.1.
Proof. apply final_run. vm_compute. reflexivity. Qed.

Definition dequeued (th : thread OrderedSet.oset (cell Z) (captured Z) (value Z)) : list (outcome (value Z)) :=
  results th.

Lemma one_rep : rep four one_item [42] 0.
Proof.
  constructor; [by vm_compute|]. exists 0. split; [by vm_compute|]. split; [done|]. split; [done|].
  split; [|by left; exists (2 ^ 62)]. intros [|i] x Hi; [|done]. by injection Hi as <-.
Qed.

Lemma none_rep : rep four (mem (Machine.sh run.1)) [] 0.
Proof.
  constructor; [by vm_compute|]. exists 1. split; [by vm_compute|].
  split; [vm_compute; reflexivity|]. split; [vm_compute; reflexivity|].
  split; [|by left; exists (2 ^ 62)]. intros i x Hi. by rewrite lookup_nil in Hi.
Qed.

(** [C20] Two calls of [try_deq] can return the same element.  From a queue with one
    element, a run is reachable in which two threads each called [try_deq] once
    and both returned true with that element.  The flag [success] and the element
    are captured by reference, not passed to [atomically], and not reset by the
    body: a retry that finds the queue empty returns what the aborted attempt
    assigned. *)
Theorem try_deq_duplicates : exists n evs s th0 th1,
  rep four one_item [42] 0 /\
  Machine.steps all_trivial n start_state evs s /\
  Machine.ths s !! 0%nat = Some th0 /\ Machine.ths s !! 1%nat = Some th1 /\
  dequeued th0 = [Val (Dequeued true 42)] /\ dequeued th1 = [Val (Dequeued true 42)] /\
  rep four (mem (Machine.sh s)) [] 0.
Proof.
  exists (length schedule), run.2, run.1.
  assert (E0 : dequeued <$> Machine.ths run.1 !! 0%nat = Some [Val (Dequeued true 42)]) by (vm_compute; reflexivity).
  assert (E1 : dequeued <$> Machine.ths run.1 !! 1%nat = Some [Val (Dequeued true 42)]) by (vm_compute; reflexivity).
  apply fmap_Some in E0 as (th0 & Ht0 & E0). apply fmap_Some in E1 as (th1 & Ht1 & E1).
  exists th0, th1. split; [exact one_rep|]. split; [exact dup_run_steps|].
  split; [exact Ht0|]. split; [exact Ht1|]. split; [exact (eq_sym E0)|]. split; [exact (eq_sym E1)|exact none_rep].
Qed.
End Duplicate.

(** ** Runs of the other objects *)

Lemma two_threads {B C} (P : B -> Prop) (p0 p1 : B * C) (u : tid_t) p :
  P p0.1 -> P p1.1 -> ({[0%nat := p0; 1%nat := p1]} : gmap tid_t (B * C)) !! u = Some p -> P p.1.
Proof.
  intros H0 H1 Hu. apply lookup_insert_Some in Hu as [[_ <-]|[_ Hu]]; [done|].
  by apply lookup_singleton_Some in Hu as [_ <-].
Qed.

Module StackRun.
Import Stack.
#[local] Existing Instance stack_object.
#[local] Existing Instance stack_laws.

Definition threads : gmap tid_t (list (txn (list Z) (captured Z) (value Z)) * captured Z) :=
  {[0%nat := ([call 8 (Push 5); call 8 Empty], Captured None false);
    1%nat := ([call 8 TryPop], Captured None false)]}.
Definition start_state := Machine.init (LS := OrderedSet.oset) {[8 := [7]]} threads.
Definition schedule : list tid_t := turns [(1, 5); (0, 60); (1, 60)]%nat start_state.
Definition run := final start_state schedule.

Lemma stack_run_steps : Machine.steps all_trivial (length schedule) start_state run.2 run.1.
Proof. apply final_run. vm_compute. reflexivity. Qed.

Lemma stack_run_quiescent : quiescent run.1.
Proof. apply quiescentb_spec. vm_compute. reflexivity. Qed.

(** The pop, retried after the push, takes the element pushed. *)
Lemma linearizable_witness :
  (exists order ops, order ≡ₚ run.2 /\ StronglySorted (fun e1 e2 => e_wv e1 < e_wv e2) order /\
    e_body <$> order = (fun op => body (call 8 op)) <$> ops /\
    e_ret <$> order = (ob_run (H := stack_object 8) ops [7]).1 /\
    mem (Machine.sh run.1) !! 8 = Some (ob_run (H := stack_object 8) ops [7]).2) /\
  e_ret <$> run.2 = [Void; IsEmpty false; Popped (Some 5)].
Proof.
  split; [|vm_compute; reflexivity].
  destruct (linearizable (H1 := stack_object 8) (H2 := stack_laws 8) all_trivial {[8 := [7]]} threads
    (length schedule) run.2 run.1 [7]) as (order & ops & Hp & Hs & Hb & Hr & Hq).
  - intros u p. apply two_threads; repeat (apply Forall_cons; split); try (by apply Forall_nil);
      [by exists (Push 5)|by exists Empty|by exists TryPop].
  - reflexivity.
  - exact stack_run_steps.
  - vm_compute. reflexivity.
  - exists order, ops. split; [exact Hp|]. split; [exact Hs|]. split; [exact Hb|]. split; [exact Hr|].
    exact (Hq stack_run_quiescent).
Defined.
End StackRun.

Module QueueRun.
Import BQueue.

(** Far apart, so that the addresses are distinct. *)
Definition ring : layout := Layout 4 8 16 (fun i => 64 + 8 * Z.abs i).

Lemma ring_ok : layout_ok ring.
Proof. constructor; cbn [capacity head_at tail_at item_at ring]; try lia; done. Qed.

Lemma ring_divides : divides ring.
Proof. by exists (2 ^ 62). Qed.

Lemma ring_rep : rep ring Duplicate.one_item [42] 0.
Proof.
  constructor; [by vm_compute|]. exists 0. split; [by vm_compute|]. split; [done|]. split; [done|].
  split; [|left; exact ring_divides]. intros [|i] x Hi; [|done]. by injection Hi as <-.
Qed.

(** A counter about to wrap. *)
Definition wrapping : gmap addr_t (cell Z) := {[8 := Size (2 ^ 64 - 1); 16 := Size 1; 88 := Item 5; 64 := Item 6]}.

Lemma wrapping_rep : rep ring wrapping [5; 6] 0.
Proof.
  constructor; [by vm_compute|]. exists (2 ^ 64 - 1). split; [by vm_compute|]. split; [done|]. split; [done|].
  split; [|left; exact ring_divides]. intros [|[|i]] x Hi; [by injection Hi as <-|by injection Hi as <-|done].
Qed.

(** Three calls on a ring whose counters are about to wrap. *)
Lemma bounded_queue_refines_witness :
  (exists v lo' m',
    Tx.run (body (call 0 ring TryDeq)) (Captured false 0 0) wrapping = Some (Val v, lo', m') /\
    seen 0 v = Dequeued true 5 /\ rep ring m' [6] 0) /\
  (exists lo' m',
    Tx.run (body (call 0 ring (BatchEnqueue 7))) (Captured false 0 0) wrapping = Some (Val (Enqueued true), lo', m') /\
    rep ring m' [5; 6; 7] (-1)) /\
  answer_from 0 ring (TryEnq 7) (Captured true 0 0) [5; 6] = Enqueued true.
Proof.
  split; [|split].
  - exact (proj1 (bounded_queue_refines 0 ring ring_ok TryDeq wrapping [5; 6] 0 wrapping_rep (or_introl ring_divides))
      (Captured false 0 0)).
  - exact (proj1 (proj2 (bounded_queue_refines 0 ring ring_ok (BatchEnqueue 7) wrapping [5; 6] 0 wrapping_rep (or_introl ring_divides)))
      (Captured false 0 0)).
  - exact (proj2 (proj2 (bounded_queue_refines 0 ring ring_ok (TryEnq 7) wrapping [5; 6] 0 wrapping_rep (or_introl ring_divides)))
      (SafeEnq 7) (Captured true 0 0) eq_refl).
Defined.
End QueueRun.

Module CounterRun.
Import Counter.
Definition threads : gmap tid_t (list (txn Z unit Z) * unit) :=
  {[0%nat := ([body_of 8 Increment; body_of 8 GetValue], tt); 1%nat := ([body_of 8 Increment], tt)]}.
Definition start_state := Machine.init (LS := OrderedSet.oset) {[8 := 4294967295]} threads.
Definition schedule : list tid_t := turns [(1, 5); (0, 60); (1, 60)]%nat start_state.
Definition run := final start_state schedule.

Lemma counter_run_steps : Machine.steps all_trivial (length schedule) start_state run.2 run.1.
Proof. apply final_run. vm_compute. reflexivity. Qed.

Lemma counter_run_quiescent : quiescent run.1.
Proof. apply quiescentb_spec. vm_compute. reflexivity. Qed.

Lemma counter_total_witness :
  (exists cs, e_body <$> run.2 ≡ₚ (fun c => body (body_of 8 c)) <$> cs /\
    mem (Machine.sh run.1) !! 8 = Some (wrap32 (4294967295 + foldr (fun c n => amount c + n) 0 cs))) /\
  mem (Machine.sh run.1) !! 8 = Some 1.
Proof.
  split; [|vm_compute; reflexivity].
  apply (counter_total 8 all_trivial {[8 := 4294967295]} threads (length schedule) run.2 run.1 4294967295).
  - intros u p. apply two_threads; repeat (apply Forall_cons; split); try (by apply Forall_nil);
      [by exists Increment|by exists GetValue|by exists Increment].
  - reflexivity.
  - reflexivity.
  - exact counter_run_steps.
  - vm_compute. reflexivity.
  - exact counter_run_quiescent.
Defined.
End CounterRun.

Module PairRun.
Import Pair.
Definition threads : gmap tid_t (list (txn Z unit (Z * Z)) * unit) :=
  {[0%nat := ([body_of 8 16 (WriteBoth 2); body_of 8 16 Swap], tt); 1%nat := ([body_of 8 16 ReadBoth], tt)]}.
Definition start_state := Machine.init (LS := OrderedSet.oset) {[8 := 1; 16 := 1]} threads.
Definition schedule : list tid_t := turns [(1, 5); (0, 80); (1, 80)]%nat start_state.
Definition run := final start_state schedule.

Lemma pair_run_steps : Machine.steps all_trivial (length schedule) start_state run.2 run.1.
Proof. apply final_run. vm_compute. reflexivity. Qed.

Lemma snapshots_equal_witness : exists th r, Machine.ths run.1 !! 1%nat = Some th /\
  Val r ∈ results th /\ r = (2, 2) /\ r.1 = r.2.
Proof.
  assert (E : results <$> Machine.ths run.1 !! 1%nat = Some [Val (2, 2)]) by (vm_compute; reflexivity).
  destruct (Machine.ths run.1 !! 1%nat) as [th|] eqn:Et; [|discriminate E].
  assert (Er : results th = [Val (2, 2)]) by (injection E as E'; exact E'). exists th, (2, 2).
  assert (Hin : Val (2, 2) ∈ results th) by (rewrite Er; left).
  split; [reflexivity|]. split; [exact Hin|]. split; [reflexivity|].
  apply (snapshots_equal 8 16 ltac:(discriminate) all_trivial {[8 := 1; 16 := 1]} threads (length schedule) run.2 run.1 1 1 th (2, 2)).
  - intros u p. apply two_threads; repeat (apply Forall_cons; split); try (by apply Forall_nil);
      [by exists (WriteBoth 2)|by exists Swap|by exists ReadBoth].
  - reflexivity.
  - reflexivity.
  - exact pair_run_steps.
  - vm_compute. reflexivity.
  - exact Et.
  - exact Hin.
Defined.
End PairRun.

Module PetersonRun.
Import Peterson.
Definition threads : gmap tid_t (list (txn Z unit Z) * unit) :=
  {[0%nat := ([plain (lock 8 16 24 3 false); plain (unlock 8 16 false)], tt);
    1%nat := ([plain (lock 8 16 24 3 true)], tt)]}.
Definition memory : gmap addr_t Z := {[8 := 0; 16 := 0; 24 := 0]}.
Definition start_state := Machine.init (LS := OrderedSet.oset) memory threads.
Definition schedule : list tid_t := turns [(1, 5); (0, 80); (1, 80)]%nat start_state.
Definition run := final start_state schedule.

Lemma peterson_run_steps : Machine.steps all_trivial (length schedule) start_state run.2 run.1.
Proof. apply final_run. vm_compute. reflexivity. Qed.

Lemma peterson_run_quiescent : quiescent run.1.
Proof. apply quiescentb_spec. vm_compute. reflexivity. Qed.

Lemma peterson_excludes_witness : exclusive 8 16 (mem (Machine.sh run.1)) /\
  mem (Machine.sh run.1) !! 16 = Some 1.
Proof.
  split; [|vm_compute; reflexivity].
  apply (peterson_excludes 8 16 24 ltac:(repeat split; discriminate) all_trivial memory threads (length schedule) run.2 run.1).
  - intros u p. apply two_threads; repeat (apply Forall_cons; split); try (by apply Forall_nil).
    + exists 3%nat, false. left. reflexivity.
    + exists 3%nat, false. right. reflexivity.
    + exists 3%nat, true. left. reflexivity.
  - intros [E _]. vm_compute in E. discriminate E.
  - exact peterson_run_steps.
  - vm_compute. reflexivity.
  - exact peterson_run_quiescent.
Defined.
End PetersonRun.

(** The Peterson test, one turn each: the second thread begins, the first one takes
    the lock, and both end. *)
Module PetersonTestRun.
Import PetersonTest.

Abbreviation act := (act (LS := OrderedSet.oset) all_trivial).
Abbreviation run_test := (run_test (LS := OrderedSet.oset) all_trivial).
Definition start_state := test_start (LS := OrderedSet.oset) 8 16 24 [3%nat] [3%nat] PetersonRun.memory.

(** The next actions of a thread, in the library or in its increment. *)
Fixpoint drive_test (fuel : nat) (id : bool) (s : test_sys (LS := OrderedSet.oset)) : list action * test_sys (LS := OrderedSet.oset) :=
  match fuel with
  | O => ([], s)
  | S fuel' =>
      match act (Transact id) s, act (Increment id) s with
      | Some (s', _), _ => let r := drive_test fuel' id s' in (Transact id :: r.1, r.2)
      | None, Some (s', _) => let r := drive_test fuel' id s' in (Increment id :: r.1, r.2)
      | None, None => ([], s)
      end
  end.

Definition acts : list action :=
  let r1 := drive_test 5 true start_state in
  let r2 := drive_test 200 false r1.2 in
  let r3 := drive_test 200 true r2.2 in r1.1 ++ r2.1 ++ r3.1.

Definition ended : test_sys (LS := OrderedSet.oset) := (default (start_state, []) (run_test acts start_state)).1.

Lemma peterson_counts_witness : counter ended = 2 /\
  exists evs, run_test acts start_state = Some (ended, evs).
Proof.
  assert (E : exists evs, run_test acts start_state = Some (ended, evs)).
  { unfold ended. destruct (run_test acts start_state) as [[s evs]|] eqn:Er; [by exists evs|]. vm_compute in Er. discriminate Er. }
  split; [|exact E]. destruct E as [evs E].
  refine (proj2 (proj2 (peterson_counts 8 16 24 _ all_trivial [3%nat] [3%nat] PetersonRun.memory _ acts ended evs _ E)) _).
  - repeat split; discriminate.
  - intros [F _]. vm_compute in F. discriminate F.
  - vm_compute. reflexivity.
  - apply finishedb_spec. vm_compute. reflexivity.
Defined.
End PetersonTestRun.

(** ** Programs on a counter *)
Module ProgramRun.
Import Counter.

#[local] Existing Instance counter_object.
#[local] Existing Instance counter_laws.

Definition progs : gmap tid_t (list call * unit) :=
  {[0%nat := ([Increment; GetValue], tt); 1%nat := ([Increment], tt)]}.
Definition start_state := Machine.init (LS := OrderedSet.oset) {[8 := 0]} (calls (H1 := counter_object 8) <$> progs).
Definition schedule : list tid_t := turns [(1, 5); (0, 80); (1, 80)]%nat start_state.
Definition run := final start_state schedule.

Lemma program_run_steps : Machine.steps all_trivial (length schedule) start_state run.2 run.1.
Proof. apply final_run. by vm_compute. Qed.

Lemma programs_linearizable_witness :
  (exists sched order, interleaves progs sched /\ seen (H1 := counter_object 8) progs sched 0 run.1 /\
    order ≡ₚ run.2 /\ StronglySorted (fun e1 e2 => e_wv e1 < e_wv e2) order /\
    Forall2 (commits_at (H1 := counter_object 8)) sched order) /\
  (results <$> Machine.ths run.1 !! 0%nat) = Some [Val 0; Val 1] /\
  (results <$> Machine.ths run.1 !! 1%nat) = Some [Val 0].
Proof.
  split; [|split; by vm_compute].
  apply (programs_linearizable (H2 := laws_guarded _ _ _ _ _ (H0 := counter_laws 8)) all_trivial {[8 := 0]} progs
    (length schedule) run.2 run.1 0).
  - by intros [].
  - apply lookup_singleton_eq.
  - intros sched _. apply admissible_true.
  - exact program_run_steps.
  - by vm_compute.
Defined.
End ProgramRun.

(** ** A producer and a consumer *)
Module ProducerRun.
Import BQueue QueueRuns.

(** A capacity that does not divide 2^64. *)
Definition three : layout := Layout 3 8 16 (fun i => 64 + 8 * Z.abs i).
Definition items : list (Z * nat) := [(5, 0%nat); (6, 0%nat); (7, 0%nat)].
Definition got : list (Z * nat) := [(5, 1%nat); (6, 0%nat)].
Definition memory : gmap addr_t (cell Z) := {[8 := Size 0; 16 := Size 0; 64 := Item 0; 72 := Item 0; 80 := Item 0]}.
Definition start_state := Machine.init (LS := OrderedSet.oset) memory
  (calls (H1 := queue_object 0 three) <$> producer_consumer items got (Captured false 0 0) (Captured false 0 0)).
Definition schedule : list tid_t := turns [(2, 20); (1, 400); (2, 400)]%nat start_state.
Definition run := final start_state schedule.

Lemma three_ok : layout_ok three.
Proof. constructor; cbn [capacity head_at tail_at item_at three]; try lia; done. Qed.

Lemma three_rep : rep three memory [] (2 ^ 63).
Proof.
  constructor; [by vm_compute|]. exists 0. split; [by vm_compute|]. split; [done|]. split; [done|].
  split; [|by right]. intros i x Hi. by rewrite lookup_nil in Hi.
Qed.

Lemma producer_run_steps : Machine.steps all_trivial (length schedule) start_state run.2 run.1.
Proof. apply final_run. by vm_compute. Qed.

Lemma producer_consumer_fifo_witness : exists room, rep three (mem (Machine.sh run.1)) [7] room.
Proof.
  assert (E1 : results <$> Machine.ths run.1 !! 1%nat = Some (Val <$> produced items)) by (vm_compute; reflexivity).
  assert (E2 : results <$> Machine.ths run.1 !! 2%nat = Some (Val <$> consumed 0 got)) by (vm_compute; reflexivity).
  apply fmap_Some in E1 as (th1 & H1 & E1). apply fmap_Some in E2 as (th2 & H2 & E2).
  destruct (producer_consumer_fifo 0 three three_ok all_trivial memory items got (Captured false 0 0) (Captured false 0 0)
    (length schedule) run.2 run.1 th1 th2 (2 ^ 63)) as (rest & room & Hp & Hr & _).
  - exact three_rep.
  - right. vm_compute. discriminate.
  - exact producer_run_steps.
  - vm_compute. reflexivity.
  - apply finishedb_spec. vm_compute. reflexivity.
  - exact H1.
  - exact (eq_sym E1).
  - exact H2.
  - exact (eq_sym E2).
  - exists room. injection Hp as Hp. rewrite Hp. exact Hr.
Defined.
End ProducerRun.

(** ** Programs on the linked queue *)
Module LinkedRun.
Import STMQueue QueueObject.

Definition dummy_node : node Z := Node 64 0.
Definition memory : gmap addr_t (option (node Z)) := {[8 := Some dummy_node; 16 := Some dummy_node; 64 := None]}.
Definition progs : gmap tid_t (list (op Z) * option Z) :=
  {[0%nat := ([Enqueue (Node 72 5); Dequeue], None); 1%nat := ([Enqueue (Node 80 6); Dequeue], None)]}.
Definition empty_queue : queue_state (T := Z) := QueueState dummy_node [] {[8; 16; 64]}.
Definition start_state := Machine.init (LS := OrderedSet.oset) memory (calls (H1 := linked_object 8 16) <$> progs).

(** The first call of the second thread starts, aborts and comes after the first thread's calls. *)
Definition schedule : list tid_t := turns [(1, 8); (0, 200); (1, 400)]%nat start_state.
Definition run := final start_state schedule.

Lemma memory_rep : object_rep 8 16 memory empty_queue.
Proof.
  split.
  - constructor; [by vm_compute|by vm_compute|by vm_compute|]. by apply (bool_decide_unpack _); vm_compute.
  - intros a. simpl. rewrite !elem_of_cons, elem_of_nil. set_solver.
Qed.

Lemma linked_run_fresh : fit_ops (all_ops progs) empty_queue.
Proof.
  split; [by apply (bool_decide_unpack _); vm_compute|]. intros a Ha.
  change (new_nodes (all_ops progs)) with [80; 72] in Ha. rewrite !elem_of_cons, elem_of_nil in Ha. simpl. clear -Ha. set_solver.
Qed.

Lemma linked_run_steps : Machine.steps all_trivial (length schedule) start_state run.2 run.1.
Proof. apply final_run. by vm_compute. Qed.

Lemma linked_run_quiescent : quiescent run.1.
Proof. apply quiescentb_spec. by vm_compute. Qed.

Lemma linked_queue_fifo_witness :
  (exists sched, interleaves progs sched /\ exists d l, rep 8 16 (mem (Machine.sh run.1)) d l /\
    omap enqueued (zip sched.*2 (ob_run (H := linked_object 8 16) sched.*2 empty_queue).1) =
    omap dequeued (zip sched.*2 (ob_run (H := linked_object 8 16) sched.*2 empty_queue).1) ++ (value <$> l)) /\
  (results <$> Machine.ths run.1 !! 0%nat) = Some [Val None; Val (Some 5)] /\
  (results <$> Machine.ths run.1 !! 1%nat) = Some [Val None; Val (Some 6)].
Proof.
  split; [|split; by vm_compute].
  destruct (linked_queue_fifo 8 16 all_trivial memory progs (length schedule) run.2 run.1 empty_queue) as (sched & Hil & _ & Hq).
  - exact memory_rep.
  - exact linked_run_fresh.
  - exact linked_run_steps.
  - by vm_compute.
  - destruct (Hq linked_run_quiescent) as (d & l & Hr & E). exists sched. split; [exact Hil|]. exists d, l. split; [exact Hr|exact E].
Defined.
End LinkedRun.

(** ** Programs on the ordered list *)
Module OrderedRun.
Import OrderedLinkedList OrderedObject.

Definition progs : gmap tid_t (list (op (T := Z)) * bool) :=
  {[0%nat := ([Add 5 100; Remove 7], false); 1%nat := ([Add 7 108; Contains 5], false)]}.
Definition memory := empty_list 0 10 20 ∅.
Definition no_key : set_state := SetState ∅ {[10; 20]}.
Definition start_state :=
  Machine.init (LS := OrderedSet.oset) memory (calls (H1 := ordered_object 0 id 10 20 5) <$> progs).
Definition schedule : list tid_t := turns [(1, 5); (0, 120); (1, 120)]%nat start_state.
Definition run := final start_state schedule.

Lemma ordered_run_steps : Machine.steps all_trivial (length schedule) start_state run.2 run.1.
Proof. apply final_run. by vm_compute. Qed.

Lemma ordered_list_linearizable_witness :
  (exists sched order, interleaves progs sched /\ seen (H1 := ordered_object 0 id 10 20 5) progs sched no_key run.1 /\
    order ≡ₚ run.2 /\ StronglySorted (fun e1 e2 => e_wv e1 < e_wv e2) order /\
    Forall2 (commits_at (H1 := ordered_object 0 id 10 20 5)) sched order) /\
  (results <$> Machine.ths run.1 !! 0%nat) = Some [Val true; Val false] /\
  (results <$> Machine.ths run.1 !! 1%nat) = Some [Val true; Val true].
Proof.
  split; [|split; by vm_compute].
  apply (ordered_list_linearizable 0 id 10 20 5 all_trivial memory progs (length schedule) run.2 run.1 no_key).
  - exists []. split; [by apply rep_empty|]. split; [done|]. by intros n Hn%elem_of_nil.
  - constructor; [|apply (bool_decide_unpack _); by vm_compute| |split; set_solver|vm_compute; lia].
    + change (Forall (fun o => INT_MIN < key_of id o < INT_MAX) (all_ops progs)). apply (bool_decide_unpack _). by vm_compute.
    + apply Forall_forall. apply (bool_decide_unpack _). by vm_compute.
  - exact ordered_run_steps.
  - by vm_compute.
Defined.
End OrderedRun.

(** ** A node deleted under a reader *)
Module DeletedNode.
Import LinkedList.

(** Thread 1 reads the head of the list of 5; thread 0 removes 5 to the end of
    its transaction, and [remove] deletes the node. *)
Definition threads : gmap tid_t (list (txn (cell Z) bool pointer) * bool) :=
  {[0%nat := ([remove Z.eqb fields 5 5], false);
    1%nat := ([Txn id (Tx.bind (get_body Z.eqb fields 5 5) (fun _ => Ret None)) (fun _ now => now)], false)]}.
Definition start_state := Machine.init (LS := OrderedSet.oset) of_five threads.
Definition schedule : list tid_t := turns [(1, 5); (0, 80)]%nat start_state.
Definition run := final start_state schedule.

Definition after_delete : shared (cell Z) :=
  let x := Machine.sh run.1 in Shared (clock x) (tbl x) (delete_node (Some (Node 30 38)) (mem x)).

(** The reader loads from memory that was freed: it has no step, though none of
    its locks is held. *)
Lemma reader_of_deleted :
  Machine.steps all_trivial (length schedule) start_state run.2 run.1 /\
  (results <$> Machine.ths run.1 !! 0%nat) = Some [Val (Some (Node 30 38))] /\
  exists th k, Machine.ths run.1 !! 1%nat = Some th /\ at_pc th = Load 30 k /\
    Machine.tstep all_trivial 1 after_delete th = None /\ Machine.tstep all_trivial 1 (Machine.sh run.1) th <> None.
Proof.
  split; [apply final_run; by vm_compute|]. split; [by vm_compute|].
  destruct (Machine.ths run.1 !! 1%nat) as [th|] eqn:E; [|vm_compute in E; discriminate E].
  vm_compute in E. injection E as <-. eexists _, _. split; [reflexivity|]. split; [reflexivity|].
  split; [by vm_compute|]. by vm_compute.
Qed.
End DeletedNode.

(** ** The bank on two threads *)
Module BankRun.
Import HashMap Bank BankObject.

(** A transfer between two accounts of one bucket, and a withdrawal from one of them. *)
Definition progs : gmap tid_t (list (op (K := Z)) * bool) :=
  {[0%nat := ([Exec (Add 7 50) (nodes 2) (nodes 3); Exec (Transfer 7 (7 + 1024) 30) (nodes 4) (nodes 5)], false);
    1%nat := ([Exec (Withdraw 7 10) (nodes 0) (nodes 1)], false)]}.
Definition memory := empty_map (KeyT := Z) (ItemT := Account (K := Z)) buckets_at ∅.
Definition no_accounts : bank_state (K := Z) := BankState (fun _ => None) (nodes <$> seqZ 0 6) 0.
Definition start_state :=
  Machine.init (LS := OrderedSet.oset) memory (calls (H1 := bank_object id buckets_at 0 6) <$> progs).
Definition schedule : list tid_t := turns [(0, 100); (1, 40); (0, 400); (1, 400)]%nat start_state.
Definition run := final start_state schedule.

Lemma bank_run_steps : Machine.steps all_trivial (length schedule) start_state run.2 run.1.
Proof. refine (final_run start_state schedule _). by vm_compute. Qed.

Lemma bank_linearizable_witness :
  exists ts f b, ts ≡ₚ [Withdraw 7 10; Add 7 50; Transfer 7 (7 + 1024) 30] /\ run_bank ts (fun _ => None) = Some f /\
    rep buckets_at (mem (Machine.sh run.1)) b /\ forall x, lookup_key (no_account 0) id b x = f x.
Proof.
  assert (Hr : object_rep id buckets_at 0 memory no_accounts).
  { exists (fun _ => []). split; [exact (rep_empty_map buckets_at buckets_at_inj ∅)|]. split; [done|]. split; [|simpl; lia].
    intros n (i & -> & Hi%elem_of_seqZ)%list_elem_of_fmap. apply fresh_nodes. lia. }
  assert (Hf : fit_ops 6 (all_ops progs) no_accounts).
  { constructor; [apply (bool_decide_unpack _); by vm_compute| |vm_compute; lia|].
    - assert (E : all_ops progs ≫= nodes_of = nodes <$> seqZ 0 6) by (by vm_compute). intros n. by rewrite E.
    - exists 0. split; [lia|]. split; [by intros x a|by vm_compute]. }
  destruct (proj2 (bank_linearizable id buckets_at 0 6 all_trivial memory progs (length schedule) run.2 run.1 no_accounts
    Hr Hf bank_run_steps ltac:(by vm_compute)) ltac:(apply finishedb_spec; by vm_compute)) as (ts & f & b & Hp & H1 & H2 & H3).
  exists ts, f, b. split; [|split; [exact H1|split; [exact H2|exact H3]]].
  rewrite Hp. vm_compute. reflexivity.
Defined.
End BankRun.
